(* ===== verification/_CoqProject ===== *)
-Q . S2P
Prelude.v
CppString.v
Log.v
Http.v
HttpSpec.v
Config.v
Cache.v
CacheSpec.v
Kernel.v
SimKernel.v
Socket.v
SocketSpec.v
Resolver.v
ResolverSpec.v
FdHandle.v
Connection.v
ConnectionInv.v
ConnectionSpec.v
ConnectionBounds.v
EventLoop.v
EventLoopInv.v
ConnResolver.v
EventLoopSpec.v
LoopFootprint.v
LoopShared.v
ConnQueue.v
ThreadPool.v
ThreadPoolStop.v
ThreadPerConn.v
Sharded.v
ShardedSys.v
EventThreads.v
RunSteps.v
ProxyInv.v
ProxyEnd.v
ProxySys.v
ProxyOwners.v
ProxyStart.v
Main.v
MainSpec.v
MainLog.v
MainRun.v
Crew.v
ThreadProgram.v
ThreadSys.v
PoolProgram.v
TpcProgram.v
ThreadRun.v
