(* ===== verification/Prelude.v ===== *)
(** * evproxy, verified

evproxy is a forward HTTP proxy written three times over the same core: one
thread per connection, a thread pool behind a bounded queue, and an event loop
(optionally several, "shards").  This library models the C++ sources under
src/src and proves what makes them correct.

** The program and its model

The parts, from the bottom up, and the files that model them.  Names are those
of the source.

- [CppString.v]: the searches of [std::string], [tolower], [strtol], [strtoul],
  [atoi] and [std::to_string], as the sources use them.  Integers are [Z] within
  the range of their C++ type; [wrap64] and [to_int32] are written out.
- [Log.v] (log.hpp): both overloads of [log_at], with [fprintf] as far as it is used,
  and the threads that log under the mutex.
- [Http.v] (http.hpp, http.cpp): [parse_request], [header_value],
  [build_upstream_request], [error_response].  A byte string is a list of
  [ascii]; [Request&] is a record passed in and returned.
- [Config.v] (config.hpp, config.cpp): the [Config] struct and [load_config].
- [Cache.v], [CacheSpec.v] (cache.hpp, cache.cpp): the LRU response cache, with
  list nodes that have an identity (iterators) and an index from keys to them.
- [Kernel.v], [SimKernel.v]: the operating system is not part of the repository.
  [Kernel] is the class of the system calls made, [KernelLaws] what is assumed
  of them, [Obs] what can be observed (descriptor table, bytes exchanged, kqueue
  registrations).  [SimKernel.v] is an executable instance; the examples run on it.
- [Socket.v], [SocketSpec.v] (socket.hpp, socket.cpp): every function; an [Fd] is the
  number it holds.  [FdHandle.v]: the class [Fd] itself, objects moved and destroyed.
- [Resolver.v], [ResolverSpec.v] (resolver.hpp, resolver.cpp): the DNS cache, the
  job queue, reference-counted jobs, and the threads as a transition system.
- [Connection.v], with [ConnectionInv.v], [ConnectionSpec.v] and
  [ConnectionBounds.v] (connection.hpp, connection.cpp): the state machine of one
  exchange; each private member is a function on [Connection] and [World] (the
  kernel, the resolver and the cache it shares with others).
- [EventLoop.v], [EventLoopInv.v], [EventLoopSpec.v] (backend/event_loop.cpp): the
  classes [Inbox] and [EventLoop], one loop while others do what they may.
  [Sharded.v]: [ShardedEventLoop], its setting up and its acceptor.
- [EventThreads.v]: the threads of the event loop backends from the call of [run] to the
  end of [main] as one transition system: the shard threads ([EventLoop::run] cut
  where another thread can act; [RunSteps.v] shows it is the function of
  [EventLoop.v]), the acceptor, [stop] in the signal handler, the joins, the resolver
  threads, [shutdown] and the destructors.
- [ConnResolver.v], [LoopFootprint.v], [LoopShared.v]: what one connection, one loop and
  one resolver thread do to the state they share (the frame conditions);
  [ShardedSys.v], [ProxyInv.v], [ProxyEnd.v], [ProxySys.v]: the invariant of that system
  and that every step keeps it; [ProxyOwners.v]: who owns which descriptor;
  [ProxyStart.v]: it holds at the start.
- [ConnQueue.v] (conn_queue.hpp, conn_queue.cpp), [ThreadPool.v] and
  [ThreadPoolStop.v] (backend/thread_pool.cpp), [ThreadPerConn.v]
  (backend/thread_per_conn.cpp): the queue as functions tried at every wakeup,
  and the threads as transition systems over it, abstract in what serving a client is.
- [ThreadProgram.v], [PoolProgram.v], [TpcProgram.v]: the same two backends in full, on the
  kernel, the resolver and the cache: [accept_loop], [worker_loop], [run], [serve] and
  [stop] step by step with the system calls they make and the connections they
  serve, and [main] around them.  What [main] needs of such a backend is the class
  [ThreadBackend] with its laws, of which the two are instances; each also
  implements its abstract system step by step ([pool_simulated], [tpc_simulated]).
  [Crew.v]: the invariant of a group of threads, each with a connection at most;
  [ThreadSys.v]: the invariant of the program, proved from the laws of the class.
- [Main.v], [MainSpec.v] (main.cpp, backend/factory.cpp, backend/backend.hpp): the
  command line, its merge with the file, and what is set up before [run].
  [MainLog.v]: what [main] logs.  [MainRun.v]: [main] from its start to its end with
  the event loop backends; [ThreadRun.v]: with the thread backends.

A connection calls the parser, the resolver, the cache and the kernel; a backend
calls the connection through [want_fd], [want_write], [epoch], [done] and
[on_ready].  The cache is an interface ([ResponseCache], a class with laws in
[CacheSpec.v]) of which [LruCache] is the instance, as the virtual class is in the
source; connections are verified against the laws.

** What is shown

- HTTP: the parser depends only on the header block, inverts the printer of
  well-formed requests, and saturates lengths; the rebuilt request has exactly
  the intended lines, so no client can smuggle a header or end the block early.
- Cache: every sequence of operations refines an abstract LRU list; bounds after a
  fresh insertion, and that an update can exceed them; keys do not collide.
- Connection: in every state reachable while other threads act, the client has
  been sent part of one answer (an error page, a cached response or what the
  origin sent) and nothing else; the origin gets a beginning of the rebuilt
  request; only complete responses reach the cache; no descriptor leaks; what
  it waits for changes only with [epoch]; buffers are bounded.
- Resolver: a ready job has its final answer; after shutdown every queued job was
  completed; an expired DNS entry is not served.
- Event loop: one registration per live connection, for what it waits for; nothing is
  left after [run].  Sharded: clients are dealt in turn.
- The whole program with the event loop backends, in every interleaving and for every
  kernel that obeys the laws: each open descriptor has exactly one owner, and what was
  open before is left alone; each live connection is registered for what it waits
  for and its lookup is not lost; some thread can always go on until [main]
  returns; and then exactly what was open before is open.
- Handles and logging: an [Fd] object holds its descriptor alone; log lines do not mix.
- The whole program with the thread backends, likewise: one holder for each open
  descriptor, one answer for each client, complete responses in the shared cache.
- Thread pool: the program refines the abstract pool, so it is bounded and first come
  first served; no lost wakeup, never stuck, nothing left behind, and a bound on the
  steps to the end.  Thread per connection: the program refines the abstract system;
  [live_] is a barrier; [main] gets to its end, with nothing left behind if
  the drain did not run out of time ([grace_period_abandons]: if it did, threads remain).
- Program entry: which settings win, and that they stay within their types.

** Fuel and bounds

Loops of the source that are structural (over a list of headers, lines, addresses,
arguments) are [Fixpoint]s on it or have its length as fuel, with a lemma that more
fuel gives the same answer.  The retry loops on EINTR are bounded by [interrupts],
the number of further signals; [until_done_spec] shows the bound is never hit.
The loops that go on while the kernel has more to give (accepting, emptying the
wakeup pipe) take a [budget], for which the theorems are quantified; readings of
the stop flag are a list of booleans.

** What is not modelled

- The [err] strings that are only logged, the log lines of the backends, the usage text,
  the tests, the benchmarks and the documents.
- Memory orders and data races below the level of mutexes and atomics: a critical
  section is one step, and so is an atomic operation.
- Time, except the steady clock of the DNS cache and the grace periods, which
  are counted in rounds as the source does.
- Interleavings inside one event handler: threads take turns at [on_ready] and at the
  waiting between two calls of it, a resolver thread step by step.
- [std::thread] that cannot be started; what a detached thread of the
  thread-per-connection backend does after [main] has destroyed what it uses, which is
  undefined: the model stops there. *)
From Stdlib Require Export Ascii ZArith Lia.
From stdpp Require Export base gmap strings numbers functions list.

#[global] Open Scope Z_scope.

(** ** Byte strings *)

(** A C++ [std::string] is a sequence of bytes; [lit] turns a literal of the
source into one.  CR, LF and TAB have no escape in a Rocq literal. *)
Abbreviation str := (list ascii).

Definition lit (s : string) : str := String.list_ascii_of_string s.

Definition CR : ascii := "013"%char.
Definition LF : ascii := "010"%char.
Definition TAB : ascii := "009"%char.
Definition crlf : str := [CR; LF].

(** ** Machine integers *)

(** [size_t], [uint64_t] and [unsigned long] are 64-bit and wrap around;
[int] is 32-bit two's complement. *)
Definition ULONG_MAX : Z := 2 ^ 64 - 1.
Definition LONG_MAX : Z := 2 ^ 63 - 1.
Definition LONG_MIN : Z := - 2 ^ 63.
Definition INT_MAX : Z := 2 ^ 31 - 1.
Definition INT_MIN : Z := - 2 ^ 31.
Definition wrap64 (z : Z) : Z := z mod 2 ^ 64.
Definition to_int32 (z : Z) : Z := (z + 2 ^ 31) mod 2 ^ 32 - 2 ^ 31.

(** The values of the C++ types. *)
Definition is_int (z : Z) : Prop := INT_MIN ≤ z ≤ INT_MAX.
Definition is_long (z : Z) : Prop := LONG_MIN ≤ z ≤ LONG_MAX.
Definition is_size_t (z : Z) : Prop := 0 ≤ z ≤ ULONG_MAX.

(** [s.size()] as a [size_t]. *)
Definition zlen {A} (s : list A) : Z := Z.of_nat (length s).

(** ** Generic lemmas *)

Lemma Forall_filter_sub {A} (P Q : A → Prop) `{∀ x, Decision (Q x)} (l : list A) :
  Forall P l → Forall P (filter Q l).
Proof. rewrite !Forall_forall. intros Hl x [_ Hx]%list_elem_of_filter. auto. Qed.

Lemma wrap64_typed z : is_size_t (wrap64 z).
Proof. unfold is_size_t, wrap64, ULONG_MAX. pose proof (Z.mod_pos_bound z (2 ^ 64)). lia. Qed.

Lemma to_int32_typed z : is_int (to_int32 z).
Proof. unfold is_int, to_int32, INT_MIN, INT_MAX. pose proof (Z.mod_pos_bound (z + 2 ^ 31) (2 ^ 32)). lia. Qed.

(** ** Automation *)

(** What is known of the range of a machine integer. *)
Create HintDb ctypes.
#[export] Hint Resolve wrap64_typed to_int32_typed : ctypes.

(** Closes a goal without variables by running its decision procedure. *)
Ltac decide_closed := refine (bool_decide_unpack _ _); vm_compute; exact I.

(** Closes a goal from a hypothesis that is false of closed values. *)
Ltac refute_closed H := exfalso; revert H; decide_closed.
