(* ===== verification/CppString.v ===== *)
(** * The part of [std::string] and [<cstdlib>] that evproxy uses

Positions are [nat], and a search that returns [std::string::npos] is [None].
[find_if]/[rfind_if] are the character searches, [find_str] the substring
search; [substr] is [std::string::substr] for an in-range position. *)
From S2P Require Import Prelude.

(** ** Searching *)

(** [s.find(c)] with the test on the character left abstract. *)
Fixpoint find_if (P : ascii → bool) (s : str) : option nat :=
  match s with
  | [] => None
  | x :: s' => if P x then Some 0%nat else S <$> find_if P s'
  end.

(** [s.rfind(c)]: the last position instead of the first. *)
Fixpoint rfind_if (P : ascii → bool) (s : str) : option nat :=
  match s with
  | [] => None
  | x :: s' =>
      match rfind_if P s' with
      | Some i => Some (S i)
      | None => if P x then Some 0%nat else None
      end
  end.

Definition is_char (c x : ascii) : bool := bool_decide (x = c).
Definition in_set (set : str) (x : ascii) : bool := bool_decide (x ∈ set).

Definition find_char (c : ascii) (s : str) : option nat := find_if (is_char c) s.
Definition rfind_char (c : ascii) (s : str) : option nat := rfind_if (is_char c) s.
Definition find_first_not_of (set s : str) : option nat := find_if (negb ∘ in_set set) s.
Definition find_last_not_of (set s : str) : option nat := rfind_if (negb ∘ in_set set) s.

Fixpoint is_prefix (p s : str) : bool :=
  match p, s with
  | [], _ => true
  | x :: p', y :: s' => bool_decide (x = y) && is_prefix p' s'
  | _ :: _, [] => false
  end.

(** [s.find(pat)]. *)
Fixpoint find_str (pat s : str) : option nat :=
  if is_prefix pat s then Some 0%nat
  else match s with
       | [] => None
       | _ :: s' => S <$> find_str pat s'
       end.

(** [s.find(x, from)]: the search of the suffix, its position shifted back. *)
Definition find_char_from (c : ascii) (s : str) (from : nat) : option nat :=
  Nat.add from <$> find_char c (drop from s).
Definition find_str_from (pat s : str) (from : nat) : option nat :=
  Nat.add from <$> find_str pat (drop from s).

(** [s.substr(pos, n)] and [s.substr(pos)], for [pos <= s.size()]. *)
Definition substr (s : str) (pos n : nat) : str := take n (drop pos s).
Definition substr_from (s : str) (pos : nat) : str := drop pos s.

(** The blank-trimming idiom both [http.cpp] and [config.cpp] write with
[find_first_not_of]/[find_last_not_of]. *)
Definition trim_set (set s : str) : str :=
  match find_first_not_of set s with
  | None => []
  | Some b =>
      match find_last_not_of set s with
      | None => []
      | Some e => substr s b (e - b + 1)
      end
  end.

(** ** Characters *)

(** [std::tolower] in the "C" locale. *)
Definition tolower (c : ascii) : ascii :=
  let n := nat_of_ascii c in
  if (65 <=? n)%nat && (n <=? 90)%nat then ascii_of_nat (n + 32) else c.

Definition isdigit (c : ascii) : bool :=
  let n := nat_of_ascii c in (48 <=? n)%nat && (n <=? 57)%nat.

(** [std::isspace] in the "C" locale. *)
Definition isspace (c : ascii) : bool :=
  let n := nat_of_ascii c in ((9 <=? n)%nat && (n <=? 13)%nat) || (n =? 32)%nat.

Definition digits : str := lit "0123456789".

(** ** Numbers *)

Definition digit_val (c : ascii) : Z := Z.of_nat (nat_of_ascii c) - 48.

(** The value of a run of digits, most significant first. *)
Definition dec_val (acc : Z) (ds : str) : Z :=
  foldl (λ v c, v * 10 + digit_val c) acc ds.

(** The digits at the front of [s]. *)
Fixpoint digit_run (s : str) : str :=
  match s with
  | c :: s' => if isdigit c then c :: digit_run s' else []
  | [] => []
  end.

Fixpoint skip_space (s : str) : str :=
  match s with
  | c :: s' => if isspace c then skip_space s' else s
  | [] => []
  end.

(** The subject sequence of [strtol]/[strtoul] in base 10: white space, an
optional sign, then digits; (negative?, magnitude). *)
Definition strto_parts (s : str) : bool * Z :=
  match skip_space s with
  | c :: s' =>
      if bool_decide (c = "-"%char) then (true, dec_val 0 (digit_run s'))
      else if bool_decide (c = "+"%char) then (false, dec_val 0 (digit_run s'))
      else (false, dec_val 0 (digit_run (c :: s')))
  | [] => (false, 0)
  end.

(** [strtoul(s, nullptr, 10)] for a 64-bit [unsigned long]: a magnitude out of
range saturates at [ULONG_MAX], and a minus sign negates modulo 2^64. *)
Definition strtoul (s : str) : Z :=
  let '(neg, m) := strto_parts s in
  if ULONG_MAX <? m then ULONG_MAX
  else if neg then wrap64 (- m) else m.

(** [strtol(s, nullptr, 10)] for a 64-bit [long]: saturates at both ends. *)
Definition strtol (s : str) : Z :=
  let '(neg, m) := strto_parts s in
  Z.max LONG_MIN (Z.min LONG_MAX (if neg then - m else m)).

(** [atoi], which the C library defines as [(int)strtol(s, nullptr, 10)]. *)
Definition atoi (s : str) : Z := to_int32 (strtol s).

(** [std::to_string] of a non-negative number: the decimal digits, no leading
zero.  A number has at most as many decimal as binary digits, so [digits_fuel]
iterations are enough. *)
Definition digit_char (d : Z) : ascii := ascii_of_nat (Z.to_nat (48 + d)).

Fixpoint to_digits (fuel : nat) (n : Z) (acc : str) : str :=
  match fuel with
  | O => acc
  | S fuel' =>
      let acc' := digit_char (n mod 10) :: acc in
      if n <? 10 then acc' else to_digits fuel' (n / 10) acc'
  end.

Definition digits_fuel (n : Z) : nat := S (Z.to_nat (Z.log2 n)).
Definition to_string (n : Z) : str := to_digits (digits_fuel n) n [].

(** [std::to_string] of an [int]. *)
Definition int_to_string (n : Z) : str := if n <? 0 then "-"%char :: to_string (- n) else to_string n.

(** ** Character searches *)

Section find_if.
Context (P : ascii → bool).

Abbreviation misses := (Forall (λ y, P y = false)).

Lemma find_if_None s : find_if P s = None ↔ misses s.
Proof.
  induction s as [|x s IH]; simpl; [done|].
  rewrite Forall_cons, <-IH. destruct (P x) eqn:E, (find_if P s); naive_solver.
Qed.

Lemma find_if_hit pre x post :
  misses pre → P x = true → find_if P (pre ++ x :: post) = Some (length pre).
Proof. induction 1 as [|y pre Hy _ IH]; simpl; intros Hx; [by rewrite Hx|by rewrite Hy, IH]. Qed.

Lemma find_if_Some s i :
  find_if P s = Some i →
  ∃ pre x post, s = pre ++ x :: post ∧ length pre = i ∧ P x = true ∧ misses pre.
Proof.
  revert i; induction s as [|x s IH]; intros i; simpl; [done|].
  destruct (P x) eqn:E; [intros [= <-]; exists [], x, s; eauto|].
  intros (j & Hj & ->)%fmap_Some.
  destruct (IH _ Hj) as (pre & y & post & -> & <- & ? & ?).
  exists (x :: pre), y, post; repeat split; eauto.
Qed.

Lemma rfind_if_None s : rfind_if P s = None ↔ misses s.
Proof.
  induction s as [|x s IH]; simpl; [done|].
  rewrite Forall_cons, <-IH. destruct (rfind_if P s), (P x); naive_solver.
Qed.

Lemma rfind_if_hit pre x post :
  misses post → P x = true → rfind_if P (pre ++ x :: post) = Some (length pre).
Proof.
  intros Hpost Hx. induction pre as [|y pre IH]; simpl.
  - apply rfind_if_None in Hpost. by rewrite Hpost, Hx.
  - by rewrite IH.
Qed.

Lemma rfind_if_Some s i :
  rfind_if P s = Some i →
  ∃ pre x post, s = pre ++ x :: post ∧ length pre = i ∧ P x = true ∧ misses post.
Proof.
  revert i; induction s as [|x s IH]; intros i; simpl; [done|].
  destruct (rfind_if P s) as [j|] eqn:E.
  - intros [= <-]. destruct (IH _ eq_refl) as (pre & y & post & -> & <- & ? & ?).
    exists (x :: pre), y, post; eauto.
  - destruct (P x) eqn:Ex; [|done]. intros [= <-].
    exists [], x, s; repeat split; eauto. by apply rfind_if_None.
Qed.
End find_if.

Lemma is_char_true c x : is_char c x = true ↔ x = c.
Proof. apply bool_decide_eq_true. Qed.
Lemma is_char_false c x : is_char c x = false ↔ x ≠ c.
Proof. apply bool_decide_eq_false. Qed.
Lemma in_set_true set x : in_set set x = true ↔ x ∈ set.
Proof. apply bool_decide_eq_true. Qed.

(** The first [c] of [s] splits it there. *)
Lemma find_char_Some c s i :
  find_char c s = Some i → s = take i s ++ c :: drop (S i) s ∧ c ∉ take i s ∧ (i < length s)%nat.
Proof.
  intros (pre & x & post & -> & <- & ->%is_char_true & Hpre)%find_if_Some.
  rewrite take_app_length, length_app; simpl.
  replace (S (length pre)) with (length pre + 1)%nat by lia.
  rewrite drop_app_add; simpl. repeat split; [|lia].
  intros Hin. rewrite Forall_forall in Hpre. apply Hpre in Hin. by apply is_char_false in Hin.
Qed.

Lemma find_char_hit c pre post : c ∉ pre → find_char c (pre ++ c :: post) = Some (length pre).
Proof.
  intros Hpre. apply find_if_hit; [|by apply is_char_true].
  apply Forall_forall; intros x Hx. apply is_char_false; congruence.
Qed.

Lemma find_char_None c s : find_char c s = None ↔ c ∉ s.
Proof.
  unfold find_char. rewrite find_if_None, Forall_forall. split.
  - intros H Hin%H. by apply is_char_false in Hin.
  - intros H x Hx. apply is_char_false; congruence.
Qed.

Lemma rfind_char_hit c pre post : c ∉ post → rfind_char c (pre ++ c :: post) = Some (length pre).
Proof.
  intros Hpost. apply rfind_if_hit; [|by apply is_char_true].
  apply Forall_forall; intros x Hx. apply is_char_false; congruence.
Qed.

(** Splitting at the first, or at the last, occurrence of a character is unique. *)
Lemma split_first_inj (c : ascii) (a b a' b' : str) : c ∉ a → c ∉ a' → a ++ c :: b = a' ++ c :: b' → a = a' ∧ b = b'.
Proof.
  intros Ha Ha' H. pose proof (find_char_hit c a b Ha) as Hf.
  rewrite H, find_char_hit in Hf by done. injection Hf as Hl.
  apply app_inj_1 in H as [-> [= ->]]; done.
Qed.

Lemma split_last_inj (c : ascii) (a b a' b' : str) : c ∉ b → c ∉ b' → a ++ c :: b = a' ++ c :: b' → a = a' ∧ b = b'.
Proof.
  intros Hb Hb' H. pose proof (rfind_char_hit c a b Hb) as Hf.
  rewrite H, rfind_char_hit in Hf by done. injection Hf as Hl.
  apply app_inj_1 in H as [-> [= ->]]; done.
Qed.

Lemma find_first_not_of_None set s : find_first_not_of set s = None ↔ Forall (λ x, x ∈ set) s.
Proof.
  unfold find_first_not_of. rewrite find_if_None, !Forall_forall.
  apply forall_proper; intros x; apply forall_proper; intros _.
  simpl. rewrite negb_false_iff. apply in_set_true.
Qed.

(** ** Substring search *)

Lemma is_prefix_true p s : is_prefix p s = true ↔ ∃ r, s = p ++ r.
Proof.
  revert s; induction p as [|x p IH]; intros [|y s]; simpl.
  1,2: by split; eauto.
  - split; [done|]. by intros [? ?].
  - rewrite andb_true_iff, bool_decide_eq_true, IH. naive_solver.
Qed.

Lemma is_prefix_app p s : is_prefix p (p ++ s) = true.
Proof. apply is_prefix_true; eauto. Qed.

(** Text after the pattern's length does not matter to [is_prefix]. *)
Lemma is_prefix_app_long p s t : (length p ≤ length s)%nat → is_prefix p (s ++ t) = is_prefix p s.
Proof.
  revert s; induction p as [|x p IH]; intros [|y s]; simpl; [done..|lia|].
  intros ?. rewrite IH by lia. done.
Qed.

Lemma is_prefix_length p s : is_prefix p s = true → (length p ≤ length s)%nat.
Proof. intros [r ->]%is_prefix_true. rewrite length_app; lia. Qed.

Lemma find_str_Some pat s i :
  find_str pat s = Some i → s = take i s ++ pat ++ drop (i + length pat) s.
Proof.
  revert i; induction s as [|x s IH]; intros i; simpl.
  - destruct (is_prefix pat []) eqn:E; [|done]. intros [= <-].
    apply is_prefix_true in E as [r Hr]. symmetry in Hr. apply app_eq_nil in Hr as [-> ->]. done.
  - destruct (is_prefix pat (x :: s)) eqn:E.
    + intros [= <-]. apply is_prefix_true in E as [r ->]. simpl. by rewrite drop_app_length.
    + intros (j & Hj & ->)%fmap_Some. simpl. f_equal. by apply IH.
Qed.

Lemma find_str_bound pat s i : find_str pat s = Some i → (i + length pat ≤ length s)%nat.
Proof.
  revert i; induction s as [|x s IH]; intros i; simpl.
  - destruct (is_prefix pat []) eqn:E; [|done]. intros [= <-]. by apply is_prefix_length in E.
  - destruct (is_prefix pat (x :: s)) eqn:E.
    + intros [= <-]. by apply is_prefix_length in E.
    + intros (j & Hj & ->)%fmap_Some. specialize (IH _ Hj). lia.
Qed.

(** A match found in [s] is still the first one when more text arrives. *)
Lemma find_str_app_l pat s t i : find_str pat s = Some i → find_str pat (s ++ t) = Some i.
Proof.
  revert i; induction s as [|x s IH]; intros i Hi.
  - pose proof (find_str_bound _ _ _ Hi) as Hb. destruct pat; simpl in *; [|lia].
    simplify_eq. by destruct t.
  - pose proof (find_str_bound _ _ _ Hi) as Hb. change ((x :: s) ++ t) with (x :: (s ++ t)).
    simpl in Hi |- *. change (x :: (s ++ t)) with ((x :: s) ++ t).
    rewrite is_prefix_app_long by (simpl in *; lia).
    destruct (is_prefix pat (x :: s)); [done|].
    apply fmap_Some in Hi as (j & Hj & ->). by rewrite (IH _ Hj).
Qed.

Lemma find_str_cons pat x s :
  find_str pat (x :: s) = if is_prefix pat (x :: s) then Some 0%nat else S <$> find_str pat s.
Proof. done. Qed.

Lemma find_str_here pat s : find_str pat (pat ++ s) = Some 0%nat.
Proof. pose proof (is_prefix_app pat s) as H. destruct (pat ++ s); simpl in *; by rewrite H. Qed.

Lemma find_str_None_drop pat s n : find_str pat s = None → find_str pat (drop n s) = None.
Proof.
  revert n; induction s as [|x s IH]; intros [|n]; simpl; [done..|].
  destruct (is_prefix pat (x :: s)); [done|]. intros ?%fmap_None. auto.
Qed.

Lemma find_str_None_take pat s n : find_str pat s = None → find_str pat (take n s) = None.
Proof.
  intros Hs. destruct (find_str pat (take n s)) as [i|] eqn:E; [|done].
  apply (find_str_app_l _ _ (drop n s)) in E. rewrite take_drop in E. congruence.
Qed.

Lemma find_str_app_None pat s t : find_str pat (s ++ t) = None → find_str pat s = None ∧ find_str pat t = None.
Proof.
  intros H. split.
  - apply (find_str_None_take _ _ (length s)) in H. by rewrite take_app_length in H.
  - apply (find_str_None_drop _ _ (length s)) in H. by rewrite drop_app_length in H.
Qed.

(** ** Lines: text up to a CRLF *)

Definition crlf2 : str := crlf ++ crlf.

(** A line holds no CRLF (a lone CR or LF is an ordinary byte to the parser). *)
Definition no_crlf (s : str) : Prop := find_str crlf s = None.

#[export] Instance no_crlf_dec s : Decision (no_crlf s).
Proof. unfold no_crlf. apply _. Defined.

Lemma no_crlf_app s t : no_crlf (s ++ t) → no_crlf s ∧ no_crlf t.
Proof. apply find_str_app_None. Qed.
Lemma no_crlf_take s n : no_crlf s → no_crlf (take n s).
Proof. apply find_str_None_take. Qed.
Lemma no_crlf_drop s n : no_crlf s → no_crlf (drop n s).
Proof. apply find_str_None_drop. Qed.
Lemma no_crlf_cons x s : no_crlf (x :: s) ↔ (x = CR → head s ≠ Some LF) ∧ no_crlf s.
Proof.
  unfold no_crlf; rewrite find_str_cons. destruct (is_prefix crlf (x :: s)) eqn:E; simpl in E.
  - split; [done|]. intros [H _]. apply andb_true_iff in E as [<-%bool_decide_eq_true E].
    destruct s as [|y s]; [done|]. apply andb_true_iff in E as [<-%bool_decide_eq_true _].
    by destruct H.
  - rewrite fmap_None. split; [|tauto]. intros ->; split; [|done]. intros -> Hs.
    destruct s as [|y s]; [done|]. by simplify_eq/=.
Qed.

(** Gluing two lines makes no CRLF unless the seam does. *)
Lemma no_crlf_glue s t :
  no_crlf s → no_crlf t → (last s = Some CR → head t ≠ Some LF) → no_crlf (s ++ t).
Proof.
  induction s as [|x s IH]; simpl; [done|].
  rewrite !no_crlf_cons. intros [Hx Hs] Ht Hh. destruct s as [|y s]; simpl in *.
  - split; [|done]. intros ->. by apply Hh.
  - split; [done|]. by apply IH.
Qed.

Lemma no_crlf_free s : CR ∉ s → no_crlf s.
Proof.
  induction s as [|x s IH]; [reflexivity|]. rewrite elem_of_cons, no_crlf_cons. naive_solver.
Qed.

Lemma crlf_not_front q x l r :
  (x = CR → head l ≠ Some LF) → is_prefix (crlf ++ q) (x :: (l ++ crlf ++ r)) = false.
Proof.
  intros Hx. apply not_true_iff_false; intros [t Ht]%is_prefix_true.
  destruct l as [|y l]; simplify_eq/=. by apply Hx.
Qed.

(** The first CRLF ends the line. *)
Lemma find_crlf_line l r : no_crlf l → find_str crlf (l ++ crlf ++ r) = Some (length l).
Proof.
  induction l as [|x l IH]; intros Hl; [apply (find_str_here crlf)|].
  apply no_crlf_cons in Hl as [Hx Hl]. specialize (IH Hl).
  change ((x :: l) ++ crlf ++ r) with (x :: (l ++ crlf ++ r)).
  by rewrite find_str_cons, IH, (crlf_not_front []).
Qed.

Lemma find_crlf_Some s i :
  find_str crlf s = Some i → s = take i s ++ crlf ++ drop (i + 2) s ∧ no_crlf (take i s).
Proof.
  intros Hi. split; [by apply (find_str_Some crlf)|].
  revert i Hi; induction s as [|x s IH]; intros i; [done|].
  rewrite find_str_cons. intros Hi. destruct (is_prefix crlf (x :: s)) eqn:E; [by simplify_eq|].
  apply fmap_Some in Hi as (j & Hj & ->). simpl. rewrite no_crlf_cons.
  split; [|by apply IH]. intros -> Hh.
  destruct s as [|y s]; [by rewrite take_nil in Hh|]. destruct j; simplify_eq/=.
Qed.

(** The blank line ends the header block: the first CRLFCRLF is at the end of
this line when the next line is empty, and in the rest otherwise. *)
Lemma find_crlf2_line l r :
  no_crlf l →
  find_str crlf2 (l ++ crlf ++ r) =
    if is_prefix crlf r then Some (length l) else Nat.add (length l + 2) <$> find_str crlf2 r.
Proof.
  induction l as [|x l IH]; intros Hl.
  - change ([] ++ crlf ++ r) with (CR :: LF :: r). rewrite !find_str_cons.
    change (is_prefix crlf2 (CR :: LF :: r)) with (is_prefix crlf r).
    change (is_prefix crlf2 (LF :: r)) with false.
    destruct (is_prefix crlf r); [done|]. by destruct (find_str crlf2 r).
  - apply no_crlf_cons in Hl as [Hx Hl]. specialize (IH Hl).
    change ((x :: l) ++ crlf ++ r) with (x :: (l ++ crlf ++ r)).
    rewrite find_str_cons, IH, (crlf_not_front crlf) by done.
    destruct (is_prefix crlf r); [done|]. by destruct (find_str crlf2 r).
Qed.

(** A header block has a first line. *)
Lemma find_crlf2_Some s e :
  find_str crlf2 s = Some e → ∃ le, find_str crlf s = Some le ∧ (le = e ∨ le + 2 ≤ e)%nat.
Proof.
  intros He. destruct (find_str crlf s) as [le|] eqn:Hle.
  - exists le; split; [done|]. pose proof (find_str_bound _ _ _ Hle) as Hb.
    apply find_crlf_Some in Hle as [Hs Hno].
    pose proof (find_crlf2_line _ (drop (le + 2) s) Hno) as Hf.
    rewrite <-Hs, He, length_take in Hf. simpl in Hb. destruct (is_prefix crlf _).
    + left. simplify_eq. lia.
    + right. symmetry in Hf. apply fmap_Some in Hf as (j & _ & ->). lia.
  - exfalso. apply (find_str_Some crlf2) in He.
    rewrite He in Hle. unfold crlf2 in Hle. rewrite <-(assoc_L (++)) in Hle.
    apply find_str_app_None in Hle as [_ Hle]. by rewrite find_str_here in Hle.
Qed.

(** ** Pieces of a string *)

(** [x] is a contiguous piece of [s]. *)
Definition infix_of (x s : str) : Prop := ∃ a b, s = a ++ x ++ b.

#[export] Instance infix_of_refl : Reflexive infix_of.
Proof. intros s. exists [], []. simpl. by rewrite (right_id_L [] (++)). Qed.

#[export] Instance infix_of_trans : Transitive infix_of.
Proof.
  intros x y z [a1 [b1 ->]] [a2 [b2 ->]]. exists (a2 ++ a1), (b1 ++ b2).
  by rewrite <-!(assoc_L (++)).
Qed.

Lemma infix_of_substr s i n : infix_of (substr s i n) s.
Proof. exists (take i s), (drop n (drop i s)). unfold substr. by rewrite take_drop, take_drop. Qed.

Lemma infix_of_take s n : infix_of (take n s) s.
Proof. exists [], (drop n s). simpl. by rewrite take_drop. Qed.

Lemma infix_of_drop s n : infix_of (drop n s) s.
Proof. exists (take n s), []. by rewrite (right_id_L [] (++)), take_drop. Qed.

Lemma infix_of_no_crlf x s : infix_of x s → no_crlf s → no_crlf x.
Proof. intros (a & b & ->) [_ [? _]%no_crlf_app]%no_crlf_app. done. Qed.

Lemma infix_of_elem x s c : infix_of x s → c ∈ x → c ∈ s.
Proof. intros (a & b & ->). set_solver. Qed.

Lemma infix_of_not_elem x s c : infix_of x s → c ∉ s → c ∉ x.
Proof. intros Hx Hs Hc. by apply Hs, (infix_of_elem x). Qed.

(** ** Trimming *)

Section trim.
Context (set : str).

Abbreviation blank := (Forall (λ x, x ∈ set)).

(** No blank at either end. *)
Definition trimmed (s : str) : Prop :=
  (∀ x, head s = Some x → x ∉ set) ∧ (∀ x, last s = Some x → x ∉ set).

Lemma blank_misses s : blank s ↔ Forall (λ y, (negb ∘ in_set set) y = false) s.
Proof.
  rewrite !Forall_forall. apply forall_proper; intros x; apply forall_proper; intros _.
  simpl. by rewrite negb_false_iff, in_set_true.
Qed.

Lemma not_in_set_hit x : x ∉ set ↔ (negb ∘ in_set set) x = true.
Proof. simpl. by rewrite negb_true_iff, <-not_true_iff_false, in_set_true. Qed.

(** Trimming removes exactly the blanks around a trimmed middle. *)
Lemma trim_set_middle a m b : blank a → blank b → trimmed m → trim_set set (a ++ m ++ b) = m.
Proof.
  intros Ha Hb [Hh Hl]. unfold trim_set, find_first_not_of, find_last_not_of.
  destruct m as [|x m].
  - rewrite (proj2 (find_if_None _ _)); [done|]. apply blank_misses. by apply Forall_app.
  - destruct (exists_last (l:=x :: m)) as (m' & y & Hm); [done|].
    assert (x ∉ set) as Hx by auto.
    assert (y ∉ set) as Hy by (apply Hl; by rewrite Hm, last_snoc).
    assert (length m' = length m) as Hlen.
    { apply (f_equal length) in Hm. rewrite length_app in Hm. simpl in Hm. lia. }
    rewrite <-app_comm_cons, find_if_hit by (by first [apply blank_misses|apply not_in_set_hit]).
    replace (a ++ x :: m ++ b) with ((a ++ m') ++ y :: b)
      by (rewrite app_comm_cons, Hm, <-!(assoc_L (++)); done).
    rewrite rfind_if_hit by (by first [apply blank_misses|apply not_in_set_hit]).
    rewrite length_app. unfold substr. rewrite <-(assoc_L (++)), drop_app_length.
    replace (m' ++ y :: b) with ((x :: m) ++ b) by (rewrite Hm, <-(assoc_L (++)); done).
    rewrite take_app_length'; [done|simpl; lia].
Qed.

Lemma trim_set_split s :
  ∃ a b, s = a ++ trim_set set s ++ b ∧ blank a ∧ blank b ∧ trimmed (trim_set set s).
Proof.
  assert (∃ a m b, s = a ++ m ++ b ∧ blank a ∧ blank b ∧ trimmed m)
    as (a & m & b & -> & Ha & Hb & Hm); [|exists a, b; by rewrite trim_set_middle].
  destruct (find_if (negb ∘ in_set set) s) as [i|] eqn:Hi.
  - apply find_if_Some in Hi as (a & x & post & -> & _ & Hx & Ha).
    destruct (rfind_if (negb ∘ in_set set) (x :: post)) as [j|] eqn:Hj.
    + apply rfind_if_Some in Hj as (m & y & b & Hpost & _ & Hy & Hb).
      exists a, (m ++ [y]), b. rewrite <-(assoc_L (++)); simpl. rewrite <-Hpost.
      rewrite !blank_misses. repeat split; [done..| |].
      * intros z Hz. apply not_in_set_hit.
        destruct m as [|w m]; simplify_eq/=; done.
      * intros z. rewrite last_snoc. intros [= <-]. by apply not_in_set_hit.
    + apply rfind_if_None in Hj. apply Forall_cons in Hj as [Hx' _]. congruence.
  - apply find_if_None in Hi. exists s, [], []. rewrite !(right_id_L [] (++)).
    repeat split; [by apply blank_misses|done..].
Qed.

Lemma trim_set_id s : trimmed s → trim_set set s = s.
Proof. intros Hs. rewrite <-(trim_set_middle [] s []) at 2 by done. by rewrite (right_id_L [] (++)). Qed.

Lemma trim_set_trimmed s : trimmed (trim_set set s).
Proof. by destruct (trim_set_split s) as (?&?&_&_&_&?). Qed.

Lemma trim_set_cons x s : x ∈ set → trim_set set (x :: s) = trim_set set s.
Proof.
  intros Hx. destruct (trim_set_split s) as (a & b & Hs & Ha & Hb & Hm).
  rewrite Hs at 1. by rewrite app_comm_cons, trim_set_middle by auto.
Qed.

Lemma trim_set_infix s : infix_of (trim_set set s) s.
Proof. destruct (trim_set_split s) as (a & b & Hs & _). by exists a, b. Qed.
End trim.

(** ** Decimal numbers *)

Lemma digits_isdigit x : x ∈ digits ↔ isdigit x = true.
Proof.
  rewrite <-in_set_true. assert (in_set digits x = isdigit x) as ->; [|done].
  by destruct x as [[][][][][][][][]].
Qed.

Lemma isdigit_range x : isdigit x = true → 0 ≤ digit_val x < 10.
Proof. unfold isdigit, digit_val. rewrite andb_true_iff, !Nat.leb_le. lia. Qed.

Lemma isdigit_plain x : isdigit x = true → isspace x = false ∧ x ≠ "-"%char ∧ x ≠ "+"%char.
Proof. by destruct x as [[][][][][][][][]]. Qed.

Lemma digit_char_spec d : 0 ≤ d < 10 → isdigit (digit_char d) = true ∧ digit_val (digit_char d) = d.
Proof.
  intros Hd. assert (d = 0 ∨ d = 1 ∨ d = 2 ∨ d = 3 ∨ d = 4 ∨ d = 5 ∨ d = 6 ∨ d = 7 ∨ d = 8 ∨ d = 9)
    as Hcase by lia.
  by repeat (destruct Hcase as [->|Hcase]; [done|]); subst.
Qed.

Lemma dec_val_app v s t : dec_val v (s ++ t) = dec_val (dec_val v s) t.
Proof. apply foldl_app. Qed.

Lemma dec_val_nonneg v ds : 0 ≤ v → Forall (λ c, isdigit c = true) ds → 0 ≤ dec_val v ds.
Proof.
  intros Hv Hds. revert v Hv; induction Hds as [|c ds Hc _ IH]; intros v Hv; [done|].
  change (dec_val v (c :: ds)) with (dec_val (v * 10 + digit_val c) ds).
  apply IH. apply isdigit_range in Hc. lia.
Qed.

Lemma digit_run_all ds : Forall (λ c, isdigit c = true) ds → digit_run ds = ds.
Proof. induction 1 as [|c ds Hc _ IH]; simpl; [done|]. by rewrite Hc, IH. Qed.

Lemma strto_parts_digits ds :
  Forall (λ c, isdigit c = true) ds → strto_parts ds = (false, dec_val 0 ds).
Proof.
  intros Hds. unfold strto_parts. pose proof (digit_run_all _ Hds) as Hrun.
  destruct Hds as [|c ds Hc Hds]; [done|].
  destruct (isdigit_plain _ Hc) as (Hsp & ? & ?). cbn [skip_space].
  by rewrite Hsp, !bool_decide_false, Hrun by done.
Qed.

(** On a string of digits [strtoul] is the value, saturated: it never wraps. *)
Lemma strtoul_digits ds :
  Forall (λ c, isdigit c = true) ds → strtoul ds = Z.min ULONG_MAX (dec_val 0 ds).
Proof.
  intros Hds. unfold strtoul. rewrite strto_parts_digits by done.
  destruct (Z.ltb_spec ULONG_MAX (dec_val 0 ds)); lia.
Qed.

Lemma to_digits_spec fuel n acc :
  0 ≤ n < 10 ^ Z.of_nat fuel →
  ∃ ds, to_digits fuel n acc = ds ++ acc ∧ Forall (λ c, isdigit c = true) ds ∧ dec_val 0 ds = n.
Proof.
  revert n acc; induction fuel as [|fuel IH]; intros n acc Hn; simpl to_digits.
  - exists []; repeat split; [done|]. simpl in *. lia.
  - rewrite Nat2Z.inj_succ, Z.pow_succ_r in Hn by lia.
    pose proof (Z.mod_pos_bound n 10) as Hm. pose proof (Z.div_mod n 10) as Hd.
    destruct (digit_char_spec (n mod 10)) as [Hc Hv]; [lia|].
    destruct (n <? 10) eqn:E; [apply Z.ltb_lt in E|apply Z.ltb_ge in E].
    + exists [digit_char (n mod 10)]; repeat split; [by repeat constructor|].
      unfold dec_val; simpl. rewrite Hv, Z.mod_small by lia. lia.
    + destruct (IH (n / 10) (digit_char (n mod 10) :: acc)) as (ds & -> & Hds & Hval); [lia|].
      exists (ds ++ [digit_char (n mod 10)]). rewrite <-(assoc_L (++)). split; [done|].
      split; [by apply Forall_app; repeat constructor|].
      rewrite dec_val_app, Hval. unfold dec_val; simpl. lia.
Qed.

Lemma to_string_spec n :
  0 ≤ n → Forall (λ c, isdigit c = true) (to_string n) ∧ dec_val 0 (to_string n) = n.
Proof.
  intros Hn. unfold to_string, digits_fuel.
  destruct (to_digits_spec (S (Z.to_nat (Z.log2 n))) n []) as (ds & -> & Hds & Hv).
  - rewrite Nat2Z.inj_succ, Z2Nat.id by apply Z.log2_nonneg. split; [done|].
    destruct (decide (n = 0)) as [->|]; [done|].
    apply Z.lt_le_trans with (2 ^ Z.succ (Z.log2 n)); [apply Z.log2_spec; lia|].
    apply Z.pow_le_mono_l. lia.
  - by rewrite (right_id_L [] (++)).
Qed.

Lemma to_string_ne n : to_string n ≠ [].
Proof.
  assert (∀ fuel m acc, acc ≠ [] → to_digits fuel m acc ≠ []) as H.
  { induction fuel as [|f IH]; intros m acc Hacc; simpl; [done|]. destruct (m <? 10); auto. }
  unfold to_string, digits_fuel; simpl. destruct (n <? 10); auto.
Qed.

(** Printing a [size_t] and reading it back gives the number. *)
Lemma strtoul_to_string n : 0 ≤ n ≤ ULONG_MAX → strtoul (to_string n) = n.
Proof. intros Hn. destruct (to_string_spec n) as [? Hv]; [lia|]. rewrite strtoul_digits by done. lia. Qed.

(** The conversions stay within the type they return. *)
Lemma digit_run_digits s : Forall (λ c, isdigit c = true) (digit_run s).
Proof. induction s as [|c s IH]; simpl; [done|]. destruct (isdigit c) eqn:E; by repeat constructor. Qed.

Lemma strto_parts_nonneg s : 0 ≤ (strto_parts s).2.
Proof.
  assert (∀ t, 0 ≤ dec_val 0 (digit_run t)) as H by (intros; apply dec_val_nonneg, digit_run_digits; done).
  unfold strto_parts. destruct (skip_space s) as [|c t]; [done|]. do 2 (case_bool_decide; [apply H|]). apply H.
Qed.

Lemma strtoul_typed s : is_size_t (strtoul s).
Proof.
  unfold strtoul. pose proof (strto_parts_nonneg s) as H. destruct (strto_parts s) as [neg m]. simpl in H.
  destruct (Z.ltb_spec ULONG_MAX m); [done|]. destruct neg; [apply wrap64_typed|done].
Qed.

Lemma strtol_typed s : is_long (strtol s).
Proof. unfold strtol, is_long, LONG_MIN, LONG_MAX. destruct (strto_parts s) as [neg m]. lia. Qed.

Lemma atoi_typed s : is_int (atoi s).
Proof. apply to_int32_typed. Qed.
#[export] Hint Resolve strtoul_typed strtol_typed atoi_typed : ctypes.

Create HintDb str_db.
#[export] Hint Resolve infix_of_substr infix_of_take infix_of_drop trim_set_infix : str_db.
#[export] Hint Resolve infix_of_no_crlf infix_of_elem infix_of_not_elem : str_db.
