(* ===== verification/Log.v ===== *)
(** * Logging ([log.hpp])

A line is written when its level is at most [log_level()], under one mutex.  A bare
message is one [fprintf]; a formatted one is three writes.  The threads that log are
a transition system in which each of these calls is a step; the theorem is that
lines do not mix. *)
From S2P Require Import Prelude CppString.

(** [enum class LogLevel]; [main] casts an [int] to it, so any [int] can occur. *)
Definition Silent : Z := 0.
Definition Error : Z := 1.
Definition Info : Z := 2.
Definition Debug : Z := 3.

(** ** [fprintf] *)

(** An argument: a C string or a number of one of the integer types. *)
Inductive Arg :=
| AStr (s : str)
| AInt (n : Z).

(** What [fprintf] writes, for the conversions the sources use (%s, and %d and %u with
any of the length modifiers l and z); [None] where its behaviour is not defined.
[conv]: inside a conversion. *)
Fixpoint printf_from (conv : bool) (fmt : str) (args : list Arg) : option str :=
  match fmt with
  | [] => if conv then None else Some []
  | c :: fmt' =>
      if conv then
        if bool_decide (c = "l"%char ∨ c = "z"%char) then printf_from true fmt' args else
        match args with
        | AStr s :: args' => if bool_decide (c = "s"%char) then app s <$> printf_from false fmt' args' else None
        | AInt n :: args' =>
            if bool_decide (c = "d"%char ∨ c = "u"%char) then app (int_to_string n) <$> printf_from false fmt' args' else None
        | [] => None
        end
      else if bool_decide (c = "%"%char) then printf_from true fmt' args
      else cons c <$> printf_from false fmt' args
  end.
Definition printf (fmt : str) (args : list Arg) : option str := printf_from false fmt args.

(** ** A call *)

(** The two overloads of [log_at]. *)
Inductive Text :=
| Msg (msg : str)
| Fmt (fmt : str) (arg : Arg) (args : list Arg).

Record LogCall := mkCall { lc_level : Z; lc_tag : str; lc_text : Text }.

(** EVP_LOG_INFO, EVP_LOG_ERROR and EVP_LOG_DEBUG. *)
Definition log_info (t : Text) : LogCall := mkCall Info (lit "info") t.
Definition log_error (t : Text) : LogCall := mkCall Error (lit "err ") t.
Definition log_debug (t : Text) : LogCall := mkCall Debug (lit "dbg ") t.

(** What it writes to stderr, write by write. *)
Definition pieces (c : LogCall) : option (list str) :=
  match lc_text c with
  | Msg msg => p ← printf (lit "[%s] %s" ++ [LF]) [AStr (lc_tag c); AStr msg]; Some [p]
  | Fmt fmt arg args =>
      p ← printf (lit "[%s] ") [AStr (lc_tag c)]; q ← printf fmt (arg :: args); Some [p; q; [LF]]
  end.
Definition line (c : LogCall) : option str := (λ ps, concat ps) <$> pieces c.

(** [if (level > log_level()) return;] *)
Definition enabled (level : Z) (c : LogCall) : bool := lc_level c <=? level.

(** ** The threads *)

(** A thread with its calls to come, or inside one with its writes to come. *)
Inductive LogPc :=
| Ready (calls : list LogCall)
| Writing (todo : list str) (calls : list LogCall).

(** [log_level()], who holds [log_mutex()], stderr, and the threads. *)
Record Log := mkLog { lg_level : Z; lg_owner : option nat; lg_err : str; lg_threads : list LogPc }.

(** One step of thread [i]; [None] while it waits for the mutex (and when it has no
more to do). *)
Definition log_step (i : nat) (s : Log) : option Log :=
  pc ← lg_threads s !! i;
  match pc with
  | Ready [] => None
  | Ready (c :: cs) =>
      if negb (enabled (lg_level s) c) then Some (mkLog (lg_level s) (lg_owner s) (lg_err s) (<[i := Ready cs]> (lg_threads s))) else
      match lg_owner s with
      | Some _ => None
      | None => ps ← pieces c; Some (mkLog (lg_level s) (Some i) (lg_err s) (<[i := Writing ps cs]> (lg_threads s)))
      end
  | Writing (p :: ps) cs => Some (mkLog (lg_level s) (lg_owner s) (lg_err s ++ p) (<[i := Writing ps cs]> (lg_threads s)))
  | Writing [] cs => Some (mkLog (lg_level s) None (lg_err s) (<[i := Ready cs]> (lg_threads s)))
  end.

Definition log_start (level : Z) (calls : list (list LogCall)) : Log := mkLog level None [] (Ready <$> calls).

(** ** Lines do not mix *)

(** The lines a thread with these calls writes. *)
Definition printed (level : Z) (calls : list LogCall) : list str :=
  calls ≫= (λ c, if enabled level c then match line c with Some l => [l] | None => [] end else []).

Definition rest (pc : LogPc) : list LogCall := match pc with Ready cs | Writing _ cs => cs end.

(** Of the lines [out] (with the thread each is from), those of thread [i]. *)
Definition lines_of (i : nat) (out : list (nat * str)) : list str := (filter (λ x, x.1 = i) out).*2.

(** [out] has been written; [cur] is the line being written, by whom, how much of it
is written and how much is to come. *)
Record log_ok (level : Z) (calls : list (list LogCall)) (s : Log) (out : list (nat * str)) (cur : option (nat * str * list str)) : Prop := {
  lo_level : lg_level s = level;
  lo_owner : lg_owner s = (λ x, x.1.1) <$> cur;
  lo_err : lg_err s = concat out.*2 ++ from_option (λ x, x.1.2) [] cur;
  lo_threads : length (lg_threads s) = length calls;
  lo_cur i part todo : cur = Some (i, part, todo) → ∃ cs, lg_threads s !! i = Some (Writing todo cs);
  lo_writing i todo cs : lg_threads s !! i = Some (Writing todo cs) → ∃ part, cur = Some (i, part, todo);
  lo_lines i cs pc : calls !! i = Some cs → lg_threads s !! i = Some pc →
    printed level cs = lines_of i out ++
      (match cur with Some (j, part, todo) => if decide (j = i) then [part ++ concat todo] else [] | None => [] end) ++
      printed level (rest pc)
}.

Lemma printed_cons level c cs :
  printed level (c :: cs) = (if enabled level c then match line c with Some l => [l] | None => [] end else []) ++ printed level cs.
Proof. done. Qed.

Lemma lines_of_snoc i j l out : lines_of i (out ++ [(j, l)]) = lines_of i out ++ (if decide (j = i) then [l] else []).
Proof. unfold lines_of. rewrite filter_app, fmap_app. f_equal. rewrite filter_cons. simpl. by destruct (decide (j = i)). Qed.

Lemma log_step_ok level calls s out cur i s' :
  log_ok level calls s out cur → log_step i s = Some s' → ∃ out' cur', log_ok level calls s' out' cur'.
Proof.
  intros [Hl Ho He Ht Hc Hw Hn] E. unfold log_step in E. destruct (lg_threads s !! i) as [pc|] eqn:Hpc; [|done]. simpl in E.
  assert (i < length (lg_threads s))%nat as Hi by by eapply lookup_lt_Some.
  destruct pc as [[|c cs]|[|p ps] cs]; [done|..].
  - destruct (enabled (lg_level s) c) eqn:Hen; cbn [negb] in E.
    + destruct (lg_owner s) eqn:How; [done|]. destruct (pieces c) as [ps|] eqn:Hp; [|done]. simpl in E. injection E as <-.
      destruct cur; [done|]. exists out, (Some (i, [], ps)).
      assert (∀ j todo cs', lg_threads s !! j ≠ Some (Writing todo cs')) as Hno by (intros j todo cs' [? ?]%Hw; done).
      split; simpl; rewrite ?length_insert; try done.
      * intros j part todo [= <- <- <-]. rewrite list_lookup_insert_eq by done. eauto.
      * intros j todo cs' [(<- & [= <- <-] & _)|[_ ?]]%list_lookup_insert_Some; [eauto|by destruct (Hno j todo cs')].
      * intros j cs' pc Hj [(<- & <- & _)|[Hne Hpj]]%list_lookup_insert_Some.
        -- rewrite (Hn i cs' _ Hj Hpc). cbn -[printed lines_of concat decide]. rewrite printed_cons, <-Hl, Hen, decide_True by done. unfold line. by rewrite Hp.
        -- rewrite decide_False by done. by apply Hn.
    + injection E as <-. exists out, cur. split; simpl; rewrite ?length_insert; try done.
      * intros j part todo Hcur. destruct (Hc j part todo Hcur) as [cs' Hj]. exists cs'. rewrite list_lookup_insert_ne; [done|]. intros <-. congruence.
      * intros j todo cs' [(<- & ? & _)|[_ ?]]%list_lookup_insert_Some; [done|eauto].
      * intros j cs' pc Hj [(<- & <- & _)|[Hne Hpj]]%list_lookup_insert_Some; [|by apply Hn].
        rewrite (Hn i cs' _ Hj Hpc). cbn -[printed lines_of concat decide]. by rewrite printed_cons, <-Hl, Hen.
  - injection E as <-. destruct (Hw i _ _ Hpc) as [part ->]. exists (out ++ [(i, part)]), None.
    split; simpl; rewrite ?length_insert, ?fmap_app, ?concat_app; simpl; try done.
    + by rewrite He, !(right_id_L [] (++)).
    + intros j todo cs' [(_ & ? & _)|[Hne Hj]]%list_lookup_insert_Some; [done|]. apply Hw in Hj as [part' Hj]. by simplify_eq.
    + intros j cs' pc Hj Hpj. rewrite lines_of_snoc. apply list_lookup_insert_Some in Hpj as [(<- & <- & _)|[Hne Hpj]].
      * rewrite (Hn i cs' _ Hj Hpc). cbn -[printed lines_of concat decide]. rewrite !decide_True, <-(assoc_L (++)) by done. simpl. by rewrite (right_id_L [] (++)).
      * rewrite (Hn j cs' _ Hj Hpj), !decide_False, (right_id_L [] (++)) by done. done.
  - injection E as <-. destruct (Hw i _ _ Hpc) as [part ->]. exists out, (Some (i, part ++ p, ps)).
    split; simpl; rewrite ?length_insert; try done.
    + by rewrite He, (assoc_L (++)).
    + intros j part' todo [= <- <- <-]. rewrite list_lookup_insert_eq by done. eauto.
    + intros j todo cs' [(<- & [= <- <-] & _)|[Hne Hj]]%list_lookup_insert_Some; [eauto|]. apply Hw in Hj as [part' Hj]. by simplify_eq.
    + intros j cs' pc Hj [(<- & <- & _)|[Hne Hpj]]%list_lookup_insert_Some.
      * rewrite (Hn i cs' _ Hj Hpc). cbn -[printed lines_of concat decide]. by rewrite !decide_True, <-(assoc_L (++)) by done.
      * rewrite (Hn j cs' _ Hj Hpj), !decide_False by done. done.
Qed.

(** A run: who takes the next step, each time. *)
Definition log_run (who : list nat) (s : Log) : option Log := foldl (λ o i, o ≫= log_step i) (Some s) who.

Lemma log_run_ok level calls who s out cur s' :
  log_ok level calls s out cur → log_run who s = Some s' → ∃ out' cur', log_ok level calls s' out' cur'.
Proof.
  unfold log_run. revert s out cur. induction who as [|i who IH]; simpl; intros s out cur Hs E; [injection E as <-; eauto|].
  destruct (log_step i s) as [s1|] eqn:E1.
  - destruct (log_step_ok _ _ _ _ _ _ _ Hs E1) as (out1 & cur1 & Hs1). by eapply IH.
  - exfalso. clear -E. induction who; simpl in *; [done|auto].
Qed.


(** Two threads; the message of the second looks like a format and is not taken for one. *)
Definition two_loggers : list (list LogCall) :=
  [[log_info (Fmt (lit "client %d of %zu") (AInt 7) [AInt 12])]; [log_debug (Msg (lit "quiet")); log_error (Msg (lit "100% full"))]].

