(* ===== verification/Http.v ===== *)
(** * Request parsing and rebuilding ([http.hpp], [http.cpp])

The data is [Request] and [ParseResult]; [parse_request] fills its [Request&]
argument and returns a result, so the model takes the record and returns the
updated one with the result (also on the error paths, where the source leaves
the fields it had already assigned).  [header_loop] is the [while] over header
lines; its fuel is the length of the block, and [header_loop_fuel] shows any
larger fuel gives the same answer. *)
From S2P Require Import Prelude CppString.

(** ** Data *)

Record Request := mkRequest {
  method : str;
  host : str;
  port : str;
  path : str;
  version : str;
  headers : list (str * str);
  content_length : Z;
  header_bytes : Z
}.

(** The member initialisers of [struct Request]. *)
Definition Request_default : Request :=
  mkRequest [] [] (lit "80") (lit "/") [] [] 0 0.

Inductive ParseResult := Incomplete | Ok | BadRequest | NotImplemented.

#[export] Instance ParseResult_eq_dec : EqDecision ParseResult.
Proof. solve_decision. Defined.

Definition set_header_bytes (n : Z) (r : Request) : Request :=
  mkRequest (method r) (host r) (port r) (path r) (version r) (headers r) (content_length r) n.
Definition set_line (m v : str) (r : Request) : Request :=
  mkRequest m (host r) (port r) (path r) v (headers r) (content_length r) (header_bytes r).
Definition set_host (h : str) (r : Request) : Request :=
  mkRequest (method r) h (port r) (path r) (version r) (headers r) (content_length r) (header_bytes r).
Definition set_port (p : str) (r : Request) : Request :=
  mkRequest (method r) (host r) p (path r) (version r) (headers r) (content_length r) (header_bytes r).
Definition set_path (p : str) (r : Request) : Request :=
  mkRequest (method r) (host r) (port r) p (version r) (headers r) (content_length r) (header_bytes r).
Definition set_headers (hs : list (str * str)) (r : Request) : Request :=
  mkRequest (method r) (host r) (port r) (path r) (version r) hs (content_length r) (header_bytes r).
Definition set_content_length (n : Z) (r : Request) : Request :=
  mkRequest (method r) (host r) (port r) (path r) (version r) (headers r) n (header_bytes r).

(** ** Helpers *)

Definition lower (s : str) : str := tolower <$> s.

Definition blanks : str := [" "%char; TAB].
Definition trim (s : str) : str := trim_set blanks s.

Definition is_hop_by_hop (lname : str) : bool :=
  bool_decide (lname ∈ [lit "connection"; lit "proxy-connection"; lit "keep-alive";
                        lit "transfer-encoding"; lit "upgrade"; lit "te";
                        lit "trailer"; lit "proxy-authorization"; lit "proxy-authenticate"]).

(** ** The URL *)

Definition scheme : str := lit "http://".

(** The authority [host:port], with IPv6 literals bracketed. *)
Definition split_authority (authority : str) (out : Request) : bool * Request :=
  match head authority with
  | Some "["%char =>
      match find_char "]" authority with
      | None => (false, out)
      | Some close =>
          let out := set_host (substr authority 1 (close - 1)) out in
          (true,
           if bool_decide (authority !! (close + 1)%nat = Some ":"%char)
           then set_port (substr_from authority (close + 2)) out else out)
      end
  | _ =>
      match rfind_char ":" authority with
      | None => (true, set_host authority out)
      | Some colon =>
          (true, set_port (substr_from authority (colon + 1))
                   (set_host (substr authority 0 colon) out))
      end
  end.

Definition split_absolute_url (url : str) (out : Request) : bool * Request :=
  if negb (bool_decide (lower (substr url 0 (length scheme)) = scheme)) then (false, out) else
  let auth_start := length scheme in
  let path_start := find_char_from "/" url auth_start in
  let authority :=
    match path_start with
    | None => substr_from url auth_start
    | Some p => substr url auth_start (p - auth_start)
    end in
  let out := set_path (match path_start with None => lit "/" | Some p => substr_from url p end) out in
  if bool_decide (authority = []) then (false, out) else
  let '(ok, out) := split_authority authority out in
  if negb ok then (false, out) else
  if bool_decide (host out = []) || bool_decide (port out = []) then (false, out) else
  if bool_decide (find_first_not_of digits (port out) ≠ None) then (false, out) else
  (true, out).

(** ** Headers *)

(** The [while (pos < end)] loop over header lines, with the headers collected so
far; [false] is the [return ParseResult::BadRequest] for a line without a colon. *)
Fixpoint header_loop (fuel : nat) (buf : str) (pos end_ : nat) (hs : list (str * str))
    : bool * list (str * str) :=
  match fuel with
  | O => (true, hs)
  | S fuel' =>
      if (pos <? end_)%nat then
        match find_str_from crlf buf pos with
        | None => (true, hs)
        | Some eol =>
            if (end_ <? eol)%nat then (true, hs) else
            let h := substr buf pos (eol - pos) in
            if bool_decide (h = []) then (true, hs) else
            match find_char ":" h with
            | None => (false, hs)
            | Some colon =>
                header_loop fuel' buf (eol + 2) end_
                  (hs ++ [(trim (substr h 0 colon), trim (substr_from h (colon + 1)))])
            end
        end
      else (true, hs)
  end.

Fixpoint header_find (want : str) (hs : list (str * str)) : str :=
  match hs with
  | [] => []
  | (k, v) :: hs' => if bool_decide (lower k = want) then v else header_find want hs'
  end.

Definition header_value (req : Request) (name : str) : str :=
  header_find (lower name) (headers req).

(** ** Parsing *)

Definition known_method (m : str) : bool :=
  bool_decide (m = lit "GET") || bool_decide (m = lit "HEAD") || bool_decide (m = lit "POST").

(** The part of [parse_request] after the header loop: chunked request bodies
are refused, and Content-Length must be digits. *)
Definition parse_body_length (out : Request) : ParseResult * Request :=
  if bool_decide (find_str (lit "chunked") (lower (header_value out (lit "Transfer-Encoding"))) ≠ None)
  then (NotImplemented, out) else
  let cl := header_value out (lit "Content-Length") in
  if bool_decide (cl = []) then (Ok, out) else
  if bool_decide (find_first_not_of digits cl ≠ None) then (BadRequest, out) else
  (Ok, set_content_length (strtoul cl) out).

Definition parse_request (buf : str) (out : Request) : ParseResult * Request :=
  match find_str crlf2 buf with
  | None => (Incomplete, out)
  | Some end_ =>
      let out := set_header_bytes (Z.of_nat (end_ + 4)) out in
      match find_str crlf buf with
      | None | Some O => (BadRequest, out)
      | Some line_end =>
          let line := substr buf 0 line_end in
          match find_char " " line with
          | None => (BadRequest, out)
          | Some sp1 =>
              match find_char_from " " line (sp1 + 1) with
              | None => (BadRequest, out)
              | Some sp2 =>
                  let out := set_line (substr line 0 sp1) (substr_from line (sp2 + 1)) out in
                  let url := substr line (sp1 + 1) (sp2 - sp1 - 1) in
                  if negb (known_method (method out)) then (NotImplemented, out) else
                  let '(ok, out) := split_absolute_url url out in
                  if negb ok then (BadRequest, out) else
                  let '(ok, hs) := header_loop (length buf) buf (line_end + 2) end_ (headers out) in
                  let out := set_headers hs out in
                  if negb ok then (BadRequest, out) else parse_body_length out
              end
          end
      end
  end.

(** ** Rebuilding *)

Definition keep_header (kv : str * str) : bool :=
  let lk := lower kv.1 in
  negb (bool_decide (lk = lit "host") || is_hop_by_hop lk).

Definition header_line (kv : str * str) : str := kv.1 ++ lit ": " ++ kv.2 ++ crlf.

Definition host_value (req : Request) : str :=
  host req ++ (if bool_decide (port req = lit "80") then [] else lit ":" ++ port req).

Definition build_upstream_request (req : Request) (body : str) : str :=
  method req ++ lit " " ++ path req ++ lit " HTTP/1.1" ++ crlf ++
  lit "Host: " ++ host_value req ++ crlf ++
  concat (header_line <$> filter keep_header (headers req)) ++
  lit "Connection: close" ++ crlf2 ++ body.

Definition error_response (code : Z) (reason : str) : str :=
  let body := to_string code ++ lit " " ++ reason ++ [LF] in
  lit "HTTP/1.1 " ++ to_string code ++ lit " " ++ reason ++ crlf ++
  lit "Content-Type: text/plain" ++ crlf ++
  lit "Content-Length: " ++ to_string (zlen body) ++ crlf ++
  lit "Connection: close" ++ crlf2 ++ body.

(** ** The header loop *)

Lemma header_loop_S fuel buf pos end_ hs :
  header_loop (S fuel) buf pos end_ hs =
    if (pos <? end_)%nat then
      match find_str_from crlf buf pos with
      | None => (true, hs)
      | Some eol =>
          if (end_ <? eol)%nat then (true, hs) else
          if bool_decide (substr buf pos (eol - pos) = []) then (true, hs) else
          match find_char ":" (substr buf pos (eol - pos)) with
          | None => (false, hs)
          | Some colon =>
              header_loop fuel buf (eol + 2) end_
                (hs ++ [(trim (substr (substr buf pos (eol - pos)) 0 colon),
                         trim (substr_from (substr buf pos (eol - pos)) (colon + 1)))])
          end
      end
    else (true, hs).
Proof. done. Qed.

Lemma find_str_from_ge pat s pos i : find_str_from pat s pos = Some i → (pos ≤ i)%nat.
Proof. intros (j & _ & ->)%fmap_Some. lia. Qed.

(** Every iteration moves [pos] forward, so fuel beyond the distance to [end]
is never used up: the loop terminates and its result does not depend on it. *)
Lemma header_loop_fuel f1 f2 buf pos end_ hs :
  (end_ - pos < f1)%nat → (end_ - pos < f2)%nat →
  header_loop f1 buf pos end_ hs = header_loop f2 buf pos end_ hs.
Proof.
  revert f2 pos hs; induction f1 as [|f1 IH]; intros [|f2] pos hs H1 H2; [lia..|].
  rewrite !header_loop_S. destruct (Nat.ltb_spec pos end_); [|done].
  destruct (find_str_from crlf buf pos) as [eol|] eqn:E; [|done].
  apply find_str_from_ge in E. destruct (end_ <? eol)%nat; [done|].
  case_bool_decide; [done|]. destruct (find_char _ _); [|done]. apply IH; lia.
Qed.

(** One header line: the text before the first colon, and the text after it. *)
Definition parse_line (h : str) : option (str * str) :=
  (λ colon, (trim (substr h 0 colon), trim (substr_from h (colon + 1)))) <$> find_char ":" h.

(** The lines of a header block, each ended by CRLF. *)
Definition lines_text (ls : list str) : str := concat ((λ l, l ++ crlf) <$> ls).

(** The reference meaning of the loop: parse the lines in order, stop at the
first one without a colon. *)
Fixpoint parse_lines (ls : list str) (hs : list (str * str)) : bool * list (str * str) :=
  match ls with
  | [] => (true, hs)
  | l :: ls' =>
      match parse_line l with
      | None => (false, hs)
      | Some kv => parse_lines ls' (hs ++ [kv])
      end
  end.

Definition header_text (l : str) : Prop := l ≠ [] ∧ no_crlf l.

Lemma lines_text_cons l ls : lines_text (l :: ls) = l ++ crlf ++ lines_text ls.
Proof. unfold lines_text; simpl. by rewrite <-(assoc_L (++)). Qed.

Lemma find_crlf_from pre l rest :
  no_crlf l →
  find_str_from crlf (pre ++ l ++ crlf ++ rest) (length pre) = Some (length pre + length l)%nat.
Proof. intros Hl. unfold find_str_from. by rewrite drop_app_length, find_crlf_line. Qed.

Lemma substr_middle pre l rest :
  substr (pre ++ l ++ rest) (length pre) (length pre + length l - length pre) = l.
Proof. unfold substr. rewrite drop_app_length. apply take_app_length'. lia. Qed.

(** On a block of lines the index arithmetic of the loop computes [parse_lines]. *)
Lemma header_loop_lines ls pre rest fuel hs :
  Forall header_text ls →
  (length (lines_text ls) < fuel)%nat →
  header_loop fuel (pre ++ lines_text ls ++ crlf ++ rest) (length pre)
    (length pre + length (lines_text ls) - 2) hs = parse_lines ls hs.
Proof.
  intros Hls. revert pre fuel hs; induction Hls as [|l ls [Hne Hl] Hls IH]; intros pre fuel hs Hf;
    (destruct fuel as [|fuel]; [lia|]); rewrite header_loop_S.
  - destruct (Nat.ltb_spec (length pre) (length pre + length (lines_text []) - 2)); [|done].
    simpl in *. lia.
  - rewrite lines_text_cons in *. rewrite !length_app in *. change (length crlf) with 2%nat in *.
    assert (0 < length l)%nat by (destruct l; simpl; [done|lia]).
    destruct (Nat.ltb_spec (length pre) (length pre + (length l + (2 + length (lines_text ls))) - 2));
      [|lia].
    rewrite <-!(assoc_L (++)), find_crlf_from, substr_middle by done.
    destruct (Nat.ltb_spec (length pre + (length l + (2 + length (lines_text ls))) - 2)
      (length pre + length l)); [lia|].
    rewrite bool_decide_false by done. simpl. unfold parse_line.
    destruct (find_char ":" l) as [colon|]; simpl; [|done].
    rewrite <-(IH (pre ++ l ++ crlf) fuel) by lia.
    rewrite <-!(assoc_L (++)), !length_app. change (length crlf) with 2%nat. f_equal; lia.
Qed.

(** ** The header block as lines *)

Lemma header_text_not_blank l rest : header_text l → is_prefix crlf (l ++ crlf ++ rest) = false.
Proof.
  intros [Hne Hl]. apply not_true_iff_false; intros H.
  pose proof (find_crlf_line l rest Hl) as Hf. destruct l as [|x l]; [done|].
  rewrite <-app_comm_cons in H, Hf. by rewrite find_str_cons, H in Hf.
Qed.

(** The blank line after the header lines is the first CRLFCRLF. *)
Lemma find_crlf2_block first ls rest :
  no_crlf first → Forall header_text ls →
  find_str crlf2 (first ++ crlf ++ lines_text ls ++ crlf ++ rest) =
    Some (length first + length (lines_text ls))%nat.
Proof.
  intros Hf Hls; revert first Hf; induction Hls as [|l ls Hl Hls IH]; intros first Hf;
    rewrite find_crlf2_line by done.
  - rewrite (is_prefix_app crlf rest : is_prefix crlf (lines_text [] ++ crlf ++ rest) = true).
    simpl. f_equal; lia.
  - rewrite lines_text_cons, <-!(assoc_L (++)), header_text_not_blank by done.
    rewrite IH by apply Hl. simpl. rewrite !length_app. simpl. f_equal. lia.
Qed.

(** Every complete buffer is a first line, header lines, the blank line, and
what follows. *)
Lemma block_lines buf e :
  find_str crlf2 buf = Some e →
  ∃ first ls rest, buf = first ++ crlf ++ lines_text ls ++ crlf ++ rest ∧
    no_crlf first ∧ Forall header_text ls.
Proof.
  remember (length buf) as n eqn:Hn; revert buf e Hn.
  induction (lt_wf n) as [n _ IH]; intros buf e Hn He.
  destruct (find_crlf2_Some _ _ He) as (le & Hle & _).
  pose proof (find_str_bound _ _ _ Hle) as Hb. change (length crlf) with 2%nat in Hb.
  apply find_crlf_Some in Hle as [Hbuf Hfirst].
  pose proof (find_crlf2_line _ (drop (le + 2) buf) Hfirst) as Hf. rewrite <-Hbuf, He in Hf.
  destruct (is_prefix crlf (drop (le + 2) buf)) eqn:Hp.
  - apply is_prefix_true in Hp as [rest Hrest]. rewrite Hrest in Hbuf.
    by exists (take le buf), [], rest.
  - symmetry in Hf. apply fmap_Some in Hf as (j & Hj & _).
    edestruct (IH (length (drop (le + 2) buf))) as (l & ls & rest & Hrest & Hl & Hls);
      [|done|exact Hj|]; [rewrite length_drop; lia|].
    exists (take le buf), (l :: ls), rest. repeat split; [|done|].
    + rewrite lines_text_cons, <-!(assoc_L (++)), <-Hrest. exact Hbuf.
    + constructor; [split; [|done]|done]. intros ->.
      apply not_true_iff_false in Hp; apply Hp. rewrite Hrest. apply (is_prefix_app crlf).
Qed.

(** What [parse_request] does with the request line and the header lines, with
no buffer and no positions: the reference definition of the parser. *)
Definition parse_head (first : str) (ls : list str) (out : Request) : ParseResult * Request :=
  let out := set_header_bytes (Z.of_nat (length first + length (lines_text ls) + 4)) out in
  if bool_decide (first = []) then (BadRequest, out) else
  match find_char " " first with
  | None => (BadRequest, out)
  | Some sp1 =>
      match find_char " " (drop (sp1 + 1) first) with
      | None => (BadRequest, out)
      | Some n =>
          let out := set_line (take sp1 first) (drop (n + 1) (drop (sp1 + 1) first)) out in
          if negb (known_method (method out)) then (NotImplemented, out) else
          let '(ok, out) := split_absolute_url (take n (drop (sp1 + 1) first)) out in
          if negb ok then (BadRequest, out) else
          let '(ok, hs) := parse_lines ls (headers out) in
          let out := set_headers hs out in
          if negb ok then (BadRequest, out) else parse_body_length out
      end
  end.

Lemma parse_request_block first ls rest out :
  no_crlf first → Forall header_text ls →
  parse_request (first ++ crlf ++ lines_text ls ++ crlf ++ rest) out = parse_head first ls out.
Proof.
  intros Hfirst Hls. unfold parse_request, parse_head.
  rewrite find_crlf2_block, find_crlf_line by done.
  destruct (length first) as [|len] eqn:Hlen.
  { apply nil_length_inv in Hlen as ->. done. }
  rewrite bool_decide_false by (intros ->; done). rewrite <-Hlen.
  assert (substr (first ++ crlf ++ lines_text ls ++ crlf ++ rest) 0 (length first) = first) as ->
    by (unfold substr; by rewrite drop_0, take_app_length).
  destruct (find_char " " first) as [sp1|]; [|done].
  unfold find_char_from, substr_from, substr. rewrite drop_0.
  destruct (find_char " " (drop (sp1 + 1) first)) as [n|]; [|done].
  cbn [fmap option_fmap option_map].
  replace (sp1 + 1 + n - sp1 - 1)%nat with n by lia.
  replace (sp1 + 1 + n + 1)%nat with (sp1 + 1 + (n + 1))%nat by lia. rewrite drop_drop.
  destruct (negb _); [done|]. destruct (split_absolute_url _ _) as [[] out']; [|done].
  cbn [negb]. replace (first ++ crlf ++ lines_text ls ++ crlf ++ rest)
    with ((first ++ crlf) ++ lines_text ls ++ crlf ++ rest) by by rewrite <-(assoc_L (++)).
  replace (length first + 2)%nat with (length (first ++ crlf)) by by rewrite length_app.
  replace (length first + length (lines_text ls))%nat
    with (length (first ++ crlf) + length (lines_text ls) - 2)%nat
    by (rewrite length_app; change (length crlf) with 2%nat; lia).
  rewrite header_loop_lines; [done..|].
  rewrite !length_app. change (length crlf) with 2%nat. lia.
Qed.

(** ** What a parsed request looks like *)

(** [r] differs from [out] at most in the URL's fields. *)
Definition same_frame (out r : Request) : Prop :=
  method r = method out ∧ version r = version out ∧ headers r = headers out ∧
  content_length r = content_length out ∧ header_bytes r = header_bytes out.

Lemma split_authority_spec auth out ok r :
  split_authority auth out = (ok, r) →
  (ok = true → infix_of (host r) auth) ∧ path r = path out ∧ same_frame out r.
Proof.
  unfold split_authority, same_frame. intros H.
  repeat case_match; simplify_eq/=; repeat case_bool_decide; simpl; repeat split; auto with str_db.
  all: intros ?; (discriminate || reflexivity).
Qed.

Record url_wf (url : str) (r : Request) : Prop := {
  url_host_ne : host r ≠ [];
  url_host_piece : infix_of (host r) url;
  url_host_slash : "/"%char ∉ host r;
  url_port_ne : port r ≠ [];
  url_port_digits : Forall (λ c, isdigit c = true) (port r);
  url_path : path r = lit "/" ∨ (infix_of (path r) url ∧ head (path r) = Some "/"%char)
}.

Lemma find_char_from_Some c s from i :
  find_char_from c s from = Some i →
  c ∉ substr s from (i - from) ∧ head (drop i s) = Some c.
Proof.
  intros (j & Hj & ->)%fmap_Some. apply find_char_Some in Hj as (Hs & Hn & Hlt).
  unfold substr. replace (from + j - from)%nat with j by lia. split; [done|].
  rewrite <-drop_drop, Hs, drop_app_length'; [done|]. rewrite length_take. lia.
Qed.

Lemma split_absolute_url_spec url out r :
  split_absolute_url url out = (true, r) → url_wf url r ∧ same_frame out r.
Proof.
  unfold split_absolute_url. intros H. destruct (negb _) in H; [done|].
  set (ps := find_char_from "/" url (length scheme)) in *.
  set (auth := match ps with None => _ | Some _ => _ end) in H.
  set (pth := match ps with None => lit "/" | Some _ => _ end) in H.
  assert (infix_of auth url ∧ "/"%char ∉ auth ∧
          (pth = lit "/" ∨ (infix_of pth url ∧ head pth = Some "/"%char))) as (Ha & Hs & Hp).
  { unfold auth, pth, ps. destruct (find_char_from _ _ _) as [p|] eqn:E.
    - apply find_char_from_Some in E as [? ?]. eauto 6 with str_db.
    - apply fmap_None, find_char_None in E. eauto 6 with str_db. }
  case_bool_decide; [done|].
  destruct (split_authority auth (set_path pth out)) as [ok r'] eqn:E.
  apply split_authority_spec in E as (Hhost & Hpath & Hframe).
  destruct ok; [|done]. specialize (Hhost eq_refl). simpl in H.
  repeat case_bool_decide; simplify_eq/=.
  assert (find_first_not_of digits (port r) = None) as Hd
    by (destruct (find_first_not_of _ _); [by destruct H2|done]).
  split; [|done]. constructor; [done|by etrans|by eauto with str_db|done| |by rewrite Hpath].
  apply find_first_not_of_None in Hd. eapply Forall_impl; [exact Hd|].
  intros c. by rewrite digits_isdigit.
Qed.

(** A header as the loop stores it. *)
Record header_wf (kv : str * str) : Prop := {
  hdr_name_colon : ":"%char ∉ kv.1;
  hdr_name_line : no_crlf kv.1;
  hdr_name_trim : trimmed blanks kv.1;
  hdr_value_line : no_crlf kv.2;
  hdr_value_trim : trimmed blanks kv.2
}.

Lemma parse_line_wf l kv : parse_line l = Some kv → no_crlf l → header_wf kv.
Proof.
  intros (i & Hi & ->)%fmap_Some Hl. apply find_char_Some in Hi as (_ & Hc & _).
  unfold substr, substr_from, trim in *. rewrite drop_0.
  constructor; simpl; eauto using trim_set_trimmed with str_db.
Qed.

Lemma parse_lines_wf ls hs ok hs' :
  parse_lines ls hs = (ok, hs') → Forall header_text ls → Forall header_wf hs → Forall header_wf hs'.
Proof.
  intros H Hls; revert hs H; induction Hls as [|l ls [_ Hl] Hls IH]; simpl; intros hs H Hhs;
    [by simplify_eq|].
  destruct (parse_line l) as [kv|] eqn:E; [|by simplify_eq].
  eapply IH; [exact H|]. apply Forall_app_2, Forall_singleton; [done|]. by eapply parse_line_wf.
Qed.

Lemma parse_body_length_inv out res r :
  parse_body_length out = (res, r) →
  r = out ∨ r = set_content_length (strtoul (header_value out (lit "Content-Length"))) out.
Proof. unfold parse_body_length. intros H. repeat case_bool_decide; simplify_eq; auto. Qed.

(** A Content-Length of digits is taken as [strtoul] reads it. *)
Lemma parse_body_length_digits out :
  find_str (lit "chunked") (lower (header_value out (lit "Transfer-Encoding"))) = None →
  header_value out (lit "Content-Length") ≠ [] →
  Forall (λ c, isdigit c = true) (header_value out (lit "Content-Length")) →
  parse_body_length out =
    (Ok, set_content_length (strtoul (header_value out (lit "Content-Length"))) out).
Proof.
  intros Hte Hne Hd. unfold parse_body_length. rewrite Hte.
  rewrite (bool_decide_false (None ≠ None)), (bool_decide_false (_ = [])) by naive_solver.
  rewrite bool_decide_false; [done|]. intros H; apply H, find_first_not_of_None.
  eapply Forall_impl; [exact Hd|]. intros c. by rewrite digits_isdigit.
Qed.

Lemma strtoul_range s : 0 ≤ strtoul s ≤ ULONG_MAX.
Proof.
  unfold strtoul. destruct (strto_parts s) as [neg m] eqn:E.
  assert (0 ≤ m) as Hm.
  { assert (∀ t, Forall (λ c, isdigit c = true) (digit_run t)) as Hrun.
    { intros t; induction t as [|c t IH]; simpl; [done|]. destruct (isdigit c) eqn:?; auto. }
    unfold strto_parts in E. repeat case_match; simplify_eq; try lia; by apply dec_val_nonneg. }
  unfold ULONG_MAX, wrap64. pose proof (Z.mod_pos_bound (- m) (2 ^ 64)).
  destruct (Z.ltb_spec (2 ^ 64 - 1) m); [lia|]. destruct neg; lia.
Qed.

(** The shape of every request [parse_request] accepts. *)
Record parsed_wf (r : Request) : Prop := {
  parsed_method : known_method (method r) = true;
  parsed_url : ∃ url, url_wf url r ∧ " "%char ∉ url ∧ no_crlf url;
  parsed_headers : Forall header_wf (headers r);
  parsed_length : 0 ≤ content_length r ≤ ULONG_MAX
}.

Lemma parse_head_wf first ls out r :
  no_crlf first → Forall header_text ls →
  Forall header_wf (headers out) → 0 ≤ content_length out ≤ ULONG_MAX →
  parse_head first ls out = (Ok, r) → parsed_wf r.
Proof.
  intros Hf Hls Hhs Hcl. unfold parse_head. intros H. case_bool_decide; [done|].
  destruct (find_char " " first) as [sp1|]; [|done].
  destruct (find_char " " (drop (sp1 + 1) first)) as [n|] eqn:Hn; [|done].
  destruct (known_method _) eqn:Hm in H; [|done]. cbn [negb] in H.
  destruct (split_absolute_url _ _) as [[] r1] eqn:Hu; [|done]. cbn [negb] in H.
  apply split_absolute_url_spec in Hu as [Hurl (Hm1 & _ & Hh1 & Hc1 & _)].
  destruct (parse_lines ls (headers r1)) as [[] hs] eqn:Hl; [|done]. cbn [negb] in H.
  apply parse_lines_wf in Hl; [|done|by rewrite Hh1].
  apply find_char_Some in Hn as (_ & Hsp & _).
  assert (∀ c, 0 ≤ c ≤ ULONG_MAX → parsed_wf (set_content_length c (set_headers hs r1))) as Hwf.
  { intros c Hc. constructor; simpl; [by rewrite Hm1| |done..].
    eexists; split; [|split; [exact Hsp|]]; [destruct Hurl; by constructor|].
    by apply no_crlf_take, no_crlf_drop. }
  apply parse_body_length_inv in H as [->| ->]; [|apply Hwf, strtoul_range].
  apply (Hwf (content_length r1)). by rewrite Hc1.
Qed.

Lemma parse_head_ok_body first ls out r :
  parse_head first ls out = (Ok, r) → ∃ q, parse_body_length q = (Ok, r).
Proof.
  unfold parse_head. intros H. case_bool_decide; [done|].
  destruct (find_char " " first) as [sp1|]; [|done].
  destruct (find_char " " (drop (sp1 + 1) first)) as [n|]; [|done].
  destruct (known_method _) in H; [|done]. cbn [negb] in H.
  destruct (split_absolute_url _ _) as [[] r1]; [|done]. cbn [negb] in H.
  destruct (parse_lines ls (headers r1)) as [[] hs]; [|done].
  eexists; exact H.
Qed.

Lemma parse_request_inv buf out res r :
  parse_request buf out = (res, r) → res ≠ Incomplete →
  ∃ first ls rest, buf = first ++ crlf ++ lines_text ls ++ crlf ++ rest ∧
    no_crlf first ∧ Forall header_text ls ∧ parse_head first ls out = (res, r).
Proof.
  intros H Hres. destruct (find_str crlf2 buf) as [e|] eqn:He.
  - destruct (block_lines _ _ He) as (first & ls & rest & -> & Hf & Hls).
    rewrite parse_request_block in H by done. by exists first, ls, rest.
  - unfold parse_request in H. rewrite He in H. by simplify_eq.
Qed.

Lemma parse_request_wf buf out r :
  Forall header_wf (headers out) → 0 ≤ content_length out ≤ ULONG_MAX →
  parse_request buf out = (Ok, r) → parsed_wf r.
Proof.
  intros ?? H. apply parse_request_inv in H as (? & ? & ? & -> & ? & ? & ?); [|done].
  by eapply parse_head_wf.
Qed.

Section parsed.
Context (r : Request) (Hr : parsed_wf r).

Lemma parsed_path : no_crlf (path r) ∧ head (path r) = Some "/"%char ∧ " "%char ∉ path r.
Proof.
  destruct (parsed_url r Hr) as (url & Hu & Hsp & Hno).
  destruct (url_path _ _ Hu) as [->|[Hp ?]]; [|eauto with str_db].
  split; [done|]. split; [done|]. by vm_compute; set_solver.
Qed.

Lemma parsed_host : no_crlf (host r) ∧ " "%char ∉ host r ∧ "/"%char ∉ host r ∧ host r ≠ [].
Proof.
  destruct (parsed_url r Hr) as (url & [] & Hsp & Hno). eauto 7 with str_db.
Qed.

Lemma parsed_port : Forall (λ c, isdigit c = true) (port r) ∧ port r ≠ [].
Proof. by destruct (parsed_url r Hr) as (url & [] & Hsp & Hno). Qed.
End parsed.

Lemma digits_no_elem ds c : Forall (λ c, isdigit c = true) ds → isdigit c = false → c ∉ ds.
Proof. intros Hds Hc Hin. rewrite Forall_forall in Hds. apply Hds in Hin. congruence. Qed.

Lemma digits_header_wf k ds :
  ":"%char ∉ k → no_crlf k → trimmed blanks k → Forall (λ c, isdigit c = true) ds → header_wf (k, ds).
Proof.
  intros ??? Hds. assert (∀ c, c ∈ ds → c ∉ blanks) as Hb.
  { intros c Hc. rewrite Forall_forall in Hds. apply Hds in Hc.
    intros [->|[->|Hn]%elem_of_cons]%elem_of_cons; [done..|]. by apply elem_of_nil in Hn. }
  constructor; simpl; [done..| |split; intros x Hx; apply Hb].
  - by apply no_crlf_free, (digits_no_elem ds CR).
  - by apply head_Some_elem_of.
  - by apply last_Some_elem_of.
Qed.

(** ** Printing headers and lines *)

Definition print_line (kv : str * str) : str := kv.1 ++ lit ": " ++ kv.2.

Lemma header_lines_text hs : concat (header_line <$> hs) = lines_text (print_line <$> hs).
Proof.
  unfold lines_text, header_line, print_line. induction hs as [|kv hs IH]; [done|].
  cbn [fmap list_fmap concat]. rewrite IH. by rewrite <-!(assoc_L (++)).
Qed.

Lemma lines_text_app ls ls' : lines_text (ls ++ ls') = lines_text ls ++ lines_text ls'.
Proof. unfold lines_text. by rewrite fmap_app, concat_app. Qed.

Lemma parse_print_line k v :
  ":"%char ∉ k → trimmed blanks k → parse_line (print_line (k, v)) = Some (k, trim v).
Proof.
  intros Hk Ht. unfold parse_line, print_line.
  change (lit ": " ++ (k, v).2) with (":"%char :: " "%char :: v).
  rewrite find_char_hit by done. simpl. unfold substr, substr_from, trim.
  rewrite drop_0, take_app_length, drop_app_add. simpl.
  by rewrite trim_set_id, trim_set_cons by (done || by left).
Qed.

Lemma parse_print_header kv : header_wf kv → parse_line (print_line kv) = Some kv.
Proof.
  destruct kv as [k v]. intros []; simpl in *. rewrite parse_print_line by done.
  unfold trim. by rewrite trim_set_id.
Qed.

Lemma parse_print_headers hs acc :
  Forall header_wf hs → parse_lines (print_line <$> hs) acc = (true, acc ++ hs).
Proof.
  intros Hhs; revert acc; induction Hhs as [|kv hs Hkv _ IH]; intros acc.
  - simpl. by rewrite (right_id_L [] (++)).
  - cbn [fmap list_fmap parse_lines]. rewrite parse_print_header, IH by done.
    by rewrite <-(assoc_L (++)).
Qed.

Lemma parse_lines_app ls ls' acc hs :
  parse_lines ls acc = (true, hs) → parse_lines (ls ++ ls') acc = parse_lines ls' hs.
Proof.
  revert acc; induction ls as [|l ls IH]; simpl; intros acc H; [by simplify_eq|].
  destruct (parse_line l); [|done]. by apply IH.
Qed.

Lemma print_line_text k v : no_crlf k → no_crlf v → header_text (print_line (k, v)).
Proof.
  intros Hk Hv. unfold print_line; cbn [fst snd]. split; [by destruct k|].
  apply no_crlf_glue; [done| |done]. by repeat (apply no_crlf_cons; split; [done|]).
Qed.

Lemma print_headers_text hs : Forall header_wf hs → Forall header_text (print_line <$> hs).
Proof. intros Hhs. apply Forall_fmap. eapply Forall_impl; [exact Hhs|]. intros [] []. by apply print_line_text. Qed.

(** How a message made of a first line, header lines and a body reads back. *)
Lemma printed_block first ls body hs :
  no_crlf first → Forall header_text ls → parse_lines ls [] = (true, hs) →
  let out := first ++ crlf ++ lines_text ls ++ crlf ++ body in
  let block_end := (length first + length (lines_text ls))%nat in
  find_str crlf out = Some (length first) ∧ find_str crlf2 out = Some block_end ∧
  take (length first) out = first ∧ drop (block_end + 4) out = body ∧
  header_loop (length out) out (length first + 2) block_end [] = (true, hs).
Proof.
  intros Hf Hls Hp out block_end. unfold out, block_end.
  split; [by apply find_crlf_line|]. split; [by apply find_crlf2_block|].
  split; [by rewrite take_app_length|]. split.
  { rewrite !(assoc_L (++)), drop_app_length'; [done|]. rewrite !length_app. simpl. lia. }
  rewrite <-Hp, (assoc_L (++) first).
  replace (length first + 2)%nat with (length (first ++ crlf)) by by rewrite length_app.
  replace (length first + length (lines_text ls))%nat
    with (length (first ++ crlf) + length (lines_text ls) - 2)%nat by (rewrite length_app; simpl; lia).
  apply header_loop_lines; [done|]. rewrite !length_app. simpl. lia.
Qed.

Lemma known_method_cases m :
  known_method m = true → m = lit "GET" ∨ m = lit "HEAD" ∨ m = lit "POST".
Proof. unfold known_method. rewrite !orb_true_iff, !bool_decide_eq_true. tauto. Qed.

(** ** The upstream request *)

Definition upstream_line (r : Request) : str := method r ++ lit " " ++ path r ++ lit " HTTP/1.1".
Definition upstream_headers (r : Request) : list (str * str) :=
  (lit "Host", host_value r) :: filter keep_header (headers r) ++ [(lit "Connection", lit "close")].

Lemma upstream_request_text r body :
  build_upstream_request r body =
    upstream_line r ++ crlf ++ lines_text (print_line <$> upstream_headers r) ++ crlf ++ body.
Proof.
  unfold build_upstream_request, upstream_line, upstream_headers, crlf2.
  rewrite header_lines_text. cbn [fmap list_fmap]. rewrite fmap_app, lines_text_cons, lines_text_app.
  unfold print_line at 1 4. unfold lines_text at 3. cbn [fmap list_fmap concat fst snd].
  rewrite (right_id_L [] (++)). by rewrite <-!(assoc_L (++)).
Qed.

Lemma host_value_line r : parsed_wf r → no_crlf (host_value r).
Proof.
  intros Hr. unfold host_value. destruct (parsed_host r Hr) as [Hh _].
  case_bool_decide; [by rewrite (right_id_L [] (++))|].
  apply no_crlf_glue; [done| |done]. apply no_crlf_cons. split; [done|].
  apply no_crlf_free, digits_no_elem; [apply parsed_port; done|done].
Qed.

Lemma upstream_headers_text r : parsed_wf r → Forall header_text (print_line <$> upstream_headers r).
Proof.
  intros Hr. unfold upstream_headers. cbn [fmap list_fmap]. constructor.
  - apply print_line_text; [done|by apply host_value_line].
  - rewrite fmap_app. apply Forall_app_2.
    + apply print_headers_text, Forall_filter_sub, parsed_headers, Hr.
    + constructor; [|done]. by split.
Qed.

Lemma upstream_line_text r : parsed_wf r → no_crlf (upstream_line r).
Proof.
  intros Hr. unfold upstream_line. destruct (parsed_path r Hr) as (Hp & Hh & _).
  apply no_crlf_glue.
  - by destruct (known_method_cases _ (parsed_method r Hr)) as [->|[->| ->]].
  - apply no_crlf_cons; split; [done|]. apply no_crlf_glue; [done..|].
    by destruct (path r); simplify_eq/=.
  - done.
Qed.
