(* ===== verification/HttpSpec.v ===== *)
(** * What the HTTP layer guarantees

Theorems about [parse_request], [build_upstream_request] and
[error_response] of [Http]: parsing does not depend on how the bytes arrive,
it inverts the printer of absolute-form requests, the request sent to the
origin parses to exactly the intended header list (nothing a client sends can
add a header or end the block early), and numeric fields saturate. *)
From S2P Require Import Prelude CppString Http.

(** ** Incremental parsing *)

(** C6: Once the header block is complete, further bytes do not change the
outcome: [parse_request] on the longer buffer gives the same result and the
same request, so the way TCP splits a request into reads is irrelevant. *)
Theorem parse_request_extend buf more out :
  (parse_request buf out).1 ≠ Incomplete →
  parse_request (buf ++ more) out = parse_request buf out.
Proof.
  destruct (parse_request buf out) as [res r] eqn:E; simpl; intros Hres.
  apply parse_request_inv in E as (first & ls & rest & -> & Hf & Hls & Hh); [|done].
  rewrite <-!(assoc_L (++)). by rewrite parse_request_block.
Qed.

Definition demo_request : str :=
  lit "GET http://example.com:8080/a HTTP/1.1" ++ crlf ++
  lit "Host: example.com" ++ crlf ++ lit "X-Id: 7" ++ crlf ++ crlf.

Lemma parse_request_extend_witness :
  parse_request (demo_request ++ lit "tail") Request_default = parse_request demo_request Request_default.
Proof. apply parse_request_extend. by vm_compute. Defined.

(** ** Round trip *)

(** An absolute-form request as a client writes it. *)
Definition print_request (r : Request) (body : str) : str :=
  method r ++ lit " " ++ scheme ++ host r ++ lit ":" ++ port r ++ path r ++ lit " " ++ version r ++
  crlf ++ lines_text (print_line <$> headers r) ++ crlf ++ body.

Record printable (r : Request) : Prop := {
  pr_method : known_method (method r) = true;
  pr_host : host r ≠ [] ∧ "/"%char ∉ host r ∧ " "%char ∉ host r ∧ no_crlf (host r);
  pr_host_plain : head (host r) ≠ Some "["%char;
  pr_port : port r ≠ [] ∧ Forall (λ c, isdigit c = true) (port r);
  pr_path : head (path r) = Some "/"%char ∧ " "%char ∉ path r ∧ no_crlf (path r);
  pr_version : no_crlf (version r);
  pr_headers : Forall header_wf (headers r);
  pr_plain_body : find_str (lit "chunked") (lower (header_value r (lit "Transfer-Encoding"))) = None;
  pr_length : (header_value r (lit "Content-Length") = [] ∧ content_length r = 0) ∨
              (header_value r (lit "Content-Length") = to_string (content_length r) ∧
               0 ≤ content_length r ≤ ULONG_MAX)
}.

Lemma split_printed_url r out :
  printable r →
  split_absolute_url (scheme ++ host r ++ lit ":" ++ port r ++ path r) out =
    (true, set_port (port r) (set_host (host r) (set_path (path r) out))).
Proof.
  intros Hr. destruct (pr_host r Hr) as (Hne & Hslash & _). destruct (pr_port r Hr) as [Hpne Hpd].
  destruct (pr_path r Hr) as (Hph & _). destruct (path r) as [|x p] eqn:Hpath; [done|].
  simpl in Hph; injection Hph as ->.
  assert ("/"%char ∉ host r ++ ":"%char :: port r) as Hauth.
  { rewrite elem_of_app, elem_of_cons. intros [?|[?|?]]; [done..|].
    by apply (digits_no_elem (port r) "/"%char). }
  change (lit ":" ++ port r ++ "/"%char :: p) with (":"%char :: port r ++ "/"%char :: p).
  unfold split_absolute_url, find_char_from.
  assert (substr (scheme ++ host r ++ ":"%char :: port r ++ "/"%char :: p) 0 (length scheme) = scheme)
    as -> by (unfold substr; by rewrite drop_0, take_app_length).
  rewrite bool_decide_true by done. cbn [negb].
  rewrite drop_app_length, app_comm_cons, (assoc_L (++) (host r)), find_char_hit by done.
  cbn [fmap option_fmap option_map]. unfold substr, substr_from.
  rewrite drop_app_length, drop_app_add, drop_app_length.
  rewrite take_app_length' by lia.
  rewrite bool_decide_false by (by destruct (host r)).
  assert (split_authority (host r ++ ":"%char :: port r) (set_path ("/"%char :: p) out) =
    (true, set_port (port r) (set_host (host r) (set_path ("/"%char :: p) out)))) as ->.
  { unfold split_authority. rewrite rfind_char_hit by by apply (digits_no_elem (port r) ":"%char).
    unfold substr, substr_from. rewrite drop_0, take_app_length, drop_app_add. simpl drop.
    pose proof (pr_host_plain r Hr). destruct (host r) as [|c h]; [done|]. simpl in *.
    by destruct c as [[][][][][][][][]]. }
  cbn [negb]. change (host (set_port _ _)) with (host r). change (port (set_port _ _)) with (port r).
  rewrite !bool_decide_false; [done| |done|done].
  intros Hd; apply Hd, find_first_not_of_None. eapply Forall_impl; [exact Hpd|].
  intros c. by rewrite digits_isdigit.
Qed.

Definition printed_url (r : Request) : str := scheme ++ host r ++ lit ":" ++ port r ++ path r.

Lemma printed_url_plain r : printable r → " "%char ∉ printed_url r ∧ no_crlf (printed_url r).
Proof.
  intros Hr. destruct (pr_host r Hr) as (Hne & _ & Hhs & Hhl). destruct (pr_port r Hr) as [_ Hpd].
  destruct (pr_path r Hr) as (Hph & Hps & Hpl). unfold printed_url. split.
  - rewrite !elem_of_app. intros [?|[?|[?|[?|?]]]]; [by vm_compute; set_solver|done|by vm_compute; set_solver| |done].
    by apply (digits_no_elem (port r) " "%char).
  - assert (no_crlf (port r)) by by apply no_crlf_free, (digits_no_elem (port r) CR).
    repeat (apply no_crlf_glue; [done| |done]). apply no_crlf_glue; [done..|].
    destruct (path r); simplify_eq/=; done.
Qed.

Lemma parse_printed_head r :
  printable r →
  parse_head (method r ++ " "%char :: printed_url r ++ " "%char :: version r)
    (print_line <$> headers r) Request_default =
  (Ok, set_header_bytes (zlen (print_request r [])) r).
Proof.
  intros Hr. destruct (printed_url_plain r Hr) as [Husp _]. pose proof (pr_headers r Hr) as Hhs.
  pose proof (known_method_cases _ (pr_method r Hr)) as Hm.
  assert (" "%char ∉ method r) as Hmsp by (destruct Hm as [->|[->| ->]]; vm_compute; set_solver).
  unfold parse_head. rewrite bool_decide_false by (by destruct Hm as [->|[->| ->]]).
  rewrite find_char_hit, drop_app_add by done.
  change (drop 1 (?x :: ?l)) with l. rewrite find_char_hit, !take_app_length, drop_app_add by done.
  change (drop 1 (?x :: ?l)) with l.
  change (method (set_line _ _ _)) with (method r). rewrite (pr_method r Hr). cbn [negb].
  unfold printed_url. rewrite split_printed_url by done. cbn [negb].
  change (headers (set_port _ _)) with (@nil (str * str)). rewrite parse_print_headers by done.
  cbn [negb app].
  assert (Z.of_nat (length (method r ++ " "%char :: printed_url r ++ " "%char :: version r) +
    length (lines_text (print_line <$> headers r)) + 4) = zlen (print_request r [])) as <-.
  { unfold zlen, print_request, printed_url. rewrite !length_app. simpl. rewrite !length_app. simpl.
    rewrite !length_app. simpl. lia. }
  destruct (pr_length r Hr) as [[Hh Hc]|[Hc Hrange]].
  - unfold parse_body_length.
    change (header_value (set_headers (headers r) _) ?n) with (header_value r n).
    rewrite (pr_plain_body r Hr), Hh, (bool_decide_false (None ≠ None)) by naive_solver.
    by destruct r; simplify_eq/=.
  - rewrite parse_body_length_digits;
      change (header_value (set_headers (headers r) _) ?n) with (header_value r n); rewrite ?Hc.
    + rewrite strtoul_to_string by done. by destruct r.
    + apply (pr_plain_body r Hr).
    + apply to_string_ne.
    + apply to_string_spec. lia.
Qed.

(** C21: Parsing inverts printing: an absolute-form request with a well-formed
method, host, port, path, version and headers, followed by any body, is
accepted and every field comes back, with [header_bytes] the exact offset of
the body. *)
Theorem parse_print_request r body :
  printable r →
  parse_request (print_request r body) Request_default =
    (Ok, set_header_bytes (zlen (print_request r [])) r).
Proof.
  intros Hr. rewrite <-parse_printed_head by done.
  assert (print_request r body = (method r ++ " "%char :: printed_url r ++ " "%char :: version r) ++
    crlf ++ lines_text (print_line <$> headers r) ++ crlf ++ body) as ->.
  { unfold print_request, printed_url. change (lit " ") with [" "%char].
    by rewrite <-!(assoc_L (++)), <-!app_comm_cons, <-!(assoc_L (++)). }
  apply parse_request_block; [|by apply print_headers_text, pr_headers].
  destruct (printed_url_plain r Hr) as [_ Hu]. pose proof (pr_version r Hr).
  apply no_crlf_glue; [|apply no_crlf_cons; split; [done|]|done].
  - by destruct (known_method_cases _ (pr_method r Hr)) as [->|[->| ->]].
  - apply no_crlf_glue; [done| |done]. apply no_crlf_cons; by split.
Qed.

Definition demo_post : Request :=
  mkRequest (lit "POST") (lit "example.com") (lit "8080") (lit "/a?b=1") (lit "HTTP/1.1")
    [(lit "X-Id", lit "7"); (lit "Content-Length", lit "5")] 5 0.

Lemma parse_print_request_witness :
  parse_request (print_request demo_post (lit "hello")) Request_default =
    (Ok, set_header_bytes (zlen (print_request demo_post [])) demo_post).
Proof.
  apply parse_print_request. constructor.
  1,2,3,4,5,6: vm_compute; repeat split; try set_solver; repeat constructor.
  - repeat constructor; try done; by vm_compute; set_solver.
  - reflexivity.
  - right. by vm_compute.
Defined.

(** ** The request sent to the origin *)

Lemma keep_header_names hs :
  Forall (λ kv : str * str, lower kv.1 ≠ lit "host" ∧ is_hop_by_hop (lower kv.1) = false)
    (filter keep_header hs).
Proof.
  apply Forall_forall. intros kv [Hk _]%list_elem_of_filter. unfold keep_header in Hk.
  apply Is_true_true, negb_true_iff, orb_false_iff in Hk as [Hk ?].
  by apply bool_decide_eq_false in Hk.
Qed.

Lemma parse_upstream_lines r :
  parsed_wf r →
  parse_lines (print_line <$> upstream_headers r) [] =
    (true, (lit "Host", trim (host_value r)) ::
           filter keep_header (headers r) ++ [(lit "Connection", lit "close")]).
Proof.
  intros Hr. unfold upstream_headers. cbn [fmap list_fmap parse_lines].
  rewrite parse_print_line; [|by vm_compute; set_solver|by split; intros ? [= <-]; vm_compute; set_solver].
  rewrite fmap_app. erewrite parse_lines_app;
    [|by apply parse_print_headers, Forall_filter_sub, parsed_headers].
  cbn [fmap list_fmap parse_lines]. rewrite parse_print_header; [done|].
  constructor; try done; try (by vm_compute; set_solver); split; intros ? [= <-]; vm_compute; set_solver.
Qed.

(** C22: For every accepted request and every body, the text sent to the origin
is one origin-form request: its first line is exactly
"METHOD path HTTP/1.1", its header lines parse to one Host (ours), the
client's headers without Host and hop-by-hop ones in their order, and a final
"Connection: close"; the blank line is where the body starts.  So no byte of
the client's URL or headers can add a header or end the block early. *)
Theorem upstream_request_exact buf r body :
  parse_request buf Request_default = (Ok, r) →
  let out := build_upstream_request r body in
  ∃ line_end block_end,
    find_str crlf out = Some line_end ∧ find_str crlf2 out = Some block_end ∧
    take line_end out = method r ++ lit " " ++ path r ++ lit " HTTP/1.1" ∧
    drop (block_end + 4) out = body ∧
    header_loop (length out) out (line_end + 2) block_end [] =
      (true, (lit "Host", trim (host_value r)) ::
             filter keep_header (headers r) ++ [(lit "Connection", lit "close")]) ∧
    Forall (λ kv : str * str, lower kv.1 ≠ lit "host" ∧ is_hop_by_hop (lower kv.1) = false)
      (filter keep_header (headers r)).
Proof.
  intros Hparse out. assert (parsed_wf r) as Hr by (by eapply parse_request_wf; [| |exact Hparse]).
  destruct (printed_block _ _ body _ (upstream_line_text r Hr) (upstream_headers_text r Hr)
    (parse_upstream_lines r Hr)) as (H1 & H2 & H3 & H4 & H5).
  unfold out. rewrite upstream_request_text.
  eexists _, _. split_and!; [exact H1|exact H2|exact H3|exact H4|exact H5|apply keep_header_names].
Qed.

Lemma upstream_request_exact_witness :
  ∃ r, parse_request demo_request Request_default = (Ok, r) ∧
    ∃ line_end block_end, drop (block_end + 4) (build_upstream_request r (lit "b")) = lit "b" ∧
      take line_end (build_upstream_request r (lit "b")) = lit "GET /a HTTP/1.1".
Proof.
  eexists; split; [vm_compute; reflexivity|].
  edestruct (upstream_request_exact demo_request) as (le & be & _ & _ & H1 & H2 & _);
    [vm_compute; reflexivity|].
  exists le, be. split; [exact H2|exact H1].
Defined.

(** ** Numeric bounds *)

(** The Content-Length of an accepted request is the decimal value of the
header, saturated at ULONG_MAX: a length too large for [size_t] never wraps
around to a small one that would pass the body-size check. *)
Theorem content_length_saturates buf r :
  parse_request buf Request_default = (Ok, r) →
  header_value r (lit "Content-Length") ≠ [] →
  content_length r = Z.min ULONG_MAX (dec_val 0 (header_value r (lit "Content-Length"))).
Proof.
  intros H Hne. apply parse_request_inv in H as (first & ls & rest & -> & _ & _ & H); [|done].
  apply parse_head_ok_body in H as [q H].
  assert (headers r = headers q) as Heq by (by apply parse_body_length_inv in H as [->| ->]).
  unfold header_value in *. rewrite Heq in *. unfold parse_body_length, header_value in H.
  case_bool_decide; [done|]. rewrite bool_decide_false in H by done.
  case_bool_decide as Hd; [done|]. injection H as <-. apply strtoul_digits.
  apply find_first_not_of_None in Hd.
  eapply Forall_impl; [exact Hd|]. intros c. by rewrite digits_isdigit.
Qed.

Definition demo_huge : str :=
  lit "POST http://h/ HTTP/1.1" ++ crlf ++
  lit "Content-Length: 36893488147419103232" ++ crlf ++ crlf.

Lemma content_length_saturates_witness :
  ∃ r, parse_request demo_huge Request_default = (Ok, r) ∧ content_length r = ULONG_MAX.
Proof.
  eexists; split; [vm_compute; reflexivity|].
  rewrite (content_length_saturates demo_huge); by vm_compute.
Defined.

(** Every error response is self-framing: its header block ends at the
first blank line, the declared Content-Length is the number of bytes after
it, and it announces that the connection closes. *)
Theorem error_response_framed code reason :
  0 ≤ code → no_crlf reason →
  let out := error_response code reason in
  ∃ line_end block_end,
    find_str crlf out = Some line_end ∧ find_str crlf2 out = Some block_end ∧
    take line_end out = lit "HTTP/1.1 " ++ to_string code ++ lit " " ++ reason ∧
    header_loop (length out) out (line_end + 2) block_end [] =
      (true, [(lit "Content-Type", lit "text/plain");
              (lit "Content-Length", to_string (zlen (drop (block_end + 4) out)));
              (lit "Connection", lit "close")]).
Proof.
  intros Hcode Hreason out. destruct (to_string_spec code Hcode) as [Hd _].
  set (body := to_string code ++ lit " " ++ reason ++ [LF]).
  set (first := lit "HTTP/1.1 " ++ to_string code ++ lit " " ++ reason).
  set (hs := [(lit "Content-Type", lit "text/plain"); (lit "Content-Length", to_string (zlen body));
              (lit "Connection", lit "close")]).
  assert (no_crlf (to_string code)) by by apply no_crlf_free, (digits_no_elem (to_string code) CR).
  assert (no_crlf first).
  { apply no_crlf_glue; [done| |done]. apply no_crlf_glue; [done| |done].
    apply no_crlf_cons. by split. }
  assert (Forall header_wf hs) as Hhs.
  { unfold hs. repeat apply Forall_cons_2; [| | |done].
    2: apply digits_header_wf; [..|apply to_string_spec; unfold zlen; lia].
    all: repeat split; try done; try (by vm_compute; set_solver).
    all: intros ? [= <-]; vm_compute; set_solver. }
  destruct (printed_block first (print_line <$> hs) body hs) as (H1 & H2 & H3 & H4 & H5);
    [done|by apply print_headers_text|by apply parse_print_headers|].
  assert (out = first ++ crlf ++ lines_text (print_line <$> hs) ++ crlf ++ body) as ->.
  { unfold out, error_response, hs, first, crlf2. cbn [fmap list_fmap].
    rewrite !lines_text_cons. unfold lines_text, print_line. cbn [fmap list_fmap concat fst snd].
    fold body. by rewrite <-!(assoc_L (++)). }
  eexists _, _. split_and!; [exact H1|exact H2|exact H3|]. rewrite H4. exact H5.
Qed.

Lemma error_response_framed_witness :
  ∃ line_end, take line_end (error_response 413 (lit "Payload Too Large")) =
    lit "HTTP/1.1 413 Payload Too Large".
Proof.
  destruct (error_response_framed 413 (lit "Payload Too Large")) as (le & be & _ & _ & H & _);
    [lia|reflexivity|].
  exists le. exact H.
Defined.
