(* ===== verification/Config.v ===== *)
(** * Configuration ([config.hpp], [config.cpp])

[Config] is the struct with its default member initialisers, [load_config] the
`key = value` reader.  The file system is a parameter ([open_file]: the bytes
of a readable file); [load_lines] is the [while (getline)] loop over the
lines, carrying the configuration the source mutates in place, and
[load_line] its body.  [int] fields go through [atoi], [size_t] fields through
[strtoul], as in the source. *)
From S2P Require Import Prelude CppString.

(** ** Data *)

Inductive BackendKind := ThreadPerConn | ThreadPool | EventLoop.

#[export] Instance BackendKind_eq_dec : EqDecision BackendKind.
Proof. solve_decision. Defined.

Record Config := mkConfig {
  listen_host : str;
  listen_port : Z;
  backlog : Z;
  backend : BackendKind;
  thread_pool_size : Z;
  job_queue_capacity : Z;
  max_header_bytes : Z;
  max_body_bytes : Z;
  io_chunk_bytes : Z;
  desired_fd_limit : Z;
  event_loops : Z;
  poll_timeout_ms : Z;
  async_resolve : bool;
  resolver_threads : Z;
  dns_cache_ttl_s : Z;
  resolve_delay_ms : Z;
  cache_enabled : bool;
  cache_max_entries : Z;
  cache_max_bytes : Z;
  cache_max_entry_bytes : Z;
  log_level : Z
}.

(** The default member initialisers. *)
Definition Config_default : Config := {|
  listen_host := lit "127.0.0.1"; listen_port := 8888; backlog := 512;
  backend := ThreadPerConn;
  thread_pool_size := 64; job_queue_capacity := 256;
  max_header_bytes := 16 * 1024; max_body_bytes := 8 * 1024 * 1024; io_chunk_bytes := 32 * 1024;
  desired_fd_limit := 10240;
  event_loops := 1;
  poll_timeout_ms := 30000;
  async_resolve := true; resolver_threads := 4; dns_cache_ttl_s := 60;
  resolve_delay_ms := 0;
  cache_enabled := true; cache_max_entries := 256; cache_max_bytes := 64 * 1024 * 1024;
  cache_max_entry_bytes := 1 * 1024 * 1024;
  log_level := 2
|}.

(** ** Field assignment *)

Definition set_listen_host (v : str) (c : Config) : Config :=
  mkConfig v (listen_port c) (backlog c) (backend c) (thread_pool_size c) (job_queue_capacity c)
    (max_header_bytes c) (max_body_bytes c) (io_chunk_bytes c) (desired_fd_limit c)
    (event_loops c) (poll_timeout_ms c) (async_resolve c) (resolver_threads c)
    (dns_cache_ttl_s c) (resolve_delay_ms c) (cache_enabled c) (cache_max_entries c)
    (cache_max_bytes c) (cache_max_entry_bytes c) (log_level c).
Definition set_listen_port (v : Z) (c : Config) : Config :=
  mkConfig (listen_host c) v (backlog c) (backend c) (thread_pool_size c) (job_queue_capacity c)
    (max_header_bytes c) (max_body_bytes c) (io_chunk_bytes c) (desired_fd_limit c)
    (event_loops c) (poll_timeout_ms c) (async_resolve c) (resolver_threads c)
    (dns_cache_ttl_s c) (resolve_delay_ms c) (cache_enabled c) (cache_max_entries c)
    (cache_max_bytes c) (cache_max_entry_bytes c) (log_level c).
Definition set_backlog (v : Z) (c : Config) : Config :=
  mkConfig (listen_host c) (listen_port c) v (backend c) (thread_pool_size c)
    (job_queue_capacity c) (max_header_bytes c) (max_body_bytes c) (io_chunk_bytes c)
    (desired_fd_limit c) (event_loops c) (poll_timeout_ms c) (async_resolve c)
    (resolver_threads c) (dns_cache_ttl_s c) (resolve_delay_ms c) (cache_enabled c)
    (cache_max_entries c) (cache_max_bytes c) (cache_max_entry_bytes c) (log_level c).
Definition set_backend (v : BackendKind) (c : Config) : Config :=
  mkConfig (listen_host c) (listen_port c) (backlog c) v (thread_pool_size c)
    (job_queue_capacity c) (max_header_bytes c) (max_body_bytes c) (io_chunk_bytes c)
    (desired_fd_limit c) (event_loops c) (poll_timeout_ms c) (async_resolve c)
    (resolver_threads c) (dns_cache_ttl_s c) (resolve_delay_ms c) (cache_enabled c)
    (cache_max_entries c) (cache_max_bytes c) (cache_max_entry_bytes c) (log_level c).
Definition set_thread_pool_size (v : Z) (c : Config) : Config :=
  mkConfig (listen_host c) (listen_port c) (backlog c) (backend c) v (job_queue_capacity c)
    (max_header_bytes c) (max_body_bytes c) (io_chunk_bytes c) (desired_fd_limit c)
    (event_loops c) (poll_timeout_ms c) (async_resolve c) (resolver_threads c)
    (dns_cache_ttl_s c) (resolve_delay_ms c) (cache_enabled c) (cache_max_entries c)
    (cache_max_bytes c) (cache_max_entry_bytes c) (log_level c).
Definition set_job_queue_capacity (v : Z) (c : Config) : Config :=
  mkConfig (listen_host c) (listen_port c) (backlog c) (backend c) (thread_pool_size c) v
    (max_header_bytes c) (max_body_bytes c) (io_chunk_bytes c) (desired_fd_limit c)
    (event_loops c) (poll_timeout_ms c) (async_resolve c) (resolver_threads c)
    (dns_cache_ttl_s c) (resolve_delay_ms c) (cache_enabled c) (cache_max_entries c)
    (cache_max_bytes c) (cache_max_entry_bytes c) (log_level c).
Definition set_max_header_bytes (v : Z) (c : Config) : Config :=
  mkConfig (listen_host c) (listen_port c) (backlog c) (backend c) (thread_pool_size c)
    (job_queue_capacity c) v (max_body_bytes c) (io_chunk_bytes c) (desired_fd_limit c)
    (event_loops c) (poll_timeout_ms c) (async_resolve c) (resolver_threads c)
    (dns_cache_ttl_s c) (resolve_delay_ms c) (cache_enabled c) (cache_max_entries c)
    (cache_max_bytes c) (cache_max_entry_bytes c) (log_level c).
Definition set_max_body_bytes (v : Z) (c : Config) : Config :=
  mkConfig (listen_host c) (listen_port c) (backlog c) (backend c) (thread_pool_size c)
    (job_queue_capacity c) (max_header_bytes c) v (io_chunk_bytes c) (desired_fd_limit c)
    (event_loops c) (poll_timeout_ms c) (async_resolve c) (resolver_threads c)
    (dns_cache_ttl_s c) (resolve_delay_ms c) (cache_enabled c) (cache_max_entries c)
    (cache_max_bytes c) (cache_max_entry_bytes c) (log_level c).
Definition set_io_chunk_bytes (v : Z) (c : Config) : Config :=
  mkConfig (listen_host c) (listen_port c) (backlog c) (backend c) (thread_pool_size c)
    (job_queue_capacity c) (max_header_bytes c) (max_body_bytes c) v (desired_fd_limit c)
    (event_loops c) (poll_timeout_ms c) (async_resolve c) (resolver_threads c)
    (dns_cache_ttl_s c) (resolve_delay_ms c) (cache_enabled c) (cache_max_entries c)
    (cache_max_bytes c) (cache_max_entry_bytes c) (log_level c).
Definition set_desired_fd_limit (v : Z) (c : Config) : Config :=
  mkConfig (listen_host c) (listen_port c) (backlog c) (backend c) (thread_pool_size c)
    (job_queue_capacity c) (max_header_bytes c) (max_body_bytes c) (io_chunk_bytes c) v
    (event_loops c) (poll_timeout_ms c) (async_resolve c) (resolver_threads c)
    (dns_cache_ttl_s c) (resolve_delay_ms c) (cache_enabled c) (cache_max_entries c)
    (cache_max_bytes c) (cache_max_entry_bytes c) (log_level c).
Definition set_event_loops (v : Z) (c : Config) : Config :=
  mkConfig (listen_host c) (listen_port c) (backlog c) (backend c) (thread_pool_size c)
    (job_queue_capacity c) (max_header_bytes c) (max_body_bytes c) (io_chunk_bytes c)
    (desired_fd_limit c) v (poll_timeout_ms c) (async_resolve c) (resolver_threads c)
    (dns_cache_ttl_s c) (resolve_delay_ms c) (cache_enabled c) (cache_max_entries c)
    (cache_max_bytes c) (cache_max_entry_bytes c) (log_level c).
Definition set_poll_timeout_ms (v : Z) (c : Config) : Config :=
  mkConfig (listen_host c) (listen_port c) (backlog c) (backend c) (thread_pool_size c)
    (job_queue_capacity c) (max_header_bytes c) (max_body_bytes c) (io_chunk_bytes c)
    (desired_fd_limit c) (event_loops c) v (async_resolve c) (resolver_threads c)
    (dns_cache_ttl_s c) (resolve_delay_ms c) (cache_enabled c) (cache_max_entries c)
    (cache_max_bytes c) (cache_max_entry_bytes c) (log_level c).
Definition set_async_resolve (v : bool) (c : Config) : Config :=
  mkConfig (listen_host c) (listen_port c) (backlog c) (backend c) (thread_pool_size c)
    (job_queue_capacity c) (max_header_bytes c) (max_body_bytes c) (io_chunk_bytes c)
    (desired_fd_limit c) (event_loops c) (poll_timeout_ms c) v (resolver_threads c)
    (dns_cache_ttl_s c) (resolve_delay_ms c) (cache_enabled c) (cache_max_entries c)
    (cache_max_bytes c) (cache_max_entry_bytes c) (log_level c).
Definition set_resolver_threads (v : Z) (c : Config) : Config :=
  mkConfig (listen_host c) (listen_port c) (backlog c) (backend c) (thread_pool_size c)
    (job_queue_capacity c) (max_header_bytes c) (max_body_bytes c) (io_chunk_bytes c)
    (desired_fd_limit c) (event_loops c) (poll_timeout_ms c) (async_resolve c) v
    (dns_cache_ttl_s c) (resolve_delay_ms c) (cache_enabled c) (cache_max_entries c)
    (cache_max_bytes c) (cache_max_entry_bytes c) (log_level c).
Definition set_dns_cache_ttl_s (v : Z) (c : Config) : Config :=
  mkConfig (listen_host c) (listen_port c) (backlog c) (backend c) (thread_pool_size c)
    (job_queue_capacity c) (max_header_bytes c) (max_body_bytes c) (io_chunk_bytes c)
    (desired_fd_limit c) (event_loops c) (poll_timeout_ms c) (async_resolve c)
    (resolver_threads c) v (resolve_delay_ms c) (cache_enabled c) (cache_max_entries c)
    (cache_max_bytes c) (cache_max_entry_bytes c) (log_level c).
Definition set_resolve_delay_ms (v : Z) (c : Config) : Config :=
  mkConfig (listen_host c) (listen_port c) (backlog c) (backend c) (thread_pool_size c)
    (job_queue_capacity c) (max_header_bytes c) (max_body_bytes c) (io_chunk_bytes c)
    (desired_fd_limit c) (event_loops c) (poll_timeout_ms c) (async_resolve c)
    (resolver_threads c) (dns_cache_ttl_s c) v (cache_enabled c) (cache_max_entries c)
    (cache_max_bytes c) (cache_max_entry_bytes c) (log_level c).
Definition set_cache_enabled (v : bool) (c : Config) : Config :=
  mkConfig (listen_host c) (listen_port c) (backlog c) (backend c) (thread_pool_size c)
    (job_queue_capacity c) (max_header_bytes c) (max_body_bytes c) (io_chunk_bytes c)
    (desired_fd_limit c) (event_loops c) (poll_timeout_ms c) (async_resolve c)
    (resolver_threads c) (dns_cache_ttl_s c) (resolve_delay_ms c) v (cache_max_entries c)
    (cache_max_bytes c) (cache_max_entry_bytes c) (log_level c).
Definition set_cache_max_entries (v : Z) (c : Config) : Config :=
  mkConfig (listen_host c) (listen_port c) (backlog c) (backend c) (thread_pool_size c)
    (job_queue_capacity c) (max_header_bytes c) (max_body_bytes c) (io_chunk_bytes c)
    (desired_fd_limit c) (event_loops c) (poll_timeout_ms c) (async_resolve c)
    (resolver_threads c) (dns_cache_ttl_s c) (resolve_delay_ms c) (cache_enabled c) v
    (cache_max_bytes c) (cache_max_entry_bytes c) (log_level c).
Definition set_cache_max_bytes (v : Z) (c : Config) : Config :=
  mkConfig (listen_host c) (listen_port c) (backlog c) (backend c) (thread_pool_size c)
    (job_queue_capacity c) (max_header_bytes c) (max_body_bytes c) (io_chunk_bytes c)
    (desired_fd_limit c) (event_loops c) (poll_timeout_ms c) (async_resolve c)
    (resolver_threads c) (dns_cache_ttl_s c) (resolve_delay_ms c) (cache_enabled c)
    (cache_max_entries c) v (cache_max_entry_bytes c) (log_level c).
Definition set_cache_max_entry_bytes (v : Z) (c : Config) : Config :=
  mkConfig (listen_host c) (listen_port c) (backlog c) (backend c) (thread_pool_size c)
    (job_queue_capacity c) (max_header_bytes c) (max_body_bytes c) (io_chunk_bytes c)
    (desired_fd_limit c) (event_loops c) (poll_timeout_ms c) (async_resolve c)
    (resolver_threads c) (dns_cache_ttl_s c) (resolve_delay_ms c) (cache_enabled c)
    (cache_max_entries c) (cache_max_bytes c) v (log_level c).
Definition set_log_level (v : Z) (c : Config) : Config :=
  mkConfig (listen_host c) (listen_port c) (backlog c) (backend c) (thread_pool_size c)
    (job_queue_capacity c) (max_header_bytes c) (max_body_bytes c) (io_chunk_bytes c)
    (desired_fd_limit c) (event_loops c) (poll_timeout_ms c) (async_resolve c)
    (resolver_threads c) (dns_cache_ttl_s c) (resolve_delay_ms c) (cache_enabled c)
    (cache_max_entries c) (cache_max_bytes c) (cache_max_entry_bytes c) v.

(** ** Backends by name *)

Definition parse_backend (name : str) : option BackendKind :=
  if bool_decide (name = lit "thread_per_conn") then Some ThreadPerConn
  else if bool_decide (name = lit "thread_pool") then Some ThreadPool
  else if bool_decide (name = lit "event_loop") then Some EventLoop
  else None.

Definition backend_name (kind : BackendKind) : str :=
  match kind with
  | ThreadPerConn => lit "thread_per_conn"
  | ThreadPool => lit "thread_pool"
  | EventLoop => lit "event_loop"
  end.

(** ** The file reader *)

(** [std::getline] until it fails: the text between newlines; a final newline
starts no further line. *)
Fixpoint lines_of (s : str) : list str :=
  match s with
  | [] => []
  | c :: s' =>
      if bool_decide (c = LF) then [] :: lines_of s'
      else match lines_of s' with
           | [] => [[c]]
           | l :: ls => (c :: l) :: ls
           end
  end.

Definition conf_blanks : str := [" "%char; TAB; CR].
Definition conf_trim (s : str) : str := trim_set conf_blanks s.

(** [if (size_t hash = line.find('#'); ...) line.erase(hash)]. *)
Definition strip_comment (line : str) : str :=
  match find_char "#" line with
  | Some hash => take hash line
  | None => line
  end.

(** The [if]/[else if] chain over the key; [None] is "unknown key". *)
Definition set_key (key val : str) (c : Config) : option Config :=
  if bool_decide (key = lit "listen_host") then Some (set_listen_host val c)
  else if bool_decide (key = lit "listen_port") then Some (set_listen_port (atoi val) c)
  else if bool_decide (key = lit "backlog") then Some (set_backlog (atoi val) c)
  else if bool_decide (key = lit "max_header_bytes") then Some (set_max_header_bytes (strtoul val) c)
  else if bool_decide (key = lit "max_body_bytes") then Some (set_max_body_bytes (strtoul val) c)
  else if bool_decide (key = lit "io_chunk_bytes") then Some (set_io_chunk_bytes (strtoul val) c)
  else if bool_decide (key = lit "desired_fd_limit") then Some (set_desired_fd_limit (strtol val) c)
  else if bool_decide (key = lit "event_loops") then Some (set_event_loops (strtoul val) c)
  else if bool_decide (key = lit "poll_timeout_ms") then Some (set_poll_timeout_ms (atoi val) c)
  else if bool_decide (key = lit "async_resolve") then Some (set_async_resolve (negb (atoi val =? 0)) c)
  else if bool_decide (key = lit "resolver_threads") then Some (set_resolver_threads (strtoul val) c)
  else if bool_decide (key = lit "dns_cache_ttl_s") then Some (set_dns_cache_ttl_s (atoi val) c)
  else if bool_decide (key = lit "resolve_delay_ms") then Some (set_resolve_delay_ms (atoi val) c)
  else if bool_decide (key = lit "thread_pool_size") then Some (set_thread_pool_size (strtoul val) c)
  else if bool_decide (key = lit "job_queue_capacity") then Some (set_job_queue_capacity (strtoul val) c)
  else if bool_decide (key = lit "cache_enabled") then Some (set_cache_enabled (negb (atoi val =? 0)) c)
  else if bool_decide (key = lit "cache_max_entries") then Some (set_cache_max_entries (strtoul val) c)
  else if bool_decide (key = lit "cache_max_bytes") then Some (set_cache_max_bytes (strtoul val) c)
  else if bool_decide (key = lit "cache_max_entry_bytes") then Some (set_cache_max_entry_bytes (strtoul val) c)
  else if bool_decide (key = lit "log_level") then Some (set_log_level (atoi val) c)
  else None.

(** One iteration of the [while]: the new configuration, or the message the
source puts in [err] before returning false. *)
Definition load_line (lineno : Z) (line : str) (c : Config) : Config + str :=
  let line := strip_comment line in
  match find_char "=" line with
  | None =>
      if bool_decide (find_first_not_of conf_blanks line = None) then inl c
      else inr (lit "line " ++ to_string lineno ++ lit ": expected key = value")
  | Some eq =>
      let key := conf_trim (substr line 0 eq) in
      let val := conf_trim (substr_from line (eq + 1)) in
      if bool_decide (key = []) then inl c
      else if bool_decide (key = lit "backend") then
        match parse_backend val with
        | Some b => inl (set_backend b c)
        | None => inr (lit "line " ++ to_string lineno ++ lit ": unknown backend '" ++ val ++ lit "'")
        end
      else
        match set_key key val c with
        | Some c' => inl c'
        | None => inr (lit "line " ++ to_string lineno ++ lit ": unknown key '" ++ key ++ lit "'")
        end
  end.

(** The loop: the configuration as far as it was read, and the error if any
line was refused. *)
Fixpoint load_lines (lineno : Z) (ls : list str) (c : Config) : Config * option str :=
  match ls with
  | [] => (c, None)
  | l :: ls' =>
      match load_line (lineno + 1) l c with
      | inl c' => load_lines (lineno + 1) ls' c'
      | inr err => (c, Some err)
      end
  end.

Section files.
Context (open_file : str → option str).

Definition load_config (path_ : str) (c : Config) : Config * option str :=
  match open_file path_ with
  | None => (c, Some (lit "cannot open config: " ++ path_))
  | Some text => load_lines 0 (lines_of text) c
  end.
End files.

(** ** Reading back a written configuration *)

(** The file a tool would write for a configuration: one `key = value` line per
field, in the order of the struct. *)
Definition print_bool (b : bool) : str := if b then lit "1" else lit "0".

Definition config_pairs (c : Config) : list (str * str) := [
  (lit "listen_host", listen_host c);
  (lit "listen_port", to_string (listen_port c));
  (lit "backlog", to_string (backlog c));
  (lit "backend", backend_name (backend c));
  (lit "thread_pool_size", to_string (thread_pool_size c));
  (lit "job_queue_capacity", to_string (job_queue_capacity c));
  (lit "max_header_bytes", to_string (max_header_bytes c));
  (lit "max_body_bytes", to_string (max_body_bytes c));
  (lit "io_chunk_bytes", to_string (io_chunk_bytes c));
  (lit "desired_fd_limit", to_string (desired_fd_limit c));
  (lit "event_loops", to_string (event_loops c));
  (lit "poll_timeout_ms", to_string (poll_timeout_ms c));
  (lit "async_resolve", print_bool (async_resolve c));
  (lit "resolver_threads", to_string (resolver_threads c));
  (lit "dns_cache_ttl_s", to_string (dns_cache_ttl_s c));
  (lit "resolve_delay_ms", to_string (resolve_delay_ms c));
  (lit "cache_enabled", print_bool (cache_enabled c));
  (lit "cache_max_entries", to_string (cache_max_entries c));
  (lit "cache_max_bytes", to_string (cache_max_bytes c));
  (lit "cache_max_entry_bytes", to_string (cache_max_entry_bytes c));
  (lit "log_level", to_string (log_level c))
].

Definition print_pair (kv : str * str) : str := kv.1 ++ lit " = " ++ kv.2.
Definition print_config (c : Config) : str :=
  concat ((λ kv, print_pair kv ++ [LF]) <$> config_pairs c).

(** What [load_line] does with a key and a value once they are separated. *)
Definition apply_pair (c : Config) (kv : str * str) : option Config :=
  if bool_decide (kv.1 = lit "backend")
  then (λ b, set_backend b c) <$> parse_backend kv.2
  else set_key kv.1 kv.2 c.

Record pair_wf (kv : str * str) : Prop := {
  pair_key_ne : kv.1 ≠ [];
  pair_key_trim : trimmed conf_blanks kv.1;
  pair_key_eq : "="%char ∉ kv.1;
  pair_val_trim : trimmed conf_blanks kv.2;
  pair_no_hash : "#"%char ∉ print_pair kv;
  pair_no_lf : LF ∉ print_pair kv
}.

Lemma lines_of_lf l s : LF ∉ l → lines_of (l ++ LF :: s) = l :: lines_of s.
Proof.
  induction l as [|c l IH]; intros Hl; [done|].
  apply not_elem_of_cons in Hl as [Hc Hl]. cbn [app lines_of].
  by rewrite bool_decide_false, IH by congruence.
Qed.

Lemma lines_of_pairs kvs :
  Forall pair_wf kvs → lines_of (concat ((λ kv, print_pair kv ++ [LF]) <$> kvs)) = print_pair <$> kvs.
Proof.
  induction 1 as [|kv kvs [] _ IH]; [done|]. cbn [fmap list_fmap concat].
  rewrite <-(assoc_L (++)). change ([LF] ++ ?x) with (LF :: x). by rewrite lines_of_lf, IH.
Qed.

Lemma load_print_pair n c kv c' :
  pair_wf kv → apply_pair c kv = Some c' → load_line n (print_pair kv) c = inl c'.
Proof.
  destruct kv as [k v]. intros [Hne Hkt Hke Hvt Hh _] Ha. cbn [fst snd] in *.
  unfold load_line, strip_comment. rewrite (proj2 (find_char_None _ _) Hh).
  unfold print_pair. cbn [fst snd]. change (lit " = " ++ v) with ([" "%char] ++ "="%char :: " "%char :: v).
  rewrite (assoc_L (++)), find_char_hit by (rewrite elem_of_app, list_elem_of_singleton; naive_solver).
  unfold substr, substr_from. rewrite drop_0, take_app_length, drop_app_add.
  change (drop 1 ("="%char :: " "%char :: v)) with (" "%char :: v).
  unfold conf_trim. rewrite (trim_set_cons _ " "%char v), (trim_set_id _ v) by (done || by left).
  assert (trim_set conf_blanks (k ++ [" "%char]) = k) as ->.
  { rewrite <-(trim_set_middle conf_blanks [] k [" "%char]) at 2; [done..| |done]. by repeat constructor. }
  rewrite bool_decide_false by done. unfold apply_pair in Ha. cbn [fst snd] in Ha.
  case_bool_decide; [destruct (parse_backend v)|destruct (set_key k v c)]; by simplify_eq/=.
Qed.

Lemma load_print_pairs n kvs c c' :
  Forall pair_wf kvs → foldl (λ oc kv, oc ≫= λ c, apply_pair c kv) (Some c) kvs = Some c' →
  load_lines n (print_pair <$> kvs) c = (c', None).
Proof.
  intros Hkvs; revert n c; induction Hkvs as [|kv kvs Hkv _ IH]; intros n c; cbn [foldl].
  - by intros [= ->].
  - cbn [mbind option_bind]. destruct (apply_pair c kv) as [c1|] eqn:E; intros H.
    + cbn [fmap list_fmap load_lines]. rewrite (load_print_pair _ _ _ c1) by done. by apply IH.
    + exfalso. clear -H. induction kvs as [|x kvs IH]; [done|]. by apply IH.
Qed.

Lemma strtol_to_string n : 0 ≤ n ≤ LONG_MAX → strtol (to_string n) = n.
Proof.
  intros Hn. destruct (to_string_spec n) as [Hd Hv]; [lia|].
  unfold strtol. rewrite strto_parts_digits, Hv by done. unfold LONG_MIN, LONG_MAX in *. lia.
Qed.

Lemma atoi_to_string n : 0 ≤ n < 2 ^ 31 → atoi (to_string n) = n.
Proof.
  intros Hn. unfold atoi. rewrite strtol_to_string by (unfold LONG_MAX; lia).
  unfold to_int32. rewrite Z.mod_small by lia. lia.
Qed.

(** The values the fields' C++ types can hold, and a host the line syntax can
carry. *)
Record config_wf (c : Config) : Prop := {
  wf_host : trimmed conf_blanks (listen_host c) ∧ "#"%char ∉ listen_host c ∧ LF ∉ listen_host c;
  wf_ints : Forall (λ n, 0 ≤ n < 2 ^ 31)
    [listen_port c; backlog c; poll_timeout_ms c; dns_cache_ttl_s c; resolve_delay_ms c; log_level c];
  wf_sizes : Forall (λ n, 0 ≤ n ≤ ULONG_MAX)
    [thread_pool_size c; job_queue_capacity c; max_header_bytes c; max_body_bytes c; io_chunk_bytes c;
     event_loops c; resolver_threads c; cache_max_entries c; cache_max_bytes c; cache_max_entry_bytes c];
  wf_limit : 0 ≤ desired_fd_limit c ≤ LONG_MAX
}.

(** A value without white space, '#' or newline makes a well-formed line. *)
Definition plain_val (v : str) : Prop := Forall (λ c, c ∉ [" "%char; TAB; CR; LF; "#"%char]) v.

Lemma plain_pair_wf k v :
  k ≠ [] → plain_val k → "="%char ∉ k → plain_val v → pair_wf (k, v).
Proof.
  unfold plain_val. rewrite !Forall_forall. intros Hne Hk Heq Hv.
  assert (∀ s, (∀ x, x ∈ s → x ∉ [" "%char; TAB; CR; LF; "#"%char]) → trimmed conf_blanks s) as Ht.
  { intros s Hs. split; intros x Hx Hin; (eapply (Hs x);
      [first [by apply head_Some_elem_of|by apply last_Some_elem_of]|unfold conf_blanks in Hin; set_solver]). }
  constructor; cbn [fst snd]; auto.
  all: unfold print_pair; cbn [fst snd]; rewrite !elem_of_app; intros [Hin|[Hin|Hin]];
    [apply Hk in Hin; set_solver|refute_closed Hin|apply Hv in Hin; set_solver].
Qed.

Lemma digits_plain ds : Forall (λ c, isdigit c = true) ds → plain_val ds.
Proof.
  intros Hds. eapply Forall_impl; [exact Hds|]. intros c Hc Hin.
  repeat (apply elem_of_cons in Hin as [->|Hin]; [done|]). by apply elem_of_nil in Hin.
Qed.

Lemma number_pair_wf k n :
  k ≠ [] → plain_val k → "="%char ∉ k → 0 ≤ n → pair_wf (k, to_string n).
Proof. intros. apply plain_pair_wf; [done..|]. by apply digits_plain, to_string_spec. Qed.

Lemma config_pairs_wf c : config_wf c → Forall pair_wf (config_pairs c).
Proof.
  intros [(Ht & Hh & Hl) Hi Hs Hlim]. rewrite !Forall_cons in Hi; rewrite !Forall_cons in Hs.
  unfold config_pairs. apply Forall_cons_2.
  { constructor; cbn [fst snd]; [discriminate|by split; intros x [= <-]; decide_closed|decide_closed|assumption| |];
      unfold print_pair; cbn [fst snd]; rewrite !elem_of_app; intros [Hin|[Hin|Hin]];
      (contradiction || refute_closed Hin). }
  repeat apply Forall_cons_2; [..|done];
    first [apply number_pair_wf; [done|unfold plain_val; decide_closed|decide_closed|lia]
          |apply plain_pair_wf; [done|unfold plain_val; decide_closed|decide_closed|]].
  - destruct (backend c); unfold plain_val; decide_closed.
  - destruct (async_resolve c); unfold plain_val; decide_closed.
  - destruct (cache_enabled c); unfold plain_val; decide_closed.
Qed.

Lemma atoi_print_bool b : negb (atoi (print_bool b) =? 0) = b.
Proof. by destruct b. Qed.

Lemma parse_backend_name b : parse_backend (backend_name b) = Some b.
Proof. by destruct b. Qed.

(** Reading the written pairs assigns every field. *)
Lemma apply_config_pairs c c0 :
  config_wf c →
  foldl (λ oc kv, oc ≫= λ c, apply_pair c kv) (Some c0) (config_pairs c) = Some c.
Proof.
  intros [_ Hi Hs Hlim]. rewrite !Forall_cons in Hi; rewrite !Forall_cons in Hs.
  transitivity (parse_backend (backend_name (backend c)) ≫= λ b, Some (mkConfig
    (listen_host c) (atoi (to_string (listen_port c))) (atoi (to_string (backlog c))) b
    (strtoul (to_string (thread_pool_size c))) (strtoul (to_string (job_queue_capacity c)))
    (strtoul (to_string (max_header_bytes c))) (strtoul (to_string (max_body_bytes c)))
    (strtoul (to_string (io_chunk_bytes c))) (strtol (to_string (desired_fd_limit c)))
    (strtoul (to_string (event_loops c))) (atoi (to_string (poll_timeout_ms c)))
    (negb (atoi (print_bool (async_resolve c)) =? 0)) (strtoul (to_string (resolver_threads c)))
    (atoi (to_string (dns_cache_ttl_s c))) (atoi (to_string (resolve_delay_ms c)))
    (negb (atoi (print_bool (cache_enabled c)) =? 0)) (strtoul (to_string (cache_max_entries c)))
    (strtoul (to_string (cache_max_bytes c))) (strtoul (to_string (cache_max_entry_bytes c)))
    (atoi (to_string (log_level c))))).
  - unfold config_pairs. destruct (backend c); reflexivity.
  - rewrite parse_backend_name, !atoi_print_bool, !atoi_to_string, !strtoul_to_string,
      strtol_to_string by lia. by destruct c.
Qed.



(** ** Refused lines *)

Definition known_keys : list str := fst <$> config_pairs Config_default.

Lemma set_key_unknown k v c : k ∉ known_keys → set_key k v c = None.
Proof.
  intros Hk. unfold set_key.
  repeat (case_bool_decide as Heq; [subst k; destruct Hk; decide_closed|clear Heq]).
  reflexivity.
Qed.

Lemma load_lines_app n pre post c c1 :
  load_lines n pre c = (c1, None) →
  load_lines n (pre ++ post) c = load_lines (n + zlen pre) post c1.
Proof.
  revert n c; induction pre as [|l pre IH]; intros n c; unfold zlen in *.
  - intros [= ->]. simpl. by rewrite Z.add_0_r.
  - cbn [app load_lines length]. destruct (load_line (n + 1) l c); [|done].
    intros H. rewrite (IH _ _ H). f_equal. lia.
Qed.

(** A key the program does not know is never ignored: whatever valid lines
come before it and whatever follows, loading stops at that line and the error
names its line number and the key, with the earlier lines applied. *)
Theorem unknown_key_refused pre post k v c c1 :
  load_lines 0 pre c = (c1, None) →
  "#"%char ∉ k ++ "="%char :: v → "="%char ∉ k →
  conf_trim k ≠ [] → conf_trim k ∉ known_keys →
  load_lines 0 (pre ++ (k ++ "="%char :: v) :: post) c =
    (c1, Some (lit "line " ++ to_string (zlen pre + 1) ++ lit ": unknown key '" ++ conf_trim k ++ lit "'")).
Proof.
  intros Hpre Hh Heq Hne Hk. rewrite (load_lines_app _ _ _ _ _ Hpre). cbn [load_lines].
  unfold load_line, strip_comment. rewrite (proj2 (find_char_None _ _) Hh), find_char_hit by done.
  unfold substr. rewrite drop_0, take_app_length, bool_decide_false by done.
  rewrite bool_decide_false, set_key_unknown; [done|done|].
  intros Hb. apply Hk. rewrite Hb. decide_closed.
Qed.

Lemma unknown_key_refused_witness :
  load_lines 0 [lit "backlog = 7"; lit "thread_pool_sise = 8"; lit "log_level = 0"] Config_default =
    (set_backlog 7 Config_default, Some (lit "line 2: unknown key 'thread_pool_sise'")).
Proof.
  apply (unknown_key_refused [lit "backlog = 7"] [lit "log_level = 0"] (lit "thread_pool_sise ") (lit " 8"));
    [reflexivity|decide_closed|decide_closed|discriminate|decide_closed].
Defined.
