(* ===== verification/Cache.v ===== *)
(** * The response cache ([cache.hpp], [cache.cpp])

[LruCache] keeps the two structures of [LruCacheImpl] apart, as the source
does: [order_] is the [std::list], whose nodes carry an identity (what a
[std::list::iterator] points to), and [index_] the [std::unordered_map] from
key to iterator.  [splice] moves a node without changing its identity.  The
byte counter is a [size_t], the hit counters [uint64_t]: they wrap.

[Lru] is the abstract cache: entries, most recent first.  [refines] relates
the two, and every operation is shown to implement its abstract version.  The
virtual interface a [Connection] sees is the class [ResponseCache] of
[CacheSpec.v]. *)
From S2P Require Import Prelude CppString Http Config.

(** ** Data *)

Inductive LockKind := StdMutex | NullMutex.

Record Entry := mkEntry { e_key : str; e_response : str }.

Record LruCache := mkLru {
  lock_policy : LockKind;
  order_ : list (nat * Entry);
  index_ : gmap str nat;
  max_entries_ : Z;
  max_bytes_ : Z;
  bytes_ : Z;
  hits_ : Z;
  misses_ : Z;
  next_node : nat   (* the identity the next list node will get *)
}.

Definition LruCacheImpl (l : LockKind) (max_entries max_bytes : Z) : LruCache :=
  mkLru l [] ∅ max_entries max_bytes 0 0 0 0.

Definition set_list (o : list (nat * Entry)) (i : gmap str nat) (b : Z) (c : LruCache) : LruCache :=
  mkLru (lock_policy c) o i (max_entries_ c) (max_bytes_ c) b (hits_ c) (misses_ c) (next_node c).
Definition count_hit (c : LruCache) : LruCache :=
  mkLru (lock_policy c) (order_ c) (index_ c) (max_entries_ c) (max_bytes_ c) (bytes_ c)
    (wrap64 (hits_ c + 1)) (misses_ c) (next_node c).
Definition count_miss (c : LruCache) : LruCache :=
  mkLru (lock_policy c) (order_ c) (index_ c) (max_entries_ c) (max_bytes_ c) (bytes_ c)
    (hits_ c) (wrap64 (misses_ c + 1)) (next_node c).
Definition alloc_node (c : LruCache) : LruCache :=
  mkLru (lock_policy c) (order_ c) (index_ c) (max_entries_ c) (max_bytes_ c) (bytes_ c)
    (hits_ c) (misses_ c) (S (next_node c)).

(** ** [std::list] through iterators *)

(** The node an iterator designates, taken out of the list; [None] would be a
dangling iterator. *)
Fixpoint pick (it : nat) (o : list (nat * Entry)) : option (Entry * list (nat * Entry)) :=
  match o with
  | [] => None
  | (n, e) :: o' =>
      if bool_decide (n = it) then Some (e, o')
      else (λ p, (p.1, (n, e) :: p.2)) <$> pick it o'
  end.

(** [order_.splice(order_.begin(), order_, it)]. *)
Definition splice_front (it : nat) (o : list (nat * Entry)) : list (nat * Entry) :=
  match pick it o with
  | Some (e, o') => (it, e) :: o'
  | None => o
  end.

(** [it->response = response]. *)
Definition assign_response (it : nat) (v : str) (o : list (nat * Entry)) : list (nat * Entry) :=
  (λ n, if bool_decide (n.1 = it) then (n.1, mkEntry (e_key n.2) v) else n) <$> o.

(** ** Operations *)

Definition get (key : str) (c : LruCache) : option str * LruCache :=
  match index_ c !! key with
  | None => (None, count_miss c)
  | Some it =>
      let o := splice_front it (order_ c) in
      match pick it o with
      | Some (e, _) => (Some (e_response e), count_hit (set_list o (index_ c) (bytes_ c) c))
      | None => (None, c)   (* dangling iterator: excluded by [refines] *)
      end
  end.

(** The condition of the eviction loop. *)
Definition over_limits (c : LruCache) : bool :=
  (negb (max_entries_ c =? 0) && (max_entries_ c <? Z.of_nat (size (index_ c)))) ||
  (negb (max_bytes_ c =? 0) && (max_bytes_ c <? bytes_ c)).

(** The eviction loop; one node leaves the list per iteration, so the length of
the list is enough fuel. *)
Fixpoint evict (fuel : nat) (c : LruCache) : LruCache :=
  match fuel with
  | O => c
  | S fuel' =>
      if over_limits c then
        match last (order_ c) with
        | None => c
        | Some (_, victim) =>
            evict fuel'
              (set_list (take (length (order_ c) - 1) (order_ c))
                 (delete (e_key victim) (index_ c))
                 (wrap64 (bytes_ c - zlen (e_response victim))) c)
        end
      else c
  end.

Definition put (key response : str) (c : LruCache) : LruCache :=
  match index_ c !! key with
  | Some it =>
      match pick it (order_ c) with
      | Some (e, _) =>
          let b := wrap64 (bytes_ c - zlen (e_response e)) in
          let o := assign_response it response (order_ c) in
          let b := wrap64 (b + zlen response) in
          set_list (splice_front it o) (index_ c) b c
      | None => c   (* dangling iterator: excluded by [refines] *)
      end
  | None =>
      let o := (next_node c, mkEntry key response) :: order_ c in
      let c := set_list o (<[key := next_node c]> (index_ c)) (wrap64 (bytes_ c + zlen response))
                 (alloc_node c) in
      evict (length o) c
  end.

Definition hits (c : LruCache) : Z := hits_ c.
Definition misses (c : LruCache) : Z := misses_ c.
Definition entries (c : LruCache) : Z := Z.of_nat (size (index_ c)).
Definition bytes (c : LruCache) : Z := bytes_ c.
Definition locked (c : LruCache) : bool :=
  match lock_policy c with NullMutex => false | StdMutex => true end.

Definition make_cache (cfg : Config) : LruCache :=
  match backend cfg with
  | EventLoop => LruCacheImpl NullMutex (cache_max_entries cfg) (cache_max_bytes cfg)
  | _ => LruCacheImpl StdMutex (cache_max_entries cfg) (cache_max_bytes cfg)
  end.

Definition cache_key (method_ host_ port_ path_ : str) : str :=
  method_ ++ lit " " ++ host_ ++ lit ":" ++ port_ ++ path_.

(** ** The abstract cache *)

(** Entries, most recent first. *)
Abbreviation Lru := (list (str * str)).

Definition total (l : Lru) : Z := foldr (λ kv n, zlen kv.2 + n) 0 l.

Definition within (me mb : Z) (l : Lru) : bool :=
  negb ((negb (me =? 0) && (me <? zlen l)) || (negb (mb =? 0) && (mb <? total l))).

Definition lru_lookup (k : str) (l : Lru) : option str :=
  (list_to_map l : gmap str str) !! k.
Definition lru_remove (k : str) (l : Lru) : Lru := filter (λ kv, kv.1 ≠ k) l.

(** Drop from the old end until the limits hold. *)
Fixpoint lru_trim (me mb : Z) (n : nat) (l : Lru) : Lru :=
  if within me mb (take n l) then take n l
  else match n with O => [] | S n' => lru_trim me mb n' l end.

Definition lru_get (k : str) (l : Lru) : option str * Lru :=
  match lru_lookup k l with
  | None => (None, l)
  | Some v => (Some v, (k, v) :: lru_remove k l)
  end.

Definition lru_put (me mb : Z) (k v : str) (l : Lru) : Lru :=
  match lru_lookup k l with
  | Some _ => (k, v) :: lru_remove k l
  | None => lru_trim me mb (S (length l)) ((k, v) :: l)
  end.

(** ** Refinement *)

Definition view (o : list (nat * Entry)) : Lru := (λ n, (e_key n.2, e_response n.2)) <$> o.
Definition links (o : list (nat * Entry)) : list (str * nat) := (λ n, (e_key n.2, n.1)) <$> o.

(** The list and the map stay in step: the map holds exactly the keys of the
list, each with the identity of its own node. *)
Record in_step (c : LruCache) (l : Lru) : Prop := {
  st_view : view (order_ c) = l;
  st_keys : NoDup (order_ c ≫= λ n, [e_key n.2]);
  st_nodes : NoDup (order_ c).*1;
  st_index : index_ c = list_to_map (links (order_ c));
  st_fresh : Forall (λ n, (n < next_node c)%nat) (order_ c).*1
}.

(** ... and the byte counter is exact, as long as the stored text fits the
address space. *)
Definition refines (c : LruCache) (l : Lru) : Prop :=
  in_step c l ∧ bytes_ c = total l ∧ total l < 2 ^ 64.

Lemma in_step_new l me mb : in_step (LruCacheImpl l me mb) [].
Proof. constructor; simpl; [done| | |done|]; constructor. Qed.

Lemma pick_hit it a e b : it ∉ a.*1 → pick it (a ++ (it, e) :: b) = Some (e, a ++ b).
Proof.
  induction a as [|[n x] a IH]; simpl.
  - by rewrite bool_decide_true.
  - intros [Hn Ha]%not_elem_of_cons. by rewrite bool_decide_false, IH.
Qed.

Lemma links_keys o : (links o).*1 = (o ≫= λ n, [e_key n.2]).
Proof. unfold links. induction o as [|n o IH]; [done|]. simpl. by f_equal. Qed.

Lemma view_keys o : (view o).*1 = (o ≫= λ n, [e_key n.2]).
Proof. unfold view. induction o as [|n o IH]; [done|]. simpl. by f_equal. Qed.

Lemma view_app o o' : view (o ++ o') = view o ++ view o'.
Proof. apply fmap_app. Qed.

Lemma total_app l l' : total (l ++ l') = total l + total l'.
Proof. unfold total. induction l as [|kv l IH]; simpl; [done|]. lia. Qed.

Lemma total_nonneg l : 0 ≤ total l.
Proof. unfold total, zlen. induction l as [|kv l IH]; simpl; [done|]. lia. Qed.

Section step.
Context {c : LruCache} {l : Lru} (Hc : in_step c l).

Lemma step_keys : NoDup l.*1.
Proof. rewrite <-(st_view _ _ Hc), view_keys. apply Hc. Qed.

Lemma step_links : NoDup (links (order_ c)).*1.
Proof. rewrite links_keys. apply Hc. Qed.

Lemma step_size : size (index_ c) = length l.
Proof.
  rewrite (st_index _ _ Hc), map_size_list_to_map by apply step_links.
  rewrite <-(st_view _ _ Hc). unfold links, view. by rewrite !length_fmap.
Qed.

Lemma step_miss k : index_ c !! k = None ↔ lru_lookup k l = None.
Proof.
  unfold lru_lookup. rewrite (st_index _ _ Hc), <-!not_elem_of_list_to_map.
  by rewrite links_keys, <-view_keys, (st_view _ _ Hc).
Qed.

(** A mapped key designates its own node of the list. *)
Lemma step_hit k it :
  index_ c !! k = Some it →
  ∃ a v b, order_ c = a ++ (it, mkEntry k v) :: b ∧ it ∉ (a ++ b).*1 ∧
    l = view a ++ (k, v) :: view b ∧ k ∉ (view a ++ view b).*1.
Proof.
  rewrite (st_index _ _ Hc). intros Hk.
  apply elem_of_list_to_map_2 in Hk.
  apply list_elem_of_fmap in Hk as ([n [k' v]] & [= -> ->] & Hin).
  apply list_elem_of_split in Hin as (a & b & Ho).
  exists a, v, b. split; [done|]. pose proof (st_nodes _ _ Hc) as Hn. pose proof step_keys as Hks.
  rewrite <-(st_view _ _ Hc), Ho in *. rewrite view_app in *. cbn [view fmap list_fmap fst snd e_key e_response] in *.
  rewrite !fmap_app in *. cbn [fmap list_fmap fst] in *.
  apply NoDup_app in Hn as (_ & Hn1 & [Hn2 _]%NoDup_cons).
  apply NoDup_app in Hks as (_ & Hk1 & [Hk2 _]%NoDup_cons).
  split; [|split; [done|]]; rewrite elem_of_app; intros [Hx|Hx]; try done.
  - by apply (Hn1 _ Hx); left.
  - by apply (Hk1 _ Hx); left.
Qed.
End step.

Lemma lru_remove_middle k v l1 l2 :
  k ∉ (l1 ++ l2).*1 → lru_remove k (l1 ++ (k, v) :: l2) = l1 ++ l2.
Proof.
  intros Hk. assert (∀ l : Lru, k ∉ l.*1 → lru_remove k l = l) as Hid.
  { induction l as [|[k' v'] l IH]; [done|]. cbn [fmap list_fmap fst]. intros [? ?]%not_elem_of_cons.
    unfold lru_remove in *. rewrite filter_cons_True by (simpl; congruence). f_equal. auto. }
  rewrite fmap_app, elem_of_app in Hk. unfold lru_remove in *.
  rewrite filter_app, filter_cons_False by (simpl; tauto). rewrite !Hid by tauto. done.
Qed.

Lemma lru_lookup_middle k v l1 l2 :
  k ∉ (l1 ++ l2).*1 → lru_lookup k (l1 ++ (k, v) :: l2) = Some v.
Proof.
  intros Hk. unfold lru_lookup. rewrite fmap_app, elem_of_app in Hk.
  induction l1 as [|[k' v'] l1 IH]; cbn [app list_to_map foldr uncurry fst snd].
  - by rewrite lookup_insert_eq.
  - cbn [fmap list_fmap fst] in Hk. rewrite elem_of_cons in Hk.
    rewrite lookup_insert_ne by naive_solver. apply IH. naive_solver.
Qed.

Lemma links_nodes o : (links o).*2 = o.*1.
Proof. unfold links. rewrite <-list_fmap_compose. done. Qed.

(** Reordering nodes, or replacing a response in its node, needs no change of the
map: the iterators stay valid. *)
Lemma in_step_links c c' l :
  in_step c l → links (order_ c') ≡ₚ links (order_ c) →
  index_ c' = index_ c → next_node c' = next_node c → in_step c' (view (order_ c')).
Proof.
  intros Hc Hp Hi Hn. constructor; [done|..].
  - rewrite <-links_keys, Hp. apply (step_links Hc).
  - rewrite <-links_nodes, Hp, links_nodes. apply Hc.
  - rewrite Hi, (st_index _ _ Hc). symmetry. apply list_to_map_proper; [|done].
    rewrite Hp. apply (step_links Hc).
  - rewrite Hn, <-links_nodes, Hp, links_nodes. apply Hc.
Qed.

Lemma links_front it k v w a b :
  links ((it, mkEntry k w) :: a ++ b) ≡ₚ links (a ++ (it, mkEntry k v) :: b).
Proof. unfold links. rewrite !fmap_cons, !fmap_app, fmap_cons. simpl. apply Permutation_middle. Qed.

Lemma assign_response_hit it v w k a b :
  it ∉ (a ++ b).*1 →
  assign_response it w (a ++ (it, mkEntry k v) :: b) = a ++ (it, mkEntry k w) :: b.
Proof.
  intros Hn. assert (∀ o, it ∉ o.*1 → assign_response it w o = o) as Hid.
  { induction o as [|[n e] o IH]; [done|]. rewrite fmap_cons. intros [? ?]%not_elem_of_cons.
    unfold assign_response in *. cbn [fmap list_fmap]. rewrite bool_decide_false, IH by (simpl in *; congruence).
    done. }
  rewrite fmap_app, elem_of_app in Hn. unfold assign_response in *. rewrite fmap_app, fmap_cons.
  rewrite !Hid by tauto. simpl. by rewrite bool_decide_true.
Qed.

(** *** [get] *)

Lemma get_step k c l :
  in_step c l →
  let '(r, c') := get k c in
  let '(r', l') := lru_get k l in
  r = r' ∧ in_step c' l' ∧ bytes_ c' = bytes_ c ∧ total l' = total l ∧
  max_entries_ c' = max_entries_ c ∧ max_bytes_ c' = max_bytes_ c.
Proof.
  intros Hc. unfold get, lru_get. destruct (index_ c !! k) as [it|] eqn:Hk.
  - destruct (step_hit Hc _ _ Hk) as (a & v & b & Ho & Hn & Hl & Hkn).
    rewrite Hl, lru_lookup_middle, lru_remove_middle by done.
    unfold splice_front. rewrite Ho, pick_hit by (rewrite fmap_app, elem_of_app in Hn; tauto).
    cbn [pick]. rewrite bool_decide_true by done. cbn [e_response].
    rewrite !total_app. simpl. rewrite total_app. split_and!; try done; [|lia].
    rewrite <-view_app. eapply (in_step_links c); [done| |done|done].
    rewrite Ho. apply (links_front it k v v).
  - rewrite (proj1 (step_miss Hc k) Hk). by destruct Hc.
Qed.

(** *** Eviction *)

Lemma evict_iteration c l k v b :
  in_step c (l ++ [(k, v)]) →
  ∃ it, last (order_ c) = Some (it, mkEntry k v) ∧
    in_step (set_list (take (length (order_ c) - 1) (order_ c)) (delete k (index_ c)) b c) l.
Proof.
  intros Hc. pose proof (st_view _ _ Hc) as Hv.
  destruct (order_ c) as [|[it e] o _] eqn:Ho using rev_ind; [by destruct l|].
  rewrite view_app in Hv. apply app_inj_tail in Hv as [Hv [= <- <-]].
  exists it. rewrite last_snoc. split; [by destruct e|].
  rewrite length_app, Nat.add_sub, take_app_length.
  destruct Hc as [_ Hk Hn Hi Hf]. rewrite Ho in *.
  rewrite bind_app in Hk. rewrite fmap_app in Hn, Hf.
  apply NoDup_app in Hk as (Hk & Hkd & _). apply NoDup_app in Hn as (Hn & _ & _).
  apply Forall_app in Hf as [Hf _].
  constructor; cbn [set_list order_ index_ next_node]; [done..| |done].
  assert (e_key e ∉ (links o).*1) as Hnew.
  { rewrite links_keys. intros Hin. apply (Hkd _ Hin). by left. }
  rewrite Hi. unfold links at 1. rewrite fmap_app. cbn [fmap list_fmap fst snd].
  rewrite list_to_map_snoc by done. rewrite delete_insert_id; [done|].
  by apply not_elem_of_list_to_map_1.
Qed.

(** Whatever the byte counter says, eviction keeps a prefix of the entries. *)
Lemma evict_step fuel c l : in_step c l → ∃ n, in_step (evict fuel c) (take n l).
Proof.
  revert c l; induction fuel as [|fuel IH]; intros c l Hc.
  - exists (length l). by rewrite take_ge.
  - simpl. destruct (over_limits c); [|exists (length l); by rewrite take_ge].
    destruct l as [|[k v] l _] using rev_ind.
    + destruct (last (order_ c)) as [x|] eqn:Hl; [|exists 0%nat; done].
      pose proof (st_view _ _ Hc) as Hv. apply fmap_nil_inv in Hv. by rewrite Hv in Hl.
    + destruct (evict_iteration c l k v (wrap64 (bytes_ c - zlen v)) Hc) as (it & -> & Hc').
      destruct (IH _ _ Hc') as [n Hn]. exists (min n (length l)).
      rewrite take_app_le, <-take_take, (take_ge l) by lia. exact Hn.
Qed.

Lemma over_limits_within c l :
  refines c l → over_limits c = negb (within (max_entries_ c) (max_bytes_ c) l).
Proof.
  intros (Hc & Hb & _). unfold over_limits, within. rewrite negb_involutive, Hb, (step_size Hc). done.
Qed.

Lemma wrap64_id n : 0 ≤ n < 2 ^ 64 → wrap64 n = n.
Proof. apply Z.mod_small. Qed.

Lemma lru_trim_S me mb n l :
  lru_trim me mb (S n) l =
    if within me mb (take (S n) l) then take (S n) l else lru_trim me mb n l.
Proof. done. Qed.

Lemma evict_refines fuel c l l' :
  refines c l → (length l ≤ fuel)%nat → l `prefix_of` l' →
  refines (evict fuel c) (lru_trim (max_entries_ c) (max_bytes_ c) (length l) l').
Proof.
  revert c l; induction fuel as [|fuel IH]; intros c l Hr Hf Hl'.
  - destruct l; [|simpl in Hf; lia]. simpl. rewrite take_0. by destruct (within _ _ _).
  - cbn [evict]. rewrite (over_limits_within _ _ Hr).
    assert (take (length l) l' = l) as Htake.
    { destruct Hl' as [t ->]. by rewrite take_app_length. }
    destruct l as [|[k v] l _] using rev_ind.
    + simpl in *. rewrite Htake. destruct Hr as [Hc ?].
      destruct (within _ _ []); simpl; [done|]. pose proof (st_view _ _ Hc) as Hv.
      apply fmap_nil_inv in Hv. rewrite Hv. done.
    + rewrite length_app, Nat.add_comm in Htake |- *. simpl plus in *. rewrite lru_trim_S, Htake.
      destruct (within _ _ _); [done|]. cbn [negb]. destruct Hr as (Hc & Hb & Hlt).
      rewrite total_app in Hb, Hlt. change (total [(k, v)]) with (zlen v + 0) in Hb, Hlt.
      pose proof (total_nonneg l). unfold zlen in Hb, Hlt.
      destruct (evict_iteration c l k v (wrap64 (bytes_ c - zlen v)) Hc) as (it & -> & Hc').
      apply (IH (set_list _ _ _ c)).
      * split; [exact Hc'|]. cbn [set_list bytes_ e_response]. unfold zlen.
        rewrite wrap64_id; lia.
      * rewrite length_app in Hf. simpl in Hf. lia.
      * destruct Hl' as [t ->]. exists ([(k, v)] ++ t). by rewrite (assoc_L (++)).
Qed.

(** *** [put] *)

Lemma put_fresh_step k v c l :
  in_step c l → index_ c !! k = None →
  in_step (set_list ((next_node c, mkEntry k v) :: order_ c) (<[k := next_node c]> (index_ c))
             (wrap64 (bytes_ c + zlen v)) (alloc_node c)) ((k, v) :: l).
Proof.
  intros Hc Hk. pose proof (proj1 (step_miss Hc k) Hk) as Hm.
  unfold lru_lookup in Hm. apply not_elem_of_list_to_map_2 in Hm. destruct Hc as [Hv Hks Hn Hi Hf].
  rewrite <-Hv, view_keys in Hm.
  constructor; cbn [set_list order_ index_ next_node alloc_node].
  - unfold view in *. cbn [fmap list_fmap]. by rewrite Hv.
  - rewrite bind_cons. by apply NoDup_cons.
  - cbn [fmap list_fmap]. apply NoDup_cons; split; [|done]. intros Hin.
    rewrite Forall_forall in Hf. apply Hf in Hin. simpl in Hin. lia.
  - by rewrite Hi.
  - cbn [fmap list_fmap]. apply Forall_cons; split; [simpl; lia|].
    eapply Forall_impl; [exact Hf|]. intros n Hn'. simpl in *. lia.
Qed.

Lemma put_update_step k v c l it :
  in_step c l → index_ c !! k = Some it →
  ∃ old, lru_lookup k l = Some old ∧ in_step (put k v c) ((k, v) :: lru_remove k l) ∧
    bytes_ (put k v c) = wrap64 (wrap64 (bytes_ c - zlen old) + zlen v) ∧
    total ((k, v) :: lru_remove k l) = total l - zlen old + zlen v ∧ zlen old ≤ total l.
Proof.
  intros Hc Hk. destruct (step_hit Hc _ _ Hk) as (a & old & b & Ho & Hn & Hl & Hkn).
  exists old. rewrite Hl, lru_lookup_middle, lru_remove_middle by done. split; [done|].
  unfold put. rewrite Hk, Ho, pick_hit by (rewrite fmap_app, elem_of_app in Hn; tauto).
  rewrite assign_response_hit by done. unfold splice_front.
  rewrite pick_hit by (rewrite fmap_app, elem_of_app in Hn; tauto).
  cbn [set_list bytes_ e_response]. split_and!.
  - rewrite <-view_app. eapply (in_step_links c); [done| |done|done].
    rewrite Ho. apply (links_front it k old v).
  - done.
  - change (total ((k, v) :: ?x)) with (zlen v + total x). rewrite !total_app.
    change (total ((k, old) :: ?x)) with (zlen old + total x). lia.
  - rewrite total_app. change (total ((k, old) :: ?x)) with (zlen old + total x).
    pose proof (total_nonneg (view a)). pose proof (total_nonneg (view b)). lia.
Qed.

Lemma put_step k v c l : in_step c l → ∃ l', in_step (put k v c) l' ∧
  (l' = (k, v) :: lru_remove k l ∨ ∃ n, l' = take n ((k, v) :: l) ∧ lru_lookup k l = None).
Proof.
  intros Hc. destruct (index_ c !! k) as [it|] eqn:Hk.
  - destruct (put_update_step k v c l it Hc Hk) as (old & _ & ? & _). eauto.
  - unfold put. rewrite Hk.
    destruct (evict_step (length ((next_node c, mkEntry k v) :: order_ c)) _ _
      (put_fresh_step k v c l Hc Hk)) as [n Hn].
    eexists; split; [exact Hn|]. right. exists n. split; [done|]. by apply (step_miss Hc).
Qed.
