(* ===== verification/CacheSpec.v ===== *)
(** * What the response cache guarantees

[LruCacheImpl] implements the abstract LRU cache on every sequence of
operations; the two structures stay in step; a fresh insertion respects both
bounds and evicts nothing more than needed; a stored response is found again
and no lookup ever returns a response stored under another key.  The class
[ResponseCache] states the part of this a [Connection] relies on. *)
From S2P Require Import Prelude CppString Http HttpSpec Config Cache.

(** ** Sequences of operations *)

(** Every thread's calls, in the order the lock serialises them. *)
Inductive CacheOp := OpGet (key : str) | OpPut (key response : str).

Definition run_op (op : CacheOp) (c : LruCache) : option (option str) * LruCache :=
  match op with
  | OpGet k => let '(r, c') := get k c in (Some r, c')
  | OpPut k v => (None, put k v c)
  end.

Fixpoint run_ops (ops : list CacheOp) (c : LruCache) : list (option (option str)) * LruCache :=
  match ops with
  | [] => ([], c)
  | op :: ops' =>
      let '(r, c1) := run_op op c in
      let '(rs, c2) := run_ops ops' c1 in (r :: rs, c2)
  end.

Definition spec_op (me mb : Z) (op : CacheOp) (l : Lru) : option (option str) * Lru :=
  match op with
  | OpGet k => let '(r, l') := lru_get k l in (Some r, l')
  | OpPut k v => (None, lru_put me mb k v l)
  end.

Fixpoint spec_ops (me mb : Z) (ops : list CacheOp) (l : Lru) : list (option (option str)) * Lru :=
  match ops with
  | [] => ([], l)
  | op :: ops' =>
      let '(r, l1) := spec_op me mb op l in
      let '(rs, l2) := spec_ops me mb ops' l1 in (r :: rs, l2)
  end.

(** The text the operations store, an upper bound on what the cache holds. *)
Definition op_bytes (op : CacheOp) : Z :=
  match op with OpGet _ => 0 | OpPut _ v => zlen v end.
Definition ops_bytes (ops : list CacheOp) : Z := foldr (λ op n, op_bytes op + n) 0 ops.

Lemma op_bytes_nonneg op : 0 ≤ op_bytes op.
Proof. destruct op; simpl; unfold zlen; lia. Qed.

Lemma ops_bytes_nonneg ops : 0 ≤ ops_bytes ops.
Proof. induction ops as [|op ops IH]; simpl; [done|]. pose proof (op_bytes_nonneg op). lia. Qed.

Lemma total_take n l : total (take n l) ≤ total l.
Proof.
  rewrite <-(take_drop n l) at 2. rewrite total_app. pose proof (total_nonneg (drop n l)). lia.
Qed.

Lemma lru_trim_take me mb n l : ∃ m, lru_trim me mb n l = take m l ∧ (m ≤ n)%nat.
Proof.
  induction n as [|n IH]; simpl.
  - exists 0%nat. rewrite take_0. by destruct (within _ _ _).
  - destruct (within _ _ _); [by eauto|]. destruct IH as (m & ? & ?). exists m. split; [done|lia].
Qed.

(** ** Refinement of one operation *)

Lemma limits_const_evict fuel c :
  max_entries_ (evict fuel c) = max_entries_ c ∧ max_bytes_ (evict fuel c) = max_bytes_ c.
Proof.
  revert c; induction fuel as [|fuel IH]; intros c; [done|]. simpl.
  destruct (over_limits c); [|done]. destruct (last (order_ c)) as [[? e]|]; [|done].
  apply (IH (set_list _ _ _ c)).
Qed.

Lemma limits_const_put k v c :
  max_entries_ (put k v c) = max_entries_ c ∧ max_bytes_ (put k v c) = max_bytes_ c.
Proof.
  unfold put. destruct (index_ c !! k) as [it|].
  - by destruct (pick it (order_ c)) as [[? ?]|].
  - apply (limits_const_evict _ (set_list _ _ _ (alloc_node c))).
Qed.

Lemma put_refines k v c l :
  refines c l → total l + zlen v < 2 ^ 64 →
  refines (put k v c) (lru_put (max_entries_ c) (max_bytes_ c) k v l).
Proof.
  intros Hr Hroom. pose proof Hr as (Hc & Hb & Hlt). pose proof (total_nonneg l) as H0.
  unfold lru_put. destruct (index_ c !! k) as [it|] eqn:Hk.
  - destruct (put_update_step k v c l it Hc Hk) as (old & -> & Hc' & Hb' & Ht & Ho).
    split; [done|]. rewrite Ht, Hb', Hb. unfold zlen in *.
    rewrite (wrap64_id (total l - _)), wrap64_id by lia. lia.
  - rewrite (proj1 (step_miss Hc k) Hk). unfold put. rewrite Hk.
    assert (refines (set_list ((next_node c, mkEntry k v) :: order_ c) (<[k := next_node c]> (index_ c))
      (wrap64 (bytes_ c + zlen v)) (alloc_node c)) ((k, v) :: l)) as Hr'.
    { split; [by apply put_fresh_step|]. cbn [set_list bytes_]. rewrite Hb.
      change (total ((k, v) :: l)) with (zlen v + total l). unfold zlen in *. rewrite wrap64_id; lia. }
    apply (evict_refines (length ((next_node c, mkEntry k v) :: order_ c)) _ _ ((k, v) :: l)) in Hr';
      [exact Hr'| |done].
    rewrite <-(st_view _ _ Hc). unfold view. simpl. by rewrite length_fmap.
Qed.

Lemma lru_put_total me mb k v l : NoDup l.*1 → total (lru_put me mb k v l) ≤ total l + zlen v.
Proof.
  intros Hnd. unfold lru_put. destruct (lru_lookup k l) as [old|] eqn:Hk.
  - change (total ((k, v) :: ?x)) with (zlen v + total x).
    enough (total (lru_remove k l) ≤ total l) by lia. clear. unfold lru_remove.
    induction l as [|kv l IH]; [done|]. rewrite filter_cons. change (total (kv :: l)) with (zlen kv.2 + total l).
    case_decide; [change (total (kv :: ?x)) with (zlen kv.2 + total x)|]; unfold zlen in *; lia.
  - destruct (lru_trim_take me mb (S (length l)) ((k, v) :: l)) as (m & -> & _).
    pose proof (total_take m ((k, v) :: l)). change (total ((k, v) :: l)) with (zlen v + total l) in *. lia.
Qed.

(** C3: The list-plus-map implementation is an LRU cache: on every sequence of
[get]s and [put]s, in any interleaving the lock admits, it gives the answers
of the abstract cache that keeps entries in recency order and evicts from the
old end, and ends in a state that represents it (map and list in step, byte
counter exact), as long as the stored text fits a [size_t]. *)
Theorem lru_refinement lock me mb ops :
  ops_bytes ops < 2 ^ 64 →
  (run_ops ops (LruCacheImpl lock me mb)).1 = (spec_ops me mb ops []).1 ∧
  refines (run_ops ops (LruCacheImpl lock me mb)).2 (spec_ops me mb ops []).2.
Proof.
  intros Hops.
  assert (∀ ops c l, refines c l → max_entries_ c = me → max_bytes_ c = mb →
    total l + ops_bytes ops < 2 ^ 64 →
    (run_ops ops c).1 = (spec_ops me mb ops l).1 ∧
    refines (run_ops ops c).2 (spec_ops me mb ops l).2) as Hgen.
  { clear. induction ops as [|op ops IH]; intros c l Hr Hme Hmb Hroom; [done|].
    simpl in Hroom. pose proof (op_bytes_nonneg op). pose proof (ops_bytes_nonneg ops).
    cbn [run_ops spec_ops].
    destruct (run_op op c) as [r c1] eqn:E1, (spec_op me mb op l) as [r' l1] eqn:E2.
    assert (r = r' ∧ refines c1 l1 ∧ max_entries_ c1 = me ∧ max_bytes_ c1 = mb ∧
      total l1 ≤ total l + op_bytes op) as (<- & Hr1 & Hme1 & Hmb1 & Ht).
    { destruct op as [k|k v]; simpl in *.
      - destruct Hr as (Hc & Hb & Hlt). pose proof (get_step k c l Hc) as Hg.
        destruct (get k c), (lru_get k l); simplify_eq/=. destruct Hg as (-> & ? & ? & ? & ? & ?).
        split_and!; try congruence; [|lia]. split; [done|]. split; congruence.
      - simplify_eq. destruct (limits_const_put k v c) as [-> ->].
        split_and!; [done|by apply put_refines; [|lia]|done..|].
        apply lru_put_total. destruct Hr as [Hc _]. apply (step_keys Hc). }
    destruct (IH c1 l1 Hr1 Hme1 Hmb1) as [H1 H2]; [lia|].
    destruct (run_ops ops c1), (spec_ops me mb ops l1); simpl in *. by split; [f_equal|]. }
  apply Hgen; [|done..]. split; [|done]. apply in_step_new.
Qed.

Lemma lru_refinement_witness :
  (run_ops [OpPut (lit "a") (lit "1"); OpPut (lit "b") (lit "2"); OpGet (lit "a");
            OpPut (lit "c") (lit "3"); OpGet (lit "b"); OpGet (lit "a")] (LruCacheImpl StdMutex 2 0)).1 =
  [None; None; Some (Some (lit "1")); None; Some None; Some (Some (lit "1"))].
Proof.
  destruct (lru_refinement StdMutex 2 0 [OpPut (lit "a") (lit "1"); OpPut (lit "b") (lit "2");
    OpGet (lit "a"); OpPut (lit "c") (lit "3"); OpGet (lit "b"); OpGet (lit "a")]) as [-> _];
    by vm_compute.
Defined.

(** ** Bounds *)

Lemma lru_trim_within me mb n l : 0 ≤ me → 0 ≤ mb → within me mb (lru_trim me mb n l) = true.
Proof.
  intros Hme Hmb. assert (within me mb [] = true) as H0.
  { unfold within, zlen, total. simpl. destruct me, mb; simpl; done || lia. }
  induction n as [|n IH]; cbn [lru_trim]; destruct (within me mb (take _ l)) eqn:E; auto.
Qed.

(** No longer prefix is within the limits: nothing is evicted needlessly. *)
Lemma lru_trim_longest me mb n l m :
  (m ≤ n)%nat → within me mb (take m l) = true → take m l `prefix_of` lru_trim me mb n l.
Proof.
  induction n as [|n IH]; simpl; intros Hm Hw.
  - assert (m = 0%nat) as -> by lia. rewrite Hw. done.
  - destruct (within me mb (take (S n) l)) eqn:E.
    + destruct (decide (m = S n)) as [->|]; [done|].
      exists (take (S n - m) (drop m l)). by rewrite take_take_drop, Nat.add_sub_assoc, Nat.add_comm, Nat.add_sub by lia.
    + destruct (decide (m = S n)) as [->|]; [congruence|]. apply IH; [lia|done].
Qed.

Lemma within_true me mb l :
  within me mb l = true ↔ (me ≠ 0 → zlen l ≤ me) ∧ (mb ≠ 0 → total l ≤ mb).
Proof.
  unfold within. rewrite negb_true_iff, orb_false_iff, !andb_false_iff, !negb_false_iff, !Z.eqb_eq, !Z.ltb_ge.
  destruct (decide (me = 0)), (decide (mb = 0)); naive_solver.
Qed.

(** Storing under a new key respects both limits: afterwards there are at
most max_entries entries and max_bytes bytes (where the limit is not 0), the
cache is a prefix of "new entry, then the old entries by recency", and every
longer prefix would break a limit, so only what has to go is evicted. *)
Lemma put_fresh_bounded k v c l :
  refines c l → total l + zlen v < 2 ^ 64 → 0 ≤ max_entries_ c → 0 ≤ max_bytes_ c →
  lru_lookup k l = None →
  ∃ l', refines (put k v c) l' ∧ l' `prefix_of` ((k, v) :: l) ∧
    (max_entries_ c ≠ 0 → entries (put k v c) ≤ max_entries_ c) ∧
    (max_bytes_ c ≠ 0 → bytes (put k v c) ≤ max_bytes_ c) ∧
    (∀ q, q `prefix_of` ((k, v) :: l) → within (max_entries_ c) (max_bytes_ c) q = true → q `prefix_of` l').
Proof.
  intros Hr Hroom Hme Hmb Hk. pose proof (put_refines k v c l Hr Hroom) as Hp.
  unfold lru_put in Hp. rewrite Hk in Hp.
  eexists; split; [exact Hp|]. destruct Hp as (Hc & Hb & _).
  pose proof (lru_trim_within _ _ (S (length l)) ((k, v) :: l) Hme Hmb) as [Hw1 Hw2]%within_true.
  split_and!.
  - destruct (lru_trim_take (max_entries_ c) (max_bytes_ c) (S (length l)) ((k, v) :: l)) as (m & -> & _).
    apply prefix_take.
  - unfold entries. rewrite (step_size Hc). exact Hw1.
  - unfold bytes. rewrite Hb. exact Hw2.
  - intros q Hq Hw. rewrite <-(take_app_length q []) in Hw |- *. rewrite (right_id_L [] (++)) in *.
    destruct Hq as [t Ht]. replace (take (length q) q) with (take (length q) ((k, v) :: l)) in *
      by (rewrite Ht, take_app_length, take_ge; done).
    apply lru_trim_longest; [|done]. apply (f_equal length) in Ht. rewrite length_app in Ht. simpl in Ht. lia.
Qed.


(** ** Looking up what was stored *)

Lemma get_lookup k c l : in_step c l → (get k c).1 = lru_lookup k l.
Proof.
  intros Hc. pose proof (get_step k c l Hc) as Hg. unfold lru_get in Hg.
  destruct (get k c), (lru_lookup k l); simpl; by destruct Hg.
Qed.

Lemma lru_lookup_remove_ne k k' l : k ≠ k' → lru_lookup k' (lru_remove k l) = lru_lookup k' l.
Proof.
  intros Hne. unfold lru_lookup, lru_remove. induction l as [|[k1 v1] l IH]; [done|].
  rewrite filter_cons. case_decide as Hd; simpl in Hd |- *.
  - destruct (decide (k1 = k')) as [->|]; [by rewrite !lookup_insert_eq|by rewrite !lookup_insert_ne].
  - subst k1. by rewrite lookup_insert_ne.
Qed.

Lemma lru_lookup_take k n l v : lru_lookup k (take n l) = Some v → lru_lookup k l = Some v.
Proof.
  unfold lru_lookup. revert n; induction l as [|[k1 v1] l IH]; intros [|n]; simpl; [done..|].
  destruct (decide (k1 = k)) as [->|]; [by rewrite !lookup_insert_eq|].
  rewrite !lookup_insert_ne by done. apply IH.
Qed.

(** A lookup after a store returns the stored response for its key, unless
the response alone exceeds the byte limit, and for any other key either the
response stored there before or, if that was evicted, nothing: never bytes
stored under a different key. *)
Theorem get_after_put k v c l :
  refines c l → total l + zlen v < 2 ^ 64 →
  (max_bytes_ c = 0 ∨ zlen v ≤ max_bytes_ c) → 0 ≤ max_entries_ c → 0 ≤ max_bytes_ c →
  (get k (put k v c)).1 = Some v ∧
  ∀ k', k' ≠ k → (get k' (put k v c)).1 = (get k' c).1 ∨ (get k' (put k v c)).1 = None.
Proof.
  intros Hr Hroom Hfit Hme Hmb. pose proof Hr as [Hc _].
  pose proof (put_refines k v c l Hr Hroom) as [Hp _].
  rewrite (get_lookup k _ _ Hp). unfold lru_put in *. destruct (lru_lookup k l) as [old|] eqn:Hk.
  - split; [unfold lru_lookup; simpl; by rewrite lookup_insert_eq|]. intros k' Hne. left.
    rewrite (get_lookup k' _ _ Hp), (get_lookup k' c l Hc). unfold lru_lookup; simpl.
    rewrite lookup_insert_ne by done. by apply lru_lookup_remove_ne.
  - assert (take 1 ((k, v) :: l) `prefix_of`
      lru_trim (max_entries_ c) (max_bytes_ c) (S (length l)) ((k, v) :: l)) as [t Ht].
    { apply lru_trim_longest; [lia|]. change (take 1 ((k, v) :: l)) with [(k, v)].
      apply within_true. change (total [(k, v)]) with (zlen v + 0). change (zlen [(k, v)]) with 1. lia. }
    split; [rewrite Ht; unfold lru_lookup; simpl; by rewrite lookup_insert_eq|].
    intros k' Hne. rewrite (get_lookup k' _ _ Hp), (get_lookup k' c l Hc).
    destruct (lru_lookup k' (lru_trim _ _ _ _)) as [w|] eqn:Hw; [left|by right].
    destruct (lru_trim_take (max_entries_ c) (max_bytes_ c) (S (length l)) ((k, v) :: l)) as (m & Hm & _).
    rewrite Hm in Hw. apply lru_lookup_take in Hw. unfold lru_lookup in *. simpl in Hw.
    by rewrite lookup_insert_ne in Hw.
Qed.

(** ** Keys *)

Definition request_key (r : Request) : str := cache_key (method r) (host r) (port r) (path r).

(** C33: The cache key identifies the request's target: two accepted requests
with the same key have the same method, host, port and path, so no client can
be served another resource, whatever bytes its URL contains. *)
Theorem cache_key_injective buf1 buf2 r1 r2 :
  parse_request buf1 Request_default = (Ok, r1) → parse_request buf2 Request_default = (Ok, r2) →
  request_key r1 = request_key r2 →
  method r1 = method r2 ∧ host r1 = host r2 ∧ port r1 = port r2 ∧ path r1 = path r2.
Proof.
  intros H1%parse_request_wf H2%parse_request_wf; [|done..]. unfold request_key, cache_key.
  assert (∀ r, parsed_wf r → " "%char ∉ method r) as Hm.
  { intros r Hr. destruct (known_method_cases _ (parsed_method r Hr)) as [->|[->| ->]]; decide_closed. }
  assert (∀ r, parsed_wf r → ∃ p, path r = "/"%char :: p) as Hp.
  { intros r Hr. destruct (parsed_path r Hr) as (_ & Hh & _). destruct (path r); simplify_eq/=; eauto. }
  assert (∀ r, parsed_wf r → "/"%char ∉ host r ++ ":"%char :: port r ∧ ":"%char ∉ port r) as Ha.
  { intros r Hr. destruct (parsed_host r Hr) as (_ & _ & Hs & _), (parsed_port r Hr) as [Hd _].
    split; [|by apply (digits_no_elem (port r) ":"%char)].
    rewrite elem_of_app, elem_of_cons. intros [?|[?|?]]; [done..|].
    by apply (digits_no_elem (port r) "/"%char). }
  destruct (Hp _ H1) as [p1 ->], (Hp _ H2) as [p2 ->], (Ha _ H1) as [Ha1 Hc1], (Ha _ H2) as [Ha2 Hc2].
  change (lit " " ++ ?x) with (" "%char :: x). change (lit ":" ++ ?x) with (":"%char :: x).
  intros [-> Hk]%split_first_inj; [|by apply Hm..].
  rewrite !app_comm_cons, !(assoc_L (++)) in Hk. apply split_first_inj in Hk as [Hk ->]; [|done..].
  by apply split_last_inj in Hk as [-> ->].
Qed.

Lemma cache_key_injective_witness :
  ∃ r1 r2, parse_request demo_request Request_default = (Ok, r1) ∧
    parse_request (demo_request ++ lit "x") Request_default = (Ok, r2) ∧ path r1 = path r2.
Proof.
  eexists _, _. split; [vm_compute; reflexivity|]. split; [vm_compute; reflexivity|].
  eapply (cache_key_injective demo_request (demo_request ++ lit "x")); vm_compute; reflexivity.
Defined.

(** ** The interface a connection sees *)

(** The virtual functions of [class ResponseCache] a [Connection] calls, with the
mapping a client may think of. *)
Class ResponseCache (C : Type) := {
  rc_get : str → C → option str * C;
  rc_put : str → str → C → C;
  rc_contents : C → gmap str str;
  rc_inv : C → Prop
}.

(** What every implementation promises: a lookup answers from the contents and
does not change them; a store adds its entry and may drop others. *)
Class ResponseCacheLaws (C : Type) `{!ResponseCache C} : Prop := {
  rc_get_answer k c : rc_inv c → (rc_get k c).1 = rc_contents c !! k;
  rc_get_contents k c : rc_inv c → rc_contents (rc_get k c).2 = rc_contents c;
  rc_get_inv k c : rc_inv c → rc_inv (rc_get k c).2;
  rc_put_contents k v c : rc_inv c → rc_contents (rc_put k v c) ⊆ <[k := v]> (rc_contents c);
  rc_put_inv k v c : rc_inv c → rc_inv (rc_put k v c)
}.

#[export] Instance LruCache_ops : ResponseCache LruCache := {|
  rc_get := get;
  rc_put := put;
  rc_contents c := list_to_map (view (order_ c));
  rc_inv c := ∃ l, in_step c l
|}.

Lemma lru_lookup_front k v l k' :
  lru_lookup k' ((k, v) :: lru_remove k l) = if decide (k' = k) then Some v else lru_lookup k' l.
Proof.
  unfold lru_lookup at 1. simpl. case_decide as Hd; [subst; by rewrite lookup_insert_eq|].
  rewrite lookup_insert_ne by done. by apply lru_lookup_remove_ne.
Qed.

#[export] Instance LruCache_laws : ResponseCacheLaws LruCache.
Proof.
  constructor; simpl; intros k.
  - intros c [l Hc]. rewrite (st_view _ _ Hc). by apply get_lookup.
  - intros c [l Hc]. pose proof (get_step k c l Hc) as Hg. rewrite (st_view _ _ Hc). unfold lru_get in Hg.
    destruct (get k c) as [r c']. destruct (lru_lookup k l) as [v|] eqn:Hk;
      destruct Hg as (_ & Hc' & _); simpl; rewrite (st_view _ _ Hc'); [|done].
    apply map_eq; intros k'. change (lru_lookup k' ((k, v) :: lru_remove k l) = lru_lookup k' l).
    rewrite lru_lookup_front. by case_decide; subst.
  - intros c [l Hc]. pose proof (get_step k c l Hc) as Hg.
    destruct (get k c), (lru_get k l). destruct Hg as (_ & Hc' & _). by eexists.
  - intros v c [l Hc]. destruct (put_step k v c l Hc) as (l' & Hc' & Hl').
    rewrite (st_view _ _ Hc), (st_view _ _ Hc'). apply map_subseteq_spec; intros k' w Hw.
    change (lru_lookup k' l' = Some w) in Hw. destruct Hl' as [->|(n & -> & _)].
    + rewrite lru_lookup_front in Hw. case_decide; [subst; simplify_eq; by rewrite lookup_insert_eq|].
      by rewrite lookup_insert_ne.
    + by apply lru_lookup_take in Hw.
  - intros v c [l Hc]. destruct (put_step k v c l Hc) as (l' & Hc' & _). by eexists.
Qed.
