(* ===== verification/Kernel.v ===== *)
(** * The operating system, as the program sees it

The kernel is not part of the repository: it is the parameter [K] of every
definition that makes a system call.  [Kernel] lists the calls evproxy makes;
an answer is either an errno or a result.  [obs] is what can be observed of a
kernel state: the descriptor table (which open file a descriptor designates),
the bytes exchanged on each open file, and the kqueue registrations.

[KernelLaws] states the documented behaviour the code relies on, call by
call.  In particular [close] drops the descriptor's registrations, and a new
descriptor is one that is not in use, so a number just closed may come back:
the hazard [Connection::epoch] exists for.  [interrupts] bounds how many more
times a signal will interrupt a call; it is the fuel of the EINTR loops. *)
From S2P Require Import Prelude.

(** ** errno *)

Inductive Errno := EINTR | EAGAIN | EWOULDBLOCK | EINPROGRESS | EMFILE | ENFILE | EOTHER (code : Z).

#[export] Instance Errno_eq_dec : EqDecision Errno.
Proof. solve_decision. Defined.

(** ** Observations *)

(** What a kqueue registration carries back: the [void* udata] of the event loop. *)
Inductive UData := UNull | UInbox | UConn (conn : nat).

#[export] Instance UData_eq_dec : EqDecision UData.
Proof. solve_decision. Defined.

Record Obs := mkObs {
  fdt : gmap Z nat;                     (* descriptor -> open file *)
  nfiles : nat;                         (* open files created so far *)
  sent : nat → str;                     (* bytes the process wrote to an open file *)
  rcvd : nat → str;                     (* bytes the process read from it *)
  flags : nat → Z;                      (* its file status flags (F_GETFL) *)
  regs : gmap (Z * Z * bool) UData      (* (kqueue, descriptor, write filter?) -> udata *)
}.

Definition obs_recv (f : nat) (bs : str) (o : Obs) : Obs :=
  mkObs (fdt o) (nfiles o) (sent o) (<[f := rcvd o f ++ bs]> (rcvd o)) (flags o) (regs o).
Definition obs_send (f : nat) (bs : str) (o : Obs) : Obs :=
  mkObs (fdt o) (nfiles o) (<[f := sent o f ++ bs]> (sent o)) (rcvd o) (flags o) (regs o).
Definition obs_setfl (f : nat) (fl : Z) (o : Obs) : Obs :=
  mkObs (fdt o) (nfiles o) (sent o) (rcvd o) (<[f := fl]> (flags o)) (regs o).

(** A new open file, in blocking mode, under a descriptor that was free. *)
Definition obs_open (fd : Z) (o : Obs) : Obs :=
  mkObs (<[fd := nfiles o]> (fdt o)) (S (nfiles o)) (<[nfiles o := []]> (sent o))
    (<[nfiles o := []]> (rcvd o)) (<[nfiles o := 0]> (flags o)) (regs o).

(** Closing removes the descriptor and every registration on it. *)
Definition obs_close (fd : Z) (o : Obs) : Obs :=
  mkObs (delete fd (fdt o)) (nfiles o) (sent o) (rcvd o) (flags o)
    (filter (λ r, r.1.1.2 ≠ fd) (regs o)).

(** EV_ADD (adding again overwrites) and EV_DELETE. *)
Definition obs_arm (kq fd : Z) (write : bool) (u : UData) (o : Obs) : Obs :=
  mkObs (fdt o) (nfiles o) (sent o) (rcvd o) (flags o) (<[(kq, fd, write) := u]> (regs o)).
Definition obs_disarm (kq fd : Z) (write : bool) (o : Obs) : Obs :=
  mkObs (fdt o) (nfiles o) (sent o) (rcvd o) (flags o) (delete (kq, fd, write) (regs o)).

(** ** System calls *)

Record AddrInfo := mkAddrInfo {
  ai_addr : str; ai_addrlen : Z; ai_family : Z; ai_socktype : Z; ai_protocol : Z
}.

Inductive SockOpt := SO_REUSEADDR | SO_REUSEPORT | SO_NOSIGPIPE.

Class Kernel (K : Type) := {
  obs : K → Obs;
  interrupts : K → nat;
  clock : K → Z;                                           (* what steady_clock last showed *)
  sys_recv : Z → Z → K → (Errno + str) * K;                (* fd, len *)
  sys_send : Z → str → K → (Errno + Z) * K;                (* fd, bytes *)
  sys_read : Z → Z → K → (Errno + str) * K;                (* fd, len *)
  sys_write : Z → str → K → (Errno + Z) * K;               (* fd, bytes *)
  sys_close : Z → K → K;
  sys_socket : Z → Z → Z → K → (Errno + Z) * K;            (* family, type, protocol *)
  sys_getfl : Z → K → (Errno + Z) * K;                     (* fcntl(fd, F_GETFL) *)
  sys_setfl : Z → Z → K → (Errno + unit) * K;              (* fcntl(fd, F_SETFL, flags) *)
  sys_getfd : Z → K → bool * K;                            (* fcntl(fd, F_GETFD) != -1 *)
  sys_setsockopt : Z → SockOpt → K → bool * K;             (* switch an option on *)
  sys_bind : Z → str → Z → K → (Errno + unit) * K;
  sys_listen : Z → Z → K → (Errno + unit) * K;
  sys_connect : Z → str → Z → K → (Errno + unit) * K;
  sys_so_error : Z → K → (Errno + Z) * K;                  (* getsockopt(SO_ERROR) *)
  sys_pipe : K → (Errno + (Z * Z)) * K;
  sys_accept : Z → K → (Errno + Z) * K;
  sys_poll : Z → bool → Z → K → (Errno + Z) * K;           (* fd, for write, timeout *)
  sys_getaddrinfo : option str → str → bool → K → (Z + list AddrInfo) * K;   (* host, port, passive *)
  sys_getrlimit : K → option (Z * Z) * K;                  (* RLIMIT_NOFILE: (cur, max) *)
  sys_setrlimit : Z * Z → K → bool * K;
  sys_kqueue : K → (Errno + Z) * K;
  sys_ev_add : Z → Z → bool → UData → K → bool * K;        (* kq, fd, write filter, udata *)
  sys_ev_delete : Z → Z → bool → K → bool * K;
  sys_kevent_wait : Z → Z → Z → K → (Errno + list UData) * K;   (* kq, max events, timeout *)
  sys_sleep : Z → K → K;                                   (* sleep_for, in ms *)
  sys_now : K → Z * K                                      (* steady_clock, in ns *)
}.

Section laws.
Context {K : Type} `{!Kernel K}.

(** A call that leaves everything observable as it was. *)
Definition silent (k k' : K) : Prop := obs k' = obs k.

(** A failed call: silent, and an interruption uses up a signal. *)
Definition failed (e : Errno) (k k' : K) : Prop :=
  silent k k' ∧ (e = EINTR → (interrupts k' < interrupts k)%nat).

(** A call that opens one file under a free descriptor. *)
Definition opened (fd : Z) (k k' : K) : Prop :=
  0 ≤ fd ∧ fdt (obs k) !! fd = None ∧ obs k' = obs_open fd (obs k).
End laws.

Class KernelLaws (K : Type) `{!Kernel K} : Prop := {
  recv_err fd n k e k' : sys_recv fd n k = (inl e, k') → failed e k k';
  recv_ok fd n k bs k' : sys_recv fd n k = (inr bs, k') →
    zlen bs ≤ n ∧ ∃ f, fdt (obs k) !! fd = Some f ∧ obs k' = obs_recv f bs (obs k);
  send_err fd bs k e k' : sys_send fd bs k = (inl e, k') → failed e k k';
  send_ok fd bs k n k' : sys_send fd bs k = (inr n, k') →
    0 ≤ n ≤ zlen bs ∧
    ∃ f, fdt (obs k) !! fd = Some f ∧ obs k' = obs_send f (take (Z.to_nat n) bs) (obs k);
  read_err fd n k e k' : sys_read fd n k = (inl e, k') → failed e k k';
  read_ok fd n k bs k' : sys_read fd n k = (inr bs, k') →
    ∃ f, fdt (obs k) !! fd = Some f ∧ obs k' = obs_recv f bs (obs k);
  write_err fd bs k e k' : sys_write fd bs k = (inl e, k') → failed e k k';
  write_ok fd bs k n k' : sys_write fd bs k = (inr n, k') →
    0 ≤ n ≤ zlen bs ∧
    ∃ f, fdt (obs k) !! fd = Some f ∧ obs k' = obs_send f (take (Z.to_nat n) bs) (obs k);
  close_ok fd k : obs (sys_close fd k) = obs_close fd (obs k);
  socket_err d t p k e k' : sys_socket d t p k = (inl e, k') → failed e k k';
  socket_ok d t p k fd k' : sys_socket d t p k = (inr fd, k') → opened fd k k';
  getfl_err fd k e k' : sys_getfl fd k = (inl e, k') → failed e k k';
  getfl_ok fd k fl k' : sys_getfl fd k = (inr fl, k') →
    silent k k' ∧ ∃ f, fdt (obs k) !! fd = Some f ∧ fl = flags (obs k) f;
  setfl_err fd fl k e k' : sys_setfl fd fl k = (inl e, k') → failed e k k';
  setfl_ok fd fl k k' : sys_setfl fd fl k = (inr tt, k') →
    ∃ f, fdt (obs k) !! fd = Some f ∧ obs k' = obs_setfl f fl (obs k);
  getfd_ok fd k b k' : sys_getfd fd k = (b, k') →
    silent k k' ∧ b = bool_decide (is_Some (fdt (obs k) !! fd));
  setsockopt_silent fd o k b k' : sys_setsockopt fd o k = (b, k') → silent k k';
  bind_silent fd a n k r k' : sys_bind fd a n k = (r, k') → silent k k';
  listen_silent fd n k r k' : sys_listen fd n k = (r, k') → silent k k';
  connect_silent fd a n k r k' : sys_connect fd a n k = (r, k') → silent k k';
  so_error_silent fd k r k' : sys_so_error fd k = (r, k') → silent k k';
  pipe_err k e k' : sys_pipe k = (inl e, k') → failed e k k';
  pipe_ok k r w k' : sys_pipe k = (inr (r, w), k') →
    0 ≤ r ∧ 0 ≤ w ∧ r ≠ w ∧ fdt (obs k) !! r = None ∧ fdt (obs k) !! w = None ∧
    obs k' = obs_open w (obs_open r (obs k));
  accept_err fd k e k' : sys_accept fd k = (inl e, k') → failed e k k';
  accept_ok fd k c k' : sys_accept fd k = (inr c, k') → opened c k k';
  poll_err fd w t k e k' : sys_poll fd w t k = (inl e, k') → failed e k k';
  poll_ok fd w t k n k' : sys_poll fd w t k = (inr n, k') → silent k k' ∧ 0 ≤ n;
  getaddrinfo_silent h p b k r k' : sys_getaddrinfo h p b k = (r, k') → silent k k';
  getrlimit_silent k r k' : sys_getrlimit k = (r, k') → silent k k';
  setrlimit_silent l k b k' : sys_setrlimit l k = (b, k') → silent k k';
  kqueue_err k e k' : sys_kqueue k = (inl e, k') → failed e k k';
  kqueue_ok k kq k' : sys_kqueue k = (inr kq, k') → opened kq k k';
  ev_add_fail kq fd w u k k' : sys_ev_add kq fd w u k = (false, k') → silent k k';
  ev_add_ok kq fd w u k k' : sys_ev_add kq fd w u k = (true, k') →
    is_Some (fdt (obs k) !! fd) ∧ obs k' = obs_arm kq fd w u (obs k);
  ev_delete_ok kq fd w k b k' : sys_ev_delete kq fd w k = (b, k') →
    obs k' = obs_disarm kq fd w (obs k);
  kevent_wait_err kq n t k e k' : sys_kevent_wait kq n t k = (inl e, k') → failed e k k';
  kevent_wait_ok kq n t k us k' : sys_kevent_wait kq n t k = (inr us, k') → silent k k';
  sleep_silent t k : silent k (sys_sleep t k);
  now_ok k t k' : sys_now k = (t, k') → silent k k' ∧ clock k ≤ t ∧ clock k' = t
}.

(** ** Well-formed observations *)

(** Descriptors are non-negative and designate distinct existing open files;
registrations only designate open descriptors. *)
Record obs_wf (o : Obs) : Prop := {
  ow_files fd f : fdt o !! fd = Some f → (f < nfiles o)%nat;
  ow_inj fd fd' f : fdt o !! fd = Some f → fdt o !! fd' = Some f → fd = fd';
  ow_pos fd f : fdt o !! fd = Some f → 0 ≤ fd;
  ow_regs kq fd w u : regs o !! (kq, fd, w) = Some u → is_Some (fdt o !! fd)
}.

(** The open files of [o] are untouched in [o']; files may have been added. *)
Record old_files (o o' : Obs) : Prop := {
  of_nfiles : (nfiles o ≤ nfiles o')%nat;
  of_sent f : (f < nfiles o)%nat → sent o' f = sent o f;
  of_rcvd f : (f < nfiles o)%nat → rcvd o' f = rcvd o f;
  of_flags f : (f < nfiles o)%nat → flags o' f = flags o f
}.

Lemma old_files_refl o : old_files o o.
Proof. by split. Qed.

Lemma old_files_trans o1 o2 o3 : old_files o1 o2 → old_files o2 o3 → old_files o1 o3.
Proof.
  intros [n1 s1 r1 f1] [n2 s2 r2 f2]. split; [lia|..]; intros f Hf.
  - rewrite s2 by lia. auto.
  - rewrite r2 by lia. auto.
  - rewrite f2 by lia. auto.
Qed.

Lemma obs_open_wf fd o : obs_wf o → 0 ≤ fd → fdt o !! fd = None → obs_wf (obs_open fd o).
Proof.
  intros [Hf Hi Hp Hr] Hpos Hn. split; simpl.
  - intros fd' f [[<- <-]|[Hne H]]%lookup_insert_Some; [lia|]. apply Hf in H. lia.
  - intros a b f [[<- <-]|[Ha H1]]%lookup_insert_Some [[<- H2]|[Hb H2]]%lookup_insert_Some; try done.
    + apply Hf in H2. lia.
    + subst f. apply Hf in H1. lia.
    + by eapply Hi.
  - intros fd' f [[<- _]|[_ H]]%lookup_insert_Some; [done|by eapply Hp].
  - intros kq fd' w u H%Hr. by apply lookup_insert_is_Some'; right.
Qed.

Lemma obs_open_old fd o : old_files o (obs_open fd o).
Proof. split; simpl; [lia|..]; intros f Hf; apply fn_lookup_insert_ne; lia. Qed.

Lemma obs_close_regs_lookup fd o kq fd' w u :
  regs (obs_close fd o) !! (kq, fd', w) = Some u ↔ regs o !! (kq, fd', w) = Some u ∧ fd' ≠ fd.
Proof. simpl. by rewrite map_lookup_filter_Some. Qed.

Lemma obs_close_wf fd o : obs_wf o → obs_wf (obs_close fd o).
Proof.
  intros [Hf Hi Hp Hr]. split; [cbn [obs_close fdt nfiles]..|].
  - intros fd' f [_ H]%lookup_delete_Some. by eapply Hf.
  - intros a b f [_ H1]%lookup_delete_Some [_ H2]%lookup_delete_Some. by eapply Hi.
  - intros fd' f [_ H]%lookup_delete_Some. by eapply Hp.
  - intros kq fd' w u [H%Hr Hne]%obs_close_regs_lookup. simpl. by rewrite lookup_delete_ne.
Qed.

Lemma obs_close_old fd o : old_files o (obs_close fd o).
Proof. by split. Qed.

(** Closing a descriptor just opened under a free number undoes the opening. *)
Lemma obs_close_open_fdt fd o : fdt o !! fd = None → fdt (obs_close fd (obs_open fd o)) = fdt o.
Proof. intros H. simpl. by rewrite delete_insert_id. Qed.

Lemma obs_close_free_regs fd o : obs_wf o → fdt o !! fd = None → regs (obs_close fd o) = regs o.
Proof.
  intros Hw Hn. apply map_eq. intros [[kq fd'] w]. apply option_eq. intros u.
  rewrite obs_close_regs_lookup. split; [by intros [? _]|]. intros H. split; [done|].
  intros ->. apply (ow_regs o Hw) in H. rewrite Hn in H. by destruct H.
Qed.

Lemma obs_setfl_wf f fl o : obs_wf o → obs_wf (obs_setfl f fl o).
Proof. by intros [? ? ? ?]. Qed.

(** ** Framing *)

(** Going from [o] to [o'] concerned only the descriptors of [D]: the others
designate the same files, the files [D] did not designate have the same
bytes and flags, and the registrations on other descriptors are the same.
Descriptors may have been opened, each with a new file. *)
Record wframe (D : Z → Prop) (o o' : Obs) : Prop := {
  fr_wf : obs_wf o';
  fr_nfiles : (nfiles o ≤ nfiles o')%nat;
  fr_fd fd f : fdt o !! fd = Some f → ¬ D fd → fdt o' !! fd = Some f;
  fr_new fd f : fdt o' !! fd = Some f → fdt o !! fd = Some f ∨ (nfiles o ≤ f)%nat;
  fr_file f : (f < nfiles o)%nat → (∀ fd, D fd → fdt o !! fd ≠ Some f) →
    sent o' f = sent o f ∧ rcvd o' f = rcvd o f ∧ flags o' f = flags o f;
  fr_regs kq fd w : is_Some (fdt o !! fd) → ¬ D fd → regs o' !! (kq, fd, w) = regs o !! (kq, fd, w)
}.

(** Nothing was registered, and what is still registered is on a descriptor that
designates the file it designated. *)
Definition regs_kept (o o' : Obs) : Prop :=
  ∀ kq fd w u, regs o' !! (kq, fd, w) = Some u →
    regs o !! (kq, fd, w) = Some u ∧ fdt o' !! fd = fdt o !! fd.

(** Both: what code that never registers anything does. *)
Record frame (D : Z → Prop) (o o' : Obs) : Prop := {
  fr_weak :> wframe D o o';
  fr_kept : regs_kept o o'
}.
#[export] Hint Immediate fr_weak : core.

Lemma frame_wf D o o' : frame D o o' → obs_wf o'.
Proof. intros [H _]. by destruct H. Qed.

Lemma wframe_refl D o : obs_wf o → wframe D o o.
Proof. intros H. split; auto. Qed.

Lemma frame_refl D o : obs_wf o → frame D o o.
Proof. intros H. split; [by apply wframe_refl|]. by intros kq fd w u Hu. Qed.

(** The second part may also concern what the first part opened. *)
Lemma wframe_trans (D D' : Z → Prop) o1 o2 o3 :
  obs_wf o1 → wframe D o1 o2 → wframe D' o2 o3 →
  (∀ fd f, D' fd → fdt o2 !! fd = Some f → D fd ∨ (nfiles o1 ≤ f)%nat) →
  wframe D o1 o3.
Proof.
  intros Hw1 [w2 n2 fd2 new2 file2 regs2] [w3 n3 fd3 new3 file3 regs3] HD.
  assert (∀ fd f, fdt o1 !! fd = Some f → ¬ D fd → ¬ D' fd) as Hsub.
  { intros fd f Hf Hn Hd'. destruct (HD fd f Hd') as [?|?]; [by apply fd2|done|].
    apply (ow_files o1 Hw1) in Hf. lia. }
  split; [done|lia|..].
  - intros fd f Hf Hn. eauto.
  - intros fd f [H|H]%new3; [by apply new2|right; lia].
  - intros f Hf Hnd. destruct (file2 f Hf Hnd) as (<- & <- & <-). apply file3; [lia|].
    intros fd Hd' H. destruct (HD _ _ Hd' H) as [Hd|?]; [|lia].
    destruct (new2 _ _ H) as [?|?]; [by eapply Hnd|lia].
  - intros kq fd w [f Hf] Hn. rewrite regs3; [by eapply regs2| |by eapply Hsub].
    exists f. by apply fd2.
Qed.

Lemma regs_kept_trans o1 o2 o3 : regs_kept o1 o2 → regs_kept o2 o3 → regs_kept o1 o3.
Proof.
  intros H1 H2 kq fd w u Hu. destruct (H2 _ _ _ _ Hu) as [Hu2 H32]. destruct (H1 _ _ _ _ Hu2) as [Hu1 H21].
  split; [done|congruence].
Qed.

Lemma frame_trans (D D' : Z → Prop) o1 o2 o3 :
  obs_wf o1 → frame D o1 o2 → frame D' o2 o3 →
  (∀ fd f, D' fd → fdt o2 !! fd = Some f → D fd ∨ (nfiles o1 ≤ f)%nat) →
  frame D o1 o3.
Proof.
  intros Hw1 [H1 K1] [H2 K2] HD. split; [by eapply wframe_trans|by eapply regs_kept_trans].
Qed.

Lemma wframe_mono (D D' : Z → Prop) o o' :
  (∀ fd, is_Some (fdt o !! fd) → D fd → D' fd) → wframe D o o' → wframe D' o o'.
Proof.
  intros HD [w n fd new file regs]. split; try done.
  - intros x f Hf Hn. apply fd; [done|]. intros ?. by apply Hn, HD.
  - intros f Hf Hnd. apply file; [done|]. intros x Hx H. by eapply (Hnd x), H; apply HD.
  - intros kq x w' Hs Hn. apply regs; [done|]. intros ?. by apply Hn, HD.
Qed.

Lemma frame_mono (D D' : Z → Prop) o o' :
  (∀ fd, is_Some (fdt o !! fd) → D fd → D' fd) → frame D o o' → frame D' o o'.
Proof. intros HD [H HK]. split; [by eapply wframe_mono|done]. Qed.

(** The descriptor table and the registrations are the same. *)
Lemma regs_kept_same o o' : fdt o' = fdt o → regs o' = regs o → regs_kept o o'.
Proof. intros Ht Hr kq fd w u. by rewrite Ht, Hr. Qed.

Lemma frame_close fd o : obs_wf o → frame (λ x, x = fd) o (obs_close fd o).
Proof.
  intros Hw. split.
  2: { intros kq x w u [? ?]%obs_close_regs_lookup. simpl. by rewrite lookup_delete_ne. }
  split; [by apply obs_close_wf|done|..]; cbn [obs_close fdt sent rcvd flags].
  - intros x f Hf Hn. by rewrite lookup_delete_ne.
  - intros x f [_ ?]%lookup_delete_Some. by left.
  - done.
  - intros kq x w _ Hn. apply option_eq. intros u. rewrite obs_close_regs_lookup. naive_solver.
Qed.

Lemma frame_open fd o : obs_wf o → 0 ≤ fd → fdt o !! fd = None → frame (λ _, False) o (obs_open fd o).
Proof.
  intros Hw Hpos Hn. split.
  2: { intros kq x w u Hu. split; [done|]. simpl. apply lookup_insert_ne. intros <-.
       apply (ow_regs o Hw) in Hu. rewrite Hn in Hu. by destruct Hu. }
  split; [by apply obs_open_wf|simpl; lia|..]; cbn [obs_open fdt sent rcvd flags].
  - intros x f Hf _. rewrite lookup_insert_ne; [done|]. intros ->. by rewrite Hn in Hf.
  - intros x f [[_ <-]|[_ ?]]%lookup_insert_Some; [by right|by left].
  - intros f Hf _. rewrite !fn_lookup_insert_ne by lia. done.
  - done.
Qed.

Lemma frame_setfl fd f fl o : obs_wf o → fdt o !! fd = Some f → frame (λ x, x = fd) o (obs_setfl f fl o).
Proof.
  intros Hw Hf. split; [|by apply regs_kept_same].
  split; [by apply obs_setfl_wf|done|done|by left| |done].
  intros g _ Hnd. simpl. rewrite fn_lookup_insert_ne; [done|]. intros ->. by eapply Hnd.
Qed.
