(* ===== verification/SimKernel.v ===== *)
(** * A concrete kernel

A small deterministic operating system that satisfies [KernelLaws]: new
descriptors get the lowest free number, as POSIX asks; each open file has a
script of the chunks that will arrive on it, then end of file; one address
answers every lookup; [connect] completes at once; a number of connections
wait on the listener; the event queue reports scripted batches.  It shows that
the laws are consistent, and the examples of the other files run on it. *)
From S2P Require Import Prelude Kernel.

Record Sim := mkSim {
  s_obs : Obs;
  s_clock : Z;
  s_signals : nat;              (* interruptions still to be delivered to [recv] *)
  s_chunks : nat → list str;    (* what will arrive on each open file *)
  s_answer : Z + list AddrInfo; (* what getaddrinfo says *)
  s_waiting : nat;              (* connections waiting on the listener *)
  s_events : list (list UData)  (* what kevent will report *)
}.

Definition set_obs (o : Obs) (s : Sim) : Sim :=
  mkSim o (s_clock s) (s_signals s) (s_chunks s) (s_answer s) (s_waiting s) (s_events s).

Definition lowest_free (m : gmap Z nat) : Z :=
  default 0 (head (filter (λ z, m !! z = None) (Z.of_nat <$> seq 0 (S (size m))))).

Lemma lowest_free_spec m : 0 ≤ lowest_free m ∧ m !! lowest_free m = None.
Proof.
  unfold lowest_free. set (l := Z.of_nat <$> seq 0 (S (size m))).
  destruct (filter _ l) as [|z l'] eqn:Hf; simpl.
  - exfalso. assert (list_to_set l ⊆ dom m) as Hsub.
    { intros z Hz%elem_of_list_to_set. apply elem_of_dom. destruct (m !! z) eqn:E; [done|].
      assert (z ∈ filter (λ z, m !! z = None) l) as H by by apply list_elem_of_filter.
      rewrite Hf in H. by apply not_elem_of_nil in H. }
    apply subseteq_size in Hsub. rewrite size_list_to_set, size_dom in Hsub.
    + unfold l in Hsub. rewrite length_fmap, length_seq in Hsub. lia.
    + apply NoDup_fmap; [intros x y; lia|apply NoDup_seq].
  - assert (z ∈ filter (λ z, m !! z = None) l) as H by (rewrite Hf; constructor).
    apply list_elem_of_filter in H as [H Hz]. split; [|done].
    apply list_elem_of_fmap in Hz as (n & -> & _). lia.
Qed.

Definition on_file {A} (fd : Z) (s : Sim) (act : nat → (Errno + A) * Sim) : (Errno + A) * Sim :=
  match fdt (s_obs s) !! fd with Some f => act f | None => (inl (EOTHER 9), s) end.

Definition sim_arrive (fd : Z) (n : Z) (s : Sim) : (Errno + str) * Sim :=
  on_file fd s (λ f,
    let chunk := default [] (head (s_chunks s f)) in
    let got := take (Z.to_nat n) chunk in
    let rest := drop (Z.to_nat n) chunk in
    let more := if bool_decide (rest = []) then tail (s_chunks s f) else rest :: tail (s_chunks s f) in
    (inr got, mkSim (obs_recv f got (s_obs s)) (s_clock s) (s_signals s) (<[f := more]> (s_chunks s))
                (s_answer s) (s_waiting s) (s_events s))).

Definition sim_recv (fd : Z) (n : Z) (s : Sim) : (Errno + str) * Sim :=
  match s_signals s with
  | S m => (inl EINTR, mkSim (s_obs s) (s_clock s) m (s_chunks s) (s_answer s) (s_waiting s) (s_events s))
  | O => if n <? 0 then (inl (EOTHER 22), s) else sim_arrive fd n s
  end.

Definition sim_send (fd : Z) (bs : str) (s : Sim) : (Errno + Z) * Sim :=
  on_file fd s (λ f, (inr (zlen bs), set_obs (obs_send f bs (s_obs s)) s)).

Definition sim_open (s : Sim) : (Errno + Z) * Sim :=
  let fd := lowest_free (fdt (s_obs s)) in (inr fd, set_obs (obs_open fd (s_obs s)) s).

Definition sim_accept (fd : Z) (s : Sim) : (Errno + Z) * Sim :=
  match s_waiting s with
  | O => (inl EAGAIN, s)
  | S m =>
      let '(r, s) := sim_open s in
      (r, mkSim (s_obs s) (s_clock s) (s_signals s) (s_chunks s) (s_answer s) m (s_events s))
  end.

#[export] Instance Sim_Kernel : Kernel Sim := {|
  obs := s_obs;
  interrupts := s_signals;
  clock := s_clock;
  sys_recv := sim_recv;
  sys_send := sim_send;
  sys_read fd n s := if n <? 0 then (inl (EOTHER 22), s) else sim_arrive fd n s;
  sys_write := sim_send;
  sys_close fd s := set_obs (obs_close fd (s_obs s)) s;
  sys_socket _ _ _ := sim_open;
  sys_getfl fd s := on_file fd s (λ f, (inr (flags (s_obs s) f), s));
  sys_setfl fd fl s := on_file fd s (λ f, (inr tt, set_obs (obs_setfl f fl (s_obs s)) s));
  sys_getfd fd s := (bool_decide (is_Some (fdt (s_obs s) !! fd)), s);
  sys_setsockopt _ _ s := (true, s);
  sys_bind _ _ _ s := (inr tt, s);
  sys_listen _ _ s := (inr tt, s);
  sys_connect _ _ _ s := (inr tt, s);
  sys_so_error _ s := (inr 0, s);
  sys_pipe s :=
    let '(_, s1) := sim_open s in
    let '(_, s2) := sim_open s1 in
    (inr (lowest_free (fdt (s_obs s)), lowest_free (fdt (s_obs s1))), s2);
  sys_accept := sim_accept;
  sys_poll _ _ _ s := (inr 1, s);
  sys_getaddrinfo _ _ _ s := (s_answer s, s);
  sys_getrlimit s := (Some (256, 10240), s);
  sys_setrlimit _ s := (true, s);
  sys_kqueue := sim_open;
  sys_ev_add kq fd w u s :=
    match fdt (s_obs s) !! fd with
    | Some _ => (true, set_obs (obs_arm kq fd w u (s_obs s)) s)
    | None => (false, s)
    end;
  sys_ev_delete kq fd w s := (true, set_obs (obs_disarm kq fd w (s_obs s)) s);
  sys_kevent_wait _ _ _ s :=
    (inr (default [] (head (s_events s))),
     mkSim (s_obs s) (s_clock s) (s_signals s) (s_chunks s) (s_answer s) (s_waiting s) (tail (s_events s)));
  sys_sleep _ s := s;
  sys_now s :=
    (s_clock s + 1, mkSim (s_obs s) (s_clock s + 1) (s_signals s) (s_chunks s) (s_answer s) (s_waiting s) (s_events s))
|}.

Lemma sim_arrive_spec fd n s r s' :
  0 ≤ n → sim_arrive fd n s = (r, s') →
  (∃ e, r = inl e ∧ e ≠ EINTR ∧ s' = s) ∨
  (∃ bs f, r = inr bs ∧ zlen bs ≤ n ∧ fdt (s_obs s) !! fd = Some f ∧ s_obs s' = obs_recv f bs (s_obs s)).
Proof.
  intros Hn. unfold sim_arrive, on_file. destruct (fdt (s_obs s) !! fd) as [f|]; intros [= <- <-].
  - right. eexists _, f. split; [done|]. split; [|done]. unfold zlen. rewrite length_take. lia.
  - left. by eexists.
Qed.

Lemma sim_open_spec s r s' :
  sim_open s = (r, s') → ∃ fd, r = inr fd ∧ opened fd s s'.
Proof.
  intros [= <- <-]. eexists. split; [done|]. destruct (lowest_free_spec (fdt (s_obs s))). done.
Qed.

Lemma sim_send_spec fd bs s r s' :
  sim_send fd bs s = (r, s') →
  (∃ e, r = inl e ∧ e ≠ EINTR ∧ s' = s) ∨
  (r = inr (zlen bs) ∧ ∃ f, fdt (s_obs s) !! fd = Some f ∧ s_obs s' = obs_send f bs (s_obs s)).
Proof.
  unfold sim_send, on_file. destruct (fdt (s_obs s) !! fd) as [f|]; intros [= <- <-]; [right|left]; eauto.
Qed.

Lemma failed_same (e : Errno) (s : Sim) : e ≠ EINTR → failed e s s.
Proof. by intros He. Qed.

Lemma sim_recv_err fd n s e s' : sim_recv fd n s = (inl e, s') → failed e s s'.
Proof.
  unfold sim_recv. destruct (s_signals s) as [|m] eqn:E.
  - destruct (Z.ltb_spec n 0); [intros [= <- <-]; by apply failed_same|].
    intros [(e' & ? & ? & ->)|(? & ? & ? & _)]%sim_arrive_spec; [|done|done]. simplify_eq. by apply failed_same.
  - intros [= <- <-]. split; [done|]. intros _. simpl. lia.
Qed.

Lemma sim_recv_ok fd n s bs s' :
  sim_recv fd n s = (inr bs, s') →
  zlen bs ≤ n ∧ ∃ f, fdt (s_obs s) !! fd = Some f ∧ s_obs s' = obs_recv f bs (s_obs s).
Proof.
  unfold sim_recv. destruct (s_signals s); [|done]. destruct (Z.ltb_spec n 0); [done|].
  intros [(e' & ? & _)|(? & ? & ? & ? & ? & ?)]%sim_arrive_spec; [done| |done]. simplify_eq. eauto.
Qed.

Lemma sim_send_ok fd bs s n s' :
  sim_send fd bs s = (inr n, s') →
  0 ≤ n ≤ zlen bs ∧ ∃ f, fdt (s_obs s) !! fd = Some f ∧ s_obs s' = obs_send f (take (Z.to_nat n) bs) (s_obs s).
Proof.
  intros [(e' & ? & _)|(? & ? & ? & ?)]%sim_send_spec; [done|]. simplify_eq.
  split; [unfold zlen; lia|]. unfold zlen. rewrite Nat2Z.id, firstn_all. eauto.
Qed.

(** Closes a law whose call cannot give that answer, or leaves the state alone. *)
Ltac sim_law :=
  intros; unfold on_file in *;
  repeat match goal with
  | H : match ?x with _ => _ end = _ |- _ => destruct x eqn:?
  | H : (_, _) = (_, _) |- _ => injection H as ? ?; subst
  | H : sim_open _ = _ |- _ => apply sim_open_spec in H as (? & ? & ?)
  end; simplify_eq; try done; unfold silent in *; eauto 8 using failed_same with lia.

#[export] Instance Sim_laws : KernelLaws Sim.
Proof.
  constructor; cbn -[sim_recv sim_send sim_open sim_arrive sim_accept on_file Z.ltb]; try solve [sim_law].
  - apply sim_recv_err.
  - apply sim_recv_ok.
  - intros fd bs k e k' [(e' & ? & ? & ->)|(? & _)]%sim_send_spec; [|done]. simplify_eq. by apply failed_same.
  - apply sim_send_ok.
  - intros fd n k e k'. destruct (Z.ltb_spec n 0); [intros [= <- <-]; by apply failed_same|].
    intros [(e' & ? & ? & ->)|(? & ? & ? & _)]%sim_arrive_spec; [|done|done]. simplify_eq. by apply failed_same.
  - intros fd n k bs k'. destruct (Z.ltb_spec n 0); [done|].
    intros [(e' & ? & _)|(? & ? & ? & ? & ? & ?)]%sim_arrive_spec; [done| |done]. simplify_eq. eauto.
  - intros fd bs k e k' [(e' & ? & ? & ->)|(? & _)]%sim_send_spec; [|done]. simplify_eq. by apply failed_same.
  - apply sim_send_ok.
  - intros k r w k'. destruct (sim_open k) as [r1 s1] eqn:E1, (sim_open s1) as [r2 s2] eqn:E2.
    destruct (lowest_free_spec (fdt (s_obs k))) as [Ha Hb], (lowest_free_spec (fdt (s_obs s1))) as [Hc Hd].
    injection E1 as _ <-. injection E2 as _ <-. intros [= <- <- <-]. simpl in *.
    apply lookup_insert_None in Hd as [Hd Hne]. split_and!; try done.
  - unfold sim_accept. intros fd k e k'. destruct (s_waiting k); [intros [= <- <-]; by apply failed_same|].
    destruct (sim_open k) eqn:E. apply sim_open_spec in E as (? & -> & _). done.
  - unfold sim_accept. intros fd k c k'. destruct (s_waiting k); [done|].
    destruct (sim_open k) eqn:E. apply sim_open_spec in E as (? & -> & ?). by intros [= <- <-].
Qed.

(** ** Starting points for the examples *)

Definition obs0 : Obs := mkObs ∅ 0 (λ _, []) (λ _, []) (λ _, 0) ∅.

Lemma obs0_wf : obs_wf obs0.
Proof. by split. Qed.

Definition loopback : AddrInfo := mkAddrInfo (lit "127.0.0.1:80") 16 2 1 6.

Definition sim0 : Sim := mkSim obs0 0 0 (λ _, []) (inr [loopback]) 0 [].
