(* ===== verification/Socket.v ===== *)
(** * Sockets ([socket.hpp], [socket.cpp])

Every function of the file, over an arbitrary [Kernel].  A value of class [Fd]
is the descriptor number it owns (-1 for none); [Fd_reset] and the
destructor of a local [Fd] close it.  The [for (;;)] loops that retry on EINTR
share the shape [until_done]; their fuel is the kernel's bound on further
interruptions, and [until_done_spec] shows it is never exhausted: the result is
always that of the first call that was not interrupted.  The [err] strings, which are
only logged, are left out. *)
From S2P Require Import Prelude CppString Kernel.

(** ** Data *)

Inductive IoStatus := IoOk | IoWouldBlock | IoClosed | IoError.
Inductive ConnectStatus := Connected | InProgress | ConnectFailed.
Inductive AcceptStatus := AcceptOk | AcceptWouldBlock | AcceptOutOfFds | AcceptError.

#[export] Instance IoStatus_eq_dec : EqDecision IoStatus.
Proof. solve_decision. Defined.
#[export] Instance ConnectStatus_eq_dec : EqDecision ConnectStatus.
Proof. solve_decision. Defined.

Record Endpoint := mkEndpoint {
  ep_addr : str; ep_len : Z; ep_family : Z; ep_socktype : Z; ep_protocol : Z
}.

(** [sizeof(sockaddr_storage)], and the macOS value of O_NONBLOCK. *)
Definition sockaddr_storage_size : Z := 128.
Definition O_NONBLOCK : Z := 4.
(** [RLIM_INFINITY] on macOS. *)
Definition RLIM_INFINITY : Z := 2 ^ 63 - 1.

Section socket.
Context {K : Type} `{!Kernel K}.

(** ** class Fd *)

Definition valid (fd : Z) : bool := 0 <=? fd.

(** [fd.reset(n)]: close what is owned, then own [n]. *)
Definition Fd_reset (fd n : Z) (k : K) : Z * K :=
  (n, if valid fd then sys_close fd k else k).

(** ** Modes *)

Definition set_nonblocking (fd : Z) (k : K) : bool * K :=
  match sys_getfl fd k with
  | (inl _, k) => (false, k)
  | (inr fl, k) =>
      match sys_setfl fd (Z.lor fl O_NONBLOCK) k with
      | (inl _, k) => (false, k)
      | (inr _, k) => (true, k)
      end
  end.

(** [make_pipe(read_end, write_end)]: (success, read end, write end). *)
Definition make_pipe (read_end write_end : Z) (k : K) : bool * Z * Z * K :=
  match sys_pipe k with
  | (inl _, k) => (false, read_end, write_end, k)
  | (inr (r, w), k) =>
      let '(read_end, k) := Fd_reset read_end r k in
      let '(write_end, k) := Fd_reset write_end w k in
      let '(ok, k) := set_nonblocking read_end k in
      if negb ok then (false, read_end, write_end, k) else (true, read_end, write_end, k)
  end.

(** ** Reading and writing *)

Definition would_block (e : Errno) : bool :=
  bool_decide (e = EAGAIN) || bool_decide (e = EWOULDBLOCK).

(** The shape of every [for (;;)] around a system call: [if (errno == EINTR)
continue], anything else leaves the loop. *)
Fixpoint retry {A} (call : K → (Errno + A) * K) (fuel : nat) (k : K) : (Errno + A) * K :=
  match fuel with
  | O => (inl EINTR, k)
  | S fuel' =>
      match call k with
      | (inl EINTR, k') => retry call fuel' k'
      | r => r
      end
  end.

Definition until_done {A} (call : K → (Errno + A) * K) (k : K) : (Errno + A) * K :=
  retry call (S (interrupts k)) k.

(** The status and the bytes now in [buf]. *)
Definition read_some (fd len : Z) (k : K) : (IoStatus * str) * K :=
  match until_done (sys_recv fd len) k with
  | (inr bs, k) => if 0 <? zlen bs then ((IoOk, bs), k) else ((IoClosed, []), k)
  | (inl e, k) => if would_block e then ((IoWouldBlock, []), k) else ((IoError, []), k)
  end.

(** The status and the number of bytes taken. *)
Definition write_some (fd : Z) (bs : str) (k : K) : (IoStatus * Z) * K :=
  match until_done (sys_send fd bs) k with
  | (inr n, k) => ((IoOk, n), k)
  | (inl e, k) => if would_block e then ((IoWouldBlock, 0), k) else ((IoError, 0), k)
  end.

(** ** Addresses *)

Definition suppress_sigpipe (fd : Z) (k : K) : K := (sys_setsockopt fd SO_NOSIGPIPE k).2.

(** The loop of [listen_on] over the addresses; -1 when none could be bound. *)
Fixpoint listen_loop (ais : list AddrInfo) (backlog : Z) (reuseport : bool) (k : K) : Z * K :=
  match ais with
  | [] => (-1, k)
  | p :: ais' =>
      match sys_socket (ai_family p) (ai_socktype p) (ai_protocol p) k with
      | (inl _, k) => listen_loop ais' backlog reuseport k
      | (inr fd, k) =>
          let k := (sys_setsockopt fd SO_REUSEADDR k).2 in
          let k := if reuseport then (sys_setsockopt fd SO_REUSEPORT k).2 else k in
          let k := suppress_sigpipe fd k in
          match sys_bind fd (ai_addr p) (ai_addrlen p) k with
          | (inr _, k) =>
              match sys_listen fd backlog k with
              | (inr _, k) => (fd, k)
              | (inl _, k) => listen_loop ais' backlog reuseport (sys_close fd k)
              end
          | (inl _, k) => listen_loop ais' backlog reuseport (sys_close fd k)
          end
      end
  end.

Definition listen_on (host : str) (port backlog : Z) (reuseport : bool) (k : K) : Z * K :=
  let node := if bool_decide (host = []) then None else Some host in
  match sys_getaddrinfo node (int_to_string port) true k with
  | (inl _, k) => (-1, k)
  | (inr ais, k) => listen_loop ais backlog reuseport k
  end.

Definition endpoint_of (p : AddrInfo) : Endpoint :=
  mkEndpoint (ai_addr p) (ai_addrlen p) (ai_family p) (ai_socktype p) (ai_protocol p).

(** [resolve]: the success flag and [out], which a failed [getaddrinfo] leaves as it was. *)
Definition resolve (host port : str) (out : list Endpoint) (k : K) : (bool * list Endpoint) * K :=
  match sys_getaddrinfo (Some host) port false k with
  | (inl _, k) => ((false, out), k)
  | (inr ais, k) =>
      let out := endpoint_of <$> filter (λ p, ai_addrlen p ≤ sockaddr_storage_size) ais in
      ((negb (bool_decide (out = [])), out), k)
  end.

(** ** Connecting *)

(** (status, the descriptor moved to [out]); the local [Fd] closes what is not
moved. *)
Definition start_connect (ep : Endpoint) (k : K) : (ConnectStatus * Z) * K :=
  match sys_socket (ep_family ep) (ep_socktype ep) (ep_protocol ep) k with
  | (inl _, k) => ((ConnectFailed, -1), k)
  | (inr fd, k) =>
      let k := suppress_sigpipe fd k in
      let '(nb, k) := set_nonblocking fd k in
      if negb nb then ((ConnectFailed, -1), sys_close fd k) else
      match sys_connect fd (ep_addr ep) (ep_len ep) k with
      | (inr _, k) => ((Connected, fd), k)
      | (inl e, k) =>
          if bool_decide (e = EINPROGRESS) || bool_decide (e = EINTR)
          then ((InProgress, fd), k)
          else ((ConnectFailed, -1), sys_close fd k)
      end
  end.

Definition connect_succeeded (fd : Z) (k : K) : bool * K :=
  match sys_so_error fd k with
  | (inl _, k) => (false, k)
  | (inr so_error, k) => (so_error =? 0, k)
  end.

(** ** Accepting and waiting *)

Definition accept_one (listener : Z) (k : K) : (AcceptStatus * Z) * K :=
  match until_done (sys_accept listener) k with
  | (inr fd, k) => ((AcceptOk, fd), suppress_sigpipe fd k)
  | (inl e, k) =>
      if would_block e then ((AcceptWouldBlock, -1), k)
      else if bool_decide (e = EMFILE) || bool_decide (e = ENFILE) then ((AcceptOutOfFds, -1), k)
      else ((AcceptError, -1), k)
  end.

Definition wait_ready (fd : Z) (for_write : bool) (timeout_ms : Z) (k : K) : bool * K :=
  match until_done (sys_poll fd for_write timeout_ms) k with
  | (inr rc, k) => (0 <? rc, k)
  | (inl _, k) => (false, k)
  end.

(** ** The descriptor limit *)

(** [static_cast<long>] of a 64-bit [rlim_t]. *)
Definition to_long (z : Z) : Z := (z + 2 ^ 63) mod 2 ^ 64 - 2 ^ 63.

Definition fd_limit_current (k : K) : Z * K :=
  match sys_getrlimit k with
  | (None, k) => (-1, k)
  | (Some (cur, _), k) => (to_long cur, k)
  end.

Definition fd_limit_raise (desired : Z) (k : K) : Z * K :=
  match sys_getrlimit k with
  | (None, k) => (-1, k)
  | (Some (cur, max), k) =>
      let want := wrap64 desired in
      if want <=? cur then (to_long cur, k) else
      let target := if max =? RLIM_INFINITY then want else if want <? max then want else max in
      match sys_setrlimit (target, max) k with
      | (false, k) => (to_long cur, k)
      | (true, k) => fd_limit_current k
      end
  end.

(** The loop of [open_fd_count] from [fd] on, [n] descriptors to go. *)
Fixpoint count_open (n : nat) (fd count : Z) (k : K) : Z * K :=
  match n with
  | O => (count, k)
  | S n' =>
      let '(b, k) := sys_getfd fd k in
      count_open n' (fd + 1) (if b then count + 1 else count) k
  end.

(** The counter of the loop is an [int]: a limit above [INT_MAX] would overflow
it, which is undefined behaviour ([None]). *)
Definition open_fd_count (k : K) : option Z * K :=
  let '(limit, k) := fd_limit_current k in
  if limit <? 0 then (Some (-1), k)
  else if INT_MAX <? limit then (None, k)
  else let '(count, k) := count_open (Z.to_nat limit) 0 0 k in (Some count, k).
End socket.

(** ** Specifications *)

Section spec.
Context {K : Type} `{!Kernel K, !KernelLaws K}.

Lemma silent_trans (k1 k2 k3 : K) : silent k1 k2 → silent k2 k3 → silent k1 k3.
Proof. unfold silent. congruence. Qed.

Lemma retry_spec {A} (call : K → (Errno + A) * K) fuel k :
  (∀ k e k', call k = (inl e, k') → failed e k k') →
  (interrupts k < fuel)%nat →
  ∃ k0, silent k k0 ∧ call k0 = retry call fuel k ∧ (retry call fuel k).1 ≠ inl EINTR.
Proof.
  intros Hcall; revert k; induction fuel as [|fuel IH]; intros k Hf; [lia|]. simpl.
  destruct (call k) as [[e|a] k'] eqn:E; [|by exists k].
  destruct (Hcall _ _ _ E) as [Hs Hi]. destruct (decide (e = EINTR)) as [->|Hne].
  - destruct (IH k') as (k0 & H0 & Hc & Hn); [specialize (Hi eq_refl); lia|].
    exists k0. split; [by eapply silent_trans|done].
  - exists k. by destruct e.
Qed.

(** A loop that retries on EINTR ends, with the answer of the first call that
was not interrupted. *)
Lemma until_done_spec {A} (call : K → (Errno + A) * K) k r k' :
  (∀ k e k', call k = (inl e, k') → failed e k k') →
  until_done call k = (r, k') →
  r ≠ inl EINTR ∧ ∃ k0, silent k k0 ∧ call k0 = (r, k').
Proof.
  intros Hcall H. destruct (retry_spec call (S (interrupts k)) k Hcall) as (k0 & H0 & Hc & Hn); [lia|].
  unfold until_done in H. rewrite H in Hc, Hn. eauto.
Qed.

(** What a read, successful or not, changes: the bytes it returned are appended
to what was read from that open file. *)
Record recv_effect (fd : Z) (bs : str) (k k' : K) : Prop := {
  re_fdt : fdt (obs k') = fdt (obs k);
  re_nfiles : nfiles (obs k') = nfiles (obs k);
  re_regs : regs (obs k') = regs (obs k);
  re_flags f : flags (obs k') f = flags (obs k) f;
  re_sent f : sent (obs k') f = sent (obs k) f;
  re_rcvd f : rcvd (obs k') f =
    rcvd (obs k) f ++ (if decide (fdt (obs k) !! fd = Some f) then bs else [])
}.

Record send_effect (fd : Z) (bs : str) (k k' : K) : Prop := {
  se_fdt : fdt (obs k') = fdt (obs k);
  se_nfiles : nfiles (obs k') = nfiles (obs k);
  se_regs : regs (obs k') = regs (obs k);
  se_flags f : flags (obs k') f = flags (obs k) f;
  se_rcvd f : rcvd (obs k') f = rcvd (obs k) f;
  se_sent f : sent (obs k') f =
    sent (obs k) f ++ (if decide (fdt (obs k) !! fd = Some f) then bs else [])
}.

Lemma recv_effect_silent fd k k' : silent k k' → recv_effect fd [] k k'.
Proof.
  unfold silent. intros H. split; rewrite H; try done.
  intros f. case_decide; by rewrite (right_id_L [] (++)).
Qed.

Lemma recv_effect_obs fd bs k k' f :
  fdt (obs k) !! fd = Some f → obs k' = obs_recv f bs (obs k) → recv_effect fd bs k k'.
Proof.
  intros Hf H. split; rewrite H; try done. intros g. simpl. rewrite Hf.
  destruct (decide (f = g)) as [->|Hne].
  - by rewrite fn_lookup_insert, decide_True.
  - rewrite fn_lookup_insert_ne, decide_False by congruence. by rewrite (right_id_L [] (++)).
Qed.

Lemma send_effect_silent fd k k' : silent k k' → send_effect fd [] k k'.
Proof.
  unfold silent. intros H. split; rewrite H; try done.
  intros f. case_decide; by rewrite (right_id_L [] (++)).
Qed.

Lemma send_effect_obs fd bs k k' f :
  fdt (obs k) !! fd = Some f → obs k' = obs_send f bs (obs k) → send_effect fd bs k k'.
Proof.
  intros Hf H. split; rewrite H; try done. intros g. simpl. rewrite Hf.
  destruct (decide (f = g)) as [->|Hne].
  - by rewrite fn_lookup_insert, decide_True.
  - rewrite fn_lookup_insert_ne, decide_False by congruence. by rewrite (right_id_L [] (++)).
Qed.

(** [read_some]: one read of an open descriptor, of at most [len] bytes; bytes
come only with [IoOk], and [IoOk] always brings some. *)
Lemma read_some_spec fd len k st bs k' :
  read_some fd len k = ((st, bs), k') →
  recv_effect fd bs k k' ∧ (st = IoOk → bs ≠ [] ∧ zlen bs ≤ len) ∧ (st ≠ IoOk → bs = []).
Proof.
  unfold read_some. destruct (until_done _ _) as [r k1] eqn:E.
  apply until_done_spec in E as (_ & k0 & H0 & E); [|intros; by eapply recv_err].
  destruct r as [e|b].
  - apply recv_err in E as [E _]. assert (silent k k1) by by eapply silent_trans.
    destruct (would_block e); intros [= <- <- <-];
      (split; [by apply recv_effect_silent|done]).
  - apply recv_ok in E as (Hlen & f & Hf & E). unfold silent in H0. rewrite H0 in *.
    destruct (Z.ltb_spec 0 (zlen b)) as [Hb|Hb]; intros [= <- <- <-].
    + split; [by eapply recv_effect_obs|]. split; [|done]. intros _. split; [by intros ->|done].
    + destruct b; [|unfold zlen in Hb; simpl in Hb; lia].
      split; [by eapply recv_effect_obs|done].
Qed.

(** [write_some]: the first [n] bytes of the buffer were taken, none on error. *)
Lemma write_some_spec fd bs k st n k' :
  write_some fd bs k = ((st, n), k') →
  send_effect fd (take (Z.to_nat n) bs) k k' ∧ 0 ≤ n ≤ zlen bs ∧ (st ≠ IoOk → n = 0) ∧ st ≠ IoClosed.
Proof.
  unfold write_some. destruct (until_done _ _) as [r k1] eqn:E.
  apply until_done_spec in E as (_ & k0 & H0 & E); [|intros; by eapply send_err].
  destruct r as [e|b].
  - apply send_err in E as [E _]. assert (silent k k1) by by eapply silent_trans.
    assert (send_effect fd (take (Z.to_nat 0) bs) k k1) by by apply send_effect_silent.
    unfold zlen. destruct (would_block e); intros [= <- <- <-]; split_and!; done || lia.
  - apply send_ok in E as (Hlen & f & Hf & E). unfold silent in H0. rewrite H0 in *.
    intros [= <- <- <-]. split; [by eapply send_effect_obs|done].
Qed.

Lemma recv_effect_frame fd bs k k' :
  obs_wf (obs k) → recv_effect fd bs k k' → frame (λ x, x = fd) (obs k) (obs k').
Proof.
  intros [? ? ? ?] [Ht Hn Hr Hf Hs Hb]. split; [|by apply regs_kept_same].
  split; rewrite ?Ht, ?Hn, ?Hr; try done; [|by left|].
  - split; rewrite ?Ht, ?Hn, ?Hr; eauto.
  - intros f _ Hnd. rewrite Hf, Hs, Hb, decide_False by auto. by rewrite (right_id_L [] (++)).
Qed.

Lemma send_effect_frame fd bs k k' :
  obs_wf (obs k) → send_effect fd bs k k' → frame (λ x, x = fd) (obs k) (obs k').
Proof.
  intros [? ? ? ?] [Ht Hn Hr Hf Hs Hb]. split; [|by apply regs_kept_same].
  split; rewrite ?Ht, ?Hn, ?Hr; try done; [|by left|].
  - split; rewrite ?Ht, ?Hn, ?Hr; eauto.
  - intros f _ Hnd. rewrite Hf, Hs, Hb, decide_False by auto. by rewrite (right_id_L [] (++)).
Qed.

(** ** Opening and closing *)

Lemma O_NONBLOCK_bit fl : Z.testbit (Z.lor fl O_NONBLOCK) 2 = true.
Proof. rewrite Z.lor_spec. apply orb_true_r. Qed.

(** [set_nonblocking] changes at most the flags of the descriptor's file, and
on success that file is in non-blocking mode. *)
Lemma set_nonblocking_spec fd (k : K) b k' :
  set_nonblocking fd k = (b, k') →
  (obs k' = obs k ∧ b = false) ∨
  (b = true ∧ ∃ f fl, fdt (obs k) !! fd = Some f ∧ obs k' = obs_setfl f fl (obs k) ∧ Z.testbit fl 2 = true).
Proof.
  unfold set_nonblocking. destruct (sys_getfl fd k) as [[e|fl] k1] eqn:E1.
  - intros [= <- <-]. left. by apply getfl_err in E1 as [? _].
  - apply getfl_ok in E1 as (Hs & f & Hf & ->). destruct (sys_setfl fd _ k1) as [[e|[]] k2] eqn:E2.
    + intros [= <- <-]. left. apply setfl_err in E2 as [H2 _]. unfold silent in *. split; congruence.
    + intros [= <- <-]. right. split; [done|]. apply setfl_ok in E2 as (g & Hg & E2).
      unfold silent in Hs. rewrite Hs in *. eauto using O_NONBLOCK_bit.
Qed.

(** The outcome of one connection attempt.  A failed attempt leaves the
descriptor table and the registrations as they were: nothing leaks.  Otherwise
exactly one new descriptor, under a number that was free, designates a fresh
non-blocking open file. *)
Record attempt (st : ConnectStatus) (fd : Z) (o o' : Obs) : Prop := {
  at_wf : obs_wf o';
  at_old : old_files o o';
  at_regs : regs o' = regs o;
  at_failed : st = ConnectFailed → fd = -1 ∧ fdt o' = fdt o;
  at_opened : st ≠ ConnectFailed → ∃ f, 0 ≤ fd ∧ fdt o !! fd = None ∧
    (nfiles o ≤ f < nfiles o')%nat ∧ fdt o' = <[fd := f]> (fdt o) ∧
    sent o' f = [] ∧ rcvd o' f = [] ∧ Z.testbit (flags o' f) 2 = true
}.

(** Closing the new descriptor again, whatever its flags became. *)
Lemma attempt_closed fd o o' :
  obs_wf o → 0 ≤ fd → fdt o !! fd = None →
  fdt o' = fdt (obs_open fd o) → nfiles o' = S (nfiles o) → regs o' = regs o →
  (∀ f, (f < nfiles o)%nat → sent o' f = sent o f ∧ rcvd o' f = rcvd o f ∧ flags o' f = flags o f) →
  obs_wf o' → attempt ConnectFailed (-1) o (obs_close fd o').
Proof.
  intros Hw Hpos Hn Hfdt Hnf Hregs Hold Hw'. split.
  - by apply obs_close_wf.
  - split; simpl; [lia|..]; intros f Hf; by apply Hold.
  - apply map_eq. intros [[kq fd'] w]. apply option_eq. intros u.
    rewrite obs_close_regs_lookup, Hregs. split; [by intros [? _]|]. intros H. split; [done|].
    intros ->. apply (ow_regs o Hw) in H. rewrite Hn in H. by destruct H.
  - intros _. split; [done|]. simpl. rewrite Hfdt. simpl. by rewrite delete_insert_id.
  - done.
Qed.

Lemma suppress_sigpipe_silent fd (k : K) : obs (suppress_sigpipe fd k) = obs k.
Proof.
  unfold suppress_sigpipe. destruct (sys_setsockopt _ _ _) as [b k'] eqn:E.
  by apply setsockopt_silent in E.
Qed.

Lemma accept_one_spec lfd k st fd k' :
  accept_one lfd k = ((st, fd), k') → match st with AcceptOk => opened fd k k' | _ => silent k k' end.
Proof.
  unfold accept_one. destruct (until_done (sys_accept lfd) k) as [r k1] eqn:E.
  apply until_done_spec in E as (_ & k0 & Hs & E); [|by intros; eapply accept_err].
  destruct r as [e|c].
  - apply accept_err in E as [E _]. assert (silent k k1) by by eapply silent_trans.
    destruct (would_block e); [by intros [= <- <- <-]|]. destruct (_ || _); by intros [= <- <- <-].
  - apply accept_ok in E as (? & Hn & Ho). intros [= <- <- <-]. simpl. unfold silent in Hs. rewrite Hs in *.
    unfold opened. by rewrite suppress_sigpipe_silent, Ho.
Qed.

Lemma wait_ready_silent fd d t (k : K) b k' : wait_ready fd d t k = (b, k') → silent k k'.
Proof.
  unfold wait_ready. destruct (until_done _ k) as [r k1] eqn:E.
  apply until_done_spec in E as (_ & k0 & Hs & E); [|by intros; eapply poll_err].
  destruct r; intros [= <- <-].
  - apply poll_err in E as [E _]. by eapply silent_trans.
  - apply poll_ok in E as [E _]. by eapply silent_trans.
Qed.

Lemma start_connect_spec ep k st fd k' :
  obs_wf (obs k) → start_connect ep k = ((st, fd), k') → attempt st fd (obs k) (obs k').
Proof.
  intros Hw. unfold start_connect.
  destruct (sys_socket _ _ _ k) as [[e|fd1] k1] eqn:E1.
  { intros [= <- <- <-]. apply socket_err in E1 as [E1 _]. rewrite E1.
    split; [done|apply old_files_refl|done..]. }
  apply socket_ok in E1 as (Hpos & Hn & E1).
  remember (suppress_sigpipe fd1 k1) as k1' eqn:Es.
  assert (obs k1' = obs k1) as Es' by (subst; apply suppress_sigpipe_silent).
  rewrite <-Es' in E1. clear Es Es' k1. rename k1' into k1. pose proof (obs_open_wf _ _ Hw Hpos Hn) as Hw1.
  pose proof (obs_open_old fd1 (obs k)) as Hold1. rewrite <-E1 in Hw1, Hold1.
  destruct (set_nonblocking fd1 k1) as [b k2] eqn:E2.
  apply set_nonblocking_spec in E2 as [[E2 ->]|(-> & f & fl & Hf & E2 & Hbit)]; cbn [negb].
  { intros [= <- <- <-]. rewrite close_ok, E2, E1 in *. apply attempt_closed; try done.
    intros f Hf. split_and!; by apply Hold1. }
  assert (f = nfiles (obs k)) as ->.
  { rewrite E1 in Hf. simpl in Hf. rewrite lookup_insert_eq in Hf. by simplify_eq. }
  assert (∀ g, (g < nfiles (obs k))%nat → sent (obs k2) g = sent (obs k) g ∧
    rcvd (obs k2) g = rcvd (obs k) g ∧ flags (obs k2) g = flags (obs k) g) as Hold2.
  { intros g Hg. rewrite E2, E1. simpl. split_and!; rewrite ?fn_lookup_insert_ne by lia; done. }
  assert (obs_wf (obs k2)) as Hw2 by (rewrite E2; by apply obs_setfl_wf).
  destruct (sys_connect _ _ _ k2) as [r k3] eqn:E3. apply connect_silent in E3.
  unfold silent in E3.
  assert (∀ st, st ≠ ConnectFailed → attempt st fd1 (obs k) (obs k3)) as Hopen.
  { intros st' Hst'. rewrite E3. split; [done| |by rewrite E2, E1|done|].
    - split; [rewrite E2, E1; simpl; lia|..]; intros g Hg; by apply Hold2.
    - intros _. exists (nfiles (obs k)). rewrite E2, E1. simpl. rewrite !fn_lookup_insert.
      split_and!; done || lia. }
  destruct r as [e|u]; [|intros [= <- <- <-]; by apply Hopen].
  destruct (_ || _); intros [= <- <- <-]; [by apply Hopen|].
  rewrite close_ok, E3. apply attempt_closed; try done; by rewrite E2, E1.
Qed.

Lemma attempt_frame st fd o o' : obs_wf o → attempt st fd o o' → frame (λ _, False) o o'.
Proof.
  intros Hw [Hw' [Hn Hs Hr Hf] Hregs Hfail Hopen]. split.
  2: { intros kq x d u. rewrite Hregs. intros Hu. split; [done|].
       destruct (decide (st = ConnectFailed)) as [Hst|Hst]; [by destruct (Hfail Hst) as [_ ->]|].
       destruct (Hopen Hst) as (g & _ & Hnone & _ & -> & _). apply lookup_insert_ne. intros <-.
       apply (ow_regs o Hw) in Hu. rewrite Hnone in Hu. by destruct Hu. }
  split; [done|done|..].
  - intros x f Hx _. destruct (decide (st = ConnectFailed)) as [Hst|Hst].
    + by destruct (Hfail Hst) as [_ ->].
    + destruct (Hopen Hst) as (g & _ & Hnone & _ & -> & _).
      rewrite lookup_insert_ne; [done|]. intros ->. by rewrite Hnone in Hx.
  - intros x f Hx. destruct (decide (st = ConnectFailed)) as [Hst|Hst].
    + left. by destruct (Hfail Hst) as [_ <-].
    + destruct (Hopen Hst) as (g & _ & Hnone & Hg & Ht & _). rewrite Ht in Hx.
      apply lookup_insert_Some in Hx as [[_ <-]|[_ ?]]; [right; lia|by left].
  - intros f Hlt _. by rewrite Hs, Hr, Hf.
  - intros. by rewrite Hregs.
Qed.

(** The two descriptors of a new pipe. *)
Record piped (r w : Z) (o o' : Obs) : Prop := {
  pi_read : 0 ≤ r;
  pi_write : 0 ≤ w;
  pi_ne : r ≠ w;
  pi_free : fdt o !! r = None ∧ fdt o !! w = None;
  pi_fdt : fdt o' = <[w := S (nfiles o)]> (<[r := nfiles o]> (fdt o));
  pi_empty : sent o' (S (nfiles o)) = [] ∧ rcvd o' (nfiles o) = []
}.

Lemma opened_pipe r w o fl :
  0 ≤ r → 0 ≤ w → r ≠ w → fdt o !! r = None → fdt o !! w = None →
  piped r w o (obs_setfl (nfiles o) fl (obs_open w (obs_open r o))) ∧
  piped r w o (obs_open w (obs_open r o)).
Proof.
  intros ? ? ? ? ?. split; (split; try done); simpl;
    rewrite fn_lookup_insert, fn_lookup_insert_ne, fn_lookup_insert by lia; done.
Qed.

(** [make_pipe] on two empty [Fd]s: either nothing was opened, or both ends were;
on success the read end is non-blocking. *)
Lemma make_pipe_spec k ok r w k' :
  obs_wf (obs k) → make_pipe (-1) (-1) k = (ok, r, w, k') →
  frame (λ _, False) (obs k) (obs k') ∧
  ((ok = false ∧ r = -1 ∧ w = -1 ∧ obs k' = obs k) ∨
   (piped r w (obs k) (obs k') ∧ (ok = true → Z.testbit (flags (obs k') (nfiles (obs k))) 2 = true))).
Proof.
  intros Hw. unfold make_pipe. destruct (sys_pipe k) as [[e|[r1 w1]] k1] eqn:E1.
  { intros [= <- <- <- <-]. apply pipe_err in E1 as [E1 _]. rewrite E1.
    split; [by apply frame_refl|by left]. }
  apply pipe_ok in E1 as (Hr & Hw1 & Hne & Hfr & Hfw & E1). unfold Fd_reset. simpl.
  assert (obs_wf (obs_open r1 (obs k))) as Hwr by by apply obs_open_wf.
  assert (fdt (obs_open r1 (obs k)) !! w1 = None) as Hfw' by (simpl; by rewrite lookup_insert_ne).
  assert (frame (λ _, False) (obs k) (obs k1)) as Hfra.
  { rewrite E1. apply (frame_trans _ (λ _, False) _ (obs_open r1 (obs k)));
      [done|by apply frame_open|by apply frame_open|done]. }
  destruct (set_nonblocking r1 k1) as [b k2] eqn:E2.
  apply set_nonblocking_spec in E2 as [[E2 ->]|(-> & f & fl & Hf & E2 & Hbit)];
    simpl; intros [= <- <- <- <-].
  - rewrite E2. split; [done|]. right. split; [|done]. rewrite E1.
    by apply opened_pipe.
  - rewrite E2. assert (f = nfiles (obs k)) as ->.
    { rewrite E1 in Hf. simpl in Hf. rewrite lookup_insert_ne, lookup_insert_eq in Hf by done. by simplify_eq. }
    split.
    + eapply frame_trans; [done|done|eapply frame_setfl, Hf; exact (fr_wf _ _ _ Hfra)|].
      intros fd g -> Hg. right. rewrite Hf in Hg. simplify_eq. lia.
    + right. split; [|intros _; simpl; by rewrite fn_lookup_insert]. rewrite E1.
      by apply opened_pipe.
Qed.

(** Closing both ends of a new pipe restores the descriptor table. *)
Lemma piped_closed r w o o' :
  piped r w o o' → fdt (obs_close r (obs_close w o')) = fdt o.
Proof.
  intros [_ _ Hne [Hr Hw] Ht _]. simpl. rewrite Ht.
  rewrite delete_insert_id by by rewrite lookup_insert_ne. by rewrite delete_insert_id.
Qed.
End spec.
