(* ===== verification/SocketSpec.v ===== *)
(** * Listening sockets and the descriptor limit ([socket.cpp]): what they guarantee

The calls [main] makes before it serves: raising the descriptor limit observes
nothing of the process, [listen_on] gives one new descriptor or leaves the table
as it was, and [open_fd_count] counts what it says it counts. *)
From S2P Require Import Prelude CppString Kernel Socket.

Section spec.
Context {K : Type} `{!Kernel K, !KernelLaws K}.

(** A descriptor was opened, or ([-1]) none. *)
Definition one_opened (fd : Z) (o o' : Obs) : Prop :=
  obs_wf o' ∧ regs o' = regs o ∧ old_files o o' ∧
  (fd = -1 ∧ fdt o' = fdt o ∨
   0 ≤ fd ∧ fdt o !! fd = None ∧ ∃ f, (nfiles o ≤ f)%nat ∧ fdt o' = <[fd := f]> (fdt o)).

(** Nothing observable happened before. *)
Lemma one_opened_after fd o1 o2 o3 :
  fdt o2 = fdt o1 → regs o2 = regs o1 → old_files o1 o2 → one_opened fd o2 o3 → one_opened fd o1 o3.
Proof.
  intros H1 H2 H3 (Hw & Hr & Ho & Hc). split; [done|]. split; [congruence|]. split; [by eapply old_files_trans|].
  rewrite H1 in Hc. destruct Hc as [?|(? & ? & f & ? & ?)]; [by left|right]. split_and!; try done.
  exists f. split; [|done]. destruct H3. lia.
Qed.

Lemma setsockopt_obs fd o (k : K) : obs (sys_setsockopt fd o k).2 = obs k.
Proof. destruct (sys_setsockopt fd o k) as [b k'] eqn:E. by apply setsockopt_silent in E. Qed.

Lemma listen_loop_spec ais backlog reuseport (k : K) fd k' :
  obs_wf (obs k) → listen_loop ais backlog reuseport k = (fd, k') → one_opened fd (obs k) (obs k').
Proof.
  revert k. induction ais as [|p ais IH]; intros k Hw; simpl.
  { intros [= <- <-]. split; [done|]. split; [done|]. split; [apply old_files_refl|by left]. }
  destruct (sys_socket _ _ _ k) as [[e|fd1] k1] eqn:E1.
  { apply socket_err in E1 as [E1 _]. unfold silent in E1. intros E. rewrite <-E1. apply IH; [by rewrite E1|done]. }
  apply socket_ok in E1 as (Hpos & Hn & E1).
  assert (∀ k2 : K, obs k2 = obs k1 →
    listen_loop ais backlog reuseport (sys_close fd1 k2) = (fd, k') → one_opened fd (obs k) (obs k')) as Hnext.
  { intros k2 E2 E3. pose proof (close_ok fd1 k2) as Hc. rewrite E2, E1 in Hc.
    apply (one_opened_after _ _ (obs (sys_close fd1 k2))).
    - rewrite Hc. by apply obs_close_open_fdt.
    - rewrite Hc. rewrite <-(obs_close_free_regs fd1 (obs k)) by done. done.
    - rewrite Hc. apply (old_files_trans _ (obs_open fd1 (obs k))); [apply obs_open_old|apply obs_close_old].
    - apply IH; [|done]. rewrite Hc. by apply obs_close_wf, obs_open_wf. }
  set (k2 := suppress_sigpipe fd1 _).
  assert (obs k2 = obs k1) as E2.
  { unfold k2. rewrite suppress_sigpipe_silent. destruct reuseport; by rewrite !setsockopt_obs. }
  clearbody k2. destruct (sys_bind fd1 _ _ k2) as [[e|u] k3] eqn:E3; apply bind_silent in E3; unfold silent in E3;
    [apply Hnext; congruence|].
  destruct (sys_listen fd1 backlog k3) as [[e|u'] k4] eqn:E4; apply listen_silent in E4; unfold silent in E4;
    [apply Hnext; congruence|].
  intros [= <- <-]. rewrite E4, E3, E2, E1. split; [by apply obs_open_wf|]. split; [done|]. split; [apply obs_open_old|].
  right. split_and!; try done. by exists (nfiles (obs k)).
Qed.

(** [listen_on] opens exactly the socket it returns; when it fails, whatever it
tried on the way is closed. *)
Lemma listen_on_spec host port backlog reuseport (k : K) fd k' :
  obs_wf (obs k) → listen_on host port backlog reuseport k = (fd, k') → one_opened fd (obs k) (obs k').
Proof.
  intros Hw. unfold listen_on. destruct (sys_getaddrinfo _ _ true k) as [[e|ais] k1] eqn:E1;
    apply getaddrinfo_silent in E1; unfold silent in E1; intros E; rewrite <-E1 in *.
  - injection E as <- <-. split; [done|]. split; [done|]. split; [apply old_files_refl|by left].
  - by eapply listen_loop_spec.
Qed.

Lemma fd_limit_current_silent (k : K) n k' : fd_limit_current k = (n, k') → silent k k'.
Proof. unfold fd_limit_current. destruct (sys_getrlimit k) as [[[cur max]|] k1] eqn:E; apply getrlimit_silent in E; by intros [= <- <-]. Qed.

Lemma fd_limit_raise_silent desired (k : K) n k' : fd_limit_raise desired k = (n, k') → silent k k'.
Proof.
  unfold fd_limit_raise. destruct (sys_getrlimit k) as [[[cur max]|] k1] eqn:E; apply getrlimit_silent in E; [|by intros [= <- <-]].
  cbv zeta. destruct (_ <=? cur); [by intros [= <- <-]|].
  destruct (sys_setrlimit _ k1) as [[] k2] eqn:E2; apply setrlimit_silent in E2.
  - intros E3%fd_limit_current_silent. eapply silent_trans, E3. by eapply silent_trans.
  - intros [= <- <-]. by eapply silent_trans.
Qed.

(** The descriptors below [limit] that are open. *)
Definition open_below (start limit : Z) (o : Obs) : list Z :=
  filter (λ fd, is_Some (fdt o !! fd)) (seqZ start limit).

Lemma count_open_spec n fd count (k : K) r k' :
  count_open n fd count k = (r, k') → silent k k' ∧ r = count + zlen (open_below fd (Z.of_nat n) (obs k)).
Proof.
  revert fd count k. induction n as [|n IH]; intros fd count k; simpl.
  { intros [= <- <-]. split; [done|]. unfold open_below, zlen. simpl. lia. }
  destruct (sys_getfd fd k) as [b k1] eqn:E. apply getfd_ok in E as [Hs ->].
  intros [Hs' ->]%IH. split; [by eapply silent_trans|]. unfold silent in Hs. rewrite Hs.
  unfold open_below. rewrite (seqZ_cons fd) by lia. replace (Z.pred _) with (Z.of_nat n) by lia.
  rewrite filter_cons. unfold zlen. destruct (decide (is_Some (fdt (obs k) !! fd))) as [Ho|Ho].
  - rewrite bool_decide_eq_true_2, length_cons by done. rewrite <-Z.add_1_r. lia.
  - rewrite bool_decide_eq_false_2 by done. rewrite <-Z.add_1_r. lia.
Qed.

(** [open_fd_count] observes only, and counts the open descriptors below the
limit, when the limit fits an [int]. *)
Lemma open_fd_count_spec (k : K) c k' :
  open_fd_count k = (c, k') →
  silent k k' ∧ ∃ limit k1, fd_limit_current k = (limit, k1) ∧
    (0 ≤ limit ≤ INT_MAX → c = Some (zlen (open_below 0 limit (obs k)))).
Proof.
  unfold open_fd_count. destruct (fd_limit_current k) as [limit k1] eqn:E. pose proof (fd_limit_current_silent _ _ _ E) as Hs.
  destruct (Z.ltb_spec limit 0).
  { intros [= <- <-]. split; [done|]. exists limit, k1. split; [done|]. lia. }
  destruct (Z.ltb_spec INT_MAX limit).
  { intros [= <- <-]. split; [done|]. exists limit, k1. split; [done|]. lia. }
  destruct (count_open _ _ _ _) as [n k2] eqn:E2. intros [= <- <-]. apply count_open_spec in E2 as [Hs2 ->].
  split; [by eapply silent_trans|]. exists limit, k1. split; [done|]. intros _. unfold silent in Hs. rewrite Hs.
  rewrite Z2Nat.id by lia. by rewrite Z.add_0_l.
Qed.
End spec.
