(* ===== verification/Resolver.v ===== *)
(** * The resolver ([resolver.hpp], [resolver.cpp])

The DNS cache, the job queue and the threads that serve it.  A
[shared_ptr<ResolveJob>] is the job's number in [jobs], the heap of the jobs
that are still referenced; [refs] is its use count, and the release of the
last reference closes the two pipe ends.  Each iteration of [worker_loop] is
cut into the steps other threads can observe: taking the job under the queue
lock, the lookup, filling the fields, the cache store, the release store of
[ready], the wakeup byte, the closing of the write end, and the end of the
scope.  A system of workers and clients then interleaves such steps.  The
[err] strings are only logged and are left out. *)
From S2P Require Import Prelude CppString Kernel Socket.

(** ** Data *)

Record ResolveJob := mkJob {
  j_endpoints : list Endpoint;
  j_ok : bool;
  j_ready : bool;
  read_end : Z;
  write_end : Z;
  j_host : str;
  j_port : str;
  refs : nat
}.

Inductive ResolveStatus := Hit | Pending | Failed.

#[export] Instance ResolveStatus_eq_dec : EqDecision ResolveStatus.
Proof. solve_decision. Defined.

Record CacheEntry := mkCacheEntry { ce_endpoints : list Endpoint; expires : Z }.

Record Resolver := mkResolver {
  queue_ : list nat;
  closed_ : bool;
  cache_ : gmap str CacheEntry;
  cache_ttl_s_ : Z;
  inject_delay_ms_ : Z;
  cache_hits_ : Z;
  lookups_ : Z;
  jobs : gmap nat ResolveJob;
  next_job : nat
}.

(** The constructor; the threads are the workers of the system below. *)
Definition Resolver_new (cache_ttl_s inject_delay_ms : Z) : Resolver :=
  mkResolver [] false ∅ cache_ttl_s inject_delay_ms 0 0 ∅ 0.

Definition set_queue (q : list nat) (r : Resolver) : Resolver :=
  mkResolver q (closed_ r) (cache_ r) (cache_ttl_s_ r) (inject_delay_ms_ r) (cache_hits_ r)
    (lookups_ r) (jobs r) (next_job r).
Definition set_closed (r : Resolver) : Resolver :=
  mkResolver (queue_ r) true (cache_ r) (cache_ttl_s_ r) (inject_delay_ms_ r) (cache_hits_ r)
    (lookups_ r) (jobs r) (next_job r).
Definition set_cache (c : gmap str CacheEntry) (r : Resolver) : Resolver :=
  mkResolver (queue_ r) (closed_ r) c (cache_ttl_s_ r) (inject_delay_ms_ r) (cache_hits_ r)
    (lookups_ r) (jobs r) (next_job r).
Definition count_cache_hit (r : Resolver) : Resolver :=
  mkResolver (queue_ r) (closed_ r) (cache_ r) (cache_ttl_s_ r) (inject_delay_ms_ r)
    (wrap64 (cache_hits_ r + 1)) (lookups_ r) (jobs r) (next_job r).
Definition count_lookup (r : Resolver) : Resolver :=
  mkResolver (queue_ r) (closed_ r) (cache_ r) (cache_ttl_s_ r) (inject_delay_ms_ r)
    (cache_hits_ r) (wrap64 (lookups_ r + 1)) (jobs r) (next_job r).
Definition set_jobs (js : gmap nat ResolveJob) (r : Resolver) : Resolver :=
  mkResolver (queue_ r) (closed_ r) (cache_ r) (cache_ttl_s_ r) (inject_delay_ms_ r) (cache_hits_ r)
    (lookups_ r) js (next_job r).
Definition alloc_job (jb : ResolveJob) (r : Resolver) : Resolver :=
  mkResolver (queue_ r) (closed_ r) (cache_ r) (cache_ttl_s_ r) (inject_delay_ms_ r) (cache_hits_ r)
    (lookups_ r) (<[next_job r := jb]> (jobs r)) (S (next_job r)).

Definition job_new (host port : str) : ResolveJob := mkJob [] false false (-1) (-1) host port 1.
Definition set_ends (r w : Z) (jb : ResolveJob) : ResolveJob :=
  mkJob (j_endpoints jb) (j_ok jb) (j_ready jb) r w (j_host jb) (j_port jb) (refs jb).
Definition set_refs (n : nat) (jb : ResolveJob) : ResolveJob :=
  mkJob (j_endpoints jb) (j_ok jb) (j_ready jb) (read_end jb) (write_end jb) (j_host jb) (j_port jb) n.
Definition set_result (eps : list Endpoint) (ok : bool) (jb : ResolveJob) : ResolveJob :=
  mkJob eps ok (j_ready jb) (read_end jb) (write_end jb) (j_host jb) (j_port jb) (refs jb).
Definition set_ready (jb : ResolveJob) : ResolveJob :=
  mkJob (j_endpoints jb) (j_ok jb) true (read_end jb) (write_end jb) (j_host jb) (j_port jb) (refs jb).

Definition dns_key (host port : str) : str := host ++ lit ":" ++ port.

Section resolver.
Context {K : Type} `{!Kernel K}.

(** ** References to a job *)

(** [~ResolveJob]: members go in reverse order of declaration. *)
Definition close_job (jb : ResolveJob) (k : K) : K :=
  let '(_, k) := Fd_reset (write_end jb) (-1) k in
  let '(_, k) := Fd_reset (read_end jb) (-1) k in k.

(** One [shared_ptr] to job [j] goes away. *)
Definition drop_job (j : nat) (r : Resolver) (k : K) : Resolver * K :=
  match jobs r !! j with
  | None => (r, k)
  | Some jb =>
      if bool_decide (refs jb ≤ 1)%nat then (set_jobs (delete j (jobs r)) r, close_job jb k)
      else (set_jobs (<[j := set_refs (refs jb - 1) jb]> (jobs r)) r, k)
  end.

Definition drop_ptr (p : option nat) (r : Resolver) (k : K) : Resolver * K :=
  match p with Some j => drop_job j r k | None => (r, k) end.

(** ** Lookups and the DNS cache *)

Definition do_lookup (host port : str) (out : list Endpoint) (r : Resolver) (k : K) :
    (bool * list Endpoint) * Resolver * K :=
  let k := if 0 <? inject_delay_ms_ r then sys_sleep (inject_delay_ms_ r) k else k in
  let r := count_lookup r in
  let '(res, k) := resolve host port out k in (res, r, k).

Definition cache_get (key : str) (out : list Endpoint) (r : Resolver) (k : K) :
    (bool * list Endpoint) * Resolver * K :=
  match cache_ r !! key with
  | None => ((false, out), r, k)
  | Some e =>
      let '(now, k) := sys_now k in
      if expires e <=? now then ((false, out), set_cache (delete key (cache_ r)) r, k)
      else ((true, ce_endpoints e), r, k)
  end.

Definition cache_put (key : str) (eps : list Endpoint) (r : Resolver) (k : K) : Resolver * K :=
  if cache_ttl_s_ r <=? 0 then (r, k) else
  let '(now, k) := sys_now k in
  (set_cache (<[key := mkCacheEntry eps (now + cache_ttl_s_ r * 1000000000)]> (cache_ r)) r, k).

Definition resolve_blocking (host port : str) (out : list Endpoint) (r : Resolver) (k : K) :
    (bool * list Endpoint) * Resolver * K :=
  let key := dns_key host port in
  let '((hit, out), r, k) := cache_get key out r k in
  if hit then ((true, out), count_cache_hit r, k) else
  let '((ok, out), r, k) := do_lookup host port out r k in
  if negb ok then ((false, out), r, k) else
  let '(r, k) := cache_put key out r k in ((true, out), r, k).

(** ** Asynchronous lookups *)

(** (status, [out], [job], resolver, kernel).  The new job has two references when it
is queued: the queue's and [job]'s. *)
Definition start (host port : str) (out : list Endpoint) (job : option nat) (r : Resolver) (k : K) :
    ResolveStatus * list Endpoint * option nat * Resolver * K :=
  let key := dns_key host port in
  let '((hit, out), r, k) := cache_get key out r k in
  if hit then (Hit, out, job, count_cache_hit r, k) else
  let j := job_new host port in
  let '(ok, re, we, k) := make_pipe (read_end j) (write_end j) k in
  let j := set_ends re we j in
  if negb ok then (Failed, out, job, r, close_job j k) else
  if closed_ r then (Failed, out, job, r, close_job j k) else
  let id := next_job r in
  let r := alloc_job (set_refs 2 j) r in
  let r := set_queue (queue_ r ++ [id]) r in
  let '(r, k) := drop_ptr job r k in
  (Pending, out, Some id, r, k).

(** The first part of [shutdown]; joining the threads is waiting for every worker
to reach [Exited]. *)
Definition shutdown (r : Resolver) : Resolver := if closed_ r then r else set_closed r.

(** ** The resolver threads *)

Inductive WorkerPc :=
| Waiting
| Taken (j : nat)
| Looked (j : nat) (ok : bool) (eps : list Endpoint)
| Published (j : nat) (ok : bool)
| Stored (j : nat)
| Readied (j : nat)
| Signalled (j : nat)
| Finished (j : nat)
| Exited.

Definition upd_job (j : nat) (jb : ResolveJob) (r : Resolver) : Resolver :=
  set_jobs (<[j := jb]> (jobs r)) r.

(** One step of a worker; [None] while it waits for the condition variable (and after
it has returned). *)
Definition worker_step (pc : WorkerPc) (r : Resolver) (k : K) : option (WorkerPc * Resolver * K) :=
  match pc with
  | Waiting =>
      match queue_ r with
      | [] => if closed_ r then Some (Exited, r, k) else None
      | j :: q => Some (Taken j, set_queue q r, k)
      end
  | Taken j =>
      jb ← jobs r !! j;
      let '((ok, eps), r, k) := do_lookup (j_host jb) (j_port jb) [] r k in
      Some (Looked j ok eps, r, k)
  | Looked j ok eps =>
      jb ← jobs r !! j; Some (Published j ok, upd_job j (set_result eps ok jb) r, k)
  | Published j ok =>
      jb ← jobs r !! j;
      let '(r, k) := if ok then cache_put (dns_key (j_host jb) (j_port jb)) (j_endpoints jb) r k
                     else (r, k) in
      Some (Stored j, r, k)
  | Stored j =>
      jb ← jobs r !! j; Some (Readied j, upd_job j (set_ready jb) r, k)
  | Readied j =>
      jb ← jobs r !! j;
      let '(_, k) := sys_write (write_end jb) ["001"%char] k in Some (Signalled j, r, k)
  | Signalled j =>
      jb ← jobs r !! j;
      let '(we, k) := Fd_reset (write_end jb) (-1) k in
      Some (Finished j, upd_job j (set_ends (read_end jb) we jb) r, k)
  | Finished j => let '(r, k) := drop_job j r k in Some (Waiting, r, k)
  | Exited => None
  end.
End resolver.

(** ** Workers and clients together *)

(** The threads, the resolver, the jobs some client still holds, and the kernel. *)
Record RSys (K : Type) := mkRSys {
  rs_workers : list WorkerPc;
  rs_res : Resolver;
  rs_held : gset nat;
  rs_kern : K
}.
Arguments mkRSys {K} _ _ _ _.
Arguments rs_workers {K} _.
Arguments rs_res {K} _.
Arguments rs_held {K} _.
Arguments rs_kern {K} _.

Definition pc_job (pc : WorkerPc) : option nat :=
  match pc with
  | Waiting | Exited => None
  | Taken j | Looked j _ _ | Published j _ | Stored j | Readied j | Signalled j | Finished j => Some j
  end.

(** The jobs a resolver thread has a reference to or will get one from the queue. *)
Definition pending (ws : list WorkerPc) (r : Resolver) : list nat := queue_ r ++ omap pc_job ws.

Section system.
Context {K : Type} `{!Kernel K}.

Inductive rstep : RSys K → RSys K → Prop :=
| rs_work a pc b r h k pc' r' k' :
    worker_step pc r k = Some (pc', r', k') →
    rstep (mkRSys (a ++ pc :: b) r h k) (mkRSys (a ++ pc' :: b) r' h k')
| rs_start_pending ws r h k host port out out' j r' k' :
    start host port out None r k = (Pending, out', Some j, r', k') →
    rstep (mkRSys ws r h k) (mkRSys ws r' ({[j]} ∪ h) k')
| rs_start_other ws r h k host port out st out' job r' k' :
    st ≠ Pending → start host port out None r k = (st, out', job, r', k') →
    rstep (mkRSys ws r h k) (mkRSys ws r' h k')
| rs_blocking ws r h k host port out res r' k' :
    resolve_blocking host port out r k = (res, r', k') →
    rstep (mkRSys ws r h k) (mkRSys ws r' h k')
| rs_release ws r h k j r' k' :
    j ∈ h → drop_job j r k = (r', k') →
    rstep (mkRSys ws r h k) (mkRSys ws r' (h ∖ {[j]}) k')
| rs_collect ws r h k j jb r' k' :
    j ∈ h → jobs r !! j = Some jb → j_ready jb = true →
    drop_job j (upd_job j (set_result [] (j_ok jb) jb) r) k = (r', k') →
    rstep (mkRSys ws r h k) (mkRSys ws r' (h ∖ {[j]}) k')
| rs_shutdown ws r h k : rstep (mkRSys ws r h k) (mkRSys ws (shutdown r) h k)
| rs_env ws r h k k' : rstep (mkRSys ws r h k) (mkRSys ws r h k').

Definition rinit (threads : nat) (ttl delay : Z) (k : K) : RSys K :=
  mkRSys (replicate threads Waiting) (Resolver_new ttl delay) ∅ k.

Definition rreach (threads : nat) (ttl delay : Z) (s : RSys K) : Prop :=
  ∃ k, rtc rstep (rinit threads ttl delay k) s.
End system.

(** ** The invariant *)

Definition filled (jb : ResolveJob) : Prop := j_ok jb = true → j_endpoints jb ≠ [].

(** What a worker knows of its job at each point. *)
Definition pc_ok (r : Resolver) (pc : WorkerPc) : Prop :=
  match pc with
  | Waiting | Exited => True
  | Taken j => ∃ jb, jobs r !! j = Some jb ∧ j_ready jb = false
  | Looked j ok eps => ∃ jb, jobs r !! j = Some jb ∧ j_ready jb = false ∧ (ok = true → eps ≠ [])
  | Published j ok => ∃ jb, jobs r !! j = Some jb ∧ j_ready jb = false ∧ j_ok jb = ok ∧ filled jb
  | Stored j => ∃ jb, jobs r !! j = Some jb ∧ j_ready jb = false ∧ filled jb
  | Readied j | Signalled j | Finished j => ∃ jb, jobs r !! j = Some jb ∧ j_ready jb = true
  end.

Definition count_if (P : Prop) `{Decision P} : nat := if decide P then 1 else 0.

Record rinv {K} (s : RSys K) : Prop := {
  ri_nodup : NoDup (pending (rs_workers s) (rs_res s));
  ri_queue : Forall (λ j, ∃ jb, jobs (rs_res s) !! j = Some jb ∧ j_ready jb = false) (queue_ (rs_res s));
  ri_workers : Forall (pc_ok (rs_res s)) (rs_workers s);
  ri_held j : j ∈ rs_held s → ∃ jb, jobs (rs_res s) !! j = Some jb ∧ (j_ready jb = true → filled jb);
  ri_refs j jb : jobs (rs_res s) !! j = Some jb →
    refs jb = (count_if (j ∈ pending (rs_workers s) (rs_res s)) + count_if (j ∈ rs_held s))%nat ∧
    (j ∉ pending (rs_workers s) (rs_res s) → j_ready jb = true) ∧ (j < next_job (rs_res s))%nat;
  ri_cache key e : cache_ (rs_res s) !! key = Some e → ce_endpoints e ≠ [];
  ri_live j : is_Some (jobs (rs_res s) !! j) → j ∈ pending (rs_workers s) (rs_res s) ∨ j ∈ rs_held s
}.

Section invariant.
Context {K : Type} `{!Kernel K}.

(** Everything but the DNS cache and the counters is the same. *)
Definition same_jobs (r r' : Resolver) : Prop :=
  queue_ r' = queue_ r ∧ jobs r' = jobs r ∧ next_job r' = next_job r ∧ closed_ r' = closed_ r ∧
  cache_ttl_s_ r' = cache_ttl_s_ r.

(** Nothing but successful answers is in the DNS cache. *)
Definition cache_filled (r : Resolver) : Prop :=
  ∀ key e, cache_ r !! key = Some e → ce_endpoints e ≠ [].

Lemma resolve_filled host port out (k : K) ok eps k' :
  resolve host port out k = ((ok, eps), k') → ok = true → eps ≠ [].
Proof.
  unfold resolve. destruct (sys_getaddrinfo _ _ _ _) as [[e|ais] k1]; intros [= <- <- <-]; [done|].
  by case_bool_decide.
Qed.

Lemma do_lookup_spec host port out r (k : K) ok eps r' k' :
  do_lookup host port out r k = ((ok, eps), r', k') →
  (ok = true → eps ≠ []) ∧ r' = count_lookup r.
Proof.
  unfold do_lookup. destruct (resolve _ _ _ _) as [[ok1 eps1] k1] eqn:E. intros [= <- <- <- <-].
  split; [by eapply resolve_filled|done].
Qed.

Lemma cache_get_spec key out r (k : K) hit eps r' k' :
  cache_get key out r k = ((hit, eps), r', k') →
  same_jobs r r' ∧ cache_ r' ⊆ cache_ r ∧ (hit = false → eps = out) ∧
  (hit = true → r' = r ∧ ∃ e, cache_ r !! key = Some e ∧ eps = ce_endpoints e).
Proof.
  unfold cache_get. destruct (cache_ r !! key) as [e|] eqn:Hk; [|by intros [= <- <- <- <-]].
  destruct (sys_now k) as [now k1]. destruct (expires e <=? now); intros [= <- <- <- <-].
  - split; [done|]. split; [apply delete_subseteq|done].
  - split; [done|]. split; [done|]. split; [done|eauto].
Qed.

Lemma cache_put_spec key eps r (k : K) r' k' :
  cache_put key eps r k = (r', k') →
  same_jobs r r' ∧ ∀ key' e, cache_ r' !! key' = Some e → cache_ r !! key' = Some e ∨ ce_endpoints e = eps.
Proof.
  unfold cache_put. destruct (_ <=? 0); [intros [= <- <-]; split; [done|]; by left|].
  destruct (sys_now k) as [now k1]. intros [= <- <-]. split; [done|]. simpl.
  intros key' e [[_ <-]|[_ ?]]%lookup_insert_Some; [by right|by left].
Qed.

Lemma resolve_blocking_spec host port out r (k : K) ok eps r' k' :
  cache_filled r → resolve_blocking host port out r k = ((ok, eps), r', k') →
  same_jobs r r' ∧ cache_filled r' ∧ (ok = true → eps ≠ []).
Proof.
  unfold resolve_blocking, same_jobs. intros Hc.
  destruct (cache_get _ _ _ _) as [[[hit eps1] r1] k1] eqn:E1.
  apply cache_get_spec in E1 as (Hs1 & Hsub & Hmiss & Hhit). destruct hit; simpl.
  - intros [= <- <- <- <-]. destruct Hhit as (-> & e & He & ->); [done|]. split; [done|].
    split; [done|]. intros _. by eapply Hc.
  - destruct (do_lookup _ _ _ _ _) as [[[ok2 eps2] r2] k2] eqn:E2.
    apply do_lookup_spec in E2 as [Hf ->]. destruct Hs1 as (? & ? & ? & ? & ?).
    assert (cache_filled r1) as Hc1 by (intros key e He; eapply Hc, lookup_weaken, Hsub; done).
    destruct ok2; simpl; [|by intros [= <- <- <- <-]].
    destruct (cache_put _ _ _ _) as [r3 k3] eqn:E3. intros [= <- <- <- <-].
    apply cache_put_spec in E3 as [(? & ? & ? & ? & ?) Hput]. split; [simpl in *; split_and!; congruence|].
    split; [|done]. intros key e [He| ->]%Hput; [by eapply Hc1|by apply Hf].
Qed.

Lemma pc_ok_same r r' pc : jobs r' = jobs r → pc_ok r pc → pc_ok r' pc.
Proof. intros H. destruct pc; simpl; by rewrite ?H. Qed.

Lemma all_ok_same r r' ws : jobs r' = jobs r → Forall (pc_ok r) ws → Forall (pc_ok r') ws.
Proof. intros H Hws. eapply Forall_impl; [exact Hws|]. intros pc. by apply pc_ok_same. Qed.

Lemma rinv_same ws r r' h (k k' : K) :
  queue_ r' = queue_ r → jobs r' = jobs r → next_job r' = next_job r → cache_filled r' →
  rinv (mkRSys ws r h k) → rinv (mkRSys ws r' h k').
Proof.
  intros Hq Hj Hn Hc [I1 I2 I3 I4 I5 I6]. unfold pending in *. simpl in *.
  split; unfold pending; simpl; rewrite ?Hq, ?Hj, ?Hn; try done.
  by apply (all_ok_same r).
Qed.

(** Changing job [j] leaves what is known of the other jobs. *)
Lemma pc_ok_upd r r' j pc :
  pc_job pc ≠ Some j → (∀ i, i ≠ j → jobs r' !! i = jobs r !! i) → pc_ok r pc → pc_ok r' pc.
Proof. intros Hne H. destruct pc; simpl in *; try done; rewrite H by congruence; done. Qed.

Lemma others_ok r r' j ws :
  j ∉ omap pc_job ws → (∀ i, i ≠ j → jobs r' !! i = jobs r !! i) →
  Forall (pc_ok r) ws → Forall (pc_ok r') ws.
Proof.
  intros Hn H. rewrite !Forall_forall. intros Hall pc Hpc. eapply pc_ok_upd; [|done|by apply Hall].
  intros Heq. apply Hn. apply list_elem_of_omap. eauto.
Qed.

Lemma pending_app a b r : pending (a ++ b) r = queue_ r ++ omap pc_job a ++ omap pc_job b.
Proof. unfold pending. by rewrite omap_app. Qed.

Lemma pending_at a pc j b r :
  pc_job pc = Some j → pending (a ++ pc :: b) r = queue_ r ++ omap pc_job a ++ j :: omap pc_job b.
Proof. intros H. rewrite pending_app. simpl. by rewrite H. Qed.

Lemma pending_idle a pc b r :
  pc_job pc = None → pending (a ++ pc :: b) r = queue_ r ++ omap pc_job a ++ omap pc_job b.
Proof. intros H. rewrite pending_app. simpl. by rewrite H. Qed.

(** A worker that keeps its job [j] and rewrites it to [jb']. *)
Lemma rinv_upd a pc pc' b r r' h (k k' : K) j jb jb' :
  rinv (mkRSys (a ++ pc :: b) r h k) →
  pc_job pc = Some j → pc_job pc' = Some j → jobs r !! j = Some jb → refs jb' = refs jb →
  queue_ r' = queue_ r → jobs r' = <[j := jb']> (jobs r) → next_job r' = next_job r →
  cache_filled r' → pc_ok r' pc' → (j ∈ h → j_ready jb' = true → filled jb') →
  rinv (mkRSys (a ++ pc' :: b) r' h k').
Proof.
  intros [I1 I2 I3 I4 I5 I6 I7] Hpc Hpc' Hj Hrefs Hq Hjobs Hn Hc Hok Hh. simpl in *.
  assert (∀ i, i ≠ j → jobs r' !! i = jobs r !! i) as Hne.
  { intros i Hi. by rewrite Hjobs, lookup_insert_ne. }
  rewrite (pending_at _ _ j) in I1, I5 by done. apply Forall_app in I3 as [I3a [_ I3b]%Forall_cons].
  assert (j ∉ queue_ r ∧ j ∉ omap pc_job a ∧ j ∉ omap pc_job b) as (Hjq & Hja & Hjb).
  { rewrite !NoDup_app, NoDup_cons in I1. set_solver. }
  split; simpl; rewrite ?(pending_at _ _ j), ?Hq by done; try done.
  - rewrite Forall_forall in *. intros i Hi. rewrite Hne by (intros ->; done). auto.
  - apply Forall_app. split; [by eapply others_ok|]. constructor; [done|by eapply others_ok].
  - intros i Hi. destruct (decide (i = j)) as [->|]; [|rewrite Hne by done; auto].
    rewrite Hjobs, lookup_insert_eq. eauto.
  - intros i ib Hi. rewrite Hn. destruct (decide (i = j)) as [->|]; [|rewrite Hne in Hi by done; auto].
    rewrite Hjobs, lookup_insert_eq in Hi. simplify_eq. destruct (I5 _ _ Hj) as (Hr & _ & Hlt).
    split; [by rewrite Hrefs|]. split; [set_solver|done].
  - intros i Hi. destruct (decide (i = j)) as [->|]; [left; set_solver|]. rewrite Hne in Hi by done.
    rewrite (pending_at _ _ j) in I7 by done. auto.
Qed.

Lemma drop_job_spec j r (k : K) r' k' jb :
  jobs r !! j = Some jb → drop_job j r k = (r', k') →
  queue_ r' = queue_ r ∧ next_job r' = next_job r ∧ cache_ r' = cache_ r ∧ closed_ r' = closed_ r ∧
  jobs r' = (if decide (refs jb ≤ 1)%nat then delete j (jobs r)
             else <[j := set_refs (refs jb - 1) jb]> (jobs r)).
Proof.
  intros Hj. unfold drop_job. rewrite Hj. case_bool_decide; intros [= <- <-];
    [rewrite decide_True by done|rewrite decide_False by done]; done.
Qed.

Lemma count_if_cases (P : Prop) `{Decision P} : (P ∧ count_if P = 1%nat) ∨ (¬ P ∧ count_if P = 0%nat).
Proof. unfold count_if. case_decide; auto. Qed.

Lemma count_if_iff (P Q : Prop) `{Decision P, Decision Q} : (P ↔ Q) → count_if P = count_if Q.
Proof. unfold count_if. intros HPQ. do 2 case_decide; tauto. Qed.

(** Taking one reference away, be it a client's or a worker's. *)
Lemma refs_drop (j : nat) (js : gmap nat ResolveJob) jb (p p' h h' : Prop)
    `{Decision p, Decision p', Decision h, Decision h'} :
  js !! j = Some jb → refs jb = (count_if p + count_if h)%nat →
  (count_if p + count_if h = S (count_if p' + count_if h'))%nat →
  let js' := if decide (refs jb ≤ 1)%nat then delete j js
             else <[j := set_refs (refs jb - 1) jb]> js in
  (p' ∨ h' → js' !! j = Some (set_refs (count_if p' + count_if h') jb)) ∧
  (∀ jb', js' !! j = Some jb' → jb' = set_refs (count_if p' + count_if h') jb ∧ (p' ∨ h')) ∧
  ∀ i, i ≠ j → js' !! i = js !! i.
Proof.
  intros Hj Hr Hc js'. subst js'.
  destruct (count_if_cases p') as [[? Hp]|[? Hp]], (count_if_cases h') as [[? Hh]|[? Hh]];
    rewrite Hp, Hh in *; simpl in *.
  1-3: rewrite decide_False by lia; rewrite lookup_insert_eq, Hr, Hc; simpl;
    (split; [done|]); (split; [|intros i Hi; by rewrite lookup_insert_ne]); intros ? [= <-]; auto.
  rewrite decide_True by lia. rewrite lookup_delete_eq. split; [tauto|].
  split; [done|]. intros i Hi. by rewrite lookup_delete_ne.
Qed.

(** A client lets go of its job, having read it or not. *)
Lemma rinv_release ws r r1 h (k k' : K) j jb jb1 r' :
  rinv (mkRSys ws r h k) → j ∈ h → jobs r !! j = Some jb →
  jb1 = jb ∨ (j_ready jb = true ∧ jb1 = set_result [] (j_ok jb) jb) →
  r1 = upd_job j jb1 r → drop_job j r1 k = (r', k') →
  rinv (mkRSys ws r' (h ∖ {[j]}) k').
Proof.
  intros [I1 I2 I3 I4 I5 I6 I7] Hjh Hj Hjb1 -> Hdrop. simpl in *.
  assert (refs jb1 = refs jb ∧ j_ready jb1 = j_ready jb) as [Hrefs1 Hready1] by (destruct Hjb1 as [->|[_ ->]]; done).
  apply (drop_job_spec _ _ _ _ _ jb1) in Hdrop as (Hq & Hn & Hc & _ & Hjs);
    [|unfold upd_job; simpl; by rewrite lookup_insert_eq].
  simpl in *. destruct (I5 _ _ Hj) as (Hr & Hnp & Hlt).
  destruct (refs_drop j (<[j:=jb1]> (jobs r)) jb1 (j ∈ pending ws r) (j ∈ pending ws r) (j ∈ h) (j ∈ h ∖ {[j]}))
    as (Hkeep & Hgone & Hne).
  { by rewrite lookup_insert_eq. }
  { by rewrite Hrefs1. }
  { destruct (count_if_cases (j ∈ h)) as [[_ ->]|[? _]]; [|done].
    destruct (count_if_cases (j ∈ h ∖ {[j]})) as [[? _]|[_ ->]]; [set_solver|lia]. }
  rewrite <-Hjs in Hkeep, Hgone, Hne.
  assert (∀ i, i ≠ j → jobs r' !! i = jobs r !! i) as Hother.
  { intros i Hi. by rewrite Hne, lookup_insert_ne. }
  assert (∀ i ib, i ∈ pending ws r → jobs r !! i = Some ib →
    ∃ ib', jobs r' !! i = Some ib' ∧ j_ready ib' = j_ready ib ∧
      (ib' = set_refs (refs ib') ib ∨ j_ready ib = true)) as Hpend.
  { intros i ib Hi Hib. destruct (decide (i = j)) as [->|Hij].
    - rewrite Hkeep by auto. simplify_eq. eexists. split; [done|]. simpl. split; [done|].
      destruct Hjb1 as [->|[? ->]]; [by left|by right].
    - rewrite Hother by done. exists ib. split; [done|]. split; [done|]. left. by destruct ib. }
  unfold pending in *. split; unfold pending; simpl; rewrite ?Hq; try done.
  - rewrite Forall_forall in *. intros i Hi. destruct (I2 i Hi) as (ib & Hib & Hrd).
    destruct (Hpend i ib) as (ib' & -> & ? & _); [set_solver|done|]. eexists; split; [done|congruence].
  - rewrite Forall_forall in *. intros pc Hpc. specialize (I3 pc Hpc).
    assert (∀ i, pc_job pc = Some i → i ∈ queue_ r ++ omap pc_job ws) as Hin.
    { intros i Hi. apply elem_of_app. right. apply list_elem_of_omap. eauto. }
    destruct pc as [|i|i ok eps|i ok|i|i|i|i|]; simpl in *; try done;
      destruct I3 as (ib & Hib & Hrest); destruct (Hpend i ib) as (ib' & -> & Hrd & Hsame); eauto;
      exists ib'; (split; [done|]); rewrite Hrd; try done;
      (destruct Hsame as [->|?]; [done|]); destruct Hrest; congruence.
  - intros i [Hi Hij]%elem_of_difference. rewrite Hother by set_solver. auto.
  - intros i ib. rewrite Hn. destruct (decide (i = j)) as [->|Hij].
    + intros [-> Hin]%Hgone. simpl. split; [done|]. rewrite Hready1. auto.
    + rewrite Hother by done. intros Hib. destruct (I5 _ _ Hib) as (-> & Hrest). split; [|done].
      f_equal. apply count_if_iff. set_solver.
  - intros key e. rewrite Hc. apply I6.
  - intros i [ib Hib]. destruct (decide (i = j)) as [->|Hij]; [by apply Hgone in Hib as [_ ?]|].
    rewrite Hother in Hib by done. destruct (I7 i) as [?|?]; [by eexists|by left|right; set_solver].
Qed.

(** A worker drops its reference at the end of an iteration. *)
Lemma rinv_finished a b r h (k k' : K) j r' :
  rinv (mkRSys (a ++ Finished j :: b) r h k) → drop_job j r k = (r', k') →
  rinv (mkRSys (a ++ Waiting :: b) r' h k').
Proof.
  intros [I1 I2 I3 I4 I5 I6 I7] Hdrop. simpl in *.
  rewrite (pending_at _ _ j) in I1, I5 by done.
  apply Forall_app in I3 as [I3a [(jb & Hj & Hrd) I3b]%Forall_cons].
  assert (j ∉ queue_ r ∧ j ∉ omap pc_job a ∧ j ∉ omap pc_job b) as (Hjq & Hja & Hjb).
  { rewrite !NoDup_app, NoDup_cons in I1. set_solver. }
  apply (drop_job_spec _ _ _ _ _ jb) in Hdrop as (Hq & Hn & Hc & _ & Hjs); [|done].
  destruct (I5 _ _ Hj) as (Hr & _ & Hlt).
  destruct (refs_drop j (jobs r) jb (j ∈ queue_ r ++ omap pc_job a ++ j :: omap pc_job b) False (j ∈ h) (j ∈ h))
    as (Hkeep & Hgone & Hne); [done|done| |].
  { destruct (count_if_cases (j ∈ queue_ r ++ omap pc_job a ++ j :: omap pc_job b)) as [[_ ->]|[? _]];
      [|set_solver]. by destruct (count_if_cases False) as [[? _]|[_ ->]]. }
  rewrite <-Hjs in Hkeep, Hgone, Hne.
  split; simpl; rewrite ?(pending_idle a Waiting b), ?Hq by done; try done.
  - rewrite !NoDup_app, NoDup_cons in *. set_solver.
  - rewrite Forall_forall in *. intros i Hi. rewrite Hne by (intros ->; done). auto.
  - apply Forall_app. split; [by eapply others_ok|]. constructor; [done|by eapply others_ok].
  - intros i Hi. destruct (decide (i = j)) as [->|]; [|rewrite Hne by done; auto].
    rewrite Hkeep by auto. destruct (I4 j Hi) as (jb' & Hj' & Hf). simplify_eq. eauto.
  - intros i ib. rewrite Hn. destruct (decide (i = j)) as [->|Hij].
    + intros [-> Hin]%Hgone. cbn [set_refs refs]. split; [|done]. f_equal. apply count_if_iff.
      rewrite !elem_of_app. tauto.
    + rewrite Hne by done. intros Hib. destruct (I5 _ _ Hib) as (-> & Hrest & ?).
      split; [|split; [intros Hni; apply Hrest; revert Hni|done]]; [f_equal; apply count_if_iff|];
        rewrite !elem_of_app, ?elem_of_cons; tauto.
  - intros key e. rewrite Hc. apply I6.
  - intros i [ib Hib]. destruct (decide (i = j)) as [->|Hij]; [apply Hgone in Hib as [_ [[]|?]]; by right|].
    rewrite Hne in Hib by done. destruct (I7 i) as [Hin|?]; [by eexists|left|by right].
    rewrite (pending_at _ _ j) in Hin by done. set_solver.
Qed.

Lemma rinv_taken a b r h (k : K) j q :
  rinv (mkRSys (a ++ Waiting :: b) r h k) → queue_ r = j :: q →
  rinv (mkRSys (a ++ Taken j :: b) (set_queue q r) h k).
Proof.
  intros [I1 I2 I3 I4 I5 I6 I7] Hq. simpl in *.
  assert (pending (a ++ Waiting :: b) r ≡ₚ pending (a ++ Taken j :: b) (set_queue q r)) as Hperm.
  { rewrite pending_app, (pending_at _ _ j) by done. simpl. rewrite Hq. simpl. by rewrite !Permutation_middle. }
  rewrite Hq in I2. apply Forall_cons in I2 as [Hj I2].
  split; simpl; try done.
  - by rewrite <-Hperm.
  - apply Forall_app in I3 as [I3a [_ I3b]%Forall_cons]. apply Forall_app.
    split; [by apply (all_ok_same r)|]. constructor; [done|]. by apply (all_ok_same r).
  - intros i ib Hi. destruct (I5 i ib Hi) as (-> & Hrest). split; [f_equal; apply count_if_iff|];
      by rewrite <-Hperm.
  - intros i Hi. rewrite <-Hperm. auto.
Qed.

Lemma rinv_exited a b r h (k : K) :
  rinv (mkRSys (a ++ Waiting :: b) r h k) → rinv (mkRSys (a ++ Exited :: b) r h k).
Proof.
  intros [I1 I2 I3 I4 I5 I6 I7]. simpl in *.
  assert (pending (a ++ Exited :: b) r = pending (a ++ Waiting :: b) r) as Heq by by rewrite !pending_app.
  split; simpl; rewrite ?Heq; try done.
  apply Forall_app in I3 as [I3a [_ I3b]%Forall_cons]. by apply Forall_app; split; [|constructor].
Qed.
End invariant.
