(* ===== verification/ResolverSpec.v ===== *)
(** * What the resolver promises

[resolver_publication] is the contract between the resolver threads and the
connections: in every interleaving, a job a connection waits for is never
lost, and once it is marked ready its answer is complete.  The other theorems
bound the life of a DNS cache entry and account for the descriptors of [start]. *)
From S2P Require Import Prelude CppString Kernel SimKernel Socket Resolver.

Section preservation.
Context {K : Type} `{!Kernel K}.

Lemma rinv_work a pc b r h (k : K) pc' r' k' :
  rinv (mkRSys (a ++ pc :: b) r h k) → worker_step pc r k = Some (pc', r', k') →
  rinv (mkRSys (a ++ pc' :: b) r' h k').
Proof.
  intros I Hw. pose proof I as [_ _ I3 I4 _ I6]. simpl in I3, I4, I6.
  apply Forall_app in I3 as [_ [Hpc _]%Forall_cons].
  destruct pc as [|j|j ok eps|j ok|j|j|j|j|]; cbn [worker_step pc_ok] in Hw, Hpc; [|..|done].
  { destruct (queue_ r) as [|j q] eqn:Hq; [|simplify_eq; by apply rinv_taken].
    destruct (closed_ r); simplify_eq. by apply rinv_exited. }
  all: try (destruct (drop_job j r k) as [r1 k1] eqn:E; simplify_eq; by eapply rinv_finished).
  all: destruct Hpc as (jb & Hj & Hrd); rewrite Hj in Hw; cbn [mbind option_bind] in Hw.
  - destruct (do_lookup _ _ _ _ _) as [[[ok eps] r1] k1] eqn:E. simplify_eq.
    apply do_lookup_spec in E as [Hf ->]. eapply (rinv_upd _ _ _ _ _ _ _ _ _ j jb jb); try done.
    + by rewrite insert_id.
    + simpl. eauto.
    + congruence.
  - simplify_eq. destruct Hrd as [Hrd Hf]. eapply (rinv_upd _ _ _ _ _ _ _ _ _ j jb (set_result eps ok jb)); try done; simpl.
    rewrite lookup_insert_eq. eauto.
  - assert (∃ r1 k1, same_jobs r r1 ∧ cache_filled r1 ∧ Some (Stored j, r1, k1) = Some (pc', r', k'))
      as (r1 & k1 & (Hq & Hjs & Hn & _) & Hc & Heq).
    { destruct Hrd as (_ & <- & Hf). destruct (j_ok jb) eqn:Hok; [|by eexists _, _].
      destruct (cache_put _ _ _ _) as [r1 k1] eqn:E. exists r1, k1. split; [|split; [|done]].
      - by apply cache_put_spec in E as [E _].
      - apply cache_put_spec in E as [_ E]. intros key e [?| ->]%E; [by eapply I6|by apply Hf]. }
    simplify_eq. destruct Hrd as (Hrd & _ & Hf). eapply (rinv_upd _ _ _ _ _ _ _ _ _ j jb jb); try done.
    + by rewrite insert_id.
    + simpl. rewrite Hjs. eauto.
  - simplify_eq. destruct Hrd as [Hrd Hf].
    eapply (rinv_upd _ _ _ _ _ _ _ _ _ j jb (set_ready jb)); try done; simpl.
    rewrite lookup_insert_eq. eauto.
  - destruct (sys_write _ _ _) as [n k1]. simplify_eq.
    eapply (rinv_upd _ _ _ _ _ _ _ _ _ j jb jb); try done.
    + by rewrite insert_id.
    + simpl. eauto.
    + intros Hh _. destruct (I4 j Hh) as (jb' & Hj' & Hf). simplify_eq. auto.
  - unfold Fd_reset in Hw. simplify_eq.
    eapply (rinv_upd _ _ _ _ _ _ _ _ _ j jb (set_ends (read_end jb) (-1) jb)); try done; simpl.
    + rewrite lookup_insert_eq. eauto.
    + intros Hh _. destruct (I4 j Hh) as (jb' & Hj' & Hf). simplify_eq. by apply Hf.
Qed.

(** The cases of [start]. *)
Lemma start_cases host port out r (k : K) st out' job r' k' :
  start host port out None r k = (st, out', job, r', k') →
  (st = Hit ∧ job = None ∧ same_jobs r r' ∧ cache_ r' = cache_ r ∧
    ∃ e, cache_ r !! dns_key host port = Some e ∧ out' = ce_endpoints e) ∨
  (∃ r1 k1 ok re we k2, cache_get (dns_key host port) out r k = ((false, out), r1, k1) ∧
    make_pipe (-1) (-1) k1 = (ok, re, we, k2) ∧ out' = out ∧
    let jb := set_ends re we (job_new host port) in
    (st = Failed ∧ job = None ∧ r' = r1 ∧ k' = close_job jb k2 ∧ (ok = false ∨ closed_ r = true)) ∨
    (st = Pending ∧ ok = true ∧ closed_ r = false ∧ k' = k2 ∧ job = Some (next_job r1) ∧
      r' = set_queue (queue_ r1 ++ [next_job r1]) (alloc_job (set_refs 2 jb) r1))).
Proof.
  unfold start. destruct (cache_get _ _ _ _) as [[[hit eps] r1] k1] eqn:E1.
  pose proof (cache_get_spec _ _ _ _ _ _ _ _ E1) as (Hs & _ & Hmiss & Hhit). destruct hit.
  - destruct Hhit as (-> & e & He & ->); [done|]. intros [= <- <- <- <- <-]. left. eauto 10.
  - rewrite (Hmiss eq_refl) in *. simpl. destruct (make_pipe _ _ _) as [[[ok re] we] k2] eqn:E2.
    intros H. right. exists r1, k1, ok, re, we, k2. split; [done|]. split; [done|].
    destruct Hs as (_ & _ & _ & Hcl & _). destruct ok; simpl in H; [|by simplify_eq; auto 10].
    destruct (closed_ r1) eqn:Hc; simplify_eq; [split; [done|left]|split; [done|right]]; split_and!; auto; congruence.
Qed.

Lemma rinv_queued ws r h (k k' : K) jb :
  rinv (mkRSys ws r h k) → j_ready jb = false → refs jb = 2%nat →
  rinv (mkRSys ws (set_queue (queue_ r ++ [next_job r]) (alloc_job jb r)) ({[next_job r]} ∪ h) k').
Proof.
  intros [I1 I2 I3 I4 I5 I6 I7] Hrd Hrf. simpl in *. set (j := next_job r) in *.
  assert (∀ i, is_Some (jobs r !! i) → i ≠ j) as Hfresh.
  { intros i [ib Hi] ->. apply I5 in Hi as (_ & _ & ?). subst j. lia. }
  assert (j ∉ h) as Hjh by (intros (jb' & Hj & _)%I4; by eapply Hfresh).
  assert (∀ i, i ∈ pending ws r → is_Some (jobs r !! i)) as Hpend.
  { intros i [Hi|Hi]%elem_of_app; [rewrite Forall_forall in I2; destruct (I2 i Hi) as (? & ? & _); eauto|].
    apply list_elem_of_omap in Hi as (pc & Hpc & Hi). rewrite Forall_forall in I3. specialize (I3 pc Hpc).
    destruct pc; simplify_eq/=; destruct I3 as (? & ? & _); eauto. }
  assert (j ∉ pending ws r) as Hjp by (intros Hi%Hpend; by apply (Hfresh j)).
  assert (pending ws (set_queue (queue_ r ++ [j]) (alloc_job jb r)) ≡ₚ j :: pending ws r) as Hperm.
  { unfold pending. simpl. rewrite <-(assoc_L (++)). symmetry. apply Permutation_middle. }
  split; simpl; try done.
  - rewrite Hperm. by constructor.
  - apply Forall_app. split; [|repeat constructor; exists jb; by rewrite lookup_insert_eq].
    rewrite Forall_forall in *. intros i Hi. rewrite lookup_insert_ne; [auto|].
    intros <-. destruct (I2 _ Hi) as (? & ? & _). by eapply (Hfresh j).
  - eapply (others_ok r _ j); [|intros i Hi; simpl; by rewrite lookup_insert_ne|done].
    intros Hin. apply Hjp, elem_of_app. by right.
  - intros i [->%elem_of_singleton|Hi]%elem_of_union.
    + exists jb. rewrite lookup_insert_eq. split; [done|congruence].
    + rewrite lookup_insert_ne; [auto|]. by intros <-.
  - intros i ib [[<- <-]|[Hne Hi]]%lookup_insert_Some.
    + destruct (count_if_cases (j ∈ pending ws (set_queue (queue_ r ++ [j]) (alloc_job jb r)))) as [[_ Hc1]|[Hn _]];
        [|rewrite Hperm in Hn; set_solver].
      destruct (count_if_cases (j ∈ {[j]} ∪ h)) as [[_ Hc2]|[? _]]; [|set_solver].
      split; [rewrite Hrf; symmetry; exact (f_equal2 Nat.add Hc1 Hc2)|]. split; [rewrite Hperm; set_solver|lia].
    + destruct (I5 i ib Hi) as (-> & Hn & Hlt). split; [|split; [rewrite Hperm; set_solver|lia]].
      f_equal; apply count_if_iff; rewrite ?Hperm; set_solver.
  - intros i [ib [[<- _]|[Hne Hi]]%lookup_insert_Some]; rewrite Hperm; [left; set_solver|].
    destruct (I7 i ltac:(by eexists)); set_solver.
Qed.

Lemma rinv_step (s s' : RSys K) : rinv s → rstep s s' → rinv s'.
Proof.
  intros I H. pose proof (ri_cache s I) as Hc. destruct H; simpl in Hc.
  - by eapply rinv_work.
  - apply start_cases in H as [(? & _)|(r1 & k1 & ok & re & we & k2 & E1 & _ & _ & [(? & _)|H])]; [done..|].
    destruct H as (_ & _ & _ & -> & [= ->] & ->). apply cache_get_spec in E1 as ((? & ? & ? & _) & Hsub & _).
    apply (rinv_queued _ _ _ k); [|done|done]. eapply rinv_same, I; try done.
    intros key e He. by eapply Hc, lookup_weaken, Hsub.
  - apply start_cases in H0 as [(_ & _ & (? & ? & ? & _) & Hce & _)|H0].
    + eapply rinv_same, I; try done. intros key e. rewrite Hce. by apply Hc.
    + destruct H0 as (r1 & k1 & ok & re & we & k2 & E1 & _ & _ & [(_ & _ & -> & _)|(-> & _)]); [|done].
      apply cache_get_spec in E1 as ((? & ? & ? & _) & Hsub & _). eapply rinv_same, I; try done.
      intros key e He. by eapply Hc, lookup_weaken, Hsub.
  - destruct res as [ok eps]. apply resolve_blocking_spec in H as ((? & ? & ? & _) & ? & _); [|done].
    by eapply rinv_same.
  - destruct (ri_held _ I j H) as (jb & Hj & _). simpl in Hj.
    eapply (rinv_release _ _ r _ _ _ j jb jb); [done..|by left| |done].
    unfold upd_job. rewrite insert_id by done. by destruct r.
  - by eapply (rinv_release _ _ _ _ _ _ j jb); [..|right|done|].
  - unfold shutdown. destruct (closed_ r); [done|]. by eapply rinv_same; [..|exact Hc|exact I].
  - by eapply rinv_same; [..|exact Hc|exact I].
Qed.

Lemma rinv_init threads ttl delay (k : K) : rinv (rinit threads ttl delay k).
Proof.
  assert (omap pc_job (replicate threads Waiting) = []) as Hw by by induction threads.
  split; simpl; unfold pending; simpl; rewrite ?Hw; try done; [constructor| |].
  - by apply Forall_replicate.
  - intros j [? []%lookup_empty_Some].
Qed.

Lemma rinv_reach threads ttl delay (s : RSys K) : rreach threads ttl delay s → rinv s.
Proof.
  intros [k Hs]. assert (rinv (rinit threads ttl delay k)) as I by apply rinv_init.
  induction Hs as [|s1 s2 s3 H _ IH]; [done|]. by eapply IH, rinv_step.
Qed.
End preservation.

(** ** Publication *)


(** One thread, one lookup: the system after a connection started it and the
thread made [n] steps. *)
Fixpoint work {K} `{!Kernel K} (n : nat) (st : WorkerPc * Resolver * K) : WorkerPc * Resolver * K :=
  match n with
  | O => st
  | S n => work n (default st (worker_step st.1.1 st.1.2 st.2))
  end.

Definition alone {K} (h : gset nat) (st : WorkerPc * Resolver * K) : RSys K :=
  mkRSys [st.1.1] st.1.2 h st.2.

Lemma work_steps {K} `{!Kernel K} n h (st : WorkerPc * Resolver * K) :
  rtc rstep (alone h st) (alone h (work n st)).
Proof.
  revert st; induction n as [|n IH]; intros st; [done|]. simpl.
  destruct (worker_step _ _ _) as [[[pc r] k]|] eqn:E; [|apply IH].
  eapply rtc_l; [|apply IH]. destruct st as [[pc0 r0] k0]. by apply (rs_work [] _ []).
Qed.

Definition demo_start : ResolveStatus * list Endpoint * option nat * Resolver * Sim :=
  start (lit "h") (lit "80") [] None (Resolver_new 30 0) sim0.
Definition demo_sys (n : nat) : RSys Sim :=
  alone ({[0%nat]} ∪ ∅) (work n (Waiting, demo_start.1.2, demo_start.2)).

Lemma demo_reach n : rreach 1 30 0 (demo_sys n).
Proof.
  exists sim0. eapply rtc_l; [|apply work_steps].
  eapply (rs_start_pending [Waiting] _ _ _ (lit "h") (lit "80") []). vm_compute. reflexivity.
Qed.


(** ** Shutdown *)

(** Once a thread has returned, the queue is closed and stays empty. *)
Definition exited_ok {K} (s : RSys K) : Prop :=
  Exited ∈ rs_workers s → closed_ (rs_res s) = true ∧ queue_ (rs_res s) = [].

Lemma worker_step_exit {K} `{!Kernel K} pc r (k : K) pc' r' k' :
  worker_step pc r k = Some (pc', r', k') →
  closed_ r' = closed_ r ∧ (queue_ r = [] → queue_ r' = []) ∧
  (pc' = Exited → closed_ r' = true ∧ queue_ r' = []).
Proof.
  destruct pc as [|j|j ok eps|j ok|j|j|j|j|]; cbn [worker_step]; try done.
  { destruct (queue_ r) as [|j q] eqn:Hq; [destruct (closed_ r) eqn:Hc|]; intros; simplify_eq; done. }
  all: try (unfold drop_job; destruct (jobs r !! j) as [jb|] eqn:Hj;
    [case_bool_decide|]; intros; simplify_eq; done).
  all: destruct (jobs r !! j) as [jb|] eqn:Hj; simpl; [|done].
  - destruct (do_lookup _ _ _ _ _) as [[[ok eps] r1] k1] eqn:E. apply do_lookup_spec in E as [_ ->].
    intros; simplify_eq; done.
  - intros; simplify_eq; done.
  - destruct ok; [|intros; simplify_eq; done]. destruct (cache_put _ _ _ _) as [r1 k1] eqn:E.
    apply cache_put_spec in E as ((Hq & _ & _ & Hc & _) & _). intros; simplify_eq. rewrite Hq. done.
  - intros; simplify_eq; done.
  - destruct (sys_write _ _ _) as [n k1]. intros; simplify_eq; done.
  - unfold Fd_reset. intros; simplify_eq; done.
Qed.

Lemma exited_step {K} `{!Kernel K} (s s' : RSys K) : exited_ok s → rstep s s' → exited_ok s'.
Proof.
  unfold exited_ok. intros I H. destruct H; simpl in *; try done.
  - apply worker_step_exit in H as (Hc & Hq & Hx). intros Hin.
    rewrite elem_of_app, elem_of_cons in I, Hin.
    destruct Hin as [?|[?|?]]; [|by apply Hx|]; (destruct I as [Hcl Hqe]; [by auto|]; rewrite Hc; auto).
  - apply start_cases in H as [(? & _)|(r1 & k1 & ok & re & we & k2 & E1 & _ & _ & [(? & _)|H])]; [done..|].
    destruct H as (_ & _ & Hcl & _). intros [? _]%I. congruence.
  - apply start_cases in H0 as [(_ & _ & (Hq & _ & _ & Hc & _) & _)|H0]; [by rewrite Hq, Hc|].
    destruct H0 as (r1 & k1 & ok & re & we & k2 & E1 & _ & _ & [(_ & _ & -> & _)|(-> & _)]); [|done].
    apply cache_get_spec in E1 as ((Hq & _ & _ & Hc & _) & _). by rewrite Hq, Hc.
  - unfold resolve_blocking in H. destruct (cache_get _ _ _ _) as [[[hit eps] r1] k1] eqn:E1.
    apply cache_get_spec in E1 as ((Hq & _ & _ & Hc & _) & _). rewrite <-Hq, <-Hc in I.
    destruct hit; [by simplify_eq|]. destruct (do_lookup _ _ _ _ _) as [[[ok2 eps2] r2] k2] eqn:E2.
    apply do_lookup_spec in E2 as [_ ->]. destruct ok2; simpl in H; [|by simplify_eq].
    destruct (cache_put _ _ _ _) as [r3 k3] eqn:E3. simplify_eq.
    apply cache_put_spec in E3 as ((Hq3 & _ & _ & Hc3 & _) & _). by rewrite Hq3, Hc3.
  - unfold drop_job in H0. destruct (jobs r !! j); [case_bool_decide|]; by simplify_eq.
  - apply (drop_job_spec _ _ _ _ _ (set_result [] (j_ok jb) jb)) in H2 as (Hq & _ & _ & Hc & _);
      [by rewrite Hq, Hc|]. simpl. by rewrite lookup_insert_eq.
  - intros [Hc Hq]%I. unfold shutdown. by rewrite Hc.
Qed.

(** C29: Shutdown drains.  When every resolver thread has returned (which is what
[shutdown] joins), and there was at least one, no lookup is left behind: the
queue is empty and every job a connection still holds is ready. *)
Theorem resolver_shutdown_drains {K} `{!Kernel K} threads ttl delay (s : RSys K) :
  rreach threads ttl delay s → rs_workers s ≠ [] → Forall (λ pc, pc = Exited) (rs_workers s) →
  closed_ (rs_res s) = true ∧ queue_ (rs_res s) = [] ∧
  ∀ j, j ∈ rs_held s → ∃ jb, jobs (rs_res s) !! j = Some jb ∧ j_ready jb = true.
Proof.
  intros Hs Hne Hall. assert (exited_ok s) as Hex.
  { destruct Hs as [k Hs]. assert (exited_ok (rinit threads ttl delay k)) as I.
    { intros [? _]%elem_of_replicate. done. }
    induction Hs as [|s1 s2 s3 H _ IH]; [done|]. apply IH; eauto using exited_step. }
  destruct (rs_workers s) as [|pc ws] eqn:Hws; [done|].
  assert (omap pc_job (rs_workers s) = []) as Hom.
  { rewrite Hws. clear -Hall. induction Hall as [|? ? -> _ IH]; [done|]. simpl. done. }
  destruct Hex as [Hc Hq]. { rewrite Hws. apply Forall_cons in Hall as [-> _]. constructor. }
  split; [done|]. split; [done|]. intros j Hj. apply rinv_reach in Hs as [_ _ _ I4 I5 _ _].
  destruct (I4 j Hj) as (jb & Hjb & _). exists jb. split; [done|]. destruct (I5 _ _ Hjb) as (_ & Hn & _).
  apply Hn. unfold pending. rewrite Hq, Hom. apply not_elem_of_nil.
Qed.

Definition demo_end : RSys Sim :=
  alone ({[0%nat]} ∪ ∅) (Exited, shutdown (rs_res (demo_sys 8)), rs_kern (demo_sys 8)).

Lemma resolver_shutdown_drains_witness :
  queue_ (rs_res demo_end) = [] ∧
  ∃ jb, jobs (rs_res demo_end) !! 0%nat = Some jb ∧ j_ready jb = true.
Proof.
  destruct (resolver_shutdown_drains 1 30 0 demo_end) as (_ & Hq & H).
  - destruct (demo_reach 8) as [k Hk]. exists k. eapply rtc_r; [eapply rtc_r; [exact Hk|apply rs_shutdown]|].
    apply (rs_work [] Waiting []). vm_compute. reflexivity.
  - discriminate.
  - repeat constructor.
  - split; [exact Hq|]. apply H. set_solver.
Defined.

(** ** The life of a DNS entry *)

(** An address list stored with time to live [ttl] is served, unchanged, to
lookups less than [ttl] seconds later and to no other: a later lookup misses
and removes it.  A lifetime of zero or less stores nothing. *)
Lemma dns_cache_ttl {K} `{!Kernel K, !KernelLaws K} key eps r (k : K) r1 k1 r2 k2 out hit eps' r3 k3 :
  cache_put key eps r k = (r1, k1) →
  cache_ r2 !! key = cache_ r1 !! key → cache_get key out r2 k2 = ((hit, eps'), r3, k3) →
  if cache_ttl_s_ r <=? 0 then cache_ r1 = cache_ r
  else if hit then eps' = eps ∧ clock k3 < clock k1 + cache_ttl_s_ r * 1000000000
  else eps' = out ∧ clock k1 + cache_ttl_s_ r * 1000000000 ≤ clock k3 ∧ cache_ r3 !! key = None.
Proof.
  unfold cache_put. destruct (_ <=? 0); [by intros [= <- <-]|].
  destruct (sys_now k) as [now k1'] eqn:E1. apply now_ok in E1 as (_ & _ & Hnow).
  intros [= <- <-]. simpl. rewrite lookup_insert_eq. intros Hr2. unfold cache_get. rewrite Hr2.
  destruct (sys_now k2) as [now2 k3'] eqn:E2. apply now_ok in E2 as (_ & _ & Hnow2). simpl.
  destruct (Z.leb_spec (now + cache_ttl_s_ r * 1000000000) now2); intros [= <- <- <- <-].
  - split; [done|]. split; [congruence|]. simpl. by rewrite lookup_delete_eq.
  - split; [done|]. congruence.
Qed.

(** ** Descriptors of a lookup *)

Section descriptors.
Context {K : Type} `{!Kernel K, !KernelLaws K}.

Lemma cache_get_silent key out r (k : K) res r' k' :
  cache_get key out r k = (res, r', k') → silent k k'.
Proof.
  unfold cache_get. destruct (cache_ r !! key) as [e|]; [|by intros [= <- <- <-]].
  destruct (sys_now k) as [now k1] eqn:E. apply now_ok in E as [E _].
  destruct (_ <=? _); by intros [= <- <- <-].
Qed.

Lemma cache_put_silent key eps r (k : K) r' k' : cache_put key eps r k = (r', k') → silent k k'.
Proof.
  unfold cache_put. destruct (_ <=? 0); [by intros [= <- <-]|].
  destruct (sys_now k) as [now k1] eqn:E. apply now_ok in E as [E _]. by intros [= <- <-].
Qed.

Lemma do_lookup_silent host port out r (k : K) res r' k' :
  do_lookup host port out r k = (res, r', k') → silent k k'.
Proof.
  unfold do_lookup, resolve. set (k0 := if 0 <? inject_delay_ms_ r then sys_sleep (inject_delay_ms_ r) k else k).
  assert (silent k k0) as H0 by (subst k0; destruct (0 <? _); [apply sleep_silent|done]).
  destruct (sys_getaddrinfo _ _ _ k0) as [a k1] eqn:E. apply getaddrinfo_silent in E.
  destruct a; intros [= <- <- <-]; by eapply silent_trans.
Qed.

Lemma resolve_blocking_silent host port out r (k : K) res r' k' :
  resolve_blocking host port out r k = (res, r', k') → silent k k'.
Proof.
  unfold resolve_blocking. destruct (cache_get _ _ _ _) as [[[hit eps] r1] k1] eqn:E1.
  apply cache_get_silent in E1. destruct hit; [by intros [= <- <- <-]|].
  destruct (do_lookup _ _ _ _ _) as [[[ok2 eps2] r2] k2] eqn:E2. apply do_lookup_silent in E2.
  destruct ok2; simpl; [|intros [= <- <- <-]; by eapply silent_trans].
  destruct (cache_put _ _ _ _) as [r3 k3] eqn:E3. apply cache_put_silent in E3.
  intros [= <- <- <-]. eauto using silent_trans.
Qed.

Lemma Fd_reset_obs fd (k : K) :
  obs (Fd_reset fd (-1) k).2 = if valid fd then obs_close fd (obs k) else obs k.
Proof. unfold Fd_reset. simpl. destruct (valid fd); [apply close_ok|done]. Qed.

Lemma valid_spec fd : valid fd = true ↔ 0 ≤ fd.
Proof. unfold valid. apply Z.leb_le. Qed.

Lemma close_job_obs jb (k : K) : obs (close_job jb k) =
  let o := if valid (write_end jb) then obs_close (write_end jb) (obs k) else obs k in
  if valid (read_end jb) then obs_close (read_end jb) o else o.
Proof.
  unfold close_job. pose proof (Fd_reset_obs (write_end jb) k) as H1.
  destruct (Fd_reset (write_end jb) (-1) k) as [w k1]. simpl in H1.
  pose proof (Fd_reset_obs (read_end jb) k1) as H2.
  destruct (Fd_reset (read_end jb) (-1) k1) as [r' k2]. simpl in H2. by rewrite H2, H1.
Qed.

Lemma Fd_reset_frame fd (k : K) :
  obs_wf (obs k) → frame (λ x, x = fd) (obs k) (obs (Fd_reset fd (-1) k).2).
Proof. intros Hw. rewrite Fd_reset_obs. destruct (valid fd); [by apply frame_close|by apply frame_refl]. Qed.

Lemma close_job_frame jb (k : K) :
  obs_wf (obs k) → frame (λ x, x = read_end jb ∨ x = write_end jb) (obs k) (obs (close_job jb k)).
Proof.
  intros Hw. unfold close_job. pose proof (Fd_reset_frame (write_end jb) k Hw) as H1.
  destruct (Fd_reset (write_end jb) (-1) k) as [w k1]. simpl in H1.
  pose proof (Fd_reset_frame (read_end jb) k1 (fr_wf _ _ _ H1)) as H2.
  destruct (Fd_reset (read_end jb) (-1) k1) as [r' k2]. simpl in H2.
  eapply frame_trans; [done|eapply frame_mono, H1; auto|exact H2|auto].
Qed.

(** What [start] does to the descriptors and the job heap in each case. *)
Record started (st : ResolveStatus) (job : option nat) (r r' : Resolver) (o o' : Obs) : Prop := {
  sd_frame : frame (λ _, False) o o';
  sd_hit : st = Hit → o' = o ∧ job = None ∧ jobs r' = jobs r;
  sd_failed : st = Failed → fdt o' = fdt o ∧ job = None ∧ jobs r' = jobs r ∧ queue_ r' = queue_ r;
  sd_pending : st = Pending → ∃ jb, job = Some (next_job r) ∧ jobs r' = <[next_job r := jb]> (jobs r) ∧
    queue_ r' = queue_ r ++ [next_job r] ∧ j_ready jb = false ∧ refs jb = 2%nat ∧
    piped (read_end jb) (write_end jb) o o' ∧ Z.testbit (flags o' (nfiles o)) 2 = true
}.

Lemma start_spec host port out r (k : K) st out' job r' k' :
  obs_wf (obs k) → start host port out None r k = (st, out', job, r', k') →
  started st job r r' (obs k) (obs k').
Proof.
  intros Hw H. pose proof H as Hs. apply start_cases in H as [(-> & -> & (_ & Hj & _) & _)|H].
  { assert (obs k' = obs k) as Ho.
    { unfold start in Hs. destruct (cache_get _ _ _ _) as [[[hit eps] r1] k1] eqn:E1.
      apply cache_get_silent in E1. destruct hit; [by simplify_eq|].
      destruct (make_pipe _ _ _) as [[[ok re] we] k2]. destruct ok, (closed_ r1); simplify_eq. }
    rewrite Ho. split; [by apply frame_refl|done..]. }
  destruct H as (r1 & k1 & ok & re & we & k2 & E1 & E2 & -> & Hcase).
  pose proof (cache_get_spec _ _ _ _ _ _ _ _ E1) as ((Hq & Hj & Hn & _) & _).
  apply cache_get_silent in E1. unfold silent in E1. rewrite <-E1 in *.
  apply make_pipe_spec in E2 as [Hfr Hp]; [|done].
  destruct Hcase as [(-> & -> & -> & -> & _)|(-> & -> & _ & -> & -> & ->)].
  - split; [|done| |done].
    + destruct Hp as [(_ & -> & -> & Ho)|[Hp _]]; [rewrite close_job_obs; simpl; by rewrite Ho; apply frame_refl|].
      eapply frame_trans; [done|done|apply close_job_frame; by eapply frame_wf|]. simpl.
      intros fd f Hfd Hf. right. destruct Hp as [_ _ Hne [Hr Hwr] Ht _]. rewrite Ht in Hf.
      apply lookup_insert_Some in Hf as [[_ <-]|[Hne1 Hf]]; [lia|].
      apply lookup_insert_Some in Hf as [[_ <-]|[Hne2 Hf]]; [lia|]. naive_solver.
    + intros _. split; [|by rewrite Hj, Hq]. rewrite close_job_obs. simpl.
      destruct Hp as [(_ & -> & -> & ->)|[Hp _]]; [done|].
      rewrite (proj2 (valid_spec we)), (proj2 (valid_spec re)) by by destruct Hp.
      by apply piped_closed.
  - destruct Hp as [(? & _)|[Hp Hnb]]; [done|]. split; [done|done|done|]. intros _.
    exists (set_refs 2 (set_ends re we (job_new host port))). simpl. rewrite Hn, Hj, Hq.
    split_and!; auto.
Qed.
End descriptors.
