(* ===== verification/FdHandle.v ===== *)
(** * Descriptor handles (the class [Fd] of [socket.hpp])

Everywhere else a move of an [Fd] is the passing on of a number.  Here are the objects
themselves: [Fd] variables with the number they hold, moved from one to another,
released, reset and destroyed.  However they are used, an open descriptor is held by
one object at most, so that no number is closed twice and none is lost. *)
From S2P Require Import Prelude Kernel SimKernel Socket SocketSpec ResolverSpec.

(** The [Fd] objects alive with their [fd_], and the numbers [release] gave away that
no object has taken over. *)
Record Handles := mkHandles { objs : gmap nat Z; loose : gset Z }.

Section handles.
Context {K : Type} `{!Kernel K, !KernelLaws K}.
Implicit Type k : K.
Implicit Type m : gmap nat Z.

(** ** The members, on the object [o] *)

Definition Fd_release (o : nat) m : option (Z * gmap nat Z) := fd ← m !! o; Some (fd, <[o := -1]> m).

Definition Fd_reset_to (o : nat) (fd : Z) m k : option (gmap nat Z * K) :=
  old ← m !! o; let '(fd, k) := Fd_reset old fd k in Some (<[o := fd]> m, k).

(** [Fd(Fd&& other)] *)
Definition Fd_move (o other : nat) m : option (gmap nat Z) :=
  '(fd, m) ← Fd_release other m; Some (<[o := fd]> m).

(** [operator=(Fd&& other)] *)
Definition Fd_assign (o other : nat) m k : option (gmap nat Z * K) :=
  if bool_decide (o ≠ other) then '(fd, m) ← Fd_release other m; Fd_reset_to o fd m k else Some (m, k).

(** [~Fd()] *)
Definition Fd_destroy (o : nat) m k : option (gmap nat Z * K) :=
  '(m, k) ← Fd_reset_to o (-1) m k; Some (delete o m, k).

(** ** What a program does with them

A number is given to a handle when a system call has just returned it, or when it was
released before. *)
Inductive fd_step : Handles * K → Handles * K → Prop :=
| fs_default o m L k : m !! o = None → fd_step (mkHandles m L, k) (mkHandles (<[o := -1]> m) L, k)
| fs_open o m L k fd k' : m !! o = None → opened fd k k' → fd_step (mkHandles m L, k) (mkHandles (<[o := fd]> m) L, k')
| fs_adopt o m L k fd : m !! o = None → fd ∈ L → fd_step (mkHandles m L, k) (mkHandles (<[o := fd]> m) (L ∖ {[fd]}), k)
| fs_move o other m L k m' : m !! o = None → Fd_move o other m = Some m' → fd_step (mkHandles m L, k) (mkHandles m' L, k)
| fs_assign o other m L k m' k' : is_Some (m !! o) → Fd_assign o other m k = Some (m', k') →
    fd_step (mkHandles m L, k) (mkHandles m' L, k')
| fs_release o m L k fd m' : Fd_release o m = Some (fd, m') →
    fd_step (mkHandles m L, k) (mkHandles m' (if valid fd then {[fd]} ∪ L else L), k)
| fs_reset o m L k fd m' k' : fd = -1 ∨ fd ∈ L → Fd_reset_to o fd m k = Some (m', k') →
    fd_step (mkHandles m L, k) (mkHandles m' (L ∖ {[fd]}), k')
| fs_destroy o m L k m' k' : Fd_destroy o m k = Some (m', k') → fd_step (mkHandles m L, k) (mkHandles m' L, k')
| fs_other s k k' : obs_wf (obs k') → fdt (obs k') = fdt (obs k) → fd_step (s, k) (s, k').

(** ** The invariant *)

Definition holds m (o : nat) (fd : Z) : Prop := m !! o = Some fd ∧ 0 ≤ fd.

Record handles_ok (B : Z → Prop) m (L : gset Z) k : Prop := {
  ho_wf : obs_wf (obs k);
  ho_once o o' fd : holds m o fd → holds m o' fd → o = o';
  ho_loose fd : fd ∈ L → 0 ≤ fd ∧ ∀ o, ¬ holds m o fd;
  ho_foreign fd : B fd → fd ∉ L ∧ ∀ o, ¬ holds m o fd;
  ho_open fd : is_Some (fdt (obs k) !! fd) ↔ B fd ∨ fd ∈ L ∨ ∃ o, holds m o fd
}.

Lemma holds_insert m o fd o' fd' : holds (<[o := fd]> m) o' fd' ↔ o' = o ∧ fd' = fd ∧ 0 ≤ fd ∨ o' ≠ o ∧ holds m o' fd'.
Proof. unfold holds. rewrite lookup_insert_Some. naive_solver. Qed.

Lemma holds_delete m o o' fd' : holds (delete o m) o' fd' ↔ o' ≠ o ∧ holds m o' fd'.
Proof. unfold holds. rewrite lookup_delete_Some. naive_solver. Qed.

(** Nobody gains or loses a number. *)
Lemma handles_same B m m' L k : (∀ o fd, holds m' o fd ↔ holds m o fd) → handles_ok B m L k → handles_ok B m' L k.
Proof. intros Hh [? ? ? ? ?]. split; try done; repeat setoid_rewrite Hh; done. Qed.

(** The number of [o] becomes loose. *)
Lemma handles_release B m L k o fd :
  handles_ok B m L k → m !! o = Some fd → handles_ok B (<[o := -1]> m) (if valid fd then {[fd]} ∪ L else L) k.
Proof.
  intros [Hw Ho Hl Hf Hop] Hm. destruct (valid fd) eqn:Hv.
  - apply valid_spec in Hv. assert (holds m o fd) as Hh by done. split; [done|..].
    + intros o1 o2 x. rewrite !holds_insert. intros [?|[_ ?]] [?|[_ ?]]; [lia..|by eapply Ho].
    + intros x Hx. setoid_rewrite holds_insert. apply elem_of_union in Hx as [->%elem_of_singleton|Hx].
      * split; [done|]. intros o' [?|[Hne ?]]; [lia|]. by apply Hne, (Ho _ _ fd).
      * destruct (Hl x Hx) as [? Hn]. split; [done|]. intros o' [?|[_ ?]]; [lia|by eapply Hn].
    + intros x Hx. destruct (Hf x Hx) as [? Hn]. setoid_rewrite holds_insert. split; [|intros o' [?|[_ ?]]; [lia|by eapply Hn]].
      intros [->%elem_of_singleton|?]%elem_of_union; [by eapply Hn|done].
    + intros x. rewrite Hop. setoid_rewrite holds_insert. split.
      * intros [?|[?|[o' ?]]]; [by left|right; left; set_solver|]. destruct (decide (o' = o)) as [->|]; [|right; right; naive_solver].
        right; left. unfold holds in *. set_solver.
      * intros [?|[[->%elem_of_singleton|?]%elem_of_union|[o' [?|[_ ?]]]]]; naive_solver lia.
  - eapply handles_same; [|by split]. intros o' x. rewrite holds_insert. split; [intros [?|[_ ?]]; [lia|done]|].
    intros Hx. right. split; [|done]. intros ->. destruct Hx as [Hx ?]. rewrite Hm in Hx. injection Hx as <-. by rewrite (proj2 (valid_spec fd)) in Hv.
Qed.

(** An empty object takes a loose number, or none. *)
Lemma handles_take B m L k o fd :
  handles_ok B m L k → fd < 0 ∨ fd ∈ L → (∀ x, ¬ holds m o x) → handles_ok B (<[o := fd]> m) (L ∖ {[fd]}) k.
Proof.
  intros [Hw Ho Hl Hf Hop] Hfd Hno. assert (∀ o' x, holds (<[o := fd]> m) o' x ↔ o' = o ∧ x = fd ∧ fd ∈ L ∨ holds m o' x) as Hh.
  { intros o' x. rewrite holds_insert. split.
    - intros [(-> & -> & ?)|[_ ?]]; [left|by right]. destruct Hfd; [lia|done].
    - intros [(-> & -> & ?)|Hx]; [left; naive_solver|right]. split; [intros ->; by eapply Hno|done]. }
  split; [done|..]; repeat setoid_rewrite Hh.
  - intros o1 o2 x [(? & ? & H1)|H1] [(? & ? & H2)|H2]; subst; [done|by destruct (proj2 (Hl _ H1) o2)|by destruct (proj2 (Hl _ H2) o1)|by eapply Ho].
  - intros x [Hx Hne]%elem_of_difference. destruct (Hl x Hx) as [? Hn]. split; [done|]. intros o' [(_ & ? & _)|?]; [set_solver|by eapply Hn].
  - intros x Hx. destruct (Hf x Hx) as [? Hn]. split; [set_solver|]. intros o' [(_ & ? & ?)|?]; [congruence|by eapply Hn].
  - intros x. rewrite Hop, elem_of_difference, elem_of_singleton. destruct (decide (x = fd)) as [->|]; naive_solver.
Qed.

(** The descriptor of [o] is closed. *)
Lemma handles_drop B m L k o fd :
  handles_ok B m L k → m !! o = Some fd → handles_ok B (<[o := -1]> m) L (Fd_reset fd (-1) k).2.
Proof.
  intros Hk Hm. pose proof (handles_release _ _ _ _ _ _ Hk Hm) as Hr. unfold Fd_reset. cbn [snd]. destruct (valid fd) eqn:Hv; [|done].
  assert (holds m o fd) as Hh by (split; [done|by apply valid_spec]). destruct Hr as [Hw Ho Hl Hf Hop].
  assert (fd ∉ L ∧ ¬ B fd) as [HnL HnB].
  { split; [intros [_ Hn]%(ho_loose _ _ _ _ Hk)|intros [_ Hn]%(ho_foreign _ _ _ _ Hk)]; by eapply Hn. }
  split; [rewrite close_ok; by apply obs_close_wf|done|..].
  - intros x Hx. apply Hl. set_solver.
  - intros x Hx. destruct (Hf x Hx). set_solver.
  - intros x. rewrite close_ok. simpl. rewrite lookup_delete_is_Some, Hop. destruct (Hl fd ltac:(set_solver)) as [_ Hno].
    split; [intros [Hne [?|[?|?]]]; [by left|right; left; set_solver|by right; right]|].
    intros Hx. split; [intros ->; destruct Hx as [?|[?|[o' ?]]]; [done|done|by eapply Hno]|]. destruct Hx as [?|[?|?]]; [by left|right; left; set_solver|by right; right].
Qed.

Lemma handles_other B m L k k' : handles_ok B m L k → obs_wf (obs k') → fdt (obs k') = fdt (obs k) → handles_ok B m L k'.
Proof. intros [? ? ? ? Hop] Hw Ht. split; try done. by rewrite Ht. Qed.

Lemma handles_reset B m L k o fd m' k' :
  handles_ok B m L k → fd < 0 ∨ fd ∈ L → Fd_reset_to o fd m k = Some (m', k') → handles_ok B m' (L ∖ {[fd]}) k'.
Proof.
  intros Hk Hfd. unfold Fd_reset_to. intros (old & Ho & [= <- <-])%bind_Some. pose proof (handles_drop _ _ _ _ _ _ Hk Ho) as Hd.
  rewrite <-(insert_insert_eq m o fd (-1)). apply (handles_take _ _ _ _ o fd) in Hd; [done|done|].
  intros x [Hx ?]. rewrite lookup_insert_eq in Hx. injection Hx as <-. lia.
Qed.

(** A number a system call has just returned is loose. *)
Lemma handles_fresh B m L k fd k' :
  handles_ok B m L k → opened fd k k' → fd ∉ L ∧ handles_ok B m ({[fd]} ∪ L) k'.
Proof.
  intros Hk (Hp & Hn & Hobs). assert (¬ B fd ∧ fd ∉ L ∧ ∀ o, ¬ holds m o fd) as (HB & HL & Hh).
  { split_and!; intros; intros ?; destruct (proj2 (ho_open _ _ _ _ Hk fd)) as [f Hf]; eauto; congruence. }
  destruct Hk as [Hw Ho Hl Hf Hopn]. split; [done|]. split; [rewrite Hobs; by apply obs_open_wf|done|..].
  - intros x [->%elem_of_singleton|?]%elem_of_union; [done|by apply Hl].
  - intros x Hx. destruct (Hf x Hx). split; [|done]. intros [->%elem_of_singleton|?]%elem_of_union; done.
  - intros x. rewrite Hobs. simpl. rewrite lookup_insert_is_Some', Hopn. set_solver.
Qed.

(** Loose numbers are descriptors. *)
Lemma loose_neg B m L k fd : handles_ok B m L k → fd < 0 → L ∖ {[fd]} = L.
Proof.
  intros Hk Hfd. apply set_eq. intros x. rewrite elem_of_difference, elem_of_singleton. split; [tauto|].
  intros Hx. destruct (ho_loose _ _ _ _ Hk x Hx). split; [done|lia].
Qed.

(** The number of [other] in hand, as [release] returns it. *)
Lemma release_take B m L k other fd :
  handles_ok B m L k → m !! other = Some fd →
  ∃ L1, handles_ok B (<[other := -1]> m) L1 k ∧ (fd < 0 ∨ fd ∈ L1) ∧ L1 ∖ {[fd]} = L.
Proof.
  intros Hk Hm. pose proof (handles_release _ _ _ _ _ _ Hk Hm) as Hr. destruct (valid fd) eqn:Hv; eexists; (split; [exact Hr|]).
  - split; [set_solver|]. apply valid_spec in Hv.
    assert (fd ∉ L) by (intros [_ Hn]%(ho_loose _ _ _ _ Hk); by apply (Hn other)). set_solver.
  - assert (fd < 0) by (destruct (Z.lt_ge_cases fd 0) as [|Hge]; [done|]; apply valid_spec in Hge; congruence).
    split; [by left|]. by eapply loose_neg.
Qed.

Lemma empty_holds m o x : m !! o = None ∨ m !! o = Some (-1) → ¬ holds m o x.
Proof. intros [Ho|Ho] [Hx ?]; rewrite Ho in Hx; [done|]. injection Hx as <-. lia. Qed.

Lemma handles_destroy B m L k o m' k' : handles_ok B m L k → Fd_destroy o m k = Some (m', k') → handles_ok B m' L k'.
Proof.
  intros Hk. unfold Fd_destroy, Fd_reset_to. intros ([m1 k1] & (old & Ho & [= <- <-])%bind_Some & [= <- <-])%bind_Some.
  pose proof (handles_drop _ _ _ _ _ _ Hk Ho) as Hd. unfold Fd_reset in Hd. cbn [snd] in Hd.
  eapply handles_same, Hd. intros o' x. rewrite holds_delete, holds_insert. split; [tauto|]. intros [?|?]; [lia|tauto].
Qed.

Lemma handles_move B m L k o other m' : handles_ok B m L k → m !! o = None → Fd_move o other m = Some m' → handles_ok B m' L k.
Proof.
  intros Hk Hno. unfold Fd_move, Fd_release. intros ([fd m1] & (x & Hx & [= -> <-])%bind_Some & [= <-])%bind_Some.
  destruct (release_take _ _ _ _ _ _ Hk Hx) as (L1 & H1 & Hfd & <-). apply handles_take; [done|done|].
  intros y. apply empty_holds. left. rewrite lookup_insert_ne; [done|]. intros ->. congruence.
Qed.

Lemma handles_assign B m L k o other m' k' : handles_ok B m L k → Fd_assign o other m k = Some (m', k') → handles_ok B m' L k'.
Proof.
  intros Hk. unfold Fd_assign, Fd_release. case_bool_decide; [|by intros [= <- <-]].
  intros ([fd m1] & (x & Hx & [= -> <-])%bind_Some & E)%bind_Some.
  destruct (release_take _ _ _ _ _ _ Hk Hx) as (L1 & H1 & Hfd & <-). by eapply handles_reset.
Qed.

Lemma fd_step_ok B m L k m' L' k' :
  handles_ok B m L k → fd_step (mkHandles m L, k) (mkHandles m' L', k') → handles_ok B m' L' k'.
Proof.
  intros Hk Hst. inversion Hst; subst.
  - rewrite <-(loose_neg _ _ _ _ (-1) Hk) by lia. apply handles_take; [done|by left|]. intros x. apply empty_holds. auto.
  - destruct (handles_fresh _ _ _ _ _ _ Hk ltac:(eassumption)) as [HL Hk']. replace L' with (({[fd]} ∪ L') ∖ {[fd]}) by set_solver.
    apply handles_take; [done|right; set_solver|]. intros x. apply empty_holds. auto.
  - apply handles_take; [done|by right|]. intros x. apply empty_holds. auto.
  - by eapply handles_move.
  - by eapply handles_assign.
  - match goal with H : Fd_release _ _ = _ |- _ => unfold Fd_release in H; apply bind_Some in H as (x & Hx & [= <- <-]) end.
    by apply handles_release.
  - eapply handles_reset; [done| |done]. naive_solver lia.
  - by eapply handles_destroy.
  - by eapply handles_other.
Qed.

Lemma fd_steps_ok B (c d : Handles * K) :
  rtc fd_step c d → handles_ok B (objs c.1) (loose c.1) c.2 → handles_ok B (objs d.1) (loose d.1) d.2.
Proof.
  induction 1 as [|[[m L] k] [[m' L'] k'] d Hst _ IH]; [done|]. intros Hk. apply IH. by eapply fd_step_ok.
Qed.

Lemma handles_start k : obs_wf (obs k) → handles_ok (λ fd, is_Some (fdt (obs k) !! fd)) ∅ ∅ k.
Proof.
  intros Hw. assert (∀ o fd, ¬ holds ∅ o fd) as He by (by intros o fd [? _]). split; try done.
  - intros o o' fd Hh. by destruct (He o fd).
  - intros fd. split; [auto|]. intros [?|[?|[o ?]]]; [done|set_solver|by destruct (He o fd)].
Qed.

(** C30: A descriptor has one handle.  Whatever a program does with its [Fd] objects (create,
move, assign, also to itself, release, reset, destroy), the open descriptors are those
that were open before, those released and not taken over, and those held by an
object; no descriptor is held by two objects, and none that was open before or is
released is held.  So a destructor or a [reset] closes an open descriptor of its own,
never somebody else's, and when all objects are gone nothing of theirs is open. *)
Theorem fd_held_once (k0 : K) s k :
  obs_wf (obs k0) → rtc fd_step (mkHandles ∅ ∅, k0) (s, k) →
  (∀ fd, is_Some (fdt (obs k) !! fd) ↔ is_Some (fdt (obs k0) !! fd) ∨ fd ∈ loose s ∨ ∃ o, objs s !! o = Some fd ∧ 0 ≤ fd) ∧
  (∀ o o' fd, 0 ≤ fd → objs s !! o = Some fd → objs s !! o' = Some fd → o = o') ∧
  (∀ o fd, 0 ≤ fd → objs s !! o = Some fd → fdt (obs k0) !! fd = None ∧ fd ∉ loose s) ∧
  (objs s = ∅ → loose s = ∅ → ∀ fd, is_Some (fdt (obs k) !! fd) ↔ is_Some (fdt (obs k0) !! fd)).
Proof.
  intros Hw Hr. pose proof (fd_steps_ok _ _ _ Hr (handles_start k0 Hw)) as [_ Ho Hl Hf Hop]. simpl in *. unfold holds in *. split_and!.
  - done.
  - intros o o' fd Hp H1 H2. by apply (Ho o o' fd).
  - intros o fd Hp H1. split; [apply eq_None_not_Some|]; intros Hx; [apply Hf in Hx as [_ Hx]|apply Hl in Hx as [_ Hx]]; by apply (Hx o).
  - intros Hm HL fd. rewrite Hop, Hm, HL. split; [|by left]. intros [?|[?|[o [? _]]]]; [done|set_solver|done].
Qed.
End handles.

(** A descriptor is opened, moved to a second object, assigned to itself there, and
both objects go. *)
Definition hd_sim : Sim := mkSim (obs_open 0 obs0) 0 0 (λ _, []) (inr []) 0 [].
Definition hd_opened : Sim := mkSim (obs_open 1 (obs_open 0 obs0)) 0 0 (λ _, []) (inr []) 0 [].
Definition hd_closed : gmap nat Z * Sim := default (∅, hd_sim) (Fd_destroy 1 {[0%nat := -1; 1%nat := 1]} hd_opened).
Definition hd_done : gmap nat Z * Sim := default (∅, hd_sim) (Fd_destroy 0 hd_closed.1 hd_closed.2).

Lemma hd_steps : rtc fd_step (mkHandles ∅ ∅, hd_sim) (mkHandles hd_done.1 ∅, hd_done.2).
Proof.
  eapply rtc_l; [apply (fs_open 0 _ _ _ 1 hd_opened); [done|vm_compute; repeat split; discriminate]|].
  eapply rtc_l; [apply (fs_move 1 0 _ _ _ {[0%nat := -1; 1%nat := 1]}); [done|vm_compute; reflexivity]|].
  eapply rtc_l; [apply (fs_assign 1 1 _ _ _ {[0%nat := -1; 1%nat := 1]} hd_opened); [by eexists|vm_compute; reflexivity]|].
  eapply rtc_l; [apply (fs_destroy 1 _ _ _ hd_closed.1 hd_closed.2); vm_compute; reflexivity|].
  eapply rtc_l; [apply (fs_destroy 0 _ _ _ hd_done.1 hd_done.2); vm_compute; reflexivity|]. done.
Qed.

Lemma fd_held_once_witness : is_Some (fdt (obs hd_opened) !! 1) ∧ ¬ is_Some (fdt (obs hd_done.2) !! 1) ∧ is_Some (fdt (obs hd_done.2) !! 0).
Proof.
  assert (obs_wf (obs hd_sim)) as Hw by (apply obs_open_wf; [apply obs0_wf|lia|reflexivity]).
  destruct (fd_held_once hd_sim (mkHandles hd_done.1 ∅) hd_done.2 Hw hd_steps) as (_ & _ & _ & H).
  specialize (H ltac:(vm_compute; reflexivity) eq_refl). split; [by eexists|]. split.
  - intros Hs%H. vm_compute in Hs. by destruct Hs.
  - apply (H 0). by eexists.
Defined.
