(* ===== verification/Connection.v ===== *)
(** * The connection state machine ([connection.hpp], [connection.cpp])

One client connection, from the accepted socket to the end of the exchange.
[Connection] has the fields of the class, [on_ready] and the private members
are functions on the connection and the [World] it shares with the others:
the kernel, the resolver with its jobs, and the response cache (behind the
interface [ResponseCache]; [None] is the null pointer).  A descriptor held in
an [Fd] is its number, -1 for none.

Sums and differences of the sizes of strings in memory and of offsets into
them are written in [Z]: such sizes are below 2^63, and an offset never
passes the size of its buffer, as the invariant of [ConnectionSpec] shows.  The
[Content-Length] is the client's number, so its sum with the header size wraps. *)
From S2P Require Import Prelude CppString Http Config Cache CacheSpec Kernel Socket Resolver.

(** ** Data *)

Inductive Want := ReadClient | WriteClient | ReadUpstream | WriteUpstream | ReadResolver | WNone.
Inductive State := ReadingRequest | Resolving | Connecting | SendingUpstream | Relaying | Failing | Done.

#[export] Instance Want_eq_dec : EqDecision Want.
Proof. solve_decision. Defined.
#[export] Instance State_eq_dec : EqDecision State.
Proof. solve_decision. Defined.

Record Connection := mkConn {
  client_ : Z;
  upstream_ : Z;
  id_ : Z;
  state_ : State;
  want_ : Want;
  epoch_ : Z;
  req_ : Request;
  parsed_ : bool;
  resolve_job_ : option nat;
  endpoints_ : list Endpoint;
  endpoint_idx_ : nat;
  in_client_ : str;
  out_upstream_ : str;
  out_upstream_off_ : Z;
  out_client_ : str;
  out_client_off_ : Z;
  upstream_eof_ : bool;
  cache_key_ : str;
  cache_accum_ : str;
  cache_too_big_ : bool
}.

Definition set_client (fd : Z) (c : Connection) : Connection :=
  mkConn fd (upstream_ c) (id_ c) (state_ c) (want_ c) (epoch_ c) (req_ c) (parsed_ c) (resolve_job_
    c) (endpoints_ c) (endpoint_idx_ c) (in_client_ c) (out_upstream_ c) (out_upstream_off_ c)
    (out_client_ c) (out_client_off_ c) (upstream_eof_ c) (cache_key_ c) (cache_accum_ c)
    (cache_too_big_ c).

Definition set_upstream (fd : Z) (c : Connection) : Connection :=
  mkConn (client_ c) fd (id_ c) (state_ c) (want_ c) (epoch_ c) (req_ c) (parsed_ c) (resolve_job_ c)
    (endpoints_ c) (endpoint_idx_ c) (in_client_ c) (out_upstream_ c) (out_upstream_off_ c)
    (out_client_ c) (out_client_off_ c) (upstream_eof_ c) (cache_key_ c) (cache_accum_ c)
    (cache_too_big_ c).

Definition set_state (s : State) (c : Connection) : Connection :=
  mkConn (client_ c) (upstream_ c) (id_ c) s (want_ c) (epoch_ c) (req_ c) (parsed_ c) (resolve_job_
    c) (endpoints_ c) (endpoint_idx_ c) (in_client_ c) (out_upstream_ c) (out_upstream_off_ c)
    (out_client_ c) (out_client_off_ c) (upstream_eof_ c) (cache_key_ c) (cache_accum_ c)
    (cache_too_big_ c).

Definition set_want (w : Want) (c : Connection) : Connection :=
  mkConn (client_ c) (upstream_ c) (id_ c) (state_ c) w (wrap64 (epoch_ c + 1)) (req_ c) (parsed_ c)
    (resolve_job_ c) (endpoints_ c) (endpoint_idx_ c) (in_client_ c) (out_upstream_ c)
    (out_upstream_off_ c) (out_client_ c) (out_client_off_ c) (upstream_eof_ c) (cache_key_ c)
    (cache_accum_ c) (cache_too_big_ c).

Definition set_req (r : Request) (c : Connection) : Connection :=
  mkConn (client_ c) (upstream_ c) (id_ c) (state_ c) (want_ c) (epoch_ c) r (parsed_ c)
    (resolve_job_ c) (endpoints_ c) (endpoint_idx_ c) (in_client_ c) (out_upstream_ c)
    (out_upstream_off_ c) (out_client_ c) (out_client_off_ c) (upstream_eof_ c) (cache_key_ c)
    (cache_accum_ c) (cache_too_big_ c).

Definition set_parsed (b : bool) (c : Connection) : Connection :=
  mkConn (client_ c) (upstream_ c) (id_ c) (state_ c) (want_ c) (epoch_ c) (req_ c) b (resolve_job_
    c) (endpoints_ c) (endpoint_idx_ c) (in_client_ c) (out_upstream_ c) (out_upstream_off_ c)
    (out_client_ c) (out_client_off_ c) (upstream_eof_ c) (cache_key_ c) (cache_accum_ c)
    (cache_too_big_ c).

Definition set_resolve_job (j : option nat) (c : Connection) : Connection :=
  mkConn (client_ c) (upstream_ c) (id_ c) (state_ c) (want_ c) (epoch_ c) (req_ c) (parsed_ c) j
    (endpoints_ c) (endpoint_idx_ c) (in_client_ c) (out_upstream_ c) (out_upstream_off_ c)
    (out_client_ c) (out_client_off_ c) (upstream_eof_ c) (cache_key_ c) (cache_accum_ c)
    (cache_too_big_ c).

Definition set_endpoints (eps : list Endpoint) (c : Connection) : Connection :=
  mkConn (client_ c) (upstream_ c) (id_ c) (state_ c) (want_ c) (epoch_ c) (req_ c) (parsed_ c)
    (resolve_job_ c) eps (endpoint_idx_ c) (in_client_ c) (out_upstream_ c) (out_upstream_off_
    c) (out_client_ c) (out_client_off_ c) (upstream_eof_ c) (cache_key_ c) (cache_accum_ c)
    (cache_too_big_ c).

Definition set_endpoint_idx (i : nat) (c : Connection) : Connection :=
  mkConn (client_ c) (upstream_ c) (id_ c) (state_ c) (want_ c) (epoch_ c) (req_ c) (parsed_ c)
    (resolve_job_ c) (endpoints_ c) i (in_client_ c) (out_upstream_ c) (out_upstream_off_ c)
    (out_client_ c) (out_client_off_ c) (upstream_eof_ c) (cache_key_ c) (cache_accum_ c)
    (cache_too_big_ c).

Definition set_in_client (s : str) (c : Connection) : Connection :=
  mkConn (client_ c) (upstream_ c) (id_ c) (state_ c) (want_ c) (epoch_ c) (req_ c) (parsed_ c)
    (resolve_job_ c) (endpoints_ c) (endpoint_idx_ c) s (out_upstream_ c) (out_upstream_off_ c)
    (out_client_ c) (out_client_off_ c) (upstream_eof_ c) (cache_key_ c) (cache_accum_ c)
    (cache_too_big_ c).

Definition set_out_upstream (s : str) (off : Z) (c : Connection) : Connection :=
  mkConn (client_ c) (upstream_ c) (id_ c) (state_ c) (want_ c) (epoch_ c) (req_ c) (parsed_ c)
    (resolve_job_ c) (endpoints_ c) (endpoint_idx_ c) (in_client_ c) s off (out_client_ c)
    (out_client_off_ c) (upstream_eof_ c) (cache_key_ c) (cache_accum_ c) (cache_too_big_ c).

Definition set_out_client (s : str) (off : Z) (c : Connection) : Connection :=
  mkConn (client_ c) (upstream_ c) (id_ c) (state_ c) (want_ c) (epoch_ c) (req_ c) (parsed_ c)
    (resolve_job_ c) (endpoints_ c) (endpoint_idx_ c) (in_client_ c) (out_upstream_ c)
    (out_upstream_off_ c) s off (upstream_eof_ c) (cache_key_ c) (cache_accum_ c)
    (cache_too_big_ c).

Definition set_upstream_eof (b : bool) (c : Connection) : Connection :=
  mkConn (client_ c) (upstream_ c) (id_ c) (state_ c) (want_ c) (epoch_ c) (req_ c) (parsed_ c)
    (resolve_job_ c) (endpoints_ c) (endpoint_idx_ c) (in_client_ c) (out_upstream_ c)
    (out_upstream_off_ c) (out_client_ c) (out_client_off_ c) b (cache_key_ c) (cache_accum_ c)
    (cache_too_big_ c).

Definition set_cache_key (s : str) (c : Connection) : Connection :=
  mkConn (client_ c) (upstream_ c) (id_ c) (state_ c) (want_ c) (epoch_ c) (req_ c) (parsed_ c)
    (resolve_job_ c) (endpoints_ c) (endpoint_idx_ c) (in_client_ c) (out_upstream_ c)
    (out_upstream_off_ c) (out_client_ c) (out_client_off_ c) (upstream_eof_ c) s
    (cache_accum_ c) (cache_too_big_ c).

Definition set_cache_accum (s : str) (too_big : bool) (c : Connection) : Connection :=
  mkConn (client_ c) (upstream_ c) (id_ c) (state_ c) (want_ c) (epoch_ c) (req_ c) (parsed_ c)
    (resolve_job_ c) (endpoints_ c) (endpoint_idx_ c) (in_client_ c) (out_upstream_ c)
    (out_upstream_off_ c) (out_client_ c) (out_client_off_ c) (upstream_eof_ c) (cache_key_ c) s
    too_big.


(** What the connections of a backend share. *)
Record World (K C : Type) := mkWorld { kern : K; res : Resolver; rcache : option C }.
Arguments mkWorld {K C} _ _ _.
Arguments kern {K C} _.
Arguments res {K C} _.
Arguments rcache {K C} _.

Definition set_kern {K C} (k : K) (w : World K C) : World K C := mkWorld k (res w) (rcache w).
Definition set_res {K C} (r : Resolver) (k : K) (w : World K C) : World K C := mkWorld k r (rcache w).
Definition set_rcache {K C} (rc : option C) (w : World K C) : World K C := mkWorld (kern w) (res w) rc.

Definition bad_request : str := error_response 400 (lit "Bad Request").
Definition not_implemented : str := error_response 501 (lit "Not Implemented").
Definition payload_too_large : str := error_response 413 (lit "Payload Too Large").
Definition bad_gateway : str := error_response 502 (lit "Bad Gateway").

(** [io_chunk_bytes], at most the size of the stack buffer. *)
Definition chunk_size (cfg : Config) : Z :=
  if io_chunk_bytes cfg <? 65536 then io_chunk_bytes cfg else 65536.

Section connection.
Context {K C : Type} `{!Kernel K, !ResponseCache C}.
Implicit Type w : World K C.

(** ** The interface to the backends *)

(** The constructor. *)
Definition Connection_new (client id : Z) w : Connection * World K C :=
  let '(_, k) := set_nonblocking client (kern w) in
  (mkConn client (-1) id ReadingRequest ReadClient 0 Request_default false None [] 0%nat
     [] [] 0 [] 0 false [] [] false, set_kern k w).

Definition want (c : Connection) : Want := want_ c.

Definition want_fd (c : Connection) w : Z :=
  match want_ c with
  | ReadClient | WriteClient => client_ c
  | ReadUpstream | WriteUpstream => upstream_ c
  | ReadResolver =>
      match resolve_job_ c with
      | Some j => match jobs (res w) !! j with Some jb => read_end jb | None => -1 end
      | None => -1
      end
  | WNone => -1
  end.

Definition want_write (c : Connection) : bool :=
  bool_decide (want_ c = WriteClient) || bool_decide (want_ c = WriteUpstream).

Definition epoch (c : Connection) : Z := epoch_ c.
Definition done_ (c : Connection) : bool := bool_decide (state_ c = Done).

(** ** Ending an exchange *)

(** [upstream_.reset()] and [client_.reset()]. *)
Definition upstream_reset (fd : Z) (c : Connection) w : Connection * World K C :=
  let '(u, k) := Fd_reset (upstream_ c) fd (kern w) in (set_upstream u c, set_kern k w).
Definition client_reset (c : Connection) w : Connection * World K C :=
  let '(u, k) := Fd_reset (client_ c) (-1) (kern w) in (set_client u c, set_kern k w).
(** [resolve_job_.reset()]. *)
Definition resolve_job_reset (c : Connection) w : Connection * World K C :=
  let '(r, k) := drop_ptr (resolve_job_ c) (res w) (kern w) in
  (set_resolve_job None c, set_res r k w).

Definition fail_with (response : str) (c : Connection) w : Connection * World K C :=
  let '(c, w) := upstream_reset (-1) c w in
  (set_want WriteClient (set_state Failing (set_out_client response 0 c)), w).

Definition finish (c : Connection) w : Connection * World K C :=
  let c := set_want WNone (set_state Done c) in
  let '(c, w) := resolve_job_reset c w in
  let '(c, w) := upstream_reset (-1) c w in
  client_reset c w.

(** ** Connecting *)

(** The loop of [begin_connect] and what follows it; every iteration passes one
candidate, so the number of candidates left is enough fuel. *)
Fixpoint connect_loop (fuel : nat) (c : Connection) w : Connection * World K C :=
  match fuel, endpoints_ c !! endpoint_idx_ c with
  | S fuel', Some ep =>
      let '((st, fd), k) := start_connect ep (kern w) in
      let w := set_kern k w in
      let c := set_endpoint_idx (S (endpoint_idx_ c)) c in
      match st with
      | ConnectFailed => connect_loop fuel' c w
      | Connected =>
          let '(c, w) := upstream_reset fd c w in
          (set_want WriteUpstream (set_state SendingUpstream c), w)
      | InProgress =>
          let '(c, w) := upstream_reset fd c w in
          (set_want WriteUpstream (set_state Connecting c), w)
      end
  | _, _ => fail_with bad_gateway c w
  end.

Definition begin_connect (c : Connection) w : Connection * World K C :=
  connect_loop (length (endpoints_ c) - endpoint_idx_ c) c w.

Definition finish_connect (c : Connection) w : Connection * World K C :=
  let '(ok, k) := connect_succeeded (upstream_ c) (kern w) in
  let w := set_kern k w in
  if negb ok then
    let '(c, w) := upstream_reset (-1) c w in begin_connect c w
  else (set_want WriteUpstream (set_state SendingUpstream c), w).

(** ** Resolving *)

Definition begin_resolve (cfg : Config) (c : Connection) w : Connection * World K C :=
  if negb (async_resolve cfg) then
    let '((ok, eps), r, k) :=
      resolve_blocking (host (req_ c)) (port (req_ c)) (endpoints_ c) (res w) (kern w) in
    let c := set_endpoints eps c in
    let w := set_res r k w in
    if negb ok then fail_with bad_gateway c w else begin_connect (set_endpoint_idx 0 c) w
  else
    let '(st, eps, job, r, k) :=
      start (host (req_ c)) (port (req_ c)) (endpoints_ c) (resolve_job_ c) (res w) (kern w) in
    let c := set_resolve_job job (set_endpoints eps c) in
    let w := set_res r k w in
    match st with
    | Hit => begin_connect (set_endpoint_idx 0 c) w
    | Pending => (set_want ReadResolver (set_state Resolving c), w)
    | Failed => fail_with bad_gateway c w
    end.

Definition finish_resolve (c : Connection) w : Connection * World K C :=
  match resolve_job_ c with
  | None => (c, w)   (* a null pointer: excluded by the invariant *)
  | Some j =>
      match jobs (res w) !! j with
      | None => (c, w)
      | Some jb =>
          let '(_, k) := sys_read (read_end jb) 8 (kern w) in
          let w := set_kern k w in
          if negb (j_ready jb) then (c, w) else
          let ok := j_ok jb in
          let '(c, w) :=
            if ok then (set_endpoints (j_endpoints jb) c,
                        set_res (upd_job j (set_result [] (j_ok jb) jb) (res w)) (kern w) w)
            else (c, w) in
          let '(c, w) := resolve_job_reset c w in
          if negb ok then fail_with bad_gateway c w else begin_connect (set_endpoint_idx 0 c) w
      end
  end.

(** ** The response cache *)

Definition cacheable_request (cfg : Config) (c : Connection) : bool :=
  if negb (cache_enabled cfg) then false
  else if negb (bool_decide (method (req_ c) = lit "GET")) &&
          negb (bool_decide (method (req_ c) = lit "HEAD")) then false
  else if negb (bool_decide (header_value (req_ c) (lit "Authorization") = [])) then false
  else if negb (bool_decide (header_value (req_ c) (lit "Cookie") = [])) then false
  else true.

Definition found (pat s : str) : bool := bool_decide (is_Some (find_str pat s)).

(** The tests on the response: [compare] at position 9 is in range once one of
the first two succeeded. *)
Definition storable (accum : str) : bool :=
  if negb (bool_decide (substr accum 0 9 = lit "HTTP/1.1 ")) &&
     negb (bool_decide (substr accum 0 9 = lit "HTTP/1.0 ")) then false
  else if negb (bool_decide (substr accum 9 3 = lit "200")) then false
  else if found (crlf ++ lit "Set-Cookie:") accum || found (crlf ++ lit "set-cookie:") accum then false
  else true.

Definition store_in_cache (c : Connection) w : World K C :=
  match rcache w with
  | None => w
  | Some rc =>
      if bool_decide (cache_key_ c = []) || cache_too_big_ c then w
      else if negb (upstream_eof_ c) then w
      else if negb (storable (cache_accum_ c)) then w
      else set_rcache (Some (rc_put (cache_key_ c) (cache_accum_ c) rc)) w
  end.

(** ** Reading and writing *)

(** The second half of [do_read_client]: the header block is known; once the whole
body is there, answer from the cache or look for the origin. *)
Definition request_known (cfg : Config) (c : Connection) w : Connection * World K C :=
  let needed := wrap64 (header_bytes (req_ c) + content_length (req_ c)) in
  if zlen (in_client_ c) <? needed then (c, w) else
  let body := substr (in_client_ c) (Z.to_nat (header_bytes (req_ c)))
                (Z.to_nat (content_length (req_ c))) in
  let c := set_out_upstream (build_upstream_request (req_ c) body) 0 c in
  match rcache w with
  | Some rc =>
      if cacheable_request cfg c then
        let c := set_cache_key (cache_key (method (req_ c)) (host (req_ c)) (port (req_ c))
                                  (path (req_ c))) c in
        let '(hit, rc) := rc_get (cache_key_ c) rc in
        let w := set_rcache (Some rc) w in
        match hit with
        | Some cached => fail_with cached c w
        | None => begin_resolve cfg c w
        end
      else begin_resolve cfg c w
  | None => begin_resolve cfg c w
  end.

Definition do_read_client (cfg : Config) (c : Connection) w : Connection * World K C :=
  let '((st, bs), k) := read_some (client_ c) (chunk_size cfg) (kern w) in
  let w := set_kern k w in
  match st with
  | IoWouldBlock => (c, w)
  | IoError | IoClosed => finish c w
  | IoOk =>
      let c := set_in_client (in_client_ c ++ bs) c in
      if parsed_ c then request_known cfg c w else
      let '(pr, req) := parse_request (in_client_ c) (req_ c) in
      let c := set_req req c in
      match pr with
      | Incomplete =>
          if max_header_bytes cfg <? zlen (in_client_ c) then fail_with bad_request c w else (c, w)
      | BadRequest => fail_with bad_request c w
      | NotImplemented => fail_with not_implemented c w
      | Ok =>
          if max_body_bytes cfg <? content_length (req_ c) then fail_with payload_too_large c w
          else request_known cfg (set_parsed true c) w
      end
  end.

(** [data() + off], [size() - off] bytes of it. *)
Definition tail_of (s : str) (off : Z) : str :=
  let remaining := zlen s - off in
  take (Z.to_nat remaining) (drop (Z.to_nat off) s).

Definition do_write_upstream (c : Connection) w : Connection * World K C :=
  let '((st, n), k) := write_some (upstream_ c) (tail_of (out_upstream_ c) (out_upstream_off_ c)) (kern w) in
  let w := set_kern k w in
  match st with
  | IoWouldBlock => (c, w)
  | IoError | IoClosed => fail_with bad_gateway c w
  | IoOk =>
      let c := set_out_upstream (out_upstream_ c) (out_upstream_off_ c + n) c in
      if out_upstream_off_ c <? zlen (out_upstream_ c) then (c, w) else
      (set_want ReadUpstream (set_state Relaying (set_out_upstream [] 0 c)), w)
  end.

Definition accumulate (cfg : Config) (bs : str) (c : Connection) : Connection :=
  if negb (bool_decide (cache_key_ c = [])) && negb (cache_too_big_ c) then
    if cache_max_entry_bytes cfg <? zlen (cache_accum_ c) + zlen bs then set_cache_accum [] true c
    else set_cache_accum (cache_accum_ c ++ bs) (cache_too_big_ c) c
  else c.

Definition do_read_upstream (cfg : Config) (c : Connection) w : Connection * World K C :=
  let '((st, bs), k) := read_some (upstream_ c) (chunk_size cfg) (kern w) in
  let w := set_kern k w in
  match st with
  | IoWouldBlock => (c, w)
  | IoError => finish c w
  | IoClosed =>
      let c := set_upstream_eof true c in
      let '(c, w) := upstream_reset (-1) c w in
      let w := store_in_cache c w in
      if zlen (out_client_ c) <=? out_client_off_ c then finish c w
      else (set_want WriteClient c, w)
  | IoOk =>
      let c := accumulate cfg bs c in
      let c := set_out_client (out_client_ c ++ bs) (out_client_off_ c) c in
      (set_want WriteClient c, w)
  end.

Definition do_write_client (c : Connection) w : Connection * World K C :=
  let '((st, n), k) := write_some (client_ c) (tail_of (out_client_ c) (out_client_off_ c)) (kern w) in
  let w := set_kern k w in
  match st with
  | IoWouldBlock => (c, w)
  | IoError | IoClosed => finish c w
  | IoOk =>
      let c := set_out_client (out_client_ c) (out_client_off_ c + n) c in
      if out_client_off_ c <? zlen (out_client_ c) then (c, w) else
      let c := set_out_client [] 0 c in
      if bool_decide (state_ c = Failing) || upstream_eof_ c then finish c w
      else (set_want ReadUpstream c, w)
  end.

(** ** The step *)

Definition on_ready (cfg : Config) (c : Connection) w : Connection * World K C :=
  match want_ c with
  | ReadClient => do_read_client cfg c w
  | WriteClient => do_write_client c w
  | ReadUpstream => do_read_upstream cfg c w
  | ReadResolver => finish_resolve c w
  | WriteUpstream =>
      if bool_decide (state_ c = Connecting) then finish_connect c w else do_write_upstream c w
  | WNone => finish c w
  end.

(** [~Connection]: members go in reverse order of declaration. *)
Definition Connection_destroy (c : Connection) w : World K C :=
  let '(c, w) := resolve_job_reset c w in
  let '(c, w) := upstream_reset (-1) c w in
  (client_reset c w).2.
End connection.
