(* ===== verification/ConnectionInv.v ===== *)
(** * The invariant of a connection

[conn_inv fc B cfg c w] relates connection [c], whose client socket is the
open file [fc], to the world: which descriptors it owns and what has been
exchanged on them, state by state.  [B] are the descriptors that belong to
others.  Each member function is shown to preserve it ([step_ok]), to leave the
descriptors and jobs of others alone, and to change what it waits for only
together with its epoch. *)
From S2P Require Import Prelude CppString Http Config Cache CacheSpec Kernel Socket Resolver ResolverSpec.
From S2P Require Import Connection.

(** [fd] is an open descriptor that designates the open file [f]. *)
Definition owns (o : Obs) (fd : Z) (f : nat) : Prop := 0 ≤ fd ∧ fdt o !! fd = Some f.

(** ** What a request and a response are *)

Definition body_of (c : Connection) : str :=
  substr (in_client_ c) (Z.to_nat (header_bytes (req_ c))) (Z.to_nat (content_length (req_ c))).

Definition upstream_bytes (c : Connection) : str := build_upstream_request (req_ c) (body_of c).

(** The request is what the parser made of the beginning of the input. *)
Definition req_known (c : Connection) : Prop :=
  ∃ head rest, in_client_ c = head ++ rest ∧ parse_request head Request_default = (Ok, req_ c).

(** Nothing of a response has been seen. *)
Definition quiet (c : Connection) : Prop :=
  out_client_ c = [] ∧ out_client_off_ c = 0 ∧ upstream_eof_ c = false ∧
  cache_accum_ c = [] ∧ cache_too_big_ c = false.

(** The request is complete and rebuilt. *)
Definition request_ready (c : Connection) : Prop :=
  req_known c ∧ parsed_ c = true ∧ (cache_key_ c = [] ∨ cache_key_ c = request_key (req_ c)).

(** [v] is all that arrived on an upstream socket that is closed now, in answer
to a request with cache key [key]. *)
Definition exchanged (o : Obs) (key v : str) : Prop :=
  ∃ f r body, (f < nfiles o)%nat ∧ (∀ fd, fdt o !! fd ≠ Some f) ∧
    sent o f = build_upstream_request r body ∧ request_key r = key ∧ rcvd o f = v.

(** A response the proxy may serve without asking the origin. *)
Inductive local_answer (o : Obs) (c : Connection) : str → Prop :=
| la_bad_request : local_answer o c bad_request
| la_not_implemented : local_answer o c not_implemented
| la_too_large : local_answer o c payload_too_large
| la_bad_gateway : local_answer o c bad_gateway
| la_cached v : req_known c → storable v = true → exchanged o (request_key (req_ c)) v → local_answer o c v.

(** What the client has received when the exchange is over. *)
Definition served (o : Obs) (fc : nat) (c : Connection) : Prop :=
  sent o fc = [] ∨ (∃ v, local_answer o c v ∧ sent o fc `prefix_of` v) ∨
  (∃ fu, fu ≠ fc ∧ (fu < nfiles o)%nat ∧ (∀ fd, fdt o !! fd ≠ Some fu) ∧
    req_known c ∧ sent o fu = upstream_bytes c ∧ sent o fc `prefix_of` rcvd o fu).

(** A response that ended with the origin's end of file was passed on whole. *)
Definition complete (o : Obs) (fc : nat) (c : Connection) : Prop :=
  upstream_eof_ c = true → ∃ fu, fu ≠ fc ∧ (fu < nfiles o)%nat ∧ (∀ fd, fdt o !! fd ≠ Some fu) ∧
    sent o fu = upstream_bytes c ∧ sent o fc = rcvd o fu.

(** ** The states *)

Definition phase (fc : nat) (c : Connection) (o : Obs) (js : gmap nat ResolveJob) : Prop :=
  match state_ c with
  | ReadingRequest =>
      want_ c = ReadClient ∧ owns o (client_ c) fc ∧ upstream_ c = -1 ∧ resolve_job_ c = None ∧
      sent o fc = [] ∧ rcvd o fc = in_client_ c ∧ quiet c ∧ cache_key_ c = [] ∧
      (if parsed_ c then req_known c else req_ c = Request_default)
  | Resolving =>
      want_ c = ReadResolver ∧ owns o (client_ c) fc ∧ upstream_ c = -1 ∧
      sent o fc = [] ∧ rcvd o fc = in_client_ c ∧ quiet c ∧ request_ready c ∧
      out_upstream_ c = upstream_bytes c ∧ out_upstream_off_ c = 0 ∧
      ∃ j jb fr, resolve_job_ c = Some j ∧ js !! j = Some jb ∧ owns o (read_end jb) fr ∧ fr ≠ fc ∧
        (write_end jb = -1 ∨ ∃ fw, owns o (write_end jb) fw ∧ fw ≠ fc ∧ fw ≠ fr)
  | Connecting =>
      want_ c = WriteUpstream ∧ owns o (client_ c) fc ∧ resolve_job_ c = None ∧
      sent o fc = [] ∧ rcvd o fc = in_client_ c ∧ quiet c ∧ request_ready c ∧
      out_upstream_ c = upstream_bytes c ∧ out_upstream_off_ c = 0 ∧
      ∃ fu, owns o (upstream_ c) fu ∧ fu ≠ fc ∧ sent o fu = [] ∧ rcvd o fu = []
  | SendingUpstream =>
      want_ c = WriteUpstream ∧ owns o (client_ c) fc ∧ resolve_job_ c = None ∧
      sent o fc = [] ∧ rcvd o fc = in_client_ c ∧ quiet c ∧ request_ready c ∧
      0 ≤ out_upstream_off_ c ≤ zlen (out_upstream_ c) ∧
      ∃ fu, owns o (upstream_ c) fu ∧ fu ≠ fc ∧ rcvd o fu = [] ∧
        sent o fu = take (Z.to_nat (out_upstream_off_ c)) (out_upstream_ c) ∧
        out_upstream_ c = upstream_bytes c
  | Relaying =>
      owns o (client_ c) fc ∧ resolve_job_ c = None ∧ rcvd o fc = in_client_ c ∧ request_ready c ∧
      upstream_eof_ c = false ∧
      (want_ c = ReadUpstream ∧ out_client_ c = [] ∧ out_client_off_ c = 0 ∨
       want_ c = WriteClient ∧ 0 ≤ out_client_off_ c ≤ zlen (out_client_ c)) ∧
      ∃ fu, owns o (upstream_ c) fu ∧ fu ≠ fc ∧ sent o fu = upstream_bytes c ∧
        rcvd o fu = sent o fc ++ drop (Z.to_nat (out_client_off_ c)) (out_client_ c) ∧
        (cache_key_ c ≠ [] → cache_too_big_ c = false → cache_accum_ c = rcvd o fu)
  | Failing =>
      want_ c = WriteClient ∧ owns o (client_ c) fc ∧ upstream_ c = -1 ∧ resolve_job_ c = None ∧
      rcvd o fc = in_client_ c ∧ upstream_eof_ c = false ∧
      0 ≤ out_client_off_ c ≤ zlen (out_client_ c) ∧
      sent o fc = take (Z.to_nat (out_client_off_ c)) (out_client_ c) ∧ local_answer o c (out_client_ c)
  | Done =>
      want_ c = WNone ∧ client_ c = -1 ∧ upstream_ c = -1 ∧ resolve_job_ c = None ∧
      rcvd o fc = in_client_ c ∧ (∀ fd, fdt o !! fd ≠ Some fc) ∧ served o fc c ∧ complete o fc c
  end.

(** ** The shared state *)

(** A job still referenced by somebody owns its pipe ends. *)
Definition job_fd (js : gmap nat ResolveJob) (fd : Z) : Prop :=
  ∃ j jb, js !! j = Some jb ∧ (fd = read_end jb ∨ fd = write_end jb).

(** Every open descriptor belongs to others, to the connection or to a job. *)
Definition accounted (B : Z → Prop) (c : Connection) (o : Obs) (js : gmap nat ResolveJob) : Prop :=
  ∀ fd, is_Some (fdt o !! fd) → B fd ∨ fd = client_ c ∨ fd = upstream_ c ∨ job_fd js fd.

(** The descriptors of the connection, those of its job included. *)
Definition owned (c : Connection) (js : gmap nat ResolveJob) (fd : Z) : Prop :=
  fd = client_ c ∨ fd = upstream_ c ∨
  ∃ j jb, resolve_job_ c = Some j ∧ js !! j = Some jb ∧ (fd = read_end jb ∨ fd = write_end jb).

(** The cache holds complete, shareable responses to requests with its keys. *)
Definition cache_ok {C} `{!ResponseCache C} (rc : option C) (o : Obs) : Prop :=
  ∀ c, rc = Some c → rc_inv c ∧
    ∀ key v, rc_contents c !! key = Some v → storable v = true ∧ exchanged o key v.

Section inv.
Context {K C : Type} `{!Kernel K, !KernelLaws K, !ResponseCache C, !ResponseCacheLaws C}.
Implicit Type w : World K C.

Definition jobs_fresh (r : Resolver) : Prop := ∀ j, is_Some (jobs r !! j) → (j < next_job r)%nat.

(** What does not depend on the state of the connection. *)
Record base (fc : nat) (B : Z → Prop) (c : Connection) w : Prop := {
  ci_wf : obs_wf (obs (kern w));
  ci_fc : (fc < nfiles (obs (kern w)))%nat;
  ci_fresh : jobs_fresh (res w);
  ci_dns : cache_filled (res w);
  ci_cache : cache_ok (rcache w) (obs (kern w));
  ci_accounted : accounted B c (obs (kern w)) (jobs (res w))
}.

Record conn_inv (fc : nat) (B : Z → Prop) (c : Connection) w : Prop := {
  ci_base : base fc B c w;
  ci_phase : phase fc c (obs (kern w)) (jobs (res w))
}.

(** The wait target of [c] is what it was, registrations included. *)
Definition same_wait (c : Connection) w (c' : Connection) w' : Prop :=
  want_ c' = want_ c ∧ client_ c' = client_ c ∧ upstream_ c' = upstream_ c ∧
  resolve_job_ c' = resolve_job_ c ∧ fdt (obs (kern w')) = fdt (obs (kern w)) ∧
  regs (obs (kern w')) = regs (obs (kern w)) ∧ jobs (res w') = jobs (res w).

(** The outcome of one member function. *)
Record step_ok (fc : nat) (B : Z → Prop) (c : Connection) w (cw : Connection * World K C) : Prop := {
  so_inv : conn_inv fc B cw.1 cw.2;
  so_frame : frame (owned c (jobs (res w))) (obs (kern w)) (obs (kern cw.2));
  so_owned fd f : owned cw.1 (jobs (res cw.2)) fd → fdt (obs (kern cw.2)) !! fd = Some f →
    owned c (jobs (res w)) fd ∨ (nfiles (obs (kern w)) ≤ f)%nat;
  so_jobs j jb : jobs (res w) !! j = Some jb → resolve_job_ c ≠ Some j →
    jobs (res cw.2) !! j = Some jb ∧ resolve_job_ cw.1 ≠ Some j;
  so_epoch : epoch_ cw.1 = wrap64 (epoch_ c + 1) ∨ (epoch_ cw.1 = epoch_ c ∧ same_wait c w cw.1 cw.2)
}.

(** The same for a part that always ends with a new wait target. *)
Record moved (fc : nat) (B : Z → Prop) (c : Connection) w (cw : Connection * World K C) : Prop := {
  mv_inv : conn_inv fc B cw.1 cw.2;
  mv_frame : frame (owned c (jobs (res w))) (obs (kern w)) (obs (kern cw.2));
  mv_owned fd f : owned cw.1 (jobs (res cw.2)) fd → fdt (obs (kern cw.2)) !! fd = Some f →
    owned c (jobs (res w)) fd ∨ (nfiles (obs (kern w)) ≤ f)%nat;
  mv_jobs j jb : jobs (res w) !! j = Some jb → resolve_job_ c ≠ Some j →
    jobs (res cw.2) !! j = Some jb ∧ resolve_job_ cw.1 ≠ Some j;
  mv_epoch : epoch_ cw.1 = wrap64 (epoch_ c + 1)
}.

(** A part before that, which keeps the epoch. *)
Record mid (c : Connection) w (c1 : Connection) w1 : Prop := {
  md_wf : obs_wf (obs (kern w));
  md_frame : frame (owned c (jobs (res w))) (obs (kern w)) (obs (kern w1));
  md_owned fd f : owned c1 (jobs (res w1)) fd → fdt (obs (kern w1)) !! fd = Some f →
    owned c (jobs (res w)) fd ∨ (nfiles (obs (kern w)) ≤ f)%nat;
  md_jobs j jb : jobs (res w) !! j = Some jb → resolve_job_ c ≠ Some j →
    jobs (res w1) !! j = Some jb ∧ resolve_job_ c1 ≠ Some j;
  md_epoch : epoch_ c1 = epoch_ c
}.

Lemma moved_step fc B c w cw : moved fc B c w cw → step_ok fc B c w cw.
Proof. intros [? ? ? ? ?]. split; auto. Qed.

Lemma mid_moved fc B c w c1 w1 cw : mid c w c1 w1 → moved fc B c1 w1 cw → moved fc B c w cw.
Proof.
  intros [Hw Hf Ho Hj He] [Hi Hf1 Ho1 Hj1 He1]. split; [done| | | |congruence].
  - by eapply frame_trans.
  - intros fd f Hfd Hx. destruct (Ho1 fd f Hfd Hx) as [Hfd1|?]; [|right; pose proof (fr_nfiles _ _ _ Hf); lia].
    destruct (fr_new _ _ _ Hf1 _ _ Hx) as [?|?]; [by apply Ho|right; pose proof (fr_nfiles _ _ _ Hf); lia].
  - intros j jb H1 H2. destruct (Hj j jb H1 H2). auto.
Qed.

(** A part that changes other fields only. *)
Lemma mid_fields c w c1 :
  obs_wf (obs (kern w)) → client_ c1 = client_ c → upstream_ c1 = upstream_ c →
  resolve_job_ c1 = resolve_job_ c → epoch_ c1 = epoch_ c → mid c w c1 w.
Proof.
  intros Hw Hc Hu Hj He. split; [done|by apply frame_refl| |by rewrite Hj|done].
  unfold owned. rewrite Hc, Hu, Hj. auto.
Qed.

(** A part that only touches the bytes of descriptors of [c]. *)
Lemma mid_effect c w k :
  obs_wf (obs (kern w)) → frame (owned c (jobs (res w))) (obs (kern w)) (obs k) →
  mid c w c (set_kern k w).
Proof. intros Hw Hf. split; auto. Qed.

(** ** Stability *)

Lemma closed_wframe D o o' f :
  wframe D o o' → (f < nfiles o)%nat → (∀ fd, fdt o !! fd ≠ Some f) → ∀ fd, fdt o' !! fd ≠ Some f.
Proof. intros Hf Hlt Hc fd H. destruct (fr_new _ _ _ Hf _ _ H); [by eapply Hc|lia]. Qed.

Lemma exchanged_wframe D o o' key v : wframe D o o' → exchanged o key v → exchanged o' key v.
Proof.
  intros Hf (f & r & body & Hlt & Hc & Hs & Hk & Hr).
  destruct (fr_file _ _ _ Hf f Hlt) as (Hs' & Hr' & _); [auto|].
  exists f, r, body. split; [pose proof (fr_nfiles _ _ _ Hf); lia|].
  split; [by eapply closed_wframe|]. by rewrite Hs', Hr'.
Qed.

Lemma cache_ok_wframe D o o' (rc : option C) : wframe D o o' → cache_ok rc o → cache_ok rc o'.
Proof.
  intros Hf Hc c Hrc. destruct (Hc c Hrc) as [Hi Hv]. split; [done|]. intros key v H.
  destruct (Hv key v H). eauto using exchanged_wframe.
Qed.

Lemma local_answer_wframe D o o' c c' v :
  wframe D o o' → req_ c' = req_ c → in_client_ c' = in_client_ c →
  local_answer o c v → local_answer o' c' v.
Proof.
  intros Hf Hr Hi [| | | |v' Hk Hs Hx]; try constructor; [|done|rewrite Hr; by eapply exchanged_wframe].
  unfold req_known in *. by rewrite Hr, Hi.
Qed.

(** The same for code that registers nothing. *)
Lemma closed_frame D o o' f :
  frame D o o' → (f < nfiles o)%nat → (∀ fd, fdt o !! fd ≠ Some f) → ∀ fd, fdt o' !! fd ≠ Some f.
Proof. intros [Hf _]. by eapply closed_wframe. Qed.

Lemma cache_ok_frame D o o' (rc : option C) : frame D o o' → cache_ok rc o → cache_ok rc o'.
Proof. intros [Hf _]. by eapply cache_ok_wframe. Qed.

Lemma local_answer_frame D o o' c c' v :
  frame D o o' → req_ c' = req_ c → in_client_ c' = in_client_ c →
  local_answer o c v → local_answer o' c' v.
Proof. intros [Hf _]. by eapply local_answer_wframe. Qed.

Lemma base_effect fc B c w k D :
  base fc B c w → frame D (obs (kern w)) (obs k) → fdt (obs k) = fdt (obs (kern w)) →
  base fc B c (set_kern k w).
Proof.
  intros [? Hfc ? ? ? Ha] Hf Ht. split; simpl; try done.
  - by eapply frame_wf.
  - pose proof (fr_nfiles _ _ _ Hf). lia.
  - by eapply cache_ok_frame.
  - intros fd. rewrite Ht. apply Ha.
Qed.

Lemma base_fields fc B c c1 w :
  client_ c1 = client_ c → upstream_ c1 = upstream_ c → base fc B c w → base fc B c1 w.
Proof. intros Hc Hu [? ? ? ? ? Ha]. split; try done. unfold accounted. by rewrite Hc, Hu. Qed.

(** ** Closing *)

Lemma frame_other D o o' fd f :
  obs_wf o → wframe D o o' → owns o fd f → ¬ D fd →
  owns o' fd f ∧ sent o' f = sent o f ∧ rcvd o' f = rcvd o f.
Proof.
  intros Hw Hf [Hpos Hfd] Hn. destruct (fr_file _ _ _ Hf f) as (? & ? & _).
  - by eapply ow_files.
  - intros fd' Hd H. assert (fd = fd') as -> by by eapply ow_inj. done.
  - split; [|done]. split; [done|]. by eapply fr_fd.
Qed.

(** [fd.reset()] on an [Fd]: closed if it held something. *)
Definition obs_reset (fd : Z) (o : Obs) : Obs := if valid fd then obs_close fd o else o.

Lemma obs_reset_frame fd o : obs_wf o → frame (λ x, x = fd) o (obs_reset fd o).
Proof. intros Hw. unfold obs_reset. destruct (valid fd); [by apply frame_close|by apply frame_refl]. Qed.

Lemma obs_reset_wf fd o : obs_wf o → obs_wf (obs_reset fd o).
Proof. intros Hw. eapply frame_wf. by apply obs_reset_frame. Qed.

Lemma obs_reset_lookup fd o x f :
  obs_wf o → fdt (obs_reset fd o) !! x = Some f → fdt o !! x = Some f ∧ x ≠ fd.
Proof.
  intros Hw. unfold obs_reset. destruct (valid fd) eqn:Hv; simpl.
  - by intros [? ?]%lookup_delete_Some.
  - intros H. split; [done|]. intros ->. apply (ow_pos o Hw) in H. apply valid_spec in H. congruence.
Qed.

Lemma obs_reset_bytes fd o :
  sent (obs_reset fd o) = sent o ∧ rcvd (obs_reset fd o) = rcvd o ∧ nfiles (obs_reset fd o) = nfiles o.
Proof. unfold obs_reset. by destruct (valid fd). Qed.

Lemma upstream_reset_spec fd c w :
  ∃ k, upstream_reset fd c w = (set_upstream fd c, set_kern k w) ∧
    obs k = obs_reset (upstream_ c) (obs (kern w)).
Proof.
  unfold upstream_reset, Fd_reset, obs_reset. eexists. split; [done|].
  destruct (valid _); [apply close_ok|done].
Qed.

Lemma client_reset_spec c w :
  ∃ k, client_reset c w = (set_client (-1) c, set_kern k w) ∧ obs k = obs_reset (client_ c) (obs (kern w)).
Proof.
  unfold client_reset, Fd_reset, obs_reset. eexists. split; [done|].
  destruct (valid _); [apply close_ok|done].
Qed.

(** Closing the upstream socket keeps everything accounted for. *)
Lemma base_upstream_reset fc B c w k :
  base fc B c w → obs k = obs_reset (upstream_ c) (obs (kern w)) →
  base fc B (set_upstream (-1) c) (set_kern k w).
Proof.
  intros [Hw Hfc ? ? Hc Ha] Ho. pose proof (obs_reset_frame (upstream_ c) _ Hw) as Hf.
  rewrite <-Ho in Hf. split; simpl; try done.
  - by eapply frame_wf.
  - pose proof (fr_nfiles _ _ _ Hf). lia.
  - by eapply cache_ok_frame.
  - intros fd [f H]. rewrite Ho in H. apply obs_reset_lookup in H as [H Hne]; [|done].
    destruct (Ha fd) as [?|[?|[?|?]]]; [by eexists|..]; by auto.
Qed.

Lemma owned_upstream c js : owned c js (upstream_ c).
Proof. right; by left. Qed.
Lemma owned_client c js : owned c js (client_ c).
Proof. by left. Qed.

Lemma owns_ne o fd fd' f f' : owns o fd f → owns o fd' f' → f ≠ f' → fd ≠ fd'.
Proof. intros [_ H] [_ H'] Hne ->. congruence. Qed.

(** The upstream socket, if there is one, is not the client's. *)
Definition upstream_apart (fc : nat) (c : Connection) (o : Obs) : Prop :=
  upstream_ c = -1 ∨ ∃ fu, owns o (upstream_ c) fu ∧ fu ≠ fc.

Lemma apart_ne fc c o : owns o (client_ c) fc → upstream_apart fc c o → client_ c ≠ upstream_ c.
Proof.
  intros Ho [->|(fu & Hu & Hne)]; [destruct Ho; lia|]. eapply owns_ne; [done..|by apply not_eq_sym].
Qed.

(** A step that changes none of the owned descriptors. *)
Ltac same_owned := let H := fresh in intros ? ? H _; left; exact H.

(** What is owned after giving up descriptors was owned before. *)
Lemma owned_shrink c c' js js' o (n : nat) :
  obs_wf o → client_ c' = client_ c ∨ client_ c' = -1 → upstream_ c' = upstream_ c ∨ upstream_ c' = -1 →
  resolve_job_ c' = None → ∀ fd f, owned c' js' fd → fdt o !! fd = Some f → owned c js fd ∨ (n ≤ f)%nat.
Proof.
  intros Hw Hc Hu Hj fd f Ho Hf. apply (ow_pos _ Hw) in Hf. left.
  destruct Ho as [->|[->|(j & jb & Hjj & _)]]; [| |congruence].
  - destruct Hc as [->|Hc]; [by left|lia].
  - destruct Hu as [->|Hu]; [right; by left|lia].
Qed.

Lemma fail_with_moved fc B c w v :
  base fc B c w → owns (obs (kern w)) (client_ c) fc → resolve_job_ c = None →
  sent (obs (kern w)) fc = [] → rcvd (obs (kern w)) fc = in_client_ c →
  upstream_apart fc c (obs (kern w)) → quiet c → local_answer (obs (kern w)) c v →
  moved fc B c w (fail_with v c w).
Proof.
  intros Hb Ho Hj Hs Hr Hup (_ & _ & Heof & _) Hv. unfold fail_with.
  destruct (upstream_reset_spec (-1) c w) as (k & -> & Hk). pose proof (ci_wf _ _ _ _ Hb) as Hw.
  pose proof (obs_reset_frame (upstream_ c) _ Hw) as Hf. rewrite <-Hk in Hf.
  assert (client_ c ≠ upstream_ c) as Hne by by eapply apart_ne.
  destruct (frame_other _ _ _ _ _ Hw Hf Ho Hne) as (Ho' & Hs' & Hr').
  split; simpl; [split|..]; simpl.
  - by eapply base_fields, base_upstream_reset, Hk.
  - unfold phase. simpl. rewrite Hs', Hr', Hs. split_and!; try done; [unfold zlen; lia|].
    eapply (local_answer_frame _ _ _ c); [exact Hf|done|done|done].
  - eapply frame_mono, Hf. intros fd _ ->. apply owned_upstream.
  - apply owned_shrink; simpl; auto. by eapply frame_wf.
  - intros j jb H _. by rewrite Hj.
  - done.
Qed.

(** What the client has received while the upstream socket may still be open. *)
Definition serving (o : Obs) (fc : nat) (c : Connection) : Prop :=
  sent o fc = [] ∨ (∃ v, local_answer o c v ∧ sent o fc `prefix_of` v) ∨
  (∃ fu, fu ≠ fc ∧ (fu < nfiles o)%nat ∧ (∀ fd, fdt o !! fd = Some fu → fd = upstream_ c) ∧
    req_known c ∧ sent o fu = upstream_bytes c ∧ sent o fc `prefix_of` rcvd o fu).

Lemma serving_closed o o' fc c c' :
  frame (owned c ∅) o o' → sent o' = sent o → rcvd o' = rcvd o →
  (∀ fd, fdt o' !! fd ≠ None → fd ≠ upstream_ c) →
  req_ c' = req_ c → in_client_ c' = in_client_ c → serving o fc c → served o' fc c'.
Proof.
  intros Hf Hs Hr Hc Hreq Hin. unfold serving, served. rewrite Hs, Hr.
  intros [?|[(v & Hv & ?)|(fu & ? & Hlt & Hfd & Hk & ? & ?)]]; [by left|right; left|right; right].
  - exists v. split; [by eapply (local_answer_frame _ _ _ c)|done].
  - exists fu. split; [done|]. split; [pose proof (fr_nfiles _ _ _ Hf); lia|]. split.
    + intros fd Hx. destruct (fr_new _ _ _ Hf _ _ Hx) as [Hx'|]; [|lia].
      apply (Hc fd); [by rewrite Hx|by apply Hfd].
    + unfold req_known, upstream_bytes, body_of in *. by rewrite Hreq, Hin.
Qed.

Lemma finish_spec c w :
  resolve_job_ c = None →
  ∃ k, finish c w = (set_client (-1) (set_upstream (-1) (set_resolve_job None
         (set_want WNone (set_state Done c)))), set_kern k w) ∧
    obs k = obs_reset (client_ c) (obs_reset (upstream_ c) (obs (kern w))).
Proof.
  intros Hj. unfold finish, resolve_job_reset.
  change (resolve_job_ (set_want WNone (set_state Done c))) with (resolve_job_ c).
  rewrite Hj. cbn [drop_ptr]. set (c1 := set_resolve_job None (set_want WNone (set_state Done c))).
  destruct (upstream_reset_spec (-1) c1 (set_res (res w) (kern w) w)) as (k1 & -> & Hk1).
  destruct (client_reset_spec (set_upstream (-1) c1) (set_kern k1 (set_res (res w) (kern w) w))) as (k2 & -> & Hk2).
  exists k2. split; [by destruct w|]. rewrite Hk2. simpl. by rewrite Hk1.
Qed.

Lemma owns_only o fd f : obs_wf o → owns o fd f → ∀ x, fdt o !! x = Some f → x = fd.
Proof. intros Hw [_ Hf] x Hx. by eapply ow_inj. Qed.

Lemma finish_moved fc B c w :
  base fc B c w → resolve_job_ c = None → rcvd (obs (kern w)) fc = in_client_ c →
  (∀ fd, fdt (obs (kern w)) !! fd = Some fc → fd = client_ c) →
  serving (obs (kern w)) fc c → complete (obs (kern w)) fc c → moved fc B c w (finish c w).
Proof.
  intros Hb Hj Hr Hown Hv Hcomp. destruct (finish_spec c w Hj) as (k & -> & Hk).
  pose proof (ci_wf _ _ _ _ Hb) as Hw. pose proof (obs_reset_wf (upstream_ c) _ Hw) as Hw1.
  pose proof (obs_reset_frame (upstream_ c) _ Hw) as Hf1.
  pose proof (obs_reset_frame (client_ c) _ Hw1) as Hf2. rewrite <-Hk in Hf2.
  assert (∀ js, frame (owned c js) (obs (kern w)) (obs k)) as Hf.
  { intros js. eapply frame_trans; [done| |exact Hf2|intros fd f -> _; left; apply owned_client].
    eapply frame_mono, Hf1. intros fd _ ->. apply owned_upstream. }
  destruct (obs_reset_bytes (upstream_ c) (obs (kern w))) as (Hs1 & Hr1 & Hn1).
  destruct (obs_reset_bytes (client_ c) (obs_reset (upstream_ c) (obs (kern w)))) as (Hs2 & Hr2 & Hn2).
  rewrite <-Hk in Hs2, Hr2, Hn2. rewrite Hs1 in Hs2. rewrite Hr1 in Hr2. rewrite Hn1 in Hn2.
  assert (∀ fd f, fdt (obs k) !! fd = Some f → fdt (obs (kern w)) !! fd = Some f ∧ fd ≠ upstream_ c ∧ fd ≠ client_ c)
    as Hclosed.
  { intros fd f H. rewrite Hk in H. apply obs_reset_lookup in H as [H Hne]; [|done].
    apply obs_reset_lookup in H as [H Hne']; [|done]. done. }
  destruct Hb as [_ Hfc Hfr Hd Hc Ha]. split; simpl; [split; [split|]|..]; simpl; try done.
  - exact (fr_wf _ _ _ (Hf ∅)).
  - by rewrite Hn2.
  - exact (cache_ok_frame _ _ _ _ (Hf ∅) Hc).
  - intros fd [f H]. simpl. apply Hclosed in H as (H & ? & ?). destruct (Ha fd) as [?|[?|[?|?]]]; [by eexists|..]; auto; done.
  - unfold phase. simpl. rewrite Hr2. split_and!; try done.
    { intros fd H. apply Hclosed in H as (H & _ & Hne). by apply Hne, Hown. }
    + eapply (serving_closed _ _ _ c); [apply Hf|done|done| |done|done|done].
      intros fd [f H]%not_eq_None_Some. by apply Hclosed in H as (_ & ? & _).
    + intros He. destruct (Hcomp He) as (fu & ? & ? & Hno & Hsu & Hss). exists fu. rewrite Hs2, Hr2, Hn2.
      split_and!; try done. by eapply closed_frame; [apply (Hf ∅)|..].
  - apply owned_shrink; simpl; auto. exact (frame_wf _ _ _ (Hf ∅)).
Qed.

(** ** Connecting *)

(** The request is complete and rebuilt, nothing is connected. *)
Record to_connect (fc : nat) (c : Connection) (o : Obs) : Prop := {
  tc_client : owns o (client_ c) fc;
  tc_upstream : upstream_ c = -1;
  tc_job : resolve_job_ c = None;
  tc_sent : sent o fc = [];
  tc_rcvd : rcvd o fc = in_client_ c;
  tc_quiet : quiet c;
  tc_ready : request_ready c;
  tc_out : out_upstream_ c = upstream_bytes c;
  tc_off : out_upstream_off_ c = 0
}.

Lemma to_connect_frame fc c o o' D :
  obs_wf o → frame D o o' → ¬ D (client_ c) → to_connect fc c o → to_connect fc c o'.
Proof.
  intros Hw Hf Hn [Ho ? ? Hs Hr ? ? ? ?].
  destruct (frame_other _ _ _ _ _ Hw Hf Ho Hn) as (? & Hs' & Hr'). split; try done; congruence.
Qed.

Lemma to_connect_fail fc B c w :
  base fc B c w → to_connect fc c (obs (kern w)) → moved fc B c w (fail_with bad_gateway c w).
Proof.
  intros Hb [? ? ? ? ? ? ? ? ?]. apply fail_with_moved; try done; [by left|constructor].
Qed.

(** One attempt succeeded, or is under way: the new socket is the upstream. *)
Lemma connected_moved fc B c w k st fd s i :
  base fc B c w → to_connect fc c (obs (kern w)) →
  attempt st fd (obs (kern w)) (obs k) → st ≠ ConnectFailed → s = SendingUpstream ∨ s = Connecting →
  moved fc B c w (set_want WriteUpstream (set_state s (set_upstream fd (set_endpoint_idx i c))), set_kern k w).
Proof.
  intros Hb Ht Hat Hst Hs. pose proof (ci_wf _ _ _ _ Hb) as Hw. pose proof (attempt_frame _ _ _ _ Hw Hat) as Hf.
  assert (to_connect fc c (obs k)) as [? ? ? ? ? ? ? ? ?] 
    by (eapply to_connect_frame; [exact Hw|exact Hf|tauto|done]).
  destruct (at_opened _ _ _ _ Hat Hst) as (fu & Hpos & Hfree & Hfu & Hfdt & Hsu & Hru & _).
  destruct Hb as [_ Hfc ? ? Hc Ha]. split; simpl; [split; [split|]|..]; simpl; try done.
  - by eapply frame_wf.
  - pose proof (fr_nfiles _ _ _ Hf). lia.
  - by eapply cache_ok_frame.
  - intros x. rewrite Hfdt. intros [<-|[f Hx]]%lookup_insert_is_Some'; simpl; [auto|].
    destruct (Ha x) as [?|[?|[Hx'|?]]]; [by eexists|by auto..| |by auto].
    rewrite Hx', (tc_upstream _ _ _ Ht) in Hx. apply (ow_pos _ Hw) in Hx. lia.
  - assert (∃ fu, owns (obs k) fd fu ∧ fu ≠ fc ∧ sent (obs k) fu = [] ∧ rcvd (obs k) fu = []) as Hown.
    { exists fu. split; [split; [done|]; rewrite Hfdt; apply lookup_insert_eq|]. split; [lia|done]. }
    unfold phase. simpl. destruct Hs as [->| ->]; split_and!; try done; [..|].
    + rewrite tc_off0. lia.
    + rewrite tc_off0. unfold zlen. lia.
    + destruct Hown as (g & ? & ? & ? & ?). exists g. by rewrite tc_off0.
  - eapply frame_mono, Hf. done.
  - intros x f [->|[->|(j & jb & Hj & _)]] Hx; simpl in *; [left; by left| |congruence].
    rewrite Hfdt, lookup_insert_eq in Hx. simplify_eq. right. lia.
Qed.

Lemma connect_loop_moved fuel fc B c w :
  base fc B c w → to_connect fc c (obs (kern w)) → moved fc B c w (connect_loop fuel c w).
Proof.
  revert c w; induction fuel as [|fuel IH]; intros c w Hb Ht; simpl; [by apply to_connect_fail|].
  destruct (endpoints_ c !! endpoint_idx_ c) as [ep|]; [|by apply to_connect_fail].
  destruct (start_connect ep (kern w)) as [[st fd] k] eqn:E. pose proof (ci_wf _ _ _ _ Hb) as Hw.
  apply start_connect_spec in E; [|done]. pose proof (attempt_frame _ _ _ _ Hw E) as Hf.
  assert (∀ s, s = SendingUpstream ∨ s = Connecting → st ≠ ConnectFailed →
    moved fc B c w (let '(c, w) := upstream_reset fd (set_endpoint_idx (S (endpoint_idx_ c)) c) (set_kern k w) in
      (set_want WriteUpstream (set_state s c), w))) as Hopen.
  { intros s Hs Hst. destruct (upstream_reset_spec fd (set_endpoint_idx (S (endpoint_idx_ c)) c) (set_kern k w))
      as (k' & -> & Hk'). simpl in Hk'. rewrite (tc_upstream _ _ _ Ht) in Hk'.
    change (set_kern k' (set_kern k w)) with (set_kern k' w).
    eapply connected_moved; [done|done| |exact Hst|done]. by rewrite Hk'. }
  destruct st; [by apply Hopen; auto|by apply Hopen; auto|]. clear Hopen.
  destruct (at_failed _ _ _ _ E) as [_ Hfdt]; [done|].
  eapply mid_moved; [|apply IH].
  - split; simpl; [done|by eapply frame_mono, Hf| |auto|done]. intros x f Hx _. left. exact Hx.
  - apply (base_fields _ _ c); [done|done|]. by eapply base_effect.
  - simpl. eapply (to_connect_frame _ _ (obs (kern w))); [done|exact Hf|tauto|]. by destruct Ht.
Qed.

(** A part that changes neither the descriptors nor the jobs. *)
Lemma mid_silent c w c1 r k :
  obs_wf (obs (kern w)) → obs k = obs (kern w) → jobs r = jobs (res w) →
  client_ c1 = client_ c → upstream_ c1 = upstream_ c → resolve_job_ c1 = resolve_job_ c →
  epoch_ c1 = epoch_ c → mid c w c1 (set_res r k w).
Proof.
  intros Hw Ho Hj Hc Hu Hjb He. split; simpl; rewrite ?Ho, ?Hj; [done|by apply frame_refl| |by rewrite Hjb|done].
  unfold owned. rewrite Hc, Hu, Hjb. auto.
Qed.

Lemma base_silent fc B c w c1 r k :
  base fc B c w → obs k = obs (kern w) → jobs r = jobs (res w) → next_job r = next_job (res w) →
  cache_filled r → client_ c1 = client_ c → upstream_ c1 = upstream_ c →
  base fc B c1 (set_res r k w).
Proof.
  intros [? ? Hfr ? ? Ha] Ho Hj Hn Hd Hc Hu. split; simpl; rewrite ?Ho, ?Hj; try done.
  - intros j. simpl. rewrite Hj, Hn. apply Hfr.
  - unfold accounted. by rewrite Hc, Hu.
Qed.

Lemma begin_connect_moved fc B c w :
  base fc B c w → to_connect fc c (obs (kern w)) → moved fc B c w (begin_connect c w).
Proof. apply connect_loop_moved. Qed.

Lemma finish_connect_moved fc B c w :
  conn_inv fc B c w → state_ c = Connecting → moved fc B c w (finish_connect c w).
Proof.
  intros [Hb Hp] Hst. unfold phase in Hp. rewrite Hst in Hp.
  destruct Hp as (Hwt & Ho & Hj & Hs & Hr & Hq & Hrd & Hout & Hoff & fu & Hu & Hne & Hsu & Hru).
  pose proof (ci_wf _ _ _ _ Hb) as Hw.
  unfold finish_connect, connect_succeeded. destruct (sys_so_error _ _) as [res0 k] eqn:E.
  assert (∃ ok, (match res0 with inl _ => (false, k) | inr e => (e =? 0, k) end) = (ok, k)) as [ok ->]
    by (destruct res0; eauto).
  apply so_error_silent in E. unfold silent in E.
  assert (base fc B c (set_kern k w)) as Hbk
    by (eapply base_effect; [done|rewrite E; by apply (frame_refl (λ _, False))|by rewrite E]).
  assert (mid c w c (set_kern k w)) as Hmk by (apply mid_effect; [done|rewrite E; by apply frame_refl]).
  destruct ok; cbn [negb].
  - split; simpl; [split; [by apply (base_fields _ _ c)|]|rewrite E; by apply frame_refl|same_owned|by auto|done].
    unfold phase. simpl. rewrite E. split_and!; try done.
    + rewrite Hoff. lia.
    + rewrite Hoff. unfold zlen. lia.
    + exists fu. by rewrite Hoff.
  - destruct (upstream_reset_spec (-1) c (set_kern k w)) as (k2 & -> & Hk2). simpl in Hk2.
    rewrite E in Hk2. pose proof (obs_reset_frame (upstream_ c) _ Hw) as Hf. rewrite <-Hk2 in Hf.
    change (set_kern k2 (set_kern k w)) with (set_kern k2 w).
    eapply mid_moved; [|apply begin_connect_moved].
    + split; simpl; [done|eapply frame_mono, Hf; intros x _ ->; apply owned_upstream| |by auto|done].
      intros x f [->|[->|Hx]] Hxf; [left; by left| |left; by right; right].
      apply (ow_pos _ (fr_wf _ _ _ Hf)) in Hxf. simpl in Hxf. lia.
    + by apply base_upstream_reset.
    + apply (to_connect_frame _ _ (obs (kern w)) _ (λ x, x = upstream_ c)); [done|done|simpl|by split].
      by eapply owns_ne, not_eq_sym.
Qed.

(** ** Resolving *)

Lemma to_connect_fields fc c c1 o :
  to_connect fc c o → client_ c1 = client_ c → upstream_ c1 = upstream_ c → resolve_job_ c1 = None →
  in_client_ c1 = in_client_ c → quiet c1 → parsed_ c1 = true → req_ c1 = req_ c → cache_key_ c1 = cache_key_ c →
  out_upstream_ c1 = out_upstream_ c → out_upstream_off_ c1 = out_upstream_off_ c → to_connect fc c1 o.
Proof.
  intros [? ? ? ? ? ? [Hk [? ?]] ? ?] Hc Hu Hj Hi Hq Hp Hr Hkey Ho Hoff.
  split; rewrite ?Hc, ?Hu, ?Hj, ?Hi, ?Ho, ?Hoff; try done.
  - unfold request_ready, req_known in *. by rewrite Hi, Hr, Hkey.
  - unfold upstream_bytes, body_of. by rewrite Hr, Hi.
Qed.

Lemma start_res host port out r (k : K) st out' job r' k' :
  start host port out None r k = (st, out', job, r', k') →
  (st ≠ Pending → jobs r' = jobs r ∧ next_job r' = next_job r) ∧
  (st = Pending → next_job r' = S (next_job r)) ∧ cache_ r' ⊆ cache_ r.
Proof.
  intros [(-> & _ & (_ & ? & ? & _) & -> & _)|H]%start_cases; [done|].
  destruct H as (r1 & k1 & ok & re & we & k2 & E1 & _ & _ & Hcase).
  apply cache_get_spec in E1 as ((? & Hj & Hn & _) & Hsub & _).
  destruct Hcase as [(-> & _ & -> & _)|(-> & _ & _ & _ & _ & ->)]; [done|].
  split; [done|]. split; [|done]. simpl. by rewrite Hn.
Qed.

Lemma cache_filled_sub r r' : cache_filled r → cache_ r' ⊆ cache_ r → cache_filled r'.
Proof. intros Hc Hsub key e He. by eapply Hc, lookup_weaken, Hsub. Qed.

Lemma fresh_ne r j jb : jobs_fresh r → jobs r !! j = Some jb → j ≠ next_job r.
Proof. intros Hfr Hj ->. assert (next_job r < next_job r)%nat by (apply Hfr; by eexists). lia. Qed.

(** A lookup was queued: the connection waits for its pipe. *)
Lemma pending_moved fc B c w job r k eps :
  base fc B c w → to_connect fc c (obs (kern w)) →
  started Pending job (res w) r (obs (kern w)) (obs k) → cache_filled r → next_job r = S (next_job (res w)) →
  moved fc B c w (set_want ReadResolver (set_state Resolving (set_resolve_job job (set_endpoints eps c))),
                  set_res r k w).
Proof.
  intros Hb Ht [Hf _ _ Hp] Hcf Hnj. destruct Hp as (jb & -> & Hj & _ & _ & _ & Hpi & _); [done|].
  pose proof (ci_wf _ _ _ _ Hb) as Hw.
  assert (to_connect fc c (obs k)) as Ht' by (eapply to_connect_frame; [exact Hw|exact Hf|tauto|done]).
  destruct Hb as [_ Hfc Hfr Hd Hc Ha], Ht' as [? ? ? ? ? ? ? ? ?], Hpi as [Hr Hwr Hne [Hfr1 Hfr2] Hfdt _].
  split; simpl; [split; [split|]|..]; simpl; try done.
  - by eapply frame_wf.
  - pose proof (fr_nfiles _ _ _ Hf). lia.
  - intros i. simpl. rewrite Hj, Hnj. intros [<-|Hi]%lookup_insert_is_Some'; [lia|]. apply Hfr in Hi. lia.
  - by eapply cache_ok_frame.
  - intros x. rewrite Hfdt, Hj. simpl.
    assert (∀ x, x = read_end jb ∨ x = write_end jb → job_fd (<[next_job (res w):=jb]> (jobs (res w))) x) as Hnew.
    { intros y Hy. exists (next_job (res w)), jb. by rewrite lookup_insert_eq. }
    intros [<-|[<-|Hx]%lookup_insert_is_Some']%lookup_insert_is_Some'; [by auto 6..|].
    destruct (Ha x Hx) as [?|[?|[?|(j & jb' & Hj' & ?)]]]; [by auto..|]. right; right; right.
    exists j, jb'. rewrite lookup_insert_ne; [done|]. by eapply not_eq_sym, fresh_ne.
  - unfold phase. simpl. split_and!; try done. exists (next_job (res w)), jb, (nfiles (obs (kern w))).
    rewrite Hj, lookup_insert_eq. split; [done|]. split; [done|].
    split; [split; [done|]; by rewrite Hfdt, lookup_insert_ne, lookup_insert_eq|]. split; [lia|]. right.
    exists (S (nfiles (obs (kern w)))). split; [split; [done|]; by rewrite Hfdt, lookup_insert_eq|lia].
  - by eapply frame_mono, Hf.
  - intros x f [->|[->|(i & ib & Hi & Hib & Hx)]] Hxf; simpl in *; [left; by left|left; right; by left|].
    injection Hi as <-. rewrite Hj, lookup_insert_eq in Hib. simplify_eq. right. rewrite Hfdt in Hxf.
    apply lookup_insert_Some in Hxf as [[_ <-]|[? Hxf]]; [lia|].
    apply lookup_insert_Some in Hxf as [[_ <-]|[? Hxf]]; [lia|]. naive_solver.
  - intros i ib Hi _. assert (i ≠ next_job (res w)) by by eapply fresh_ne.
    rewrite Hj, lookup_insert_ne by done. split; [done|congruence].
Qed.

Lemma begin_resolve_moved cfg fc B c w :
  base fc B c w → to_connect fc c (obs (kern w)) → moved fc B c w (begin_resolve cfg c w).
Proof.
  intros Hb Ht. pose proof (ci_wf _ _ _ _ Hb) as Hw. unfold begin_resolve. destruct (async_resolve cfg); simpl.
  - rewrite (tc_job _ _ _ Ht). destruct (start _ _ _ _ _ _) as [[[[st eps] job] r] k] eqn:E.
    pose proof (start_res _ _ _ _ _ _ _ _ _ _ E) as (Hn & Hp & Hsub). apply start_spec in E; [|done].
    assert (cache_filled r) as Hcf by (eapply cache_filled_sub; [apply (ci_dns _ _ _ _ Hb)|done]).
    destruct st.
    + destruct (sd_hit _ _ _ _ _ _ E) as (Ho & -> & Hj); [done|]. destruct Hn as [_ Hn]; [done|].
      eapply mid_moved; [apply mid_silent|apply begin_connect_moved]; try done.
      * by rewrite (tc_job _ _ _ Ht).
      * by eapply base_silent.
      * simpl. rewrite Ho. by eapply to_connect_fields; [exact Ht|..]; destruct Ht as [? ? ? ? ? ? (? & ? & ?) ? ?].
    + by apply pending_moved; auto.
    + destruct (sd_failed _ _ _ _ _ _ E) as (Hfdt & -> & Hj & _); [done|]. destruct Hn as [_ Hn]; [done|].
      eapply mid_moved; [|apply to_connect_fail].
      * split; simpl; [done|by eapply frame_mono, E| |by rewrite Hj|done].
        unfold owned. rewrite Hj. simpl. rewrite (tc_job _ _ _ Ht). auto.
      * destruct Hb as [_ Hfc Hfr Hd Hc Ha]. pose proof (sd_frame _ _ _ _ _ _ E) as Hf. split; simpl; try done.
        -- by eapply frame_wf.
        -- pose proof (fr_nfiles _ _ _ Hf). lia.
        -- intros i. simpl. rewrite Hj, Hn. apply Hfr.
        -- by eapply cache_ok_frame.
        -- unfold accounted. rewrite Hfdt, Hj. exact Ha.
      * simpl. eapply (to_connect_frame _ _ (obs (kern w))); [done|apply E|tauto|].
        by eapply to_connect_fields; [exact Ht|..]; destruct Ht as [? ? ? ? ? ? (? & ? & ?) ? ?].
  - destruct (resolve_blocking _ _ _ _ _) as [[[ok eps] r] k] eqn:E.
    pose proof (resolve_blocking_silent _ _ _ _ _ _ _ _ E) as Hs. unfold silent in Hs.
    apply resolve_blocking_spec in E as ((_ & Hj & Hn & _) & Hcf & _); [|apply (ci_dns _ _ _ _ Hb)].
    assert (∀ c1, client_ c1 = client_ c → upstream_ c1 = upstream_ c → base fc B c1 (set_res r k w)) as Hb'.
    { intros. by eapply base_silent. }
    assert (∀ i, to_connect fc (set_endpoint_idx i (set_endpoints eps c)) (obs k)) as Ht'.
    { intros i. rewrite Hs. by eapply to_connect_fields; [exact Ht|..]; destruct Ht as [? ? ? ? ? ? (? & ? & ?) ? ?]. }
    destruct ok; simpl.
    + eapply mid_moved; [|apply begin_connect_moved; [by apply Hb'|apply Ht']]. by apply mid_silent.
    + eapply mid_moved; [|apply to_connect_fail; [by apply Hb'|by destruct (Ht' 0%nat)]]. by apply mid_silent.
Qed.

Lemma close_job_resets jb (k : K) :
  obs (close_job jb k) = obs_reset (read_end jb) (obs_reset (write_end jb) (obs k)).
Proof. apply close_job_obs. Qed.

(** Letting go of the job: its pipe is closed unless the resolver thread still
refers to it, in which case the job keeps its descriptors. *)
Lemma job_reset_spec fc B c w j jb :
  base fc B c w → resolve_job_ c = Some j → jobs (res w) !! j = Some jb →
  ∃ w1, resolve_job_reset c w = (set_resolve_job None c, w1) ∧
    mid c w (set_resolve_job None c) w1 ∧ base fc B (set_resolve_job None c) w1 ∧
    frame (λ x, x = read_end jb ∨ x = write_end jb) (obs (kern w)) (obs (kern w1)).
Proof.
  intros [Hw Hfc Hfr Hd Hc Ha] Hrj Hj. unfold resolve_job_reset. rewrite Hrj. simpl.
  destruct (drop_job j (res w) (kern w)) as [r k] eqn:E. eexists. split; [done|].
  pose proof (drop_job_spec _ _ _ _ _ _ Hj E) as (_ & Hn & Hca & _ & Hjs).
  assert (frame (λ x, x = read_end jb ∨ x = write_end jb) (obs (kern w)) (obs k) ∧
    ∀ x, is_Some (fdt (obs k) !! x) → is_Some (fdt (obs (kern w)) !! x) ∧
      (jobs r !! j = None → x ≠ read_end jb ∧ x ≠ write_end jb) ∧
      (jobs r !! j ≠ None → ∃ n, jobs r !! j = Some (set_refs n jb))) as [Hf Hx].
  { unfold drop_job in E. rewrite Hj in E. case_bool_decide as Hrefs; simplify_eq.
    - split; [by apply close_job_frame|]. intros x [f Hx]. simpl. rewrite lookup_delete_eq.
      rewrite close_job_resets in Hx. apply obs_reset_lookup in Hx as [Hx ?]; [|by apply obs_reset_wf].
      apply obs_reset_lookup in Hx as [Hx ?]; [|done]. split; [by eexists|]. done.
    - split; [by apply frame_refl|]. intros x Hx. simpl. rewrite lookup_insert_eq. split; [done|].
      split; [done|eauto]. }
  assert (∀ i, i ≠ j → jobs r !! i = jobs (res w) !! i) as Hne.
  { intros i Hi. rewrite Hjs. case_decide; [by rewrite lookup_delete_ne|by rewrite lookup_insert_ne]. }
  split; [split|split; [split|]]; simpl; try done.
  - eapply frame_mono, Hf. intros x _ Hxx. right; right. exists j, jb. done.
  - intros x f [->|[->|(j' & ? & ? & _)]] _; [left; by left|left; right; by left|done].
  - intros i ib Hi Hij. rewrite Hne; [done|congruence].
  - by eapply frame_wf.
  - pose proof (fr_nfiles _ _ _ Hf). lia.
  - intros i Hi. simpl in *. rewrite Hn. apply Hfr. destruct (decide (i = j)) as [->|Hi']; [by eexists|].
    by rewrite <-Hne.
  - intros key e. simpl. rewrite Hca. apply Hd.
  - by eapply cache_ok_frame.
  - intros x Hxs. destruct (Hx x Hxs) as (Hxo & Hgone & Hkept). simpl.
    destruct (Ha x Hxo) as [?|[?|[?|(i & ib & Hi & Hix)]]]; [by auto..|].
    destruct (decide (i = j)) as [->|Hij]; [|right; right; right; exists i, ib; by rewrite Hne].
    simplify_eq. destruct (jobs r !! j) as [jb'|] eqn:Hjr.
    + destruct Hkept as [n Hkept]; [done|]. right; right; right. exists j, (set_refs n jb).
      split; [by rewrite Hjr|done].
    + destruct Hgone; [done|]. naive_solver.
Qed.

Lemma sys_read_effect fd n (k : K) a k' : sys_read fd n k = (a, k') → ∃ bs, recv_effect fd bs k k'.
Proof.
  destruct a as [e|bs]; intros E.
  - apply read_err in E as [E _]. exists []. by apply recv_effect_silent.
  - apply read_ok in E as (f & Hf & E). exists bs. by eapply recv_effect_obs.
Qed.

(** Rewriting the connection's own job without touching its pipe. *)
Lemma upd_job_mid fc B c c1 w j jb jb1 :
  base fc B c w → resolve_job_ c = Some j → jobs (res w) !! j = Some jb →
  read_end jb1 = read_end jb → write_end jb1 = write_end jb →
  client_ c1 = client_ c → upstream_ c1 = upstream_ c → resolve_job_ c1 = Some j → epoch_ c1 = epoch_ c →
  mid c w c1 (set_res (upd_job j jb1 (res w)) (kern w) w) ∧
  base fc B c1 (set_res (upd_job j jb1 (res w)) (kern w) w).
Proof.
  intros [Hw Hfc Hfr Hd Hc Ha] Hrj Hj Hre Hwe Hcl Hup Hj1 He. split; [split|split]; simpl; try done.
  - by apply frame_refl.
  - intros x f Hx _. left. destruct Hx as [->|[->|(i & ib & Hi & Hib & Hx)]];
      [left; done|right; left; done|]. rewrite Hj1 in Hi. injection Hi as <-.
    rewrite lookup_insert_eq in Hib. simplify_eq. right; right. exists j, jb. by rewrite <-Hre, <-Hwe.
  - intros i ib Hi Hij. rewrite Hrj in Hij. rewrite lookup_insert_ne, Hj1 by congruence. done.
  - intros i. simpl. intros [<-|Hi]%lookup_insert_is_Some'; [|by apply Hfr]. apply Hfr. by eexists.
  - intros x Hx. rewrite Hcl, Hup. destruct (Ha x Hx) as [?|[?|[?|(i & ib & Hi & Hix)]]]; [by auto..|].
    right; right; right. destruct (decide (i = j)) as [->|Hij].
    + exists j, jb1. rewrite lookup_insert_eq, Hre, Hwe. by simplify_eq.
    + exists i, ib. by rewrite lookup_insert_ne.
Qed.

(** The facts of the Resolving state that make the request ready to send. *)
Lemma resolving_to_connect fc c c1 o :
  owns o (client_ c) fc → upstream_ c = -1 → sent o fc = [] → rcvd o fc = in_client_ c → quiet c →
  request_ready c → out_upstream_ c = upstream_bytes c → out_upstream_off_ c = 0 →
  c1 = c ∨ (∃ eps, c1 = set_endpoints eps c) → to_connect fc (set_resolve_job None c1) o.
Proof. intros ? ? ? ? ? ? ? ? [->|[eps ->]]; by split. Qed.

Lemma finish_resolve_ok fc B c w :
  conn_inv fc B c w → state_ c = Resolving → step_ok fc B c w (finish_resolve c w).
Proof.
  intros [Hb Hp] Hst. pose proof Hp as Hp0. unfold phase in Hp. rewrite Hst in Hp.
  destruct Hp as (Hwt & Ho & Hup & Hs & Hr & Hq & Hrd & Hout & Hoff & j & jb & fr & Hrj & Hj & Hre & Hfr & Hwe).
  pose proof (ci_wf _ _ _ _ Hb) as Hw. unfold finish_resolve. rewrite Hrj, Hj.
  destruct (sys_read _ _ _) as [a k] eqn:E. apply sys_read_effect in E as [bs E].
  pose proof (recv_effect_frame _ _ _ _ Hw E) as Hf. pose proof (re_fdt _ _ _ _ E) as Hfdt.
  assert (client_ c ≠ read_end jb) as Hne by by eapply owns_ne, not_eq_sym.
  destruct (frame_other _ _ _ _ _ Hw Hf Ho Hne) as (Ho' & Hs' & Hr').
  assert (base fc B c (set_kern k w)) as Hbk by by eapply base_effect.
  assert (frame (owned c (jobs (res w))) (obs (kern w)) (obs k)) as Hf'.
  { eapply frame_mono, Hf. intros x _ ->. right; right. exists j, jb. auto. }
  destruct (j_ready jb) eqn:Hready; cbn [negb].
  2: { split; simpl; [|done|same_owned|done|].
    - split; [done|]. unfold phase in *. rewrite Hst in *. unfold owns in *. simpl. rewrite Hfdt, Hs', Hr'. exact Hp0.
    - right. split; [done|]. split_and!; try done. exact (re_regs _ _ _ _ E). }
  apply moved_step. apply (mid_moved _ _ _ _ c (set_kern k w)); [by apply mid_effect|].
  set (cw := if j_ok jb then _ else _).
  assert (∃ c1 w1 jb1, cw = (c1, w1) ∧ mid c (set_kern k w) c1 w1 ∧ base fc B c1 w1 ∧ resolve_job_ c1 = Some j ∧
    jobs (res w1) !! j = Some jb1 ∧ read_end jb1 = read_end jb ∧ write_end jb1 = write_end jb ∧
    obs (kern w1) = obs k ∧ (c1 = c ∨ ∃ eps, c1 = set_endpoints eps c))
    as (c1 & w1 & jb1 & -> & Hm1 & Hb1 & Hrj1 & Hj1 & Hre1 & Hwe1 & Ho1 & Hc1).
  { subst cw. destruct (j_ok jb).
    - destruct (upd_job_mid fc B c (set_endpoints (j_endpoints jb) c) (set_kern k w) j jb
        (set_result [] true jb)) as [? ?]; try done.
      eexists _, _, (set_result [] true jb). split; [done|]. split_and!; try done; [|by right; eexists].
      simpl. by rewrite lookup_insert_eq.
    - eexists _, _, jb. split; [done|]. split_and!; try done; [|by left]. by apply mid_fields; [apply Hbk|..]. }
  eapply mid_moved; [exact Hm1|]. destruct (job_reset_spec fc B c1 w1 j jb1) as (w2 & -> & Hm2 & Hb2 & Hf2); [done..|].
  eapply mid_moved; [exact Hm2|]. rewrite Ho1, Hre1, Hwe1 in Hf2.
  assert (to_connect fc (set_resolve_job None c1) (obs k)) as Ht.
  { eapply (resolving_to_connect _ c); try done; congruence. }
  assert (to_connect fc (set_resolve_job None c1) (obs (kern w2))) as Ht2.
  { eapply to_connect_frame; [exact (fr_wf _ _ _ Hf)|exact Hf2| |exact Ht]. simpl.
    assert (client_ c1 = client_ c) as -> by by destruct Hc1 as [->|[? ->]]. intros [?|Hcw]; [done|].
    destruct Hwe as [Hwe|(fw & Hwo & ? & _)]; [destruct Ho; lia|].
    eapply (owns_ne _ (client_ c) (write_end jb)); [exact Ho|exact Hwo|by apply not_eq_sym|exact Hcw]. }
  destruct (j_ok jb); cbn [negb]; [|by apply to_connect_fail].
  eapply mid_moved; [|apply begin_connect_moved; [by eapply base_fields, Hb2|]]; [by apply mid_fields; [apply Hb2|..]|].
  by destruct Ht2.
Qed.

(** ** Reading the request *)

(** A connection that is still reading, with everything consistent. *)
Record reading (fc : nat) (c : Connection) (o : Obs) : Prop := {
  rd_state : state_ c = ReadingRequest;
  rd_want : want_ c = ReadClient;
  rd_client : owns o (client_ c) fc;
  rd_upstream : upstream_ c = -1;
  rd_job : resolve_job_ c = None;
  rd_sent : sent o fc = [];
  rd_rcvd : rcvd o fc = in_client_ c;
  rd_quiet : quiet c;
  rd_key : cache_key_ c = []
}.

Lemma reading_phase fc c o js :
  reading fc c o → (if parsed_ c then req_known c else req_ c = Request_default) → phase fc c o js.
Proof. intros [Hst ? ? ? ? ? ? ? ?] Hr. unfold phase. rewrite Hst. split_and!; done. Qed.

(** A step that stays in this state. *)
Lemma reading_stays fc B c w c1 k :
  base fc B c w → reading fc c (obs (kern w)) → frame (λ x, x = client_ c) (obs (kern w)) (obs k) →
  fdt (obs k) = fdt (obs (kern w)) → regs (obs k) = regs (obs (kern w)) →
  reading fc c1 (obs k) → (if parsed_ c1 then req_known c1 else req_ c1 = Request_default) →
  client_ c1 = client_ c → epoch_ c1 = epoch_ c → step_ok fc B c w (c1, set_kern k w).
Proof.
  intros Hb Hrd Hf Hfdt Hregs Hrd1 Hreq Hc He. split; simpl; [split| | | |].
  - eapply (base_fields _ _ c); [done| |by eapply base_effect]. destruct Hrd, Hrd1; congruence.
  - by apply reading_phase.
  - eapply frame_mono, Hf. intros x _ ->. apply owned_client.
  - destruct Hrd, Hrd1. apply owned_shrink; auto. by eapply frame_wf.
  - intros j jb Hj _. destruct Hrd1. by rewrite rd_job0.
  - right. split; [done|]. destruct Hrd, Hrd1. split_and!; try done; congruence.
Qed.

Lemma reading_fail fc B c w v :
  base fc B c w → reading fc c (obs (kern w)) → local_answer (obs (kern w)) c v →
  moved fc B c w (fail_with v c w).
Proof. intros Hb [? ? ? ? ? ? ? ? ?] Hv. apply fail_with_moved; try done. by left. Qed.

Lemma cache_ok_get (rc : C) o key :
  cache_ok (Some rc) o → cache_ok (Some (rc_get key rc).2) o ∧
  ∀ v, (rc_get key rc).1 = Some v → storable v = true ∧ exchanged o key v.
Proof.
  intros Hc. destruct (Hc rc eq_refl) as [Hi Hv]. split.
  - intros rc' [= <-]. split; [by apply rc_get_inv|]. by rewrite rc_get_contents.
  - intros v. rewrite rc_get_answer by done. apply Hv.
Qed.

(** Replacing the cache. *)
Lemma mid_rcache c w rc : obs_wf (obs (kern w)) → mid c w c (set_rcache rc w).
Proof. intros Hw. split; simpl; auto. by apply frame_refl. Qed.

Lemma base_rcache fc B c w rc :
  base fc B c w → cache_ok rc (obs (kern w)) → base fc B c (set_rcache rc w).
Proof. by intros [? ? ? ? ? ?] Hc. Qed.

Lemma request_known_ok cfg fc B c0 w0 c k :
  base fc B c0 w0 → reading fc c0 (obs (kern w0)) → frame (λ x, x = client_ c0) (obs (kern w0)) (obs k) →
  fdt (obs k) = fdt (obs (kern w0)) → regs (obs k) = regs (obs (kern w0)) →
  reading fc c (obs k) → parsed_ c = true → req_known c → client_ c = client_ c0 → epoch_ c = epoch_ c0 →
  step_ok fc B c0 w0 (request_known cfg c (set_kern k w0)).
Proof.
  intros Hb0 Hrd0 Hf Hfdt Hregs Hrd Hp Hk Hcl He. unfold request_known.
  destruct (_ <? _); [apply reading_stays; try done; by rewrite Hp|].
  assert (base fc B c (set_kern k w0)) as Hb.
  { eapply (base_fields _ _ c0); [done| |by eapply base_effect]. destruct Hrd0, Hrd; congruence. }
  assert (mid c0 w0 c (set_kern k w0)) as Hm.
  { destruct Hrd0, Hrd. split; simpl; [by apply Hb0|eapply frame_mono, Hf; intros x _ ->; apply owned_client| | |done].
    - unfold owned. rewrite Hcl, rd_upstream0, rd_upstream1, rd_job0, rd_job1. auto.
    - by rewrite rd_job1. }
  apply moved_step. eapply mid_moved; [exact Hm|]. clear Hm. pose proof (ci_wf _ _ _ _ Hb) as Hw.
  set (c1 := set_out_upstream _ 0 c).
  assert (∀ key, key = [] ∨ key = request_key (req_ c) → to_connect fc (set_cache_key key c1) (obs k)) as Ht.
  { intros key Hkey. by destruct Hrd as [? ? ? ? ? ? ? ? ?]. }
  assert (moved fc B c (set_kern k w0) (begin_resolve cfg c1 (set_kern k w0))) as Hmiss.
  { eapply mid_moved; [|apply begin_resolve_moved; [by eapply (base_fields _ _ c)|]]; [by apply mid_fields|].
    destruct (Ht []) as []; [by left|]. destruct Hrd. split; try done. by split_and!; auto. }
  destruct (rcache (set_kern k w0)) as [rc|] eqn:Erc; [|done]. destruct (cacheable_request cfg c1); [|done].
  change (cache_key _ _ _ _) with (request_key (req_ c)). change (cache_key_ (set_cache_key ?x _)) with x.
  pose proof (ci_cache _ _ _ _ Hb) as Hc. rewrite Erc in Hc.
  destruct (cache_ok_get rc (obs k) (request_key (req_ c)) Hc) as [Hc' Hv].
  destruct (rc_get (request_key (req_ c)) rc) as [hit rc'] eqn:Eg. simpl in Hc', Hv.
  assert (∀ c2, client_ c2 = client_ c → upstream_ c2 = upstream_ c →
    base fc B c2 (set_rcache (Some rc') (set_kern k w0))) as Hb2.
  { intros c2 ? ?. eapply (base_fields _ _ c); [done..|]. by apply base_rcache. }
  eapply mid_moved; [by apply (mid_rcache c _ (Some rc'))|].
  eapply mid_moved; [by apply (mid_fields _ _ (set_cache_key (request_key (req_ c)) c1))|].
  destruct hit as [v|].
  - destruct (Hv v eq_refl) as [Hsto Hex]. destruct Hrd.
    apply fail_with_moved; try done; [by apply Hb2|by left|by constructor].
  - apply begin_resolve_moved; [by apply Hb2|]. apply Ht. by right.
Qed.

Lemma parse_incomplete buf out r : parse_request buf out = (Incomplete, r) → r = out.
Proof.
  unfold parse_request, parse_body_length. destruct (find_str crlf2 buf) as [e|]; [|by intros [= <-]].
  repeat (case_match; try discriminate).
Qed.

(** What a read gave and did, on a descriptor that designates file [f]. *)
Lemma read_own fd len (k k' : K) st bs f :
  obs_wf (obs k) → owns (obs k) fd f → read_some fd len k = ((st, bs), k') →
  frame (λ x, x = fd) (obs k) (obs k') ∧ fdt (obs k') = fdt (obs k) ∧ regs (obs k') = regs (obs k) ∧
  rcvd (obs k') f = rcvd (obs k) f ++ bs ∧ (∀ g, sent (obs k') g = sent (obs k) g) ∧
  (∀ g, g ≠ f → rcvd (obs k') g = rcvd (obs k) g) ∧ (st ≠ IoOk → bs = []) ∧ nfiles (obs k') = nfiles (obs k).
Proof.
  intros Hw [_ Hf] (E & _ & Hbs)%read_some_spec. pose proof (recv_effect_frame _ _ _ _ Hw E) as Hfr.
  destruct E as [Ht Hn Hr _ Hs Hb]. split_and!; try done.
  - by rewrite Hb, decide_True.
  - intros g Hg. rewrite Hb, decide_False by congruence. by rewrite (right_id_L [] (++)).
Qed.

(** What a write took, likewise. *)
Lemma write_own fd buf (k k' : K) st n f :
  obs_wf (obs k) → owns (obs k) fd f → write_some fd buf k = ((st, n), k') →
  frame (λ x, x = fd) (obs k) (obs k') ∧ fdt (obs k') = fdt (obs k) ∧ regs (obs k') = regs (obs k) ∧
  sent (obs k') f = sent (obs k) f ++ take (Z.to_nat n) buf ∧ (∀ g, rcvd (obs k') g = rcvd (obs k) g) ∧
  (∀ g, g ≠ f → sent (obs k') g = sent (obs k) g) ∧ 0 ≤ n ≤ zlen buf ∧ (st ≠ IoOk → n = 0) ∧
  nfiles (obs k') = nfiles (obs k).
Proof.
  intros Hw [_ Hf] (E & Hn & Hz & _)%write_some_spec. pose proof (send_effect_frame _ _ _ _ Hw E) as Hfr.
  destruct E as [Ht Hnf Hr _ Hrc Hb]. split_and!; try done; try lia.
  - by rewrite Hb, decide_True.
  - intros g Hg. rewrite Hb, decide_False by congruence. by rewrite (right_id_L [] (++)).
Qed.

(** Bytes moved on one of its descriptors, before a part that moves on. *)
Lemma mid_own c w c1 k fd :
  obs_wf (obs (kern w)) → fd = client_ c ∨ fd = upstream_ c → frame (λ x, x = fd) (obs (kern w)) (obs k) →
  client_ c1 = client_ c → upstream_ c1 = upstream_ c → resolve_job_ c1 = resolve_job_ c → epoch_ c1 = epoch_ c →
  mid c w c1 (set_kern k w).
Proof.
  intros Hw Hfd Hf Hc Hu Hj He. split; simpl; [done| | |by rewrite Hj|done].
  - eapply frame_mono, Hf. intros x _ ->. destruct Hfd as [->| ->]; [apply owned_client|apply owned_upstream].
  - unfold owned. rewrite Hc, Hu, Hj. auto.
Qed.

Lemma do_read_client_ok cfg fc B c w :
  conn_inv fc B c w → state_ c = ReadingRequest → step_ok fc B c w (do_read_client cfg c w).
Proof.
  intros [Hb Hp] Hst. unfold phase in Hp. rewrite Hst in Hp.
  destruct Hp as (Hwt & Ho & Hup & Hj & Hs & Hr & Hq & Hkey & Hreq). pose proof (ci_wf _ _ _ _ Hb) as Hw.
  assert (reading fc c (obs (kern w))) as Hrd by by split.
  unfold do_read_client. destruct (read_some _ _ _) as [[st bs] k] eqn:E.
  destruct (read_own _ _ _ _ _ _ _ Hw Ho E) as (Hf & Hfdt & Hregs & Hrc & Hse & _ & Hbs & Hn). clear E.
  assert (owns (obs k) (client_ c) fc) as Ho' by (unfold owns; by rewrite Hfdt).
  assert (base fc B c (set_kern k w)) as Hbk by by eapply base_effect.
  assert (∀ r p, reading fc (set_parsed p (set_req r (set_in_client (in_client_ c ++ bs) c))) (obs k)) as Hrd1.
  { intros r p. split; simpl; try done; [by rewrite Hse|by rewrite Hrc, Hr]. }
  pose proof (λ c1, mid_own c w c1 k _ Hw (or_introl eq_refl) Hf) as Hm.
  assert (bs = [] → moved fc B c w (finish c (set_kern k w))) as Hfin.
  { intros ->. eapply mid_moved; [by apply Hm|]. apply finish_moved; try done; simpl.
    - by rewrite Hrc, Hr, (right_id_L [] (++)).
    - by apply owns_only; [apply Hbk|].
    - left. by rewrite Hse.
    - intros He. destruct Hq as (_ & _ & ? & _). congruence. }
  assert (∀ v r, local_answer (obs k) (set_req r (set_in_client (in_client_ c ++ bs) c)) v →
    step_ok fc B c w (fail_with v (set_req r (set_in_client (in_client_ c ++ bs) c)) (set_kern k w))) as Hfail.
  { intros v r Hv. apply moved_step. eapply mid_moved; [|apply reading_fail; [| |exact Hv]]; [by apply Hm| |].
    - by eapply (base_fields _ _ c).
    - by destruct (Hrd1 r (parsed_ c)). }
  destruct st; [|rewrite Hbs in * by done; apply reading_stays; try done|by apply moved_step, Hfin, Hbs|by apply moved_step, Hfin, Hbs].
  2: { split; try done; [by rewrite Hse|by rewrite Hrc, Hr, (right_id_L [] (++))]. }
  change (parsed_ (set_in_client _ c)) with (parsed_ c). destruct (parsed_ c) eqn:Hpa.
  - apply request_known_ok; try done.
    + destruct (Hrd1 (req_ c) true). by split.
    + destruct Hreq as (head & rest & Hin & Hparse). exists head, (rest ++ bs). simpl.
      by rewrite Hin, (assoc_L (++)).
  - change (in_client_ (set_in_client ?x _)) with x. change (req_ (set_in_client _ c)) with (req_ c).
    rewrite Hreq. destruct (parse_request _ _) as [pr r] eqn:Epr. destruct pr.
    + change (in_client_ (set_req _ (set_in_client ?x _))) with x. apply parse_incomplete in Epr as ->.
      destruct (_ <? _); [apply Hfail; constructor|]. apply reading_stays; try done.
      * destruct (Hrd1 Request_default false). by split.
      * simpl. by rewrite Hpa.
    + change (content_length (req_ (set_req ?x _))) with (content_length x).
      destruct (_ <? _); [apply Hfail; constructor|]. apply request_known_ok; try done.
      exists (in_client_ c ++ bs), []. simpl. by rewrite (right_id_L [] (++)).
    + apply Hfail; constructor.
    + apply Hfail; constructor.
Qed.

(** ** Sending the request *)

Lemma tail_of_drop s off : 0 ≤ off ≤ zlen s → tail_of s off = drop (Z.to_nat off) s.
Proof.
  unfold tail_of, zlen. intros H. apply take_ge. rewrite length_drop. lia.
Qed.

Lemma take_drop_take {A} (l : list A) (a b : Z) :
  0 ≤ a → 0 ≤ b → take (Z.to_nat a) l ++ take (Z.to_nat b) (drop (Z.to_nat a) l) = take (Z.to_nat (a + b)) l.
Proof. intros. rewrite Z2Nat.inj_add by done. by rewrite take_take_drop. Qed.

(** A step that stays where it is, having touched bytes on one descriptor. *)
Lemma stays fc B c w c1 k fd :
  base fc B c w → fd = client_ c ∨ fd = upstream_ c → frame (λ x, x = fd) (obs (kern w)) (obs k) →
  fdt (obs k) = fdt (obs (kern w)) → regs (obs k) = regs (obs (kern w)) →
  want_ c1 = want_ c → client_ c1 = client_ c → upstream_ c1 = upstream_ c → resolve_job_ c1 = resolve_job_ c →
  epoch_ c1 = epoch_ c → phase fc c1 (obs k) (jobs (res w)) → step_ok fc B c w (c1, set_kern k w).
Proof.
  intros Hb Hfd Hf Hfdt Hregs Hwt Hc Hu Hj He Hp. split; simpl; [split| | |by rewrite Hj|].
  - eapply (base_fields _ _ c); [done..|by eapply base_effect].
  - done.
  - eapply frame_mono, Hf. intros x _ ->. destruct Hfd as [->| ->]; [apply owned_client|apply owned_upstream].
  - unfold owned. rewrite Hc, Hu, Hj. auto.
  - right. split_and!; try done.
Qed.

Lemma do_write_upstream_ok fc B c w :
  conn_inv fc B c w → state_ c = SendingUpstream → step_ok fc B c w (do_write_upstream c w).
Proof.
  intros [Hb Hp] Hst. unfold phase in Hp. rewrite Hst in Hp.
  destruct Hp as (Hwt & Ho & Hj & Hs & Hr & Hq & Hrd & Hoff & fu & Hu & Hne & Hru & Hsu & Hout).
  pose proof (ci_wf _ _ _ _ Hb) as Hw. unfold do_write_upstream. rewrite tail_of_drop by done.
  destruct (write_some _ _ _) as [[st n] k] eqn:E.
  destruct (write_own _ _ _ _ _ _ _ Hw Hu E) as (Hf & Hfdt & Hregs & Hse & Hrc & Hso & Hn & Hz & Hnf). clear E.
  unfold zlen in Hn. rewrite length_drop in Hn.
  assert (∀ f fd, owns (obs (kern w)) fd f → owns (obs k) fd f) as Ho' by (intros f fd; unfold owns; by rewrite Hfdt).
  rewrite Hsu, take_drop_take in Hse by lia.
  assert (moved fc B c w (fail_with bad_gateway c (set_kern k w))) as Hfail.
  { eapply mid_moved; [by apply (mid_own c w c k (upstream_ c)); auto|]. apply fail_with_moved; simpl; try done.
    - by eapply base_effect.
    - by auto.
    - rewrite Hso by by apply not_eq_sym. done.
    - by rewrite Hrc.
    - right. exists fu. auto.
    - constructor. }
  destruct st; [|rewrite Hz in * by done|by apply moved_step..].
  - change (out_upstream_off_ (set_out_upstream _ ?x _)) with x. change (out_upstream_ (set_out_upstream ?x _ _)) with x.
    destruct (Z.ltb_spec (out_upstream_off_ c + n) (zlen (out_upstream_ c))) as [Hlt|Hge].
    + eapply stays; try done; [by right|]. unfold phase. simpl. rewrite Hst, Hrc, Hso by by apply not_eq_sym.
      split_and!; try done; [by auto|lia|lia|]. exists fu. rewrite Hrc. auto 10.
    + apply moved_step. split; simpl; [split; [by eapply (base_fields _ _ c), base_effect|]| |same_owned|done|done].
      * unfold phase. simpl. destruct Hq as (Hq1 & Hq2 & Hq3 & Hq4 & Hq5). rewrite Hrc.
        split_and!; try done; [by auto|by left|]. exists fu. split; [by auto|]. split; [done|].
        rewrite (Hso fc) by by apply not_eq_sym. rewrite Hs, Hrc, Hru, Hq1, Hq2, Hq4. simpl. split; [|done].
        rewrite Hse, take_ge by (unfold zlen in *; lia). exact Hout.
      * eapply frame_mono, Hf. intros x _ ->. apply owned_upstream.
  - eapply stays; try done; [by right|]. unfold phase. rewrite Hst, Hrc, Hso by by apply not_eq_sym.
    split_and!; try done; [by auto|lia|lia|]. exists fu. rewrite Hrc, Z.add_0_r in *. auto 10.
Qed.

(** ** Relaying *)

(** The facts of the Relaying state. *)
Record relaying (fc fu : nat) (c : Connection) (o : Obs) : Prop := {
  rl_client : owns o (client_ c) fc;
  rl_job : resolve_job_ c = None;
  rl_in : rcvd o fc = in_client_ c;
  rl_ready : request_ready c;
  rl_eof : upstream_eof_ c = false;
  rl_off : 0 ≤ out_client_off_ c ≤ zlen (out_client_ c);
  rl_upstream : owns o (upstream_ c) fu;
  rl_ne : fu ≠ fc;
  rl_sent : sent o fu = upstream_bytes c;
  rl_relay : rcvd o fu = sent o fc ++ drop (Z.to_nat (out_client_off_ c)) (out_client_ c);
  rl_accum : cache_key_ c ≠ [] → cache_too_big_ c = false → cache_accum_ c = rcvd o fu
}.

Lemma relaying_phase fc fu c o js :
  state_ c = Relaying → relaying fc fu c o →
  want_ c = ReadUpstream ∧ out_client_ c = [] ∧ out_client_off_ c = 0 ∨ want_ c = WriteClient →
  phase fc c o js.
Proof.
  intros Hst [? ? ? ? ? ? ? ? ? ? ?] Hwt. unfold phase. rewrite Hst. split_and!; try done; [|by exists fu].
  destruct Hwt as [?|?]; [by left|by right].
Qed.

Lemma phase_relaying fc c o js :
  state_ c = Relaying → phase fc c o js →
  (want_ c = ReadUpstream ∧ out_client_ c = [] ∧ out_client_off_ c = 0 ∨ want_ c = WriteClient) ∧
  ∃ fu, relaying fc fu c o.
Proof.
  intros Hst. unfold phase. rewrite Hst. intros (? & ? & ? & ? & ? & Hwt & fu & ? & ? & ? & ? & ?).
  split; [destruct Hwt as [?|[? _]]; auto|]. exists fu. split; try done.
  destruct Hwt as [(_ & -> & ->)|[_ ?]]; [unfold zlen; simpl; lia|done].
Qed.

Lemma relaying_serving fc fu c o :
  obs_wf o → relaying fc fu c o → serving o fc c.
Proof.
  intros Hw [? ? ? [? _] ? ? [_ Hu] ? ? Hr ?]. right; right. exists fu. split; [done|].
  split; [by eapply ow_files|]. split; [intros fd Hfd; by eapply ow_inj|]. split_and!; try done.
  rewrite Hr. by apply prefix_app_r.
Qed.

(** The response is complete: storing it keeps the cache consistent. *)
Lemma store_ok c w fu :
  cache_ok (rcache w) (obs (kern w)) → request_ready c →
  (fu < nfiles (obs (kern w)))%nat → (∀ fd, fdt (obs (kern w)) !! fd ≠ Some fu) →
  sent (obs (kern w)) fu = upstream_bytes c →
  (cache_key_ c ≠ [] → cache_too_big_ c = false → cache_accum_ c = rcvd (obs (kern w)) fu) →
  ∃ rc, store_in_cache c w = set_rcache rc w ∧ cache_ok rc (obs (kern w)).
Proof.
  intros Hc (_ & _ & Hkey) Hlt Hcl Hs Ha. unfold store_in_cache.
  destruct (rcache w) as [rc|] eqn:Erc; [|exists None; split; [by destruct w; simplify_eq/=|done]].
  assert (∃ rc0, w = set_rcache rc0 w ∧ cache_ok rc0 (obs (kern w))) as Hsame.
  { exists (Some rc). split; [by destruct w; simplify_eq/=|done]. }
  case_bool_decide as Hk; [done|]. destruct (cache_too_big_ c); [done|]. simpl.
  destruct (upstream_eof_ c); [|done]. destruct (storable (cache_accum_ c)) eqn:Hst; [|done]. simpl.
  eexists. split; [done|]. destruct (Hc rc eq_refl) as [Hi Hv]. intros rc' [= <-].
  split; [by apply rc_put_inv|]. intros key v Hget.
  pose proof (lookup_weaken _ _ _ _ Hget (rc_put_contents _ _ _ Hi)) as Hget'. clear Hget. rename Hget' into Hget.
  apply lookup_insert_Some in Hget as [[<- <-]|[_ Hget]]; [|by apply Hv]. split; [done|].
  destruct Hkey as [?|Hkey]; [done|]. exists fu, (req_ c), (body_of c). rewrite Ha by done. by rewrite Hkey.
Qed.

Lemma accumulate_spec cfg bs c : ∃ a b, accumulate cfg bs c = set_cache_accum a b c ∧
  (cache_key_ c ≠ [] → b = false → cache_too_big_ c = false ∧ a = cache_accum_ c ++ bs ∧
    zlen a ≤ cache_max_entry_bytes cfg).
Proof.
  unfold accumulate. case_bool_decide as Hk; [exists (cache_accum_ c), (cache_too_big_ c); by destruct c|].
  destruct (cache_too_big_ c) eqn:Hb; simpl; [exists (cache_accum_ c), true; destruct c; by simplify_eq/=|].
  destruct (Z.ltb_spec (cache_max_entry_bytes cfg) (zlen (cache_accum_ c) + zlen bs)).
  - by eexists _, true.
  - eexists _, _. split; [done|]. intros _ _. split_and!; try done. unfold zlen in *. rewrite length_app. lia.
Qed.

(** End of the response: close, store, and finish, since nothing is left to flush. *)
Lemma upstream_closed_moved fc fu B c w :
  base fc B c w → relaying fc fu c (obs (kern w)) → out_client_ c = [] → out_client_off_ c = 0 →
  moved fc B c w
    (let '(c, w) := upstream_reset (-1) (set_upstream_eof true c) w in
     let w := store_in_cache c w in
     if zlen (out_client_ c) <=? out_client_off_ c then finish c w else (set_want WriteClient c, w)).
Proof.
  intros Hb [Ho Hj Hr Hrd _ _ [Hpos Hu] Hne Hsu Hrel Hacc] Hoc Hoo. pose proof (ci_wf _ _ _ _ Hb) as Hw.
  destruct (upstream_reset_spec (-1) (set_upstream_eof true c) w) as (k2 & -> & Hk2). simpl in Hk2.
  pose proof (obs_reset_frame (upstream_ c) _ Hw) as Hf2. rewrite <-Hk2 in Hf2.
  destruct (obs_reset_bytes (upstream_ c) (obs (kern w))) as (Hs2 & Hr2 & Hn2). rewrite <-Hk2 in Hs2, Hr2, Hn2.
  set (c2 := set_upstream (-1) (set_upstream_eof true c)).
  assert (base fc B c2 (set_kern k2 w)) as Hb2.
  { apply (base_fields _ _ (set_upstream (-1) c)); [done..|]. by apply base_upstream_reset. }
  assert (∀ fd, fdt (obs k2) !! fd ≠ Some fu) as Hcl.
  { intros fd Hfd. rewrite Hk2 in Hfd. apply obs_reset_lookup in Hfd as [Hfd Hfdne]; [|done].
    by eapply Hfdne, ow_inj. }
  assert (fu < nfiles (obs k2))%nat as Hlt by (rewrite Hn2; by eapply ow_files).
  destruct (store_ok c2 (set_kern k2 w) fu) as (rc & Hstore & Hcok); simpl; try done.
  { apply (ci_cache _ _ _ _ Hb2). } { by rewrite Hs2. } { by rewrite Hr2. }
  rewrite Hstore. change (out_client_ c2) with (out_client_ c). change (out_client_off_ c2) with (out_client_off_ c).
  rewrite Hoc, Hoo. simpl.
  eapply mid_moved; [|apply finish_moved; [by apply base_rcache, Hcok|done|by simpl; rewrite Hr2, Hr| | |]].
  2: { simpl. intros x Hx. rewrite Hk2 in Hx. apply obs_reset_lookup in Hx as [Hx _]; [|done].
       by eapply owns_only. }
  - split; simpl; [done|eapply frame_mono, Hf2; intros x _ ->; apply owned_upstream| |by rewrite Hj|done].
    intros x f [->|[->|(i & ib & Hi & _)]] Hx; [left; by left| |by simpl in Hi; rewrite Hj in Hi].
    apply (ow_pos _ (fr_wf _ _ _ Hf2)) in Hx. simpl in Hx. lia.
  - right; right. exists fu. simpl. split; [done|]. split; [done|]. split; [intros fd ?; by destruct (Hcl fd)|].
    split; [by destruct Hrd|]. rewrite Hs2, Hr2, Hrel. split; [done|]. by apply prefix_app_r.
  - intros _. exists fu. simpl. rewrite Hs2, Hr2, Hrel, Hoc, Hoo. simpl.
    by rewrite (right_id_L [] (++)).
Qed.

Lemma do_read_upstream_ok cfg fc B c w :
  conn_inv fc B c w → state_ c = Relaying → want_ c = ReadUpstream → step_ok fc B c w (do_read_upstream cfg c w).
Proof.
  intros [Hb Hp] Hst Hwt. destruct (phase_relaying _ _ _ _ Hst Hp) as [[(_ & Hoc & Hoo)|?] (fu & Hrl)]; [|congruence].
  pose proof Hrl as [Ho Hj Hr Hrd Heof _ Hu Hne Hsu Hrel Hacc]. rewrite Hoc, Hoo in Hrel. simpl in Hrel.
  rewrite (right_id_L [] (++)) in Hrel. pose proof (ci_wf _ _ _ _ Hb) as Hw. unfold do_read_upstream.
  destruct (read_some _ _ _) as [[st bs] k] eqn:E.
  destruct (read_own _ _ _ _ _ _ _ Hw Hu E) as (Hf & Hfdt & Hregs & Hrc & Hse & Hro & Hbs & Hn). clear E.
  assert (∀ f fd, owns (obs (kern w)) fd f → owns (obs k) fd f) as Ho' by (intros f fd; unfold owns; by rewrite Hfdt).
  assert (base fc B c (set_kern k w)) as Hbk by by eapply base_effect.
  assert (fc ≠ fu) as Hne' by by apply not_eq_sym.
  assert (bs = [] → relaying fc fu c (obs k)) as Hrl'.
  { intros ->. rewrite (right_id_L [] (++)) in Hrc. split; rewrite ?Hse, ?Hrc, ?Hro, ?Hoc, ?Hoo by done; auto.
    - unfold zlen. simpl. lia.
    - rewrite Hrel. simpl. by rewrite (right_id_L [] (++)). }
  destruct st.
  - apply moved_step. destruct (accumulate_spec cfg bs c) as (a & b & -> & Hab).
    split; simpl; [split; [by eapply (base_fields _ _ c)|]|eapply frame_mono, Hf; intros x _ ->; apply owned_upstream|same_owned|done|done].
    eapply (relaying_phase _ fu); [done| |by right]. rewrite Hoc, Hoo.
    split; simpl; rewrite ?Hse, ?(Hro fc) by done; auto.
    + unfold zlen. lia.
    + by rewrite Hrc, Hrel.
    + intros Hk Hbf. destruct (Hab Hk Hbf) as (Htb & -> & _). by rewrite Hrc, <-Hacc.
  - eapply (stays _ _ _ _ _ _ (upstream_ c)); try done; [by right|]. eapply relaying_phase; [done|by apply Hrl', Hbs|by left].
  - assert (bs = []) as -> by by apply Hbs. apply moved_step.
    eapply mid_moved; [by apply (mid_own c w c k (upstream_ c)); auto|].
    apply (upstream_closed_moved fc fu B c (set_kern k w)); auto.
  - apply moved_step. eapply mid_moved; [by apply (mid_own c w c k (upstream_ c)); auto|].
    specialize (Hrl' (Hbs ltac:(done))). apply finish_moved; [done|done|by destruct Hrl'| | |congruence].
    { apply owns_only; [apply Hbk|by destruct Hrl']. }
    eapply relaying_serving; [by apply Hbk|exact Hrl'].
Qed.

(** A write to the client while relaying. *)
Lemma relaying_written fc fu c o k n :
  obs_wf o → relaying fc fu c o →
  fdt (obs k) = fdt o → sent (obs k) fc = sent o fc ++ take (Z.to_nat n) (drop (Z.to_nat (out_client_off_ c)) (out_client_ c)) →
  (∀ g, rcvd (obs k) g = rcvd o g) → (∀ g, g ≠ fc → sent (obs k) g = sent o g) →
  0 ≤ n ≤ zlen (drop (Z.to_nat (out_client_off_ c)) (out_client_ c)) →
  relaying fc fu (set_out_client (out_client_ c) (out_client_off_ c + n) c) (obs k).
Proof.
  intros Hw [Ho Hj Hr Hrd Heof Hoff Hu Hne Hsu Hrel Hacc] Hfdt Hse Hrc Hso Hn.
  unfold owns in *. unfold zlen in *. rewrite length_drop in Hn.
  split; unfold owns; simpl; rewrite ?Hfdt, ?Hrc, ?(Hso fu) by done; try done.
  - unfold zlen. lia.
  - rewrite Hrel, Hse, <-(assoc_L (++)). f_equal. rewrite Z2Nat.inj_add by lia.
    by rewrite <-drop_drop, take_drop.
Qed.

Lemma serving_fields fc c c2 o :
  obs_wf o → serving o fc c → upstream_ c2 = upstream_ c → req_ c2 = req_ c → in_client_ c2 = in_client_ c →
  serving o fc c2.
Proof.
  intros Hw Hs Hu2 Hr2 Hi2. destruct Hs as [?|[(v & Hv & ?)|(g & ? & ? & ? & Hk & ? & ?)]];
    [by left|right; left|right; right].
  - exists v. split; [|done]. by eapply (local_answer_frame (λ _, False)); [by apply frame_refl|..|exact Hv].
  - exists g. unfold req_known, upstream_bytes, body_of in *. by rewrite Hr2, Hi2, Hu2.
Qed.

(** The state after a write to the client, before the buffer is looked at. *)
Lemma client_written fc B c w k n :
  conn_inv fc B c w → state_ c = Relaying ∨ state_ c = Failing → want_ c = WriteClient →
  base fc B c (set_kern k w) → frame (λ x, x = client_ c) (obs (kern w)) (obs k) →
  fdt (obs k) = fdt (obs (kern w)) →
  sent (obs k) fc = sent (obs (kern w)) fc ++ take (Z.to_nat n) (drop (Z.to_nat (out_client_off_ c)) (out_client_ c)) →
  (∀ g, rcvd (obs k) g = rcvd (obs (kern w)) g) → (∀ g, g ≠ fc → sent (obs k) g = sent (obs (kern w)) g) →
  0 ≤ n ≤ zlen (drop (Z.to_nat (out_client_off_ c)) (out_client_ c)) →
  phase fc (set_out_client (out_client_ c) (out_client_off_ c + n) c) (obs k) (jobs (res w)) ∧
  ∀ c2, upstream_ c2 = upstream_ c → req_ c2 = req_ c → in_client_ c2 = in_client_ c → serving (obs k) fc c2.
Proof.
  intros [Hb Hp] Hst Hwt Hbk Hf Hfdt Hse Hrc Hso Hn. pose proof (ci_wf _ _ _ _ Hb) as Hw.
  destruct Hst as [Hst|Hst].
  - destruct (phase_relaying _ _ _ _ Hst Hp) as [_ (fu & Hrl)].
    pose proof (relaying_written _ _ _ _ k n Hw Hrl Hfdt Hse Hrc Hso Hn) as Hrl1.
    split; [by eapply relaying_phase; [|exact Hrl1|by right]|]. intros c2 Hu2 Hr2 Hi2.
    eapply serving_fields; [apply Hbk|eapply relaying_serving; [apply Hbk|exact Hrl1]|done..].
  - unfold phase in Hp |- *. rewrite Hst in Hp. simpl. rewrite Hst.
    destruct Hp as (_ & Ho & Hup & Hj & Hr & Heof & Hoff & Hs & Hla).
    rewrite Hs, take_drop_take in Hse by lia. unfold zlen in Hn. rewrite length_drop in Hn.
    assert (local_answer (obs k) c (out_client_ c)) as Hla' by by eapply local_answer_frame.
    split; [split_and!; try done; [unfold owns; by rewrite Hfdt|by rewrite Hrc|lia|unfold zlen in *; lia|];
      by eapply (local_answer_frame (λ _, False)); [apply frame_refl, Hbk|..|exact Hla']|].
    intros c2 Hu2 Hr2 Hi2. apply (serving_fields _ c); [apply Hbk| |done..]. right; left.
    exists (out_client_ c). split; [done|]. rewrite Hse. apply prefix_take.
Qed.

Lemma do_write_client_ok fc B c w :
  conn_inv fc B c w → want_ c = WriteClient → state_ c = Relaying ∨ state_ c = Failing →
  step_ok fc B c w (do_write_client c w).
Proof.
  intros [Hb Hp] Hwt Hst. pose proof (ci_wf _ _ _ _ Hb) as Hw.
  assert (owns (obs (kern w)) (client_ c) fc ∧ resolve_job_ c = None ∧ rcvd (obs (kern w)) fc = in_client_ c ∧
    0 ≤ out_client_off_ c ≤ zlen (out_client_ c) ∧ upstream_eof_ c = false) as (Ho & Hj & Hr & Hoff & Heof).
  { destruct Hst as [Hst|Hst]; [|unfold phase in Hp; rewrite Hst in Hp; naive_solver].
    destruct (phase_relaying _ _ _ _ Hst Hp) as [_ (fu & [])]. done. }
  unfold do_write_client. rewrite tail_of_drop by done. destruct (write_some _ _ _) as [[st n] k] eqn:E.
  destruct (write_own _ _ _ _ _ _ _ Hw Ho E) as (Hf & Hfdt & Hregs & Hse & Hrc & Hso & Hn & Hz & Hnf). clear E.
  assert (base fc B c (set_kern k w)) as Hbk by by eapply base_effect.
  set (c1 := set_out_client (out_client_ c) (out_client_off_ c + n) c).
  destruct (client_written fc B c w k n) as [Hp1 Hserv]; try done.
  fold c1 in Hp1.
  assert (∀ c2, client_ c2 = client_ c → upstream_ c2 = upstream_ c → resolve_job_ c2 = None → epoch_ c2 = epoch_ c →
    req_ c2 = req_ c → in_client_ c2 = in_client_ c → upstream_eof_ c2 = upstream_eof_ c →
    moved fc B c w (finish c2 (set_kern k w))) as Hfin.
  { intros c2 H1 H2 H3 H4 H5 H6 H7. eapply mid_moved; [by apply (mid_own c w c2 k (client_ c)); auto; congruence|].
    apply finish_moved; [by eapply (base_fields _ _ c)|done|by simpl; rewrite Hrc, H6| |by apply Hserv|congruence].
    simpl. rewrite Hfdt, H1. by apply owns_only. }
  destruct st; [|assert (n = 0) as -> by by apply Hz|by apply moved_step, Hfin..].
  2: { eapply (stays _ _ _ _ _ _ (client_ c)); try done; [by left|]. revert Hp1. subst c1. rewrite Z.add_0_r. by destruct c. }
  change (out_client_off_ c1) with (out_client_off_ c + n). change (out_client_ c1) with (out_client_ c).
  destruct (Z.ltb_spec (out_client_off_ c + n) (zlen (out_client_ c))) as [Hlt|Hge].
  { eapply (stays _ _ _ _ _ _ (client_ c)); try done. by left. }
  change (state_ (set_out_client [] 0 c1)) with (state_ c). change (upstream_eof_ (set_out_client [] 0 c1)) with (upstream_eof_ c).
  destruct Hst as [Hst|Hst]; rewrite Hst.
  - destruct (phase_relaying fc c1 (obs k) (jobs (res w)) Hst Hp1) as [_ (fu & [? ? ? ? _ ? ? ? ? Hrel ?])].
    rewrite Heof. simpl. apply moved_step.
    split; simpl; [split; [by eapply (base_fields _ _ c)|]|eapply frame_mono, Hf; intros x _ ->; apply owned_client|same_owned|done|done].
    eapply (relaying_phase _ fu); [done| |by left]. split; simpl; try done.
    rewrite Hrel. simpl. f_equal. apply drop_ge. unfold zlen in Hge. lia.
  - by apply moved_step, Hfin.
Qed.

(** ** One step *)

Lemma on_ready_ok cfg fc B c w : conn_inv fc B c w → step_ok fc B c w (on_ready cfg c w).
Proof.
  intros Hi. pose proof (ci_phase _ _ _ _ Hi) as Hp. unfold on_ready. unfold phase in Hp.
  destruct (state_ c) eqn:Hst.
  - destruct Hp as (-> & _). by apply do_read_client_ok.
  - destruct Hp as (-> & _). by apply finish_resolve_ok.
  - destruct Hp as (-> & _). rewrite bool_decide_true by done. by apply moved_step, finish_connect_moved.
  - destruct Hp as (-> & _). rewrite bool_decide_false by done. by apply do_write_upstream_ok.
  - destruct Hp as (_ & _ & _ & _ & _ & [[Hwt _]|[Hwt _]] & _); rewrite Hwt.
    + by apply do_read_upstream_ok.
    + by apply do_write_client_ok; auto.
  - destruct Hp as (Hwt & _). rewrite Hwt. apply do_write_client_ok; auto.
  - destruct Hp as (-> & Hcl & Hup & Hj & Hr & Hno & Hs & Hcomp).
    apply moved_step, finish_moved; [apply Hi|done|done|intros x Hx; by destruct (Hno x)| |done].
    destruct Hs as [?|[?|(fu & ? & ? & Hc & ? & ? & ?)]]; [by left|by right; left|right; right].
    exists fu. split_and!; try done. intros fd Hfd. by destruct (Hc fd).
Qed.
End inv.
