(* ===== verification/ConnectionSpec.v ===== *)
(** * What a connection guarantees

[conn_run] are the states a connection goes through when a backend calls
[on_ready] any number of times, at any moment, while resolver threads and other
connections act on the same kernel, jobs and caches ([env]: they respect the
descriptors of this one).  The theorems say what the client and the origin can
observe in every such state, and what one step may touch. *)
From S2P Require Import Prelude CppString Http Config Cache CacheSpec Kernel SimKernel Socket Resolver ResolverSpec.
From S2P Require Import Connection ConnectionInv.

Section run.
Context {K C : Type} `{!Kernel K, !KernelLaws K, !ResponseCache C, !ResponseCacheLaws C}.
Implicit Type w : World K C.

(** The descriptors nobody else touches: the sockets and the read end of the job. *)
Definition reserved (c : Connection) w (fd : Z) : Prop :=
  fd = client_ c ∨ fd = upstream_ c ∨
  ∃ j jb, resolve_job_ c = Some j ∧ jobs (res w) !! j = Some jb ∧ fd = read_end jb.

(** What the rest of the program may do between two steps of [c]. *)
Record env (c : Connection) w w' : Prop := {
  ev_frame : wframe (λ fd, ¬ reserved c w fd) (obs (kern w)) (obs (kern w'));
  ev_fresh : jobs_fresh (res w');
  ev_dns : cache_filled (res w');
  ev_cache : cache_ok (rcache w') (obs (kern w'));
  ev_job j jb : resolve_job_ c = Some j → jobs (res w) !! j = Some jb →
    ∃ jb', jobs (res w') !! j = Some jb' ∧ read_end jb' = read_end jb ∧
      (write_end jb' = -1 ∨ write_end jb' = write_end jb ∧
        fdt (obs (kern w')) !! write_end jb = fdt (obs (kern w)) !! write_end jb)
}.

(** A client socket as [accept] returns it. *)
Record fresh_client (fd : Z) (fc : nat) w : Prop := {
  fcl_wf : obs_wf (obs (kern w));
  fcl_owns : owns (obs (kern w)) fd fc;
  fcl_sent : sent (obs (kern w)) fc = [];
  fcl_rcvd : rcvd (obs (kern w)) fc = [];
  fcl_fresh : jobs_fresh (res w);
  fcl_dns : cache_filled (res w);
  fcl_cache : cache_ok (rcache w) (obs (kern w))
}.

Inductive conn_run (cfg : Config) (fc : nat) : Connection → World K C → Prop :=
| run_new fd id w : fresh_client fd fc w →
    conn_run cfg fc (Connection_new fd id w).1 (Connection_new fd id w).2
| run_ready c w : conn_run cfg fc c w → conn_run cfg fc (on_ready cfg c w).1 (on_ready cfg c w).2
| run_env c w w' : conn_run cfg fc c w → env c w w' → conn_run cfg fc c w'.

Lemma Connection_new_inv fd id fc w :
  fresh_client fd fc w →
  conn_inv fc (λ _, True) (Connection_new fd id w).1 (Connection_new fd id w).2 ∧
  frame (λ x, x = fd) (obs (kern w)) (obs (kern (Connection_new fd id w).2)).
Proof.
  intros [Hw Ho Hs Hr Hfr Hd Hc]. unfold Connection_new. destruct (set_nonblocking fd (kern w)) as [b k] eqn:E.
  assert (frame (λ x, x = fd) (obs (kern w)) (obs k) ∧ fdt (obs k) = fdt (obs (kern w)) ∧
    sent (obs k) = sent (obs (kern w)) ∧ rcvd (obs k) = rcvd (obs (kern w)) ∧ nfiles (obs k) = nfiles (obs (kern w)))
    as (Hf & Ht & Hse & Hrc & Hn).
  { apply set_nonblocking_spec in E as [[-> _]|(_ & f & fl & Hfd & -> & _)]; [by split_and!; try done; apply frame_refl|].
    split_and!; try done. by apply frame_setfl. }
  simpl. split; [|done]. split; [split; simpl; try done|].
  - by eapply frame_wf.
  - rewrite Hn. destruct Ho. by eapply ow_files.
  - by eapply cache_ok_frame.
  - by intros x _; left.
  - unfold phase, quiet. simpl. unfold owns. rewrite Ht, Hse, Hrc. split_and!; try done; by destruct Ho.
Qed.

Lemma reserved_kept c w w' fd f :
  obs_wf (obs (kern w)) → env c w w' → reserved c w fd → owns (obs (kern w)) fd f →
  owns (obs (kern w')) fd f ∧ sent (obs (kern w')) f = sent (obs (kern w)) f ∧
  rcvd (obs (kern w')) f = rcvd (obs (kern w)) f.
Proof. intros Hw He Hres Ho. eapply frame_other; [done|apply He|done|]. auto. Qed.

Lemma closed_bytes D o o' f :
  wframe D o o' → (f < nfiles o)%nat → (∀ fd, fdt o !! fd ≠ Some f) →
  sent o' f = sent o f ∧ rcvd o' f = rcvd o f.
Proof. intros Hf Hfl Hfc. destruct (fr_file _ _ _ Hf f Hfl) as (? & ? & _); [auto|done]. Qed.

Lemma complete_frame D o o' fc c :
  wframe D o o' → (fc < nfiles o)%nat → (∀ fd, fdt o !! fd ≠ Some fc) → complete o fc c → complete o' fc c.
Proof.
  intros Hf Hlt Hno Hc He. destruct (Hc He) as (fu & ? & Hfu & Hcl & ? & ?).
  destruct (closed_bytes _ _ _ _ Hf Hlt Hno) as [Hs _], (closed_bytes _ _ _ _ Hf Hfu Hcl) as [Hs' Hr'].
  exists fu. rewrite Hs, Hs', Hr'. split_and!; try done; [|by eapply closed_wframe].
  pose proof (fr_nfiles _ _ _ Hf). lia.
Qed.

Lemma served_frame D o o' fc c :
  wframe D o o' → (fc < nfiles o)%nat → (∀ fd, fdt o !! fd ≠ Some fc) → served o fc c → served o' fc c.
Proof.
  intros Hf Hlt Hno. pose proof (λ f, closed_bytes _ _ _ f Hf) as Hold.
  destruct (Hold fc Hlt Hno) as [Hs _]. unfold served. rewrite Hs.
  intros [?|[(v & ? & ?)|(fu & ? & Hfu & Hc & ? & ? & ?)]]; [by left|right; left|right; right].
  - exists v. split; [by eapply local_answer_wframe|done].
  - destruct (Hold fu Hfu Hc) as [Hs' Hr']. exists fu. rewrite Hs', Hr'. split_and!; try done.
    + pose proof (fr_nfiles _ _ _ Hf). lia.
    + by eapply closed_wframe.
Qed.

Lemma env_phase fc B c w w' :
  conn_inv fc B c w → env c w w' → phase fc c (obs (kern w')) (jobs (res w')).
Proof.
  intros [Hb Hp] He. pose proof (ci_wf _ _ _ _ Hb) as Hw. pose proof (ev_frame _ _ _ He) as Hf.
  assert (∀ f, owns (obs (kern w)) (client_ c) f → owns (obs (kern w')) (client_ c) f ∧
    sent (obs (kern w')) f = sent (obs (kern w)) f ∧ rcvd (obs (kern w')) f = rcvd (obs (kern w)) f) as Hc.
  { intros f. apply (reserved_kept c w w'); [done|done|by left]. }
  assert (∀ f, owns (obs (kern w)) (upstream_ c) f → owns (obs (kern w')) (upstream_ c) f ∧
    sent (obs (kern w')) f = sent (obs (kern w)) f ∧ rcvd (obs (kern w')) f = rcvd (obs (kern w)) f) as Hu.
  { intros f. apply (reserved_kept c w w'); [done|done|right; by left]. }
  unfold phase in *. destruct (state_ c).
  - destruct Hp as (? & Ho & ? & ? & ? & ? & ? & ? & ?). destruct (Hc _ Ho) as (? & -> & ->). split_and!; done.
  - destruct Hp as (? & Ho & ? & ? & ? & ? & ? & ? & ? & j & jb & fr & Hj & Hjb & Hre & Hne & Hwe).
    destruct (Hc _ Ho) as (? & -> & ->). split_and!; try done.
    destruct (ev_job _ _ _ He j jb Hj Hjb) as (jb' & Hjb' & Hre' & Hwe').
    exists j, jb', fr. rewrite Hre'. split; [done|]. split; [done|].
    split; [eapply (reserved_kept c w w'); [done|done|right; right; eauto|done]|]. split; [done|].
    destruct Hwe' as [->|[-> Hfd]]; [by left|]. destruct Hwe as [->|(fw & [? ?] & ?)]; [by left|right].
    exists fw. unfold owns. by rewrite Hfd.
  - destruct Hp as (? & Ho & ? & ? & ? & ? & ? & ? & ? & fu & Hou & ? & ? & ?).
    destruct (Hc _ Ho) as (? & -> & ->), (Hu _ Hou) as (? & Hs & Hr). split_and!; try done. exists fu. by rewrite Hs, Hr.
  - destruct Hp as (? & Ho & ? & ? & ? & ? & ? & ? & fu & Hou & ? & ? & ? & ?).
    destruct (Hc _ Ho) as (? & -> & ->), (Hu _ Hou) as (? & Hs & Hr). split_and!; try done; try lia. exists fu. by rewrite Hs, Hr.
  - destruct Hp as (Ho & ? & ? & ? & ? & ? & fu & Hou & ? & ? & ? & ?).
    destruct (Hc _ Ho) as (? & -> & ->), (Hu _ Hou) as (? & Hs & Hr). split_and!; try done. exists fu. by rewrite Hs, Hr.
  - destruct Hp as (? & Ho & ? & ? & ? & ? & ? & ? & ?). destruct (Hc _ Ho) as (? & -> & ->). split_and!; try done; try lia.
    by eapply local_answer_wframe.
  - destruct Hp as (? & ? & ? & ? & Hr & Hno & ? & Hcomp). pose proof (ci_fc _ _ _ _ Hb) as Hlt.
    destruct (fr_file _ _ _ Hf fc Hlt) as (_ & -> & _); [auto|]. split_and!; try done.
    + by eapply closed_wframe.
    + by eapply served_frame.
    + by eapply complete_frame.
Qed.

Lemma env_inv fc c w w' : conn_inv fc (λ _, True) c w → env c w w' → conn_inv fc (λ _, True) c w'.
Proof.
  intros Hi He. split; [|by eapply env_phase]. destruct Hi as [[Hw Hfc _ _ _ _] _]. split; try by apply He.
  - pose proof (fr_nfiles _ _ _ (ev_frame _ _ _ He)). lia.
  - by intros x _; left.
Qed.

Lemma run_inv cfg fc c w : conn_run cfg fc c w → conn_inv fc (λ _, True) c w.
Proof.
  induction 1 as [fd id w Hf|c w _ IH|c w w' _ IH He].
  - by apply Connection_new_inv.
  - apply (so_inv _ _ _ _ _ (on_ready_ok cfg fc _ c w IH)).
  - by eapply env_inv.
Qed.
End run.

(** ** A concrete run *)

(** One client asks for [http://h/], in two pieces; the origin answers in two chunks. *)
Definition demo_cfg : Config := set_cache_enabled true (set_async_resolve false Config_default).
Definition demo_ask : str := lit "GET http://h/ HTTP/1.1" ++ crlf ++ lit "Host: h" ++ crlf ++ crlf.
Definition demo_reply : list str := [lit "HTTP/1.1 200 OK" ++ crlf ++ crlf; lit "hello"].
Definition demo_chunks (f : nat) : list str :=
  match f with 0%nat => [take 20 demo_ask; drop 20 demo_ask] | 1%nat => demo_reply | _ => [] end.
Definition demo_sim : Sim := mkSim (obs_open 0 obs0) 0 1 demo_chunks (inr [loopback]) 0 [].
Definition demo_world : World Sim LruCache :=
  mkWorld demo_sim (Resolver_new 30 0) (Some (LruCacheImpl NullMutex 8 4096)).

Fixpoint steps {K C} `{!Kernel K, !ResponseCache C} (cfg : Config) (n : nat) (cw : Connection * World K C) :
    Connection * World K C :=
  match n with O => cw | S n => steps cfg n (on_ready cfg cw.1 cw.2) end.

Definition demo (n : nat) : Connection * World Sim LruCache :=
  steps demo_cfg n (Connection_new 0 7 demo_world).

Lemma demo_fresh : fresh_client 0 0 demo_world.
Proof.
  split; simpl; try done.
  - apply (obs_open_wf 0 obs0 obs0_wf); [lia|done].
  - intros j [jb Hj]. by apply (lookup_empty_Some j jb) in Hj.
  - intros c [= <-]. split; [exists []; apply in_step_new|]. intros key v H. by apply (lookup_empty_Some key v) in H.
Qed.

Lemma steps_run {K C} `{!Kernel K, !ResponseCache C} cfg fc n (c : Connection) (w : World K C) :
  conn_run cfg fc c w → conn_run cfg fc (steps cfg n (c, w)).1 (steps cfg n (c, w)).2.
Proof.
  revert c w; induction n as [|n IH]; intros c w H; [done|]. simpl.
  destruct (on_ready cfg c w) as [c' w'] eqn:E. apply IH.
  replace c' with (on_ready cfg c w).1 by by rewrite E. replace w' with (on_ready cfg c w).2 by by rewrite E.
  by apply run_ready.
Qed.

Lemma demo_run n : conn_run demo_cfg 0 (demo n).1 (demo n).2.
Proof.
  unfold demo. destruct (Connection_new 0 7 demo_world) as [c w] eqn:E. apply steps_run.
  replace c with (Connection_new 0 7 demo_world).1 by by rewrite E.
  replace w with (Connection_new 0 7 demo_world).2 by by rewrite E. apply run_new, demo_fresh.
Qed.

(** ** What the two ends observe *)

Section claims.
Context {K C : Type} `{!Kernel K, !KernelLaws K, !ResponseCache C, !ResponseCacheLaws C}.
Implicit Type w : World K C.

Lemma phase_serving fc c o js : obs_wf o → phase fc c o js → serving o fc c.
Proof.
  intros Hw Hp. destruct (decide (state_ c = Relaying)) as [Hst|Hst].
  { destruct (phase_relaying _ _ _ _ Hst Hp) as [_ (fu & Hrl)]. by eapply relaying_serving. }
  unfold phase in Hp. destruct (state_ c); try done; [left; naive_solver..| |].
  - destruct Hp as (_ & _ & _ & _ & _ & _ & _ & Hs & Hla). right; left. exists (out_client_ c).
    rewrite Hs. split; [done|apply prefix_take].
  - destruct Hp as (_ & _ & _ & _ & _ & _ & Hs & _).
    destruct Hs as [?|[?|(fu & ? & ? & Hno & ? & ? & ?)]]; [by left|by right; left|right; right].
    exists fu. split_and!; try done. intros fd Hfd. by destruct (Hno fd).
Qed.

(** C1: One request, one answer.  Whenever one looks, the bytes the client has
been sent are nothing yet, or a beginning of one locally produced answer (an
error page, or a cached response to a request with the same key), or a
beginning of what this connection's origin sent in reply to exactly the
rebuilt request; never a mixture, and the request is what was parsed from the
bytes the client sent. *)
Theorem client_sees_one_answer cfg fc c w :
  conn_run cfg fc c w →
  let o := obs (kern w) in
  rcvd o fc = in_client_ c ∧
  (sent o fc = [] ∨
   (∃ v, local_answer o c v ∧ sent o fc `prefix_of` v) ∨
   (∃ fu, fu ≠ fc ∧ req_known c ∧ sent o fu = upstream_bytes c ∧ sent o fc `prefix_of` rcvd o fu)).
Proof.
  intros [Hb Hp]%run_inv o. pose proof (ci_wf _ _ _ _ Hb) as Hw. split.
  - unfold phase in Hp. destruct (state_ c); naive_solver.
  - destruct (phase_serving _ _ _ _ Hw Hp) as [?|[?|(fu & ? & _ & _ & ? & ? & ?)]]; eauto 10.
Qed.

(** C5: Nothing is lost at the end.  If the exchange is over and the origin ended
its response by closing, the client was sent every byte the origin sent, and
the origin had been sent the whole rebuilt request. *)
Theorem response_complete cfg fc c w :
  conn_run cfg fc c w → done_ c = true → upstream_eof_ c = true →
  let o := obs (kern w) in
  ∃ fu, fu ≠ fc ∧ sent o fu = upstream_bytes c ∧ sent o fc = rcvd o fu ∧
    (∀ fd, fdt o !! fd ≠ Some fc ∧ fdt o !! fd ≠ Some fu).
Proof.
  intros [_ Hp]%run_inv Hd He o. apply bool_decide_eq_true in Hd. unfold phase in Hp. rewrite Hd in Hp.
  destruct Hp as (_ & _ & _ & _ & _ & Hno & _ & Hc). destruct (Hc He) as (fu & ? & _ & Hno' & ? & ?).
  exists fu. auto.
Qed.

(** C26: The origin sees the request and nothing else.  While an upstream socket
is open, what was written to it is a beginning of the request rebuilt from the
client's bytes, and nothing is read from it before all of it was written. *)
Theorem origin_sees_the_request cfg fc c w fu :
  conn_run cfg fc c w → fdt (obs (kern w)) !! upstream_ c = Some fu →
  let o := obs (kern w) in
  req_known c ∧ fu ≠ fc ∧ sent o fu `prefix_of` upstream_bytes c ∧
  (rcvd o fu ≠ [] → sent o fu = upstream_bytes c).
Proof.
  intros [Hb Hp]%run_inv Hfu o. pose proof (ow_pos _ (ci_wf _ _ _ _ Hb) _ _ Hfu) as Hpos.
  unfold phase in Hp. destruct (state_ c).
  - destruct Hp as (_ & _ & ? & _). lia.
  - destruct Hp as (_ & _ & ? & _). lia.
  - destruct Hp as (_ & _ & _ & _ & _ & _ & [? _] & _ & _ & g & [_ Hg] & ? & Hs & Hr). simplify_eq.
    split_and!; try done. subst o. rewrite Hs. apply prefix_nil.
  - destruct Hp as (_ & _ & _ & _ & _ & _ & [? _] & _ & g & [_ Hg] & ? & Hr & Hs & Hout). simplify_eq.
    split_and!; try done. subst o. rewrite Hs, <-Hout. apply prefix_take.
  - destruct Hp as (_ & _ & _ & [? _] & _ & _ & g & [_ Hg] & ? & Hs & _). simplify_eq.
    split_and!; try done. subst o. by rewrite Hs.
  - destruct Hp as (_ & _ & ? & _). lia.
  - destruct Hp as (_ & _ & ? & _). lia.
Qed.

(** There is always something to wait for.  Until the exchange is over,
[want_fd] is an open descriptor, so a backend that waits on it cannot be waiting
on a closed or reused number. *)
Theorem wait_target_open cfg fc c w :
  conn_run cfg fc c w → done_ c = false →
  0 ≤ want_fd c w ∧ is_Some (fdt (obs (kern w)) !! want_fd c w).
Proof.
  intros [_ Hp]%run_inv Hd. apply bool_decide_eq_false in Hd. unfold phase in Hp. unfold want_fd.
  assert (∀ fd f, owns (obs (kern w)) fd f → 0 ≤ fd ∧ is_Some (fdt (obs (kern w)) !! fd)) as Hown.
  { intros fd f [? ?]. eauto. }
  destruct (state_ c); try done.
  - destruct Hp as (-> & Ho & _). by eapply Hown.
  - destruct Hp as (-> & _ & _ & _ & _ & _ & _ & _ & _ & j & jb & fr & -> & -> & Ho & _). by eapply Hown.
  - destruct Hp as (-> & _ & _ & _ & _ & _ & _ & _ & _ & fu & Ho & _). by eapply Hown.
  - destruct Hp as (-> & _ & _ & _ & _ & _ & _ & _ & fu & Ho & _). by eapply Hown.
  - destruct Hp as (Ho & _ & _ & _ & _ & [(-> & _)|(-> & _)] & fu & Hu & _); by eapply Hown.
  - destruct Hp as (-> & Ho & _). by eapply Hown.
Qed.

Lemma epoch_bump e : wrap64 (e + 1) ≠ e.
Proof. unfold wrap64. intros H. pose proof (Z.div_mod (e + 1) (2 ^ 64)). lia. Qed.

(** C7: The epoch tells the truth.  If [on_ready] leaves the epoch as it was, the
connection waits for the same descriptor in the same direction, that number
still designates the same open file, and its registrations are untouched; any
change of wait target, even to a new socket under the same number, shows as
a different epoch. *)
Theorem epoch_tracks_target cfg fc c w :
  conn_run cfg fc c w →
  let c' := (on_ready cfg c w).1 in
  let w' := (on_ready cfg c w).2 in
  epoch c' = epoch c →
  want_fd c' w' = want_fd c w ∧ want_write c' = want_write c ∧
  fdt (obs (kern w')) = fdt (obs (kern w)) ∧ regs (obs (kern w')) = regs (obs (kern w)).
Proof.
  intros Hi%run_inv c' w' He. destruct (so_epoch _ _ _ _ _ (on_ready_ok cfg fc _ c w Hi)) as [Hb|[_ Hs]].
  - subst c'. unfold epoch in He. rewrite Hb in He. by apply epoch_bump in He.
  - destruct Hs as (Hwt & Hcl & Hup & Hj & Ht & Hr & Hjs). subst c' w'.
    unfold want_fd, want_write. by rewrite Hwt, Hcl, Hup, Hj, Hjs.
Qed.

(** C24: A step touches nothing of others.  [on_ready] leaves every descriptor
that is not the connection's own designating the same open file, with the same
bytes exchanged and the same registrations, and every other lookup job as it
was. *)
Theorem step_is_isolated cfg fc c w :
  conn_run cfg fc c w →
  let o := obs (kern w) in
  let w' := (on_ready cfg c w).2 in
  let o' := obs (kern w') in
  (∀ fd f, fdt o !! fd = Some f → ¬ owned c (jobs (res w)) fd →
    fdt o' !! fd = Some f ∧ sent o' f = sent o f ∧ rcvd o' f = rcvd o f ∧
    ∀ kq dir, regs o' !! (kq, fd, dir) = regs o !! (kq, fd, dir)) ∧
  (∀ j jb, jobs (res w) !! j = Some jb → resolve_job_ c ≠ Some j → jobs (res w') !! j = Some jb).
Proof.
  intros Hi%run_inv o w' o'. destruct (on_ready_ok cfg fc _ c w Hi) as [_ Hf _ Hj _].
  pose proof (ci_wf _ _ _ _ (ci_base _ _ _ _ Hi)) as Hw. split; [|intros j jb H1 H2; by apply Hj]. intros fd f Hfd Hn.
  destruct (frame_other _ _ _ fd f Hw Hf) as ([_ ?] & ? & ?); [split; [by eapply ow_pos|done]|done|].
  split_and!; try done. intros kq dir. by apply (fr_regs _ _ _ Hf).
Qed.

(** C25: No descriptor leaks.  If every open descriptor belongs to the connection,
to a live lookup job or to a set [B] of others, this is still so after
[on_ready]; and once the exchange is over all that is open belongs to others or to
lookup jobs. *)
Theorem no_descriptor_leaks cfg fc c w (B : Z → Prop) :
  conn_run cfg fc c w → accounted B c (obs (kern w)) (jobs (res w)) →
  let c' := (on_ready cfg c w).1 in
  let w' := (on_ready cfg c w).2 in
  accounted B c' (obs (kern w')) (jobs (res w')) ∧
  (done_ c' = true → ∀ fd, is_Some (fdt (obs (kern w')) !! fd) → B fd ∨ job_fd (jobs (res w')) fd).
Proof.
  intros [[Hw Hfc Hfr Hd Hc _] Hp]%run_inv Ha c' w'. assert (conn_inv fc B c w) as Hi by by split.
  destruct (on_ready_ok cfg fc B c w Hi) as [[Hb' Hp'] _ _ _ _]. pose proof (ci_accounted _ _ _ _ Hb') as Ha'.
  split; [done|]. intros Hdn fd [f Hfd]. apply bool_decide_eq_true in Hdn. unfold phase in Hp'. fold c' in Hp'.
  rewrite Hdn in Hp'. destruct Hp' as (_ & Hcl & Hup & _). pose proof (ow_pos _ (ci_wf _ _ _ _ Hb') _ _ Hfd) as Hpos.
  destruct (Ha' fd) as [?|[Hx|[Hx|?]]]; [by eexists|by left| | |by right]; fold c' in Hx; lia.
Qed.

End claims.

(** ** The theorems on the concrete run *)

Definition demo_conn (n : nat) : Connection := (demo n).1.
Definition demo_obs (n : nat) : Obs := obs (kern (demo n).2).

Lemma client_sees_one_answer_witness :
  sent (demo_obs 5) 0%nat = lit "HTTP/1.1 200 OK" ++ crlf ++ crlf ∧
  rcvd (demo_obs 5) 0%nat = in_client_ (demo_conn 5).
Proof.
  split; [vm_compute; reflexivity|]. exact (proj1 (client_sees_one_answer demo_cfg 0 _ _ (demo_run 5))).
Defined.

Lemma response_complete_witness :
  done_ (demo_conn 8) = true ∧ ∃ fu, fu ≠ 0%nat ∧ sent (demo_obs 8) 0%nat = rcvd (demo_obs 8) fu.
Proof.
  split; [vm_compute; reflexivity|].
  destruct (response_complete demo_cfg 0 _ _ (demo_run 8)) as (fu & Hne & _ & H & _); [vm_compute; reflexivity..|].
  exists fu. split; [exact Hne|exact H].
Defined.

Lemma origin_sees_the_request_witness :
  sent (demo_obs 4) 1%nat = lit "GET / HTTP/1.1" ++ crlf ++ lit "Host: h" ++ crlf ++ lit "Connection: close" ++ crlf ++ crlf ∧
  sent (demo_obs 4) 1%nat = upstream_bytes (demo_conn 4).
Proof.
  split; [vm_compute; reflexivity|].
  destruct (origin_sees_the_request demo_cfg 0 _ _ 1%nat (demo_run 4)) as (_ & _ & _ & H); [vm_compute; reflexivity|].
  apply H. vm_compute. discriminate.
Defined.

Lemma wait_target_open_witness :
  want_fd (demo_conn 3) (demo 3).2 = 1 ∧ is_Some (fdt (demo_obs 3) !! want_fd (demo_conn 3) (demo 3).2).
Proof.
  split; [vm_compute; reflexivity|].
  apply (wait_target_open demo_cfg 0 _ _ (demo_run 3)). vm_compute. reflexivity.
Defined.

Lemma epoch_tracks_target_witness :
  epoch (demo_conn 1) = epoch (demo_conn 0) ∧
  want_fd (on_ready demo_cfg (demo 0).1 (demo 0).2).1 (on_ready demo_cfg (demo 0).1 (demo 0).2).2 =
    want_fd (demo 0).1 (demo 0).2.
Proof.
  split; [vm_compute; reflexivity|].
  apply (epoch_tracks_target demo_cfg 0 _ _ (demo_run 0)). vm_compute. reflexivity.
Defined.

Lemma step_is_isolated_witness :
  fdt (demo_obs 4) !! 1 = Some 1%nat ∧
  ∀ fd f, fdt (obs (kern (demo 4).2)) !! fd = Some f → ¬ owned (demo 4).1 (jobs (res (demo 4).2)) fd →
    fdt (obs (kern (on_ready demo_cfg (demo 4).1 (demo 4).2).2)) !! fd = Some f.
Proof.
  split; [vm_compute; reflexivity|]. intros fd f Hf Hn.
  exact (proj1 (proj1 (step_is_isolated demo_cfg 0 _ _ (demo_run 4)) fd f Hf Hn)).
Defined.

Lemma no_descriptor_leaks_witness :
  accounted (λ _, False) (on_ready demo_cfg (demo 0).1 (demo 0).2).1
    (obs (kern (on_ready demo_cfg (demo 0).1 (demo 0).2).2)) (jobs (res (on_ready demo_cfg (demo 0).1 (demo 0).2).2)).
Proof.
  apply (no_descriptor_leaks demo_cfg 0 _ _ (λ _, False) (demo_run 0)).
  intros fd [f Hf]. right; left. change ((<[0 := 0%nat]> ∅ : gmap Z nat) !! fd = Some f) in Hf.
  apply lookup_insert_Some in Hf as [[<- _]|[_ Hf]]; [reflexivity|]. by rewrite lookup_empty in Hf.
Defined.

