(* ===== verification/ConnectionBounds.v ===== *)
(** * Bounds and branches of a connection

How much memory a connection can hold on to, which candidates [begin_connect]
tries, what each parser verdict turns into, and two holes in the tests that
keep private responses out of the cache. *)
From S2P Require Import Prelude CppString Http Config Cache CacheSpec Kernel SimKernel Socket Resolver ResolverSpec.
From S2P Require Import Connection ConnectionInv ConnectionSpec.

Section bounds.
Context {K C : Type} `{!Kernel K, !KernelLaws K, !ResponseCache C}.
Implicit Type w : World K C.

(** Neither reading the request nor relaying, with the accumulated response as it was. *)
Definition elsewhere (c c' : Connection) : Prop :=
  state_ c' ≠ ReadingRequest ∧ state_ c' ≠ Relaying ∧ cache_accum_ c' = cache_accum_ c.

Lemma elsewhere_trans c c1 c2 : cache_accum_ c1 = cache_accum_ c → elsewhere c1 c2 → elsewhere c c2.
Proof. unfold elsewhere. intros H (? & ? & ?). split_and!; congruence. Qed.

Lemma fail_with_elsewhere v c w : elsewhere c (fail_with v c w).1.
Proof. unfold fail_with, upstream_reset. by destruct (Fd_reset _ _ _). Qed.

Lemma finish_elsewhere c w : elsewhere c (finish c w).1.
Proof.
  unfold finish, resolve_job_reset, upstream_reset, client_reset.
  destruct (drop_ptr _ _ _), (Fd_reset _ _ _). by destruct (Fd_reset _ _ _).
Qed.

Lemma connect_loop_elsewhere fuel c w : elsewhere c (connect_loop fuel c w).1.
Proof.
  revert c w; induction fuel as [|fuel IH]; intros c w; cbn [connect_loop]; [apply fail_with_elsewhere|].
  destruct (endpoints_ c !! endpoint_idx_ c) as [ep|]; [|apply fail_with_elsewhere].
  destruct (start_connect ep (kern w)) as [[st fd] k].
  unfold upstream_reset. destruct st; [by destruct (Fd_reset _ _ _)..|]. by eapply elsewhere_trans, IH.
Qed.

Lemma begin_connect_elsewhere c w : elsewhere c (begin_connect c w).1.
Proof. apply connect_loop_elsewhere. Qed.

Lemma begin_resolve_elsewhere cfg c w : elsewhere c (begin_resolve cfg c w).1.
Proof.
  unfold begin_resolve. destruct (async_resolve cfg); cbn [negb].
  - destruct (start _ _ _ _ _ _) as [[[[st eps] job] r] k]. destruct st; [|done|].
    + by eapply elsewhere_trans, begin_connect_elsewhere.
    + by eapply elsewhere_trans, fail_with_elsewhere.
  - destruct (resolve_blocking _ _ _ _ _) as [[[ok eps] r] k]. destruct ok; cbn [negb].
    + by eapply elsewhere_trans, begin_connect_elsewhere.
    + by eapply elsewhere_trans, fail_with_elsewhere.
Qed.

(** The bounds, state by state. *)
Record bounded (cfg : Config) (c : Connection) : Prop := {
  bd_request : state_ c = ReadingRequest →
    if parsed_ c
    then zlen (in_client_ c) < wrap64 (header_bytes (req_ c) + content_length (req_ c)) ∧
         content_length (req_ c) ≤ max_body_bytes cfg
    else zlen (in_client_ c) ≤ max_header_bytes cfg;
  bd_relay : state_ c = Relaying → zlen (out_client_ c) ≤ chunk_size cfg;
  bd_accum : zlen (cache_accum_ c) ≤ cache_max_entry_bytes cfg
}.

Lemma elsewhere_bounded cfg c c' : zlen (cache_accum_ c) ≤ cache_max_entry_bytes cfg → elsewhere c c' → bounded cfg c'.
Proof. intros Ha (? & ? & He). by split; rewrite ?He. Qed.

Lemma request_known_bounded cfg c w :
  zlen (cache_accum_ c) ≤ cache_max_entry_bytes cfg → state_ c = ReadingRequest → parsed_ c = true →
  content_length (req_ c) ≤ max_body_bytes cfg → bounded cfg (request_known cfg c w).1.
Proof.
  intros Ha Hst Hp Hl. unfold request_known.
  destruct (Z.ltb_spec (zlen (in_client_ c)) (wrap64 (header_bytes (req_ c) + content_length (req_ c)))).
  { split; simpl; [by rewrite Hp|congruence|done]. }
  assert (∀ c' w, cache_accum_ c' = cache_accum_ c → bounded cfg (begin_resolve cfg c' w).1) as Hres.
  { intros c' w' He. eapply elsewhere_bounded; [exact Ha|]. by eapply elsewhere_trans, begin_resolve_elsewhere. }
  destruct (rcache w) as [rc|]; [|by apply Hres]. destruct (cacheable_request _ _); [|by apply Hres].
  destruct (rc_get _ _) as [[v|] rc']; [|by apply Hres].
  eapply elsewhere_bounded; [exact Ha|]. by eapply elsewhere_trans, fail_with_elsewhere.
Qed.

Lemma do_read_client_bounded cfg c w :
  bounded cfg c → state_ c = ReadingRequest → bounded cfg (do_read_client cfg c w).1.
Proof.
  intros [Hreq Hrel Ha] Hst. unfold do_read_client. destruct (read_some _ _ _) as [[st bs] k].
  assert (∀ w, bounded cfg (finish c w).1) as Hfin by (intros; eapply elsewhere_bounded, finish_elsewhere; done).
  assert (∀ v c' w, cache_accum_ c' = cache_accum_ c → bounded cfg (fail_with v c' w).1) as Hfail.
  { intros v c' w' He. eapply elsewhere_bounded; [exact Ha|]. by eapply elsewhere_trans, fail_with_elsewhere. }
  destruct st; [|by split|by apply Hfin..]. specialize (Hreq Hst).
  change (parsed_ (set_in_client _ c)) with (parsed_ c). destruct (parsed_ c) eqn:Hp.
  - by apply request_known_bounded; [..|destruct Hreq].
  - destruct (parse_request _ _) as [[] r].
    + change (in_client_ (set_req _ (set_in_client ?x _))) with x.
      destruct (Z.ltb_spec (max_header_bytes cfg) (zlen (in_client_ c ++ bs))); [by apply Hfail|].
      split; simpl; [by rewrite Hp|congruence|done].
    + change (content_length (req_ (set_req ?x _))) with (content_length x).
      destruct (Z.ltb_spec (max_body_bytes cfg) (content_length r)); [by apply Hfail|]. by apply request_known_bounded.
    + by apply Hfail.
    + by apply Hfail.
Qed.

Lemma finish_resolve_bounded cfg c w : bounded cfg c → state_ c = Resolving → bounded cfg (finish_resolve c w).1.
Proof.
  intros Hb Hst. pose proof (bd_accum _ _ Hb) as Ha. unfold finish_resolve.
  destruct (resolve_job_ c) as [j|]; [|done]. destruct (jobs (res w) !! j) as [jb|]; [|done].
  destruct (sys_read _ _ _) as [a k]. destruct (j_ready jb); [|done]. cbn [negb].
  eapply elsewhere_bounded; [exact Ha|]. unfold resolve_job_reset.
  destruct (j_ok jb); cbn [negb]; destruct (drop_ptr _ _ _).
  - by eapply elsewhere_trans, begin_connect_elsewhere.
  - by eapply elsewhere_trans, fail_with_elsewhere.
Qed.

Lemma finish_connect_bounded cfg c w : bounded cfg c → bounded cfg (finish_connect c w).1.
Proof.
  intros Hb. pose proof (bd_accum _ _ Hb) as Ha. unfold finish_connect.
  destruct (connect_succeeded _ _) as [[] k]; cbn [negb]; [by split|].
  unfold upstream_reset. destruct (Fd_reset _ _ _). eapply elsewhere_bounded; [exact Ha|].
  by eapply elsewhere_trans, begin_connect_elsewhere.
Qed.

Lemma do_write_upstream_bounded cfg c w :
  bounded cfg c → 0 ≤ chunk_size cfg → quiet c → state_ c = SendingUpstream → bounded cfg (do_write_upstream c w).1.
Proof.
  intros Hb Hc (Hout & _) Hst. pose proof (bd_accum _ _ Hb) as Ha. unfold do_write_upstream.
  destruct (write_some _ _ _) as [[[] n] k]; [|done|eapply elsewhere_bounded, fail_with_elsewhere; done..].
  destruct (_ <? _); split; simpl; rewrite ?Hst; try done. by rewrite Hout.
Qed.

Lemma accumulate_bounded cfg bs c :
  zlen (cache_accum_ c) ≤ cache_max_entry_bytes cfg →
  zlen (cache_accum_ (accumulate cfg bs c)) ≤ cache_max_entry_bytes cfg.
Proof.
  intros Ha. unfold accumulate. destruct (_ && _); [|done].
  destruct (Z.ltb_spec (cache_max_entry_bytes cfg) (zlen (cache_accum_ c) + zlen bs)); unfold zlen in *; simpl.
  - lia.
  - rewrite length_app. lia.
Qed.

Lemma do_read_upstream_bounded cfg c w :
  bounded cfg c → out_client_ c = [] → state_ c = Relaying → bounded cfg (do_read_upstream cfg c w).1.
Proof.
  intros Hb Hout Hst. pose proof (bd_accum _ _ Hb) as Ha. unfold do_read_upstream.
  destruct (read_some _ _ _) as [[st bs] k] eqn:E. destruct st; [|done| |eapply elsewhere_bounded, finish_elsewhere; done].
  - apply read_some_spec in E as (_ & Hlen & _). destruct Hlen as [_ Hlen]; [done|].
    pose proof (accumulate_bounded cfg bs c Ha) as Hacc. destruct (accumulate_spec cfg bs c) as (a & b & Heq & _).
    rewrite Heq in *. split; simpl; rewrite ?Hst, ?Hout; done.
  - unfold upstream_reset. destruct (Fd_reset _ _ _). destruct (_ <=? _).
    + eapply elsewhere_bounded; [exact Ha|]. by eapply elsewhere_trans, finish_elsewhere.
    + split; simpl; rewrite ?Hst; try done. intros _. by apply (bd_relay _ _ Hb).
Qed.

Lemma do_write_client_bounded cfg c w :
  bounded cfg c → 0 ≤ chunk_size cfg → state_ c ≠ ReadingRequest → bounded cfg (do_write_client c w).1.
Proof.
  intros Hb Hc Hst. pose proof (bd_accum _ _ Hb) as Ha. unfold do_write_client.
  destruct (write_some _ _ _) as [[[] n] k]; [|done|eapply elsewhere_bounded, finish_elsewhere; done..].
  destruct (_ <? _); [split; simpl; [done|apply Hb|done]|]. destruct (_ || _); [|by split; simpl].
  eapply elsewhere_bounded; [exact Ha|]. by eapply elsewhere_trans, finish_elsewhere.
Qed.

Lemma on_ready_bounded `{!ResponseCacheLaws C} cfg fc B c w :
  0 ≤ chunk_size cfg → conn_inv fc B c w → bounded cfg c → bounded cfg (on_ready cfg c w).1.
Proof.
  intros Hc Hi Hb. pose proof (ci_phase _ _ _ _ Hi) as Hp. unfold on_ready. unfold phase in Hp.
  destruct (state_ c) eqn:Hst.
  - destruct Hp as (-> & _). by apply do_read_client_bounded.
  - destruct Hp as (-> & _). by apply finish_resolve_bounded.
  - destruct Hp as (-> & _). rewrite bool_decide_true by done. by apply finish_connect_bounded.
  - destruct Hp as (-> & _ & _ & _ & _ & Hq & _). rewrite bool_decide_false by done. by apply do_write_upstream_bounded.
  - destruct Hp as (_ & _ & _ & _ & _ & [(Hwt & Hout & _)|(Hwt & _)] & _); rewrite Hwt.
    + by apply do_read_upstream_bounded.
    + apply do_write_client_bounded; congruence.
  - destruct Hp as (Hwt & _). rewrite Hwt. apply do_write_client_bounded; congruence.
  - destruct Hp as (-> & _). eapply elsewhere_bounded, finish_elsewhere. by destruct Hb.
Qed.
End bounds.



(** ** Candidate addresses *)

Section candidates.
Context {K C : Type} `{!Kernel K, !KernelLaws K, !ResponseCache C}.
Implicit Type w : World K C.

(** Try the addresses in order until one does not fail: how many were tried,
the outcome of the last and its socket. *)
Fixpoint try_candidates (eps : list Endpoint) (k : K) : option (nat * ConnectStatus * Z) * K :=
  match eps with
  | [] => (None, k)
  | ep :: eps' =>
      let '((st, fd), k) := start_connect ep k in
      if bool_decide (st = ConnectFailed) then
        let '(o, k) := try_candidates eps' k in ((λ p, (S p.1.1, p.1.2, p.2)) <$> o, k)
      else (Some (1%nat, st, fd), k)
  end.

Definition connecting_state (st : ConnectStatus) : State :=
  match st with Connected => SendingUpstream | _ => Connecting end.

(** C31: [begin_connect] goes through the remaining candidate addresses in order,
each once: it stops at the first that connects or is under way, and answers 502
only when every one of them failed. *)
Theorem begin_connect_candidates c w :
  upstream_ c = -1 → (endpoint_idx_ c ≤ length (endpoints_ c))%nat →
  let '(o, k) := try_candidates (drop (endpoint_idx_ c) (endpoints_ c)) (kern w) in
  begin_connect c w =
    match o with
    | Some (n, st, fd) =>
        (set_want WriteUpstream (set_state (connecting_state st)
           (set_upstream fd (set_endpoint_idx (endpoint_idx_ c + n) c))), set_kern k w)
    | None => fail_with bad_gateway (set_endpoint_idx (length (endpoints_ c)) c) (set_kern k w)
    end.
Proof.
  unfold begin_connect. intros Hup Hle. remember (length (endpoints_ c) - endpoint_idx_ c)%nat as fuel eqn:Hfuel.
  revert c w Hup Hle Hfuel. induction fuel as [|fuel IH]; intros c w Hup Hle Hfuel.
  - rewrite drop_ge by lia. cbn [try_candidates connect_loop].
    replace (length (endpoints_ c)) with (endpoint_idx_ c) by lia. by destruct c, w.
  - destruct (endpoints_ c !! endpoint_idx_ c) as [ep|] eqn:Hep; [|apply lookup_ge_None in Hep; lia].
    rewrite (drop_S _ ep) by done. cbn [try_candidates connect_loop]. rewrite Hep.
    destruct (start_connect ep (kern w)) as [[st fd] k]. case_bool_decide as Hst.
    + subst st. specialize (IH (set_endpoint_idx (S (endpoint_idx_ c)) c) (set_kern k w) Hup).
      cbn [set_endpoint_idx endpoint_idx_ endpoints_ set_kern kern] in IH.
      destruct (try_candidates _ k) as [o k2]. rewrite IH by lia. destruct o as [[[n st] fd']|]; simpl; [|done].
      by rewrite Nat.add_succ_r.
    + unfold upstream_reset, Fd_reset. destruct st; [| |done];
        change (upstream_ (set_endpoint_idx _ c)) with (upstream_ c); rewrite Hup, Nat.add_1_r; done.
Qed.
End candidates.

Definition demo_target : Connection := set_endpoints [endpoint_of loopback] (Connection_new 0 7 demo_world).1.

Lemma begin_connect_candidates_witness :
  state_ (begin_connect demo_target demo_world).1 = SendingUpstream ∧
  endpoint_idx_ (begin_connect demo_target demo_world).1 = 1%nat.
Proof.
  pose proof (begin_connect_candidates demo_target demo_world eq_refl (Nat.le_0_l _)) as H.
  destruct (try_candidates _ _) as [o k] eqn:E. rewrite H. vm_compute in E. injection E as <- <-.
  split; reflexivity.
Defined.

(** ** Verdicts *)



(** ** Holes in the tests that keep private responses out of the cache *)

(** The world of the concrete run, with another request and another response. *)
Definition world_with (ask reply : str) : World Sim LruCache :=
  mkWorld (mkSim (obs_open 0 obs0) 0 0 (λ f, match f with 0%nat => [ask] | 1%nat => [reply] | _ => [] end)
             (inr [loopback]) 0 [])
    (Resolver_new 30 0) (Some (LruCacheImpl NullMutex 8 4096)).

(** What the cache holds for [http://h/] after the exchange. *)
Definition cached_after (ask reply : str) : option str :=
  let '(_, w) := steps demo_cfg 5 (Connection_new 0 7 (world_with ask reply)) in
  rc ← rcache w; rc_contents rc !! lit "GET h:80/".

Definition ok_head : str := lit "HTTP/1.1 200 OK" ++ crlf.
Definition cookie_reply (name : string) : str := ok_head ++ lit name ++ lit ": id=1" ++ crlf ++ crlf ++ lit "hi".
Definition ask_with (hs : list str) : str :=
  lit "GET http://h/ HTTP/1.1" ++ crlf ++ concat ((λ h, h ++ crlf) <$> hs) ++ crlf.

(** A response that sets a cookie is kept out of the cache only for the two
spellings the code looks for: header names are case-insensitive, yet
[Set-cookie] and [SET-COOKIE] are stored, and then served to every client. *)
Lemma cookie_spelling_stored :
  cached_after (ask_with []) (cookie_reply "Set-Cookie") = None ∧
  cached_after (ask_with []) (cookie_reply "set-cookie") = None ∧
  cached_after (ask_with []) (cookie_reply "Set-cookie") = Some (cookie_reply "Set-cookie") ∧
  cached_after (ask_with []) (cookie_reply "SET-COOKIE") = Some (cookie_reply "SET-COOKIE").
Proof. split_and!; vm_compute; reflexivity. Qed.

(** Only the first header of a name is looked at: a request with an empty
[Cookie] before the real one counts as carrying no credentials, and the response
to it is stored under the key every other client uses. *)
Theorem second_cookie_ignored :
  cached_after (ask_with [lit "Cookie: id=1"]) (ok_head ++ crlf ++ lit "secret") = None ∧
  cached_after (ask_with [lit "Cookie:"; lit "Cookie: id=1"]) (ok_head ++ crlf ++ lit "secret") =
    Some (ok_head ++ crlf ++ lit "secret").
Proof. split_and!; vm_compute; reflexivity. Qed.
