(* ===== verification/EventLoop.v ===== *)
(** * The event loop backend ([backend/event_loop.cpp])

One thread, one kqueue.  [live_] maps the address of each live [Connection] to
its slot: the connection and the registration made for it.  An address is a
number handed out by [malloc], of which all that is assumed is that it is not
in use: the address of a destroyed connection may come back, as with [new].
The kernel reports events by the [udata] they were registered with.

The stop flag is written by a signal handler: [stops] lists what its successive
readings return, the loop ending at the first [true] (or when the list
does).  [budget] bounds the loops that repeat while the kernel has more to give
([accept], the wakeup pipe); the theorems hold for every budget. *)
From S2P Require Import Prelude CppString Http Config Cache CacheSpec Kernel Socket Resolver Connection.

(** ** Data *)

Record Slot := mkSlot { sl_conn : Connection; sl_fd : Z; sl_write : bool; sl_epoch : Z }.

(** One shard's hand-off queue. *)
Record Inbox := mkInbox { ib_queue : list Z; ib_read_end : Z; ib_write_end : Z }.

Record EventLoop := mkLoop {
  kq_ : Z;
  listener_ : Z;
  live_ : gmap nat Slot;
  inbox_ : option Inbox;
  next_id_ : Z;
  accepted_ : Z
}.

Definition set_kq (kq : Z) (l : EventLoop) : EventLoop :=
  mkLoop kq (listener_ l) (live_ l) (inbox_ l) (next_id_ l) (accepted_ l).
Definition set_listener (fd : Z) (l : EventLoop) : EventLoop :=
  mkLoop (kq_ l) fd (live_ l) (inbox_ l) (next_id_ l) (accepted_ l).
Definition set_live (m : gmap nat Slot) (l : EventLoop) : EventLoop :=
  mkLoop (kq_ l) (listener_ l) m (inbox_ l) (next_id_ l) (accepted_ l).
Definition set_inbox (ib : option Inbox) (l : EventLoop) : EventLoop :=
  mkLoop (kq_ l) (listener_ l) (live_ l) ib (next_id_ l) (accepted_ l).
Definition count_accepted (l : EventLoop) : EventLoop :=
  mkLoop (kq_ l) (listener_ l) (live_ l) (inbox_ l) (wrap64 (next_id_ l + 1)) (wrap64 (accepted_ l + 1)).

Definition EventLoop_new : EventLoop := mkLoop (-1) (-1) ∅ None 0 0.

Section loop.
Context {K C : Type} `{!Kernel K, !ResponseCache C}.
Context (cfg : Config) (malloc : gset nat → nat) (budget : nat).
Implicit Type w : World K C.
Implicit Type l : EventLoop.

(** ** Hand-off *)

Definition Inbox_init (k : K) : (bool * Inbox) * K :=
  let '(ok, r, wr, k) := make_pipe (-1) (-1) k in ((ok, mkInbox [] r wr), k).

Definition Inbox_push (fd : Z) (ib : Inbox) (k : K) : Inbox * K :=
  let ib := mkInbox (ib_queue ib ++ [fd]) (ib_read_end ib) (ib_write_end ib) in
  let '(_, k) := sys_write (ib_write_end ib) ["001"%char] k in (ib, k).

Definition Inbox_drain (ib : Inbox) : list Z * Inbox :=
  (ib_queue ib, mkInbox [] (ib_read_end ib) (ib_write_end ib)).

(** ** Registrations *)

Definition arm (l : EventLoop) (fd : Z) (write : bool) (udata : UData) w : bool * World K C :=
  let '(ok, k) := sys_ev_add (kq_ l) fd write udata (kern w) in (ok, set_kern k w).

Definition disarm (l : EventLoop) (fd : Z) (write : bool) w : World K C :=
  if fd <? 0 then w else
  let '(_, k) := sys_ev_delete (kq_ l) fd write (kern w) in set_kern k w.

(** ** New connections *)

(** The body shared by [take_from_inbox] and [do_accept]: a connection for client
socket [fd], registered and entered, or destroyed if it cannot be registered. *)
Definition adopt (fd : Z) l w : EventLoop * World K C :=
  let '(conn, w) := Connection_new fd (next_id_ l) w in
  let l := count_accepted l in
  let raw := malloc (dom (live_ l)) in
  let cfd := want_fd conn w in
  let write := want_write conn in
  if cfd <? 0 then (l, Connection_destroy conn w) else
  let '(ok, w) := arm l cfd write (UConn raw) w in
  if negb ok then (l, Connection_destroy conn w) else
  (set_live (<[raw := mkSlot conn cfd write (epoch conn)]> (live_ l)) l, w).

(** [while (::read(fd, buf, 256) > 0) {}] *)
Fixpoint drain_wakeups (n : nat) (fd : Z) w : World K C :=
  match n with
  | O => w
  | S n' =>
      match sys_read fd 256 (kern w) with
      | (inr bs, k) => if bool_decide (bs = []) then set_kern k w else drain_wakeups n' fd (set_kern k w)
      | (inl _, k) => set_kern k w
      end
  end.

Fixpoint adopt_all (fds : list Z) l w : EventLoop * World K C :=
  match fds with
  | [] => (l, w)
  | fd :: fds' => let '(l, w) := adopt fd l w in adopt_all fds' l w
  end.

Definition take_from_inbox l w : EventLoop * World K C :=
  match inbox_ l with
  | None => (l, w)
  | Some ib =>
      let w := drain_wakeups budget (ib_read_end ib) w in
      let '(fds, ib) := Inbox_drain ib in
      adopt_all fds (set_inbox (Some ib) l) w
  end.

Fixpoint accept_all (n : nat) l w : EventLoop * World K C :=
  match n with
  | O => (l, w)
  | S n' =>
      match accept_one (listener_ l) (kern w) with
      | ((AcceptOk, fd), k) => let '(l, w) := adopt fd l (set_kern k w) in accept_all n' l w
      | ((AcceptOutOfFds, _), k) => (l, set_kern (fd_limit_current k).2 w)   (* logged *)
      | (_, k) => (l, set_kern k w)
      end
  end.

Definition do_accept l w : EventLoop * World K C := accept_all budget l w.

(** ** Serving an event *)

(** [live_.erase(it)] destroys the connection. *)
Definition erase (p : nat) (conn : Connection) l w : EventLoop * World K C :=
  (set_live (delete p (live_ l)) l, Connection_destroy conn w).

Definition service (p : nat) l w : EventLoop * World K C :=
  match live_ l !! p with
  | None => (l, w)
  | Some s =>
      let old_fd := sl_fd s in
      let old_write := sl_write s in
      let old_epoch := sl_epoch s in
      let '(conn, w) := on_ready cfg (sl_conn s) w in
      if done_ conn then erase p conn l (disarm l old_fd old_write w) else
      let new_fd := want_fd conn w in
      let new_write := want_write conn in
      if new_fd <? 0 then erase p conn l (disarm l old_fd old_write w) else
      if negb (epoch conn =? old_epoch) then
        let w := disarm l old_fd old_write w in
        let '(ok, w) := arm l new_fd new_write (UConn p) w in
        if negb ok then erase p conn l w else
        (set_live (<[p := mkSlot conn new_fd new_write (epoch conn)]> (live_ l)) l, w)
      else (set_live (<[p := mkSlot conn old_fd old_write old_epoch]> (live_ l)) l, w)
  end.

Definition handle (u : UData) l w : EventLoop * World K C :=
  match u with
  | UInbox => take_from_inbox l w
  | UNull => do_accept l w
  | UConn p => service p l w
  end.

Fixpoint handle_all (us : list UData) l w : EventLoop * World K C :=
  match us with
  | [] => (l, w)
  | u :: us' => let '(l, w) := handle u l w in handle_all us' l w
  end.

(** ** The loop *)

Fixpoint poll_loop (stops : list bool) l w : EventLoop * World K C :=
  match stops with
  | [] => (l, w)
  | true :: _ => (l, w)
  | false :: stops' =>
      match sys_kevent_wait (kq_ l) 256 200 (kern w) with
      | (inl EINTR, k) => poll_loop stops' l (set_kern k w)
      | (inl _, k) => (l, set_kern k w)
      | (inr us, k) => let '(l, w) := handle_all us l (set_kern k w) in poll_loop stops' l w
      end
  end.

(** ** Shutdown *)

(** The events of a drain round: the listener is gone, and the inbox tag is not
the address of a connection. *)
Definition drain_event (u : UData) l w : EventLoop * World K C :=
  match u with UConn p => service p l w | UInbox | UNull => (l, w) end.

Fixpoint drain_events (us : list UData) l w : EventLoop * World K C :=
  match us with
  | [] => (l, w)
  | u :: us' => let '(l, w) := drain_event u l w in drain_events us' l w
  end.

Definition grace_ms : Z := 5000.

Fixpoint drain_loop (rounds : nat) (waited : Z) l w : EventLoop * World K C :=
  match rounds with
  | O => (l, w)
  | S rounds' =>
      if bool_decide (live_ l = ∅) || negb (waited <? grace_ms) then (l, w) else
      match sys_kevent_wait (kq_ l) 256 100 (kern w) with
      | (inl EINTR, k) => drain_loop rounds' waited l (set_kern k w)
      | (inl _, k) => (l, set_kern k w)
      | (inr us, k) =>
          let waited := if bool_decide (us = []) then waited + 100 else waited in
          let '(l, w) := drain_events us l (set_kern k w) in drain_loop rounds' waited l w
      end
  end.

Fixpoint destroy_all (ss : list (nat * Slot)) w : World K C :=
  match ss with
  | [] => w
  | (_, s) :: ss' => destroy_all ss' (Connection_destroy (sl_conn s) w)
  end.

(** [live_.clear()] *)
Definition clear_live l w : EventLoop * World K C := (set_live ∅ l, destroy_all (map_to_list (live_ l)) w).

Definition drain (rounds : nat) l w : EventLoop * World K C :=
  let '(l, w) := drain_loop rounds 0 l w in clear_live l w.

(** [run] before its loop: the listener, the kqueue and the first registration;
[false] when [run] returns at once. *)
Definition run_begin (listener : Z) l w : bool * EventLoop * World K C :=
  let '(_, k) := Fd_reset (listener_ l) listener (kern w) in
  let l := set_listener listener l in
  let '(_, k) := set_nonblocking listener k in
  match sys_kqueue k with
  | (inl _, k) => let '(kq, k) := Fd_reset (kq_ l) (-1) k in (false, set_kq kq l, set_kern k w)
  | (inr kq, k) =>
      let '(kq, k) := Fd_reset (kq_ l) kq k in
      let l := set_kq kq l in
      let w := set_kern k w in
      let '(ok, w) :=
        match inbox_ l with
        | Some ib => arm l (ib_read_end ib) false UInbox w
        | None => arm l (listener_ l) false UNull w
        end in
      (ok, l, w)
  end.

(** What follows the loop: no more clients. *)
Definition run_unlisten l w : EventLoop * World K C :=
  match inbox_ l with
  | Some ib => (l, disarm l (ib_read_end ib) false w)
  | None =>
      let w := disarm l (listener_ l) false w in
      let '(fd, k) := Fd_reset (listener_ l) (-1) (kern w) in
      (set_listener fd l, set_kern k w)
  end.

Definition run (listener : Z) (stops : list bool) (rounds : nat) l w : EventLoop * World K C :=
  let '(ok, l, w) := run_begin listener l w in
  if negb ok then (l, w) else
  let '(l, w) := poll_loop stops l w in
  let '(l, w) := run_unlisten l w in
  drain rounds l w.
End loop.
