(* ===== verification/EventLoopInv.v ===== *)
(** * The invariant of the event loop

[loop_inv] says that each live connection is consistent, owns descriptors no
other connection owns, and has exactly one registration on the loop's kqueue:
for the descriptor and direction it waits for now, carrying its own address.
Every event handler preserves it. *)
From S2P Require Import Prelude CppString Http Config Cache CacheSpec Kernel SimKernel Socket Resolver ResolverSpec.
From S2P Require Import Connection ConnectionInv ConnectionSpec EventLoop.

Section conn.
Context {K C : Type} `{!Kernel K, !KernelLaws K, !ResponseCache C, !ResponseCacheLaws C}.
Implicit Type w : World K C.

(** ** One connection among others *)

Abbreviation inv fc := (conn_inv fc (λ _, True)).

Lemma owned_open fc B c w fd :
  conn_inv fc B c w → owned c (jobs (res w)) fd → 0 ≤ fd → is_Some (fdt (obs (kern w)) !! fd).
Proof.
  intros [_ Hp] Ho Hpos. unfold phase in Hp. destruct (state_ c).
  - destruct Hp as (_ & [_ Hc] & Hu & Hj & _). destruct Ho as [->|[->|(j & jb & ? & _)]]; [eauto|lia|congruence].
  - destruct Hp as (_ & [_ Hc] & Hu & _ & _ & _ & _ & _ & _ & j & jb & fr & Hj & Hjb & [_ Hr] & _ & Hw).
    destruct Ho as [->|[->|(j' & jb' & Hj' & Hjb' & Ho)]]; [eauto|lia|]. simplify_eq.
    destruct Ho as [->| ->]; [eauto|]. destruct Hw as [?|(fw & [_ ?] & _)]; [lia|eauto].
  - destruct Hp as (_ & [_ Hc] & Hj & _ & _ & _ & _ & _ & _ & fu & [_ Hu] & _).
    destruct Ho as [->|[->|(j & jb & ? & _)]]; [eauto|eauto|congruence].
  - destruct Hp as (_ & [_ Hc] & Hj & _ & _ & _ & _ & _ & fu & [_ Hu] & _).
    destruct Ho as [->|[->|(j & jb & ? & _)]]; [eauto|eauto|congruence].
  - destruct Hp as ([_ Hc] & Hj & _ & _ & _ & _ & fu & [_ Hu] & _).
    destruct Ho as [->|[->|(j & jb & ? & _)]]; [eauto|eauto|congruence].
  - destruct Hp as (_ & [_ Hc] & Hu & Hj & _). destruct Ho as [->|[->|(j & jb & ? & _)]]; [eauto|lia|congruence].
  - destruct Hp as (_ & Hc & Hu & Hj & _). destruct Ho as [->|[->|(j & jb & ? & _)]]; [lia|lia|congruence].
Qed.

Lemma job_resolving fc c o js j : phase fc c o js → resolve_job_ c = Some j → state_ c = Resolving.
Proof.
  unfold phase. intros Hp Hj. destruct (state_ c); try done.
  - destruct Hp as (_ & _ & _ & ? & _). congruence.
  - destruct Hp as (_ & _ & ? & _). congruence.
  - destruct Hp as (_ & _ & ? & _). congruence.
  - destruct Hp as (_ & ? & _). congruence.
  - destruct Hp as (_ & _ & _ & ? & _). congruence.
  - destruct Hp as (_ & _ & _ & ? & _). congruence.
Qed.

Lemma reserved_owned c w fd : reserved c w fd → owned c (jobs (res w)) fd.
Proof. intros [->|[->|(j & jb & ? & ? & ->)]]; [by left|right; by left|right; right; eauto 10]. Qed.

Lemma want_open fc B c w :
  conn_inv fc B c w → done_ c = false →
  0 ≤ want_fd c w ∧ is_Some (fdt (obs (kern w)) !! want_fd c w) ∧ owned c (jobs (res w)) (want_fd c w).
Proof.
  intros Hi Hd. apply bool_decide_eq_false in Hd.
  assert (0 ≤ want_fd c w ∧ owned c (jobs (res w)) (want_fd c w)) as [? ?].
  { destruct Hi as [_ Hp]. unfold phase in Hp. unfold want_fd. destruct (state_ c); try done.
    - destruct Hp as (-> & [? _] & _). split; [done|by left].
    - destruct Hp as (-> & _ & _ & _ & _ & _ & _ & _ & _ & j & jb & fr & Hj & Hjb & [? _] & _).
      rewrite Hj, Hjb. split; [done|]. right; right. eauto 10.
    - destruct Hp as (-> & _ & _ & _ & _ & _ & _ & _ & _ & fu & [? _] & _). split; [done|right; by left].
    - destruct Hp as (-> & _ & _ & _ & _ & _ & _ & _ & fu & [? _] & _). split; [done|right; by left].
    - destruct Hp as ([? _] & _ & _ & _ & _ & [(-> & _)|(-> & _)] & fu & [? _] & _);
        split; try done; [right; by left|by left].
    - destruct Hp as (-> & [? _] & _). split; [done|by left]. }
  split; [done|]. split; [by eapply owned_open|done].
Qed.

(** Two connections share nothing. *)
Definition apart (c d : Connection) w : Prop :=
  (∀ fd, is_Some (fdt (obs (kern w)) !! fd) → owned c (jobs (res w)) fd → ¬ owned d (jobs (res w)) fd) ∧
  (∀ j, resolve_job_ c = Some j → resolve_job_ d ≠ Some j).

(** What [c] did to the shared state, seen by the others. *)
Record others_kept (c : Connection) w w' : Prop := {
  ok_frame : wframe (owned c (jobs (res w))) (obs (kern w)) (obs (kern w'));
  ok_jobs j jb : jobs (res w) !! j = Some jb → resolve_job_ c ≠ Some j → jobs (res w') !! j = Some jb;
  ok_fresh : jobs_fresh (res w');
  ok_dns : cache_filled (res w');
  ok_cache : cache_ok (rcache w') (obs (kern w'))
}.

Lemma job_write_end fc c w j jb :
  inv fc c w → resolve_job_ c = Some j → jobs (res w) !! j = Some jb →
  write_end jb = -1 ∨ is_Some (fdt (obs (kern w)) !! write_end jb).
Proof.
  intros [_ Hp] Hj Hjb. pose proof (job_resolving _ _ _ _ _ Hp Hj) as Hst. unfold phase in Hp. rewrite Hst in Hp.
  destruct Hp as (_ & _ & _ & _ & _ & _ & _ & _ & _ & j' & jb' & fr & Hj' & Hjb' & _ & _ & Hw). simplify_eq.
  destruct Hw as [?|(fw & [_ ?] & _)]; [by left|right; eauto].
Qed.

Lemma others_env fc c d w w' :
  others_kept c w w' → inv fc d w → apart c d w → env d w w'.
Proof.
  intros [Hf Hj Hfr Hd Hc] Hi [Hfd Hjj]. split; try done.
  - eapply wframe_mono, Hf. intros fd Hs Ho Hr. by eapply Hfd, reserved_owned.
  - intros j jb Hdj Hjb. exists jb. split; [apply Hj; [done|by intros ?%Hjj]|]. split; [done|].
    destruct (job_write_end _ _ _ _ _ Hi Hdj Hjb) as [?|[f Hfw]]; [by left|right]. split; [done|]. rewrite Hfw.
    apply (fr_fd _ _ _ Hf _ _ Hfw). intros Hoc. eapply Hfd; [|done|right; right]; eauto 10.
Qed.

(** Something happened on descriptors that are not [c]'s. *)
Lemma frame_env fc c w k D :
  inv fc c w → frame D (obs (kern w)) (obs k) →
  (∀ fd, is_Some (fdt (obs (kern w)) !! fd) → D fd → ¬ owned c (jobs (res w)) fd) → env c w (set_kern k w).
Proof.
  intros Hi Hf Hn. destruct (ci_base _ _ _ _ Hi) as [_ _ ? ? ? _]. split; simpl; try done.
  - eapply wframe_mono, Hf. intros fd Hs HD Hr. by eapply Hn, reserved_owned.
  - by eapply cache_ok_frame.
  - intros j jb Hj Hjb. exists jb. split; [done|]. split; [done|].
    destruct (job_write_end _ _ _ _ _ Hi Hj Hjb) as [?|[f Hfw]]; [by left|right]. split; [done|]. rewrite Hfw.
    apply (fr_fd _ _ _ Hf _ _ Hfw). intros HD. eapply Hn; [|done|right; right]; eauto 10.
Qed.

Lemma apart_sym c d w : apart c d w → apart d c w.
Proof. intros [Hf Hj]. split; [intros fd Hs Hd Hc; by eapply Hf|]. intros j Hd Hc. by eapply Hj. Qed.

Lemma job_present fc c w j : inv fc c w → resolve_job_ c = Some j → is_Some (jobs (res w) !! j).
Proof.
  intros [_ Hp] Hj. pose proof (job_resolving _ _ _ _ _ Hp Hj) as Hst. unfold phase in Hp. rewrite Hst in Hp.
  destruct Hp as (_ & _ & _ & _ & _ & _ & _ & _ & _ & j' & jb & fr & Hj' & Hjb & _). simplify_eq. eauto.
Qed.

(** Between two steps of [d] it gains no descriptor. *)
Lemma env_owned fc d w w' fd :
  env d w w' → inv fc d w → owned d (jobs (res w')) fd → is_Some (fdt (obs (kern w')) !! fd) →
  owned d (jobs (res w)) fd ∧ is_Some (fdt (obs (kern w)) !! fd).
Proof.
  intros He Hi Ho [f Hf]. pose proof (ow_pos _ (fr_wf _ _ _ (ev_frame _ _ _ He)) _ _ Hf) as Hpos.
  assert (owned d (jobs (res w)) fd) as Ho'; [|split; [done|by eapply owned_open]].
  destruct Ho as [?|[?|(j & jb' & Hj & Hjb' & Hfd)]]; [by left|right; by left|]. right; right.
  destruct (job_present _ _ _ _ Hi Hj) as [jb Hjb]. destruct (ev_job _ _ _ He j jb Hj Hjb) as (jb2 & ? & Hr & Hw).
  simplify_eq. exists j, jb. split_and!; try done. destruct Hfd as [->| ->]; [by left|right].
  destruct Hw as [?|[? _]]; [lia|done].
Qed.

Lemma env_want_fd fc d w w' : env d w w' → inv fc d w → want_fd d w' = want_fd d w.
Proof.
  intros He Hi. unfold want_fd. destruct (want_ d); try done. destruct (resolve_job_ d) as [j|] eqn:Hj; [|done].
  destruct (job_present _ _ _ _ Hi Hj) as [jb Hjb]. destruct (ev_job _ _ _ He j jb Hj Hjb) as (jb2 & -> & Hr & _).
  by rewrite Hjb.
Qed.

Lemma env_apart fc1 fc2 d e w w' :
  env d w w' → env e w w' → inv fc1 d w → inv fc2 e w → apart d e w → apart d e w'.
Proof.
  intros Hd He Hid Hie [Hf Hj]. split; [|done]. intros fd Hs Hod Hoe.
  destruct (env_owned _ _ _ _ _ Hd Hid Hod Hs) as [Hod0 Hs0].
  destruct (env_owned _ _ _ _ _ He Hie Hoe Hs) as [Hoe0 _]. by eapply Hf.
Qed.

Lemma step_others fc c w cw : step_ok fc (λ _, True) c w cw → others_kept c w cw.2.
Proof.
  intros [[Hb _] Hf _ Hj _]. destruct Hb as [_ _ ? ? ? _]. split; try done; [by destruct Hf|].
  intros j jb H1 H2. by apply Hj.
Qed.

(** A step of [c] does not acquire a descriptor that was open and not its own. *)
Lemma step_foreign fc c w cw fd :
  obs_wf (obs (kern w)) → step_ok fc (λ _, True) c w cw → is_Some (fdt (obs (kern w)) !! fd) →
  ¬ owned c (jobs (res w)) fd → ¬ owned cw.1 (jobs (res cw.2)) fd.
Proof.
  intros Hw Hs [g Hg] Hn Ho. assert (fdt (obs (kern cw.2)) !! fd = Some g) as Hg'.
  { by eapply (fr_fd _ _ _ (ok_frame _ _ _ (step_others _ _ _ _ Hs))). }
  destruct (so_owned _ _ _ _ _ Hs fd g Ho Hg') as [?|Hnew]; [done|]. apply (ow_files _ Hw) in Hg. lia.
Qed.

(** After a step of [c], it still shares nothing with [d]. *)
Lemma step_apart fc fcd c d w cw :
  inv fc c w → step_ok fc (λ _, True) c w cw → inv fcd d w → apart c d w → apart cw.1 d cw.2.
Proof.
  intros Hc Hs Hd Hap. pose proof (others_env _ _ _ _ _ (step_others _ _ _ _ Hs) Hd Hap) as He. split.
  - intros fd Hfd Ho Hod. destruct (env_owned _ _ _ _ _ He Hd Hod Hfd) as [Hod0 Hs0].
    eapply (step_foreign fc c w cw fd); try done; [by apply Hc|]. intros Hoc. by eapply (proj1 Hap).
  - intros j Hj Hdj. destruct (job_present _ _ _ _ Hd Hdj) as [jb Hjb].
    destruct (so_jobs _ _ _ _ _ Hs j jb Hjb) as [_ Hn]; [by intros ?%(proj2 Hap)|done].
Qed.

(** Registrations are not part of the connection invariant. *)
Lemma conn_inv_regs fc c w k :
  inv fc c w → obs_wf (obs k) → fdt (obs k) = fdt (obs (kern w)) → nfiles (obs k) = nfiles (obs (kern w)) →
  sent (obs k) = sent (obs (kern w)) → rcvd (obs k) = rcvd (obs (kern w)) → inv fc c (set_kern k w).
Proof.
  intros [[Hw Hfc Hfr Hd Hc Ha] Hp] Hwk Ht Hn Hs Hr.
  assert (∀ key v, exchanged (obs (kern w)) key v ↔ exchanged (obs k) key v) as Hx.
  { intros key v. unfold exchanged. by rewrite Ht, Hn, Hs, Hr. }
  assert (∀ v, local_answer (obs (kern w)) c v → local_answer (obs k) c v) as Hla.
  { intros v [| | | |v' ? ? ?]; constructor; try done. by apply Hx. }
  split; [split; simpl; try done|].
  - by rewrite Hn.
  - intros rc Hrc. destruct (Hc rc Hrc) as [? Hv]. split; [done|]. intros key v Hkv. rewrite <-Hx. by apply Hv.
  - by intros x _; left.
  - unfold phase, served, complete, owns in *. simpl. rewrite Ht, Hn, Hs, Hr.
    destruct (state_ c); try exact Hp.
    + destruct Hp as (? & [? ?] & ? & ? & ? & ? & ? & ? & ?). split_and!; try done; try lia. by apply Hla.
    + destruct Hp as (? & ? & ? & ? & ? & ? & Hs' & ?). split_and!; try done.
      destruct Hs' as [?|[(v & ? & ?)|?]]; [by left|right; left; exists v; auto|by right; right].
Qed.

(** Destroying a connection closes what it owns and nothing else. *)
Lemma destroy_ok fc c w :
  inv fc c w → frame (owned c (jobs (res w))) (obs (kern w)) (obs (kern (Connection_destroy c w))) ∧
  others_kept c w (Connection_destroy c w).
Proof.
  intros Hi. pose proof (ci_base _ _ _ _ Hi) as Hb.
  assert (∃ w1, resolve_job_reset c w = (set_resolve_job None c, w1) ∧ mid c w (set_resolve_job None c) w1 ∧
    base fc (λ _, True) (set_resolve_job None c) w1) as (w1 & Hr & Hm & Hb1).
  { destruct (resolve_job_ c) as [j|] eqn:Hj.
    - destruct (job_present _ _ _ _ Hi Hj) as [jb Hjb].
      destruct (job_reset_spec _ _ _ _ _ _ Hb Hj Hjb) as (w1 & ? & ? & ? & _). eauto.
    - exists w. unfold resolve_job_reset. rewrite Hj. simpl. split; [by destruct w|].
      split; [by apply mid_fields; [apply Hb|..]|by apply (base_fields _ _ c)]. }
  unfold Connection_destroy. rewrite Hr.
  destruct (upstream_reset_spec (-1) (set_resolve_job None c) w1) as (k2 & -> & Hk2).
  destruct (client_reset_spec (set_upstream (-1) (set_resolve_job None c)) (set_kern k2 w1)) as (k3 & -> & Hk3).
  simpl in *. rewrite Hk2 in Hk3. pose proof (ci_wf _ _ _ _ Hb1) as Hw1.
  pose proof (obs_reset_frame (upstream_ c) _ Hw1) as Hf2.
  pose proof (obs_reset_frame (client_ c) _ (obs_reset_wf (upstream_ c) _ Hw1)) as Hf3. rewrite <-Hk3 in Hf3.
  assert (frame (owned c (jobs (res w))) (obs (kern w)) (obs k3)) as Hf.
  { eapply frame_trans; [apply Hb|eapply frame_trans; [apply Hb|apply Hm|exact Hf2|]|exact Hf3|].
    - intros x f -> Hx. left. apply owned_upstream.
    - intros x f -> Hx. left. apply owned_client. }
  split; [done|]. destruct Hb1 as [_ _ ? ? Hc _]. split; simpl; try done; [by destruct Hf|..].
  - intros j jb H1 H2. by apply (md_jobs _ _ _ _ Hm).
  - eapply cache_ok_frame; [exact Hf3|]. by eapply cache_ok_frame.
Qed.

(** ** All of them *)

Record world_ok w : Prop := {
  wo_wf : obs_wf (obs (kern w));
  wo_fresh : jobs_fresh (res w);
  wo_dns : cache_filled (res w);
  wo_cache : cache_ok (rcache w) (obs (kern w))
}.

(** The slot describes the connection and its registration is in place. *)
Record slot_ok (kq : Z) (p : nat) (s : Slot) w : Prop := {
  sk_conn : ∃ fc, inv fc (sl_conn s) w;
  sk_live : done_ (sl_conn s) = false;
  sk_fd : sl_fd s = want_fd (sl_conn s) w;
  sk_write : sl_write s = want_write (sl_conn s);
  sk_epoch : sl_epoch s = epoch (sl_conn s);
  sk_reg : regs (obs (kern w)) !! (kq, sl_fd s, sl_write s) = Some (UConn p)
}.

(** Descriptor [fd] is a client socket nobody has touched yet. *)
Definition untouched (fd : Z) w : Prop :=
  ∃ fc, owns (obs (kern w)) fd fc ∧ sent (obs (kern w)) fc = [] ∧ rcvd (obs (kern w)) fc = [] ∧
    ∀ kq d, regs (obs (kern w)) !! (kq, fd, d) = None.

(** The slots of [m]; registrations of the addresses in [ex] are left open.
The loop itself holds the descriptors of [H]; those of [Q] among them are
clients waiting for a connection. *)
Record slots_ok (kq : Z) (ex : nat → Prop) (H Q : list Z) (m : gmap nat Slot) w : Prop := {
  ss_world : world_ok w;
  ss_slot p s : m !! p = Some s → slot_ok kq p s w;
  ss_only fd d p : ¬ ex p → regs (obs (kern w)) !! (kq, fd, d) = Some (UConn p) →
    ∃ s, m !! p = Some s ∧ fd = sl_fd s ∧ d = sl_write s;
  ss_apart p q s t : p ≠ q → m !! p = Some s → m !! q = Some t → apart (sl_conn s) (sl_conn t) w;
  ss_held fd : fd ∈ H ++ Q → is_Some (fdt (obs (kern w)) !! fd) ∧
    ∀ p s, m !! p = Some s → ¬ owned (sl_conn s) (jobs (res w)) fd;
  ss_queue fd : fd ∈ Q → untouched fd w;
  ss_nodup : NoDup (H ++ Q)
}.

(** [c] shares nothing with the slots of [m] or with the loop. *)
Record alone (L : list Z) (m : gmap nat Slot) (c : Connection) w : Prop := {
  al_conn q t : m !! q = Some t → apart c (sl_conn t) w;
  al_held fd : fd ∈ L → ¬ owned c (jobs (res w)) fd
}.

(** Nothing was registered on [kq]. *)
Definition kept_on (kq : Z) (o o' : Obs) : Prop :=
  ∀ fd d u, regs o' !! (kq, fd, d) = Some u → regs o !! (kq, fd, d) = Some u.

Lemma regs_kept_on kq o o' : regs_kept o o' → kept_on kq o o'.
Proof. intros H fd d u Hu. by destruct (H _ _ _ _ Hu). Qed.

(** The rest of the program acts. *)
Lemma slots_env kq ex H Q m w w' :
  slots_ok kq ex H Q m w → world_ok w' → kept_on kq (obs (kern w)) (obs (kern w')) →
  (∀ p s, m !! p = Some s → env (sl_conn s) w w') →
  (∀ fd, fd ∈ H ++ Q → is_Some (fdt (obs (kern w')) !! fd)) → (∀ fd, fd ∈ Q → untouched fd w') →
  slots_ok kq ex H Q m w'.
Proof.
  intros [_ Hslot Honly Hap Hh Hq Hnd] Hw Hkept He Hh' Hq'. split; try done.
  - intros q t Ht. destruct (Hslot q t Ht) as [[fc Hi] Hd Hfd Hwr Hep Hreg]. pose proof (He q t Ht) as Hen.
    destruct (want_open _ _ _ _ Hi Hd) as (_ & Hopen & _). split; try done.
    + exists fc. by eapply env_inv.
    + by rewrite (env_want_fd fc _ w w').
    + rewrite (fr_regs _ _ _ (ev_frame _ _ _ Hen)); [done|by rewrite Hfd|]. rewrite Hfd. intros Ho. apply Ho.
      clear -Hi Hd. apply bool_decide_eq_false in Hd. destruct Hi as [_ Hp]. unfold phase in Hp. unfold want_fd, reserved.
      destruct (state_ (sl_conn t)); try done.
      * destruct Hp as (-> & _). by left.
      * destruct Hp as (-> & _ & _ & _ & _ & _ & _ & _ & _ & j & jb & fr & -> & Hjb & _). rewrite Hjb. eauto 10.
      * destruct Hp as (-> & _). by right; left.
      * destruct Hp as (-> & _). by right; left.
      * destruct Hp as (_ & _ & _ & _ & _ & [(-> & _)|(-> & _)] & _); [by right; left|by left].
      * destruct Hp as (-> & _). by left.
  - intros fd d q Hnq Hu%Hkept. by apply Honly.
  - intros q r s t Hne Hs Ht. destruct (sk_conn _ _ _ _ (Hslot q s Hs)) as [f1 ?], (sk_conn _ _ _ _ (Hslot r t Ht)) as [f2 ?].
    eapply (env_apart f1 f2 _ _ w); eauto.
  - intros fd Hin. split; [by apply Hh'|]. intros q t Ht Ho. destruct (sk_conn _ _ _ _ (Hslot q t Ht)) as [f1 Hi].
    destruct (env_owned _ _ _ _ _ (He q t Ht) Hi Ho (Hh' fd Hin)) as [Ho0 _]. by eapply (proj2 (Hh fd Hin)).
Qed.

(** Client sockets stay untouched when others act. *)
Lemma untouched_frame D w w' fd :
  wframe D (obs (kern w)) (obs (kern w')) → obs_wf (obs (kern w)) → ¬ D fd → untouched fd w → untouched fd w'.
Proof.
  intros Hf Hw Hn (fc & Ho & Hs & Hr & Hg). destruct (frame_other _ _ _ fd fc Hw Hf Ho Hn) as (Ho' & Hs' & Hr').
  exists fc. rewrite Hs', Hr'. split_and!; try done. intros kq d. rewrite (fr_regs _ _ _ Hf); [done| |done]. destruct Ho; eauto.
Qed.

(** A connection that shares nothing with the others acts. *)
Lemma slots_step kq ex H Q m c w w' :
  slots_ok kq ex H Q m w → others_kept c w w' → regs_kept (obs (kern w)) (obs (kern w')) →
  alone (H ++ Q) m c w → slots_ok kq ex H Q m w'.
Proof.
  intros Hss Hk Hkept [Hc Hh]. pose proof (wo_wf _ (ss_world _ _ _ _ _ _ Hss)) as Hw.
  eapply slots_env; try done; [..|by apply regs_kept_on|idtac|idtac|idtac].
  - destruct Hk as [Hf _ ? ? ?]. split; try done. by eapply fr_wf.
  - intros q t Ht. destruct (sk_conn _ _ _ _ (ss_slot _ _ _ _ _ _ Hss q t Ht)) as [fc Hi]. eapply others_env; eauto.
  - intros fd Hin. destruct (ss_held _ _ _ _ _ _ Hss fd Hin) as [[f Hf] _]. exists f.
    eapply (fr_fd _ _ _ (ok_frame _ _ _ Hk)); eauto.
  - intros fd Hin. eapply untouched_frame; [apply Hk|done| |by apply Hss]. apply Hh, elem_of_app. by right.
Qed.

(** Something happened on descriptors of nobody. *)
Lemma slots_frame kq ex H Q m w k D :
  slots_ok kq ex H Q m w → frame D (obs (kern w)) (obs k) →
  (∀ fd, is_Some (fdt (obs (kern w)) !! fd) → D fd → ∀ p s, m !! p = Some s → ¬ owned (sl_conn s) (jobs (res w)) fd) →
  (∀ fd, fd ∈ Q → ¬ D fd) → (∀ fd, fd ∈ H → is_Some (fdt (obs k) !! fd)) → slots_ok kq ex H Q m (set_kern k w).
Proof.
  intros Hss Hf Hn Hq Hh. pose proof (wo_wf _ (ss_world _ _ _ _ _ _ Hss)) as Hw. eapply slots_env; [done|..].
  - destruct Hss as [[? ? ? Hc]]. split; simpl; try done; [by eapply frame_wf|by eapply cache_ok_frame].
  - apply regs_kept_on. by destruct Hf.
  - intros q t Ht. destruct (sk_conn _ _ _ _ (ss_slot _ _ _ _ _ _ Hss q t Ht)) as [fc Hi].
    apply (frame_env fc _ _ _ D); try done. intros fd Hs HD. by eapply Hn.
  - intros fd [?|Hin]%elem_of_app; [by apply Hh|]. destruct (ss_held _ _ _ _ _ _ Hss fd) as [[f Hfd] _]; [set_solver|].
    exists f. apply (fr_fd _ _ _ Hf); auto.
  - intros fd Hin. eapply untouched_frame; [apply Hf|done|by apply Hq|by apply Hss].
Qed.

Lemma slots_silent kq ex H Q m w k : slots_ok kq ex H Q m w → obs k = obs (kern w) → slots_ok kq ex H Q m (set_kern k w).
Proof.
  intros Hss Ho. apply (slots_frame _ _ _ _ _ _ _ (λ _, False)); try done; rewrite ?Ho; try done.
  - apply frame_refl, Hss.
  - auto.
  - intros fd Hin. apply (ss_held _ _ _ _ _ _ Hss). set_solver.
Qed.

(** Only a registration on a descriptor of none of them changes. *)
Lemma slots_regs kq (ex : nat → Prop) H Q m w k fd d :
  slots_ok kq ex H Q m w → obs_wf (obs k) → fdt (obs k) = fdt (obs (kern w)) → nfiles (obs k) = nfiles (obs (kern w)) →
  sent (obs k) = sent (obs (kern w)) → rcvd (obs k) = rcvd (obs (kern w)) →
  (∀ kq' fd' d', (kq', fd', d') ≠ (kq, fd, d) → regs (obs k) !! (kq', fd', d') = regs (obs (kern w)) !! (kq', fd', d')) →
  (∀ u, regs (obs k) !! (kq, fd, d) = Some u → ∀ p, u = UConn p → ex p) →
  (∀ q t, m !! q = Some t → sl_fd t ≠ fd) → fd ∉ Q → slots_ok kq ex H Q m (set_kern k w).
Proof.
  intros [[Hw ? ? Hc] Hslot Honly Hap Hh Hq Hnd] Hwk Ht Hn Hs Hr Hregs Hex Hfd Hnq. split; try done.
  - split; simpl; try done. intros rc Hrc. destruct (Hc rc Hrc) as [? Hv]. split; [done|]. intros key v Hkv.
    destruct (Hv key v Hkv) as [? Hx]. split; [done|]. unfold exchanged in *. by rewrite Ht, Hn, Hs, Hr.
  - intros q t Hqt. destruct (Hslot q t Hqt) as [[fc Hi] Hd Hsf Hwr He Hreg]. split; try done.
    + exists fc. by apply conn_inv_regs.
    + simpl. rewrite Hregs; [done|]. intros [= Hx _]. by apply (Hfd q t).
  - intros fd' d' q Hnx Hu. simpl in Hu. destruct (decide ((kq, fd', d') = (kq, fd, d))) as [Heq|Hne].
    + rewrite Heq in Hu. by destruct (Hnx (Hex _ Hu q eq_refl)).
    + rewrite Hregs in Hu by done. by apply Honly.
  - intros q r s t Hne Hs1 Ht1. destruct (Hap q r s t Hne Hs1 Ht1) as [Hf Hj]. split; [|done].
    intros x. simpl. rewrite Ht. apply Hf.
  - simpl. by rewrite Ht.
  - intros fd' Hin. destruct (Hq fd' Hin) as (fc & Ho & ? & ? & Hg). exists fc. unfold owns in *. simpl. rewrite Ht, Hs, Hr.
    split_and!; try done. 1-2: by destruct Ho. intros kq' d'. rewrite Hregs; [done|]. by intros [= _ -> _].
Qed.

Lemma alone_regs L m c w k : fdt (obs k) = fdt (obs (kern w)) → alone L m c w → alone L m c (set_kern k w).
Proof.
  intros Ht [Hc Hh]. split; [|done]. intros q t Hq. destruct (Hc q t Hq) as [Hf Hj]. split; [|done].
  intros x. simpl. rewrite Ht. apply Hf.
Qed.

(** ** Registering *)

(** No registration on [kq] carries address [p]. *)
Definition unregistered (kq : Z) (p : nat) (o : Obs) : Prop :=
  ∀ fd d, regs o !! (kq, fd, d) ≠ Some (UConn p).

Lemma slots_close kq p H Q m w :
  slots_ok kq (λ q, q = p) H Q m w → unregistered kq p (obs (kern w)) → slots_ok kq (λ _, False) H Q m w.
Proof.
  intros [? ? Honly ? ? ? ?] Hu. split; try done. intros fd d q _ Hq.
  destruct (decide (q = p)) as [->|Hne]; [by destruct (Hu fd d)|by apply Honly].
Qed.

Lemma slots_weaken kq (ex ex' : nat → Prop) H Q m w :
  slots_ok kq ex H Q m w → (∀ p, ex p → ex' p) → slots_ok kq ex' H Q m w.
Proof. intros [? ? Honly ? ? ? ?] Hx. split; try done. intros fd d q Hn Hq. apply Honly; [|done]. by intros ?%Hx. Qed.

Lemma slots_insert kq p s H Q m w :
  slots_ok kq (λ q, q = p) H Q m w → m !! p = None → slot_ok kq p s w →
  (∀ fd d, regs (obs (kern w)) !! (kq, fd, d) = Some (UConn p) → fd = sl_fd s ∧ d = sl_write s) →
  alone (H ++ Q) m (sl_conn s) w → slots_ok kq (λ _, False) H Q (<[p := s]> m) w.
Proof.
  intros [? Hslot Honly Hap Hh ? ?] Hp Hs Hreg [Hsap Hsh]. split; try done.
  - intros q t [[<- <-]|[_ ?]]%lookup_insert_Some; auto.
  - intros fd d q _ Hu. destruct (decide (q = p)) as [->|Hne].
    + destruct (Hreg fd d Hu). exists s. by rewrite lookup_insert_eq.
    + rewrite lookup_insert_ne by done. by apply Honly.
  - intros q r a b Hne [[<- <-]|[_ Ha]]%lookup_insert_Some [[<- <-]|[_ Hb]]%lookup_insert_Some; try done; eauto.
    apply apart_sym. eauto.
  - intros fd Hin. destruct (Hh fd Hin) as [? Ho]. split; [done|].
    intros q t [[<- <-]|[_ Ha]]%lookup_insert_Some; [by apply Hsh|by eapply Ho].
Qed.

Lemma slots_take kq p s H Q m w :
  slots_ok kq (λ _, False) H Q m w → m !! p = Some s →
  slots_ok kq (λ q, q = p) H Q (delete p m) w ∧
  (∀ fd d, regs (obs (kern w)) !! (kq, fd, d) = Some (UConn p) → fd = sl_fd s ∧ d = sl_write s) ∧
  alone (H ++ Q) (delete p m) (sl_conn s) w.
Proof.
  intros [? Hslot Honly Hap Hh ? ?] Hp. split; [split; try done|split; [|split]].
  - intros q t [_ ?]%lookup_delete_Some. auto.
  - intros fd d q Hne Hu. destruct (Honly fd d q (λ x, x) Hu) as (t & ? & ?). exists t.
    by rewrite lookup_delete_ne by (by apply not_eq_sym).
  - intros q r a b Hne [_ ?]%lookup_delete_Some [_ ?]%lookup_delete_Some. eauto.
  - intros fd Hin. destruct (Hh fd Hin) as [? Ho]. split; [done|]. intros q t [_ ?]%lookup_delete_Some. by eapply Ho.
  - intros fd d Hu. destruct (Honly fd d p (λ x, x) Hu) as (t & ? & ?). by simplify_eq.
  - intros q t [? ?]%lookup_delete_Some. eauto.
  - intros fd Hin. by eapply (proj2 (Hh fd Hin)).
Qed.

(** A connection of its own does not share a wait target with the slots. *)
Lemma alone_fds kq ex H Q m c w fd :
  slots_ok kq ex H Q m w → alone (H ++ Q) m c w → owned c (jobs (res w)) fd →
  (∀ q t, m !! q = Some t → sl_fd t ≠ fd) ∧ fd ∉ Q.
Proof.
  intros Hss [Hc Hh] Ho. split; [|intros Hin; apply (Hh fd); [by apply elem_of_app; right|done]].
  intros q t Ht <-. destruct (ss_slot _ _ _ _ _ _ Hss q t Ht) as [[fc Hi] Hd Hfd _ _ _]. rewrite Hfd in Ho.
  destruct (want_open _ _ _ _ Hi Hd) as (_ & Hs & Hown). by eapply (proj1 (Hc q t Ht)).
Qed.

Lemma obs_disarm_wf kq fd d o : obs_wf o → obs_wf (obs_disarm kq fd d o).
Proof. intros [? ? ? Hr]. split; try done. simpl. intros kq' fd' d' u [_ H]%lookup_delete_Some. by eapply Hr. Qed.

Lemma obs_arm_wf kq fd d u o : obs_wf o → is_Some (fdt o !! fd) → obs_wf (obs_arm kq fd d u o).
Proof.
  intros [? ? ? Hr] Hs. split; try done. simpl.
  intros kq' fd' d' u' [[Heq _]|[_ H]]%lookup_insert_Some; [by injection Heq as _ <- _|by eapply Hr].
Qed.

Lemma disarm_slots l ex H Q m w d fd :
  slots_ok (kq_ l) ex H Q m w → (∀ q t, m !! q = Some t → sl_fd t ≠ fd) → fd ∉ Q → 0 ≤ fd →
  ∃ k, disarm l fd d w = set_kern k w ∧ obs k = obs_disarm (kq_ l) fd d (obs (kern w)) ∧
    slots_ok (kq_ l) ex H Q m (set_kern k w).
Proof.
  intros Hss Hne Hnq Hpos. unfold disarm. destruct (Z.ltb_spec fd 0); [lia|].
  destruct (sys_ev_delete _ _ _ _) as [b k] eqn:E. apply ev_delete_ok in E. exists k. split; [done|]. split; [done|].
  apply (slots_regs _ _ _ _ _ _ _ fd d); rewrite ?E; try done.
  - apply obs_disarm_wf. by destruct Hss as [[]].
  - intros kq' fd' d' Hn. simpl. by rewrite lookup_delete_ne.
  - intros u. simpl. by rewrite lookup_delete_eq.
Qed.

Lemma arm_slots l (ex : nat → Prop) H Q m w d fd u ok w' :
  slots_ok (kq_ l) ex H Q m w → (∀ q t, m !! q = Some t → sl_fd t ≠ fd) → fd ∉ Q →
  (∀ p, u = UConn p → ex p) → arm l fd d u w = (ok, w') →
  ∃ k, w' = set_kern k w ∧ slots_ok (kq_ l) ex H Q m (set_kern k w) ∧ fdt (obs k) = fdt (obs (kern w)) ∧
    (if ok then obs k = obs_arm (kq_ l) fd d u (obs (kern w)) ∧ is_Some (fdt (obs (kern w)) !! fd)
     else obs k = obs (kern w)).
Proof.
  intros Hss Hne Hnq Hu. unfold arm. destruct (sys_ev_add _ _ _ _ _) as [b k] eqn:E. intros [= <- <-].
  pose proof (wo_wf _ (ss_world _ _ _ _ _ _ Hss)) as Hw. exists k. split; [done|]. destruct b.
  - apply ev_add_ok in E as [Hs Ho]. split_and!; try done; [|by rewrite Ho].
    apply (slots_regs _ _ _ _ _ _ _ fd d); rewrite ?Ho; try done.
    + by apply obs_arm_wf.
    + intros kq' fd' d' Hn. simpl. by rewrite lookup_insert_ne.
    + intros u'. simpl. rewrite lookup_insert_eq. by intros [= <-].
  - apply ev_add_fail in E as Ho. unfold silent in Ho. split_and!; try done; [|by rewrite Ho].
    by apply slots_silent.
Qed.

(** ** Serving one event *)

Lemma destroy_slots kq p H Q m fc c w :
  slots_ok kq (λ q, q = p) H Q m w → inv fc c w → alone (H ++ Q) m c w →
  unregistered kq p (obs (kern w)) → slots_ok kq (λ _, False) H Q m (Connection_destroy c w).
Proof.
  intros Hss Hi Hap Hu. destruct (destroy_ok _ _ _ Hi) as [[_ Hk] Hok].
  apply (slots_close _ p); [by eapply slots_step|]. intros fd d Hr. destruct (Hk _ _ _ _ Hr) as [Hr' _]. by apply (Hu fd d).
Qed.

(** Entering a connection under address [p]: it is registered and in the map,
or it could not be registered and is gone. *)
Lemma enter_slot l p H Q m fc c w fd d :
  slots_ok (kq_ l) (λ q, q = p) H Q m w → m !! p = None → inv fc c w → done_ c = false → alone (H ++ Q) m c w →
  unregistered (kq_ l) p (obs (kern w)) → fd = want_fd c w → d = want_write c →
  let '(ok, w') := arm l fd d (UConn p) w in
  if ok then slots_ok (kq_ l) (λ _, False) H Q (<[p := mkSlot c fd d (epoch c)]> m) w'
  else slots_ok (kq_ l) (λ _, False) H Q m (Connection_destroy c w').
Proof.
  intros Hss Hm Hi Hd Hap Hun Hfd Hdir. destruct (want_open _ _ _ _ Hi Hd) as (_ & Hopen & Hown).
  destruct (alone_fds _ _ _ _ _ _ _ _ Hss Hap Hown) as [Hne Hnq]. rewrite <-Hfd in *.
  destruct (arm _ _ _ _ _) as [ok w'] eqn:E.
  destruct (arm_slots l _ H Q m w d fd (UConn p) ok w' Hss Hne Hnq) as (k & -> & Hss' & Ht & Ho);
    [by intros q [= ->]|done|].
  assert (obs_wf (obs k)) as Hwk by apply Hss'.
  assert (inv fc c (set_kern k w)) as Hi'.
  { destruct ok; [destruct Ho as [Ho _]|]; apply conn_inv_regs; first [done|by rewrite Ho]. }
  apply (alone_regs _ _ _ _ k Ht) in Hap. destruct ok.
  - destruct Ho as [Ho _]. apply slots_insert; try done.
    + split; simpl; try done; [by exists fc|]. rewrite Ho. simpl. by rewrite lookup_insert_eq.
    + simpl. rewrite Ho. simpl. intros x b [[Heq _]|[_ Hu]]%lookup_insert_Some; [by simplify_eq|by destruct (Hun x b)].
  - eapply destroy_slots; try done. simpl. by rewrite Ho.
Qed.

(** The invariant: [own] lists the descriptors of the loop itself, and what is in
the inbox is waiting to be adopted. *)
Definition inbox_fds (l : EventLoop) : list Z := match inbox_ l with Some ib => ib_queue ib | None => [] end.

Context (cfg : Config).

Lemma service_slots own Q p l w :
  slots_ok (kq_ l) (λ _, False) own Q (live_ l) w →
  let '(l', w') := service cfg p l w in
  slots_ok (kq_ l) (λ _, False) own Q (live_ l') w' ∧ kq_ l' = kq_ l ∧ inbox_ l' = inbox_ l.
Proof.
  intros Hl. unfold service.
  destruct (live_ l !! p) as [s|] eqn:Hp; [|done].
  destruct (ss_slot _ _ _ _ _ _ Hl p s Hp) as [[fc Hi] Hd Hfd Hwr Hep Hreg].
  destruct (slots_take _ _ _ _ _ _ _ Hl Hp) as (Hss & Honly & Hap).
  destruct (want_open _ _ _ _ Hi Hd) as (Hpos & _ & Hown). rewrite <-Hfd in *.
  destruct (alone_fds _ _ _ _ _ _ _ _ Hss Hap Hown) as [Hne Hnq].
  pose proof (on_ready_ok cfg fc _ _ _ Hi) as Hstep. destruct (on_ready cfg (sl_conn s) w) as [c' w1] eqn:E.
  pose proof (step_others _ _ _ _ Hstep) as Hk. pose proof (so_inv _ _ _ _ _ Hstep) as Hi'.
  pose proof (fr_kept _ _ _ (so_frame _ _ _ _ _ Hstep)) as Hkept. simpl in Hk, Hi', Hkept.
  assert (slots_ok (kq_ l) (λ q, q = p) own Q (delete p (live_ l)) w1) as Hss1 by by eapply slots_step.
  assert (alone (own ++ Q) (delete p (live_ l)) c' w1) as Hap1.
  { destruct Hap as [Hc Hh]. split.
    - intros q t Hq. destruct (ss_slot _ _ _ _ _ _ Hss q t Hq) as [[fcq Hq'] _ _ _ _ _].
      apply (step_apart fc fcq _ _ _ _ Hi Hstep Hq'). by eapply Hc.
    - intros fd Hin. apply (step_foreign fc _ _ _ _ (ci_wf _ _ _ _ (ci_base _ _ _ _ Hi)) Hstep); [|by apply Hh].
      by apply (ss_held _ _ _ _ _ _ Hss). }
  assert (∀ fd d, regs (obs (kern w1)) !! (kq_ l, fd, d) = Some (UConn p) → fd = sl_fd s ∧ d = sl_write s) as Honly1.
  { intros fd d Hu. destruct (Hkept _ _ _ _ Hu) as [Hu' _]. by apply Honly. }
  destruct (disarm_slots l _ _ _ _ w1 (sl_write s) (sl_fd s) Hss1 Hne Hnq Hpos) as (k2 & Hdis & Hk2 & Hss2).
  rewrite Hdis. assert (inv fc c' (set_kern k2 w1)) as Hi2.
  { apply conn_inv_regs; rewrite ?Hk2; try done. apply obs_disarm_wf, Hss1. }
  assert (unregistered (kq_ l) p (obs k2)) as Hun.
  { intros fd d. rewrite Hk2. simpl. intros [Hn Hu]%lookup_delete_Some. apply Honly1 in Hu as [-> ->]. done. }
  assert (alone (own ++ Q) (delete p (live_ l)) c' (set_kern k2 w1)) as Hap2 by (apply alone_regs; [by rewrite Hk2|done]).
  assert (slots_ok (kq_ l) (λ _, False) own Q (delete p (live_ l)) (Connection_destroy c' (set_kern k2 w1))) as Hdest.
  { by eapply destroy_slots. }
  destruct (done_ c') eqn:Hd'; [done|]. destruct (Z.ltb_spec (want_fd c' w1) 0) as [Hneg|_]; [done|].
  destruct (Z.eqb_spec (epoch c') (sl_epoch s)) as [Heq|Hneq]; simpl.
  - destruct (so_epoch _ _ _ _ _ Hstep) as [Hb|[_ Hsw]].
    { rewrite Hep in Heq. unfold epoch in Heq. simpl in Hb. rewrite Hb in Heq. by apply epoch_bump in Heq. }
    split; [|done]. rewrite <-insert_delete_eq. apply slots_insert; try done; [by rewrite lookup_delete_eq|].
    destruct Hsw as (Hwt & Hcl & Hup & Hj & Ht & Hr & Hjs). simpl in *. split; simpl; try done; [by exists fc|..].
    + rewrite Hfd. unfold want_fd. by rewrite Hwt, Hcl, Hup, Hj, Hjs.
    + rewrite Hwr. unfold want_write. by rewrite Hwt.
    + by rewrite Hr.
  - pose proof (enter_slot l p own Q (delete p (live_ l)) fc c' (set_kern k2 w1) (want_fd c' w1) (want_write c')
      Hss2 (lookup_delete_eq _ _) Hi2 Hd' Hap2 Hun eq_refl eq_refl) as Hen.
    destruct (arm _ _ _ _ _) as [ok w']. destruct ok; [|done]. simpl. by rewrite <-insert_delete_eq.
Qed.

(** ** New connections *)

Lemma slots_drop kq ex H fd Q m w : slots_ok kq ex H (fd :: Q) m w → slots_ok kq ex H Q m w.
Proof.
  intros [? ? ? ? Hh Hq Hnd]. split; try done.
  - intros x Hin. apply Hh. set_solver.
  - intros x Hin. apply Hq. set_solver.
  - apply NoDup_app in Hnd as (? & ? & [_ ?]%NoDup_cons). apply NoDup_app. split; [done|]. split; [set_solver|done].
Qed.

(** A socket just accepted. *)
Lemma slots_opened kq ex H Q m w k fd :
  slots_ok kq ex H Q m w → opened fd (kern w) k → slots_ok kq ex H (fd :: Q) m (set_kern k w).
Proof.
  intros Hss (Hpos & Hnone & Ho). pose proof (wo_wf _ (ss_world _ _ _ _ _ _ Hss)) as Hw.
  pose proof (frame_open fd _ Hw Hpos Hnone) as Hf. rewrite <-Ho in Hf.
  assert (slots_ok kq ex H Q m (set_kern k w)) as Hss'.
  { apply (slots_frame _ _ _ _ _ _ _ (λ _, False)); try done; [auto|]. intros x Hin.
    destruct (ss_held _ _ _ _ _ _ Hss x) as [[f Hx] _]; [set_solver|]. exists f. apply (fr_fd _ _ _ Hf); auto. }
  assert (fd ∉ H ++ Q) as Hnin.
  { intros Hin. destruct (ss_held _ _ _ _ _ _ Hss fd Hin) as [[f Hx] _]. by rewrite Hnone in Hx. }
  destruct Hss' as [? Hslot ? ? Hh Hq Hnd]. split; try done.
  - intros x Hin. apply elem_of_app in Hin as [?|[->|?]%elem_of_cons]; [apply Hh; set_solver| |apply Hh; set_solver].
    split; [simpl; rewrite Ho; simpl; by rewrite lookup_insert_eq|]. intros p s Hp Hown.
    destruct (sk_conn _ _ _ _ (ss_slot _ _ _ _ _ _ Hss p s Hp)) as [fc Hi].
    destruct (owned_open _ _ _ _ _ Hi Hown Hpos) as [f Hx]. by rewrite Hnone in Hx.
  - intros x [->|?]%elem_of_cons; [|by apply Hq]. exists (nfiles (obs (kern w))). simpl. rewrite Ho. simpl.
    unfold owns. simpl. rewrite lookup_insert_eq, !fn_lookup_insert. split_and!; try done.
    intros kq' d. apply eq_None_not_Some. intros [u Hu]. apply (ow_regs _ Hw) in Hu as [f Hx]. by rewrite Hnone in Hx.
  - apply NoDup_app in Hnd as (? & ? & ?). apply NoDup_app. split_and!; try done; [set_solver|].
    apply NoDup_cons. set_solver.
Qed.

(** ** Accounting for descriptors *)

(** Descriptor [fd] is a socket of a connection of [m]. *)
Definition socket_in (m : gmap nat Slot) (fd : Z) : Prop :=
  ∃ p s, m !! p = Some s ∧ (fd = client_ (sl_conn s) ∨ fd = upstream_ (sl_conn s)).

(** Every open descriptor is one of [B], a socket of a live connection, or the end
of the pipe of a lookup somebody still refers to. *)
Definition all_accounted (B : Z → Prop) (m : gmap nat Slot) w : Prop :=
  ∀ fd, is_Some (fdt (obs (kern w)) !! fd) → B fd ∨ socket_in m fd ∨ job_fd (jobs (res w)) fd.

Lemma inv_with fc (B : Z → Prop) c w : inv fc c w → accounted B c (obs (kern w)) (jobs (res w)) → conn_inv fc B c w.
Proof. intros [[] ?] Ha. by split. Qed.

Lemma inv_any fc B c w : conn_inv fc B c w → inv fc c w.
Proof. intros [[] ?]. split; [|done]. split; try done. by intros x _; left. Qed.

Lemma acc_take B m p s w :
  all_accounted B m w → m !! p = Some s →
  accounted (λ fd, B fd ∨ socket_in (delete p m) fd) (sl_conn s) (obs (kern w)) (jobs (res w)).
Proof.
  intros Ha Hp fd Hs. destruct (Ha fd Hs) as [?|[(q & t & Hq & Hfd)|?]]; [auto| |auto].
  destruct (decide (p = q)) as [<-|Hne]; [simplify_eq; destruct Hfd; auto|].
  left; right. exists q, t. by rewrite lookup_delete_ne.
Qed.

Lemma acc_put B m p s w :
  accounted (λ fd, B fd ∨ socket_in (delete p m) fd) (sl_conn s) (obs (kern w)) (jobs (res w)) →
  all_accounted B (<[p := s]> m) w.
Proof.
  intros Ha fd Hs. assert (∀ x, x = client_ (sl_conn s) ∨ x = upstream_ (sl_conn s) → socket_in (<[p := s]> m) x) as Hx.
  { intros x Hx. exists p, s. by rewrite lookup_insert_eq. }
  destruct (Ha fd Hs) as [[?|(q & t & [Hne Hq]%lookup_delete_Some & Hfd)]|[?|[?|?]]]; auto.
  right; left. exists q, t. by rewrite lookup_insert_ne.
Qed.

Lemma acc_same B m w k : all_accounted B m w → fdt (obs k) = fdt (obs (kern w)) → all_accounted B m (set_kern k w).
Proof. intros Ha Ht fd. simpl. rewrite Ht. apply Ha. Qed.

Lemma destroy_acc fc B c w fd :
  conn_inv fc B c w → is_Some (fdt (obs (kern (Connection_destroy c w))) !! fd) →
  B fd ∨ job_fd (jobs (res (Connection_destroy c w))) fd.
Proof.
  intros Hi. pose proof (ci_base _ _ _ _ Hi) as Hb.
  assert (∃ w1, resolve_job_reset c w = (set_resolve_job None c, w1) ∧ base fc B (set_resolve_job None c) w1)
    as (w1 & Hr & Hb1).
  { destruct (resolve_job_ c) as [j|] eqn:Hj.
    - destruct (job_present fc c w j) as [jb Hjb]; [by eapply inv_any|done|].
      destruct (job_reset_spec _ _ _ _ _ _ Hb Hj Hjb) as (w1 & ? & ? & ? & _). eauto.
    - exists w. unfold resolve_job_reset. rewrite Hj. simpl. split; [by destruct w|by apply (base_fields _ _ c)]. }
  unfold Connection_destroy. rewrite Hr.
  destruct (upstream_reset_spec (-1) (set_resolve_job None c) w1) as (k2 & -> & Hk2).
  destruct (client_reset_spec (set_upstream (-1) (set_resolve_job None c)) (set_kern k2 w1)) as (k3 & -> & Hk3).
  simpl in *. rewrite Hk3, Hk2. pose proof (ci_wf _ _ _ _ Hb1) as Hw1. intros [f Hf].
  apply obs_reset_lookup in Hf as [Hf Hnc]; [|by apply obs_reset_wf].
  apply obs_reset_lookup in Hf as [Hf Hnu]; [|done].
  destruct (ci_accounted _ _ _ _ Hb1 fd) as [?|[?|[?|?]]]; [by eexists|auto|done|done|auto].
Qed.

(** Only registrations changed. *)
Record regs_only w w' : Prop := {
  ro_kern : ∃ k, w' = set_kern k w;
  ro_wf : obs_wf (obs (kern w'));
  ro_fdt : fdt (obs (kern w')) = fdt (obs (kern w));
  ro_nfiles : nfiles (obs (kern w')) = nfiles (obs (kern w));
  ro_sent : sent (obs (kern w')) = sent (obs (kern w));
  ro_rcvd : rcvd (obs (kern w')) = rcvd (obs (kern w))
}.

Lemma disarm_regs_only l fd d w : obs_wf (obs (kern w)) → regs_only w (disarm l fd d w).
Proof.
  intros Hw. unfold disarm. destruct (fd <? 0); [split; try done; by exists (kern w); destruct w|].
  destruct (sys_ev_delete _ _ _ _) as [b k] eqn:E. apply ev_delete_ok in E.
  split; simpl; rewrite ?E; try done; [eauto|by apply obs_disarm_wf].
Qed.

Lemma arm_regs_only l fd d u w : obs_wf (obs (kern w)) → regs_only w (arm l fd d u w).2.
Proof.
  intros Hw. unfold arm. destruct (sys_ev_add _ _ _ _ _) as [b k] eqn:E. destruct b.
  - apply ev_add_ok in E as [? E]. split; simpl; rewrite ?E; try done; [eauto|by apply obs_arm_wf].
  - apply ev_add_fail in E. unfold silent in E. split; simpl; rewrite ?E; try done. eauto.
Qed.

Lemma regs_only_inv fc B c w w' : conn_inv fc B c w → regs_only w w' → conn_inv fc B c w'.
Proof.
  intros Hi [[k ->] Hw Ht Hn Hs Hr]. apply inv_with; [apply conn_inv_regs; try done; by eapply inv_any|].
  pose proof (ci_accounted _ _ _ _ (ci_base _ _ _ _ Hi)) as Ha. intros fd. simpl in *. rewrite Ht. apply Ha.
Qed.

Lemma destroy_accounted fc B p c m w :
  conn_inv fc (λ fd, B fd ∨ socket_in (delete p m) fd) c w → all_accounted B (delete p m) (Connection_destroy c w).
Proof. intros Hi fd Hs. destruct (destroy_acc _ _ _ _ _ Hi Hs) as [[?|?]|?]; auto. Qed.

Lemma put_accounted fc B p s m w :
  conn_inv fc (λ fd, B fd ∨ socket_in (delete p m) fd) (sl_conn s) w → all_accounted B (<[p := s]> m) w.
Proof. intros Hi. apply acc_put. apply Hi. Qed.

Lemma service_accounted B kq own Q p l w :
  slots_ok kq (λ _, False) own Q (live_ l) w → all_accounted B (live_ l) w →
  let '(l', w') := service cfg p l w in all_accounted B (live_ l') w'.
Proof.
  intros Hss Ha. unfold service. destruct (live_ l !! p) as [s|] eqn:Hp; [|done].
  destruct (sk_conn _ _ _ _ (ss_slot _ _ _ _ _ _ Hss p s Hp)) as [fc Hi].
  set (B' := λ fd, B fd ∨ socket_in (delete p (live_ l)) fd).
  assert (conn_inv fc B' (sl_conn s) w) as HiB by (apply inv_with; [done|by apply acc_take]).
  pose proof (so_inv _ _ _ _ _ (on_ready_ok cfg fc B' _ _ HiB)) as Hi'.
  destruct (on_ready cfg (sl_conn s) w) as [c' w1]. simpl in Hi'.
  pose proof (disarm_regs_only l (sl_fd s) (sl_write s) w1 (ci_wf _ _ _ _ (ci_base _ _ _ _ Hi'))) as Hd.
  pose proof (regs_only_inv _ _ _ _ _ Hi' Hd) as Hi2.
  destruct (done_ c'); [by eapply destroy_accounted|]. destruct (_ <? _); [by eapply destroy_accounted|].
  destruct (epoch c' =? sl_epoch s); simpl; [by eapply (put_accounted fc)|].
  pose proof (arm_regs_only l (want_fd c' w1) (want_write c') (UConn p) _ (ro_wf _ _ Hd)) as Harm.
  pose proof (regs_only_inv _ _ _ _ _ Hi2 Harm) as Hi3. destruct (arm _ _ _ _ _) as [ok w3]. simpl in Hi3.
  destruct ok; simpl; [by eapply (put_accounted fc)|by eapply destroy_accounted].
Qed.

(** ** The whole loop *)

(** The slots are in order, with [Q] waiting, and the descriptors accounted for. *)
Record good (B : Z → Prop) (own Q : list Z) (l : EventLoop) w : Prop := {
  gd_slots : slots_ok (kq_ l) (λ _, False) own Q (live_ l) w;
  gd_acc : all_accounted (λ x, (B x ∨ x ∈ own) ∨ x ∈ Q) (live_ l) w
}.

(** The invariant of the loop, its inbox included. *)
Record loop_inv (B : Z → Prop) (own : list Z) (l : EventLoop) w : Prop := {
  li_good : good B own (inbox_fds l) l w;
  li_inbox ib : inbox_ l = Some ib → ib_read_end ib ∈ own ∧ ib_write_end ib ∈ own
}.

Context (budget : nat) (B : Z → Prop) (own : list Z).

Lemma good_silent Q l w k : good B own Q l w → obs k = obs (kern w) → good B own Q l (set_kern k w).
Proof. intros [? ?] Ho. split; [by apply slots_silent|apply acc_same; [done|by rewrite Ho]]. Qed.

Lemma service_good Q p l w : good B own Q l w →
  let '(l', w') := service cfg p l w in good B own Q l' w' ∧ kq_ l' = kq_ l ∧ inbox_ l' = inbox_ l.
Proof.
  intros [Hss Ha]. pose proof (service_slots own Q p l w Hss) as Hs. pose proof (service_accounted _ _ _ _ p l w Hss Ha) as Hc.
  destruct (service cfg p l w) as [l1 w1]. destruct Hs as (? & Hkq & ?). split; [|done]. split; [by rewrite Hkq|done].
Qed.

Lemma own_frame fd Q l w k :
  good B own Q l w → fd ∈ own → frame (λ x, x = fd) (obs (kern w)) (obs k) → fdt (obs k) = fdt (obs (kern w)) →
  good B own Q l (set_kern k w).
Proof.
  intros [Hss Ha] Hin Hf Ht. split; [|by apply acc_same]. apply (slots_frame _ _ _ _ _ _ _ (λ x, x = fd)); [done|done|..].
  - intros x _ ->. apply (ss_held _ _ _ _ _ _ Hss). set_solver.
  - intros x Hx ->. pose proof (ss_nodup _ _ _ _ _ _ Hss) as (_ & Hd & _)%NoDup_app. by apply (Hd fd).
  - intros x Hx. rewrite Ht. apply (ss_held _ _ _ _ _ _ Hss). set_solver.
Qed.

Lemma drain_wakeups_good Q n fd l w : good B own Q l w → fd ∈ own → good B own Q l (drain_wakeups n fd w).
Proof.
  intros Hg Hin. revert w Hg. induction n as [|n IH]; intros w Hg; [done|]. simpl.
  destruct (sys_read fd 256 (kern w)) as [[e|bs] k] eqn:E.
  { apply read_err in E as [E _]. by apply good_silent. }
  apply read_ok in E as (f & Hf & Ho).
  assert (good B own Q l (set_kern k w)) as Hg'; [|case_bool_decide; [done|by apply IH]].
  apply (own_frame fd); try done; [|by rewrite Ho].
  apply (recv_effect_frame fd bs); [apply (gd_slots _ _ _ _ _ Hg)|by eapply recv_effect_obs].
Qed.

Lemma good_opened Q l w k fd : good B own Q l w → opened fd (kern w) k → good B own (fd :: Q) l (set_kern k w).
Proof.
  intros [Hss Ha] Ho. split; [by apply slots_opened|]. destruct Ho as (_ & _ & Ho). intros x. simpl. rewrite Ho. simpl.
  intros [f [[<- _]|[_ Hx]]%lookup_insert_Some]; [left; right; set_solver|].
  destruct (Ha x) as [[?|?]|?]; [by eexists|auto|left; right; set_solver|auto].
Qed.

(** ** New connections, in the whole loop *)

(** [new] hands out an address that is not in use. *)
Context (malloc : gset nat → nat) (Hmalloc : ∀ X, malloc X ∉ X).

Lemma adopt_slots fd Q l w :
  slots_ok (kq_ l) (λ _, False) own (fd :: Q) (live_ l) w →
  let '(l', w') := adopt malloc fd l w in
  slots_ok (kq_ l') (λ _, False) own Q (live_ l') w' ∧ kq_ l' = kq_ l ∧ inbox_ l' = inbox_ l ∧ listener_ l' = listener_ l.
Proof.
  intros Hss. unfold adopt. cbn [count_accepted live_ kq_ inbox_ next_id_]. set (raw := malloc (dom (live_ l))).
  assert (live_ l !! raw = None) as Hraw by apply not_elem_of_dom, Hmalloc.
  destruct (ss_queue _ _ _ _ _ _ Hss fd) as (fc & Hown & Hs & Hr & Hg); [set_solver|].
  destruct (ss_held _ _ _ _ _ _ Hss fd) as [Hopen Hfree]; [set_solver|].
  assert (fd ∉ own ++ Q) as Hnin.
  { pose proof (ss_nodup _ _ _ _ _ _ Hss) as (? & Hn & [? ?]%NoDup_cons)%NoDup_app. set_solver. }
  assert (fresh_client fd fc w) as Hfc by (destruct (ss_world _ _ _ _ _ _ Hss); by split).
  destruct (Connection_new_inv fd (next_id_ l) fc w Hfc) as [Hi Hf].
  unfold Connection_new in *. destruct (set_nonblocking fd (kern w)) as [b k]. simpl in Hi, Hf.
  set (c := mkConn fd _ _ _ _ _ _ _ _ _ _ _ _ _ _ _ _ _ _ _) in *.
  assert (slots_ok (kq_ l) (λ _, False) own Q (live_ l) (set_kern k w)) as Hss1.
  { apply (slots_frame _ _ _ _ _ _ _ (λ x, x = fd)); [by eapply slots_drop|done| | |].
    - by intros ? _ ->.
    - intros x Hin ->. apply Hnin. set_solver.
    - intros x Hin. destruct (ss_held _ _ _ _ _ _ Hss x) as [[f Hx] _]; [set_solver|]. exists f.
      apply (fr_fd _ _ _ Hf); [done|]. intros ->. apply Hnin. set_solver. }
  assert (∀ x, is_Some (fdt (obs k) !! x) → owned c (jobs (res w)) x → x = fd) as Hone.
  { intros x [f Hx] [?|[->|(j & jb & ? & _)]]; [done| |done].
    apply (ow_pos _ (wo_wf _ (ss_world _ _ _ _ _ _ Hss1))) in Hx. simpl in Hx. lia. }
  assert (alone (own ++ Q) (live_ l) c (set_kern k w)) as Hal.
  { split; [|intros x Hin Ho; apply Hnin; erewrite <-(Hone x); try done; by apply (ss_held _ _ _ _ _ _ Hss1)].
    intros q t Ht. split; [|done]. simpl. intros x Hx Ho. rewrite (Hone x Hx Ho). by eapply Hfree. }
  destruct (Z.ltb_spec (want_fd c (set_kern k w)) 0) as [Hneg|_]; [by destruct Hown; unfold want_fd, c in Hneg; simpl in Hneg; lia|].
  assert (unregistered (kq_ l) raw (obs k)) as Hun.
  { intros x d Hx. destruct (ss_only _ _ _ _ _ _ Hss1 x d raw (λ x, x) Hx) as (t & Ht & _). by rewrite Hraw in Ht. }
  pose proof (enter_slot (count_accepted l) raw own Q (live_ l) fc c (set_kern k w) (want_fd c (set_kern k w)) (want_write c)
    (slots_weaken _ _ _ _ _ _ _ Hss1 (λ _, False_ind _)) Hraw Hi eq_refl Hal Hun eq_refl eq_refl) as Hen.
  destruct (arm _ _ _ _ _) as [ok w']. by destruct ok.
Qed.

Lemma adopt_accounted (B' : Z → Prop) kq Q fd l w :
  slots_ok kq (λ _, False) own (fd :: Q) (live_ l) w → all_accounted (λ x, B' x ∨ x ∈ fd :: Q) (live_ l) w →
  let '(l', w') := adopt malloc fd l w in all_accounted (λ x, B' x ∨ x ∈ Q) (live_ l') w'.
Proof.
  intros Hss Ha. unfold adopt. cbn [count_accepted live_ kq_ inbox_ next_id_]. set (raw := malloc (dom (live_ l))).
  assert (live_ l !! raw = None) as Hraw by apply not_elem_of_dom, Hmalloc.
  destruct (ss_queue _ _ _ _ _ _ Hss fd) as (fc & Hown & Hs & Hr & _); [set_solver|].
  assert (fresh_client fd fc w) as Hfc by (destruct (ss_world _ _ _ _ _ _ Hss); by split).
  destruct (Connection_new_inv fd (next_id_ l) fc w Hfc) as [Hi Hf]. unfold Connection_new in *.
  destruct (set_nonblocking fd (kern w)) as [b k] eqn:E. simpl in Hi.
  assert (fdt (obs k) = fdt (obs (kern w))) as Ht.
  { by apply set_nonblocking_spec in E as [[-> _]|(_ & f & fl & _ & -> & _)]. }
  set (c := mkConn fd _ _ _ _ _ _ _ _ _ _ _ _ _ _ _ _ _ _ _) in *.
  assert (conn_inv fc (λ x, (B' x ∨ x ∈ Q) ∨ socket_in (delete raw (live_ l)) x) c (set_kern k w)) as HiB.
  { apply inv_with; [done|]. intros x. simpl. rewrite Ht. rewrite delete_id by done. intros Hx.
    destruct (Ha x Hx) as [[?|[->|?]%elem_of_cons]|[?|?]]; auto. }
  destruct (_ <? 0); [simpl; rewrite <-(delete_id (live_ l) raw) by done; by eapply destroy_accounted|].
  pose proof (arm_regs_only (count_accepted l) (want_fd c (set_kern k w)) (want_write c) (UConn raw) _
    (ci_wf _ _ _ _ (ci_base _ _ _ _ HiB))) as Harm.
  pose proof (regs_only_inv _ _ _ _ _ HiB Harm) as Hi3. destruct (arm _ _ _ _ _) as [ok w3]. simpl in Hi3.
  destruct ok; simpl; [by eapply (put_accounted fc)|].
  rewrite <-(delete_id (live_ l) raw) by done. by eapply destroy_accounted.
Qed.
Lemma adopt_good Q fd l w : good B own (fd :: Q) l w →
  let '(l', w') := adopt malloc fd l w in
  good B own Q l' w' ∧ kq_ l' = kq_ l ∧ inbox_ l' = inbox_ l ∧ listener_ l' = listener_ l.
Proof.
  intros [Hss Ha]. pose proof (adopt_slots fd Q l w Hss) as Hs. pose proof (adopt_accounted _ _ _ fd l w Hss Ha) as Hc.
  destruct (adopt malloc fd l w) as [l1 w1]. by destruct Hs as (? & ? & ? & ?).
Qed.

Lemma adopt_all_good Q fds l w : good B own (fds ++ Q) l w →
  let '(l', w') := adopt_all malloc fds l w in
  good B own Q l' w' ∧ kq_ l' = kq_ l ∧ inbox_ l' = inbox_ l ∧ listener_ l' = listener_ l.
Proof.
  revert l w; induction fds as [|fd fds IH]; intros l w Hg; simpl; [done|].
  pose proof (adopt_good (fds ++ Q) fd l w Hg) as Ha. destruct (adopt malloc fd l w) as [l1 w1].
  destruct Ha as (Hg1 & Hkq & Hib & Hli). pose proof (IH l1 w1 Hg1) as IH'.
  destruct (adopt_all malloc fds l1 w1) as [l2 w2]. by rewrite <-Hkq, <-Hib, <-Hli.
Qed.

Lemma accept_all_good Q n l w : good B own Q l w →
  let '(l', w') := accept_all malloc n l w in good B own Q l' w' ∧ kq_ l' = kq_ l ∧ inbox_ l' = inbox_ l.
Proof.
  revert l w; induction n as [|n IH]; intros l w Hg; [done|]. simpl.
  destruct (accept_one (listener_ l) (kern w)) as [[st fd] k] eqn:E. apply accept_one_spec in E.
  destruct st; simpl in E; try (split; [by apply good_silent|done]).
  - pose proof (adopt_good Q fd l (set_kern k w)) as Ha. destruct (adopt malloc fd l (set_kern k w)) as [l1 w1].
    destruct Ha as (Hg1 & Hkq & Hib & Hli); [by apply good_opened|]. pose proof (IH l1 w1 Hg1) as IH'.
    destruct (accept_all malloc n l1 w1) as [l2 w2]. by rewrite <-Hkq, <-Hib.
  - split; [|done]. apply good_silent; [done|]. unfold fd_limit_current. destruct (sys_getrlimit k) as [r k1] eqn:E1.
    apply getrlimit_silent in E1. unfold silent in *. destruct r as [[]|]; simpl; congruence.
Qed.

(** ** Every handler keeps the invariant *)

Lemma loop_inv_intro l l' w' :
  good B own (inbox_fds l) l' w' → inbox_ l' = inbox_ l →
  (∀ ib, inbox_ l = Some ib → ib_read_end ib ∈ own ∧ ib_write_end ib ∈ own) → loop_inv B own l' w'.
Proof. intros Hss Hib Hin. split; [unfold inbox_fds; by rewrite Hib|by rewrite Hib]. Qed.

Lemma handle_inv u l w : loop_inv B own l w →
  let '(l', w') := handle cfg malloc budget u l w in loop_inv B own l' w' ∧ kq_ l' = kq_ l.
Proof.
  intros [Hss Hin]. destruct u; simpl.
  - pose proof (accept_all_good _ budget l w Hss) as H. unfold do_accept.
    destruct (accept_all malloc budget l w) as [l1 w1]. destruct H as (? & ? & ?). split; [|done]. by apply (loop_inv_intro l).
  - unfold take_from_inbox. destruct (inbox_ l) as [ib|] eqn:Hib; [|split; [split; [done|by rewrite Hib]|done]]. simpl.
    pose proof (adopt_all_good [] (ib_queue ib) (set_inbox (Some (Inbox_drain ib).2) l)
      (drain_wakeups budget (ib_read_end ib) w)) as H. simpl in H. rewrite (right_id_L [] (++)) in H.
    destruct (adopt_all _ _ _ _) as [l1 w1]. destruct H as (? & ? & Hib' & _).
    + apply drain_wakeups_good; [|by apply (Hin ib)]. unfold inbox_fds in Hss. rewrite Hib in Hss. by destruct Hss.
    + split; [|done]. split; [unfold inbox_fds; by rewrite Hib'|]. rewrite Hib'. intros ib' [= <-]. simpl. by apply (Hin ib).
  - pose proof (service_good _ conn l w Hss) as H. destruct (service cfg conn l w) as [l1 w1].
    destruct H as (Hs & Hkq & Hib). split; [|done]. by apply (loop_inv_intro l).
Qed.

Lemma handle_all_inv us l w : loop_inv B own l w →
  let '(l', w') := handle_all cfg malloc budget us l w in loop_inv B own l' w' ∧ kq_ l' = kq_ l.
Proof.
  revert l w; induction us as [|u us IH]; intros l w Hl; [done|]. simpl.
  pose proof (handle_inv u l w Hl) as H. destruct (handle _ _ _ u l w) as [l1 w1]. destruct H as [Hl1 Hkq].
  pose proof (IH l1 w1 Hl1) as IH'. destruct (handle_all _ _ _ us l1 w1) as [l2 w2]. by rewrite <-Hkq.
Qed.

Lemma loop_inv_silent l w k : loop_inv B own l w → obs k = obs (kern w) → loop_inv B own l (set_kern k w).
Proof. intros [Hss Hin] Ho. split; [by apply good_silent|done]. Qed.

Lemma poll_loop_inv stops l w : loop_inv B own l w →
  let '(l', w') := poll_loop cfg malloc budget stops l w in loop_inv B own l' w' ∧ kq_ l' = kq_ l.
Proof.
  revert l w; induction stops as [|b stops IH]; intros l w Hl; [done|]. simpl. destruct b; [done|].
  destruct (sys_kevent_wait _ _ _ _) as [[e|us] k] eqn:E.
  - apply kevent_wait_err in E as [E _]. pose proof (loop_inv_silent _ _ _ Hl E). destruct e; try done. by apply IH.
  - apply kevent_wait_ok in E. pose proof (handle_all_inv us l (set_kern k w) (loop_inv_silent _ _ _ Hl E)) as H.
    destruct (handle_all _ _ _ us l _) as [l1 w1]. destruct H as [Hl1 Hkq]. pose proof (IH l1 w1 Hl1) as IH'.
    destruct (poll_loop _ _ _ stops l1 w1) as [l2 w2]. by rewrite <-Hkq.
Qed.

(** ** Shutdown *)

Lemma drain_event_inv u l w : loop_inv B own l w →
  let '(l', w') := drain_event cfg u l w in loop_inv B own l' w' ∧ kq_ l' = kq_ l.
Proof. intros Hl. destruct u; try done. by apply (handle_inv (UConn conn) l w). Qed.

Lemma drain_events_inv us l w : loop_inv B own l w →
  let '(l', w') := drain_events cfg us l w in loop_inv B own l' w' ∧ kq_ l' = kq_ l.
Proof.
  revert l w; induction us as [|u us IH]; intros l w Hl; [done|]. simpl.
  pose proof (drain_event_inv u l w Hl) as H. destruct (drain_event _ u l w) as [l1 w1]. destruct H as [Hl1 Hkq].
  pose proof (IH l1 w1 Hl1) as IH'. destruct (drain_events _ us l1 w1) as [l2 w2]. by rewrite <-Hkq.
Qed.

Lemma drain_loop_inv n waited l w : loop_inv B own l w →
  let '(l', w') := drain_loop cfg n waited l w in loop_inv B own l' w' ∧ kq_ l' = kq_ l.
Proof.
  revert waited l w; induction n as [|n IH]; intros waited l w Hl; [done|]. simpl. destruct (_ || _); [done|].
  destruct (sys_kevent_wait _ _ _ _) as [[e|us] k] eqn:E.
  - apply kevent_wait_err in E as [E _]. pose proof (loop_inv_silent _ _ _ Hl E). destruct e; try done. by apply IH.
  - apply kevent_wait_ok in E. pose proof (drain_events_inv us l (set_kern k w) (loop_inv_silent _ _ _ Hl E)) as H.
    destruct (drain_events _ us l _) as [l1 w1]. destruct H as [Hl1 Hkq].
    pose proof (IH (if bool_decide (us = []) then waited + 100 else waited) l1 w1 Hl1) as IH'.
    destruct (drain_loop _ n _ l1 w1) as [l2 w2]. by rewrite <-Hkq.
Qed.
End conn.
