(* ===== verification/ConnResolver.v ===== *)
(** * Connections and resolver threads on one heap of jobs

[ConnectionSpec] and [EventLoopSpec] let the resolver threads do anything that
respects a connection ([env], [bg]).  Here the threads themselves take part:
[shared] is the state the threads and any set of connections have in common
(which jobs exist, who refers to them, which descriptors their pipes are), a
step of a connection keeps it ([on_ready_among], [destroy_among]), a step of
[worker_loop] keeps it ([worker_shared]), and the latter is one of the
steps a connection tolerates ([worker_env]). *)
From S2P Require Import Prelude CppString Http Config Cache CacheSpec Kernel Socket Resolver ResolverSpec.
From S2P Require Import Connection ConnectionInv ConnectionSpec EventLoop EventLoopInv.

(** ** The shared state *)

Definition job_end (jb : ResolveJob) (fd : Z) : Prop := fd = read_end jb ∨ fd = write_end jb.

(** The pipe ends of a job are open (the write end until the thread has closed
it) and no other job's. *)
Record jobs_ok (o : Obs) (js : gmap nat ResolveJob) : Prop := {
  jk_read j jb : js !! j = Some jb → is_Some (fdt o !! read_end jb);
  jk_write j jb : js !! j = Some jb → write_end jb = -1 ∨ is_Some (fdt o !! write_end jb);
  jk_ends j jb : js !! j = Some jb → read_end jb ≠ write_end jb;
  jk_apart i j ib jb fd : i ≠ j → js !! i = Some ib → js !! j = Some jb → 0 ≤ fd → job_end ib fd → ¬ job_end jb fd
}.

(** The threads [ws] and the jobs [H] held by connections agree with the job heap,
and no descriptor of [X] (open ones) belongs to a job. *)
Record shared {K} `{!Kernel K} (ws : list WorkerPc) (H : gset nat) (X : Z → Prop) (r : Resolver) (k : K) : Prop := {
  sh_wf : obs_wf (obs k);
  sh_jobs : jobs_ok (obs k) (jobs r);
  sh_apart fd : X fd → is_Some (fdt (obs k) !! fd) ∧ ¬ job_fd (jobs r) fd;
  sh_rinv : rinv (mkRSys ws r H k)
}.

Section shared.
Context {K : Type} `{!Kernel K, !KernelLaws K}.
Implicit Type k : K.

Lemma job_fd_open o js fd : jobs_ok o js → obs_wf o → job_fd js fd → 0 ≤ fd → is_Some (fdt o !! fd).
Proof. intros Hj Hw (j & jb & Hjb & [->| ->]) Hp; [by eapply jk_read|]. destruct (jk_write _ _ Hj _ _ Hjb); [lia|done]. Qed.

Lemma rinv_kern ws r H (k k' : K) : rinv (mkRSys ws r H k) → rinv (mkRSys ws r H k').
Proof. intros Hi. eapply rinv_step; [exact Hi|constructor]. Qed.

Lemma shared_mono ws H (X X' : Z → Prop) r k : (∀ fd, X' fd → X fd) → shared ws H X r k → shared ws H X' r k.
Proof. intros HX [? ? Ha ?]. split; auto. Qed.

(** Anything that creates no job: those that are left have their pipes, and what
[X'] has was in [X] and is still open, or is newly opened. *)
Lemma shared_keep ws ws' H H' (X X' : Z → Prop) r r' k k' :
  shared ws H X r k → obs_wf (obs k') →
  (∀ j jb', jobs r' !! j = Some jb' → ∃ jb, jobs r !! j = Some jb ∧ read_end jb' = read_end jb ∧
    (write_end jb' = write_end jb ∨ write_end jb' = -1)) →
  (∀ j jb' fd, jobs r' !! j = Some jb' → job_end jb' fd → is_Some (fdt (obs k) !! fd) → is_Some (fdt (obs k') !! fd)) →
  (∀ fd, X' fd → is_Some (fdt (obs k') !! fd) ∧ (X fd ∨ fdt (obs k) !! fd = None)) →
  rinv (mkRSys ws' r' H' k') → shared ws' H' X' r' k'.
Proof.
  intros [Hw Hj Ha _] Hw' Hjobs Hopen HX Hi.
  assert (∀ j jb', jobs r' !! j = Some jb' → ∃ jb, jobs r !! j = Some jb ∧ ∀ fd, 0 ≤ fd → job_end jb' fd → job_end jb fd) as Hends.
  { intros j jb' Hjb'. destruct (Hjobs j jb' Hjb') as (jb & Hjb & Hr & Hwe). exists jb. split; [done|].
    intros fd Hp [->| ->]; [by left|]. destruct Hwe as [->|?]; [by right|lia]. }
  split; [done| | |done].
  - split.
    + intros j jb' Hjb'. destruct (Hjobs j jb' Hjb') as (jb & Hjb & Hr & _). eapply Hopen; [done|by left|].
      rewrite Hr. by eapply jk_read.
    + intros j jb' Hjb'. destruct (Hjobs j jb' Hjb') as (jb & Hjb & _ & [Hwe|?]); [|by left].
      destruct (jk_write _ _ Hj j jb Hjb) as [?|Hs]; [left; congruence|right]. eapply Hopen; [done|by right|by rewrite Hwe].
    + intros j jb' Hjb'. destruct (Hjobs j jb' Hjb') as (jb & Hjb & -> & [->| ->]); [by eapply jk_ends|].
      destruct (jk_read _ _ Hj j jb Hjb) as [f Hf]. apply (ow_pos _ Hw) in Hf. lia.
    + intros i j ib jb fd Hne Hib Hjb Hp Hi' Hj'. destruct (Hends i ib Hib) as (ib0 & Hib0 & He1), (Hends j jb Hjb) as (jb0 & Hjb0 & He2).
      eapply (jk_apart _ _ Hj i j); eauto.
  - intros fd HXf. destruct (HX fd HXf) as [Hs HXold]. split; [done|]. intros (j & jb' & Hjb' & He).
    destruct Hs as [f Hf]. pose proof (ow_pos _ Hw' _ _ Hf) as Hp. destruct (Hends j jb' Hjb') as (jb & Hjb & He0).
    assert (job_fd (jobs r) fd) as Hjf by (exists j, jb; split; [done|by apply He0]).
    destruct HXold as [HXo|Hno]; [by apply (Ha fd HXo)|]. destruct (job_fd_open _ _ _ Hj Hw Hjf Hp). congruence.
Qed.

(** The jobs and the descriptor table are the same. *)
Lemma shared_same ws ws' H H' (X X' : Z → Prop) r r' k k' :
  shared ws H X r k → obs_wf (obs k') → fdt (obs k') = fdt (obs k) → jobs r' = jobs r → (∀ fd, X' fd → X fd) →
  rinv (mkRSys ws' r' H' k') → shared ws' H' X' r' k'.
Proof.
  intros Hs Hw Ht Hj HX Hi. eapply shared_keep; [exact Hs|done|..|exact Hi]; rewrite ?Hj, ?Ht; eauto.
  intros fd HX'. split; [apply Hs; auto|auto].
Qed.
End shared.

(** ** A connection among others *)

(** The descriptors it holds itself, and its lookup. *)
Definition sock (c : Connection) (fd : Z) : Prop := 0 ≤ fd ∧ (fd = client_ c ∨ fd = upstream_ c).
Definition job_of (c : Connection) : gset nat := match resolve_job_ c with Some j => {[j]} | None => ∅ end.

Lemma elem_of_job_of j c : j ∈ job_of c ↔ resolve_job_ c = Some j.
Proof. unfold job_of. destruct (resolve_job_ c); set_solver. Qed.

Section among.
Context {K C : Type} `{!Kernel K, !KernelLaws K, !ResponseCache C, !ResponseCacheLaws C}.
Implicit Type w : World K C.

(** The others: resolver threads, jobs other connections hold, descriptors that are
neither [c]'s nor a job's. *)
Context (ws : list WorkerPc) (H : gset nat) (Y : Z → Prop).

Record among (c : Connection) w : Prop := {
  am_shared : shared ws (job_of c ∪ H) (λ fd, Y fd ∨ sock c fd) (res w) (kern w);
  am_others fd : Y fd → ¬ sock c fd;
  am_sockets : 0 ≤ client_ c → client_ c ≠ upstream_ c;
  am_job j : resolve_job_ c = Some j → j ∉ H
}.

(** Other fields changed, or bytes went through a descriptor. *)
Lemma among_same c w c1 w1 :
  client_ c1 = client_ c → upstream_ c1 = upstream_ c → resolve_job_ c1 = resolve_job_ c →
  obs_wf (obs (kern w1)) → fdt (obs (kern w1)) = fdt (obs (kern w)) → res w1 = res w → among c w → among c1 w1.
Proof.
  intros Hc Hu Hj Hw Ht Hr [Hs Ho Hcu Hjb]. split; unfold sock, job_of in *; rewrite ?Hc, ?Hu, ?Hj, ?Hr; try done.
  eapply shared_same; [exact Hs|done|done|done|done|]. eapply rinv_kern, Hs.
Qed.

Lemma among_fields c w c1 :
  client_ c1 = client_ c → upstream_ c1 = upstream_ c → resolve_job_ c1 = resolve_job_ c → among c w → among c1 w.
Proof. intros ? ? ? Ha. eapply among_same; [..|exact Ha]; try done. apply Ha. Qed.

(** One of its own sockets is closed. *)
Lemma among_close c w c1 k fd :
  among c w → obs k = obs_reset fd (obs (kern w)) → resolve_job_ c1 = resolve_job_ c →
  (0 ≤ fd → sock c fd) → (∀ x, sock c1 x → sock c x ∧ x ≠ fd) → (0 ≤ client_ c1 → client_ c1 ≠ upstream_ c1) →
  among c1 (set_kern k w).
Proof.
  intros [Hs Ho Hcu Hjb] Hk Hj Hfd Hsock Hcu1. pose proof (sh_wf _ _ _ _ _ Hs) as Hw.
  assert (∀ x, x ≠ fd → fdt (obs k) !! x = fdt (obs (kern w)) !! x) as Hne.
  { intros x Hx. rewrite Hk. unfold obs_reset. destruct (valid fd); [|done]. simpl. by rewrite lookup_delete_ne. }
  split; simpl; rewrite ?Hj; try done; [|intros x Hy [? _]%Hsock; by eapply Ho].
  unfold job_of. rewrite Hj. eapply shared_keep; [exact Hs|rewrite Hk; by apply obs_reset_wf|..|eapply rinv_kern, Hs]; [eauto|..].
  - intros j jb x Hjb' He [f Hf]. rewrite Hne; [by eexists|]. intros ->. destruct (sh_apart _ _ _ _ _ Hs fd) as [_ Hn].
    { right. apply Hfd. by eapply ow_pos. }
    apply Hn. by exists j, jb.
  - intros x HX. assert (Y x ∨ sock c x) as HX0 by (destruct HX as [?|[? _]%Hsock]; auto).
    split; [|by left]. rewrite Hne; [by apply (sh_apart _ _ _ _ _ Hs)|]. intros ->.
    destruct HX as [HY|Hx%Hsock]; [|by destruct Hx]. destruct (sh_apart _ _ _ _ _ Hs fd (or_introl HY)) as [[f Hf] _].
    apply (Ho fd HY), Hfd. by eapply ow_pos.
Qed.

Lemma upstream_reset_among c w : among c w → among (upstream_reset (-1) c w).1 (upstream_reset (-1) c w).2.
Proof.
  intros Ha. destruct (upstream_reset_spec (-1) c w) as (k & -> & Hk). simpl.
  eapply among_close; [exact Ha|exact Hk|done|..]; unfold sock; simpl; [auto| |lia].
  intros x [Hp [->|?]]; [|lia]. split; [auto|by apply Ha].
Qed.

Lemma client_reset_among c w : among c w → among (client_reset c w).1 (client_reset c w).2.
Proof.
  intros Ha. destruct (client_reset_spec c w) as (k & -> & Hk). simpl.
  eapply among_close; [exact Ha|exact Hk|done|..]; unfold sock; simpl; [auto| |lia].
  intros x [Hp [?| ->]]; [lia|]. split; [auto|]. intros Heq. rewrite Heq in Hp. by destruct (am_sockets _ _ Ha Hp).
Qed.

(** A new socket for the origin. *)
Lemma among_connected c w k st fd :
  among c w → upstream_ c = -1 → attempt st fd (obs (kern w)) (obs k) → st ≠ ConnectFailed →
  among (set_upstream fd c) (set_kern k w).
Proof.
  intros [Hs Ho Hcu Hjb] Hu Hat Hst. pose proof (sh_wf _ _ _ _ _ Hs) as Hw.
  pose proof (attempt_frame _ _ _ _ Hw Hat) as Hf.
  destruct (at_opened _ _ _ _ Hat Hst) as (fu & Hpos & Hfree & Hfu & Hfdt & _).
  assert (∀ x, sock (set_upstream fd c) x → sock c x ∨ x = fd) as Hsock by (intros x [? [->| ->]]; [left; split; auto|by right]).
  assert (∀ x, is_Some (fdt (obs (kern w)) !! x) → x ≠ fd) as Hne by (intros x [f Hx] ->; congruence).
  split; simpl; try done.
  - eapply shared_keep; [exact Hs|by eapply frame_wf|..|eapply rinv_kern, Hs]; [eauto|..].
    + intros j jb x _ _ Hx. rewrite Hfdt. apply lookup_insert_is_Some'. by right.
    + intros x HX. rewrite Hfdt. destruct (decide (x = fd)) as [->|Hx]; [rewrite lookup_insert_eq; eauto|].
      assert (Y x ∨ sock c x) as HX0 by (destruct HX as [?|[?|?]%Hsock]; auto; done).
      rewrite lookup_insert_ne by done. split; [by apply (sh_apart _ _ _ _ _ Hs)|by left].
  - intros x HY [?| ->]%Hsock; [by eapply Ho|]. eapply Hne; [|done]. by apply (sh_apart _ _ _ _ _ Hs); left.
  - intros Hp. apply Hne, (sh_apart _ _ _ _ _ Hs). right. split; auto.
Qed.

(** It lets go of its lookup, after having taken the answer out of the job or not:
[jb0] is the job as it is then. *)
Lemma among_release c w j jb jb0 r0 r k :
  among c w → resolve_job_ c = Some j → jobs (res w) !! j = Some jb →
  jobs r0 = <[j := jb0]> (jobs (res w)) → read_end jb0 = read_end jb → write_end jb0 = write_end jb →
  drop_job j r0 (kern w) = (r, k) → rinv (mkRSys ws r ((job_of c ∪ H) ∖ {[j]}) k) →
  among (set_resolve_job None c) (set_res r k w).
Proof.
  intros [Hs Ho Hcu Hjb] Hj Hjj Hr0 Hre Hwe E Hi. pose proof (sh_wf _ _ _ _ _ Hs) as Hw. pose proof (sh_jobs _ _ _ _ _ Hs) as Hjs.
  assert (jobs r0 !! j = Some jb0) as Hj0 by by rewrite Hr0, lookup_insert_eq.
  pose proof (drop_job_spec _ _ _ _ _ _ Hj0 E) as (_ & _ & _ & _ & Hjobs).
  assert (∀ i ib, i ≠ j → jobs r !! i = Some ib → jobs (res w) !! i = Some ib) as Hother.
  { intros i ib Hne. rewrite Hjobs, Hr0. case_decide; rewrite ?lookup_delete_ne, ?lookup_insert_ne by done; done. }
  assert (obs_wf (obs k) ∧ (∀ x, fdt (obs k) !! x = fdt (obs (kern w)) !! x ∨ job_end jb0 x ∧ jobs r !! j = None)) as [Hwk Hx].
  { unfold drop_job in E. rewrite Hj0 in E. case_bool_decide; simplify_eq; [|by split; [|left]].
    split; [eapply frame_wf, close_job_frame; done|]. intros x. simpl. rewrite lookup_delete_eq.
    destruct (decide (x = read_end jb0 ∨ x = write_end jb0)) as [|Hn]; [by right|left]. rewrite close_job_resets. unfold obs_reset.
    apply Decidable.not_or in Hn as [? ?].
    destruct (valid (write_end jb0)), (valid (read_end jb0)); simpl; by rewrite ?lookup_delete_ne. }
  assert (∀ x, job_end jb0 x → job_end jb x) as Hends by (unfold job_end; by rewrite Hre, Hwe).
  assert ((job_of c ∪ H) ∖ {[j]} = H) as HH.
  { unfold job_of. rewrite Hj. specialize (Hjb j Hj). set_solver. }
  split; simpl; try done. unfold job_of. simpl. rewrite (left_id_L ∅ (∪)).
  eapply shared_keep; [exact Hs|done|..|by rewrite <-HH].
  - intros i ib Hib. destruct (decide (i = j)) as [->|Hne]; [|exists ib; eauto]. exists jb. split; [done|].
    rewrite Hjobs in Hib. case_decide; [by rewrite lookup_delete_eq in Hib|]. rewrite lookup_insert_eq in Hib. by simplify_eq; auto.
  - intros i ib x Hib He Hsx. destruct (Hx x) as [->|[Hej Hnone]]; [done|].
    assert (i ≠ j) as Hne by congruence. destruct Hsx as [f Hf].
    destruct (jk_apart _ _ Hjs i j ib jb x); eauto using ow_pos.
  - intros x HX. destruct (sh_apart _ _ _ _ _ Hs x HX) as [Hsx Hn]. split; [|by left].
    destruct (Hx x) as [->|[He _]]; [done|]. destruct Hn. exists j, jb. split; [done|by apply Hends].
Qed.

Lemma among_present c w j : among c w → resolve_job_ c = Some j → ∃ jb, jobs (res w) !! j = Some jb.
Proof.
  intros [Hs _ _ _] Hj. destruct (ri_held _ (sh_rinv _ _ _ _ _ Hs) j) as (jb & ? & _); [|by eexists].
  simpl. apply elem_of_union_l, elem_of_job_of. done.
Qed.

Lemma resolve_job_reset_among c w :
  among c w → among (resolve_job_reset c w).1 (resolve_job_reset c w).2.
Proof.
  intros Ha. unfold resolve_job_reset. destruct (resolve_job_ c) as [j|] eqn:Hj; simpl.
  - destruct (among_present _ _ _ Ha Hj) as [jb Hjb]. destruct (drop_job j (res w) (kern w)) as [r k] eqn:E. simpl.
    eapply (among_release c w j jb jb); try done; [by rewrite insert_id|].
    eapply rinv_step; [apply Ha|]. eapply rs_release; [|exact E]. apply elem_of_union_l, elem_of_job_of. done.
  - eapply among_same; [..|exact Ha]; try done. apply Ha.
Qed.

(** A lookup is queued. *)
Lemma among_pending c w job r k :
  among c w → resolve_job_ c = None → started Pending job (res w) r (obs (kern w)) (obs k) →
  rinv (mkRSys ws r (match job with Some j => {[j]} | None => ∅ end ∪ (job_of c ∪ H)) k) →
  among (set_resolve_job job c) (set_res r k w).
Proof.
  intros [Hs Ho Hcu Hjb] Hj [Hf _ _ Hp] Hi. destruct Hp as (jb & -> & Hjs & _ & _ & _ & Hpi & _); [done|].
  pose proof (sh_wf _ _ _ _ _ Hs) as Hw. destruct (sh_jobs _ _ _ _ _ Hs) as [Jr Jw Je Ja].
  destruct Hpi as [Hr Hwr Hne [Hfr1 Hfr2] Hfdt _]. pose proof (ri_refs _ (sh_rinv _ _ _ _ _ Hs)) as Hlt. simpl in Hlt.
  assert (∀ x, job_end jb x → fdt (obs (kern w)) !! x = None) as Hnew by (by intros x [->| ->]).
  assert (∀ x, is_Some (fdt (obs (kern w)) !! x) → is_Some (fdt (obs k) !! x)) as Hold.
  { intros x Hx. rewrite Hfdt. apply lookup_insert_is_Some'. right. apply lookup_insert_is_Some'. by right. }
  assert (∀ i ib x, jobs (res w) !! i = Some ib → 0 ≤ x → job_end ib x → ¬ job_end jb x) as Hap.
  { intros i ib x Hib Hpx He Hn%Hnew. assert (is_Some (fdt (obs (kern w)) !! x)) as [f ?]; [|congruence].
    destruct He as [->| ->]; [eauto|]. destruct (Jw i ib Hib); [lia|done]. }
  unfold job_of in *. rewrite Hj, (left_id_L ∅ (∪)) in Hi. simpl in Hi. split; simpl; try done.
  - split; [by eapply frame_wf|..|exact Hi]; simpl; rewrite Hjs.
    + split.
      * intros i ib [[<- <-]|[_ ?]]%lookup_insert_Some; [|eauto]. rewrite Hfdt, lookup_insert_ne, lookup_insert_eq; eauto.
      * intros i ib [[<- <-]|[_ Hib]]%lookup_insert_Some; [right; rewrite Hfdt, lookup_insert_eq; eauto|].
        destruct (Jw i ib Hib); auto.
      * intros i ib [[<- <-]|[_ ?]]%lookup_insert_Some; eauto.
      * intros i1 i2 b1 b2 x Hn [[<- <-]|[_ H1]]%lookup_insert_Some [[<- <-]|[_ H2]]%lookup_insert_Some; try done; eauto.
        intros Hpx He He2. eapply Hap; eauto.
    + intros x HX. destruct (sh_apart _ _ _ _ _ Hs x HX) as [Hsx Hn]. split; [auto|].
      intros (i & ib & [[<- <-]|[_ Hib]]%lookup_insert_Some & He).
      * apply Hnew in He. destruct Hsx. congruence.
      * destruct Hn. by exists i, ib.
  - intros j [= <-] Hin. destruct (ri_held _ (sh_rinv _ _ _ _ _ Hs) (next_job (res w))) as (jb' & Hj' & _); [set_solver|].
    simpl in Hj'. destruct (Hlt _ _ Hj') as (_ & _ & ?). lia.
Qed.

(** A lookup that was answered at once, or not started. *)
Lemma among_lookup c w r k :
  among c w → obs_wf (obs k) → fdt (obs k) = fdt (obs (kern w)) → jobs r = jobs (res w) →
  rinv (mkRSys ws r (job_of c ∪ H) k) → among c (set_res r k w).
Proof. intros [Hs Ho Hcu Hjb] Hw Ht Hj Hi. split; try done. simpl. by eapply shared_same. Qed.

(** ** The member functions *)

Abbreviation keeps c w cw := (among c w → among cw.1 cw.2).

Lemma fail_with_among v c w : keeps c w (fail_with v c w).
Proof.
  intros Ha. unfold fail_with. apply upstream_reset_among in Ha. destruct (upstream_reset _ _ _) as [c1 w1]. simpl in *.
  by eapply among_fields, Ha.
Qed.

Lemma finish_among c w : keeps c w (finish c w).
Proof.
  intros Ha. unfold finish. assert (among (set_want WNone (set_state Done c)) w) as Ha1 by by eapply among_fields, Ha.
  apply resolve_job_reset_among in Ha1. destruct (resolve_job_reset _ _) as [c1 w1].
  apply upstream_reset_among in Ha1. destruct (upstream_reset _ _ _) as [c2 w2]. by apply client_reset_among in Ha1.
Qed.

Lemma destroy_among c w :
  among c w → shared ws H Y (res (Connection_destroy c w)) (kern (Connection_destroy c w)).
Proof.
  intros Ha. unfold Connection_destroy.
  assert (∀ c1 w1, among c1 w1 → resolve_job_ c1 = None → shared ws H Y (res w1) (kern w1)) as Hend.
  { intros c1 w1 [Hs _ _ _] Hj. unfold job_of in Hs. rewrite Hj, (left_id_L ∅ (∪)) in Hs. eapply shared_mono, Hs. intros. by left. }
  assert (resolve_job_ (resolve_job_reset c w).1 = None) as Hj1 by (unfold resolve_job_reset; by destruct (drop_ptr _ _ _)).
  apply resolve_job_reset_among in Ha. destruct (resolve_job_reset _ _) as [c1 w1]. cbn [fst snd] in *.
  assert (resolve_job_ (upstream_reset (-1) c1 w1).1 = None) as Hj2 by done.
  apply upstream_reset_among in Ha. destruct (upstream_reset _ _ _) as [c2 w2]. cbn [fst snd] in *.
  assert (resolve_job_ (client_reset c2 w2).1 = None) as Hj3 by done.
  apply client_reset_among in Ha. destruct (client_reset _ _) as [c3 w3]. by eapply Hend.
Qed.

Lemma connect_loop_among fuel c w : upstream_ c = -1 → keeps c w (connect_loop fuel c w).
Proof.
  revert c w; induction fuel as [|fuel IH]; intros c w Hu Ha; simpl; [by apply fail_with_among|].
  destruct (endpoints_ c !! endpoint_idx_ c) as [ep|]; [|by apply fail_with_among].
  destruct (start_connect ep (kern w)) as [[st fd] k] eqn:E. pose proof (sh_wf _ _ _ _ _ (am_shared _ _ Ha)) as Hw.
  apply start_connect_spec in E; [|done]. pose proof (frame_wf _ _ _ (attempt_frame _ _ _ _ Hw E)) as Hwk.
  assert (∀ s, st ≠ ConnectFailed → 
    let cw := (let '(c, w) := upstream_reset fd (set_endpoint_idx (S (endpoint_idx_ c)) c) (set_kern k w) in
      (set_want WriteUpstream (set_state s c), w)) in among cw.1 cw.2) as Hopen.
  { intros s Hst. destruct (upstream_reset_spec fd (set_endpoint_idx (S (endpoint_idx_ c)) c) (set_kern k w)) as (k' & -> & Hk').
    simpl in *. rewrite Hu in Hk'. pose proof (among_connected _ _ _ _ _ Ha Hu E Hst) as Ha1.
    eapply among_same; [..|exact Ha1]; simpl; rewrite ?Hk'; done. }
  destruct st; [by apply Hopen|by apply Hopen|]. apply IH; [done|]. destruct (at_failed _ _ _ _ E) as [_ Hfdt]; [done|].
  by eapply among_same, Ha.
Qed.

Lemma connect_succeeded_silent fd (k : K) ok k' : connect_succeeded fd k = (ok, k') → silent k k'.
Proof. unfold connect_succeeded. destruct (sys_so_error fd k) as [[] k1] eqn:E; apply so_error_silent in E; by intros [= <- <-]. Qed.

Lemma finish_connect_among c w : keeps c w (finish_connect c w).
Proof.
  intros Ha. unfold finish_connect. destruct (connect_succeeded _ _) as [ok k] eqn:E. apply connect_succeeded_silent in E.
  assert (∀ c1, client_ c1 = client_ c → upstream_ c1 = upstream_ c → resolve_job_ c1 = resolve_job_ c → among c1 (set_kern k w)) as Ha1.
  { intros. eapply among_same, Ha; simpl; rewrite ?E; try done. apply Ha. }
  destruct ok; cbn [negb]; [by apply Ha1|]. pose proof (upstream_reset_among _ _ (Ha1 c eq_refl eq_refl eq_refl)) as Ha2.
  assert (upstream_ (upstream_reset (-1) c (set_kern k w)).1 = -1) as Hu by done.
  destruct (upstream_reset _ _ _) as [c2 w2]. by apply connect_loop_among.
Qed.

Lemma among_cache_filled c w : among c w → cache_filled (res w).
Proof. intros Ha. exact (ri_cache _ (sh_rinv _ _ _ _ _ (am_shared _ _ Ha))). Qed.

Lemma begin_resolve_among cfg c w :
  upstream_ c = -1 → resolve_job_ c = None → keeps c w (begin_resolve cfg c w).
Proof.
  intros Hu Hj Ha. pose proof (sh_wf _ _ _ _ _ (am_shared _ _ Ha)) as Hw.
  pose proof (sh_rinv _ _ _ _ _ (am_shared _ _ Ha)) as Hi. unfold begin_resolve. destruct (async_resolve cfg); cbn [negb].
  - rewrite Hj. destruct (start _ _ _ _ _ _) as [[[[st eps] job] r] k] eqn:E. pose proof (start_spec _ _ _ _ _ _ _ _ _ _ Hw E) as Hst.
    assert (st ≠ Pending → job = None ∧ among c (set_res r k w)) as Hno.
    { intros Hn. assert (job = None ∧ fdt (obs k) = fdt (obs (kern w)) ∧ jobs r = jobs (res w)) as (-> & Ht & Hjs).
      { destruct st; [destruct (sd_hit _ _ _ _ _ _ Hst) as (-> & ? & ?)|done|destruct (sd_failed _ _ _ _ _ _ Hst) as (? & ? & ? & _)]; done. }
      split; [done|]. apply among_lookup; [done|eapply frame_wf, Hst|done|done|].
      eapply rinv_step; [exact Hi|]. by eapply rs_start_other. }
    destruct st.
    + destruct Hno as [-> Ha1]; [done|]. apply connect_loop_among; [done|]. by eapply among_fields, Ha1.
    + assert (among (set_resolve_job job c) (set_res r k w)) as Ha1.
      { apply among_pending; [done|done|done|]. destruct (sd_pending _ _ _ _ _ _ Hst) as (jb & -> & _); [done|].
        eapply rinv_step; [exact Hi|]. by eapply rs_start_pending. }
      by eapply among_fields, Ha1.
    + destruct Hno as [-> Ha1]; [done|]. apply fail_with_among. by eapply among_fields, Ha1.
  - destruct (resolve_blocking _ _ _ _ _) as [[[ok eps] r] k] eqn:E.
    pose proof (resolve_blocking_silent _ _ _ _ _ _ _ _ E) as Hs. unfold silent in Hs.
    pose proof (resolve_blocking_spec _ _ _ _ _ _ _ _ _ (among_cache_filled _ _ Ha) E) as ((_ & Hjs & _) & _).
    assert (among c (set_res r k w)) as Ha1.
    { apply among_lookup; rewrite ?Hs; try done. eapply rinv_step; [exact Hi|]. by eapply rs_blocking. }
    destruct ok; cbn [negb]; [apply connect_loop_among|apply fail_with_among]; try done; by eapply among_fields, Ha1.
Qed.

Lemma finish_resolve_among c w : upstream_ c = -1 → keeps c w (finish_resolve c w).
Proof.
  intros Hu Ha. unfold finish_resolve. destruct (resolve_job_ c) as [j|] eqn:Hj; [|done].
  destruct (among_present _ _ _ Ha Hj) as [jb Hjb]. rewrite Hjb.
  pose proof (sh_wf _ _ _ _ _ (am_shared _ _ Ha)) as Hw.
  destruct (sys_read _ _ _) as [a k] eqn:E. apply sys_read_effect in E as [bs E].
  assert (among c (set_kern k w)) as Hk.
  { eapply among_same, Ha; try done; [eapply frame_wf, recv_effect_frame, E; done|by eapply re_fdt]. }
  destruct (j_ready jb) eqn:Hrd; cbn [negb]; [|done].
  assert (j ∈ job_of c ∪ H) as Hin by by apply elem_of_union_l, elem_of_job_of.
  assert (∀ c1 w1, c1 = set_resolve_job None c ∨ (∃ eps, c1 = set_resolve_job None (set_endpoints eps c)) → among c1 w1 → 
    let cw := if negb (j_ok jb) then fail_with bad_gateway c1 w1 else begin_connect (set_endpoint_idx 0 c1) w1 in among cw.1 cw.2) as Hlast.
  { intros c1 w1 Hc1 H1. destruct (j_ok jb); cbn [negb]; [|by apply fail_with_among].
    apply connect_loop_among; [by destruct Hc1 as [->|[? ->]]|]. by eapply among_fields, H1. }
  destruct (j_ok jb) eqn:Hok; unfold resolve_job_reset; cbn [set_endpoints resolve_job_ set_res res kern rcache set_kern];
    rewrite Hj; cbn [drop_ptr].
  - destruct (drop_job j (upd_job j (set_result [] true jb) (res w)) k) as [r k1] eqn:E1. apply Hlast; [by right; eexists|].
    assert (among (set_resolve_job None c) (set_res r k1 (set_kern k w))) as H1; [|by eapply among_fields, H1].
    eapply (among_release c (set_kern k w) j jb (set_result [] true jb) (upd_job j (set_result [] true jb) (res w))); try done.
    eapply rinv_step; [apply Hk|]. eapply rs_collect; [exact Hin|exact Hjb|done|]. simpl. by rewrite Hok.
  - destruct (drop_job j (res w) k) as [r k1] eqn:E1. apply Hlast; [by left|].
    eapply (among_release c (set_kern k w) j jb jb (res w)); try done; [by rewrite insert_id|].
    eapply rinv_step; [apply Hk|]. by eapply rs_release.
Qed.

Lemma request_known_among cfg c w :
  upstream_ c = -1 → resolve_job_ c = None → keeps c w (request_known cfg c w).
Proof.
  intros Hu Hj Ha. unfold request_known. destruct (_ <? _); [done|].
  assert (∀ c1 rc, client_ c1 = client_ c → upstream_ c1 = upstream_ c → resolve_job_ c1 = resolve_job_ c →
    among c1 w ∧ among c1 (set_rcache rc w)) as Ha1.
  { intros c1 rc H1 H2 H3. split; [by eapply among_fields, Ha|]. eapply among_same, Ha; try done. apply Ha. }
  destruct (rcache w) as [rc|]; [|apply begin_resolve_among; try done; by apply (Ha1 _ None)].
  destruct (cacheable_request _ _); [|apply begin_resolve_among; try done; by apply (Ha1 _ None)].
  destruct (rc_get _ rc) as [hit rc1]. destruct hit; [apply fail_with_among|apply begin_resolve_among]; try done; by apply Ha1.
Qed.

(** After a read from or a write to a socket. *)
Lemma among_read c w c1 fd len st bs k :
  among c w → read_some fd len (kern w) = ((st, bs), k) →
  client_ c1 = client_ c → upstream_ c1 = upstream_ c → resolve_job_ c1 = resolve_job_ c → among c1 (set_kern k w).
Proof.
  intros Ha (E & _)%read_some_spec H1 H2 H3. eapply among_same, Ha; try done; [|by eapply re_fdt].
  eapply frame_wf, recv_effect_frame, E. apply Ha.
Qed.

Lemma among_written c w c1 fd bs st n k :
  among c w → write_some fd bs (kern w) = ((st, n), k) →
  client_ c1 = client_ c → upstream_ c1 = upstream_ c → resolve_job_ c1 = resolve_job_ c → among c1 (set_kern k w).
Proof.
  intros Ha (E & _)%write_some_spec H1 H2 H3. eapply among_same, Ha; try done; [|by eapply se_fdt].
  eapply frame_wf, send_effect_frame, E. apply Ha.
Qed.

Lemma do_read_client_among cfg c w : upstream_ c = -1 → resolve_job_ c = None → keeps c w (do_read_client cfg c w).
Proof.
  intros Hu Hj Ha. unfold do_read_client. destruct (read_some _ _ _) as [[st bs] k] eqn:E.
  pose proof (λ c1, among_read c w c1 _ _ _ _ _ Ha E) as Ha1.
  destruct st; [|by apply Ha1|by apply finish_among, Ha1|by apply finish_among, Ha1].
  destruct (parsed_ _); [by apply request_known_among, Ha1|]. destruct (parse_request _ _) as [pr r]. destruct pr.
  - destruct (_ <? _); [by apply fail_with_among, Ha1|by apply Ha1].
  - destruct (_ <? _); [by apply fail_with_among, Ha1|by apply request_known_among, Ha1].
  - by apply fail_with_among, Ha1.
  - by apply fail_with_among, Ha1.
Qed.

Lemma do_write_upstream_among c w : keeps c w (do_write_upstream c w).
Proof.
  intros Ha. unfold do_write_upstream. destruct (write_some _ _ _) as [[st n] k] eqn:E.
  pose proof (λ c1, among_written c w c1 _ _ _ _ _ Ha E) as Ha1.
  destruct st; [|by apply Ha1|by apply fail_with_among, Ha1|by apply fail_with_among, Ha1].
  destruct (_ <? _); by apply Ha1.
Qed.

Lemma store_in_cache_shares c w : res (store_in_cache c w) = res w ∧ kern (store_in_cache c w) = kern w.
Proof. unfold store_in_cache. destruct (rcache w); [|done]. by repeat case_match. Qed.

Lemma do_read_upstream_among cfg c w : keeps c w (do_read_upstream cfg c w).
Proof.
  intros Ha. unfold do_read_upstream. destruct (read_some _ _ _) as [[st bs] k] eqn:E.
  pose proof (λ c1, among_read c w c1 _ _ _ _ _ Ha E) as Ha1.
  destruct st; [| | |by apply finish_among, Ha1].
  - apply Ha1; unfold accumulate; by repeat case_match.
  - by apply Ha1.
  - pose proof (upstream_reset_among _ _ (Ha1 (set_upstream_eof true c) eq_refl eq_refl eq_refl)) as Ha2.
    destruct (upstream_reset _ _ _) as [c2 w2]. cbn [fst snd] in Ha2.
    destruct (store_in_cache_shares c2 w2) as [Hr Hk].
    assert (∀ c3, client_ c3 = client_ c2 → upstream_ c3 = upstream_ c2 → resolve_job_ c3 = resolve_job_ c2 →
      among c3 (store_in_cache c2 w2)) as Ha3 by (intros; eapply among_same, Ha2; rewrite ?Hk; try done; apply Ha2).
    destruct (_ <=? _); [by apply finish_among, Ha3|by apply Ha3].
Qed.

Lemma do_write_client_among c w : keeps c w (do_write_client c w).
Proof.
  intros Ha. unfold do_write_client. destruct (write_some _ _ _) as [[st n] k] eqn:E.
  pose proof (λ c1, among_written c w c1 _ _ _ _ _ Ha E) as Ha1.
  destruct st; [|by apply Ha1|by apply finish_among, Ha1|by apply finish_among, Ha1].
  destruct (_ <? _); [by apply Ha1|]. destruct (_ || _); [by apply finish_among, Ha1|by apply Ha1].
Qed.

(** One step of a connection. *)
Lemma on_ready_among cfg fc B c w : conn_inv fc B c w → keeps c w (on_ready cfg c w).
Proof.
  intros [_ Hp] Ha. unfold on_ready. unfold phase in Hp. destruct (state_ c) eqn:Hst.
  - destruct Hp as (-> & _ & ? & ? & _). by apply do_read_client_among.
  - destruct Hp as (-> & _ & ? & _). by apply finish_resolve_among.
  - destruct Hp as (-> & _). rewrite bool_decide_eq_true_2 by done. by apply finish_connect_among.
  - destruct Hp as (-> & _). rewrite bool_decide_eq_false_2 by done. by apply do_write_upstream_among.
  - destruct Hp as (_ & _ & _ & _ & _ & [(-> & _)|(-> & _)] & _); [by apply do_read_upstream_among|by apply do_write_client_among].
  - destruct Hp as (-> & _). by apply do_write_client_among.
  - destruct Hp as (-> & _). by apply finish_among.
Qed.
End among.

(** ** A resolver thread *)

Section worker.
Context {K : Type} `{!Kernel K, !KernelLaws K}.
Implicit Type k : K.

(** The descriptors the thread at [pc] may touch: the write end of its job, and its
read end once no connection holds the job. *)
Definition worker_fd (H : gset nat) (pc : WorkerPc) (r : Resolver) (fd : Z) : Prop :=
  ∃ j jb, pc_job pc = Some j ∧ jobs r !! j = Some jb ∧ (fd = write_end jb ∨ j ∉ H ∧ fd = read_end jb).

(** What one step of a thread does to the jobs and the descriptors. *)
Record worker_acts (H : gset nat) (pc : WorkerPc) (r : Resolver) k (r' : Resolver) k' : Prop := {
  wa_frame : frame (worker_fd H pc r) (obs k) (obs k');
  wa_next : next_job r' = next_job r;
  wa_jobs j jb' : jobs r' !! j = Some jb' → ∃ jb, jobs r !! j = Some jb ∧ read_end jb' = read_end jb ∧
    (write_end jb' = write_end jb ∨ write_end jb' = -1);
  wa_held j jb : j ∈ H → jobs r !! j = Some jb → ∃ jb', jobs r' !! j = Some jb' ∧ read_end jb' = read_end jb ∧
    (write_end jb' = -1 ∨ write_end jb' = write_end jb ∧ fdt (obs k') !! write_end jb = fdt (obs k) !! write_end jb);
  wa_ends j jb' fd : jobs r' !! j = Some jb' → job_end jb' fd → is_Some (fdt (obs k) !! fd) → is_Some (fdt (obs k') !! fd);
  wa_open fd : is_Some (fdt (obs k') !! fd) → is_Some (fdt (obs k) !! fd) ∧ (job_fd (jobs r) fd → job_fd (jobs r') fd)
}.

Definition ends_of (jb : ResolveJob) : Z * Z := (read_end jb, write_end jb).

(** No descriptor is closed and no job goes away. *)
Lemma acts_quiet H pc r k r' k' :
  frame (worker_fd H pc r) (obs k) (obs k') → fdt (obs k') = fdt (obs k) → next_job r' = next_job r →
  (∀ j, ends_of <$> jobs r' !! j = ends_of <$> jobs r !! j) → worker_acts H pc r k r' k'.
Proof.
  intros Hf Ht Hn Hj. split; rewrite ?Ht; try done.
  - intros j jb' Hjb'. specialize (Hj j). rewrite Hjb' in Hj. destruct (jobs r !! j) as [jb|]; [|done]. injection Hj as ? ?. eauto.
  - intros j jb _ Hjb. specialize (Hj j). rewrite Hjb in Hj. destruct (jobs r' !! j) as [jb'|]; [|done]. injection Hj as ? ?. eauto 10.
  - intros fd Hs. split; [done|]. intros (j & jb & Hjb & He). specialize (Hj j). rewrite Hjb in Hj.
    destruct (jobs r' !! j) as [jb'|] eqn:Hjb'; [|done]. injection Hj as Hr Hw. exists j, jb'. by rewrite Hr, Hw.
Qed.

Lemma ends_upd j jb jb' r i :
  jobs r !! j = Some jb → ends_of jb' = ends_of jb → ends_of <$> jobs (upd_job j jb' r) !! i = ends_of <$> jobs r !! i.
Proof.
  intros Hj He. simpl. destruct (decide (i = j)) as [->|Hne]; [by rewrite lookup_insert_eq, Hj; simpl; f_equal|by rewrite lookup_insert_ne].
Qed.

(** The write end is closed: everybody waiting at the pipe sees its end. *)
Lemma acts_closed H X ws pc r k k' j jb :
  shared ws H X r k → pc_job pc = Some j → jobs r !! j = Some jb → Fd_reset (write_end jb) (-1) k = (-1, k') →
  worker_acts H pc r k (upd_job j (set_ends (read_end jb) (-1) jb) r) k'.
Proof.
  intros [Hw Hjs _ _] Hpc Hj E. pose proof (Fd_reset_obs (write_end jb) k) as Ho. pose proof (Fd_reset_frame (write_end jb) k Hw) as Hf.
  rewrite E in Ho, Hf. cbn [snd] in Ho, Hf.
  assert (∀ x, x ≠ write_end jb → fdt (obs k') !! x = fdt (obs k) !! x) as Hne.
  { intros x Hx. rewrite Ho. destruct (valid _); [|done]. simpl. by rewrite lookup_delete_ne. }
  assert (∀ x, is_Some (fdt (obs k') !! x) → x ≠ write_end jb ∧ is_Some (fdt (obs k) !! x)) as Hgone.
  { intros x [f Hx]. assert (fdt (obs_reset (write_end jb) (obs k)) !! x = Some f) as Hx' by by rewrite <-Hx, Ho.
    apply obs_reset_lookup in Hx' as [? ?]; [eauto|done]. }
  assert (∀ i ib x, i ≠ j → jobs r !! i = Some ib → job_end ib x → is_Some (fdt (obs k) !! x) → x ≠ write_end jb) as Hother.
  { intros i ib x Hi Hib He [f Hx] ->. eapply (jk_apart _ _ Hjs i j); [done..|by eapply ow_pos|exact He|by right]. }
  split; simpl; try done.
  - eapply frame_mono, Hf. intros x _ ->. exists j, jb. auto.
  - intros i ib [[<- <-]|[Hi Hib]]%lookup_insert_Some; [exists jb; simpl; auto|exists ib; auto].
  - intros i ib _ Hib. destruct (decide (i = j)) as [->|Hi].
    + rewrite lookup_insert_eq. simplify_eq. eexists. split; [done|]. simpl. auto.
    + rewrite lookup_insert_ne by done. exists ib. split; [done|]. split; [done|].
      destruct (jk_write _ _ Hjs i ib Hib) as [?|Hs]; [by left|right]. split; [done|]. apply Hne. by eapply Hother; [..|right|].
  - intros i ib x [[<- <-]|[Hi Hib]]%lookup_insert_Some He Hs; (rewrite Hne; [done|]).
    + destruct He as [->| ->]; simpl; [by eapply jk_ends|]. destruct Hs as [f Hf']. apply (ow_pos _ Hw) in Hf'. simpl in Hf'. lia.
    + by eapply Hother.
  - intros x Hs. destruct (Hgone x Hs) as [Hx Hs0]. split; [done|]. intros (i & ib & Hib & He). destruct (decide (i = j)) as [->|Hi].
    + simplify_eq. eexists _, _. rewrite lookup_insert_eq. split; [done|]. simpl. destruct He as [->| ->]; [by left|done].
    + exists i, ib. by rewrite lookup_insert_ne.
Qed.

(** The thread's reference goes; if it was the last, nobody holds the job. *)
Lemma acts_dropped H X a b r k r' k' pc j jb :
  shared (a ++ pc :: b) H X r k → pc_job pc = Some j → jobs r !! j = Some jb → drop_job j r k = (r', k') →
  worker_acts H pc r k r' k'.
Proof.
  intros [Hw Hjs _ Hi] Hpc Hj E. pose proof (drop_job_spec _ _ _ _ _ _ Hj E) as (_ & Hn & _ & _ & Hjobs).
  unfold drop_job in E. rewrite Hj in E. case_bool_decide as Hrefs; injection E as <- <-.
  2: { apply acts_quiet; try done; [by apply frame_refl|]. intros i. simpl. destruct (decide (i = j)) as [->|];
    [by rewrite lookup_insert_eq, Hj|by rewrite lookup_insert_ne]. }
  assert (j ∉ H) as HjH.
  { destruct (ri_refs _ Hi j jb Hj) as (Hr & _). simpl in Hr. intros Hin.
    destruct (count_if_cases (j ∈ pending (a ++ pc :: b) r)) as [[_ H1]|[Hno _]]; [|destruct Hno; rewrite (pending_at _ _ j) by done; set_solver].
    destruct (count_if_cases (j ∈ H)) as [[_ H2]|[? _]]; [|done].
    assert (refs jb = 1 + 1)%nat; [|lia]. rewrite Hr. exact (f_equal2 Nat.add H1 H2). }
  assert (∀ x f, fdt (obs (close_job jb k)) !! x = Some f ↔ fdt (obs k) !! x = Some f ∧ ¬ job_end jb x) as Hclose.
  { intros x f. rewrite close_job_resets. split.
    - intros Hx. apply obs_reset_lookup in Hx as [Hx ?]; [|by apply obs_reset_wf]. apply obs_reset_lookup in Hx as [Hx ?]; [|done].
      split; [done|]. by intros [?|?].
    - intros [Hx Hne]. apply Decidable.not_or in Hne as [? ?]. unfold obs_reset.
      destruct (valid (write_end jb)), (valid (read_end jb)); simpl; by rewrite ?lookup_delete_ne. }
  assert (∀ i ib x, i ≠ j → jobs r !! i = Some ib → job_end ib x → is_Some (fdt (obs k) !! x) → ¬ job_end jb x) as Hother.
  { intros i ib x Hij Hib He [f Hx] He'. by eapply (jk_apart _ _ Hjs i j); [..|eapply ow_pos|exact He|]. }
  split; simpl; try done.
  - eapply frame_mono, close_job_frame; [|done]. intros x _ [->| ->]; exists j, jb; auto.
  - intros i ib [Hij Hib]%lookup_delete_Some. eauto.
  - intros i ib Hin Hib. assert (i ≠ j) by (by intros ->). rewrite lookup_delete_ne by done. exists ib. split; [done|]. split; [done|].
    destruct (jk_write _ _ Hjs i ib Hib) as [?|[f Hs]]; [by left|right]. split; [done|]. rewrite Hs. apply Hclose. split; [done|].
    eapply Hother; [done|done|by right|by eexists].
  - intros i ib x [Hij Hib]%lookup_delete_Some He [f Hs]. exists f. apply Hclose. split; [done|]. eapply Hother; [by apply not_eq_sym|done..|by eexists].
  - intros x [f [Hx Hne]%Hclose]. split; [by eexists|]. intros (i & ib & Hib & He). exists i, ib.
    rewrite lookup_delete_ne; [done|]. intros <-. by simplify_eq.
Qed.
Lemma worker_step_acts H X a pc b r k pc' r' k' :
  shared (a ++ pc :: b) H X r k → worker_step pc r k = Some (pc', r', k') → worker_acts H pc r k r' k'.
Proof.
  intros Hsh Hst. pose proof (sh_wf _ _ _ _ _ Hsh) as Hw.
  pose proof (ri_workers _ (sh_rinv _ _ _ _ _ Hsh)) as Hpc. apply Forall_app in Hpc as [_ [Hpc _]%Forall_cons]. simpl in Hpc.
  assert (∀ r1 k1, silent k k1 → next_job r1 = next_job r → (∀ j, ends_of <$> jobs r1 !! j = ends_of <$> jobs r !! j) →
    worker_acts H pc r k r1 k1) as Hsilent.
  { intros r1 k1 Hs ? ?. unfold silent in Hs. apply acts_quiet; rewrite ?Hs; try done. by apply frame_refl. }
  destruct pc as [|j|j ok eps|j ok|j|j|j|j|]; cbn [worker_step pc_ok] in Hst, Hpc.
  { destruct (queue_ r) as [|j q]; [destruct (closed_ r)|]; simplify_eq; by apply Hsilent. }
  8: done.
  all: destruct Hpc as (jb & Hj & Hrd); try (rewrite Hj in Hst; cbn [mbind option_bind] in Hst).
  - destruct (do_lookup _ _ _ _ _) as [[[ok eps] r1] k1] eqn:E. simplify_eq.
    pose proof (do_lookup_silent _ _ _ _ _ _ _ _ E). apply do_lookup_spec in E as [_ ->]. by apply Hsilent.
  - simplify_eq. apply Hsilent; [done|done|]. intros i. by eapply ends_upd.
  - destruct ok; simplify_eq; [|by apply Hsilent]. destruct (cache_put _ _ _ _) as [r1 k1] eqn:E. simplify_eq.
    pose proof (cache_put_silent _ _ _ _ _ _ E). apply cache_put_spec in E as [(_ & Hjs & Hn & _) _].
    apply Hsilent; [done|done|]. by rewrite Hjs.
  - simplify_eq. apply Hsilent; [done|done|]. intros i. by eapply ends_upd.
  - destruct (sys_write _ _ k) as [n k1] eqn:E. simplify_eq. destruct n as [e|n].
    + apply write_err in E as [E _]. by apply Hsilent.
    + apply write_ok in E as (_ & f & Hf & E). apply acts_quiet; [|by rewrite E|done|done].
      eapply frame_mono; [|eapply send_effect_frame, send_effect_obs; [done|exact Hf|exact E]]. intros x _ ->. exists j, jb. auto.
  - destruct (Fd_reset (write_end jb) (-1) k) as [we k1] eqn:E. assert (we = -1) as -> by by unfold Fd_reset in E; simplify_eq.
    simplify_eq. by eapply acts_closed.
  - destruct (drop_job j r k) as [r1 k1] eqn:E. simplify_eq. by eapply acts_dropped.
Qed.

Lemma worker_fd_job H pc r fd : worker_fd H pc r fd → job_fd (jobs r) fd.
Proof. intros (j & jb & _ & Hj & He). exists j, jb. split; [done|]. destruct He as [?|[_ ?]]; auto. Qed.

(** A step of a thread keeps the shared state. *)
Lemma worker_shared H X a pc b r k pc' r' k' :
  shared (a ++ pc :: b) H X r k → worker_step pc r k = Some (pc', r', k') → shared (a ++ pc' :: b) H X r' k'.
Proof.
  intros Hsh Hst. destruct (worker_step_acts _ _ _ _ _ _ _ _ _ _ Hsh Hst) as [Hf _ Hj _ He _].
  eapply shared_keep; [exact Hsh|by eapply frame_wf|exact Hj|exact He| |by eapply rinv_work; [apply Hsh|]].
  intros fd HX. destruct (sh_apart _ _ _ _ _ Hsh fd HX) as [[f Hs] Hn]. split; [|by left]. exists f.
  apply (fr_fd _ _ _ Hf); [done|]. intros ?%worker_fd_job. done.
Qed.
End worker.

(** The resolver threads are among what [ConnectionSpec] lets happen between two
steps of a connection. *)
Lemma worker_env {K C} `{!Kernel K, !KernelLaws K, !ResponseCache C, !ResponseCacheLaws C} H X a pc b pc' r' k' c (w : World K C) :
  shared (a ++ pc :: b) H X (res w) (kern w) → worker_step pc (res w) (kern w) = Some (pc', r', k') →
  (∀ fd, sock c fd → X fd) → (∀ j, resolve_job_ c = Some j → j ∈ H) →
  cache_ok (rcache w) (obs (kern w)) → env c w (set_res r' k' w).
Proof.
  intros Hsh Hst Hc HH Hca. pose proof (worker_step_acts _ _ _ _ _ _ _ _ _ _ Hsh Hst) as [Hf Hn Hj Hheld _ _].
  pose proof (worker_shared _ _ _ _ _ _ _ _ _ _ Hsh Hst) as Hsh'. destruct (sh_rinv _ _ _ _ _ Hsh') as [_ _ _ _ I5 I6 _].
  destruct Hsh as [Hw Hjs Ha _]. split; simpl; try done.
  - eapply wframe_mono, Hf. intros fd [f Hs] (j & jb & Hpc & Hjb & He) Hres. pose proof (ow_pos _ Hw _ _ Hs) as Hp.
    assert (job_fd (jobs (res w)) fd) as Hjf by (exists j, jb; split; [done|destruct He as [?|[_ ?]]; auto]).
    destruct Hres as [->|[->|(i & ib & Hi & Hib & ->)]].
    1,2: eapply Ha; [apply Hc; split; [exact Hp|auto]|done].
    destruct (decide (i = j)) as [->|Hij].
    + simplify_eq. destruct He as [He|[He _]]; [by eapply jk_ends|by apply He, HH].
    + eapply (jk_apart _ _ Hjs i j ib jb); [done..|by left|]. destruct He as [->|[_ ->]]; [by right|by left].
  - intros j [jb Hjb]. by destruct (I5 j jb Hjb) as (_ & _ & ?).
  - by eapply cache_ok_frame.
  - intros j jb Hcj Hjb. eauto.
Qed.
