(* ===== verification/EventLoopSpec.v ===== *)
(** * What the event loop guarantees

[loop_reach] are the states of one loop while events are handled in any order,
the acceptor hands over clients, and resolver threads act ([bg]).  In all of
them each live connection has exactly one registration, for what it waits for,
and no registration carries the address of a connection that is gone.  Every
descriptor is accounted for, up to and including shutdown. *)
From S2P Require Import Prelude CppString Http Config Cache CacheSpec Kernel SimKernel Socket Resolver ResolverSpec.
From S2P Require Import Connection ConnectionInv ConnectionSpec EventLoop EventLoopInv.

Section reach.
Context {K C : Type} `{!Kernel K, !KernelLaws K, !ResponseCache C, !ResponseCacheLaws C}.
Implicit Type w : World K C.
Context (cfg : Config) (malloc : gset nat → nat) (budget : nat).

(** ** The loop among other threads *)

(** What the resolver threads and the other loops may do meanwhile: they respect
the connections of this loop and the descriptors it holds, register nothing
on its kqueue, and open descriptors only in [B] or for lookups. *)
Record bg (B : Z → Prop) (own : list Z) (l : EventLoop) w w' : Prop := {
  bg_world : world_ok w';
  bg_regs : kept_on (kq_ l) (obs (kern w)) (obs (kern w'));
  bg_conn p s : live_ l !! p = Some s → env (sl_conn s) w w';
  bg_held fd : fd ∈ own ++ inbox_fds l → is_Some (fdt (obs (kern w')) !! fd);
  bg_queue fd : fd ∈ inbox_fds l → untouched fd w';
  bg_open fd : is_Some (fdt (obs (kern w')) !! fd) →
    B fd ∨ job_fd (jobs (res w')) fd ∨ is_Some (fdt (obs (kern w)) !! fd) ∧ ¬ job_fd (jobs (res w)) fd
}.

(** The state in which the loop starts polling: nothing live, nothing waiting. *)
Record loop_start (B : Z → Prop) (own : list Z) (l : EventLoop) w : Prop := {
  st_world : world_ok w;
  st_live : live_ l = ∅;
  st_queue : inbox_fds l = [];
  st_regs fd d p : regs (obs (kern w)) !! (kq_ l, fd, d) ≠ Some (UConn p);
  st_own fd : fd ∈ own → is_Some (fdt (obs (kern w)) !! fd);
  st_nodup : NoDup own;
  st_inbox ib : inbox_ l = Some ib → ib_read_end ib ∈ own ∧ ib_write_end ib ∈ own;
  st_acc fd : is_Some (fdt (obs (kern w)) !! fd) → B fd ∨ fd ∈ own ∨ job_fd (jobs (res w)) fd
}.

Inductive loop_reach (B : Z → Prop) (own : list Z) : EventLoop → World K C → Prop :=
| lr_start l w : loop_start B own l w → loop_reach B own l w
| lr_event u l w l' w' : loop_reach B own l w → handle cfg malloc budget u l w = (l', w') → loop_reach B own l' w'
| lr_hand_over lfd l w ib fd k ib' k' : loop_reach B own l w → inbox_ l = Some ib →
    accept_one lfd (kern w) = ((AcceptOk, fd), k) → Inbox_push fd ib k = (ib', k') →
    loop_reach B own (set_inbox (Some ib') l) (set_kern k' w)
| lr_bg l w w' : loop_reach B own l w → bg B own l w w' → loop_reach B own l w'.

Lemma loop_start_inv B own l w : loop_start B own l w → loop_inv B own l w.
Proof.
  intros [Hw Hl Hq Hr Ho Hnd Hib Ha]. split; [|done]. rewrite Hq. split.
  - rewrite Hl. split; try done.
    + intros fd d p _ Hu. by destruct (Hr fd d p).
    + intros fd. rewrite (right_id_L [] (++)). split; [by apply Ho|done].
    + intros fd Hin. by apply not_elem_of_nil in Hin.
    + by rewrite (right_id_L [] (++)).
  - intros fd Hs. destruct (Ha fd Hs) as [?|[?|?]]; auto.
Qed.

Lemma good_perm B own Q Q' l w : Q ≡ₚ Q' → good B own Q l w → good B own Q' l w.
Proof.
  intros HQ [[? ? ? ? Hh Hq Hnd] Ha]. split; [split; try done|].
  - intros fd. rewrite <-HQ. apply Hh.
  - intros fd. rewrite <-HQ. apply Hq.
  - by rewrite <-HQ.
  - intros fd. rewrite <-HQ. apply Ha.
Qed.

Lemma good_own_perm B own own' Q l w : own ≡ₚ own' → good B own Q l w → good B own' Q l w.
Proof.
  intros HQ [[? ? ? ? Hh Hq Hnd] Ha]. split; [split; try done|].
  - intros fd. rewrite <-HQ. apply Hh.
  - by rewrite <-HQ.
  - intros fd. rewrite <-HQ. apply Ha.
Qed.

Lemma hand_over_inv B own lfd l w ib fd k ib' k' :
  loop_inv B own l w → inbox_ l = Some ib → accept_one lfd (kern w) = ((AcceptOk, fd), k) →
  Inbox_push fd ib k = (ib', k') → loop_inv B own (set_inbox (Some ib') l) (set_kern k' w).
Proof.
  intros [Hg Hin] Hib Hacc%accept_one_spec Hpush. destruct (Hin ib Hib) as [Hr Hwr]. unfold inbox_fds in Hg. rewrite Hib in Hg.
  assert (good B own (fd :: ib_queue ib) l (set_kern k w)) as Hg1 by by eapply good_opened.
  assert (good B own (ib_queue ib ++ [fd]) l (set_kern k w)) as Hg2.
  { eapply good_perm, Hg1. by rewrite Permutation_app_comm. }
  unfold Inbox_push in Hpush. simpl in Hpush. destruct (sys_write _ _ k) as [r k2] eqn:E. injection Hpush as <- <-.
  split; [|intros ib2 [= <-]; done]. unfold inbox_fds. simpl.
  assert (good B own (ib_queue ib ++ [fd]) l (set_kern k2 (set_kern k w))) as [? ?]; [|done].
  destruct r as [e|n].
  - apply write_err in E as [E _]. by apply good_silent.
  - apply write_ok in E as (_ & f & Hf & E). apply (own_frame _ _ (ib_write_end ib)); try done; [|simpl; by rewrite E].
    eapply send_effect_frame; [apply (gd_slots _ _ _ _ _ Hg2)|by eapply send_effect_obs].
Qed.

Lemma bg_inv B own l w w' : loop_inv B own l w → bg B own l w w' → loop_inv B own l w'.
Proof.
  intros [[Hss Ha] Hin] [? ? ? ? ? Ho]. split; [|done]. split; [by eapply slots_env|]. intros fd Hs.
  destruct (Ho fd Hs) as [?|[?|[Hs0 Hnj]]]; [auto..|]. destruct (Ha fd Hs0) as [?|[?|?]]; auto. done.
Qed.

(** ** Before and after the loop *)

(** [set_nonblocking] on a descriptor of the loop, or on none. *)
Lemma nonblocking_own B own Q l w arg b k :
  good B own Q l w → arg ∈ own ∨ arg = -1 → set_nonblocking arg (kern w) = (b, k) →
  good B own Q l (set_kern k w) ∧ frame (λ x, x = arg ∧ arg ∈ own) (obs (kern w)) (obs k) ∧
  fdt (obs k) = fdt (obs (kern w)) ∧ regs (obs k) = regs (obs (kern w)).
Proof.
  intros Hg Harg E. pose proof (wo_wf _ (ss_world _ _ _ _ _ _ (gd_slots _ _ _ _ _ Hg))) as Hw.
  apply set_nonblocking_spec in E as [[E _]|(_ & f & fl & Hf & E & _)].
  { split; [by apply good_silent|]. rewrite E. split; [by apply frame_refl|done]. }
  destruct Harg as [Hin| ->]; [|apply (ow_pos _ Hw) in Hf; lia].
  pose proof (frame_setfl arg f fl _ Hw Hf) as Hfr. rewrite <-E in Hfr. split; [|split; [|by rewrite E]].
  - apply (own_frame _ _ arg); try done. by rewrite E.
  - eapply frame_mono, Hfr. by intros x _ ->.
Qed.

(** A loop without connections, but for its kqueue. *)
Lemma good_shape B own l l' Q Q' w :
  good B own Q l w → live_ l' = ∅ → live_ l = ∅ → (∀ fd d p, regs (obs (kern w)) !! (kq_ l', fd, d) ≠ Some (UConn p)) →
  Q' = Q → good B own Q' l' w.
Proof.
  intros [[? _ _ _ Hh ? ?] Ha] Hl' Hl Hr ->. rewrite Hl in *. split; rewrite Hl'; [|done]. split; try done.
  intros fd d p _ Hu. by destruct (Hr fd d p).
Qed.

(** A new kqueue, *)
Lemma good_kqueue B own Q l l' w kq k :
  good B own Q l w → live_ l = ∅ → live_ l' = ∅ → kq_ l' = kq → opened kq (kern w) k →
  (∀ fd d p, regs (obs (kern w)) !! (kq, fd, d) ≠ Some (UConn p)) → good B (kq :: own) Q l' (set_kern k w).
Proof.
  intros Hg Hl Hl' Hkq Ho Hr. assert (good B own (kq :: Q) l' (set_kern k w)) as [[? ? ? ? Hh Hq Hnd] Ha].
  { eapply good_shape; [by apply good_opened|done|done| |done]. destruct Ho as (_ & _ & Ho). simpl. rewrite Ho, Hkq. exact Hr. }
  assert (own ++ kq :: Q ≡ₚ (kq :: own) ++ Q) as Hp by (simpl; by rewrite Permutation_middle). split; [split; try done|].
  - intros fd. rewrite <-Hp. apply Hh.
  - intros fd Hin. apply Hq. set_solver.
  - by rewrite <-Hp.
  - intros fd Hs. destruct (Ha fd Hs) as [[[?|?]|[->|?]%elem_of_cons]|?]; auto; left; left; right; set_solver.
Qed.

(** and its first registration. *)
Lemma arm_own B own Q l w fd d u ok w' :
  good B own Q l w → live_ l = ∅ → fd ∈ own → (∀ p, u ≠ UConn p) → arm l fd d u w = (ok, w') → good B own Q l w'.
Proof.
  intros [Hss Ha] Hl Hin Hu E. assert (fd ∉ Q) as Hnq.
  { pose proof (ss_nodup _ _ _ _ _ _ Hss) as (_ & Hd & _)%NoDup_app. by apply Hd. }
  rewrite Hl in Hss, Ha. destruct (arm_slots l _ _ _ _ w d fd u ok w' Hss) as (k & -> & Hss' & Ht & _); try done.
  split; rewrite Hl; [done|]. by apply acc_same.
Qed.

(** The loop gives up descriptor [fd], closing it. *)
Lemma good_disown B fd own Q l w :
  good B (fd :: own) Q l w → good B own Q l (set_kern (sys_close fd (kern w)) w).
Proof.
  intros [Hss Ha]. pose proof (wo_wf _ (ss_world _ _ _ _ _ _ Hss)) as Hw.
  pose proof (frame_close fd _ Hw) as Hf. rewrite <-(close_ok fd (kern w)) in Hf.
  assert (NoDup (own ++ Q) ∧ fd ∉ own ++ Q) as [Hnd Hnin].
  { pose proof (ss_nodup _ _ _ _ _ _ Hss) as Hnd. simpl in Hnd. by apply NoDup_cons in Hnd as [? ?]. }
  assert (slots_ok (kq_ l) (λ _, False) own Q (live_ l) w) as Hss'.
  { destruct Hss as [? ? ? ? Hh ? _]. split; try done. intros x Hin. apply Hh. set_solver. }
  split.
  - apply (slots_frame _ _ _ _ _ _ _ (λ x, x = fd)); try done.
    + intros x _ ->. apply (ss_held _ _ _ _ _ _ Hss). set_solver.
    + intros x Hin ->. set_solver.
    + intros x Hin. destruct (ss_held _ _ _ _ _ _ Hss' x) as [[f Hx] _]; [set_solver|]. exists f.
      apply (fr_fd _ _ _ Hf); [done|]. intros ->. set_solver.
  - intros x. simpl. rewrite close_ok. simpl. intros [f [Hne Hx]%lookup_delete_Some].
    destruct (Ha x) as [[[?|[?|?]%elem_of_cons]|?]|?]; [by eexists|auto..|congruence|auto|auto|auto].
Qed.

Lemma disarm_own B own Q l w fd d : good B own Q l w → fd ∈ own → good B own Q l (disarm l fd d w).
Proof.
  intros [Hss Ha] Hin. destruct (ss_held _ _ _ _ _ _ Hss fd) as [[f Hf] Hn]; [set_solver|].
  assert (∀ q t, live_ l !! q = Some t → sl_fd t ≠ fd) as Hne.
  { intros q t Ht <-. destruct (ss_slot _ _ _ _ _ _ Hss q t Ht) as [[fc Hi] Hd Hfd _ _ _].
    destruct (want_open _ _ _ _ Hi Hd) as (_ & _ & Ho). rewrite <-Hfd in Ho. by eapply Hn. }
  assert (fd ∉ Q) as Hnq.
  { pose proof (ss_nodup _ _ _ _ _ _ Hss) as (_ & Hd & _)%NoDup_app. by apply Hd. }
  destruct (disarm_slots l _ _ _ _ w d fd Hss Hne Hnq) as (k & -> & Ho & Hss').
  { by eapply ow_pos, Hf; apply Hss. }
  split; [done|]. apply acc_same; [done|by rewrite Ho].
Qed.

Lemma world_ok_frame D w k : world_ok w → frame D (obs (kern w)) (obs k) → world_ok (set_kern k w).
Proof. intros [? ? ? ?] Hf. split; simpl; try done; [by eapply frame_wf|by eapply cache_ok_frame]. Qed.

Context (Hmalloc : ∀ X, malloc X ∉ X).

Lemma reach_inv B own l w : loop_reach B own l w → loop_inv B own l w.
Proof.
  induction 1 as [l w Hs|u l w l' w' _ IH E|lfd l w ib fd k ib' k' _ IH Hib Ha Hp|l w w' _ IH Hb].
  - by apply loop_start_inv.
  - pose proof (handle_inv cfg budget B own malloc Hmalloc u l w IH) as H. rewrite E in H. by destruct H.
  - by eapply hand_over_inv.
  - by eapply bg_inv.
Qed.

(** ** Shutdown *)

Lemma slots_forget kq ex H Q p s m w :
  slots_ok kq ex H Q m w → m !! p = Some s →
  slots_ok kq (λ _, True) H Q (delete p m) w ∧ alone (H ++ Q) (delete p m) (sl_conn s) w.
Proof.
  intros [? Hslot Honly Hap Hh ? ?] Hp. split; [split; try done|split].
  - intros q t [_ ?]%lookup_delete_Some. auto.
  - intros q r a b Hne [_ ?]%lookup_delete_Some [_ ?]%lookup_delete_Some. eauto.
  - intros fd Hin. destruct (Hh fd Hin) as [? Ho]. split; [done|]. intros q t [_ ?]%lookup_delete_Some. by eapply Ho.
  - intros q t [? ?]%lookup_delete_Some. eauto.
  - intros fd Hin. by eapply (proj2 (Hh fd Hin)).
Qed.

Lemma destroy_all_spec kq ex H Q B L w :
  NoDup L.*1 → slots_ok kq ex H Q (list_to_map L) w → all_accounted B (list_to_map L) w →
  slots_ok kq (λ _, True) H Q ∅ (destroy_all L w) ∧ all_accounted B ∅ (destroy_all L w).
Proof.
  revert ex w. induction L as [|[p s] L IH]; intros ex w Hnd Hss Ha; simpl in *; [split; [by eapply slots_weaken|done]|].
  apply NoDup_cons in Hnd as [Hnin Hnd]. set (m := <[p := s]> (list_to_map L : gmap nat Slot)) in *.
  assert (m !! p = Some s) as Hp by apply lookup_insert_eq.
  assert (delete p m = list_to_map L) as Hdel by by apply delete_insert_id, not_elem_of_list_to_map_1.
  destruct (slots_forget _ _ _ _ _ _ _ _ Hss Hp) as [Hss1 Hal]. rewrite Hdel in *.
  destruct (sk_conn _ _ _ _ (ss_slot _ _ _ _ _ _ Hss p s Hp)) as [fc Hi]. destruct (destroy_ok _ _ _ Hi) as [[_ Hk] Hok].
  eapply IH; [done|by eapply slots_step|]. rewrite <-Hdel. eapply (destroy_accounted fc).
  apply inv_with; [done|by apply acc_take].
Qed.

(** The parts of a loop no event changes. *)
Definition shape (l : EventLoop) : Z * option (Z * Z) := (listener_ l, (λ ib, (ib_read_end ib, ib_write_end ib)) <$> inbox_ l).

Lemma service_shape p l w : shape (service cfg p l w).1 = shape l.
Proof.
  unfold service. destruct (live_ l !! p) as [s|]; [|done]. destruct (on_ready _ _ _) as [c w1].
  destruct (done_ c); [done|]. destruct (want_fd c w1 <? 0); [done|]. destruct (epoch c =? sl_epoch s); [done|]. simpl.
  by destruct (arm _ _ _ _ _) as [[] w2].
Qed.

Lemma adopt_shape fd l w : shape (adopt malloc fd l w).1 = shape l.
Proof.
  unfold adopt. destruct (Connection_new _ _ w) as [c w1]. destruct (want_fd c w1 <? 0); [done|].
  by destruct (arm _ _ _ _ _) as [[] w2].
Qed.

Lemma adopt_all_shape fds l w : shape (adopt_all malloc fds l w).1 = shape l.
Proof.
  revert l w; induction fds as [|fd fds IH]; intros l w; [done|]. simpl. pose proof (adopt_shape fd l w) as H1.
  destruct (adopt malloc fd l w) as [l1 w1]. by rewrite IH.
Qed.

Lemma accept_all_shape n l w : shape (accept_all malloc n l w).1 = shape l.
Proof.
  revert l w; induction n as [|n IH]; intros l w; [done|]. simpl. destruct (accept_one _ _) as [[[] fd] k]; try done.
  pose proof (adopt_shape fd l (set_kern k w)) as H1. destruct (adopt malloc fd l _) as [l1 w1]. by rewrite IH.
Qed.

Lemma handle_shape u l w : shape (handle cfg malloc budget u l w).1 = shape l.
Proof.
  destruct u as [| |p]; simpl; [apply accept_all_shape| |apply service_shape].
  unfold take_from_inbox. destruct (inbox_ l) as [ib|] eqn:Hib; [|done]. simpl. rewrite adopt_all_shape.
  unfold shape. simpl. by rewrite Hib.
Qed.

Lemma handle_all_shape us l w : shape (handle_all cfg malloc budget us l w).1 = shape l.
Proof.
  revert l w; induction us as [|u us IH]; intros l w; [done|]. simpl. pose proof (handle_shape u l w) as H1.
  destruct (handle _ _ _ u l w) as [l1 w1]. by rewrite IH.
Qed.

Lemma poll_loop_shape stops l w : shape (poll_loop cfg malloc budget stops l w).1 = shape l.
Proof.
  revert l w; induction stops as [|b stops IH]; intros l w; [done|]. simpl. destruct b; [done|].
  destruct (sys_kevent_wait _ _ _ _) as [[e|us] k]; [destruct e; try done; apply IH|].
  pose proof (handle_all_shape us l (set_kern k w)) as H1. destruct (handle_all _ _ _ us l _) as [l1 w1]. by rewrite IH.
Qed.

Lemma drain_events_shape us l w : shape (drain_events cfg us l w).1 = shape l.
Proof.
  revert l w; induction us as [|u us IH]; intros l w; [done|]. simpl.
  assert (shape (drain_event cfg u l w).1 = shape l) as Hu by (destruct u; try done; apply service_shape).
  destruct (drain_event cfg u l w) as [l1 w1]. by rewrite IH.
Qed.

Lemma drain_loop_shape n waited l w : shape (drain_loop cfg n waited l w).1 = shape l.
Proof.
  revert waited l w; induction n as [|n IH]; intros waited l w; [done|]. simpl. destruct (_ || _); [done|].
  destruct (sys_kevent_wait _ _ _ _) as [[e|us] k]; [destruct e; try done; apply IH|].
  pose proof (drain_events_shape us l (set_kern k w)) as Hev. destruct (drain_events _ us l _) as [l1 w1]. by rewrite IH.
Qed.

(** What is left after [drain]. *)
Lemma drain_spec B own rounds l w : loop_inv B own l w →
  let '(l', w') := drain cfg rounds l w in
  live_ l' = ∅ ∧ kq_ l' = kq_ l ∧ shape l' = shape l ∧
  all_accounted (λ x, (B x ∨ x ∈ own) ∨ x ∈ inbox_fds l') ∅ w'.
Proof.
  intros Hl. unfold drain. pose proof (drain_loop_inv cfg budget B own malloc Hmalloc rounds 0 l w Hl) as Hd.
  pose proof (drain_loop_shape rounds 0 l w) as Hli.
  destruct (drain_loop cfg rounds 0 l w) as [l1 w1]. destruct Hd as [[[Hss Ha] _] Hkq]. simpl in *.
  split_and!; try done. apply (destroy_all_spec (kq_ l1) (λ _, False) own (inbox_fds l1) _ _ w1).
  - apply NoDup_fst_map_to_list.
  - by rewrite list_to_map_to_list.
  - by rewrite list_to_map_to_list.
Qed.

(** ** A whole run *)

(** What the loop is given: the listener, or the ends of its inbox. *)
Definition given (l : EventLoop) (listener : Z) : list Z :=
  match inbox_ l with Some ib => [ib_read_end ib; ib_write_end ib] | None => [listener] end.

(** A loop that has not run, and what [run] is called with. *)
Record run_start (l : EventLoop) (listener : Z) w : Prop := {
  rs_world : world_ok w;
  rs_kq : kq_ l = -1;
  rs_listener : listener_ l = -1;
  rs_live : live_ l = ∅;
  rs_queue : inbox_fds l = [];
  rs_given fd : fd ∈ given l listener → is_Some (fdt (obs (kern w)) !! fd);
  rs_nodup : NoDup (given l listener);
  rs_regs kq fd d p : regs (obs (kern w)) !! (kq, fd, d) = Some (UConn p) → is_Some (fdt (obs (kern w)) !! kq)
}.

Definition open_elsewhere (l : EventLoop) (listener : Z) w (fd : Z) : Prop :=
  is_Some (fdt (obs (kern w)) !! fd) ∧ fd ∉ given l listener.

Lemma poll_start l listener w b k1 kq k2 fd u ok w3 :
  run_start l listener w → set_nonblocking listener (kern w) = (b, k1) → sys_kqueue k1 = (inr kq, k2) →
  let l' := set_kq kq (set_listener listener l) in
  (∀ p, u ≠ UConn p) → arm l' fd false u (set_kern k2 w) = (ok, w3) →
  loop_start (open_elsewhere l listener w) (kq :: given l listener) l' w3.
Proof.
  intros [Hw Hkq Hli Hlive Hq Hg Hnd Hr] E1 E2 l' Hu E3.
  assert (frame (λ x, x = listener) (obs (kern w)) (obs k1) ∧ fdt (obs k1) = fdt (obs (kern w)) ∧
    regs (obs k1) = regs (obs (kern w))) as (Hf1 & Ht1 & Hr1).
  { apply set_nonblocking_spec in E1 as [[-> _]|(_ & f & fl & Hfd & -> & _)].
    - split; [apply frame_refl, Hw|done].
    - split; [apply frame_setfl; [apply Hw|done]|done]. }
  apply kqueue_ok in E2 as (Hpos & Hnone & Ho2). rewrite Ht1 in Hnone.
  pose proof (world_ok_frame _ _ _ Hw Hf1) as Hw1.
  assert (world_ok (set_kern k2 w)) as Hw2.
  { apply (world_ok_frame (λ _, False) (set_kern k1 w)); [done|]. simpl. rewrite Ho2.
    apply frame_open; [apply Hw1|done|by rewrite Ht1]. }
  assert (kq ∉ given l listener) as Hnin by (intros Hin; destruct (Hg _ Hin) as [f Hf]; congruence).
  pose proof (arm_regs_only l' fd false u (set_kern k2 w) (wo_wf _ Hw2)) as Hro. rewrite E3 in Hro. simpl in Hro.
  assert (∀ x, is_Some (fdt (obs (kern w3)) !! x) ↔ x = kq ∨ is_Some (fdt (obs (kern w)) !! x)) as Hopen.
  { intros x. rewrite (ro_fdt _ _ Hro). simpl. rewrite Ho2. simpl. rewrite Ht1, lookup_insert_is_Some'. naive_solver. }
  assert (∀ x d p, regs (obs (kern w3)) !! (kq, x, d) ≠ Some (UConn p)) as Hreg3.
  { intros x d p. assert (regs (obs k2) !! (kq, x, d) ≠ Some (UConn p)) as H2.
    { rewrite Ho2. simpl. rewrite Hr1. intros Hx%Hr. rewrite Hnone in Hx. by destruct Hx. }
    unfold arm in E3. destruct (sys_ev_add _ _ _ _ _) as [b3 k3] eqn:E4. injection E3 as <- <-. simpl in *. destruct b3.
    - apply ev_add_ok in E4 as [_ ->]. simpl. intros [[_ Hx]|[_ Hx]]%lookup_insert_Some; [by destruct (Hu p)|done].
    - apply ev_add_fail in E4. unfold silent in E4. by rewrite E4. }
  destruct Hro as [[k3 ->] Hw3 Ht Hn Hs Hrc]. simpl in *. split; simpl; try done.
  - destruct Hw2 as [? ? ? Hc]. split; simpl; try done. intros rc Hrcc. destruct (Hc rc Hrcc) as [? Hv]. split; [done|].
    intros key v Hkv. destruct (Hv key v Hkv) as [? Hx]. split; [done|]. unfold exchanged in *. simpl in *. by rewrite Ht, Hn, Hs, Hrc.
  - intros x [->|Hx]%elem_of_cons; apply Hopen; auto.
  - by apply NoDup_cons.
  - intros ib Hib. unfold given. rewrite Hib. set_solver.
  - intros x Hx. apply Hopen in Hx as [->|Hx]; [right; left; set_solver|]. unfold open_elsewhere.
    destruct (decide (x ∈ given l listener)); [right; left; set_solver|by left].
Qed.

(** What may be open when [run] returns: what was open before it, less the listener
unless the loop still has it, the loop's kqueue, clients never taken
from the inbox, and pipes of lookups still going on. *)
Definition leftover (listener : Z) w (l' : EventLoop) w' (fd : Z) : Prop :=
  is_Some (fdt (obs (kern w)) !! fd) ∧ fd ≠ listener ∨ fd = kq_ l' ∨ fd = listener_ l' ∨
  fd ∈ inbox_fds l' ∨ job_fd (jobs (res w')) fd.


Lemma wind_down_shard l0 listener w0 rounds ib l w :
  run_start l0 listener w0 → inbox_ l = Some ib → listener_ l = listener →
  loop_inv (open_elsewhere l0 listener w0) (kq_ l :: given l0 listener) l w →
  let '(l', w') := drain cfg rounds l (disarm l (ib_read_end ib) false w) in
  live_ l' = ∅ ∧ ∀ fd, is_Some (fdt (obs (kern w')) !! fd) → leftover listener w0 l' w' fd.
Proof.
  intros Hrs Hib Hli [Hg Hin]. set (B := open_elsewhere l0 listener w0) in *.
  pose proof (drain_spec B (kq_ l :: given l0 listener) rounds l (disarm l (ib_read_end ib) false w)) as Hd.
  destruct (drain cfg rounds l _) as [l' w']. destruct Hd as (Hl & Hkq & Hsh' & Ha).
  { split; [|done]. apply disarm_own; [done|]. by apply (Hin ib). }
  injection Hsh' as Hli' _. split; [done|]. intros fd Hs. unfold leftover.
  destruct (decide (fd = listener)) as [->|Hne]; [right; right; left; congruence|].
  destruct (Ha fd Hs) as [[[[? _]|[?|Hx]%elem_of_cons]|?]|[(p & s & Hp & _)|?]]; auto 6.
  - right; left. congruence.
  - left. split; [|done]. by apply (rs_given _ _ _ Hrs).
  - by rewrite lookup_empty in Hp.
Qed.

Lemma wind_down_single l0 listener w0 rounds l w :
  run_start l0 listener w0 → inbox_ l = None → inbox_ l0 = None →
  loop_inv (open_elsewhere l0 listener w0) (kq_ l :: given l0 listener) l w →
  let '(l', w') := drain cfg rounds (set_listener (-1) l)
    (set_kern (sys_close listener (kern (disarm l listener false w))) (disarm l listener false w)) in
  live_ l' = ∅ ∧ ∀ fd, is_Some (fdt (obs (kern w')) !! fd) → leftover listener w0 l' w' fd.
Proof.
  intros Hrs Hib Hib0 [Hg Hin]. assert (given l0 listener = [listener]) as Hgv by (unfold given; by rewrite Hib0).
  rewrite Hgv in *. set (B := open_elsewhere l0 listener w0) in *.
  assert (good B [listener; kq_ l] (inbox_fds l) l (disarm l listener false w)) as Hg1.
  { apply disarm_own; [|set_solver]. eapply good_own_perm, Hg. apply Permutation_swap. }
  apply good_disown in Hg1 as [Hs1 Ha1]. set (w1 := set_kern _ _) in *.
  pose proof (drain_spec B [kq_ l] rounds (set_listener (-1) l) w1) as Hd.
  destruct (drain cfg rounds _ _) as [l' w']. destruct Hd as (Hl & Hkq & Hsh' & Ha).
  { split; [by split|]. simpl. by rewrite Hib. }
  split; [done|]. intros fd Hs. unfold leftover.
  destruct (Ha fd Hs) as [[[[? Hn]|Hx]|?]|[(p & s & Hp & _)|?]]; auto 6.
  - left. split; [done|]. intros ->. apply Hn. rewrite Hgv. set_solver.
  - right; left. apply list_elem_of_singleton in Hx. simpl in Hkq. congruence.
  - by rewrite lookup_empty in Hp.
Qed.

(** A run of the loop leaves nothing behind.  Whatever events arrive and
however many connections were accepted, when [run] returns no connection is live
and every descriptor still open was open before the run, or is the loop's own
kqueue, or belongs to a lookup in progress; on a normal exit the listener
is closed. *)
Lemma run_leaves_nothing listener stops rounds l w :
  run_start l listener w →
  let '(l', w') := run cfg malloc budget listener stops rounds l w in
  live_ l' = ∅ ∧ ∀ fd, is_Some (fdt (obs (kern w')) !! fd) → leftover listener w l' w' fd.
Proof.
  intros Hrs. unfold run, run_begin, run_unlisten, Fd_reset. rewrite (rs_listener _ _ _ Hrs). change (valid (-1)) with false. cbn iota.
  destruct (set_nonblocking listener (kern w)) as [b k1] eqn:E1.
  destruct (sys_kqueue k1) as [[e|kq] k2] eqn:E2; cbn [set_listener kq_]; rewrite (rs_kq _ _ _ Hrs);
    change (valid (-1)) with false; cbn iota.
  { split; [apply Hrs|]. simpl. apply kqueue_err in E2 as [E2 _]. unfold silent in E2. rewrite E2.
    assert (fdt (obs k1) = fdt (obs (kern w))) as ->.
    { by apply set_nonblocking_spec in E1 as [[-> _]|(_ & f & fl & _ & -> & _)]. }
    intros fd Hs. unfold leftover. simpl. destruct (decide (fd = listener)); auto. }
  set (l1 := set_kq kq (set_listener listener l)). change (inbox_ l1) with (inbox_ l).
  destruct (match inbox_ l with Some ib => _ | None => _ end) as [ok w3] eqn:E3.
  assert (loop_start (open_elsewhere l listener w) (kq :: given l listener) l1 w3) as Hst.
  { destruct (inbox_ l).
    - by eapply (poll_start l listener w b k1 kq k2 _ UInbox).
    - by eapply (poll_start l listener w b k1 kq k2 _ UNull). }
  destruct ok; cbn [negb].
  2: { split; [apply Hrs|]. intros fd Hs. unfold leftover. destruct (decide (fd = listener)) as [->|Hne]; [auto|].
       destruct (st_acc _ _ _ _ Hst fd Hs) as [[? _]|[[->|Hx]%elem_of_cons|?]]; auto.
       left. split; [|done]. by apply (rs_given _ _ _ Hrs). }
  pose proof (poll_loop_inv cfg budget _ _ malloc Hmalloc stops l1 w3 (loop_start_inv _ _ _ _ Hst)) as Hp.
  pose proof (poll_loop_shape stops l1 w3) as Hsh. destruct (poll_loop _ _ _ stops l1 w3) as [l2 w2].
  destruct Hp as [Hinv Hkq]. injection Hsh as Hli Hib. change kq with (kq_ l1) in Hinv. rewrite <-Hkq in Hinv.
  simpl in Hli, Hib. destruct (inbox_ l2) as [ib2|] eqn:Hib2.
  - by apply (wind_down_shard l).
  - rewrite Hli. destruct (inbox_ l) as [ib|] eqn:Hibl; [done|]. assert (valid listener = true) as ->.
    { destruct (rs_given _ _ _ Hrs listener) as [f Hf]; [unfold given; rewrite Hibl; set_solver|]. apply Z.leb_le.
      by eapply (ow_pos _ (wo_wf _ (rs_world _ _ _ Hrs))), Hf. }
    by apply (wind_down_single l).
Qed.
End reach.

(** ** The properties *)

Section claims.
Context {K C : Type} `{!Kernel K, !KernelLaws K, !ResponseCache C, !ResponseCacheLaws C}.
Implicit Type w : World K C.
Context (cfg : Config) (malloc : gset nat → nat) (Hmalloc : ∀ X, malloc X ∉ X) (budget : nat).

(** C2: One registration per connection.  In every reachable state of the loop, a
live connection is registered on the kqueue for the descriptor and direction it
waits for, for nothing else, and that descriptor is open; and a registration that
carries an address carries that of a live connection, even though addresses are
reused. *)
Theorem one_registration_each B own l w :
  loop_reach cfg malloc budget B own l w →
  let o := obs (kern w) in
  (∀ p s, live_ l !! p = Some s →
    is_Some (fdt o !! want_fd (sl_conn s) w) ∧
    ∀ fd d, regs o !! (kq_ l, fd, d) = Some (UConn p) ↔ fd = want_fd (sl_conn s) w ∧ d = want_write (sl_conn s)) ∧
  (∀ fd d p, regs o !! (kq_ l, fd, d) = Some (UConn p) → is_Some (live_ l !! p)).
Proof using Hmalloc KernelLaws0 ResponseCacheLaws0.
  intros [[Hss _] _]%(reach_inv cfg malloc budget Hmalloc) o. split.
  - intros p s Hp. destruct (ss_slot _ _ _ _ _ _ Hss p s Hp) as [[fc Hi] Hd Hfd Hwr _ Hreg]. rewrite <-Hfd, <-Hwr.
    split; [rewrite Hfd; by apply (want_open _ _ _ _ Hi Hd)|]. intros fd d. split; [|by intros [-> ->]].
    intros Hu. destruct (ss_only _ _ _ _ _ _ Hss fd d p (λ x, x) Hu) as (t & Ht & ? & ?). by simplify_eq.
  - intros fd d p Hu. destruct (ss_only _ _ _ _ _ _ Hss fd d p (λ x, x) Hu) as (t & Ht & _). by eexists.
Qed.
End claims.

(** ** A concrete loop *)

Definition malloc_max (X : gset nat) : nat := S (max_list (elements X)).

Lemma malloc_max_fresh X : malloc_max X ∉ X.
Proof.
  intros Hin%elem_of_elements. pose proof (max_list_elem_of_le _ _ Hin). unfold malloc_max in *. lia.
Qed.

(** A listener on descriptor 0, one client about to connect, and the events
the kernel reports. *)
Definition el_chunks (f : nat) : list str :=
  match f with 2%nat => [demo_ask] | 3%nat => demo_reply | _ => [] end.
Definition el_events : list (list UData) := [[UNull]; [UConn 1]; [UConn 1; UConn 5]; [UConn 1]; [UConn 1]; [UConn 1]; [UConn 1]].
Definition el_sim (o : Obs) : Sim := mkSim o 0 0 el_chunks (inr [loopback]) 1 el_events.
Definition el_world (o : Obs) : World Sim LruCache :=
  mkWorld (el_sim o) (Resolver_new 30 0) (Some (LruCacheImpl NullMutex 8 4096)).

Lemma el_world_ok o : obs_wf o → world_ok (el_world o).
Proof.
  intros Ho. split; simpl; try done.
  - intros j [jb Hj]. by apply (lookup_empty_Some j jb) in Hj.
  - intros c [= <-]. split; [exists []; apply in_step_new|]. intros key v H. by apply (lookup_empty_Some key v) in H.
Qed.

Definition el_obs1 : Obs := obs_open 0 obs0.
Definition el_obs2 : Obs := obs_open 1 el_obs1.

Lemma el_obs1_wf : obs_wf el_obs1.
Proof. by apply (obs_open_wf 0 obs0 obs0_wf). Qed.

Lemma el_obs2_wf : obs_wf el_obs2.
Proof. by apply (obs_open_wf 1 el_obs1 el_obs1_wf). Qed.

(** The loop when it starts polling, and after the first event. *)
Definition el_loop : EventLoop := mkLoop 1 0 ∅ None 0 0.
Definition el_after (us : list UData) : EventLoop * World Sim LruCache :=
  handle_all demo_cfg malloc_max 4 us el_loop (el_world el_obs2).

Lemma el_start : loop_start (λ _, False) [1; 0] el_loop (el_world el_obs2).
Proof.
  split; try done.
  - apply el_world_ok, el_obs2_wf.
  - intros fd [->|[->|Hn]%elem_of_cons]%elem_of_cons; [by eexists|by eexists|by apply not_elem_of_nil in Hn].
  - apply NoDup_cons. split; [set_solver|apply NoDup_singleton].
  - intros fd [f Hf]. right; left. simpl in Hf. repeat apply lookup_insert_Some in Hf as [[<- _]|[_ Hf]]; set_solver.
Qed.

Lemma el_reach us : loop_reach demo_cfg malloc_max 4 (λ _, False) [1; 0] (el_after us).1 (el_after us).2.
Proof.
  unfold el_after. generalize (lr_start demo_cfg malloc_max 4 _ _ _ _ el_start). generalize el_loop, (el_world el_obs2).
  induction us as [|u us IH]; intros l w H; [done|]. simpl. destruct (handle _ _ _ u l w) as [l1 w1] eqn:E.
  apply IH. by eapply lr_event.
Qed.

Lemma one_registration_each_witness :
  regs (obs (kern (el_after [UNull; UConn 1]).2)) !! (1, 3, true) = Some (UConn 1) ∧
  is_Some (live_ (el_after [UNull; UConn 1]).1 !! 1%nat).
Proof.
  split; [vm_compute; reflexivity|].
  refine (proj2 (one_registration_each demo_cfg malloc_max malloc_max_fresh 4 _ _ _ _ (el_reach [UNull; UConn 1])) 3 true 1%nat _).
  vm_compute. reflexivity.
Defined.

Definition el_run : EventLoop * World Sim LruCache :=
  run demo_cfg malloc_max 4 0 (repeat false 9 ++ [true]) 3 EventLoop_new (el_world el_obs1).

Example run_demo :
  accepted_ el_run.1 = 1 ∧ sent (obs (kern el_run.2)) 2%nat = concat demo_reply ∧
  live_ el_run.1 = ∅ ∧ (∀ fd, is_Some (fdt (obs (kern el_run.2)) !! fd) → leftover 0 (el_world el_obs1) el_run.1 el_run.2 fd).
Proof.
  split; [vm_compute; reflexivity|]. split; [vm_compute; reflexivity|].
  assert (run_start EventLoop_new 0 (el_world el_obs1)) as Hrs.
  { split; try done.
    - apply el_world_ok, el_obs1_wf.
    - intros fd ->%list_elem_of_singleton. by eexists.
    - apply NoDup_singleton. }
  pose proof (run_leaves_nothing demo_cfg malloc_max 4 malloc_max_fresh 0 (repeat false 9 ++ [true]) 3 EventLoop_new (el_world el_obs1) Hrs) as H.
  unfold el_run. destruct (run _ _ _ _ _ _ _ _) as [l w]. exact H.
Defined.
