(* ===== verification/LoopFootprint.v ===== *)
(** * What one event loop touches

[handle] works on the descriptors of its loop (its own, the clients waiting in
its inbox, those of its live connections), on the lookups of its connections and
on the registrations of its own kqueue, and takes over only descriptors and
lookups that are new.  This is what lets several loops share a kernel and a
resolver. *)
From S2P Require Import Prelude CppString Http Config Cache CacheSpec Kernel SimKernel Socket SocketSpec Resolver ResolverSpec.
From S2P Require Import Connection ConnectionInv ConnectionSpec EventLoop EventLoopInv EventLoopSpec.

Section footprint.
Context {K C : Type} `{!Kernel K, !KernelLaws K, !ResponseCache C, !ResponseCacheLaws C}.
Implicit Type w : World K C.
Abbreviation inv fc := (conn_inv fc (λ _, True)).

(** ** Effects on the shared state *)

(** From [w] to [w'] only descriptors of [D], lookups of [J] and registrations
on [kq] were concerned. *)
Record acts (kq : Z) (D : Z → Prop) (J : nat → Prop) w w' : Prop := {
  ac_frame : wframe D (obs (kern w)) (obs (kern w'));
  ac_regs kq' : kq' ≠ kq → kept_on kq' (obs (kern w)) (obs (kern w'));
  ac_jobs j jb : jobs (res w) !! j = Some jb → ¬ J j → jobs (res w') !! j = Some jb;
  ac_fresh : jobs_fresh (res w');
  ac_dns : cache_filled (res w')
}.

Lemma acts_refl kq D J w : world_ok w → acts kq D J w w.
Proof. intros [? ? ? ?]. split; try done; [by apply wframe_refl|]. by intros kq' _ fd d u Hu. Qed.

Lemma acts_trans kq D J D1 J1 w w1 w2 :
  obs_wf (obs (kern w)) → acts kq D J w w1 → acts kq D1 J1 w1 w2 →
  (∀ fd f, D1 fd → fdt (obs (kern w1)) !! fd = Some f → D fd ∨ (nfiles (obs (kern w)) ≤ f)%nat) →
  (∀ j, J1 j → is_Some (jobs (res w) !! j) → J j) → acts kq D J w w2.
Proof.
  intros Hw [f1 r1 j1 _ _] [f2 r2 j2 ? ?] HD HJ. split; try done.
  - by eapply wframe_trans.
  - intros kq' Hne fd d u Hu. by apply (r1 kq' Hne), (r2 kq' Hne).
  - intros j jb Hj Hn. apply j2; [by apply j1|]. intros Hj1. apply Hn, HJ; [done|by eexists].
Qed.

Lemma acts_mono kq (D D' : Z → Prop) (J J' : nat → Prop) w w' :
  (∀ fd, D fd → D' fd) → (∀ j, J j → J' j) → acts kq D J w w' → acts kq D' J' w w'.
Proof. intros HD HJ [Hf ? Hj ? ?]. split; try done; [|by intros; apply Hj; auto]. eapply wframe_mono, Hf. auto. Qed.

Lemma acts_kern kq D w k : world_ok w → frame D (obs (kern w)) (obs k) → acts kq D (λ _, False) w (set_kern k w).
Proof. intros [? ? ? ?] [Hf Hk]. split; simpl; try done. intros kq' _. by apply regs_kept_on. Qed.

Lemma wframe_arm kq fd d u o : obs_wf o → is_Some (fdt o !! fd) → wframe (λ x, x = fd) o (obs_arm kq fd d u o).
Proof.
  intros Hw Hs. split; simpl; auto; [by apply obs_arm_wf|]. intros kq' x d' _ Hn. apply lookup_insert_ne. by intros [= _ ->].
Qed.

Lemma wframe_disarm kq fd d o : obs_wf o → wframe (λ x, x = fd) o (obs_disarm kq fd d o).
Proof.
  intros Hw. split; simpl; auto; [by apply obs_disarm_wf|]. intros kq' x d' _ Hn. apply lookup_delete_ne. by intros [= _ ->].
Qed.

Lemma disarm_acts l fd d w : world_ok w → acts (kq_ l) (λ x, x = fd) (λ _, False) w (disarm l fd d w).
Proof.
  intros Hw. unfold disarm. destruct (fd <? 0); [by apply acts_refl|].
  destruct (sys_ev_delete _ _ _ _) as [b k] eqn:E. apply ev_delete_ok in E. destruct Hw as [? ? ? _]. split; simpl; rewrite ?E; try done.
  - by apply wframe_disarm.
  - intros kq' Hne x d' u. simpl. by intros [_ Hu]%lookup_delete_Some.
Qed.

Lemma arm_acts l fd d u w : world_ok w → acts (kq_ l) (λ x, x = fd) (λ _, False) w (arm l fd d u w).2.
Proof.
  intros [? ? ? _]. unfold arm. destruct (sys_ev_add _ _ _ _ _) as [b k] eqn:E. destruct b.
  - apply ev_add_ok in E as [Hs E]. split; simpl; rewrite ?E; try done.
    + by apply wframe_arm.
    + intros kq' Hne x d' u'. simpl. intros [[Heq _]|[_ Hu]]%lookup_insert_Some; [congruence|done].
  - apply ev_add_fail in E. unfold silent in E. split; simpl; rewrite ?E; try done; [by apply wframe_refl|].
    by intros kq' _ x d' u' Hu.
Qed.

Lemma step_acts kq fc c w cw :
  step_ok fc (λ _, True) c w cw → acts kq (owned c (jobs (res w))) (λ j, resolve_job_ c = Some j) w cw.2.
Proof.
  intros Hs. destruct (step_others _ _ _ _ Hs) as [? ? ? ? _]. split; try done.
  intros kq' _. apply regs_kept_on. by destruct (so_frame _ _ _ _ _ Hs).
Qed.

Lemma destroy_acts kq fc c w :
  inv fc c w → acts kq (owned c (jobs (res w))) (λ j, resolve_job_ c = Some j) w (Connection_destroy c w).
Proof.
  intros Hi. destruct (destroy_ok _ _ _ Hi) as [[_ Hk] [? ? ? ? _]]. split; try done.
  intros kq' _. by apply regs_kept_on.
Qed.

(** A connection whose lookup was not concerned owns what it owned. *)
Lemma acts_owned kq fc D J t w w' fd :
  acts kq D J w w' → inv fc t w → (∀ j, resolve_job_ t = Some j → ¬ J j) →
  owned t (jobs (res w')) fd → owned t (jobs (res w)) fd.
Proof.
  intros Ha Hi HJ [?|[?|(j & jb & Hj & Hjb & Ho)]]; [by left|by right; left|right; right].
  destruct (job_present _ _ _ _ Hi Hj) as [jb0 Hjb0]. pose proof (ac_jobs _ _ _ _ _ Ha j jb0 Hjb0 (HJ j Hj)). simplify_eq. eauto 10.
Qed.

(** ** The footprint of a loop *)

Definition loop_fd (own Q : list Z) (m : gmap nat Slot) w (fd : Z) : Prop :=
  fd ∈ own ++ Q ∨ ∃ p s, m !! p = Some s ∧ owned (sl_conn s) (jobs (res w)) fd.

Definition loop_job (m : gmap nat Slot) (j : nat) : Prop :=
  ∃ p s, m !! p = Some s ∧ resolve_job_ (sl_conn s) = Some j.

#[local] Instance loop_job_dec m j : Decision (loop_job m j).
Proof.
  assert (∀ (i : nat) (s : Slot), Decision (resolve_job_ (sl_conn s) = Some j)) by (intros; apply _).
  exact (map_Exists_dec (λ _ s, resolve_job_ (sl_conn s) = Some j) m).
Defined.

(** The loop kept to what was its own, and what is its own now was before or is new. *)
Record footprint (kq : Z) (own Q : list Z) (m : gmap nat Slot) w (Q' : list Z) (m' : gmap nat Slot) w' : Prop := {
  fp_acts : acts kq (loop_fd own Q m w) (loop_job m) w w';
  fp_fd fd f : loop_fd own Q' m' w' fd → fdt (obs (kern w')) !! fd = Some f →
    loop_fd own Q m w fd ∨ (nfiles (obs (kern w)) ≤ f)%nat;
  fp_job j : loop_job m' j → is_Some (jobs (res w) !! j) → loop_job m j
}.

Lemma footprint_refl kq own Q m w : world_ok w → footprint kq own Q m w Q m w.
Proof. intros Hw. split; auto. by apply acts_refl. Qed.

Lemma footprint_trans kq own Q m w Q1 m1 w1 Q2 m2 w2 :
  obs_wf (obs (kern w)) → footprint kq own Q m w Q1 m1 w1 → footprint kq own Q1 m1 w1 Q2 m2 w2 →
  footprint kq own Q m w Q2 m2 w2.
Proof.
  intros Hw [a1 d1 j1] [a2 d2 j2]. split; [by eapply acts_trans| |].
  - intros fd f Hfd Hf. pose proof (fr_nfiles _ _ _ (ac_frame _ _ _ _ _ a1)) as Hn.
    destruct (d2 fd f Hfd Hf) as [H1|?]; [|right; lia].
    destruct (fr_new _ _ _ (ac_frame _ _ _ _ _ a2) _ _ Hf) as [H|?]; [by apply d1|right; lia].
  - intros j Hj [jb Hjb]. destruct (decide (loop_job m j)) as [|Hn]; [done|].
    apply j1; [|by eexists]. apply j2; [done|]. exists jb. by apply (ac_jobs _ _ _ _ _ a1).
Qed.

(** ** The steps of a handler *)

Section steps.
Context (kq : Z) (ex : nat → Prop) (own Q : list Z) (m : gmap nat Slot) (w : World K C).
Context (Hss : slots_ok kq ex own Q m w).

(** Something happened on descriptors the loop holds itself. *)
Lemma kern_footprint D k :
  frame D (obs (kern w)) (obs k) → (∀ fd, D fd → fd ∈ own) → footprint kq own Q m w Q m (set_kern k w).
Proof.
  intros Hf HD. split; simpl; auto. eapply acts_mono, acts_kern; [|done|apply Hss|exact Hf]. intros fd ?. left. set_solver.
Qed.

(** A client was accepted. *)
Lemma opened_footprint fd k : opened fd (kern w) k → footprint kq own Q m w (fd :: Q) m (set_kern k w).
Proof.
  intros (Hpos & Hn & Ho). pose proof (wo_wf _ (ss_world _ _ _ _ _ _ Hss)) as Hw.
  pose proof (frame_open fd _ Hw Hpos Hn) as Hf. rewrite <-Ho in Hf. split; simpl; auto.
  - eapply acts_mono, acts_kern; [| |apply Hss|exact Hf]; done.
  - intros x f [Hx|Hx] Hf'; [|left; by right]. rewrite Ho in Hf'. simpl in Hf'.
    apply lookup_insert_Some in Hf' as [[<- <-]|[Hne Hf']]; [by right|left; left; set_solver].
Qed.

(** Connection [p] acted; it is gone, or back as [c']. *)
Lemma conn_footprint p s w' m' :
  m !! p = Some s → acts kq (owned (sl_conn s) (jobs (res w))) (λ j, resolve_job_ (sl_conn s) = Some j) w w' →
  (∀ q t, m' !! q = Some t → q ≠ p ∧ m !! q = Some t ∨
    (∀ fd f, owned (sl_conn t) (jobs (res w')) fd → fdt (obs (kern w')) !! fd = Some f →
      owned (sl_conn s) (jobs (res w)) fd ∨ (nfiles (obs (kern w)) ≤ f)%nat) ∧
    (∀ j, resolve_job_ (sl_conn t) = Some j → is_Some (jobs (res w) !! j) → resolve_job_ (sl_conn s) = Some j)) →
  footprint kq own Q m w Q m' w'.
Proof.
  intros Hp Ha Hm. split.
  - eapply acts_mono, Ha; [intros fd Ho; right; eauto|]. intros j Hj. by exists p, s.
  - intros fd f [?|(q & t & Hq & Ho)] Hf; [left; by left|]. destruct (Hm q t Hq) as [[Hne Hqm]|[Hfd _]].
    + left. right. exists q, t. split; [done|]. destruct (sk_conn _ _ _ _ (ss_slot _ _ _ _ _ _ Hss q t Hqm)) as [fc Hi].
      eapply acts_owned; [exact Ha|done| |done]. intros j Hj. simpl. intros Hs.
      by eapply (proj2 (ss_apart _ _ _ _ _ _ Hss q p t s Hne Hqm Hp)).
    + destruct (Hfd fd f Ho Hf) as [?|?]; [left; right; eauto|by right].
  - intros j (q & t & Hq & Hj) Hs. destruct (Hm q t Hq) as [[_ Hqm]|[_ Hjob]]; [by exists q, t|]. exists p, s. auto.
Qed.

Lemma conn_gone p s w' :
  m !! p = Some s → acts kq (owned (sl_conn s) (jobs (res w))) (λ j, resolve_job_ (sl_conn s) = Some j) w w' →
  footprint kq own Q m w Q (delete p m) w'.
Proof. intros Hp Ha. eapply conn_footprint; [done..|]. intros q t [? ?]%lookup_delete_Some. left. auto. Qed.
End steps.

Context (cfg : Config).

Lemma service_footprint own Q p l w :
  slots_ok (kq_ l) (λ _, False) own Q (live_ l) w →
  let '(l', w') := service cfg p l w in footprint (kq_ l) own Q (live_ l) w Q (live_ l') w'.
Proof.
  intros Hss. pose proof (ss_world _ _ _ _ _ _ Hss) as Hwo. unfold service.
  destruct (live_ l !! p) as [s|] eqn:Hp; [|by apply footprint_refl].
  destruct (ss_slot _ _ _ _ _ _ Hss p s Hp) as [[fc Hi] Hd Hfd Hwr Hep Hreg].
  destruct (want_open _ _ _ _ Hi Hd) as (_ & _ & Hown). rewrite <-Hfd in Hown.
  pose proof (on_ready_ok cfg fc _ _ _ Hi) as Hstep. destruct (on_ready cfg (sl_conn s) w) as [c' w1] eqn:E.
  pose proof (step_acts (kq_ l) _ _ _ _ Hstep) as A1. destruct Hstep as [Hi' _ Hso Hsj _]. simpl in *.
  assert (∀ j, resolve_job_ c' = Some j → is_Some (jobs (res w) !! j) → resolve_job_ (sl_conn s) = Some j) as Hjob.
  { intros j Hj [jb Hjb]. destruct (decide (resolve_job_ (sl_conn s) = Some j)); [done|]. by destruct (Hsj j jb Hjb). }
  assert (world_ok w1) as Hwo1 by (destruct (ci_base _ _ _ _ Hi'); by split).
  pose proof (wo_wf _ Hwo) as Hw. pose proof (wo_wf _ Hwo1) as Hw1.
  pose proof (disarm_regs_only l (sl_fd s) (sl_write s) w1 Hw1) as Hro2.
  pose proof (disarm_acts l (sl_fd s) (sl_write s) w1 Hwo1) as A2.
  pose proof (regs_only_inv _ _ _ _ _ Hi' Hro2) as Hi2. set (w2 := disarm l (sl_fd s) (sl_write s) w1) in *.
  assert (acts (kq_ l) (owned (sl_conn s) (jobs (res w))) (λ j, resolve_job_ (sl_conn s) = Some j) w w2) as A12.
  { eapply acts_trans; [done|exact A1|exact A2| |done]. intros x f -> _. by left. }
  (* a connection [c'] of [w3], which has the descriptors and lookups of [w1] *)
  assert (∀ w3, inv fc c' w3 → fdt (obs (kern w3)) = fdt (obs (kern w1)) → res w3 = res w1 →
    acts (kq_ l) (owned (sl_conn s) (jobs (res w))) (λ j, resolve_job_ (sl_conn s) = Some j) w w3 →
    footprint (kq_ l) own Q (live_ l) w Q (delete p (live_ l)) (Connection_destroy c' w3)) as Hgone.
  { intros w3 Hi3 Ht3 Hr3 A3. apply (conn_gone _ _ _ _ _ _ Hss _ _ _ Hp).
    eapply acts_trans; [done|exact A3|by eapply destroy_acts| |done]. rewrite Hr3, Ht3. apply Hso. }
  assert (∀ w3 s', fdt (obs (kern w3)) = fdt (obs (kern w1)) → res w3 = res w1 → sl_conn s' = c' →
    acts (kq_ l) (owned (sl_conn s) (jobs (res w))) (λ j, resolve_job_ (sl_conn s) = Some j) w w3 →
    footprint (kq_ l) own Q (live_ l) w Q (<[p := s']> (live_ l)) w3) as Hback.
  { intros w3 s' Ht3 Hr3 <- A3. apply (conn_footprint _ _ _ _ _ _ Hss p s); [done..|].
    intros q t [[<- <-]|[? ?]]%lookup_insert_Some; [right|left; auto]. rewrite Ht3, Hr3. auto. }
  destruct Hro2 as [[k2 Hk2] Hw2 Ht2 _ _ _].
  assert (res w2 = res w1) as Hr2 by by rewrite Hk2.
  destruct (done_ c') eqn:Hd'; [by apply Hgone|]. destruct (_ <? 0); [by apply Hgone|].
  destruct (epoch c' =? sl_epoch s); simpl; [by apply Hback|].
  assert (world_ok w2) as Hwo2 by (destruct (ci_base _ _ _ _ Hi2); by split).
  pose proof (arm_acts l (want_fd c' w1) (want_write c') (UConn p) w2 Hwo2) as A3.
  pose proof (arm_regs_only l (want_fd c' w1) (want_write c') (UConn p) w2 Hw2) as Hro3.
  pose proof (regs_only_inv _ _ _ _ _ Hi2 Hro3) as Hi3. destruct (want_open _ _ _ _ Hi' Hd') as (_ & _ & Hown').
  destruct (arm l (want_fd c' w1) (want_write c') (UConn p) w2) as [ok w3]. simpl in *.
  destruct Hro3 as [[k3 ->] _ Ht3 _ _ _]. simpl in *.
  assert (acts (kq_ l) (owned (sl_conn s) (jobs (res w))) (λ j, resolve_job_ (sl_conn s) = Some j) w (set_kern k3 w2)) as A13.
  { eapply acts_trans; [done|exact A12|exact A3| |done]. intros x f -> Hx. rewrite Ht2 in Hx. by apply Hso. }
  destruct ok; simpl; [apply Hback|apply Hgone]; simpl; try done; congruence.
Qed.

(** ** Handlers that take clients *)

(** The acceptor hands a client to the loop. *)
Lemma hand_over_footprint B own lfd l w ib fd k ib' k' :
  loop_inv B own l w → inbox_ l = Some ib → accept_one lfd (kern w) = ((AcceptOk, fd), k) →
  Inbox_push fd ib k = (ib', k') →
  footprint (kq_ l) own (inbox_fds l) (live_ l) w (inbox_fds (set_inbox (Some ib') l)) (live_ l) (set_kern k' w).
Proof.
  intros [Hg Hin] Hib Ha%accept_one_spec Hp. destruct (Hin ib Hib) as [_ Hwr]. pose proof (gd_slots _ _ _ _ _ Hg) as Hss.
  unfold inbox_fds in *. simpl. rewrite Hib in *.
  pose proof (opened_footprint _ _ _ _ _ _ Hss fd k Ha) as H1. pose proof (slots_opened _ _ _ _ _ _ _ _ Hss Ha) as Hss1.
  unfold Inbox_push in Hp. simpl in Hp. destruct (sys_write _ _ k) as [r k2] eqn:E. injection Hp as <- <-.
  assert (footprint (kq_ l) own (fd :: ib_queue ib) (live_ l) (set_kern k w) (fd :: ib_queue ib) (live_ l) (set_kern k2 (set_kern k w))) as H2.
  { destruct r as [e|n].
    - apply write_err in E as [E _]. apply (kern_footprint _ _ _ _ _ _ Hss1 (λ _, False)); [|done]. simpl.
      unfold silent in E. rewrite E. apply frame_refl. apply Hss1.
    - apply write_ok in E as (_ & f & Hf & E). apply (kern_footprint _ _ _ _ _ _ Hss1 (λ x, x = ib_write_end ib)); [|by intros x ->].
      eapply send_effect_frame; [apply Hss1|]. by eapply send_effect_obs. }
  pose proof (footprint_trans _ _ _ _ _ _ _ _ _ _ _ (wo_wf _ (ss_world _ _ _ _ _ _ Hss)) H1 H2) as [Ha' Hd Hj].
  split; [done| |done]. intros x f Hx Hf. apply (Hd x f); [|done]. simpl in Hx. destruct Hx as [Hx|Hx]; [left; set_solver|by right].
Qed.

Lemma destroy_all_footprint kq ex own Q L w :
  NoDup L.*1 → slots_ok kq ex own Q (list_to_map L) w → footprint kq own Q (list_to_map L) w Q ∅ (destroy_all L w).
Proof.
  revert ex w. induction L as [|[p s] L IH]; intros ex w Hnd Hss; simpl in *; [apply footprint_refl, Hss|].
  apply NoDup_cons in Hnd as [Hnin Hnd]. set (m := <[p := s]> (list_to_map L : gmap nat Slot)) in *.
  assert (m !! p = Some s) as Hp by apply lookup_insert_eq.
  assert (delete p m = list_to_map L) as Hdel by by apply delete_insert_id, not_elem_of_list_to_map_1.
  destruct (slots_forget _ _ _ _ _ _ _ _ Hss Hp) as [Hss1 Hal].
  destruct (sk_conn _ _ _ _ (ss_slot _ _ _ _ _ _ Hss p s Hp)) as [fc Hi]. destruct (destroy_ok _ _ _ Hi) as [[_ Hk] Hok].
  pose proof (conn_gone _ _ _ _ _ _ Hss p s _ Hp (destroy_acts kq _ _ _ Hi)) as H1. rewrite Hdel in *.
  eapply footprint_trans; [apply Hss|exact H1|]. eapply IH; [done|]. by eapply slots_step.
Qed.

(** Something happened on the loop's own descriptors and registrations. *)
Lemma own_footprint own Q m w w' kq D :
  acts kq D (λ _, False) w w' → res w' = res w → (∀ fd, D fd → fd ∈ own) → footprint kq own Q m w Q m w'.
Proof.
  intros Ha Hr HD. split; [|unfold loop_fd; rewrite Hr; auto|auto].
  eapply acts_mono, Ha; [|done]. intros fd ?. left. set_solver.
Qed.

Context (malloc : gset nat → nat) (Hmalloc : ∀ X, malloc X ∉ X) (budget : nat).

Lemma adopt_inbox fd l w : inbox_ (adopt malloc fd l w).1 = inbox_ l.
Proof.
  unfold adopt. destruct (Connection_new _ _ w) as [c w1]. destruct (want_fd c w1 <? 0); [done|].
  by destruct (arm _ _ _ _ _) as [[] w2].
Qed.

Lemma adopt_all_inbox fds l w : inbox_ (adopt_all malloc fds l w).1 = inbox_ l.
Proof.
  revert l w; induction fds as [|fd fds IH]; intros l w; [done|]. simpl. pose proof (adopt_inbox fd l w) as H1.
  destruct (adopt malloc fd l w) as [l1 w1]. by rewrite IH.
Qed.

Lemma adopt_footprint own Q fd l w :
  slots_ok (kq_ l) (λ _, False) own (fd :: Q) (live_ l) w →
  let '(l', w') := adopt malloc fd l w in footprint (kq_ l) own (fd :: Q) (live_ l) w Q (live_ l') w'.
Proof.
  intros Hss. pose proof (ss_world _ _ _ _ _ _ Hss) as Hwo. pose proof (wo_wf _ Hwo) as Hw.
  unfold adopt. cbn [count_accepted live_ kq_ inbox_ next_id_]. set (raw := malloc (dom (live_ l))).
  destruct (ss_queue _ _ _ _ _ _ Hss fd) as (fc & Hown & Hs & Hr & _); [set_solver|].
  assert (fresh_client fd fc w) as Hfc by (destruct Hwo; by split).
  destruct (Connection_new_inv fd (next_id_ l) fc w Hfc) as [Hi Hf]. unfold Connection_new in *.
  destruct (set_nonblocking fd (kern w)) as [b k]. simpl in Hi, Hf.
  set (c := mkConn fd _ _ _ _ _ _ _ _ _ _ _ _ _ _ _ _ _ _ _) in *.
  pose proof (acts_kern (kq_ l) _ _ _ Hwo Hf) as A1. pose proof (ci_base _ _ _ _ Hi) as Hb1.
  assert (world_ok (set_kern k w)) as Hwo1 by (destruct Hb1; by split).
  assert (∀ w3 x, obs_wf (obs (kern w3)) → is_Some (fdt (obs (kern w3)) !! x) → owned c (jobs (res w3)) x → x = fd) as Hone.
  { intros w3 x Hw3 [f Hx] [?|[->|(j & jb & ? & _)]]; [done| |done]. apply (ow_pos _ Hw3) in Hx. simpl in Hx. lia. }
  (* the loop afterwards has its old connections and possibly [c] *)
  assert (∀ w3 m', acts (kq_ l) (λ x, x = fd) (λ _, False) w w3 →
    (∀ q t, m' !! q = Some t → live_ l !! q = Some t ∨ sl_conn t = c) →
    footprint (kq_ l) own (fd :: Q) (live_ l) w Q m' w3) as Hfp.
  { intros w3 m' A3 Hm. split.
    - eapply acts_mono, A3; [|done]. intros x ->. left. set_solver.
    - intros x f [Hx|(q & t & Hq & Ho)] Hxf; [left; left; set_solver|]. left. destruct (Hm q t Hq) as [Hqm|Htc].
      + right. exists q, t. split; [done|]. destruct (sk_conn _ _ _ _ (ss_slot _ _ _ _ _ _ Hss q t Hqm)) as [fq Hq'].
        by eapply (acts_owned _ _ _ _ _ _ _ _ A3 Hq'); [intros ? ? []|].
      + left. rewrite Htc in Ho. rewrite (Hone w3 x (fr_wf _ _ _ (ac_frame _ _ _ _ _ A3)) (mk_is_Some _ _ Hxf) Ho). set_solver.
    - intros j (q & t & Hq & Hj) _. destruct (Hm q t Hq) as [?|Htc]; [by exists q, t|]. by rewrite Htc in Hj. }
  assert (∀ w3, inv fc c w3 → acts (kq_ l) (λ x, x = fd) (λ _, False) w w3 →
    footprint (kq_ l) own (fd :: Q) (live_ l) w Q (live_ l) (Connection_destroy c w3)) as Hgone.
  { intros w3 Hi3 A3. apply Hfp; [|auto]. eapply acts_trans; [done|exact A3|by eapply destroy_acts| |done].
    intros x f Ho Hx. left. by eapply (Hone w3); [apply Hi3|eexists|]. }
  destruct (_ <? 0); [by apply Hgone|].
  pose proof (arm_acts (count_accepted l) (want_fd c (set_kern k w)) (want_write c) (UConn raw) _ Hwo1) as A2.
  pose proof (arm_regs_only (count_accepted l) (want_fd c (set_kern k w)) (want_write c) (UConn raw) _ (wo_wf _ Hwo1)) as Hro.
  pose proof (regs_only_inv _ _ _ _ _ Hi Hro) as Hi3. destruct (arm _ _ _ _ _) as [ok w3]. simpl in *.
  assert (acts (kq_ l) (λ x, x = fd) (λ _, False) w w3) as A13.
  { eapply acts_trans; [done|exact A1|exact A2| |done]. intros x f -> _. by left. }
  destruct ok; simpl; [|by apply Hgone]. apply Hfp; [done|]. intros q t [[<- <-]|[_ ?]]%lookup_insert_Some; auto.
Qed.

Lemma adopt_all_footprint own Q fds l w :
  slots_ok (kq_ l) (λ _, False) own (fds ++ Q) (live_ l) w →
  let '(l', w') := adopt_all malloc fds l w in footprint (kq_ l) own (fds ++ Q) (live_ l) w Q (live_ l') w'.
Proof.
  revert l w; induction fds as [|fd fds IH]; intros l w Hss; simpl; [apply footprint_refl, Hss|].
  pose proof (adopt_footprint own (fds ++ Q) fd l w Hss) as H1.
  pose proof (adopt_slots (λ _, True) own malloc Hmalloc fd (fds ++ Q) l w Hss) as H2. destruct (adopt malloc fd l w) as [l1 w1].
  destruct H2 as (Hss1 & Hkq & _). pose proof (IH l1 w1 Hss1) as H3. destruct (adopt_all malloc fds l1 w1) as [l2 w2].
  rewrite Hkq in H3. eapply footprint_trans; [apply Hss|exact H1|exact H3].
Qed.

Lemma accept_all_footprint own Q n l w :
  slots_ok (kq_ l) (λ _, False) own Q (live_ l) w →
  let '(l', w') := accept_all malloc n l w in footprint (kq_ l) own Q (live_ l) w Q (live_ l') w'.
Proof.
  revert l w; induction n as [|n IH]; intros l w Hss; simpl; [apply footprint_refl, Hss|].
  assert (∀ k, silent (kern w) k → footprint (kq_ l) own Q (live_ l) w Q (live_ l) (set_kern k w)) as Hsil.
  { intros k Hk. apply (kern_footprint _ _ _ _ _ _ Hss (λ _, False)); [|done]. rewrite Hk. apply frame_refl, Hss. }
  destruct (accept_one (listener_ l) (kern w)) as [[st fd] k] eqn:E. apply accept_one_spec in E.
  destruct st; simpl in E; try by apply Hsil.
  - pose proof (opened_footprint _ _ _ _ _ _ Hss fd k E) as H0. pose proof (slots_opened _ _ _ _ _ _ _ _ Hss E) as Hss0.
    pose proof (adopt_footprint own Q fd l (set_kern k w) Hss0) as H1.
    pose proof (adopt_slots (λ _, True) own malloc Hmalloc fd Q l (set_kern k w) Hss0) as H2.
    destruct (adopt malloc fd l (set_kern k w)) as [l1 w1]. destruct H2 as (Hss1 & Hkq & _). pose proof (IH l1 w1 Hss1) as H3.
    destruct (accept_all malloc n l1 w1) as [l2 w2]. rewrite Hkq in H3.
    eapply footprint_trans; [apply Hss|exact H0|]. eapply footprint_trans; [apply Hss0|exact H1|exact H3].
  - apply Hsil. destruct (fd_limit_current k) as [n' k1] eqn:E1. apply fd_limit_current_silent in E1. by eapply silent_trans.
Qed.

Lemma drain_wakeups_footprint B own Q n fd l w :
  good B own Q l w → fd ∈ own → footprint (kq_ l) own Q (live_ l) w Q (live_ l) (drain_wakeups n fd w).
Proof.
  intros Hg Hin. revert w Hg; induction n as [|n IH]; intros w Hg; pose proof (gd_slots _ _ _ _ _ Hg) as Hss; simpl;
    [apply footprint_refl, Hss|].
  destruct (sys_read fd 256 (kern w)) as [[e|bs] k] eqn:E.
  { apply read_err in E as [E _]. apply (kern_footprint _ _ _ _ _ _ Hss (λ _, False)); [|done].
    unfold silent in E. rewrite E. apply frame_refl, Hss. }
  apply read_ok in E as (f & Hf & Ho).
  assert (frame (λ x, x = fd) (obs (kern w)) (obs k)) as Hfr.
  { eapply recv_effect_frame; [apply Hss|by eapply recv_effect_obs]. }
  assert (footprint (kq_ l) own Q (live_ l) w Q (live_ l) (set_kern k w)) as H1.
  { apply (kern_footprint _ _ _ _ _ _ Hss _ _ Hfr). by intros x ->. }
  case_bool_decide; [done|]. eapply footprint_trans; [apply Hss|exact H1|]. apply IH.
  apply (own_frame _ _ fd); try done. by rewrite Ho.
Qed.

(** A handler keeps to its loop. *)
Lemma handle_footprint B own u l w :
  loop_inv B own l w →
  let '(l', w') := handle cfg malloc budget u l w in
  footprint (kq_ l) own (inbox_fds l) (live_ l) w (inbox_fds l') (live_ l') w'.
Proof.
  intros [Hg Hin]. pose proof (gd_slots _ _ _ _ _ Hg) as Hss. destruct u; simpl.
  - unfold do_accept. pose proof (accept_all_footprint own _ budget l w Hss) as H1.
    pose proof (accept_all_good B own malloc Hmalloc _ budget l w Hg) as H2.
    destruct (accept_all malloc budget l w) as [l1 w1]. destruct H2 as (_ & _ & Hib). unfold inbox_fds in *. by rewrite Hib.
  - unfold take_from_inbox. destruct (inbox_ l) as [ib|] eqn:Hib; [|by apply footprint_refl, Hss]. simpl.
    assert (inbox_fds l = ib_queue ib) as Hq by (unfold inbox_fds; by rewrite Hib). rewrite Hq in *.
    destruct (Hin ib eq_refl) as [Hre _]. pose proof (drain_wakeups_footprint _ _ _ budget _ _ _ Hg Hre) as H1.
    pose proof (drain_wakeups_good B own _ budget _ _ _ Hg Hre) as [Hss1 _].
    set (w1 := drain_wakeups budget (ib_read_end ib) w) in *.
    set (l0 := set_inbox (Some (mkInbox [] (ib_read_end ib) (ib_write_end ib))) l).
    assert (slots_ok (kq_ l0) (λ _, False) own (ib_queue ib ++ []) (live_ l0) w1) as Hss0 by by rewrite (right_id_L [] (++)).
    pose proof (adopt_all_footprint own [] (ib_queue ib) l0 w1 Hss0) as H2.
    assert (inbox_ (adopt_all malloc (ib_queue ib) l0 w1).1 = inbox_ l0) as Hib' by apply adopt_all_inbox.
    destruct (adopt_all malloc (ib_queue ib) l0 w1) as [l1 w2]. rewrite (right_id_L [] (++)) in H2.
    unfold inbox_fds. simpl in Hib'. rewrite Hib'. simpl. eapply footprint_trans; [apply Hss|exact H1|exact H2].
  - pose proof (service_footprint own _ conn l w Hss) as H1. pose proof (service_slots cfg own _ conn l w Hss) as H2.
    destruct (service cfg conn l w) as [l1 w1]. destruct H2 as (_ & _ & Hib). unfold inbox_fds in *. by rewrite Hib.
Qed.

End footprint.
