(* ===== verification/LoopShared.v ===== *)
(** * An event loop and the resolver threads

[loop_among] is the shared state of [ConnResolver.v] as one event loop sees it:
its connections hold some of the jobs, and its descriptors (its own, the clients
waiting in its inbox, the sockets of its connections) belong to no job.  Every
handler of the loop keeps it. *)
From S2P Require Import Prelude CppString Http Config Cache CacheSpec Kernel Socket SocketSpec Resolver ResolverSpec.
From S2P Require Import Connection ConnectionInv ConnectionSpec EventLoop EventLoopInv ConnResolver EventLoopSpec LoopFootprint.

(** The lookups the connections of [m] hold. *)
Definition held (m : gmap nat Slot) : gset nat := ⋃ ((λ ps : nat * Slot, job_of (sl_conn ps.2)) <$> map_to_list m).

Lemma elem_of_held j m : j ∈ held m ↔ loop_job m j.
Proof.
  unfold held, loop_job. rewrite elem_of_union_list. setoid_rewrite list_elem_of_fmap. split.
  - intros (X & ([p s] & -> & Hps) & Hj). exists p, s. by rewrite <-elem_of_map_to_list, <-elem_of_job_of.
  - intros (p & s & Hp & Hj). exists (job_of (sl_conn s)). split; [|by apply elem_of_job_of].
    exists (p, s). by rewrite elem_of_map_to_list.
Qed.

Lemma held_insert p s m : m !! p = None → held (<[p := s]> m) = job_of (sl_conn s) ∪ held m.
Proof.
  intros Hp. apply set_eq. intros j. rewrite elem_of_union, !elem_of_held, elem_of_job_of. split.
  - intros (q & t & [[<- <-]|[_ Hq]]%lookup_insert_Some & Hj); [by left|right; by exists q, t].
  - intros [Hj|(q & t & Hq & Hj)]; [exists p, s; by rewrite lookup_insert_eq|]. exists q, t.
    rewrite lookup_insert_ne; [done|]. by intros <-; simplify_eq.
Qed.

Lemma held_take p s m : m !! p = Some s → held m = job_of (sl_conn s) ∪ held (delete p m).
Proof. intros Hp. rewrite <-(held_insert p s) by apply lookup_delete_eq. by rewrite insert_delete_id. Qed.

(** The descriptors of a loop that are not of a lookup. *)
Definition direct (own Q : list Z) (m : gmap nat Slot) (fd : Z) : Prop :=
  fd ∈ own ++ Q ∨ ∃ p s, m !! p = Some s ∧ sock (sl_conn s) fd.

Section loop.
Context {K C : Type} `{!Kernel K, !KernelLaws K, !ResponseCache C, !ResponseCacheLaws C}.
Implicit Type w : World K C.
Abbreviation inv fc := (conn_inv fc (λ _, True)).

(** The resolver threads, and the lookups and descriptors of the other loops. *)
Context (ws : list WorkerPc) (HO : gset nat) (YO : Z → Prop).

Record loop_among (own Q : list Z) (m : gmap nat Slot) w : Prop := {
  la_shared : shared ws (held m ∪ HO) (λ fd, YO fd ∨ direct own Q m fd) (res w) (kern w);
  la_fds fd : YO fd → ¬ direct own Q m fd;
  la_jobs j : j ∈ HO → j ∉ held m
}.

(** The view of one connection [c] that is not in [m]. *)
Abbreviation apart_from own Q m := (among ws (held m ∪ HO) (λ fd, YO fd ∨ direct own Q m fd)).

Lemma sock_owned c js fd : sock c fd → owned c js fd.
Proof. intros [_ [->| ->]]; [by left|by right; left]. Qed.

Lemma direct_delete own Q p m fd : direct own Q (delete p m) fd → direct own Q m fd.
Proof. intros [?|(q & t & [_ Hq]%lookup_delete_Some & ?)]; [by left|right; eauto]. Qed.

Lemma inv_sockets fc c w : inv fc c w → 0 ≤ client_ c → client_ c ≠ upstream_ c.
Proof.
  intros [_ Hp] Hc. unfold phase in Hp. destruct (state_ c).
  - destruct Hp as (_ & _ & -> & _). lia.
  - destruct Hp as (_ & _ & -> & _). lia.
  - destruct Hp as (_ & Ho & _ & _ & _ & _ & _ & _ & _ & fu & Hu & Hne & _). by eapply owns_ne, not_eq_sym.
  - destruct Hp as (_ & Ho & _ & _ & _ & _ & _ & _ & fu & Hu & Hne & _). by eapply owns_ne, not_eq_sym.
  - destruct Hp as (Ho & _ & _ & _ & _ & _ & fu & Hu & Hne & _). by eapply owns_ne, not_eq_sym.
  - destruct Hp as (_ & _ & -> & _). lia.
  - destruct Hp as (_ & Hcl & _). lia.
Qed.

(** A connection is taken out of the table, *)
Lemma loop_take kq ex own Q p s m w :
  loop_among own Q m w → slots_ok kq ex own Q m w → m !! p = Some s → apart_from own Q (delete p m) (sl_conn s) w.
Proof.
  intros [Hs Hfd Hj] Hss Hp. destruct (sk_conn _ _ _ _ (ss_slot _ _ _ _ _ _ Hss p s Hp)) as [fc Hi].
  rewrite (held_take _ _ _ Hp) in Hs, Hj. split.
  - rewrite (assoc_L (∪)). eapply shared_mono, Hs. intros fd [[?|?%direct_delete]|?]; [by left|by right|right; right; eauto].
  - intros fd HY Hsk. destruct HY as [HY|HY]; [eapply Hfd; [exact HY|right; eauto]|].
    destruct HY as [Hin|(q & t & [Hne Hq]%lookup_delete_Some & Hsk')].
    + by eapply (proj2 (ss_held _ _ _ _ _ _ Hss fd Hin)), sock_owned.
    + destruct (ss_apart _ _ _ _ _ _ Hss p q s t Hne Hp Hq) as [Hap _]. eapply (Hap fd); [|by apply sock_owned..].
      eapply owned_open; [exact Hi|by apply sock_owned|apply Hsk].
  - by eapply inv_sockets.
  - intros j Hcj Hin. apply elem_of_union in Hin as [Hin|Hin].
    + apply elem_of_held in Hin as (q & t & [Hne Hq]%lookup_delete_Some & Hqj).
      by eapply (proj2 (ss_apart _ _ _ _ _ _ Hss p q s t Hne Hp Hq)).
    + apply (Hj j Hin), elem_of_union_l, elem_of_job_of. done.
Qed.

(** put back, *)
Lemma loop_put own Q p s m w :
  apart_from own Q m (sl_conn s) w → m !! p = None → (∀ fd, YO fd → ¬ direct own Q m fd) → (∀ j, j ∈ HO → j ∉ held m) →
  loop_among own Q (<[p := s]> m) w.
Proof.
  intros [Hs Ho _ Hj] Hp Hfd Hjobs. assert (∀ fd, direct own Q (<[p := s]> m) fd → direct own Q m fd ∨ sock (sl_conn s) fd) as Hd.
  { intros fd [?|(q & t & [[<- <-]|[_ Hq]]%lookup_insert_Some & ?)]; [by left; left|by right|left; right; eauto]. }
  split; rewrite ?held_insert by done.
  - rewrite <-(assoc_L (∪)). eapply shared_mono, Hs. intros fd [?|[?|?]%Hd]; auto.
  - intros fd HY [?|?]%Hd; [by eapply Hfd|by eapply (Ho fd); [left|]].
  - intros j HjO [Hin%elem_of_job_of|?]%elem_of_union; [|by eapply Hjobs]. apply (Hj j Hin). set_solver.
Qed.

(** or destroyed. *)
Lemma loop_destroy own Q m c w :
  apart_from own Q m c w → (∀ fd, YO fd → ¬ direct own Q m fd) → (∀ j, j ∈ HO → j ∉ held m) →
  loop_among own Q m (Connection_destroy c w).
Proof. intros Ha%destroy_among Hfd Hj. by split. Qed.

Lemma delete_fds own Q p m w : loop_among own Q m w → ∀ fd, YO fd → ¬ direct own Q (delete p m) fd.
Proof. intros Ha fd HY ?%direct_delete. by eapply la_fds. Qed.

Lemma delete_jobs own Q p m w : loop_among own Q m w → ∀ j, j ∈ HO → j ∉ held (delete p m).
Proof.
  intros Ha j Hj Hin. apply (la_jobs _ _ _ _ Ha j Hj). apply elem_of_held in Hin as (q & t & [_ ?]%lookup_delete_Some & ?).
  apply elem_of_held. by exists q, t.
Qed.

(** Registrations, and bytes through a descriptor, do not matter. *)
Lemma loop_same own Q m w k :
  loop_among own Q m w → obs_wf (obs k) → fdt (obs k) = fdt (obs (kern w)) → loop_among own Q m (set_kern k w).
Proof.
  intros [Hs Hfd Hj] Hw Ht. split; try done. simpl. eapply shared_same; [exact Hs|done..|]. eapply rinv_kern, Hs.
Qed.

Lemma regs_only_among own Q m c w w' : apart_from own Q m c w → regs_only w w' → apart_from own Q m c w'.
Proof. intros Ha [[k ->] Hw Ht _ _ _]. by eapply among_same, Ha. Qed.

Context (cfg : Config).

Lemma service_among own Q p l w :
  slots_ok (kq_ l) (λ _, False) own Q (live_ l) w → loop_among own Q (live_ l) w →
  loop_among own Q (live_ (service cfg p l w).1) (service cfg p l w).2.
Proof.
  intros Hss Hla. unfold service. destruct (live_ l !! p) as [s|] eqn:Hp; [|done].
  pose proof (loop_take _ _ _ _ _ _ _ _ Hla Hss Hp) as Ha.
  pose proof (delete_fds _ _ p _ _ Hla) as Hfd. pose proof (delete_jobs _ _ p _ _ Hla) as Hjobs.
  destruct (sk_conn _ _ _ _ (ss_slot _ _ _ _ _ _ Hss p s Hp)) as [fc Hi].
  apply (on_ready_among _ _ _ cfg _ _ _ _ Hi) in Ha. destruct (on_ready cfg (sl_conn s) w) as [c' w1]. cbn [fst snd] in Ha.
  assert (∀ w2, apart_from own Q (delete p (live_ l)) c' w2 → loop_among own Q (delete p (live_ l)) (Connection_destroy c' w2)) as Hgone.
  { intros w2 Ha2. by apply loop_destroy. }
  assert (∀ s' w2, sl_conn s' = c' → apart_from own Q (delete p (live_ l)) c' w2 → loop_among own Q (<[p := s']> (live_ l)) w2) as Hback.
  { intros s' w2 <- Ha2. rewrite <-insert_delete_eq. apply loop_put; [done|apply lookup_delete_eq|done|done]. }
  assert (apart_from own Q (delete p (live_ l)) c' (disarm l (sl_fd s) (sl_write s) w1)) as Ha2.
  { eapply regs_only_among; [exact Ha|]. apply disarm_regs_only, Ha. }
  destruct (done_ c'); [by apply Hgone|]. destruct (_ <? 0); [by apply Hgone|].
  destruct (epoch c' =? sl_epoch s); cbn [negb]; [by apply Hback|].
  pose proof (arm_regs_only l (want_fd c' w1) (want_write c') (UConn p) _ (sh_wf _ _ _ _ _ (am_shared _ _ _ _ _ Ha2))) as Hro.
  destruct (arm l (want_fd c' w1) (want_write c') (UConn p) _) as [ok w3]. cbn [snd] in Hro.
  pose proof (regs_only_among _ _ _ _ _ _ Ha2 Hro) as Ha3. destruct ok; cbn [negb]; [by apply Hback|by apply Hgone].
Qed.

(** ** Clients *)

(** The first client of the queue gets a connection. *)
Lemma loop_new kq ex own fd Q m w c :
  loop_among own (fd :: Q) m w → slots_ok kq ex own (fd :: Q) m w → client_ c = fd → upstream_ c = -1 → resolve_job_ c = None →
  apart_from own Q m c w ∧ (∀ x, YO x → ¬ direct own Q m x).
Proof.
  intros [Hs Hfd Hj] Hss Hc Hu Hr.
  assert (∀ x, direct own Q m x → direct own (fd :: Q) m x) as Hsub by (intros x [?|?]; [left; set_solver|by right]).
  assert (∀ x, sock c x → x = fd) as Hone by (intros x [? [->| ->]]; [done|lia]).
  split; [|intros x HY ?%Hsub; by eapply Hfd]. split.
  - unfold job_of. rewrite Hr, (left_id_L ∅ (∪)). eapply shared_mono, Hs.
    intros x [[?|?%Hsub]| ->%Hone]; [by left|by right|right; left; set_solver].
  - intros x HY ->%Hone. destruct HY as [HY|[Hin|(p & s & Hp & Hsk)]].
    + apply (Hfd fd HY). left. set_solver.
    + pose proof (ss_nodup _ _ _ _ _ _ Hss) as (_ & Hn & [? _]%NoDup_cons)%NoDup_app. set_solver.
    + eapply (proj2 (ss_held _ _ _ _ _ _ Hss fd ltac:(set_solver)) p s Hp). by apply sock_owned.
  - rewrite Hu. lia.
  - by rewrite Hr.
Qed.

(** A client is accepted: it waits in the queue. *)
Lemma loop_opened own Q m w fd k :
  loop_among own Q m w → opened fd (kern w) k → loop_among own (fd :: Q) m (set_kern k w).
Proof.
  intros [Hs Hfd Hj] (Hpos & Hn & Ho). pose proof (sh_wf _ _ _ _ _ Hs) as Hw.
  assert (∀ x, direct own (fd :: Q) m x → direct own Q m x ∨ x = fd) as Hd.
  { intros x [Hin|?]; [|by left; right]. apply elem_of_app in Hin as [?|[->|?]%elem_of_cons]; [left; left|by right|left; left]; set_solver. }
  split; simpl; try done.
  - eapply shared_keep; [exact Hs|rewrite Ho; by apply obs_open_wf|eauto|..|eapply rinv_kern, Hs]; rewrite Ho; simpl.
    + intros j jb x _ _ Hx. apply lookup_insert_is_Some'. by right.
    + intros x HX. destruct (decide (x = fd)) as [->|Hx]; [rewrite lookup_insert_eq; eauto|].
      assert (YO x ∨ direct own Q m x) as HX0 by (destruct HX as [?|[?|?]%Hd]; auto; done).
      rewrite lookup_insert_ne by done. split; [by apply (sh_apart _ _ _ _ _ Hs)|by left].
  - intros x HY [?| ->]%Hd; [by eapply Hfd|]. destruct (sh_apart _ _ _ _ _ Hs fd (or_introl HY)) as [[f ?] _]. congruence.
Qed.

Lemma drain_wakeups_among own Q m n fd w : loop_among own Q m w → loop_among own Q m (drain_wakeups n fd w).
Proof.
  revert w; induction n as [|n IH]; intros w Hla; simpl; [done|].
  destruct (sys_read fd 256 (kern w)) as [a k] eqn:E. apply sys_read_effect in E as [bs E].
  assert (loop_among own Q m (set_kern k w)) as H1.
  { apply loop_same; [done|eapply frame_wf, recv_effect_frame, E; apply Hla|by eapply re_fdt]. }
  destruct a; [done|]. case_bool_decide; [done|by apply IH].
Qed.

Lemma destroy_all_among kq ex own Q L w :
  NoDup L.*1 → slots_ok kq ex own Q (list_to_map L) w → loop_among own Q (list_to_map L) w →
  loop_among own Q ∅ (destroy_all L w).
Proof.
  revert ex w. induction L as [|[p s] L IH]; intros ex w Hnd Hss Hla; simpl in *; [done|].
  apply NoDup_cons in Hnd as [Hnin Hnd]. set (m := <[p := s]> (list_to_map L : gmap nat Slot)) in *.
  assert (m !! p = Some s) as Hp by apply lookup_insert_eq.
  assert (delete p m = list_to_map L) as Hdel by by apply delete_insert_id, not_elem_of_list_to_map_1.
  destruct (slots_forget _ _ _ _ _ _ _ _ Hss Hp) as [Hss1 Hal].
  destruct (sk_conn _ _ _ _ (ss_slot _ _ _ _ _ _ Hss p s Hp)) as [fc Hi]. destruct (destroy_ok _ _ _ Hi) as [[_ Hk] Hok].
  pose proof (loop_take _ _ _ _ _ _ _ _ Hla Hss Hp) as Ha. rewrite Hdel in *.
  eapply IH; [done|by eapply slots_step|]. apply loop_destroy; [done|..].
  - rewrite <-Hdel. by eapply delete_fds.
  - rewrite <-Hdel. by eapply delete_jobs.
Qed.

(** The loop closes a descriptor of its own. *)
Lemma loop_disown kq ex own own1 Q m w fd :
  slots_ok kq ex own Q m w → loop_among own Q m w → own ≡ₚ fd :: own1 →
  loop_among own1 Q m (set_kern (sys_close fd (kern w)) w).
Proof.
  intros Hss [Hs Hfd Hj] Hp. pose proof (ss_nodup _ _ _ _ _ _ Hss) as Hnd. rewrite Hp in Hnd. simpl in Hnd.
  apply NoDup_cons in Hnd as [Hnin _]. pose proof (sh_wf _ _ _ _ _ Hs) as Hw.
  assert (∀ x, direct own1 Q m x → direct own Q m x) as Hsub.
  { intros x [Hx|?]; [|by right]. left. rewrite Hp. set_solver. }
  assert (fd ∈ own ++ Q) as Hin by (rewrite Hp; set_solver).
  assert (∀ x, direct own1 Q m x → x ≠ fd) as Hne.
  { intros x [Hx|(p & s & Hps & Hsk)] ->; [done|]. by eapply (proj2 (ss_held _ _ _ _ _ _ Hss fd Hin)), sock_owned. }
  assert (direct own Q m fd) as Hd by by left.
  split; [|by intros x HY ?%Hsub; eapply Hfd|done]. simpl.
  eapply shared_keep; [exact Hs|rewrite close_ok; by apply obs_close_wf|eauto|..|eapply rinv_kern, Hs]; rewrite close_ok; simpl.
  - intros j jb x Hjb He Hx. rewrite lookup_delete_ne; [done|]. intros <-.
    apply (proj2 (sh_apart _ _ _ _ _ Hs fd (or_intror Hd))). by exists j, jb.
  - intros x HX. assert (YO x ∨ direct own Q m x) as HX0 by (destruct HX as [?|?%Hsub]; auto).
    rewrite lookup_delete_ne; [split; [by apply (sh_apart _ _ _ _ _ Hs)|by left]|]. intros <-.
    destruct HX as [?|?%Hne]; [by eapply Hfd|done].
Qed.

Lemma loop_own own own1 Q Q1 m w :
  loop_among own Q m w → (∀ fd, fd ∈ own1 ++ Q1 → fd ∈ own ++ Q) → loop_among own1 Q1 m w.
Proof.
  intros [Hs Hfd Hj] Hsub. assert (∀ fd, direct own1 Q1 m fd → direct own Q m fd) as Hd by (intros fd [?|?]; [left; auto|by right]).
  split; [|by intros fd HY ?%Hd; eapply Hfd|done]. eapply shared_mono, Hs. intros fd [?|?%Hd]; auto.
Qed.

Context (malloc : gset nat → nat) (Hmalloc : ∀ X, malloc X ∉ X) (budget : nat).

Lemma adopt_among own fd Q l w :
  slots_ok (kq_ l) (λ _, False) own (fd :: Q) (live_ l) w → loop_among own (fd :: Q) (live_ l) w →
  loop_among own Q (live_ (adopt malloc fd l w).1) (adopt malloc fd l w).2.
Proof.
  intros Hss Hla. unfold adopt, Connection_new. destruct (set_nonblocking fd (kern w)) as [b k] eqn:E.
  cbn [count_accepted live_ kq_ next_id_]. set (c := mkConn fd _ _ _ _ _ _ _ _ _ _ _ _ _ _ _ _ _ _ _).
  assert (live_ l !! malloc (dom (live_ l)) = None) as Hraw by apply not_elem_of_dom, Hmalloc.
  destruct (loop_new _ _ _ _ _ _ _ c Hla Hss eq_refl eq_refl eq_refl) as [Ha Hfd].
  assert (apart_from own Q (live_ l) c (set_kern k w)) as Ha1.
  { pose proof (wo_wf _ (ss_world _ _ _ _ _ _ Hss)) as Hw.
    apply set_nonblocking_spec in E as [[E _]|(_ & f & fl & _ & E & _)]; (eapply among_same, Ha; simpl; rewrite ?E; try done).
    by apply obs_setfl_wf. }
  destruct (_ <? 0); [apply loop_destroy; [done|done|apply Hla]|].
  match goal with |- context [arm ?l1 ?x ?d ?u ?w1] =>
    pose proof (arm_regs_only l1 x d u w1 (sh_wf _ _ _ _ _ (am_shared _ _ _ _ _ Ha1))) as Hro; destruct (arm l1 x d u w1) as [ok w3] end.
  cbn [snd] in Hro. pose proof (regs_only_among _ _ _ _ _ _ Ha1 Hro) as Ha3. destruct ok; cbn [negb].
  - apply loop_put; [done|done|done|apply Hla].
  - apply loop_destroy; [done|done|apply Hla].
Qed.

Lemma adopt_all_among own fds l w :
  slots_ok (kq_ l) (λ _, False) own fds (live_ l) w → loop_among own fds (live_ l) w →
  loop_among own [] (live_ (adopt_all malloc fds l w).1) (adopt_all malloc fds l w).2.
Proof.
  revert l w; induction fds as [|fd fds IH]; intros l w Hss Hla; simpl; [done|].
  pose proof (adopt_among own fd fds l w Hss Hla) as H1.
  pose proof (adopt_slots (λ _, True) own malloc Hmalloc fd fds l w Hss) as H2. destruct (adopt malloc fd l w) as [l1 w1].
  destruct H2 as (Hss1 & _). by apply IH.
Qed.

Lemma accept_all_among own Q n l w :
  slots_ok (kq_ l) (λ _, False) own Q (live_ l) w → loop_among own Q (live_ l) w →
  loop_among own Q (live_ (accept_all malloc n l w).1) (accept_all malloc n l w).2.
Proof.
  revert l w; induction n as [|n IH]; intros l w Hss Hla; simpl; [done|].
  pose proof (wo_wf _ (ss_world _ _ _ _ _ _ Hss)) as Hw.
  assert (∀ k, silent (kern w) k → loop_among own Q (live_ l) (set_kern k w)) as Hsil.
  { intros k Hk. unfold silent in Hk. apply loop_same; by rewrite ?Hk. }
  destruct (accept_one (listener_ l) (kern w)) as [[st fd] k] eqn:E. apply accept_one_spec in E. destruct st; simpl in E.
  - pose proof (loop_opened _ _ _ _ _ _ Hla E) as Hla0. pose proof (slots_opened _ _ _ _ _ _ _ _ Hss E) as Hss0.
    pose proof (adopt_among own fd Q l (set_kern k w) Hss0 Hla0) as H1.
    pose proof (adopt_slots (λ _, True) own malloc Hmalloc fd Q l (set_kern k w) Hss0) as H2.
    destruct (adopt malloc fd l (set_kern k w)) as [l1 w1]. destruct H2 as (Hss1 & _). by apply IH.
  - by apply Hsil.
  - apply Hsil. destruct (fd_limit_current k) as [n' k1] eqn:E1. apply fd_limit_current_silent in E1. by eapply silent_trans.
  - by apply Hsil.
Qed.

(** Every handler. *)
Lemma handle_among B own u l w :
  loop_inv B own l w → loop_among own (inbox_fds l) (live_ l) w →
  let '(l', w') := handle cfg malloc budget u l w in loop_among own (inbox_fds l') (live_ l') w'.
Proof.
  intros [Hg Hin] Hla. pose proof (gd_slots _ _ _ _ _ Hg) as Hss. destruct u; simpl.
  - unfold do_accept. pose proof (accept_all_among own _ budget l w Hss Hla) as H1.
    pose proof (accept_all_good B own malloc Hmalloc _ budget l w Hg) as H2.
    destruct (accept_all malloc budget l w) as [l1 w1]. destruct H2 as (_ & _ & Hib). unfold inbox_fds in *. by rewrite Hib.
  - unfold take_from_inbox. destruct (inbox_ l) as [ib|] eqn:Hib; [|done]. simpl.
    assert (inbox_fds l = ib_queue ib) as Hq by (unfold inbox_fds; by rewrite Hib). rewrite Hq in *.
    destruct (Hin ib eq_refl) as [Hre _]. pose proof (drain_wakeups_among _ _ _ budget (ib_read_end ib) _ Hla) as H1.
    pose proof (drain_wakeups_good B own _ budget _ _ _ Hg Hre) as [Hss1 _].
    set (w1 := drain_wakeups budget (ib_read_end ib) w) in *.
    set (l0 := set_inbox (Some (mkInbox [] (ib_read_end ib) (ib_write_end ib))) l).
    pose proof (adopt_all_among own (ib_queue ib) l0 w1 Hss1 H1) as H2.
    assert (inbox_ (adopt_all malloc (ib_queue ib) l0 w1).1 = inbox_ l0) as Hib' by apply adopt_all_inbox.
    destruct (adopt_all malloc (ib_queue ib) l0 w1) as [l1 w2]. unfold inbox_fds. simpl in Hib'. by rewrite Hib'.
  - pose proof (service_among own _ conn l w Hss Hla) as H1. pose proof (service_slots cfg own _ conn l w Hss) as H2.
    destruct (service cfg conn l w) as [l1 w1]. destruct H2 as (_ & _ & Hib). unfold inbox_fds in *. by rewrite Hib.
Qed.
End loop.
