(* ===== verification/ConnQueue.v ===== *)
(** * The connection queue ([conn_queue.hpp], [conn_queue.cpp])

A bounded queue between the accept loop and the workers of the thread pool.
Each member function holds the mutex from entry to exit except while it waits,
so it is a function on the queue, tried again at every wakeup: [None] says
that the caller goes (back) to sleep on its condition variable.  The
notifications, which the code issues after releasing the mutex, are
steps of the thread-pool system in [ThreadPool.v]. *)
From S2P Require Import Prelude.

Inductive PushStatus := Pushed | TimedOut | Closed.

#[export] Instance PushStatus_eq_dec : EqDecision PushStatus.
Proof. solve_decision. Defined.

Record ConnQueue := mkQueue { cq_queue : list Z; cq_capacity : Z; cq_closed : bool }.

Definition ConnQueue_new (capacity : Z) : ConnQueue :=
  mkQueue [] (if capacity =? 0 then 1 else capacity) false.

(** The predicate of [not_full_.wait_for]. *)
Definition not_full (q : ConnQueue) : bool := cq_closed q || (zlen (cq_queue q) <? cq_capacity q).

(** The predicate of [not_empty_.wait]. *)
Definition not_empty (q : ConnQueue) : bool := cq_closed q || negb (bool_decide (cq_queue q = [])).

(** [push_for], at a wakeup or, with [expired], when the timeout has passed. *)
Definition push_for (expired : bool) (fd : Z) (q : ConnQueue) : option (PushStatus * ConnQueue) :=
  let ready := not_full q in
  if negb ready && negb expired then None else
  if cq_closed q then Some (Closed, q) else
  if negb ready then Some (TimedOut, q) else
  Some (Pushed, mkQueue (cq_queue q ++ [fd]) (cq_capacity q) (cq_closed q)).

(** [pop]: the client, or nothing once the queue is closed and drained. *)
Definition pop (q : ConnQueue) : option (option Z * ConnQueue) :=
  if negb (not_empty q) then None else
  match cq_queue q with
  | [] => Some (None, q)
  | fd :: rest => Some (Some fd, mkQueue rest (cq_capacity q) (cq_closed q))
  end.

(** [close]; the flag says whether there is somebody to wake. *)
Definition close (q : ConnQueue) : bool * ConnQueue :=
  if cq_closed q then (false, q) else (true, mkQueue (cq_queue q) (cq_capacity q) true).

Definition depth (q : ConnQueue) : Z := zlen (cq_queue q).

(** ** What each call does *)

Definition queue_ok (q : ConnQueue) : Prop := 1 ≤ cq_capacity q ∧ depth q ≤ cq_capacity q.

Lemma ConnQueue_new_ok capacity : 0 ≤ capacity → queue_ok (ConnQueue_new capacity).
Proof. intros H. unfold queue_ok, depth, zlen, ConnQueue_new. simpl. destruct (Z.eqb_spec capacity 0); lia. Qed.

Lemma not_full_false q : not_full q = false → cq_closed q = false ∧ cq_capacity q ≤ depth q.
Proof.
  unfold not_full, depth. intros [? H]%orb_false_iff. split; [done|]. by apply Z.ltb_ge.
Qed.

(** The four outcomes of [push_for]. *)
Lemma push_for_cases expired fd q :
  match push_for expired fd q with
  | None => cq_closed q = false ∧ cq_capacity q ≤ depth q ∧ expired = false
  | Some (Closed, q') => cq_closed q = true ∧ q' = q
  | Some (TimedOut, q') => cq_closed q = false ∧ cq_capacity q ≤ depth q ∧ expired = true ∧ q' = q
  | Some (Pushed, q') => cq_closed q = false ∧ depth q < cq_capacity q ∧
      q' = mkQueue (cq_queue q ++ [fd]) (cq_capacity q) false
  end.
Proof.
  unfold push_for. destruct (not_full q) eqn:Hn; cbn [negb andb].
  - destruct (cq_closed q) eqn:Hc; [done|]. unfold not_full in Hn. rewrite Hc in Hn. simpl in Hn.
    apply Z.ltb_lt in Hn. done.
  - apply not_full_false in Hn as [Hc Hd]. destruct expired; cbn [negb]; [|done]. by rewrite Hc.
Qed.

Lemma pop_cases q :
  match pop q with
  | None => cq_queue q = [] ∧ cq_closed q = false
  | Some (None, q') => cq_queue q = [] ∧ cq_closed q = true ∧ q' = q
  | Some (Some fd, q') => ∃ rest, cq_queue q = fd :: rest ∧ q' = mkQueue rest (cq_capacity q) (cq_closed q)
  end.
Proof.
  unfold pop, not_empty. destruct (cq_closed q) eqn:Hc, (cq_queue q) eqn:Hq; cbn; eauto.
Qed.

Lemma push_for_ok expired fd q st q' : queue_ok q → push_for expired fd q = Some (st, q') → queue_ok q'.
Proof.
  intros [Hcap Hd] E. pose proof (push_for_cases expired fd q) as H. rewrite E in H. destruct st.
  - destruct H as (_ & Hlt & ->). unfold queue_ok, depth, zlen in *. simpl. rewrite length_app. simpl. lia.
  - by destruct H as (_ & _ & _ & ->).
  - by destruct H as (_ & ->).
Qed.

Lemma pop_ok q r q' : queue_ok q → pop q = Some (r, q') → queue_ok q'.
Proof.
  intros [Hcap Hd] E. pose proof (pop_cases q) as H. rewrite E in H. destruct r.
  - destruct H as (rest & Hq & ->). unfold queue_ok, depth, zlen in *. rewrite Hq in Hd. simpl in *. lia.
  - by destruct H as (_ & _ & ->).
Qed.
