(* ===== verification/ThreadPool.v ===== *)
(** * The thread pool ([backend/thread_pool.cpp])

The accept loop and the workers around the connection queue, as a transition
system.  A thread's program counter says where it is between two operations
other threads can observe: a critical section of the queue, a notification, a
read of the stop flag, a call of [accept].  Condition variables are modelled
with their waiters: [notify_one] wakes some waiter if there is one, and a
waiter may also wake spuriously.  The histories of what was accepted,
pushed, popped and dropped are ghost state. *)
From S2P Require Import Prelude ConnQueue.

(** ** Threads *)

(** The thread that runs [run]: [accept_loop], then the shutdown. *)
Inductive ProdPc :=
| PLoop                  (* at the test of [stop_] *)
| PAccept                (* waiting on the listener, about to accept *)
| PPush (fd : Z)         (* in [push_for], holding or about to take the mutex *)
| PSleep (fd : Z)        (* in [push_for], waiting on [not_full_] *)
| PExpired (fd : Z)      (* in [push_for], the timeout has passed *)
| PRecheck (fd : Z)      (* [push_for] timed out, at the second test of [stop_] *)
| PNotify                (* pushed, about to notify [not_empty_] *)
| PClose                 (* out of [accept_loop], about to close the queue *)
| PWakeEmpty             (* closed, about to notify all on [not_empty_] *)
| PWakeFull              (* about to notify all on [not_full_] *)
| PJoin                  (* joining the workers *)
| PDone.

Inductive WorkPc :=
| WPop                   (* in [pop], holding or about to take the mutex *)
| WSleep                 (* in [pop], waiting on [not_empty_] *)
| WNotify (fd : Z)       (* popped, about to notify [not_full_] *)
| WServe (fd : Z)        (* serving the connection *)
| WExit.

#[export] Instance ProdPc_eq_dec : EqDecision ProdPc.
Proof. solve_decision. Defined.

#[export] Instance WorkPc_eq_dec : EqDecision WorkPc.
Proof. solve_decision. Defined.

Record Pool := mkPool {
  p_queue : ConnQueue;
  p_prod : ProdPc;
  p_workers : list WorkPc;
  p_stop : bool;
  p_accepted : list Z;     (* every client accepted, in order *)
  p_pushed : list Z;       (* the clients that entered the queue *)
  p_popped : list Z;       (* the clients some worker took, in order *)
  p_dropped : list Z       (* the clients closed because of the shutdown *)
}.

Definition Pool_new (capacity workers : Z) : Pool :=
  mkPool (ConnQueue_new capacity) PLoop (replicate (Z.to_nat (if workers =? 0 then 1 else workers)) WPop) false [] [] [] [].

(** ** Steps *)

(** [notify_one] on [not_empty_]. *)
Inductive wake_one : list WorkPc → list WorkPc → Prop :=
| wake_some a b : wake_one (a ++ WSleep :: b) (a ++ WPop :: b)
| wake_none ws : WSleep ∉ ws → wake_one ws ws.

Definition wake (pc : WorkPc) : WorkPc := match pc with WSleep => WPop | _ => pc end.
Definition wake_prod (pc : ProdPc) : ProdPc := match pc with PSleep fd => PPush fd | _ => pc end.

Section steps.
Implicit Types (q : ConnQueue) (ws a b : list WorkPc) (acc pu po dr : list Z).

(** The accept loop and the shutdown. *)
Inductive prod_step : Pool → Pool → Prop :=
| ps_stop_seen q ws acc pu po dr :
    prod_step (mkPool q PLoop ws true acc pu po dr) (mkPool q PClose ws true acc pu po dr)
| ps_go q ws acc pu po dr :
    prod_step (mkPool q PLoop ws false acc pu po dr) (mkPool q PAccept ws false acc pu po dr)
| ps_nobody q ws st acc pu po dr :          (* timeout, EAGAIN, out of descriptors, error *)
    prod_step (mkPool q PAccept ws st acc pu po dr) (mkPool q PLoop ws st acc pu po dr)
| ps_accept q ws st acc pu po dr fd :
    prod_step (mkPool q PAccept ws st acc pu po dr) (mkPool q (PPush fd) ws st (acc ++ [fd]) pu po dr)
| ps_sleep q ws st acc pu po dr fd :
    push_for false fd q = None →
    prod_step (mkPool q (PPush fd) ws st acc pu po dr) (mkPool q (PSleep fd) ws st acc pu po dr)
| ps_pushed q q' pc (expired : bool) ws st acc pu po dr fd :
    pc = (if expired then PExpired fd else PPush fd) → push_for expired fd q = Some (Pushed, q') →
    prod_step (mkPool q pc ws st acc pu po dr) (mkPool q' PNotify ws st acc (pu ++ [fd]) po dr)
| ps_closed q q' pc (expired : bool) ws st acc pu po dr fd :
    pc = (if expired then PExpired fd else PPush fd) → push_for expired fd q = Some (Closed, q') →
    prod_step (mkPool q pc ws st acc pu po dr) (mkPool q' PClose ws st acc pu po (dr ++ [fd]))
| ps_timed_out q q' ws st acc pu po dr fd :
    push_for true fd q = Some (TimedOut, q') →
    prod_step (mkPool q (PExpired fd) ws st acc pu po dr) (mkPool q' (PRecheck fd) ws st acc pu po dr)
| ps_retry q ws acc pu po dr fd :
    prod_step (mkPool q (PRecheck fd) ws false acc pu po dr) (mkPool q (PPush fd) ws false acc pu po dr)
| ps_give_up q ws acc pu po dr fd :
    prod_step (mkPool q (PRecheck fd) ws true acc pu po dr) (mkPool q PClose ws true acc pu po (dr ++ [fd]))
| ps_notify q ws ws' st acc pu po dr :
    wake_one ws ws' → prod_step (mkPool q PNotify ws st acc pu po dr) (mkPool q PLoop ws' st acc pu po dr)
| ps_close q q' (woken : bool) ws st acc pu po dr :
    close q = (woken, q') →
    prod_step (mkPool q PClose ws st acc pu po dr) (mkPool q' (if woken then PWakeEmpty else PJoin) ws st acc pu po dr)
| ps_wake_empty q ws st acc pu po dr :
    prod_step (mkPool q PWakeEmpty ws st acc pu po dr) (mkPool q PWakeFull (wake <$> ws) st acc pu po dr)
| ps_wake_full q ws st acc pu po dr :       (* the only producer is this thread *)
    prod_step (mkPool q PWakeFull ws st acc pu po dr) (mkPool q PJoin ws st acc pu po dr)
| ps_joined q ws st acc pu po dr :
    Forall (eq WExit) ws →
    prod_step (mkPool q PJoin ws st acc pu po dr) (mkPool q PDone ws st acc pu po dr).

(** One worker. *)
Inductive work_step : Pool → Pool → Prop :=
| ws_sleep q pc a b st acc pu po dr :
    pop q = None →
    work_step (mkPool q pc (a ++ WPop :: b) st acc pu po dr) (mkPool q pc (a ++ WSleep :: b) st acc pu po dr)
| ws_exit q q' pc a b st acc pu po dr :
    pop q = Some (None, q') →
    work_step (mkPool q pc (a ++ WPop :: b) st acc pu po dr) (mkPool q' pc (a ++ WExit :: b) st acc pu po dr)
| ws_popped q q' pc a b st acc pu po dr fd :
    pop q = Some (Some fd, q') →
    work_step (mkPool q pc (a ++ WPop :: b) st acc pu po dr) (mkPool q' pc (a ++ WNotify fd :: b) st acc pu (po ++ [fd]) dr)
| ws_notify q pc a b st acc pu po dr fd :
    work_step (mkPool q pc (a ++ WNotify fd :: b) st acc pu po dr)
      (mkPool q (wake_prod pc) (a ++ WServe fd :: b) st acc pu po dr)
| ws_served q pc a b st acc pu po dr fd :
    work_step (mkPool q pc (a ++ WServe fd :: b) st acc pu po dr) (mkPool q pc (a ++ WPop :: b) st acc pu po dr).

(** What the surroundings do: the signal handler, the clock, spurious wakeups. *)
Inductive env_step : Pool → Pool → Prop :=
| es_signal q pc ws st acc pu po dr :
    env_step (mkPool q pc ws st acc pu po dr) (mkPool q pc ws true acc pu po dr)
| es_expire q ws st acc pu po dr fd :
    env_step (mkPool q (PSleep fd) ws st acc pu po dr) (mkPool q (PExpired fd) ws st acc pu po dr)
| es_spurious_prod q ws st acc pu po dr fd :
    env_step (mkPool q (PSleep fd) ws st acc pu po dr) (mkPool q (PPush fd) ws st acc pu po dr)
| es_spurious_work q pc a b st acc pu po dr :
    env_step (mkPool q pc (a ++ WSleep :: b) st acc pu po dr) (mkPool q pc (a ++ WPop :: b) st acc pu po dr).
End steps.

Definition pool_step (p p' : Pool) : Prop := prod_step p p' ∨ work_step p p' ∨ env_step p p'.
Definition pool_reach (capacity workers : Z) : Pool → Prop := rtc pool_step (Pool_new capacity workers).

(** ** The invariant *)

(** The client the accept loop holds. *)
Definition in_hand (pc : ProdPc) : list Z :=
  match pc with PPush fd | PSleep fd | PExpired fd | PRecheck fd => [fd] | _ => [] end.

(** The queue has been closed. *)
Definition past_close (pc : ProdPc) : bool :=
  match pc with PWakeEmpty | PWakeFull | PJoin | PDone => true | _ => false end.

Definition leaving (pc : ProdPc) : bool := match pc with PClose => true | _ => past_close pc end.

Definition poppers (ws : list WorkPc) : nat := length (filter (eq WPop) ws).
Definition pending_notify (pc : ProdPc) : nat := match pc with PNotify => 1 | _ => 0 end.

(** The clients being served. *)
Definition client_of (pc : WorkPc) : list Z := match pc with WNotify fd | WServe fd => [fd] | _ => [] end.
Definition in_flight (p : Pool) : list Z := mjoin (client_of <$> p_workers p).

Record pool_inv (p : Pool) : Prop := {
  pi_queue : queue_ok (p_queue p);
  pi_fifo : p_pushed p = p_popped p ++ cq_queue (p_queue p);
  pi_accepted : p_accepted p = p_pushed p ++ in_hand (p_prod p) ++ p_dropped p;
  pi_dropped : (length (p_dropped p) ≤ 1)%nat ∧ (leaving (p_prod p) = false → p_dropped p = []);
  pi_wake : WSleep ∈ p_workers p →
    (length (cq_queue (p_queue p)) ≤ poppers (p_workers p) + pending_notify (p_prod p))%nat;
  pi_closed : cq_closed (p_queue p) = past_close (p_prod p);
  pi_awake : past_close (p_prod p) = true → WSleep ∈ p_workers p → p_prod p = PWakeEmpty;
  pi_exit : WExit ∈ p_workers p → past_close (p_prod p) = true ∧ cq_queue (p_queue p) = [];
  pi_join : p_prod p = PDone → Forall (eq WExit) (p_workers p);
  pi_room fd : p_prod p = PSleep fd →
    cq_capacity (p_queue p) ≤ depth (p_queue p) ∨ ∃ fd', WNotify fd' ∈ p_workers p
}.

Lemma poppers_at a pc b : poppers (a ++ pc :: b) = (poppers (a ++ b) + if decide (WPop = pc) then 1 else 0)%nat.
Proof. unfold poppers. rewrite !filter_app, filter_cons, !length_app. case_decide; simpl; lia. Qed.

Lemma elem_of_at (x : WorkPc) a pc b : x ∈ a ++ pc :: b ↔ x = pc ∨ x ∈ a ++ b.
Proof. set_solver. Qed.

Lemma pool_new_inv capacity workers : 0 ≤ capacity → pool_inv (Pool_new capacity workers).
Proof.
  intros Hc. split; simpl; try done; try lia.
  - by apply ConnQueue_new_ok.
  - split; [lia|done].
  - intros [? _]%elem_of_replicate. done.
Qed.

(** The accept loop changed only its own position. *)
Lemma prod_moves q pc pc' ws st acc pu po dr :
  pool_inv (mkPool q pc ws st acc pu po dr) → in_hand pc' = in_hand pc → leaving pc' = leaving pc →
  past_close pc' = past_close pc → pending_notify pc' = pending_notify pc →
  (past_close pc' = true → WSleep ∈ ws → pc' = PWakeEmpty) → (pc' = PDone → Forall (eq WExit) ws) →
  (∀ fd, pc' = PSleep fd → cq_capacity q ≤ depth q ∨ ∃ fd', WNotify fd' ∈ ws) →
  pool_inv (mkPool q pc' ws st acc pu po dr).
Proof.
  intros [Hq Hf Ha Hd Hw Hc Haw He Hj Hr] H1 H2 H3 H4 H5 H6 H7. simpl in *.
  split; simpl; rewrite ?H1, ?H2, ?H3, ?H4; try done. by rewrite <-H3.
Qed.

Lemma pushed_inv (expired : bool) q q' pc ws st acc pu po dr fd :
  pool_inv (mkPool q pc ws st acc pu po dr) → pc = (if expired then PExpired fd else PPush fd) →
  push_for expired fd q = Some (Pushed, q') → pool_inv (mkPool q' PNotify ws st acc (pu ++ [fd]) po dr).
Proof.
  intros [Hq Hf Ha Hd Hw Hc Haw He Hj Hr] -> E. simpl in *. pose proof (push_for_ok _ _ _ _ _ Hq E) as Hq'.
  pose proof (push_for_cases expired fd q) as Hp. rewrite E in Hp. destruct Hp as (Hcl & Hlt & ->).
  assert (dr = []) as -> by (apply Hd; by destruct expired). split; simpl in *; try done.
  - by rewrite Hf, (assoc_L (++)).
  - rewrite Ha. destruct expired; simpl; by rewrite ?(right_id_L [] (++)).
  - split; [lia|done].
  - intros Hs. specialize (Hw Hs). rewrite length_app. simpl. destruct expired; simpl in Hw; lia.
  - intros Hx. destruct (He Hx) as [Hp _]. by destruct expired.
Qed.

(** The accept loop ends, closing the client it holds if any. *)
Lemma leave_inv q pc ws st acc pu po dr :
  pool_inv (mkPool q pc ws st acc pu po dr) → leaving pc = false → pending_notify pc = 0%nat →
  pool_inv (mkPool q PClose ws st acc pu po (dr ++ in_hand pc)).
Proof.
  intros [Hq Hf Ha [_ Hd] Hw Hc Haw He Hj Hr] Hl Hn. simpl in *. rewrite (Hd Hl), Hn in *.
  assert (past_close pc = false) as Hp by by destruct pc. rewrite Hp in *.
  split; simpl; rewrite ?(right_id_L [] (++)) in *; try done.
  - split; [|done]. destruct pc; simpl; lia.
Qed.
Lemma wake_one_inv q ws ws' st acc pu po dr :
  pool_inv (mkPool q PNotify ws st acc pu po dr) → wake_one ws ws' → pool_inv (mkPool q PLoop ws' st acc pu po dr).
Proof.
  intros [Hq Hf Ha Hd Hw Hc Haw He Hj Hr] Hwk. simpl in *. destruct Hwk as [a b|ws Hn]; split; simpl; try done.
  - rewrite !poppers_at in *. intros _. rewrite decide_True by done. rewrite decide_False in Hw by done. simpl in Hw.
    pose proof (Hw (proj2 (elem_of_at _ _ _ _) (or_introl eq_refl))). lia.
  - rewrite !elem_of_at in *. intros [?|?]; [done|]. auto.
Qed.

Lemma wake_all_asleep (ws : list WorkPc) : WSleep ∉ wake <$> ws.
Proof. intros (pc & Hpc & _)%list_elem_of_fmap. by destruct pc. Qed.

Lemma wake_elem (ws : list WorkPc) pc : pc ≠ WPop → pc ∈ wake <$> ws → pc ∈ ws.
Proof. intros Hn (pc' & -> & Hin)%list_elem_of_fmap. by destruct pc'. Qed.

Lemma prod_step_inv p p' : pool_inv p → prod_step p p' → pool_inv p'.
Proof.
  intros Hi Hs. destruct Hs as [q ws acc pu po dr|q ws acc pu po dr|q ws st acc pu po dr|q ws st acc pu po dr fd
    |q ws st acc pu po dr fd E|q q' pc expired ws st acc pu po dr fd Hpc E|q q' pc expired ws st acc pu po dr fd Hpc E
    |q q' ws st acc pu po dr fd E|q ws acc pu po dr fd|q ws acc pu po dr fd|q ws ws' st acc pu po dr Hw
    |q q' woken ws st acc pu po dr E|q ws st acc pu po dr|q ws st acc pu po dr|q ws st acc pu po dr Hall].
  - pose proof (leave_inv _ _ _ _ _ _ _ _ Hi eq_refl eq_refl) as H. simpl in H. by rewrite (right_id_L [] (++)) in H.
  - by apply (prod_moves _ _ _ _ _ _ _ _ _ Hi).
  - by apply (prod_moves _ _ _ _ _ _ _ _ _ Hi).
  - destruct Hi as [? ? Ha [? Hd] ? ? ? ? ? ?]. simpl in *. split; simpl; try done. rewrite (Hd eq_refl) in *.
    by rewrite Ha, !(right_id_L [] (++)).
  - apply (prod_moves _ _ _ _ _ _ _ _ _ Hi); try done. intros fd' [= ->].
    pose proof (push_for_cases false fd' q) as H. rewrite E in H. left. apply H.
  - by eapply pushed_inv.
  - exfalso. pose proof (push_for_cases expired fd q) as H. rewrite E in H. destruct H as [Hcl _].
    pose proof (pi_closed _ Hi) as Hc. simpl in Hc. rewrite Hcl, Hpc in Hc. by destruct expired.
  - pose proof (push_for_cases true fd q) as H. rewrite E in H. destruct H as (_ & _ & _ & ->).
    by apply (prod_moves _ _ _ _ _ _ _ _ _ Hi).
  - by apply (prod_moves _ _ _ _ _ _ _ _ _ Hi).
  - exact (leave_inv _ _ _ _ _ _ _ _ Hi eq_refl eq_refl).
  - by eapply wake_one_inv.
  - destruct Hi as [Hq ? ? ? ? Hc ? He ? ?]. simpl in *. unfold close in E. rewrite Hc in E. injection E as <- <-.
    split; simpl; try done. intros Hx. by destruct (He Hx).
  - destruct Hi as [Hq ? ? ? ? Hc ? He ? ?]. simpl in *. split; simpl; try done.
    + by intros ?%wake_all_asleep.
    + by intros _ ?%wake_all_asleep.
    + intros Hx%wake_elem; [by apply He|done].
  - apply (prod_moves _ _ _ _ _ _ _ _ _ Hi); try done. intros _ Hx. discriminate (pi_awake _ Hi eq_refl Hx).
  - apply (prod_moves _ _ _ _ _ _ _ _ _ Hi); try done. intros _ Hx. discriminate (pi_awake _ Hi eq_refl Hx).
Qed.

(** A worker moves from [pc] to [pc'] and the queue stays as it is. *)
Lemma work_moves q pr a b pc pc' st acc pu po dr :
  pool_inv (mkPool q pr (a ++ pc :: b) st acc pu po dr) → pc' ≠ WSleep → pc' ≠ WExit →
  pc ≠ WPop → pc ≠ WExit → (∀ fd, pc ≠ WNotify fd) → pool_inv (mkPool q pr (a ++ pc' :: b) st acc pu po dr).
Proof.
  intros [Hq Hf Ha Hd Hw Hc Haw He Hj Hr] H1 H2 H3 H3' H4. simpl in *. split; simpl; try done.
  - rewrite elem_of_at, poppers_at in *. intros [?|Hs]; [by subst|]. rewrite (decide_False (P := WPop = pc)) in Hw by congruence.
    specialize (Hw (or_intror Hs)). lia.
  - intros Hp [?|Hs]%elem_of_at; [by subst|]. apply Haw; [done|]. apply elem_of_at. auto.
  - intros [?|Hs]%elem_of_at; [by subst|]. apply He, elem_of_at. auto.
  - intros Hpr. specialize (Hj Hpr). rewrite Forall_app, Forall_cons in Hj. by destruct Hj as (_ & <- & _).
  - intros fd Hp. destruct (Hr fd Hp) as [?|[fd' Hn]]; [by left|right]. exists fd'. apply elem_of_at in Hn as [Hn|Hn].
    + by destruct (H4 fd').
    + apply elem_of_at. auto.
Qed.

Lemma popped_inv q q' pc a b st acc pu po dr fd :
  pool_inv (mkPool q pc (a ++ WPop :: b) st acc pu po dr) → pop q = Some (Some fd, q') →
  pool_inv (mkPool q' pc (a ++ WNotify fd :: b) st acc pu (po ++ [fd]) dr).
Proof.
  intros [Hq Hf Ha Hd Hw Hc Haw He Hj Hr] E. simpl in *. pose proof (pop_ok _ _ _ Hq E) as Hq'.
  pose proof (pop_cases q) as Hp. rewrite E in Hp. destruct Hp as (rest & Hqq & ->). rewrite Hqq in *.
  split; simpl; try done.
  - by rewrite Hf, <-(assoc_L (++)).
  - rewrite elem_of_at, !poppers_at in *. intros [?|Hs]; [done|]. specialize (Hw (or_intror Hs)).
    rewrite (decide_False (P := WPop = WNotify fd)) by done. rewrite decide_True in Hw by done. simpl in Hw. lia.
  - intros Hp [?|Hs]%elem_of_at; [done|]. apply Haw; [done|]. apply elem_of_at. auto.
  - intros [?|Hs]%elem_of_at; [done|]. destruct He as [_ ?]; [|done]. apply elem_of_at. auto.
  - intros Hpr. specialize (Hj Hpr). rewrite Forall_app, Forall_cons in Hj. by destruct Hj as (_ & ? & _).
  - intros fd' Hp. right. exists fd. apply elem_of_at. auto.
Qed.

(** [notify_one] on [not_full_]: the only possible waiter is the accept loop. *)
Lemma notify_full_inv q pc a b st acc pu po dr fd :
  pool_inv (mkPool q pc (a ++ WNotify fd :: b) st acc pu po dr) →
  pool_inv (mkPool q (wake_prod pc) (a ++ WServe fd :: b) st acc pu po dr).
Proof.
  intros [Hq Hf Ha Hd Hw Hc Haw He Hj Hr]. simpl in *.
  assert (in_hand (wake_prod pc) = in_hand pc ∧ leaving (wake_prod pc) = leaving pc ∧
    past_close (wake_prod pc) = past_close pc ∧ pending_notify (wake_prod pc) = pending_notify pc) as (H1 & H2 & H3 & H4)
    by by destruct pc.
  split; simpl; rewrite ?H1, ?H2, ?H3, ?H4; try done.
  - rewrite elem_of_at, !poppers_at in *. intros [?|Hs]; [done|]. specialize (Hw (or_intror Hs)).
    rewrite (decide_False (P := WPop = WServe fd)) by done. rewrite decide_False in Hw by done. lia.
  - intros Hp [?|Hs]%elem_of_at; [done|]. rewrite Haw; [done|done|]. apply elem_of_at. auto.
  - intros [?|Hs]%elem_of_at; [done|]. apply He, elem_of_at. auto.
  - intros Hpr. assert (pc = PDone) as Hpc by by destruct pc. specialize (Hj Hpc).
    rewrite Forall_app, Forall_cons in Hj. by destruct Hj as (_ & ? & _).
  - by destruct pc.
Qed.

Lemma work_step_inv p p' : pool_inv p → work_step p p' → pool_inv p'.
Proof.
  intros Hi Hs. destruct Hs as [q pc a b st acc pu po dr E|q q' pc a b st acc pu po dr E|q q' pc a b st acc pu po dr fd E
    |q pc a b st acc pu po dr fd|q pc a b st acc pu po dr fd].
  - pose proof (pop_cases q) as Hp. rewrite E in Hp. destruct Hp as [Hqe Hcl].
    destruct Hi as [Hq Hf Ha Hd Hw Hc Haw He Hj Hr]. simpl in *. rewrite Hcl in Hc. split; simpl; try done.
    + intros _. rewrite Hqe. simpl. lia.
    + by rewrite <-Hc.
    + by rewrite <-Hc.
    + intros [?|Hs]%elem_of_at; [done|]. apply He, elem_of_at. auto.
    + intros ->. by simpl in Hc.
    + intros fd Hp. destruct (Hr fd Hp) as [?|[fd' [?|Hn]%elem_of_at]]; [by left|done|]. right. exists fd'. apply elem_of_at. auto.
  - pose proof (pop_cases q) as Hp. rewrite E in Hp. destruct Hp as (Hqe & Hcl & ->).
    destruct Hi as [Hq Hf Ha Hd Hw Hc Haw He Hj Hr]. simpl in *. rewrite Hcl in Hc. split; simpl; try done.
    + intros _. rewrite Hqe. simpl. lia.
    + congruence.
    + intros Hp [?|Hs]%elem_of_at; [done|]. apply Haw; [done|]. apply elem_of_at. auto.
    + intros Hpr. specialize (Hj Hpr). rewrite Forall_app, Forall_cons in *. naive_solver.
    + intros fd ->. by simpl in Hc.
  - by eapply popped_inv.
  - by eapply notify_full_inv.
  - by eapply work_moves.
Qed.

Lemma env_step_inv p p' : pool_inv p → env_step p p' → pool_inv p'.
Proof.
  intros Hi Hs. destruct Hs.
  - by destruct Hi; split.
  - by apply (prod_moves _ _ _ _ _ _ _ _ _ Hi).
  - by apply (prod_moves _ _ _ _ _ _ _ _ _ Hi).
  - by eapply work_moves.
Qed.

Lemma pool_step_inv p p' : pool_inv p → pool_step p p' → pool_inv p'.
Proof. intros Hi [?|[?|?]]; [by eapply prod_step_inv|by eapply work_step_inv|by eapply env_step_inv]. Qed.

Lemma pool_reach_inv capacity workers p : 0 ≤ capacity → pool_reach capacity workers p → pool_inv p.
Proof.
  intros Hc Hr. pose proof (pool_new_inv capacity workers Hc) as Hi. unfold pool_reach in Hr.
  induction Hr as [p|p1 p2 p3 Hs _ IH]; [done|]. apply IH. by eapply pool_step_inv.
Qed.

(** The number of workers never changes. *)
Lemma workers_step p p' : pool_step p p' → length (p_workers p') = length (p_workers p).
Proof.
  intros [Hs|[Hs|Hs]]; destruct Hs as []; simpl; rewrite ?length_fmap, ?length_app; simpl; try done.
  match goal with H : wake_one _ _ |- _ => destruct H end; rewrite ?length_app; done.
Qed.

Lemma workers_reach capacity workers p :
  pool_reach capacity workers p → length (p_workers p) = Z.to_nat (if workers =? 0 then 1 else workers).
Proof.
  intros Hr. unfold pool_reach in Hr. rewrite <-(length_replicate (Z.to_nat (if workers =? 0 then 1 else workers)) WPop).
  change (replicate _ WPop) with (p_workers (Pool_new capacity workers)).
  induction Hr as [p|p1 p2 p3 Hs _ IH]; [done|]. rewrite IH. by apply workers_step.
Qed.

Lemma capacity_step p p' : pool_step p p' → cq_capacity (p_queue p') = cq_capacity (p_queue p).
Proof.
  intros [Hs|[Hs|Hs]]; destruct Hs as []; simpl; try done;
    match goal with
    | H : push_for ?e ?fd ?q = Some _ |- _ => pose proof (push_for_cases e fd q) as Hc; rewrite H in Hc; naive_solver
    | H : pop ?q = Some _ |- _ => pose proof (pop_cases q) as Hc; rewrite H in Hc; naive_solver
    | H : close ?q = _ |- _ => unfold close in H; destruct (cq_closed q); naive_solver
    end.
Qed.

Lemma capacity_reach capacity workers p :
  0 ≤ capacity → pool_reach capacity workers p → cq_capacity (p_queue p) = Z.max 1 capacity.
Proof.
  intros Hc Hr. assert (cq_capacity (p_queue (Pool_new capacity workers)) = Z.max 1 capacity) as <-.
  { simpl. destruct (Z.eqb_spec capacity 0); lia. }
  unfold pool_reach in Hr. induction Hr as [p|p1 p2 p3 Hs _ IH]; [done|]. rewrite IH. by apply capacity_step.
Qed.

Lemma in_flight_le p : (length (in_flight p) ≤ length (p_workers p))%nat.
Proof.
  unfold in_flight. induction (p_workers p) as [|pc ws IH]; [done|]. rewrite fmap_cons. simpl. rewrite length_app.
  destruct pc; simpl; lia.
Qed.

(** ** Who can move *)

Lemma wake_one_total ws : ∃ ws', wake_one ws ws'.
Proof.
  destruct (decide (WSleep ∈ ws)) as [(a & b & ->)%list_elem_of_split|Hn]; eexists; [by apply wake_some|by apply wake_none].
Qed.

Lemma prod_moves_on p :
  pool_inv p → (∀ fd, p_prod p ≠ PSleep fd) → p_prod p ≠ PJoin → p_prod p ≠ PDone → ∃ p', prod_step p p'.
Proof.
  destruct p as [q pc ws st acc pu po dr]. intros Hi Hs Hj Hd. simpl in *. pose proof (pi_closed _ Hi) as Hcl. simpl in Hcl.
  assert (∀ (expired : bool) fd, pc = (if expired then PExpired fd else PPush fd) →
    (∃ q', push_for expired fd q = Some (Pushed, q')) ∨ (if expired then ∃ q', push_for true fd q = Some (TimedOut, q')
      else push_for false fd q = None)) as Hpush.
  { intros expired fd Hpc. pose proof (push_for_cases expired fd q) as H.
    destruct (push_for expired fd q) as [[[] q']|] eqn:E; [by left; eauto|right|exfalso|right].
    - destruct H as (_ & _ & -> & _). eauto.
    - destruct H as [H _]. rewrite H, Hpc in Hcl. by destruct expired.
    - destruct H as (_ & _ & ->). done. }
  destruct pc; try done.
  - destruct st; eexists; constructor.
  - eexists. apply ps_nobody.
  - destruct (Hpush false fd eq_refl) as [[q' E]|E]; eexists; [by apply (ps_pushed q q' _ false)|by apply ps_sleep].
  - by destruct (Hs fd).
  - destruct (Hpush true fd eq_refl) as [[q' E]|[q' E]]; eexists; [by apply (ps_pushed q q' _ true)|by eapply ps_timed_out].
  - destruct st; eexists; constructor.
  - destruct (wake_one_total ws). eexists. by constructor.
  - destruct (close q) eqn:E. eexists. by eapply ps_close.
  - eexists. constructor.
  - eexists. constructor.
Qed.

Lemma worker_moves_on p pc : pc ∈ p_workers p → pc ≠ WSleep → pc ≠ WExit → ∃ p', work_step p p'.
Proof.
  destruct p as [q pr ws st acc pu po dr]. simpl. intros (a & b & ->)%list_elem_of_split Hs He. destruct pc; try done.
  - destruct (pop q) as [[[fd|] q']|] eqn:E; eexists; [by eapply ws_popped|by eapply ws_exit|by eapply ws_sleep].
  - eexists. apply ws_notify.
  - eexists. apply ws_served.
Qed.

(** If no worker can move, each of them sleeps or has returned. *)
Lemma idle_workers p :
  (∃ p', work_step p p') ∨ Forall (λ pc, pc = WSleep ∨ pc = WExit) (p_workers p).
Proof.
  destruct (decide (Forall (λ pc, pc = WSleep ∨ pc = WExit) (p_workers p))) as [|Hn]; [by right|left].
  apply not_Forall_Exists in Hn; [|apply _]. apply Exists_exists in Hn as (pc & Hin & Hpc).
  apply (worker_moves_on p pc); [done|naive_solver..].
Qed.

Lemma poppers_none ws : WPop ∉ ws → poppers ws = 0%nat.
Proof.
  intros Hn. unfold poppers. destruct (filter _ _) as [|x l] eqn:E; [done|]. exfalso. apply Hn.
  assert (x ∈ filter (eq WPop) ws) as Hx by (rewrite E; set_solver).
  by apply list_elem_of_filter in Hx as [<- ?].
Qed.

(** Somebody can move. *)
Lemma pool_progress capacity workers p :
  0 ≤ capacity → 0 ≤ workers → pool_reach capacity workers p →
  p_prod p = PDone ∨ ∃ p', prod_step p p' ∨ work_step p p'.
Proof.
  intros Hc Hw Hr. pose proof (pool_reach_inv _ _ _ Hc Hr) as Hi. pose proof (workers_reach _ _ _ Hr) as Hl.
  destruct (idle_workers p) as [[p' ?]|Hidle]; [eauto|]. rewrite Forall_forall in Hidle.
  assert (∃ pc, pc ∈ p_workers p) as [pc0 Hpc0].
  { destruct (p_workers p) as [|x ws]; [simpl in Hl; destruct (Z.eqb_spec workers 0); lia|]. exists x. set_solver. }
  assert (WPop ∉ p_workers p) as Hnp by (intros Hin%Hidle; naive_solver).
  pose proof Hi as [[Hcap Hd] _ _ _ Hwk Hcl Haw He _ Hroom]. rewrite (poppers_none _ Hnp) in Hwk.
  destruct (p_prod p) as [| | |fd| | | | | | | |] eqn:Hp; try (destruct (prod_moves_on p) as [p' ?]; [done|congruence..|eauto]); [| |by left].
  - exfalso. destruct (Hidle pc0 Hpc0) as [->| ->]; [|by destruct (He Hpc0)]. specialize (Hwk Hpc0). simpl in Hwk.
    destruct (Hroom fd eq_refl) as [Hfull|[fd' Hn]]; [unfold depth, zlen in *; lia|].
    destruct (Hidle _ Hn) as [?|?]; done.
  - right. destruct p as [q pr ws st acc pu po dr]. simpl in *. subst pr. eexists. left. apply ps_joined.
    apply Forall_forall. intros pc Hin. destruct (Hidle pc Hin) as [->|?]; [|done]. by specialize (Haw eq_refl Hin).
Qed.

(** ** The properties *)

(** The pool is bounded.  With N workers and a queue of capacity C (each at
least one), at most N clients are being served, at most C wait in the queue,
and the proxy holds at most N + C + 1 accepted clients. *)
Lemma pool_bounded capacity workers p :
  0 ≤ capacity → 0 ≤ workers → pool_reach capacity workers p →
  zlen (in_flight p) ≤ Z.max 1 workers ∧ depth (p_queue p) ≤ Z.max 1 capacity ∧
  zlen (in_flight p ++ cq_queue (p_queue p) ++ in_hand (p_prod p)) ≤ Z.max 1 workers + Z.max 1 capacity + 1.
Proof.
  intros Hc Hw Hr. pose proof (pool_reach_inv _ _ _ Hc Hr) as [[_ Hd] _ _ _ _ _ _ _ _ _].
  pose proof (workers_reach _ _ _ Hr) as Hl. rewrite (capacity_reach _ _ _ Hc Hr) in Hd. pose proof (in_flight_le p) as Hf.
  assert (zlen (in_flight p) ≤ Z.max 1 workers) as H1 by (unfold zlen; destruct (Z.eqb_spec workers 0); lia).
  split_and!; [done|done|]. unfold depth, zlen in *. rewrite !length_app. destruct (p_prod p); simpl; lia.
Qed.

(** First come, first served.  The clients the workers took are, in order, the
first of those that entered the queue, and the rest is the queue; every accepted
client was taken, or waits, or is in the hands of the accept loop, or was
closed because the proxy is shutting down, which happens to one at most. *)
Lemma pool_fifo capacity workers p :
  0 ≤ capacity → pool_reach capacity workers p →
  p_accepted p = p_popped p ++ cq_queue (p_queue p) ++ in_hand (p_prod p) ++ p_dropped p ∧
  (length (p_dropped p) ≤ 1)%nat ∧ (p_dropped p ≠ [] → leaving (p_prod p) = true).
Proof.
  intros Hc Hr. pose proof (pool_reach_inv _ _ _ Hc Hr) as [_ Hf Ha [Hd Hl] _ _ _ _ _ _].
  split; [by rewrite Ha, Hf, <-(assoc_L (++))|]. split; [done|]. destruct (leaving (p_prod p)); naive_solver.
Qed.

(** C20: No lost wakeup.  If a worker sleeps although a client waits in the queue,
some other worker is about to take one or the notification is about to be sent;
and no worker sleeps on a closed queue once the closing thread has notified. *)
Theorem pool_no_lost_wakeup capacity workers p :
  0 ≤ capacity → pool_reach capacity workers p → WSleep ∈ p_workers p →
  (cq_queue (p_queue p) ≠ [] → WPop ∈ p_workers p ∨ p_prod p = PNotify) ∧
  (cq_closed (p_queue p) = true → p_prod p = PWakeEmpty).
Proof.
  intros Hc Hr Hs. pose proof (pool_reach_inv _ _ _ Hc Hr) as [_ _ _ _ Hw Hcl Haw _ _ _]. split.
  - intros Hq. specialize (Hw Hs). destruct (decide (WPop ∈ p_workers p)) as [|Hn]; [by left|right].
    rewrite (poppers_none _ Hn) in Hw.
    destruct (cq_queue (p_queue p)); [done|]. simpl in Hw. destruct (p_prod p); simpl in *; try done; lia.
  - intros Hx. rewrite Hcl in Hx. by apply Haw.
Qed.

(** A clean shutdown.  When [run] has joined its workers the queue is empty, every
worker has returned, and every client that entered the queue was served. *)
Lemma pool_shutdown capacity workers p :
  0 ≤ capacity → 0 ≤ workers → pool_reach capacity workers p → p_prod p = PDone →
  Forall (eq WExit) (p_workers p) ∧ cq_queue (p_queue p) = [] ∧ p_popped p = p_pushed p ∧
  p_accepted p = p_popped p ++ p_dropped p.
Proof.
  intros Hc Hw Hr Hp. pose proof (pool_reach_inv _ _ _ Hc Hr) as [_ Hf Ha _ _ _ _ He Hj _].
  pose proof (workers_reach _ _ _ Hr) as Hl. specialize (Hj Hp). rewrite Hp in Ha.
  assert (cq_queue (p_queue p) = []) as Hq.
  { apply He. destruct (p_workers p) as [|x ws] eqn:E.
    - simpl in Hl. destruct (Z.eqb_spec workers 0); lia.
    - apply Forall_cons in Hj as [<- _]. set_solver. }
  rewrite Hq, (right_id_L [] (++)) in Hf. split_and!; try done. by rewrite Ha, Hf.
Qed.

(** ** A concrete run *)

(** One worker, room for one client: client 7 arrives while the worker sleeps. *)
Definition one_waits : Pool := mkPool (mkQueue [7] 1 false) PNotify [WSleep] false [7] [7] [] [].

Lemma one_waits_reached : pool_reach 1 1 one_waits.
Proof.
  eapply rtc_l; [right; left; by apply (ws_sleep _ _ [] [])|]. simpl.
  eapply rtc_l; [left; apply ps_go|]. eapply rtc_l; [left; apply (ps_accept _ _ _ _ _ _ _ 7)|].
  eapply rtc_l; [left; by eapply (ps_pushed _ _ _ false _ _ _ _ _ _ 7)|]. apply rtc_refl.
Qed.

Lemma pool_no_lost_wakeup_witness :
  p_workers one_waits = [WSleep] ∧ (WPop ∈ p_workers one_waits ∨ p_prod one_waits = PNotify).
Proof.
  split; [reflexivity|].
  refine (proj1 (pool_no_lost_wakeup 1 1 one_waits ltac:(lia) one_waits_reached _) _); [by left|discriminate].
Defined.
