(* ===== verification/ThreadPoolStop.v ===== *)
(** * The thread pool stops ([backend/thread_pool.cpp])

Once [stop] has been called, the threads of the pool run out of work: a weight
on the states of the pool goes down at every step of the accept loop and of the
workers, and goes up by at most one when the surroundings wake a thread. *)
From S2P Require Import Prelude ConnQueue ThreadPool.

(** ** The weight of a state *)

Definition worker_weight (pc : WorkPc) : nat :=
  match pc with WExit => 0 | WSleep => 1 | WPop => 2 | WServe _ => 3 | WNotify _ => 5 end.

(** The accept loop with [n] workers; a client yet to be pushed weighs 4. *)
Definition prod_weight (n : nat) (pc : ProdPc) : nat :=
  match pc with
  | PDone => 0 | PJoin => 1 | PWakeFull => 2 | PWakeEmpty => n + 3 | PClose => n + 4 | PLoop => n + 5 | PNotify => n + 7
  | PSleep _ | PRecheck _ => n + 11 | PPush _ | PExpired _ => n + 12 | PAccept => n + 13
  end.

Definition workers_weight (ws : list WorkPc) : nat := sum_list_with worker_weight ws.

Definition weight (p : Pool) : nat :=
  prod_weight (length (p_workers p)) (p_prod p) + workers_weight (p_workers p) + 4 * length (cq_queue (p_queue p)).

Lemma workers_weight_at a pc b : workers_weight (a ++ pc :: b) = (workers_weight (a ++ b) + worker_weight pc)%nat.
Proof. unfold workers_weight. rewrite !sum_list_with_app. simpl. lia. Qed.

Lemma workers_weight_wake ws : (workers_weight (wake <$> ws) ≤ workers_weight ws + length ws)%nat.
Proof.
  unfold workers_weight. induction ws as [|pc ws IH]; [done|]. rewrite fmap_cons. simpl. destruct pc; simpl; lia.
Qed.

Lemma workers_weight_le ws : (workers_weight ws ≤ 5 * length ws)%nat.
Proof. unfold workers_weight. induction ws as [|pc ws IH]; simpl in *; [lia|]. destruct pc; simpl; lia. Qed.

(** A step of the pool's own threads. *)
Definition own_step (p p' : Pool) : Prop := prod_step p p' ∨ work_step p p'.

Lemma own_step_pool p p' : own_step p p' → pool_step p p'.
Proof. intros [?|?]; [by left|by right; left]. Qed.

Lemma env_step_pool p p' : env_step p p' → pool_step p p'.
Proof. intros ?. by right; right. Qed.

Lemma stop_kept p p' : pool_step p p' → p_stop p = true → p_stop p' = true.
Proof. intros [Hs|[Hs|Hs]]; by destruct Hs. Qed.

Lemma prod_step_lighter p p' : prod_step p p' → p_stop p = true → (weight p' < weight p)%nat.
Proof.
  intros Hs. destruct Hs as [| | | | |q q' pc expired ws st acc pu po dr fd -> E|q q' pc expired ws st acc pu po dr fd -> E
    |q q' ws st acc pu po dr fd E| | |q ws ws' st acc pu po dr Hw|q q' woken ws st acc pu po dr E|q ws st acc pu po dr| |];
    unfold weight; simpl; intros Hst; try done; try lia.
  - pose proof (push_for_cases expired fd q) as H. rewrite E in H. destruct H as (_ & _ & ->). simpl. rewrite length_app.
    destruct expired; simpl; lia.
  - pose proof (push_for_cases expired fd q) as H. rewrite E in H. destruct H as [_ ->]. destruct expired; simpl; lia.
  - pose proof (push_for_cases true fd q) as H. rewrite E in H. destruct H as (_ & _ & _ & ->). lia.
  - destruct Hw as [a b|]; [rewrite !workers_weight_at, !length_app; simpl|]; lia.
  - unfold close in E. destruct (cq_closed q); injection E as <- <-; simpl; lia.
  - pose proof (workers_weight_wake ws). lia.
Qed.

Lemma work_step_lighter p p' : work_step p p' → (weight p' < weight p)%nat.
Proof.
  intros Hs. destruct Hs as [|q q' pc a b st acc pu po dr E|q q' pc a b st acc pu po dr fd E|q pc a b st acc pu po dr fd|];
    unfold weight; simpl; rewrite !workers_weight_at, !length_app; simpl; try lia.
  - pose proof (pop_cases q) as H. rewrite E in H. destruct H as (_ & _ & ->). lia.
  - pose proof (pop_cases q) as H. rewrite E in H. destruct H as (rest & -> & ->). simpl. lia.
  - destruct pc; simpl; lia.
Qed.

Lemma env_step_weight p p' : env_step p p' → (weight p' ≤ weight p + 1)%nat.
Proof. intros Hs. destruct Hs; unfold weight; simpl; rewrite ?workers_weight_at, ?length_app; simpl; lia. Qed.

(** A run with [n] steps of the pool's threads and [e] of the surroundings. *)
Inductive run_of : nat → nat → Pool → Pool → Prop :=
| run_nil p : run_of 0 0 p p
| run_own n e p1 p2 p3 : own_step p1 p2 → run_of n e p2 p3 → run_of (S n) e p1 p3
| run_env n e p1 p2 p3 : env_step p1 p2 → run_of n e p2 p3 → run_of n (S e) p1 p3.

Lemma run_of_weight n e p p' : run_of n e p p' → p_stop p = true → (n + weight p' ≤ weight p + e)%nat.
Proof.
  intros Hr. induction Hr as [p|n e p1 p2 p3 Hs _ IH|n e p1 p2 p3 Hs _ IH]; intros Hst; [lia| |].
  - assert (weight p2 < weight p1)%nat as H by (destruct Hs; [by apply prod_step_lighter|by apply work_step_lighter]).
    specialize (IH (stop_kept _ _ (own_step_pool _ _ Hs) Hst)). lia.
  - pose proof (env_step_weight _ _ Hs). specialize (IH (stop_kept _ _ (env_step_pool _ _ Hs) Hst)). lia.
Qed.

Lemma run_of_reach n e p p' : run_of n e p p' → rtc pool_step p p'.
Proof.
  intros Hr. induction Hr as [|n e p1 p2 p3 Hs _ IH|n e p1 p2 p3 Hs _ IH];
    [done|eapply rtc_l, IH; auto using own_step_pool, env_step_pool..].
Qed.

Lemma weight_bounded capacity workers p :
  0 ≤ capacity → 0 ≤ workers → pool_reach capacity workers p →
  Z.of_nat (weight p) ≤ 6 * Z.max 1 workers + 4 * Z.max 1 capacity + 13.
Proof.
  intros Hc Hw Hr. pose proof (pool_reach_inv _ _ _ Hc Hr) as [[_ Hd] _ _ _ _ _ _ _ _ _].
  pose proof (workers_reach _ _ _ Hr) as Hl. rewrite (capacity_reach _ _ _ Hc Hr) in Hd.
  pose proof (workers_weight_le (p_workers p)). unfold weight, depth, zlen in *.
  assert (prod_weight (length (p_workers p)) (p_prod p) ≤ length (p_workers p) + 13)%nat by (destruct (p_prod p); simpl; lia).
  destruct (Z.eqb_spec workers 0); lia.
Qed.


(** One worker sleeps, the proxy is told to stop, and all threads return. *)
Definition told_to_stop : Pool := mkPool (mkQueue [] 1 false) PLoop [WSleep] true [] [] [] [].
Definition stopped : Pool := mkPool (mkQueue [] 1 true) PDone [WExit] true [] [] [] [].

Lemma told_to_stop_reached : pool_reach 1 1 told_to_stop.
Proof.
  eapply rtc_l; [right; left; by apply (ws_sleep _ _ [] [])|]. simpl.
  eapply rtc_l; [right; right; apply es_signal|]. apply rtc_refl.
Qed.

Lemma stopping_run : run_of 6 0 told_to_stop stopped.
Proof.
  eapply run_own; [left; apply ps_stop_seen|]. eapply run_own; [left; by eapply ps_close|].
  eapply run_own; [left; apply ps_wake_empty|]. eapply run_own; [left; apply ps_wake_full|].
  eapply run_own; [right; by eapply (ws_exit _ _ _ [] [])|]. simpl.
  eapply run_own; [left; apply ps_joined; by repeat constructor|]. apply run_nil.
Qed.

