(* ===== verification/ThreadPerConn.v ===== *)
(** * One thread per connection ([backend/thread_per_conn.cpp])

[serve] is the body of the thread of one connection; the workers of the thread
pool run the same loop on each client they take.  The threads, the accept loop
and the counter [live_] that stands in for the joins detached threads do
not have are a transition system. *)
From S2P Require Import Prelude CppString Http Config Cache CacheSpec Kernel SimKernel Socket Resolver ResolverSpec.
From S2P Require Import Connection ConnectionInv ConnectionSpec EventLoopInv.

(** ** Serving one connection *)

Section serve.
Context {K C : Type} `{!Kernel K, !ResponseCache C}.
Implicit Type w : World K C.
Context (cfg : Config).

(** The loop, for at most [n] rounds. *)
Fixpoint serve_loop (n : nat) (conn : Connection) w : Connection * World K C :=
  match n with
  | O => (conn, w)
  | S n' =>
      if done_ conn then (conn, w) else
      let fd := want_fd conn w in
      if fd <? 0 then (conn, w) else
      let '(ready, k) := wait_ready fd (want_write conn) (poll_timeout_ms cfg) (kern w) in
      if negb ready then (conn, set_kern k w) else
      let '(conn, w) := on_ready cfg conn (set_kern k w) in serve_loop n' conn w
  end.

(** The whole scope: the connection is destroyed at its end. *)
Definition serve (n : nat) (client id : Z) w : World K C :=
  let '(conn, w) := Connection_new client id w in
  let '(conn, w) := serve_loop n conn w in Connection_destroy conn w.
End serve.

Section serve_ok.
Context {K C : Type} `{!Kernel K, !KernelLaws K, !ResponseCache C, !ResponseCacheLaws C}.
Implicit Type w : World K C.
Context (cfg : Config).

Lemma conn_inv_silent fc B c w k : conn_inv fc B c w → silent (kern w) k → conn_inv fc B c (set_kern k w).
Proof. unfold silent. intros [[] ?] Ho. split; [split|]; simpl; by rewrite ?Ho. Qed.

Lemma serve_loop_inv fc B n c w :
  conn_inv fc B c w → conn_inv fc B (serve_loop cfg n c w).1 (serve_loop cfg n c w).2.
Proof.
  revert c w; induction n as [|n IH]; intros c w Hi; [done|]. simpl. destruct (done_ c); [done|].
  destruct (want_fd c w <? 0); [done|]. destruct (wait_ready _ _ _ _) as [ready k] eqn:E. apply wait_ready_silent in E.
  pose proof (conn_inv_silent _ _ _ _ _ Hi E) as Hi'. destruct ready; [|done]. simpl.
  pose proof (so_inv _ _ _ _ _ (on_ready_ok cfg fc B _ _ Hi')) as Hn. destruct (on_ready cfg c _) as [c' w']. by apply IH.
Qed.

(** A connection thread cleans up after itself.  However the exchange ends (the
response is complete, a peer is silent for too long, an error), and however
far it has got, when [serve] returns the client socket is closed, and every
descriptor that is open was open before, or belongs to a lookup that
somebody still refers to. *)
Lemma serve_releases n client id fc w :
  fresh_client client fc w →
  let w' := serve cfg n client id w in
  ∀ fd, is_Some (fdt (obs (kern w')) !! fd) →
    (is_Some (fdt (obs (kern w)) !! fd) ∧ fd ≠ client) ∨ job_fd (jobs (res w')) fd.
Proof.
  intros Hfc w2 fd. subst w2. unfold serve. destruct (Connection_new_inv client id fc w Hfc) as [Hi _]. unfold Connection_new in *.
  destruct (set_nonblocking client (kern w)) as [b k] eqn:E. simpl in Hi.
  assert (fdt (obs k) = fdt (obs (kern w))) as Ht.
  { by apply set_nonblocking_spec in E as [[-> _]|(_ & f & fl & _ & -> & _)]. }
  set (c := mkConn client _ _ _ _ _ _ _ _ _ _ _ _ _ _ _ _ _ _ _) in *.
  assert (conn_inv fc (λ x, is_Some (fdt (obs (kern w)) !! x) ∧ x ≠ client) c (set_kern k w)) as HiB.
  { apply inv_with; [done|]. intros x. simpl. rewrite Ht. intros Hx. destruct (decide (x = client)); [right; by left|by left]. }
  pose proof (serve_loop_inv fc _ n _ _ HiB) as Hs. destruct (serve_loop cfg n c _) as [c' w']. simpl in Hs.
  intros Hfd. exact (destroy_acc _ _ _ _ _ Hs Hfd).
Qed.
End serve_ok.

Example serve_demo :
  sent (obs (kern (serve demo_cfg 9 0 7 demo_world))) 0%nat = concat demo_reply ∧
  fdt (obs (kern (serve demo_cfg 9 0 7 demo_world))) !! 0 = None.
Proof.
  split; [vm_compute; reflexivity|]. apply eq_None_not_Some. intros H.
  destruct (serve_releases demo_cfg 9 0 7 0%nat demo_world demo_fresh 0 H) as [[_ Hn]|(j & jb & Hj & _)]; [by apply Hn|].
  vm_compute in Hj. discriminate.
Defined.

(** ** The threads and their counter *)

(** The accept loop, then the drain. *)
Inductive AccPc :=
| ALoop                    (* at the test of [stop_] *)
| AAccept                  (* waiting on the listener, about to accept *)
| ACount (fd : Z)          (* accepted, about to increment [live_] *)
| ASpawn (fd : Z)          (* counted, about to start the thread *)
| ADrain (waited : Z)      (* at the test of the drain loop *)
| AReturned (waited : Z).  (* out of [run] *)

(** A connection thread. *)
Inductive ConnPc :=
| CServing (fd : Z)        (* the [Connection] is alive: it may use the resolver and the cache *)
| CDestroyed               (* the [Connection] is gone, [live_] not yet decremented *)
| CGone.

Record Threads := mkThreads { t_main : AccPc; t_conns : list ConnPc; t_live : Z; t_stop : bool; t_accepted : list Z }.

Definition Threads_new : Threads := mkThreads ALoop [] 0 false [].
Definition tpc_grace_ms : Z := 30000.

Inductive tstep : Threads → Threads → Prop :=
| ts_signal m cs lv st acc : tstep (mkThreads m cs lv st acc) (mkThreads m cs lv true acc)
| ts_go cs lv acc : tstep (mkThreads ALoop cs lv false acc) (mkThreads AAccept cs lv false acc)
| ts_nobody cs lv st acc : tstep (mkThreads AAccept cs lv st acc) (mkThreads ALoop cs lv st acc)
| ts_accept cs lv st acc fd : tstep (mkThreads AAccept cs lv st acc) (mkThreads (ACount fd) cs lv st (acc ++ [fd]))
| ts_count cs lv st acc fd : tstep (mkThreads (ACount fd) cs lv st acc) (mkThreads (ASpawn fd) cs (lv + 1) st acc)
| ts_spawn cs lv st acc fd :
    tstep (mkThreads (ASpawn fd) cs lv st acc) (mkThreads ALoop (cs ++ [CServing fd]) lv st acc)
| ts_served m a b lv st acc fd :
    tstep (mkThreads m (a ++ CServing fd :: b) lv st acc) (mkThreads m (a ++ CDestroyed :: b) lv st acc)
| ts_gone m a b lv st acc :
    tstep (mkThreads m (a ++ CDestroyed :: b) lv st acc) (mkThreads m (a ++ CGone :: b) (lv - 1) st acc)
| ts_stop_seen cs lv acc : tstep (mkThreads ALoop cs lv true acc) (mkThreads (ADrain 0) cs lv true acc)
| ts_wait cs lv st acc waited : 0 < lv → waited < tpc_grace_ms →
    tstep (mkThreads (ADrain waited) cs lv st acc) (mkThreads (ADrain (waited + 20)) cs lv st acc)
| ts_return cs lv st acc waited : ¬ (0 < lv ∧ waited < tpc_grace_ms) →
    tstep (mkThreads (ADrain waited) cs lv st acc) (mkThreads (AReturned waited) cs lv st acc).

Definition alive (pc : ConnPc) : bool := match pc with CGone => false | _ => true end.
Definition alive_count (cs : list ConnPc) : Z := zlen (filter (λ pc, alive pc = true) cs).
Definition counted (m : AccPc) : Z := match m with ASpawn _ => 1 | _ => 0 end.
Definition draining (m : AccPc) : option Z := match m with ADrain w | AReturned w => Some w | _ => None end.

Record tinv (t : Threads) : Prop := {
  ti_live : t_live t = alive_count (t_conns t) + counted (t_main t);
  ti_waited w : draining (t_main t) = Some w → 0 ≤ w ≤ tpc_grace_ms ∧ w mod 20 = 0;
  ti_barrier w : t_main t = AReturned w → alive_count (t_conns t) = 0 ∨ w = tpc_grace_ms
}.

Lemma alive_app a b : alive_count (a ++ b) = alive_count a + alive_count b.
Proof. unfold alive_count, zlen. rewrite filter_app, length_app. lia. Qed.

Lemma alive_cons pc b : alive_count (pc :: b) = (if alive pc then 1 else 0) + alive_count b.
Proof. unfold alive_count, zlen. rewrite filter_cons. destruct (alive pc); case_decide; simpl in *; try done; lia. Qed.

Lemma alive_nonneg cs : 0 ≤ alive_count cs.
Proof. unfold alive_count, zlen. lia. Qed.

Lemma tstep_inv t t' : tinv t → tstep t t' → tinv t'.
Proof.
  intros [Hl Hw Hb] Hs. destruct Hs as [m cs lv st acc|cs lv acc|cs lv st acc|cs lv st acc fd|cs lv st acc fd|cs lv st acc fd
    |m a b lv st acc fd|m a b lv st acc|cs lv acc|cs lv st acc waited Hlv Hwt|cs lv st acc waited Hn]; simpl in *.
  all: try (split; simpl; [lia|done|done]).
  - split; simpl; [|done|done]. rewrite alive_app, alive_cons. simpl. change (alive_count []) with 0. lia.
  - split; simpl; try done.
    + rewrite alive_app, alive_cons in *. simpl in *. lia.
    + intros w Hm. destruct (Hb w Hm) as [H0|?]; [left|by right]. rewrite alive_app, alive_cons in *. simpl in *. lia.
  - split; simpl; try done.
    + rewrite alive_app, alive_cons in *. simpl in *. lia.
    + intros w Hm. destruct (Hb w Hm) as [H0|?]; [left|by right]. rewrite alive_app, alive_cons in *. simpl in *.
      pose proof (alive_nonneg a). pose proof (alive_nonneg b). lia.
  - split; simpl; try done. intros w [= <-]. unfold tpc_grace_ms. split; [lia|done].
  - split; simpl; try done. intros w [= <-]. destruct (Hw waited eq_refl) as [H1 H2]. unfold tpc_grace_ms in *.
    pose proof (Z.div_mod waited 20). pose proof (Z.div_mod (waited + 20) 20).
    replace ((waited + 20) mod 20) with 0; [lia|]. rewrite <-Z.add_mod_idemp_l, H2 by lia. done.
  - split; simpl; try done. intros w [= <-]. destruct (Hw waited eq_refl) as [H1 H2].
    pose proof (alive_nonneg cs). unfold tpc_grace_ms in *. destruct (decide (0 < lv)); [right; lia|left; lia].
Qed.

Lemma treach_inv t : rtc tstep Threads_new t → tinv t.
Proof.
  assert (tinv Threads_new) as Hi by by split. intros Hr. induction Hr as [t|t1 t2 t3 Hs _ IH]; [done|].
  apply IH. by eapply tstep_inv.
Qed.

Lemma alive_zero cs pc : alive_count cs = 0 → pc ∈ cs → pc = CGone.
Proof.
  intros Hz (a & b & ->)%list_elem_of_split. rewrite alive_app, alive_cons in Hz.
  pose proof (alive_nonneg a). pose proof (alive_nonneg b). destruct pc; simpl in Hz; done || lia.
Qed.

(** The counter is a barrier.  [live_] is at all times the number of connection
threads that have not finished with shared state; [run] returns either when
each of them has destroyed its connection and decremented the counter, or after
30 seconds of waiting, which it never exceeds. *)
Lemma live_counter_barrier t :
  rtc tstep Threads_new t →
  t_live t = alive_count (t_conns t) + counted (t_main t) ∧
  (∀ waited, draining (t_main t) = Some waited → 0 ≤ waited ≤ tpc_grace_ms) ∧
  (∀ waited, t_main t = AReturned waited → Forall (eq CGone) (t_conns t) ∨ waited = tpc_grace_ms).
Proof.
  intros [Hl Hw Hb]%treach_inv. split; [done|]. split; [intros w Hd; by apply Hw|].
  intros w Hm. destruct (Hb w Hm) as [Hz|?]; [left|by right].
  apply Forall_forall. intros pc Hin. symmetry. by eapply alive_zero.
Qed.

(** One client; the signal comes while it is being served, and the drain waits for it. *)
Definition tpc_end : Threads := mkThreads (AReturned 20) [CGone] 0 true [5].

Lemma tpc_end_reached : rtc tstep Threads_new tpc_end.
Proof.
  eapply rtc_l; [apply ts_go|]. eapply rtc_l; [apply (ts_accept _ _ _ _ 5)|]. eapply rtc_l; [apply ts_count|].
  eapply rtc_l; [apply ts_spawn|]. eapply rtc_l; [apply ts_signal|]. eapply rtc_l; [apply ts_stop_seen|].
  eapply rtc_l; [apply ts_wait; [lia|done]|]. simpl. eapply rtc_l; [apply (ts_served _ [] [])|].
  eapply rtc_l; [apply (ts_gone _ [] [])|]. eapply rtc_l; [apply ts_return; lia|]. apply rtc_refl.
Qed.

Example tpc_demo :
  t_live tpc_end = 0 ∧ (Forall (eq CGone) (t_conns tpc_end) ∨ 20 = tpc_grace_ms).
Proof.
  split; [reflexivity|].
  exact (proj2 (proj2 (live_counter_barrier tpc_end tpc_end_reached)) 20 eq_refl).
Defined.
