(* ===== verification/Sharded.v ===== *)
(** * The sharded event loop ([ShardedEventLoop] of [backend/event_loop.cpp])

Several event loops, each with its own thread, kqueue, inbox and cache, and one
acceptor that hands the clients round.  Each shard is an [EventLoop] of
[EventLoop.v] in shard mode, and what the acceptor does to a shard is the
[lr_hand_over] step of [EventLoopSpec.v]; this file has the setting up and the
acceptor.  Readings of the stop flag are a list, as for the single loop. *)
From S2P Require Import Prelude CppString Config Cache CacheSpec Kernel SimKernel Socket EventLoop EventLoopInv EventLoopSpec.

Record Sharded := mkSharded {
  shards_ : nat;
  sh_listener : Z;
  inboxes_ : list Inbox;
  caches_ : list (option LruCache);
  loops_ : list EventLoop
}.

Definition Inbox_new : Inbox := mkInbox [] (-1) (-1).

Definition ShardedEventLoop_new (cfg : Config) : Sharded :=
  mkSharded (Z.to_nat (if event_loops cfg =? 0 then 1 else event_loops cfg)) (-1) [] [] [].

Section sharded.
Context {K : Type} `{!Kernel K}.
Context (cfg : Config) (budget : nat).

(** The second loop of [run], from shard [i] on with [n] to go: an inbox, a cache
and a loop for each; [false] if an inbox cannot be made. *)
Fixpoint make_shards (n i : nat) (s : Sharded) (k : K) : (bool * Sharded) * K :=
  match n with
  | O => ((true, s), k)
  | S n' =>
      let '((ok, ib), k) := Inbox_init k in
      let s := mkSharded (shards_ s) (sh_listener s) (<[i := ib]> (inboxes_ s)) (caches_ s) (loops_ s) in
      if negb ok then ((false, s), k) else
      let cache := if cache_enabled cfg then Some (make_cache cfg) else None in
      let loop := set_inbox (Some ib) EventLoop_new in
      make_shards n' (S i) (mkSharded (shards_ s) (sh_listener s) (inboxes_ s) (caches_ s ++ [cache]) (loops_ s ++ [loop])) k
  end.

(** [run] up to the starting of the threads. *)
Definition start_shards (listener : Z) (s : Sharded) (k : K) : (bool * Sharded) * K :=
  let '(_, k) := set_nonblocking listener k in
  make_shards (shards_ s) 0 (mkSharded (shards_ s) listener (replicate (shards_ s) Inbox_new) (caches_ s) (loops_ s)) k.

(** The inner loop of [accept_loop]: accept until there is nobody, in turn. *)
Fixpoint accept_round (n : nat) (shards : nat) (listener : Z) (next : nat) (ibs : list Inbox) (k : K) :
    (nat * list Inbox) * K :=
  match n with
  | O => ((next, ibs), k)
  | S n' =>
      match accept_one listener k with
      | ((AcceptOk, fd), k) =>
          match ibs !! next with
          | Some ib =>
              let '(ib, k) := Inbox_push fd ib k in
              accept_round n' shards listener ((next + 1) mod shards) (<[next := ib]> ibs) k
          | None => ((next, ibs), k)           (* [next] is always in range *)
          end
      | ((AcceptOutOfFds, _), k) => ((next, ibs), (fd_limit_current k).2)    (* logged *)
      | (_, k) => ((next, ibs), k)
      end
  end.

Fixpoint accept_loop (stops : list bool) (shards : nat) (listener : Z) (next : nat) (ibs : list Inbox) (k : K) :
    (nat * list Inbox) * K :=
  match stops with
  | [] => ((next, ibs), k)
  | true :: _ => ((next, ibs), k)
  | false :: stops' =>
      let '(ready, k) := wait_ready listener false 200 k in
      if negb ready then accept_loop stops' shards listener next ibs k else
      let '((next, ibs), k) := accept_round budget shards listener next ibs k in
      accept_loop stops' shards listener next ibs k
  end.
End sharded.

(** ** Round robin *)

(** Of the clients [fds], dealt from shard [next] on, those of shard [j]. *)
Fixpoint share (shards j next : nat) (fds : list Z) : list Z :=
  match fds with
  | [] => []
  | fd :: fds' =>
      let rest := share shards j ((next + 1) mod shards) fds' in
      if bool_decide (next = j) then fd :: rest else rest
  end.

(** How far shard [j] is from its turn. *)
Definition turn (shards j next : nat) : nat := (j + (shards - next)) mod shards.

Lemma turn_cases shards j next :
  (j < shards)%nat → (next < shards)%nat →
  turn shards j next = (if decide (next ≤ j)%nat then j - next else j + shards - next)%nat.
Proof.
  intros Hj Hn. unfold turn. case_decide.
  - replace (j + (shards - next))%nat with (j - next + 1 * shards)%nat by lia. rewrite Nat.Div0.mod_add. apply Nat.mod_small. lia.
  - rewrite Nat.mod_small; lia.
Qed.

Lemma next_cases shards next :
  (next < shards)%nat → ((next + 1) mod shards = if decide (next + 1 = shards)%nat then 0 else next + 1)%nat.
Proof.
  intros Hn. case_decide as H; [rewrite H; apply Nat.Div0.mod_same|apply Nat.mod_small; lia].
Qed.

(** After [n] clients, shard [j] has had n / shards of them, rounded up or down
according to its turn. *)
Lemma share_length shards j next fds :
  (j < shards)%nat → (next < shards)%nat →
  length (share shards j next fds) = ((length fds + (shards - 1 - turn shards j next)) / shards)%nat.
Proof.
  intros Hj. revert next. induction fds as [|fd fds IH]; intros next Hn; simpl share; simpl length.
  - symmetry. apply Nat.div_small. lia.
  - rewrite (turn_cases _ _ _ Hj Hn).
    assert ((next + 1) mod shards < shards)%nat as Hn' by (apply Nat.mod_upper_bound; lia).
    specialize (IH _ Hn'). rewrite (turn_cases _ _ _ Hj Hn') in IH. pose proof (next_cases _ _ Hn) as Hnx.
    set (n' := ((next + 1) mod shards)%nat) in *. clearbody n'.
    case_bool_decide as He; simpl length; rewrite IH.
    + subst next. rewrite (decide_True (P := (j ≤ j)%nat)) by lia.
      replace (S (length fds) + (shards - 1 - (j - j)))%nat with (length fds + 1 * shards)%nat by lia.
      rewrite Nat.div_add, Nat.add_1_r by lia. f_equal. f_equal. repeat case_decide; lia.
    + f_equal. repeat case_decide; lia.
Qed.

Lemma share_app shards j next a b :
  (next < shards)%nat →
  share shards j next (a ++ b) = share shards j next a ++ share shards j ((next + length a) mod shards) b.
Proof.
  revert next; induction a as [|fd a IH]; intros next Hn; simpl.
  - by rewrite Nat.add_0_r, Nat.mod_small.
  - rewrite IH by (apply Nat.mod_upper_bound; lia).
    replace (((next + 1) mod shards + length a) mod shards)%nat with ((next + S (length a)) mod shards)%nat.
    + by case_bool_decide.
    + rewrite Nat.Div0.add_mod_idemp_l. f_equal. lia.
Qed.

Section round_robin.
Context {K : Type} `{!Kernel K, !KernelLaws K}.

(** What the acceptor has done: the clients [fds], new descriptors all of them,
are in the inboxes, dealt from shard [next] on. *)
Record dealt (shards next : nat) (ibs : list Inbox) (k : K) (fds : list Z) (next' : nat) (ibs' : list Inbox) (k' : K) : Prop := {
  dl_next : next' = ((next + length fds) mod shards)%nat;
  dl_length : length ibs' = length ibs;
  dl_queue j ib : ibs !! j = Some ib → ∃ ib', ibs' !! j = Some ib' ∧
    ib_queue ib' = ib_queue ib ++ share shards j next fds ∧
    ib_read_end ib' = ib_read_end ib ∧ ib_write_end ib' = ib_write_end ib;
  dl_nodup : NoDup fds;
  dl_new fd : fd ∈ fds → fdt (obs k) !! fd = None ∧ is_Some (fdt (obs k') !! fd);
  dl_old fd : is_Some (fdt (obs k) !! fd) → is_Some (fdt (obs k') !! fd)
}.

Lemma dealt_none shards next ibs (k k' : K) :
  (next < shards)%nat → silent k k' → dealt shards next ibs k [] next ibs k'.
Proof.
  intros Hn Hs. unfold silent in Hs. split; try done.
  - simpl. by rewrite Nat.add_0_r, Nat.mod_small.
  - intros j ib Hj. exists ib. simpl. by rewrite (right_id_L [] (++)).
  - apply NoDup_nil_2.
  - intros fd Hin. by apply not_elem_of_nil in Hin.
  - by rewrite Hs.
Qed.

Lemma dealt_trans shards next ibs (k : K) a next1 ibs1 k1 b next2 ibs2 k2 :
  (next < shards)%nat → dealt shards next ibs k a next1 ibs1 k1 → dealt shards next1 ibs1 k1 b next2 ibs2 k2 →
  dealt shards next ibs k (a ++ b) next2 ibs2 k2.
Proof.
  intros Hn [n1 l1 q1 d1 w1 o1] [n2 l2 q2 d2 w2 o2]. split.
  - rewrite n2, n1, Nat.Div0.add_mod_idemp_l, length_app. f_equal. lia.
  - congruence.
  - intros j ib Hj. destruct (q1 j ib Hj) as (ib1 & H1 & Q1 & R1 & W1). destruct (q2 j ib1 H1) as (ib2 & H2 & Q2 & R2 & W2).
    exists ib2. rewrite share_app, <-n1, Q2, Q1, <-(assoc_L (++)) by done. split_and!; congruence.
  - apply NoDup_app. split_and!; try done. intros fd Ha Hb. destruct (w1 fd Ha) as [_ [f Hf]], (w2 fd Hb) as [Hno _]. congruence.
  - intros fd [Ha|Hb]%elem_of_app.
    + destruct (w1 fd Ha). auto.
    + destruct (w2 fd Hb) as [Hno ?]. split; [|done]. apply eq_None_not_Some. intros Hs%o1. destruct Hs. congruence.
  - auto.
Qed.

(** One client. *)
Lemma dealt_one shards next ibs (k : K) fd k1 ib ib' k2 :
  (next < shards)%nat → opened fd k k1 → ibs !! next = Some ib → Inbox_push fd ib k1 = (ib', k2) →
  dealt shards next ibs k [fd] ((next + 1) mod shards) (<[next := ib']> ibs) k2.
Proof.
  intros Hn (Hpos & Hnone & Ho) Hib Hp. unfold Inbox_push in Hp. simpl in Hp.
  destruct (sys_write (ib_write_end ib) ["001"%char] k1) as [r k3] eqn:E. injection Hp as <- <-.
  assert (fdt (obs k3) = fdt (obs k1)) as Ht.
  { destruct r; [apply write_err in E as [E _]; unfold silent in E; by rewrite E|apply write_ok in E as (_ & f & _ & E); by rewrite E]. }
  split; simpl; rewrite ?Ht, ?Ho; simpl.
  - done.
  - apply length_insert.
  - intros j b Hj. destruct (decide (next = j)) as [<-|Hne].
    + eexists. rewrite list_lookup_insert_eq by (by eapply lookup_lt_Some). split; [done|]. simplify_eq.
      rewrite bool_decide_eq_true_2 by done. done.
    + exists b. rewrite list_lookup_insert_ne by done. rewrite bool_decide_eq_false_2 by done. simpl.
      by rewrite (right_id_L [] (++)).
  - apply NoDup_singleton.
  - intros x ->%list_elem_of_singleton. rewrite lookup_insert_eq. by split; [|eexists].
  - intros x Hx. apply lookup_insert_is_Some'. by right.
Qed.

Lemma accept_round_dealt n shards listener next ibs (k : K) :
  (next < shards)%nat → length ibs = shards →
  let '((next', ibs'), k') := accept_round n shards listener next ibs k in
  ∃ fds, dealt shards next ibs k fds next' ibs' k'.
Proof.
  revert next ibs k; induction n as [|n IH]; intros next ibs k Hn Hl; simpl; [exists []; by apply dealt_none|].
  destruct (accept_one listener k) as [[st fd] k1] eqn:E. apply accept_one_spec in E.
  destruct st; try (exists []; by apply dealt_none).
  - destruct (lookup_lt_is_Some_2 ibs next) as [ib Hib]; [lia|]. rewrite Hib.
    destruct (Inbox_push fd ib k1) as [ib' k2] eqn:Hp. pose proof (dealt_one _ _ _ _ _ _ _ _ _ Hn E Hib Hp) as Hd.
    specialize (IH ((next + 1) mod shards)%nat (<[next := ib']> ibs) k2).
    destruct (accept_round n shards listener _ _ k2) as [[next' ibs'] k'].
    destruct IH as [fds Hf]; [apply Nat.mod_upper_bound; lia|by rewrite length_insert|].
    exists ([fd] ++ fds). by eapply dealt_trans.
  - exists []. apply dealt_none; [done|]. unfold fd_limit_current. destruct (sys_getrlimit k1) as [r k2] eqn:E1.
    apply getrlimit_silent in E1. unfold silent in *. destruct r as [[]|]; simpl; congruence.
Qed.

Lemma accept_loop_dealt budget stops shards listener next ibs (k : K) :
  (next < shards)%nat → length ibs = shards →
  let '((next', ibs'), k') := accept_loop budget stops shards listener next ibs k in
  ∃ fds, dealt shards next ibs k fds next' ibs' k'.
Proof.
  revert next ibs k; induction stops as [|b stops IH]; intros next ibs k Hn Hl; simpl; [exists []; by apply dealt_none|].
  destruct b; [exists []; by apply dealt_none|]. destruct (wait_ready listener false 200 k) as [ready k1] eqn:E.
  apply wait_ready_silent in E. pose proof (dealt_none shards next ibs k k1 Hn E) as H0. destruct ready; cbn [negb].
  - pose proof (accept_round_dealt budget shards listener next ibs k1 Hn Hl) as H1.
    destruct (accept_round budget shards listener next ibs k1) as [[next1 ibs1] k2]. destruct H1 as [a Ha].
    pose proof (dealt_trans _ _ _ _ _ _ _ _ _ _ _ _ Hn H0 Ha) as Hd. simpl in Hd.
    specialize (IH next1 ibs1 k2). destruct (accept_loop budget stops shards listener next1 ibs1 k2) as [[next' ibs'] k'].
    destruct IH as [fds Hf].
    + rewrite (dl_next _ _ _ _ _ _ _ _ Hd). apply Nat.mod_upper_bound. lia.
    + by rewrite (dl_length _ _ _ _ _ _ _ _ Hd).
    + exists (a ++ fds). by eapply dealt_trans.
  - specialize (IH next ibs k1). destruct (accept_loop budget stops shards listener next ibs k1) as [[next' ibs'] k'].
    destruct IH as [fds Hf]; [done..|]. exists fds. by apply (dealt_trans shards next ibs k [] next ibs k1 fds).
Qed.

(** C36: Round robin.  Whatever the kernel does, the acceptor puts the clients it
accepts (new descriptors, no two the same) into the inboxes in turn: the i-th
goes to shard i mod shards, after what is already there, and the numbers two
shards have been given never differ by more than one. *)
Theorem acceptor_round_robin budget stops shards listener ibs (k : K) :
  (0 < shards)%nat → length ibs = shards →
  let '((_, ibs'), k') := accept_loop budget stops shards listener 0 ibs k in
  ∃ fds, NoDup fds ∧ (∀ fd, fd ∈ fds → fdt (obs k) !! fd = None ∧ is_Some (fdt (obs k') !! fd)) ∧
    (∀ j ib, ibs !! j = Some ib → ∃ ib', ibs' !! j = Some ib' ∧ ib_queue ib' = ib_queue ib ++ share shards j 0 fds) ∧
    (∀ j, (j < shards)%nat →
      length fds / shards ≤ length (share shards j 0 fds) ≤ length fds / shards + 1)%nat.
Proof.
  intros Hs Hl. pose proof (accept_loop_dealt budget stops shards listener 0 ibs k Hs Hl) as H.
  destruct (accept_loop budget stops shards listener 0 ibs k) as [[next' ibs'] k']. destruct H as [fds [_ _ Hq Hnd Hnew _]].
  exists fds. split_and!; try done.
  - intros j ib Hj. destruct (Hq j ib Hj) as (ib' & ? & ? & _). eauto.
  - intros j Hj. rewrite share_length by lia. split; [apply Nat.Div0.div_le_mono; lia|].
    replace (length fds / shards + 1)%nat with ((length fds + 1 * shards) / shards)%nat by (rewrite Nat.div_add; lia).
    apply Nat.Div0.div_le_mono. lia.
Qed.
End round_robin.

(** ** Setting up *)

Section setup.
Context {K : Type} `{!Kernel K, !KernelLaws K}.

(** The descriptors of some inboxes. *)
Definition inbox_ends (ibs : list Inbox) : list Z := ibs ≫= (λ ib, [ib_read_end ib; ib_write_end ib]).

(** The cache of a shard. *)
Definition shard_cache (cfg : Config) : option LruCache := if cache_enabled cfg then Some (make_cache cfg) else None.

(** [i] shards are up: each has a loop on its own inbox, and the pipes of the
inboxes are the only descriptors opened since [o0]; those in [X] are of an inbox
that could not be completed. *)
Record shards_up (cfg : Config) (o0 : Obs) (i : nat) (X : list Z) (s : Sharded) (o : Obs) : Prop := {
  su_wf : obs_wf o;
  su_inboxes : length (inboxes_ s) = shards_ s;
  su_caches : length (caches_ s) = i;
  su_loops : length (loops_ s) = i;
  su_own j l : loops_ s !! j = Some l → ∃ ib, inboxes_ s !! j = Some ib ∧ l = set_inbox (Some ib) EventLoop_new ∧ ib_queue ib = [];
  su_cached c : c ∈ caches_ s → c = shard_cache cfg;
  su_nodup : NoDup (inbox_ends (take i (inboxes_ s)));
  su_new fd : fd ∈ inbox_ends (take i (inboxes_ s)) → fdt o0 !! fd = None;
  su_spare j ib : (i ≤ j)%nat → inboxes_ s !! j = Some ib →
    ib_queue ib = [] ∧ (ib_read_end ib ∈ X ∨ ib_read_end ib = -1) ∧ (ib_write_end ib ∈ X ∨ ib_write_end ib = -1);
  su_extra fd : fd ∈ X → 0 ≤ fd ∧ fd ∈ inbox_ends (drop i (inboxes_ s)) ∧ fdt o0 !! fd = None ∧ fd ∉ inbox_ends (take i (inboxes_ s));
  su_open fd : is_Some (fdt o !! fd) ↔ is_Some (fdt o0 !! fd) ∨ fd ∈ inbox_ends (take i (inboxes_ s)) ∨ fd ∈ X;
  su_regs : ∀ key u, regs o !! key = Some u → regs o0 !! key = Some u
}.

Lemma inbox_ends_snoc ibs ib : inbox_ends (ibs ++ [ib]) = inbox_ends ibs ++ [ib_read_end ib; ib_write_end ib].
Proof. unfold inbox_ends. rewrite bind_app. simpl. done. Qed.

(** What is not open yet. *)
Lemma shards_up_fresh cfg o0 i s o fd :
  shards_up cfg o0 i [] s o → fdt o !! fd = None → fdt o0 !! fd = None ∧ fd ∉ inbox_ends (take i (inboxes_ s)).
Proof.
  intros Hu Hn. split; [apply eq_None_not_Some|]; intros Hs; (assert (is_Some (fdt o !! fd)) as [? ?]; [apply Hu; auto|congruence]).
Qed.

(** One more shard, *)
Lemma shards_up_more cfg o0 i s o r w o' :
  shards_up cfg o0 i [] s o → (i < shards_ s)%nat → frame (λ _, False) o o' → piped r w o o' →
  let ib := mkInbox [] r w in
  shards_up cfg o0 (S i) [] (mkSharded (shards_ s) (sh_listener s) (<[i := ib]> (inboxes_ s)) (caches_ s ++ [shard_cache cfg])
    (loops_ s ++ [set_inbox (Some ib) EventLoop_new])) o'.
Proof.
  intros Hu. pose proof (λ fd, shards_up_fresh _ _ _ _ _ fd Hu) as Hno. destruct Hu as [Hwf Hib Hca Hlo Hown Hcd Hnd Hnew Hsp _ Hopen Hregs].
  intros Hi Hfr [Hr Hw Hne [Hfr1 Hfw] Hfdt _] ib.
  assert (take (S i) (<[i := ib]> (inboxes_ s)) = take i (inboxes_ s) ++ [ib]) as Htake.
  { rewrite (take_S_r _ _ ib) by (apply list_lookup_insert_eq; lia). by rewrite take_insert_ge by lia. }
  assert (∀ fd, fd ∈ inbox_ends (take i (inboxes_ s)) → fd ≠ r ∧ fd ≠ w) as Hold.
  { intros fd Hin. destruct (Hno r Hfr1) as [_ ?], (Hno w Hfw) as [_ ?]. by split; intros ->. }
  split; simpl; rewrite ?length_app, ?length_insert, ?Htake, ?inbox_ends_snoc; simpl; try lia.
  - by eapply frame_wf.
  - intros j l [Hj|[Hj El]]%lookup_snoc_Some.
    + destruct Hj as [Hlt Hj]. rewrite list_lookup_insert_ne by lia. by apply Hown.
    + subst j l. exists ib. by rewrite Hlo, list_lookup_insert_eq by lia.
  - intros c [?|?%list_elem_of_singleton]%elem_of_app; auto.
  - apply NoDup_app. split; [done|]. split; [|apply NoDup_cons; split; [set_solver|apply NoDup_singleton]].
    intros fd [? ?]%Hold. set_solver.
  - intros fd [Hin|Hin]%elem_of_app; [by apply Hnew|]. apply Hno. set_solver.
  - intros j b Hj. rewrite list_lookup_insert_ne by lia. apply Hsp. lia.
  - set_solver.
  - intros fd. rewrite Hfdt, elem_of_app, !lookup_insert_is_Some', Hopen. set_solver.
  - intros [[kq fd] d] u Hu. by eapply Hregs, (fr_kept _ _ _ Hfr).
Qed.

(** or an inbox that could not be made. *)
Lemma shards_up_failed cfg o0 i s o r w o' :
  shards_up cfg o0 i [] s o → (i < shards_ s)%nat → frame (λ _, False) o o' →
  r = -1 ∧ w = -1 ∧ o' = o ∨ piped r w o o' →
  ∃ X, shards_up cfg o0 i X (mkSharded (shards_ s) (sh_listener s) (<[i := mkInbox [] r w]> (inboxes_ s)) (caches_ s) (loops_ s)) o'.
Proof.
  intros Hu. pose proof (λ fd, shards_up_fresh _ _ _ _ _ fd Hu) as Hno. destruct Hu as [Hwf Hib Hca Hlo Hown Hcd Hnd Hnew Hsp _ Hopen Hregs].
  intros Hi Hfr Hc. exists (if decide (r = -1) then [] else [r; w]).
  assert (∀ fd, fd ∈ (if decide (r = -1) then [] else [r; w]) → 0 ≤ fd ∧ (fd = r ∨ fd = w) ∧ fdt o !! fd = None) as HX.
  { intros fd Hin. case_decide as Hd; [set_solver|]. destruct Hc as [(? & _)|[? ? _ [? ?] _ _]]; [done|]. set_solver. }
  split; simpl; rewrite ?take_insert_ge, ?length_insert by lia; try done.
  - by eapply frame_wf.
  - intros j l Hj. rewrite list_lookup_insert_ne by (apply lookup_lt_Some in Hj; lia). by apply Hown.
  - intros j b Hj [(<- & <- & _)|[Hne Hb]]%list_lookup_insert_Some; simpl.
    + split; [done|]. destruct Hc as [(-> & -> & _)|[? ? _ _ _ _]]; [auto|]. rewrite decide_False by lia. set_solver.
    + destruct (Hsp j b Hj Hb) as (? & ? & ?). set_solver.
  - intros fd (Hp & Hfd & Hn)%HX. split; [done|]. split; [|by apply Hno]. apply list_elem_of_bind. exists (mkInbox [] r w).
    split; [set_solver|]. apply (list_elem_of_lookup_2 _ 0). rewrite lookup_drop, Nat.add_0_r. apply list_lookup_insert_eq. lia.
  - intros fd. destruct Hc as [(-> & -> & ->)|[Hr Hw Hne [Hfr1 Hfw] Hfdt _]]; [by rewrite decide_True|].
    rewrite decide_False by lia. rewrite Hfdt, !lookup_insert_is_Some', Hopen. set_solver.
  - intros [[kq fd] d] u Hu. by eapply Hregs, (fr_kept _ _ _ Hfr).
Qed.

Lemma make_shards_up cfg n i s (k : K) o0 ok s' k' :
  shards_up cfg o0 i [] s (obs k) → shards_ s = (i + n)%nat → make_shards cfg n i s k = ((ok, s'), k') →
  ∃ i' X, shards_up cfg o0 i' X s' (obs k') ∧ shards_ s' = shards_ s ∧ sh_listener s' = sh_listener s ∧
    (ok = true → i' = shards_ s ∧ X = []).
Proof.
  revert i s k. induction n as [|n IH]; intros i s k Hu Hn E; simpl in E.
  { injection E as <- <- <-. exists i, []. rewrite Nat.add_0_r in Hn. auto. }
  unfold Inbox_init in E. destruct (make_pipe (-1) (-1) k) as [[[ok1 r] w] k1] eqn:Ep.
  apply make_pipe_spec in Ep as [Hfr Hp]; [|apply Hu]. destruct ok1; cbn [negb] in E.
  - destruct Hp as [(? & _)|[Hp _]]; [done|]. pose proof (shards_up_more _ _ _ _ _ _ _ _ Hu ltac:(lia) Hfr Hp) as Hu1.
    destruct (IH _ _ _ Hu1 ltac:(simpl; lia) E) as (i' & X & ?). exists i', X. done.
  - injection E as <- <- <-. destruct (shards_up_failed cfg o0 i s (obs k) r w (obs k1) Hu ltac:(lia) Hfr) as [X HX].
    { destruct Hp as [(_ & ? & ? & ?)|[? _]]; auto. }
    exists i, X. done.
Qed.

Lemma start_shards_up cfg listener (k : K) s ok s' k' :
  obs_wf (obs k) → loops_ s = [] → caches_ s = [] → start_shards cfg listener s k = ((ok, s'), k') →
  ∃ i X, shards_up cfg (obs k) i X s' (obs k') ∧ shards_ s' = shards_ s ∧ sh_listener s' = listener ∧
    (ok = true → i = shards_ s ∧ X = []).
Proof.
  intros Hw Hl Hc E. unfold start_shards in E. destruct (set_nonblocking listener k) as [b k1] eqn:En.
  apply set_nonblocking_spec in En.
  assert (obs_wf (obs k1) ∧ fdt (obs k1) = fdt (obs k) ∧ regs (obs k1) = regs (obs k)) as (Hw1 & Ht & Hr).
  { destruct En as [[-> _]|(_ & f & fl & _ & -> & _)]; [done|]. split; [by apply obs_setfl_wf|done]. }
  eapply (make_shards_up _ _ 0 _ _ (obs k)) in E; [exact E| |done].
  split; simpl; rewrite ?length_replicate, ?Hl, ?Hc, ?Ht, ?Hr; try done; try set_solver; [apply NoDup_nil_2|].
  intros j ib _ [-> _]%lookup_replicate. simpl. auto.
Qed.

(** The shards are separate.  When the sharded loop starts its threads there are as
many shards as configured, each with a loop polling its own inbox and its own
cache; the pipes of the inboxes are pairwise distinct new descriptors, and
nothing else was opened. *)
Lemma shards_are_separate cfg listener (k : K) s' k' :
  obs_wf (obs k) → 0 ≤ event_loops cfg → start_shards cfg listener (ShardedEventLoop_new cfg) k = ((true, s'), k') →
  length (loops_ s') = Z.to_nat (Z.max 1 (event_loops cfg)) ∧ length (caches_ s') = length (loops_ s') ∧
  (∀ j l, loops_ s' !! j = Some l → inbox_ l = inboxes_ s' !! j) ∧
  NoDup (inbox_ends (inboxes_ s')) ∧
  (∀ fd, is_Some (fdt (obs k') !! fd) ↔ is_Some (fdt (obs k) !! fd) ∨ fd ∈ inbox_ends (inboxes_ s')) ∧
  (∀ fd, fd ∈ inbox_ends (inboxes_ s') → fdt (obs k) !! fd = None).
Proof.
  intros Hw He E. destruct (start_shards_up cfg listener k (ShardedEventLoop_new cfg) _ _ _ Hw eq_refl eq_refl E) as (i & X & Hu & Hs & _ & Hok).
  destruct (Hok eq_refl) as [-> ->]. destruct Hu as [_ Hib Hca Hlo Hown _ Hnd Hnew _ _ Hopen _].
  rewrite take_ge in Hnd, Hnew, Hopen by lia. split_and!; try done; try congruence.
  - rewrite Hlo. simpl. destruct (Z.eqb_spec (event_loops cfg) 0); lia.
  - intros j l Hj. destruct (Hown j l Hj) as (ib & -> & -> & _). done.
  - intros fd. rewrite Hopen. set_solver.
Qed.
End setup.

(** Two shards, three clients waiting on listener 0. *)
Definition three_waiting : Sim := mkSim (obs_open 4 (obs_open 3 (obs_open 2 (obs_open 1 (obs_open 0 obs0))))) 0 0 (λ _, []) (inr []) 3 [].
Definition two_inboxes : list Inbox := [mkInbox [] 1 2; mkInbox [] 3 4].

Lemma acceptor_round_robin_witness :
  (ib_queue <$> (accept_loop 8 [false; true] 2 0 0 two_inboxes three_waiting).1.2) = [[5; 7]; [6]] ∧
  ∃ fds, NoDup fds ∧ (length fds / 2 ≤ length (share 2 0 0 fds))%nat.
Proof.
  split; [vm_compute; reflexivity|].
  pose proof (acceptor_round_robin 8 [false; true] 2 0 two_inboxes three_waiting ltac:(lia) eq_refl) as H.
  destruct (accept_loop 8 [false; true] 2 0 0 two_inboxes three_waiting) as [[n ibs] k].
  destruct H as (fds & Hnd & _ & _ & Hb). exists fds. split; [exact Hnd|]. exact (proj1 (Hb 0%nat ltac:(lia))).
Defined.

