(* ===== verification/ShardedSys.v ===== *)
(** * Several event loops on one kernel

The event loops of a backend share the kernel and the resolver; each has its own
cache, kqueue and inbox.  [sys_inv] says that each of them is consistent, that no
descriptor and no lookup belongs to two of them, that registrations are on their
kqueues only, and that every open descriptor has an owner.  It is kept by whatever
one loop does within its footprint ([shard_step]) and by whatever the others
tolerate ([sys_bg_inv]). *)
From S2P Require Import Prelude CppString Http Config Cache CacheSpec Kernel Socket Resolver ResolverSpec.
From S2P Require Import Connection ConnectionInv ConnectionSpec EventLoop EventLoopInv EventLoopSpec LoopFootprint.

(** The shared kernel and resolver, and each shard's loop and cache. *)
Record Sys (K C : Type) := mkSys { sy_kern : K; sy_res : Resolver; sy_shards : list (EventLoop * option C) }.
Arguments mkSys {K C} _ _ _.
Arguments sy_kern {K C} _.
Arguments sy_res {K C} _.
Arguments sy_shards {K C} _.

Section sys.
Context {K C : Type} `{!Kernel K, !KernelLaws K, !ResponseCache C, !ResponseCacheLaws C}.
Implicit Type s : Sys K C.

(** What a shard sees of it. *)
Definition world_of s (rc : option C) : World K C := mkWorld (sy_kern s) (sy_res s) rc.

(** Shard [i] is now loop [l] in world [w]. *)
Definition put_shard (i : nat) (l : EventLoop) (w : World K C) s : Sys K C :=
  mkSys (kern w) (res w) (<[i := (l, rcache w)]> (sy_shards s)).

(** ** The invariant *)

(** What belongs to a loop that has the descriptors [o] itself. *)
Definition shard_fd (o : list Z) (l : EventLoop) (w : World K C) (fd : Z) : Prop := loop_fd o (inbox_fds l) (live_ l) w fd.

Definition apart_loops (o o' : list Z) (l l' : EventLoop) (w : World K C) : Prop :=
  (∀ fd, is_Some (fdt (obs (kern w)) !! fd) → shard_fd o l w fd → ¬ shard_fd o' l' w fd) ∧
  (∀ n, loop_job (live_ l) n → ¬ loop_job (live_ l') n).

(** [fd] is a descriptor of loop [l], but not of a lookup. *)
Definition plain_fd (o : list Z) (l : EventLoop) (fd : Z) : Prop := fd ∈ o ++ inbox_fds l ∨ socket_in (live_ l) fd.

(** A loop that will not poll again: its kqueue does not matter any more.  (It
destroys its last connections without removing their registrations first.) *)
Definition view (dead : bool) (l : EventLoop) : EventLoop := if dead then set_kq (-1) l else l.

(** [own i] are the kqueue, the listener and the pipe ends shard [i] has; what is in
[B] belongs to none of them. *)
Record sys_inv (B : Z → Prop) (own : nat → list Z) (dead : nat → bool) s : Prop := {
  sv_loop i l rc : sy_shards s !! i = Some (l, rc) → loop_inv (λ _, True) (own i) (view (dead i) l) (world_of s rc);
  sv_kq i l rc : sy_shards s !! i = Some (l, rc) → kq_ l ∈ own i ∨ kq_ l = -1;
  sv_apart i j l l' rc rc' : i ≠ j → sy_shards s !! i = Some (l, rc) → sy_shards s !! j = Some (l', rc') →
    apart_loops (own i) (own j) l l' (world_of s rc);
  sv_regs kq fd d u : regs (obs (sy_kern s)) !! (kq, fd, d) = Some u →
    ∃ i l rc, sy_shards s !! i = Some (l, rc) ∧ kq_ l = kq ∧ kq ∈ own i;
  sv_acc fd : is_Some (fdt (obs (sy_kern s)) !! fd) →
    B fd ∨ (∃ i l rc, sy_shards s !! i = Some (l, rc) ∧ plain_fd (own i) l fd) ∨ job_fd (jobs (sy_res s)) fd
}.

(** What loop [i] must leave to the others. *)
Definition elsewhere (B : Z → Prop) (own : nat → list Z) s (i : nat) (fd : Z) : Prop :=
  B fd ∨ ∃ j l rc, j ≠ i ∧ sy_shards s !! j = Some (l, rc) ∧ plain_fd (own j) l fd.

Lemma view_live d l : live_ (view d l) = live_ l.
Proof. by destruct d. Qed.
Lemma view_inbox d l : inbox_ (view d l) = inbox_ l.
Proof. by destruct d. Qed.
Lemma view_fds d l : inbox_fds (view d l) = inbox_fds l.
Proof. by destruct d. Qed.

Lemma loop_inv_with B o l w : loop_inv (λ _, True) o l w → all_accounted (λ x, (B x ∨ x ∈ o) ∨ x ∈ inbox_fds l) (live_ l) w → loop_inv B o l w.
Proof. intros [[? _] ?] ?. split; [by split|done]. Qed.

Lemma loop_inv_any B o l w : loop_inv B o l w → loop_inv (λ _, True) o l w.
Proof. intros [[? ?] ?]. split; [|done]. split; [done|]. intros fd _. auto. Qed.

Lemma sys_loop B own dead s i l rc :
  sys_inv B own dead s → sy_shards s !! i = Some (l, rc) →
  loop_inv (elsewhere B own s i) (own i) (view (dead i) l) (world_of s rc).
Proof.
  intros [Hl _ _ _ Ha] Hi. apply loop_inv_with; [by eapply Hl|]. rewrite view_fds, view_live. intros fd Hs.
  destruct (Ha fd Hs) as [?|[(j & l' & rc' & Hj & Hp)|?]]; [left; left; left; by left| |by right; right].
  destruct (decide (j = i)) as [->|Hne]; [|left; left; left; right; eauto 10].
  rewrite Hi in Hj. simplify_eq. destruct Hp as [[?|?]%elem_of_app|?]; auto.
Qed.

Lemma apart_loops_sym o o' l l' w : apart_loops o o' l l' w → apart_loops o' o l' l w.
Proof. intros [Hf Hj]. split; [intros fd Hs H1 H2; by eapply Hf|intros n H1 H2; by eapply Hj]. Qed.

(** What a loop has is open. *)
Lemma shard_held B o l w fd : loop_inv B o l w → fd ∈ o ++ inbox_fds l → is_Some (fdt (obs (kern w)) !! fd).
Proof. intros [[Hss _] _] Hin. by apply (ss_held _ _ _ _ _ _ Hss). Qed.

Lemma own_pos B o l w fd : loop_inv B o l w → fd ∈ o → 0 ≤ fd.
Proof.
  intros Hl Hin. destruct (shard_held _ _ _ _ fd Hl) as [f Hf]; [set_solver|]. destruct Hl as [[Hss _] _].
  by eapply (ow_pos _ (wo_wf _ (ss_world _ _ _ _ _ _ Hss))).
Qed.

(** While the loop only sees others act, it gains nothing. *)
Lemma bg_shard_fd B o d l w w' fd :
  loop_inv B o (view d l) w → (∀ p t, live_ l !! p = Some t → env (sl_conn t) w w') → is_Some (fdt (obs (kern w')) !! fd) →
  shard_fd o l w' fd → shard_fd o l w fd ∧ is_Some (fdt (obs (kern w)) !! fd).
Proof.
  intros Hl He Hs [Hin|(p & t & Hp & Ho)].
  - split; [by left|]. eapply shard_held; [exact Hl|by rewrite view_fds].
  - destruct Hl as [[Hss _] _]. rewrite view_live in Hss. destruct (sk_conn _ _ _ _ (ss_slot _ _ _ _ _ _ Hss p t Hp)) as [fc Hi].
    destruct (env_owned _ _ _ _ _ (He p t Hp) Hi Ho Hs). split; [|done]. right. eauto.
Qed.

(** ** A step of one loop *)

(** Seen by another loop. *)
Lemma footprint_bg kq o o' d' l l' w w1 Q' m' rc :
  loop_inv (λ _, True) o' (view d' l') (mkWorld (kern w) (res w) rc) → apart_loops o o' l l' w →
  kept_on (kq_ (view d' l')) (obs (kern w)) (obs (kern w1)) →
  footprint kq o (inbox_fds l) (live_ l) w Q' m' w1 →
  bg (λ _, True) o' (view d' l') (mkWorld (kern w) (res w) rc) (mkWorld (kern w1) (res w1) rc).
Proof.
  intros Hj [Hfd Hjob] Hkept [[Hf _ Hjs Hfr Hd] _ _]. pose proof Hj as [[Hss _] _].
  rewrite view_fds, view_live in Hss.
  pose proof (ss_world _ _ _ _ _ _ Hss) as [Hw _ _ Hc]. simpl in Hw, Hc.
  assert (∀ fd, is_Some (fdt (obs (kern w)) !! fd) → shard_fd o' l' w fd → ¬ shard_fd o l w fd) as Hno.
  { intros fd Hs H1 H2. by eapply Hfd. }
  assert (world_ok (mkWorld (kern w1) (res w1) rc)) as Hwo.
  { split; simpl; try done; [by eapply fr_wf|by eapply cache_ok_wframe]. }
  assert (∀ fd, fd ∈ o' ++ inbox_fds l' → is_Some (fdt (obs (kern w)) !! fd) ∧ ¬ shard_fd o l w fd) as Hheld.
  { intros fd Hin. assert (is_Some (fdt (obs (kern w)) !! fd)) by by apply (ss_held _ _ _ _ _ _ Hss).
    split; [done|]. apply Hno; [done|by left]. }
  split; rewrite ?view_fds, ?view_live; simpl; try done.
  - intros p t Hp. assert (∀ fd, is_Some (fdt (obs (kern w)) !! fd) → owned (sl_conn t) (jobs (res w)) fd → ¬ shard_fd o l w fd) as Hown.
    { intros fd Hs Ho. apply Hno; [done|]. right. eauto. }
    destruct (sk_conn _ _ _ _ (ss_slot _ _ _ _ _ _ Hss p t Hp)) as [fc Hti]. split; simpl; try done; [|apply Hwo|].
    + eapply wframe_mono, Hf. intros fd Hs HD Hres. eapply (Hown fd Hs); [|exact HD]. exact (reserved_owned _ _ _ Hres).
    + intros n jb Hn Hjb. exists jb. split; [apply Hjs; [done|]|].
      { intros Hln. eapply Hjob; [exact Hln|]. by exists p, t. }
      split; [done|]. destruct (job_write_end _ _ _ _ _ Hti Hn Hjb) as [?|[f Hfw]]; [by left|right]. simpl in Hfw. split; [done|].
      rewrite Hfw. apply (fr_fd _ _ _ Hf _ _ Hfw). apply Hown; [by eexists|]. right; right. eauto 10.
  - intros fd Hin. destruct (Hheld fd Hin) as [[f Hx] Hn]. exists f. by apply (fr_fd _ _ _ Hf).
  - intros fd Hin. eapply (untouched_frame _ (mkWorld (kern w) (res w) rc)); [exact Hf|done|apply Hheld; set_solver|].
    by apply (ss_queue _ _ _ _ _ _ Hss).
  - auto.
Qed.

(** Afterwards they still share nothing; [o1] are the descriptors the loop has then. *)
Lemma footprint_apart kq o o1 o' d' l l' l1 w w1 Q1 rc :
  loop_inv (λ _, True) o' (view d' l') (mkWorld (kern w) (res w) rc) →
  apart_loops o o' l l' w → kept_on (kq_ (view d' l')) (obs (kern w)) (obs (kern w1)) →
  footprint kq o (inbox_fds l) (live_ l) w Q1 (live_ l1) w1 → (∀ fd, fd ∈ o1 ++ inbox_fds l1 → fd ∈ o ++ Q1) →
  apart_loops o1 o' l1 l' w1.
Proof.
  intros Hj Hap Hkept Hfp HQ. pose proof (footprint_bg _ _ _ _ _ _ _ _ _ _ _ Hj Hap Hkept Hfp) as Hbg.
  pose proof (bg_conn _ _ _ _ _ Hbg) as Hen. rewrite view_live in Hen.
  destruct Hfp as [[Hf _ _ _ _] Hgain Hgj]. destruct Hap as [Hfd Hjob]. split.
  - intros fd [f Hs] H1 H2. assert (loop_fd o Q1 (live_ l1) w1 fd) as H1' by (destruct H1 as [?|?]; [left; auto|by right]).
    destruct (bg_shard_fd _ o' d' l' _ _ fd Hj Hen (mk_is_Some _ _ Hs) H2) as [H2' [g Hg]]. simpl in Hg.
    assert (¬ shard_fd o l w fd) as Hno by (intros ?; by eapply (Hfd fd)).
    destruct (Hgain fd f H1' Hs) as [?|Hnew]; [done|]. pose proof (fr_fd _ _ _ Hf _ _ Hg Hno) as Hg'.
    destruct Hj as [[Hss _] _]. pose proof (ow_files _ (wo_wf _ (ss_world _ _ _ _ _ _ Hss)) _ _ Hg) as Hlt. simpl in Hlt. simplify_eq. lia.
  - intros n H1 H2. eapply Hjob; [|exact H2]. apply Hgj; [done|]. destruct H2 as (p & t & Hp & Hn).
    destruct Hj as [[Hss _] _]. rewrite view_live in Hss. destruct (sk_conn _ _ _ _ (ss_slot _ _ _ _ _ _ Hss p t Hp)) as [fc Hti].
    exact (job_present _ _ _ _ Hti Hn).
Qed.

(** Loop [i] acted within its footprint and registered on its own kqueue only. *)
Record shard_acts (B : Z → Prop) (own : nat → list Z) s (i : nat) (l : EventLoop) (rc : option C) (o1 : list Z)
    (d1 : bool) (l1 : EventLoop) (w1 : World K C) : Prop := {
  sa_footprint : ∃ kq Q1, footprint kq (own i) (inbox_fds l) (live_ l) (world_of s rc) Q1 (live_ l1) w1 ∧
    ∀ fd, fd ∈ o1 ++ inbox_fds l1 → fd ∈ own i ++ Q1;
  sa_inv : loop_inv (elsewhere B own s i) o1 (view d1 l1) w1;
  sa_kq : kq_ l1 ∈ o1 ∨ kq_ l1 = -1;
  sa_same : kq_ l = kq_ l1 ∨ kq_ l = -1 ∧ fdt (obs (sy_kern s)) !! kq_ l1 = None;
  sa_regs kq : kq ≠ kq_ l1 ∨ kq_ l1 ∉ o1 → kept_on kq (obs (sy_kern s)) (obs (kern w1))
}.

(** The others are not concerned. *)
Lemma shard_acts_bg B own dead s i l rc o1 d1 l1 w1 j l' rc' :
  sys_inv B own dead s → sy_shards s !! i = Some (l, rc) → shard_acts B own s i l rc o1 d1 l1 w1 →
  j ≠ i → sy_shards s !! j = Some (l', rc') →
  bg (λ _, True) (own j) (view (dead j) l') (world_of s rc') (mkWorld (kern w1) (res w1) rc') ∧ apart_loops o1 (own j) l1 l' w1.
Proof.
  intros Hs Hi [(kq & Q1 & Hfp & HQ) Hin Hkq Hsame Hregs] Hne Hj.
  pose proof (sv_loop _ _ _ _ Hs j l' rc' Hj) as Hlj. pose proof (sv_apart _ _ _ _ Hs i j l l' rc rc' (not_eq_sym Hne) Hi Hj) as Hap.
  assert (kept_on (kq_ (view (dead j) l')) (obs (kern (world_of s rc))) (obs (kern w1))) as Hkept.
  { apply Hregs. destruct (decide (kq_ (view (dead j) l') = kq_ l1)) as [Heq|]; [right|by left]. intros Hin1.
    pose proof (own_pos _ _ _ _ _ Hin Hin1) as Hpos. destruct (dead j); simpl in Heq; [lia|].
    destruct (sv_kq _ _ _ _ Hs j l' rc' Hj) as [Hk'|?]; [|lia]. destruct (shard_held _ _ _ _ (kq_ l') Hlj) as [f Hf]; [set_solver|].
    simpl in Hf. destruct Hsame as [Hsm|[_ Hno]]; [|congruence]. destruct (sv_kq _ _ _ _ Hs i l rc Hi) as [Hk|?]; [|lia].
    eapply (proj1 Hap (kq_ l')); [by exists f|left; rewrite Heq, <-Hsm; set_solver|left; set_solver]. }
  split; [exact (footprint_bg _ _ _ _ _ _ (world_of s rc) _ _ _ _ Hlj Hap Hkept Hfp)|].
  exact (footprint_apart _ _ _ _ _ _ _ _ (world_of s rc) _ _ _ Hlj Hap Hkept Hfp HQ).
Qed.

Lemma shard_step B own dead s i l rc o1 d1 l1 w1 :
  sys_inv B own dead s → sy_shards s !! i = Some (l, rc) → shard_acts B own s i l rc o1 d1 l1 w1 →
  sys_inv B (<[i := o1]> own) (<[i := d1]> dead) (put_shard i l1 w1 s).
Proof.
  intros Hs Hi Ha. pose proof (λ j l' rc', shard_acts_bg B own dead s i l rc o1 d1 l1 w1 j l' rc' Hs Hi Ha) as Hoth.
  destruct Ha as [_ Hin Hkq Hsame Hregs]. unfold put_shard.
  assert (world_of (mkSys (kern w1) (res w1) (<[i := (l1, rcache w1)]> (sy_shards s))) (rcache w1) = w1) as Hw1 by by destruct w1.
  assert (i < length (sy_shards s))%nat as Hlt by by eapply lookup_lt_Some.
  assert (∀ j a rca, j ≠ i → sy_shards s !! j = Some (a, rca) →
    ∀ p t, live_ a !! p = Some t → env (sl_conn t) (world_of s rca) (mkWorld (kern w1) (res w1) rca)) as Hen.
  { intros j a rca Hne Hj p t Hp. destruct (Hoth j a rca Hne Hj) as [[_ _ Hc _ _ _] _]. rewrite view_live in Hc. eauto. }
  split; simpl.
  - intros j l' rc' Hj. apply list_lookup_insert_Some in Hj as [(<- & [= <- <-] & _)|[Hne Hj]].
    + rewrite !fn_lookup_insert, Hw1. by eapply loop_inv_any.
    + rewrite !fn_lookup_insert_ne by done. eapply bg_inv; [by eapply (sv_loop _ _ _ _ Hs)|]. exact (proj1 (Hoth j l' rc' (not_eq_sym Hne) Hj)).
  - intros j l' rc' Hj. apply list_lookup_insert_Some in Hj as [(<- & [= <- <-] & _)|[Hne Hj]].
    + by rewrite fn_lookup_insert.
    + rewrite fn_lookup_insert_ne by done. by eapply (sv_kq _ _ _ _ Hs).
  - intros j n a b rca rcb Hne Ha Hb. apply list_lookup_insert_Some in Ha as [(<- & [= <- <-] & _)|[Hnj Ha]].
    + rewrite list_lookup_insert_ne in Hb by done. rewrite fn_lookup_insert, fn_lookup_insert_ne by done.
      exact (proj2 (Hoth n b rcb (not_eq_sym Hne) Hb)).
    + apply list_lookup_insert_Some in Hb as [(<- & [= <- <-] & _)|[Hnn Hb]].
      * rewrite fn_lookup_insert, fn_lookup_insert_ne by done. apply apart_loops_sym. exact (proj2 (Hoth j a rca Hne Ha)).
      * rewrite !fn_lookup_insert_ne by done. pose proof (sv_apart _ _ _ _ Hs j n a b rca rcb Hne Ha Hb) as [Hfd Hjob]. split; [|done].
        intros fd Hsf H1 H2. pose proof (sv_loop _ _ _ _ Hs j a rca Ha) as Hla. pose proof (sv_loop _ _ _ _ Hs n b rcb Hb) as Hlb.
        destruct (bg_shard_fd _ _ _ a _ _ fd Hla (Hen j a rca (not_eq_sym Hnj) Ha) Hsf H1) as [H1' Hs'].
        destruct (bg_shard_fd _ _ _ b _ _ fd Hlb (Hen n b rcb (not_eq_sym Hnn) Hb) Hsf H2) as [H2' _]. by eapply (Hfd fd).
  - intros kq fd d u Hu. destruct (decide (kq = kq_ l1 ∧ kq_ l1 ∈ o1)) as [[-> Hk]|Hk].
    { exists i, l1, (rcache w1). rewrite list_lookup_insert_eq, fn_lookup_insert by done. done. }
    apply Decidable.not_and in Hk; [|destruct (decide (kq = kq_ l1)); [by left|by right]].
    destruct (sv_regs _ _ _ _ Hs kq fd d u) as (j & l' & rc' & Hj & Hkj & Hin'); [by eapply (Hregs kq Hk)|].
    destruct (decide (j = i)) as [->|Hne].
    + rewrite Hi in Hj. simplify_eq. pose proof (own_pos _ _ _ _ _ (sv_loop _ _ _ _ Hs i l' rc' Hi) Hin') as Hpos.
      destruct Hsame as [Hsm|[? _]]; [|lia]. destruct Hk as [?|Hk]; [done|]. destruct Hkq as [?|?]; [done|lia].
    + exists j, l', rc'. rewrite list_lookup_insert_ne, fn_lookup_insert_ne by done. done.
  - intros fd Hsf. pose proof (gd_acc _ _ _ _ _ (li_good _ _ _ _ Hin) fd Hsf) as Hx. rewrite view_fds, view_live in Hx.
    destruct Hx as [Hx|[Hx|?]]; [| |by right; right].
    + destruct Hx as [[[?|(j & l' & rc' & Hne & Hj & Hp)]|?]|?]; [by left|..]; right; left.
      * exists j, l', rc'. rewrite list_lookup_insert_ne, fn_lookup_insert_ne by done. done.
      * exists i, l1, (rcache w1). rewrite list_lookup_insert_eq, fn_lookup_insert by done. split; [done|left; set_solver].
      * exists i, l1, (rcache w1). rewrite list_lookup_insert_eq, fn_lookup_insert by done. split; [done|left; set_solver].
    + right; left. exists i, l1, (rcache w1). rewrite list_lookup_insert_eq, fn_lookup_insert by done. split; [done|by right].
Qed.

(** ** A step of somebody else *)

Lemma sys_bg_inv B own dead s k' r' :
  sys_inv B own dead s →
  (∀ i l rc, sy_shards s !! i = Some (l, rc) → bg (λ _, True) (own i) (view (dead i) l) (world_of s rc) (mkWorld k' r' rc)) →
  (∀ kq, kept_on kq (obs (sy_kern s)) (obs k')) →
  (∀ fd, is_Some (fdt (obs k') !! fd) → B fd ∨ is_Some (fdt (obs (sy_kern s)) !! fd) ∧ (job_fd (jobs (sy_res s)) fd → job_fd (jobs r') fd)) →
  sys_inv B own dead (mkSys k' r' (sy_shards s)).
Proof.
  intros [Hl Hkq Hap Hregs Hacc] Hbg Hkept Hopen. split; simpl; try done.
  - intros i l rc Hil. eapply bg_inv; [by eapply Hl|]. exact (Hbg i l rc Hil).
  - intros i j l l' rc rc' Hne Hil Hjl. destruct (Hap i j l l' rc rc' Hne Hil Hjl) as [Hfd Hjob]. split; [|done].
    intros fd Hs H1 H2. destruct (Hbg i l rc Hil) as [_ _ H3 _ _ _], (Hbg j l' rc' Hjl) as [_ _ H4 _ _ _]. rewrite view_live in H3, H4.
    destruct (bg_shard_fd _ _ _ l _ _ fd (Hl i l rc Hil) H3 Hs H1) as [H1' Hs'].
    destruct (bg_shard_fd _ _ _ l' _ _ fd (Hl j l' rc' Hjl) H4 Hs H2) as [H2' _].
    by eapply (Hfd fd).
  - intros kq fd d u Hu. by eapply Hregs, (Hkept kq).
  - intros fd Hs. destruct (Hopen fd Hs) as [?|[Hs0 Hj]]; [by left|]. destruct (Hacc fd Hs0) as [?|[?|?]]; auto.
Qed.
End sys.
