(* ===== verification/EventThreads.v ===== *)
(** * The threads of the event loop backend

The program from the call of [run] to the end of [main] with the event loop
backend ([backend/event_loop.cpp], [main.cpp]): one thread per shard, each in
[EventLoop::run]; the main thread, which accepts and hands clients over, then
stops and joins the shards, shuts the resolver down and destroys what is left; the
resolver threads; and the signal handler.  With one event loop there is no
acceptor: the main thread is the loop, and joining it is its return.

[run_step] cuts [EventLoop::run] where another thread can come between: at each
reading of the stop flag, each [kevent] call and each event. *)
From S2P Require Import Prelude CppString Http Config Cache CacheSpec Kernel Socket Resolver.
From S2P Require Import Connection EventLoop Sharded ShardedSys.

(** Where a shard thread is in [EventLoop::run]. *)
Inductive RunPc :=
| RunStart
| Polling                                      (* about to read the stop flag *)
| Handling (us : list UData)                   (* events of this batch still to handle *)
| Unlistening
| Draining (waited : Z)
| DrainHandling (waited : Z) (us : list UData)
| Clearing
| RunReturned.

#[export] Instance RunPc_eq_dec : EqDecision RunPc.
Proof. solve_decision. Defined.

(** Where the main thread is: in [ShardedEventLoop::accept_loop], in the rest of
[ShardedEventLoop::run], or in [main] after [run]. *)
Inductive MainPc :=
| Accepting (next : nat)                       (* about to read [stop_] *)
| Round (next : nat)                           (* about to call [accept_one] *)
| StopAll (i : nat)
| Joining (i : nat)
| RunDone
| ResolverJoin
| Leaving
| Left.

(** The whole program.  The inbox of shard [i] is in the loop that polls it. *)
Record Proxy (K C : Type) := mkProxy {
  px_sys : Sys K C;
  px_pcs : list RunPc;                         (* the shard threads *)
  px_stops : list bool;                        (* [EventLoop::stop_] of each *)
  px_main : MainPc;
  px_stop : bool;                              (* [ShardedEventLoop::stop_] *)
  px_arg : Z;                                  (* the descriptor each [run] is given *)
  px_listener : Z;                             (* [ShardedEventLoop::listener_] *)
  px_spare : list Inbox;                       (* the rest of [inboxes_], when they could not all be set up *)
  px_workers : list WorkerPc
}.
Arguments mkProxy {K C} _ _ _ _ _ _ _ _ _.
Arguments px_sys {K C} _.
Arguments px_pcs {K C} _.
Arguments px_stops {K C} _.
Arguments px_main {K C} _.
Arguments px_stop {K C} _.
Arguments px_arg {K C} _.
Arguments px_listener {K C} _.
Arguments px_spare {K C} _.
Arguments px_workers {K C} _.

Section threads.
Context {K C : Type} `{!Kernel K, !ResponseCache C}.
Context (cfg : Config) (malloc : gset nat → nat) (budget : nat).
Implicit Type w : World K C.
Implicit Type l : EventLoop.
Implicit Type x : Proxy K C.

(** ** A shard thread *)

(** One step of [EventLoop::run]; [stop] is what its stop flag holds. *)
Definition run_step (listener : Z) (stop : bool) (pc : RunPc) l w : option (RunPc * EventLoop * World K C) :=
  match pc with
  | RunStart =>
      let '(ok, l, w) := run_begin listener l w in Some (if ok : bool then Polling else RunReturned, l, w)
  | Polling =>
      if stop then Some (Unlistening, l, w) else
      match sys_kevent_wait (kq_ l) 256 200 (kern w) with
      | (inl EINTR, k) => Some (Polling, l, set_kern k w)
      | (inl _, k) => Some (Unlistening, l, set_kern k w)
      | (inr us, k) => Some (Handling us, l, set_kern k w)
      end
  | Handling [] => Some (Polling, l, w)
  | Handling (u :: us) => let '(l, w) := handle cfg malloc budget u l w in Some (Handling us, l, w)
  | Unlistening => let '(l, w) := run_unlisten l w in Some (Draining 0, l, w)
  | Draining waited =>
      if bool_decide (live_ l = ∅) || negb (waited <? grace_ms) then Some (Clearing, l, w) else
      match sys_kevent_wait (kq_ l) 256 100 (kern w) with
      | (inl EINTR, k) => Some (Draining waited, l, set_kern k w)
      | (inl _, k) => Some (Clearing, l, set_kern k w)
      | (inr us, k) =>
          Some (DrainHandling (if bool_decide (us = []) then waited + 100 else waited) us, l, set_kern k w)
      end
  | DrainHandling waited [] => Some (Draining waited, l, w)
  | DrainHandling waited (u :: us) =>
      let '(l, w) := drain_event cfg u l w in Some (DrainHandling waited us, l, w)
  | Clearing => let '(l, w) := clear_live l w in Some (RunReturned, l, w)
  | RunReturned => None
  end.

(** ** The main thread *)

Definition set_main (pc : MainPc) (s : Sys K C) x : Proxy K C :=
  mkProxy s (px_pcs x) (px_stops x) pc (px_stop x) (px_arg x) (px_listener x) (px_spare x) (px_workers x).

Definition sys_set_kern (k : K) (s : Sys K C) : Sys K C := mkSys k (sy_res s) (sy_shards s).
Definition sys_set_res (r : Resolver) (s : Sys K C) : Sys K C := mkSys (sy_kern s) r (sy_shards s).

(** The accepted client goes into the inbox of shard [i]. *)
Definition hand_over (i : nat) (fd : Z) (k : K) (s : Sys K C) : option (Sys K C) :=
  '(l, rc) ← sy_shards s !! i;
  ib ← inbox_ l;
  let '(ib, k) := Inbox_push fd ib k in
  Some (put_shard i (set_inbox (Some ib) l) (mkWorld k (sy_res s) rc) s).

Definition accept_step (next : nat) x : option (Proxy K C) :=
  let s := px_sys x in
  match accept_one (px_listener x) (sy_kern s) with
  | ((AcceptOk, fd), k) =>
      s ← hand_over next fd k s;
      Some (set_main (Round ((next + 1) mod length (sy_shards s))) s x)
  | ((AcceptOutOfFds, _), k) => Some (set_main (Accepting next) (sys_set_kern (fd_limit_current k).2 s) x)
  | (_, k) => Some (set_main (Accepting next) (sys_set_kern k s) x)
  end.

(** The destructors.  [~EventLoop], [~Inbox] and the queue of [~Resolver]: members go
in reverse order of declaration. *)
Fixpoint close_all (fds : list Z) (k : K) : K :=
  match fds with
  | [] => k
  | fd :: fds' => let '(_, k) := Fd_reset fd (-1) k in close_all fds' k
  end.

Definition EventLoop_destroy l w : World K C :=
  let w := destroy_all (map_to_list (live_ l)) w in
  set_kern (close_all [listener_ l; kq_ l] (kern w)) w.

Definition Inbox_destroy (ib : Inbox) (k : K) : K := close_all ([ib_write_end ib; ib_read_end ib] ++ ib_queue ib) k.

Fixpoint destroy_loops (ss : list (EventLoop * option C)) (k : K) (r : Resolver) : K * Resolver :=
  match ss with
  | [] => (k, r)
  | (l, rc) :: ss' => let w := EventLoop_destroy l (mkWorld k r rc) in destroy_loops ss' (kern w) (res w)
  end.

Definition destroy_inboxes (ibs : list Inbox) (k : K) : K := foldl (λ k ib, Inbox_destroy ib k) k ibs.

(** [ShardedEventLoop::inboxes_]. *)
Definition px_inboxes x : list Inbox := omap (λ lc, inbox_ lc.1) (sy_shards (px_sys x)) ++ px_spare x.

Fixpoint drop_queue (q : list nat) (r : Resolver) (k : K) : Resolver * K :=
  match q with
  | [] => (r, k)
  | j :: q' => let '(r, k) := drop_job j r k in drop_queue q' r k
  end.

Definition leave x : K * Resolver :=
  let s := px_sys x in
  let '(k, r) := destroy_loops (sy_shards s) (sy_kern s) (sy_res s) in
  let k := destroy_inboxes (px_inboxes x) k in
  let k := close_all [px_listener x] k in
  let '(r, k) := drop_queue (queue_ r) (set_queue [] r) k in (k, r).

Definition exited (pc : WorkerPc) : bool := match pc with Exited => true | _ => false end.

(** One step of the main thread; [None] while it waits in [join]. *)
Definition main_step x : option (Proxy K C) :=
  let s := px_sys x in
  match px_main x with
  | Accepting next =>
      if px_stop x then Some (set_main (StopAll 0) s x) else
      let '(ready, k) := wait_ready (px_listener x) false 200 (sy_kern s) in
      Some (set_main (if ready : bool then Round next else Accepting next) (sys_set_kern k s) x)
  | Round next => accept_step next x
  | StopAll i =>
      if bool_decide (i < length (sy_shards s))%nat then
        Some (mkProxy s (px_pcs x) (<[i := true]> (px_stops x)) (StopAll (S i)) (px_stop x) (px_arg x)
                (px_listener x) (px_spare x) (px_workers x))
      else Some (set_main (Joining 0) s x)
  | Joining i =>
      if bool_decide (i < length (sy_shards s))%nat then
        if bool_decide (px_pcs x !! i = Some RunReturned) then Some (set_main (Joining (S i)) s x) else None
      else Some (set_main RunDone s x)
  | RunDone => Some (set_main ResolverJoin (sys_set_res (shutdown (sy_res s)) s) x)
  | ResolverJoin =>
      if forallb exited (px_workers x) then Some (set_main Leaving s x) else None
  | Leaving =>
      let '(k, r) := leave x in
      Some (mkProxy (mkSys k r []) [] [] Left (px_stop x) (px_arg x) (px_listener x) (px_spare x) (px_workers x))
  | Left => None
  end.

(** ** Everybody *)

(** A thread of the program does something: a shard, the main thread or a resolver thread. *)
Inductive px_work x : Proxy K C → Prop :=
| px_thread i pc stop l rc pc' l' w' :
    px_pcs x !! i = Some pc → px_stops x !! i = Some stop → sy_shards (px_sys x) !! i = Some (l, rc) →
    run_step (px_arg x) stop pc l (world_of (px_sys x) rc) = Some (pc', l', w') →
    px_work x (mkProxy (put_shard i l' w' (px_sys x)) (<[i := pc']> (px_pcs x)) (px_stops x) (px_main x)
                 (px_stop x) (px_arg x) (px_listener x) (px_spare x) (px_workers x))
| px_main_step x' : main_step x = Some x' → px_work x x'
| px_worker a pc b pc' r' k' :
    px_workers x = a ++ pc :: b → worker_step pc (sy_res (px_sys x)) (sy_kern (px_sys x)) = Some (pc', r', k') →
    px_work x (mkProxy (mkSys k' r' (sy_shards (px_sys x))) (px_pcs x) (px_stops x) (px_main x) (px_stop x)
                 (px_arg x) (px_listener x) (px_spare x) (a ++ pc' :: b)).

(** Or a signal arrives: [stop()] sets [stop_] first, then the flag of each loop. *)
Inductive px_step x : Proxy K C → Prop :=
| px_do x' : px_work x x' → px_step x x'
| px_signal :
    px_step x (mkProxy (px_sys x) (px_pcs x) (px_stops x) (px_main x) true (px_arg x) (px_listener x) (px_spare x)
                 (px_workers x))
| px_signal_shard i :
    px_stop x = true →
    px_step x (mkProxy (px_sys x) (px_pcs x) (<[i := true]> (px_stops x)) (px_main x) (px_stop x) (px_arg x)
                 (px_listener x) (px_spare x) (px_workers x)).

(** The same as a function of who acts. *)
Inductive Act :=
| ActThread (i : nat)
| ActMain
| ActWorker (n : nat)
| ActSignal
| ActSignalShard (i : nat).

Definition px_exec (a : Act) x : option (Proxy K C) :=
  let s := px_sys x in
  match a with
  | ActThread i =>
      pc ← px_pcs x !! i; stop ← px_stops x !! i; '(l, rc) ← sy_shards s !! i;
      '(pc, l, w) ← run_step (px_arg x) stop pc l (world_of s rc);
      Some (mkProxy (put_shard i l w s) (<[i := pc]> (px_pcs x)) (px_stops x) (px_main x) (px_stop x) (px_arg x)
              (px_listener x) (px_spare x) (px_workers x))
  | ActMain => main_step x
  | ActWorker n =>
      pc ← px_workers x !! n; '(pc, r, k) ← worker_step pc (sy_res s) (sy_kern s);
      Some (mkProxy (mkSys k r (sy_shards s)) (px_pcs x) (px_stops x) (px_main x) (px_stop x) (px_arg x)
              (px_listener x) (px_spare x) (<[n := pc]> (px_workers x)))
  | ActSignal =>
      Some (mkProxy s (px_pcs x) (px_stops x) (px_main x) true (px_arg x) (px_listener x) (px_spare x) (px_workers x))
  | ActSignalShard i =>
      if px_stop x then
        Some (mkProxy s (px_pcs x) (<[i := true]> (px_stops x)) (px_main x) (px_stop x) (px_arg x)
                (px_listener x) (px_spare x) (px_workers x))
      else None
  end.

Definition px_run (acts : list Act) x : option (Proxy K C) := foldl (λ o a, o ≫= px_exec a) (Some x) acts.

Lemma px_exec_step a x x' : px_exec a x = Some x' → px_step x x'.
Proof.
  destruct a as [i| |n| |i]; simpl.
  - intros (pc & Hpc & (stop & Hs & ([l rc] & Hi & ([[pc' l'] w'] & E & [= <-])%bind_Some)%bind_Some)%bind_Some)%bind_Some.
    by eapply px_do, (px_thread _ i).
  - intros E. by apply px_do, px_main_step.
  - intros (pc & Hn & ([[pc' r'] k'] & E & [= <-])%bind_Some)%bind_Some.
    rewrite insert_take_drop by by eapply lookup_lt_Some.
    apply px_do, (px_worker _ _ pc); [symmetry; by apply take_drop_middle|done].
  - intros [= <-]. apply px_signal.
  - intros E. destruct (decide (px_stop x = true)) as [Hs|Hs].
    + rewrite Hs in E at 1. injection E as <-. by apply px_signal_shard.
    + apply not_true_is_false in Hs. by rewrite Hs in E at 1.
Qed.

Lemma px_run_steps acts x x' : px_run acts x = Some x' → rtc px_step x x'.
Proof.
  unfold px_run. revert x. induction acts as [|a acts IH]; simpl; intros x; [by intros [= <-]|].
  destruct (px_exec a x) as [y|] eqn:E.
  - intros H. eapply rtc_l; [by eapply px_exec_step|by apply IH].
  - intros H. exfalso. clear -H. induction acts; simpl in *; [done|auto].
Qed.

(** ** The start *)

(** [EventLoop::run] is called with the listener. *)
Definition single_proxy (listener : Z) (k : K) (r : Resolver) (rc : option C) (threads : nat) : Proxy K C :=
  mkProxy (mkSys k r [(EventLoop_new, rc)]) [RunStart] [false] (Joining 0) false listener (-1) [] (replicate threads Waiting).
End threads.

(** [ShardedEventLoop::run] has set the shards up and starts the threads, or returns
because an inbox could not be made. *)
Definition sharded_proxy {K} (started : (bool * Sharded) * K) (r : Resolver) (threads : nat) : Proxy K LruCache :=
  let '((ok, s), k) := started in
  let n := length (loops_ s) in
  mkProxy (mkSys k r (zip (loops_ s) (caches_ s))) (replicate n (if ok then RunStart else RunReturned)) (replicate n false)
    (if ok then Accepting 0 else RunDone) false (-1) (sh_listener s) (drop n (inboxes_ s)) (replicate threads Waiting).
