(* ===== verification/RunSteps.v ===== *)
(** * The two models of [EventLoop::run] agree

[EventLoop.run] is [run] as a function of what the stop flag reads; [run_step] of
[EventThreads.v] is the same code cut where another thread can act.  A thread that
[run_step] takes to the end without being disturbed has done what [run] does. *)
From S2P Require Import Prelude CppString Config Cache CacheSpec Kernel SimKernel Socket Resolver.
From S2P Require Import Connection ConnectionSpec EventLoop EventLoopInv EventLoopSpec Sharded ShardedSys EventThreads.

Section run.
Context {K C : Type} `{!Kernel K, !ResponseCache C}.
Context (cfg : Config) (malloc : gset nat → nat) (budget : nat) (listener : Z).
Implicit Type w : World K C.
Implicit Type r : EventLoop * World K C.

(** A step of the thread alone; the stop flag can read anything. *)
Definition lone_step (c c' : RunPc * EventLoop * World K C) : Prop :=
  ∃ stop, run_step cfg malloc budget listener stop c.1.1 c.1.2 c.2 = Some c'.

(** What is left of [run] at each point: it can end with [r]. *)
Definition ends_with (c : RunPc * EventLoop * World K C) r : Prop :=
  let '(pc, l, w) := c in
  match pc with
  | RunStart => ∃ stops rounds, run cfg malloc budget listener stops rounds l w = r
  | Polling => ∃ stops rounds,
      (let '(l, w) := poll_loop cfg malloc budget stops l w in let '(l, w) := run_unlisten l w in drain cfg rounds l w) = r
  | Handling us => ∃ stops rounds,
      (let '(l, w) := handle_all cfg malloc budget us l w in
       let '(l, w) := poll_loop cfg malloc budget stops l w in let '(l, w) := run_unlisten l w in drain cfg rounds l w) = r
  | Unlistening => ∃ rounds, (let '(l, w) := run_unlisten l w in drain cfg rounds l w) = r
  | Draining waited => ∃ rounds, (let '(l, w) := drain_loop cfg rounds waited l w in clear_live l w) = r
  | DrainHandling waited us => ∃ rounds,
      (let '(l, w) := drain_events cfg us l w in let '(l, w) := drain_loop cfg rounds waited l w in clear_live l w) = r
  | Clearing => clear_live l w = r
  | RunReturned => (l, w) = r
  end.

Lemma lone_step_ends c c' r : lone_step c c' → ends_with c' r → ends_with c r.
Proof.
  destruct c as [[pc l] w]. intros [stop E]. cbn [fst snd] in E.
  destruct pc as [| |[|u us]| |waited|waited [|u us]| |]; cbn [run_step] in E.
  - unfold ends_with at 2. unfold run. destruct (run_begin listener l w) as [[ok l1] w1]. injection E as <-. destruct ok; simpl; [done|].
    intros <-. by exists [], 0%nat.
  - destruct stop; [injection E as <-; simpl; intros [rounds <-]; by exists [true], rounds|].
    destruct (sys_kevent_wait _ _ _ _) as [[e|us] k] eqn:Ek.
    + destruct e; injection E as <-; simpl; try (intros [rounds <-]; exists [false], rounds; simpl; by rewrite Ek).
      intros (stops & rounds & <-). exists (false :: stops), rounds. simpl. by rewrite Ek.
    + injection E as <-. intros (stops & rounds & <-). exists (false :: stops), rounds. simpl. rewrite Ek.
      by destruct (handle_all _ _ _ _ _ _).
  - injection E as <-. intros (stops & rounds & <-). by exists stops, rounds.
  - destruct (handle _ _ _ _ _ _) as [l1 w1] eqn:Eh. injection E as <-. intros (stops & rounds & <-). exists stops, rounds. simpl. by rewrite Eh.
  - destruct (run_unlisten l w) as [l1 w1] eqn:Eu. injection E as <-. intros [rounds <-]. exists rounds. by rewrite Eu.
  - destruct (bool_decide (live_ l = ∅) || negb (waited <? grace_ms)) eqn:Eb.
    { injection E as <-. simpl. intros <-. exists 1%nat. simpl. by rewrite Eb. }
    destruct (sys_kevent_wait _ _ _ _) as [[e|us] k] eqn:Ek.
    + destruct e; injection E as <-; simpl; try (intros <-; exists 1%nat; simpl; by rewrite Eb, Ek).
      intros [rounds <-]. exists (S rounds). simpl. by rewrite Eb, Ek.
    + injection E as <-. intros [rounds <-]. exists (S rounds). simpl. rewrite Eb, Ek. by destruct (drain_events _ _ _ _).
  - injection E as <-. intros [rounds <-]. by exists rounds.
  - destruct (drain_event _ _ _ _) as [l1 w1] eqn:Ed. injection E as <-. intros [rounds <-]. exists rounds. simpl. by rewrite Ed.
  - destruct (clear_live l w) as [l1 w1] eqn:Ec. injection E as <-. simpl. by intros <-.
  - done.
Qed.

End run.

(** The loop of [EventLoopSpec.v], step by step. *)
Fixpoint lone_run (stops : list bool) (c : RunPc * EventLoop * World Sim LruCache) : RunPc * EventLoop * World Sim LruCache :=
  match stops with
  | [] => c
  | b :: stops' =>
      match run_step demo_cfg malloc_max 4 0 b c.1.1 c.1.2 c.2 with Some c' => lone_run stops' c' | None => c end
  end.

Lemma lone_run_steps stops c : rtc (lone_step demo_cfg malloc_max 4 0) c (lone_run stops c).
Proof.
  revert c. induction stops as [|b stops IH]; intros c; simpl; [done|].
  destruct (run_step _ _ _ _ _ _ _ _) as [c'|] eqn:E; [|done]. eapply rtc_l; [by exists b|apply IH].
Qed.

Definition lone_end : RunPc * EventLoop * World Sim LruCache :=
  lone_run (repeat false 60 ++ repeat true 120) (RunStart, EventLoop_new, el_world el_obs1).

