(* ===== verification/ProxyInv.v ===== *)
(** * The invariant of the event loop program

[sys_shared] puts the shared state of [ConnResolver.v] over all event loops at
once.  A resolver thread ([worker_keeps]) and each step of a shard thread
([run_step_ok]) keep it together with [sys_inv], and leave the loop with the
descriptors its program point asks for ([run_ok]): no assumption on the resolver
threads, the acceptor or the other shards is left. *)
From S2P Require Import Prelude CppString Http Config Cache CacheSpec Kernel Socket SocketSpec Resolver ResolverSpec.
From S2P Require Import Connection ConnectionInv ConnectionSpec EventLoop EventLoopInv ConnResolver EventLoopSpec LoopFootprint LoopShared.
From S2P Require Import Sharded ShardedSys EventThreads.

(** ** Jobs and descriptors of all loops *)

Definition sys_held {C} (ss : list (EventLoop * option C)) : gset nat := ⋃ ((λ lc, held (live_ lc.1)) <$> ss).

Lemma elem_of_sys_held {C} j (ss : list (EventLoop * option C)) :
  j ∈ sys_held ss ↔ ∃ i l rc, ss !! i = Some (l, rc) ∧ loop_job (live_ l) j.
Proof.
  unfold sys_held. rewrite elem_of_union_list. setoid_rewrite list_elem_of_fmap. split.
  - intros (X & ([l rc] & -> & [i Hi]%list_elem_of_lookup) & Hj%elem_of_held). eauto 10.
  - intros (i & l & rc & Hi%list_elem_of_lookup_2 & Hj). exists (held (live_ l)). split; [by exists (l, rc)|by apply elem_of_held].
Qed.

Section proxy.
Context {K C : Type} `{!Kernel K, !KernelLaws K, !ResponseCache C, !ResponseCacheLaws C}.
Implicit Type s : Sys K C.
Implicit Type w : World K C.

Definition sys_direct (own : nat → list Z) s (fd : Z) : Prop :=
  ∃ i l rc, sy_shards s !! i = Some (l, rc) ∧ direct (own i) (inbox_fds l) (live_ l) fd.

Definition sys_shared (ws : list WorkerPc) (own : nat → list Z) s : Prop :=
  shared ws (sys_held (sy_shards s)) (sys_direct own s) (sy_res s) (sy_kern s).

(** Those of the loops other than [i]. *)
Definition held_elsewhere s (i : nat) : gset nat := sys_held (<[i := (EventLoop_new, None)]> (sy_shards s)).
Definition direct_elsewhere (own : nat → list Z) s (i : nat) (fd : Z) : Prop :=
  ∃ j l rc, j ≠ i ∧ sy_shards s !! j = Some (l, rc) ∧ direct (own j) (inbox_fds l) (live_ l) fd.

Lemma elem_of_held_elsewhere j s i :
  j ∈ held_elsewhere s i ↔ ∃ n l rc, n ≠ i ∧ sy_shards s !! n = Some (l, rc) ∧ loop_job (live_ l) j.
Proof.
  unfold held_elsewhere. rewrite elem_of_sys_held. split.
  - intros (n & l & rc & [(<- & [= <- <-] & _)|[Hne Hn]]%list_lookup_insert_Some & Hj); [by destruct Hj as (? & ? & ? & _)|].
    exists n, l, rc. auto.
  - intros (n & l & rc & Hne & Hn & Hj). exists n, l, rc. by rewrite list_lookup_insert_ne.
Qed.

Lemma direct_shard_fd o l w fd : direct o (inbox_fds l) (live_ l) fd → shard_fd o l w fd.
Proof. intros [?|(p & t & ? & ?)]; [by left|right; eauto using sock_owned]. Qed.

(** What loop [i] sees of it, *)
Lemma sys_take B ws own dead s i l rc :
  sys_inv B own dead s → sys_shared ws own s → sy_shards s !! i = Some (l, rc) →
  loop_among ws (held_elsewhere s i) (direct_elsewhere own s i) (own i) (inbox_fds l) (live_ l) (world_of s rc).
Proof.
  intros Hs Hsh Hi. assert (sys_held (sy_shards s) = held (live_ l) ∪ held_elsewhere s i) as HH.
  { apply set_eq. intros j. rewrite elem_of_union, elem_of_held_elsewhere, elem_of_sys_held, elem_of_held. split.
    - intros (n & l' & rc' & Hn & Hj). destruct (decide (n = i)) as [->|]; [left; congruence|right; eauto 10].
    - intros [?|(n & l' & rc' & _ & ? & ?)]; eauto 10. }
  split.
  - rewrite <-HH. eapply shared_mono, Hsh. intros fd [(j & l' & rc' & _ & ? & ?)|?]; [by exists j, l', rc'|by exists i, l, rc].
  - intros fd (j & l' & rc' & Hne & Hj & Hd) Hd'. pose proof (sv_apart _ _ _ _ Hs i j l l' rc rc' (not_eq_sym Hne) Hi Hj) as [Hap _].
    eapply (Hap fd); [|by apply direct_shard_fd..]. by apply (sh_apart _ _ _ _ _ Hsh); exists j, l', rc'.
  - intros j (n & l' & rc' & Hne & Hn & Hj)%elem_of_held_elsewhere Hin%elem_of_held.
    pose proof (sv_apart _ _ _ _ Hs i n l l' rc rc' (not_eq_sym Hne) Hi Hn) as [_ Hap]. by eapply Hap.
Qed.

(** and what it means for all when it has acted. *)
Lemma sys_put ws own s i o1 l1 w1 :
  (i < length (sy_shards s))%nat →
  loop_among ws (held_elsewhere s i) (direct_elsewhere own s i) o1 (inbox_fds l1) (live_ l1) w1 →
  sys_shared ws (<[i := o1]> own) (put_shard i l1 w1 s).
Proof.
  intros Hlt [Hs _ _]. unfold sys_shared, put_shard. simpl.
  assert (sys_held (<[i := (l1, rcache w1)]> (sy_shards s)) = held (live_ l1) ∪ held_elsewhere s i) as ->.
  { apply set_eq. intros j. rewrite elem_of_union, elem_of_held_elsewhere, elem_of_sys_held, elem_of_held. split.
    - intros (n & l & rc & [(<- & [= <- <-] & _)|[Hne Hn]]%list_lookup_insert_Some & Hj); [by left|right; eauto 10].
    - intros [Hj|(n & l & rc & Hne & Hn & Hj)].
      + exists i, l1, (rcache w1). by rewrite list_lookup_insert_eq.
      + exists n, l, rc. by rewrite list_lookup_insert_ne. }
  eapply shared_mono, Hs. intros fd (n & l & rc & Hn & Hd). simpl in Hn.
  apply list_lookup_insert_Some in Hn as [(<- & [= <- <-] & _)|[Hne Hn]].
  - right. by rewrite fn_lookup_insert in Hd.
  - left. rewrite fn_lookup_insert_ne in Hd by done. exists n, l, rc. auto.
Qed.

(** ** A resolver thread acts *)

Lemma worker_bg B a pc b pc' own dead s r' k' i l rc :
  sys_inv B own dead s → sys_shared (a ++ pc :: b) own s → worker_step pc (sy_res s) (sy_kern s) = Some (pc', r', k') →
  sy_shards s !! i = Some (l, rc) → bg (λ _, True) (own i) (view (dead i) l) (world_of s rc) (mkWorld k' r' rc).
Proof.
  intros Hs Hsh Hst Hi. pose proof (sv_loop _ _ _ _ Hs i l rc Hi) as [[Hss _] _]. rewrite view_fds, view_live in Hss.
  pose proof (ss_world _ _ _ _ _ _ Hss) as [_ _ _ Hc]. simpl in Hc.
  pose proof (worker_step_acts _ _ _ _ _ _ _ _ _ _ Hsh Hst) as [Hf _ _ _ _ _].
  pose proof (worker_shared _ _ _ _ _ _ _ _ _ _ Hsh Hst) as [_ _ _ [_ _ _ _ I5 I6]].
  assert (world_ok (mkWorld k' r' rc)) as Hwo.
  { split; simpl; try done; [by eapply frame_wf| |by eapply cache_ok_frame]. intros j [jb Hj]. by destruct (I5 j jb Hj) as (_ & _ & ?). }
  assert (∀ fd, fd ∈ own i ++ inbox_fds l → is_Some (fdt (obs (sy_kern s)) !! fd) ∧ ¬ worker_fd (sys_held (sy_shards s)) pc (sy_res s) fd) as Hown.
  { intros fd Hin. destruct (sh_apart _ _ _ _ _ Hsh fd) as [Hsf Hn]; [by exists i, l, rc; split; [|left]|].
    split; [done|]. by intros ?%worker_fd_job. }
  split; rewrite ?view_fds, ?view_live; simpl; try done.
  - apply regs_kept_on. by destruct Hf.
  - intros p t Hp. change (mkWorld k' r' rc) with (set_res r' k' (world_of s rc)). eapply worker_env; [exact Hsh|exact Hst|..|exact Hc].
    + intros fd Hsk. exists i, l, rc. split; [done|right; eauto].
    + intros j Hj. apply elem_of_sys_held. exists i, l, rc. split; [done|by exists p, t].
  - intros fd Hin. destruct (Hown fd Hin) as [[f Hx] Hn]. exists f. by apply (fr_fd _ _ _ Hf).
  - intros fd Hin. eapply (untouched_frame _ (world_of s rc)); [apply Hf|apply Hss| |by apply (ss_queue _ _ _ _ _ _ Hss)].
    apply Hown. set_solver.
  - auto.
Qed.

Lemma worker_keeps B a pc b pc' own dead s r' k' :
  sys_inv B own dead s → sys_shared (a ++ pc :: b) own s → worker_step pc (sy_res s) (sy_kern s) = Some (pc', r', k') →
  sys_inv B own dead (mkSys k' r' (sy_shards s)) ∧ sys_shared (a ++ pc' :: b) own (mkSys k' r' (sy_shards s)).
Proof.
  intros Hs Hsh Hst. pose proof (worker_step_acts _ _ _ _ _ _ _ _ _ _ Hsh Hst) as [Hf _ _ _ _ Hopen]. split.
  - apply sys_bg_inv; [done|by intros; eapply worker_bg| |auto]. intros kq. apply regs_kept_on. by destruct Hf.
  - by eapply worker_shared.
Qed.
(** ** A shard thread acts *)

(** Loop [i] acted and left everything to the others that is theirs. *)
Record thread_ok (B : Z → Prop) (ws : list WorkerPc) (own : nat → list Z) s (i : nat) (l : EventLoop) (rc : option C)
    (o1 : list Z) (d1 : bool) (l1 : EventLoop) w1 : Prop := {
  to_acts : shard_acts B own s i l rc o1 d1 l1 w1;
  to_among : loop_among ws (held_elsewhere s i) (direct_elsewhere own s i) o1 (inbox_fds l1) (live_ l1) w1
}.

Lemma thread_keeps B ws own dead s i l rc o1 d1 l1 w1 :
  sys_inv B own dead s → sy_shards s !! i = Some (l, rc) → thread_ok B ws own s i l rc o1 d1 l1 w1 →
  sys_inv B (<[i := o1]> own) (<[i := d1]> dead) (put_shard i l1 w1 s) ∧ sys_shared ws (<[i := o1]> own) (put_shard i l1 w1 s).
Proof.
  intros Hs Hi [Ha Hla]. split; [by eapply shard_step|]. apply sys_put; [by eapply lookup_lt_Some|done].
Qed.

Section thread.
Context (B : Z → Prop) (ws : list WorkerPc) (own : nat → list Z) (dead : nat → bool).
Context (s : Sys K C) (i : nat) (l : EventLoop) (rc : option C).
Context (Hs : sys_inv B own dead s) (Hsh : sys_shared ws own s) (Hi : sy_shards s !! i = Some (l, rc)).
Abbreviation w := (world_of s rc).
Abbreviation ok := (thread_ok B ws own s i l rc).
Abbreviation mine := (loop_among ws (held_elsewhere s i) (direct_elsewhere own s i)).

Lemma thread_view : loop_inv (elsewhere B own s i) (own i) (view (dead i) l) w.
Proof. by apply sys_loop. Qed.

Lemma thread_among : mine (own i) (inbox_fds l) (live_ l) w.
Proof. by eapply sys_take. Qed.

Lemma thread_wf : obs_wf (obs (sy_kern s)).
Proof. apply Hsh. Qed.

(** Nothing is registered on kqueue -1. *)
Lemma thread_no_regs fd d u : regs (obs (sy_kern s)) !! (-1, fd, d) ≠ Some u.
Proof.
  intros (j & l' & rc' & Hj & _ & Hin)%(sv_regs _ _ _ _ Hs).
  pose proof (own_pos _ _ _ _ _ (sv_loop _ _ _ _ Hs j l' rc' Hj) Hin). lia.
Qed.

(** The acceptor hands a client over: what the thread is doing does not matter. *)
Lemma hand_over_thread lfd ib fd k ib' k' :
  inbox_ l = Some ib → accept_one lfd (sy_kern s) = ((AcceptOk, fd), k) → Inbox_push fd ib k = (ib', k') →
  ok (own i) (dead i) (set_inbox (Some ib') l) (mkWorld k' (sy_res s) rc).
Proof.
  intros Hib Ha Hp. pose proof thread_view as Hl. pose proof thread_among as Hla.
  assert (set_inbox (Some ib') (view (dead i) l) = view (dead i) (set_inbox (Some ib') l)) as Hv by by destruct (dead i).
  assert (inbox_ (view (dead i) l) = Some ib) as Hib' by by rewrite view_inbox.
  pose proof (hand_over_footprint _ _ lfd _ w ib fd k ib' k' Hl Hib' Ha Hp) as Hfp.
  pose proof (hand_over_inv _ _ lfd _ w ib fd k ib' k' Hl Hib' Ha Hp) as Hin. rewrite Hv in Hfp, Hin.
  rewrite !view_fds, view_live in Hfp. pose proof Ha as Ho%accept_one_spec. simpl in Ho. pose proof (loop_opened _ _ _ _ _ _ w fd k Hla Ho) as Hla1.
  assert (∃ bs, send_effect (ib_write_end ib) bs k k') as [bs Hse].
  { unfold Inbox_push in Hp. simpl in Hp. destruct (sys_write _ _ k) as [r k2] eqn:E. injection Hp as <- <-. destruct r.
    - apply write_err in E as [E _]. exists []. by apply send_effect_silent.
    - apply write_ok in E as (_ & f & Hf & E). eexists. by eapply send_effect_obs. }
  pose proof (sh_wf _ _ _ _ _ (la_shared _ _ _ _ _ _ _ Hla1)) as Hw1. simpl in Hw1.
  assert (inbox_fds (set_inbox (Some ib') l) = inbox_fds l ++ [fd]) as Hq.
  { unfold inbox_fds. simpl. rewrite Hib. unfold Inbox_push in Hp. simpl in Hp. destruct (sys_write _ _ k). by simplify_eq. }
  split; [split|].
  - eexists _, _. split; [exact Hfp|done].
  - exact Hin.
  - by apply (sv_kq _ _ _ _ Hs i l rc).
  - by left.
  - intros kq _ x d u. simpl. destruct Ho as (_ & _ & Ho). rewrite (se_regs _ _ _ _ Hse), Ho. done.
  - simpl. rewrite Hq. apply (loop_own _ _ _ (own i) _ (fd :: inbox_fds l)); [|set_solver].
    apply (loop_same _ _ _ _ _ _ (set_kern k w) k'); [done|eapply frame_wf, send_effect_frame, Hse; done|exact (se_fdt _ _ _ _ Hse)].
Qed.

(** ** While the thread runs *)

Context (Hrun : dead i = false).

Lemma thread_loop : loop_inv (elsewhere B own s i) (own i) l w.
Proof. pose proof thread_view as Hl. by rewrite Hrun in Hl. Qed.

(** Within the footprint, on the same kqueue. *)
Lemma thread_footprint l1 w1 :
  footprint (kq_ l) (own i) (inbox_fds l) (live_ l) w (inbox_fds l1) (live_ l1) w1 →
  loop_inv (elsewhere B own s i) (own i) l1 w1 → kq_ l1 = kq_ l → kq_ l ∈ own i →
  mine (own i) (inbox_fds l1) (live_ l1) w1 → ok (own i) false l1 w1.
Proof.
  intros Hfp Hin Hkq Hk Hla. split; [|done]. split; [by exists (kq_ l), (inbox_fds l1)|done|left; congruence|by left|].
  rewrite Hkq. intros kq [Hne|?]; [|done]. exact (ac_regs _ _ _ _ _ (fp_acts _ _ _ _ _ _ _ _ Hfp) kq Hne).
Qed.

(** Nothing observable. *)
Lemma thread_silent k : silent (sy_kern s) k → ok (own i) false l (set_kern k w).
Proof.
  intros Hk. unfold silent in Hk. pose proof thread_loop as Hl. pose proof thread_among as Hla. pose proof thread_wf as Hw.
  split; [split|].
  - exists (kq_ l), (inbox_fds l). split; [|done]. apply (own_footprint _ _ _ _ _ _ (λ _, False)); try done.
    apply acts_kern; [apply (gd_slots _ _ _ _ _ (li_good _ _ _ _ Hl))|]. simpl. rewrite Hk. by apply frame_refl.
  - destruct Hl as [Hg Hin]. split; [by apply good_silent|done].
  - by apply (sv_kq _ _ _ _ Hs i l rc).
  - by left.
  - intros kq _. simpl. rewrite Hk. by intros fd d u.
  - apply loop_same; [done|simpl; by rewrite Hk|simpl; by rewrite Hk].
Qed.

(** [live_.clear()]: the thread will not poll again. *)
Lemma clear_thread : kq_ l ∈ own i → ok (own i) true (clear_live l w).1 (clear_live l w).2.
Proof.
  intros Hk. pose proof thread_loop as Hl. pose proof thread_among as Hla. pose proof Hl as [[Hss Ha] Hin].
  unfold clear_live. cbn [fst snd].
  assert (slots_ok (kq_ l) (λ _, False) (own i) (inbox_fds l) (list_to_map (map_to_list (live_ l))) w) as Hss'
    by by rewrite list_to_map_to_list.
  pose proof (NoDup_fst_map_to_list (live_ l)) as Hnd.
  pose proof (destroy_all_footprint _ _ _ _ _ _ Hnd Hss') as Hfp. rewrite list_to_map_to_list in Hfp.
  pose proof (own_pos _ _ _ _ _ Hl Hk) as Hpos.
  split; [split|].
  - by exists (kq_ l), (inbox_fds l).
  - destruct (destroy_all_spec (kq_ l) (λ _, False) (own i) (inbox_fds l) (λ x, (elsewhere B own s i x ∨ x ∈ own i) ∨ x ∈ inbox_fds l)
      (map_to_list (live_ l)) w Hnd Hss') as [Hss1 Ha1].
    { by rewrite list_to_map_to_list. }
    split; [|done]. split; [|done]. simpl. destruct Hss1 as [? ? _ ? ? ? ?]. split; try done.
    intros fd d p _ Hu. exfalso. eapply thread_no_regs, (ac_regs _ _ _ _ _ (fp_acts _ _ _ _ _ _ _ _ Hfp) (-1)); [lia|exact Hu].
  - simpl. by left.
  - by left.
  - simpl. intros kq [Hne|?]; [|done]. exact (ac_regs _ _ _ _ _ (fp_acts _ _ _ _ _ _ _ _ Hfp) kq Hne).
  - eapply destroy_all_among; [done|exact Hss'|]. by rewrite list_to_map_to_list.
Qed.
(** [run] begins: the listener made non-blocking, *)
Record begun (k1 : K) : Prop := {
  bn_wf : obs_wf (obs k1);
  bn_fdt : fdt (obs k1) = fdt (obs (kern w));
  bn_regs : regs (obs k1) = regs (obs (kern w));
  bn_good : good (elsewhere B own s i) (own i) (inbox_fds l) l (set_kern k1 w);
  bn_among : mine (own i) (inbox_fds l) (live_ l) (set_kern k1 w);
  bn_footprint kq : footprint kq (own i) (inbox_fds l) (live_ l) w (inbox_fds l) (live_ l) (set_kern k1 w)
}.

Lemma begin_nonblocking arg b k1 : arg ∈ own i ∨ arg = -1 → set_nonblocking arg (kern w) = (b, k1) → begun k1.
Proof.
  intros Harg E1. pose proof thread_loop as [Hg _]. destruct (nonblocking_own _ _ _ _ w arg b k1 Hg Harg E1) as (Hg1 & Hf1 & Ht1 & Hr1).
  assert (obs_wf (obs k1)) as Hw1 by by eapply frame_wf. split; try done.
  - apply loop_same; [apply thread_among|done|done].
  - intros kq. eapply own_footprint; [apply acts_kern; [apply Hg|exact Hf1]|done|]. by intros x [-> ?].
Qed.

(** then no kqueue, *)
Lemma begin_failed k1 k2 l2 :
  begun k1 → live_ l = ∅ → kq_ l = -1 → silent k1 k2 → kq_ l2 = -1 → live_ l2 = ∅ → inbox_ l2 = inbox_ l → ok (own i) true l2 (set_kern k2 w).
Proof.
  intros [Hw1 Ht1 Hr1 Hg1 Hla1 Hfp1] Hlive Hkq Hk2 Hkq2 Hl2 Hib2. unfold silent in Hk2. pose proof thread_loop as [_ Hin].
  assert (inbox_fds l2 = inbox_fds l) as Hq2 by (unfold inbox_fds; by rewrite Hib2).
  assert (view true l2 = set_kq (-1) l2) as Hv by done. split; [split|].
  - exists (-1), (inbox_fds l). rewrite Hl2, <-Hlive, Hq2. split; [|done]. eapply footprint_trans; [apply thread_wf|apply Hfp1|].
    change (set_kern k2 w) with (set_kern k2 (set_kern k1 w)). apply (own_footprint _ _ _ _ _ _ (λ _, False)); [|done|done].
    apply acts_kern; [apply Hg1|]. simpl. rewrite Hk2. by apply frame_refl.
  - rewrite Hv. split; [|simpl; by rewrite Hib2]. pose proof (good_silent _ _ _ l (set_kern k1 w) k2 Hg1 Hk2) as Hg2.
    eapply (good_shape _ _ l); [exact Hg2|done|done| |done]. simpl. rewrite Hk2, Hr1. intros. apply thread_no_regs.
  - by right.
  - left. congruence.
  - intros kq _ fd d u. simpl. by rewrite Hk2, Hr1.
  - rewrite Hq2, Hl2, <-Hlive. apply (loop_same _ _ _ _ _ _ (set_kern k1 w) k2); [exact Hla1|simpl; by rewrite Hk2|simpl; by rewrite Hk2].
Qed.

(** or a new kqueue with one registration of the loop itself. *)
Lemma begin_armed arg k1 kq k2 fd u okb w1 :
  begun k1 → kq_ l = -1 → live_ l = ∅ → opened kq k1 k2 → fd ∈ own i → (∀ p, u ≠ UConn p) →
  let l2 := set_kq kq (set_listener arg l) in
  arm l2 fd false u (set_kern k2 w) = (okb, w1) → ok (kq :: own i) (negb okb) l2 w1.
Proof.
  intros [Hw1 Ht1 Hr1 Hg1 Hla1 Hfp1] Hkq Hlive E2 Hfd Hu l2 Ea. pose proof E2 as (Hpos & Hfree & _). pose proof thread_loop as [_ Hin].
  assert (∀ fd d u, regs (obs k1) !! (kq, fd, d) ≠ Some u) as Hnokq.
  { rewrite Hr1. intros x d v (j & l' & rc' & Hj & _ & Hjn)%(sv_regs _ _ _ _ Hs).
    destruct (shard_held _ _ _ _ kq (sv_loop _ _ _ _ Hs j l' rc' Hj)) as [f Hf]; [set_solver|]. simpl in Hf. rewrite Ht1 in Hfree. simpl in Hfree. congruence. }
  assert (good (elsewhere B own s i) (kq :: own i) (inbox_fds l) l2 (set_kern k2 (set_kern k1 w))) as Hg2 by by eapply good_kqueue.
  change (set_kern k2 (set_kern k1 w)) with (set_kern k2 w) in *.
  assert (good (elsewhere B own s i) (kq :: own i) (inbox_fds l) l2 w1) as Hg3 by (eapply arm_own; [exact Hg2|done| |exact Hu|exact Ea]; set_solver).
  pose proof (arm_acts l2 fd false u (set_kern k2 w)) as Ha3. pose proof (arm_regs_only l2 fd false u (set_kern k2 w)) as Hro.
  rewrite Ea in Ha3, Hro. cbn [snd] in Ha3, Hro. specialize (Ha3 ltac:(apply Hg2)). specialize (Hro ltac:(apply Hg2)).
  assert (good (elsewhere B own s i) (own i) (inbox_fds l) l2 (set_kern k1 w)) as Hg1' by by eapply good_shape; [exact Hg1|..].
  assert (footprint kq (own i) (inbox_fds l) (live_ l) w (kq :: inbox_fds l) (live_ l) w1) as Hfp.
  { eapply footprint_trans; [apply thread_wf|apply Hfp1|]. eapply footprint_trans; [done|eapply opened_footprint; [apply Hg1'|exact E2]|].
    eapply own_footprint; [exact Ha3|by destruct Hro as [[k3 ->] _ _ _ _ _]|]. by intros x ->. }
  split; [split|].
  - exists kq, (kq :: inbox_fds l). split; [done|]. simpl. set_solver.
  - destruct okb; simpl; (split; [|intros ib Hib; destruct (Hin ib Hib); set_solver]); [exact Hg3|].
    eapply good_shape; [exact Hg3|done|done| |done]. simpl. intros x d p Hx.
    eapply thread_no_regs, (ac_regs _ _ _ _ _ (fp_acts _ _ _ _ _ _ _ _ Hfp) (-1)); [lia|exact Hx].
  - left. simpl. set_solver.
  - right. split; [done|]. rewrite Ht1 in Hfree. exact Hfree.
  - intros kq' [Hne|Hn]; [|destruct Hn; simpl; set_solver]. by apply (ac_regs _ _ _ _ _ (fp_acts _ _ _ _ _ _ _ _ Hfp) kq').
  - pose proof (loop_opened _ _ _ _ _ _ _ kq k2 Hla1 E2) as Hla2. change (set_kern k2 (set_kern k1 w)) with (set_kern k2 w) in Hla2.
    destruct Hro as [[k3 ->] Hw3 Ht3 _ _ _]. apply (loop_own _ _ _ (own i) _ (kq :: inbox_fds l)); [|simpl; set_solver].
    by apply (loop_same _ _ _ _ _ _ (set_kern k2 w) k3).
Qed.

Lemma begin_thread arg okb l1 w1 :
  kq_ l = -1 → listener_ l = -1 → live_ l = ∅ → (arg ∈ own i ∨ arg = -1) → (∀ fd, fd ∈ given l arg → fd ∈ own i) →
  run_begin arg l w = (okb, l1, w1) →
  let o1 := if decide (kq_ l1 = -1) then own i else kq_ l1 :: own i in
  ok o1 (negb okb) l1 w1 ∧ live_ l1 = ∅ ∧ listener_ l1 = arg ∧ inbox_ l1 = inbox_ l ∧ (okb = true → kq_ l1 ∈ o1).
Proof.
  intros Hkq Hli Hlive Harg Hgiven E. pose proof thread_loop as [_ Hin].
  unfold run_begin, Fd_reset in E. rewrite Hli in E. change (valid (-1)) with false in E. cbn iota in E.
  destruct (set_nonblocking arg (kern w)) as [b k1] eqn:E1. apply begin_nonblocking in E1; [|done].
  cbn [set_listener kq_] in E. rewrite Hkq in E. change (valid (-1)) with false in E. cbn iota in E.
  destruct (sys_kqueue k1) as [[e|kq] k2] eqn:E2.
  { apply kqueue_err in E2 as [E2 _]. injection E as <- <- <-. simpl. split; [|done]. by apply (begin_failed k1). }
  apply kqueue_ok in E2. set (l2 := set_kq kq (set_listener arg l)) in *.
  assert (∃ fd u, fd ∈ own i ∧ (∀ p, u ≠ UConn p) ∧ arm l2 fd false u (set_kern k2 w) = (okb, w1) ∧ l1 = l2) as (fd & u & Hfd & Hu & Ea & ->).
  { change (inbox_ l2) with (inbox_ l) in E. destruct (inbox_ l) as [ib|] eqn:Hib.
    - destruct (arm _ _ _ _ _) as [ok3 w3] eqn:Ea. injection E as <- <- <-. exists (ib_read_end ib), UInbox. split_and!; try done. by apply Hin.
    - destruct (arm _ _ _ _ _) as [ok3 w3] eqn:Ea. injection E as <- <- <-. exists (listener_ l2), UNull. split_and!; try done.
      apply Hgiven. unfold given. rewrite Hib. set_solver. }
  assert (kq_ l2 = kq) as Hkq2 by done. pose proof E2 as (Hpos & _ & _). destruct (decide (kq_ l2 = -1)) as [?|_]; [lia|]. cbn zeta.
  split; [|split_and!; try done; set_solver]. by eapply begin_armed.
Qed.

(** After the loop: no more clients. *)
Lemma unlisten_thread :
  kq_ l ∈ own i → (inbox_ l = None → listener_ l ∈ own i ∧ listener_ l ≠ kq_ l) →
  ∃ o1, ok o1 false (run_unlisten l w).1 (run_unlisten l w).2 ∧ kq_ l ∈ o1 ∧
    (∀ fd, fd ∈ o1 → fd ∈ own i ∧ (inbox_ l = None → fd ≠ listener_ l)).
Proof.
  intros Hk Hnone. pose proof thread_loop as [Hg Hin]. pose proof thread_among as Hla. pose proof thread_wf as Hw.
  assert (∀ fd, fd ∈ own i → good (elsewhere B own s i) (own i) (inbox_fds l) l (disarm l fd false w) ∧
    mine (own i) (inbox_fds l) (live_ l) (disarm l fd false w) ∧ acts (kq_ l) (λ x, x = fd) (λ _, False) w (disarm l fd false w) ∧
    ∃ k, disarm l fd false w = set_kern k w) as Hdis.
  { intros fd Hfd. split; [by apply disarm_own|]. pose proof (disarm_acts l fd false w ltac:(apply Hg)) as Ha.
    pose proof (disarm_regs_only l fd false w Hw) as [[k Hk2] Hw2 Ht2 _ _ _]. rewrite Hk2 in *.
    split; [by apply loop_same|]. eauto. }
  unfold run_unlisten. destruct (inbox_ l) as [ib|] eqn:Hib; cbn [fst snd].
  - exists (own i). destruct (Hin ib eq_refl) as [Hre _]. destruct (Hdis _ Hre) as (Hg1 & Hla1 & Ha1 & k & Hk1).
    split; [|split; [done|by intros fd]]. apply thread_footprint; try done.
    + eapply own_footprint; [exact Ha1|by rewrite Hk1|]. by intros x ->.
    + split; [done|by rewrite Hib].
  - destruct (Hnone eq_refl) as [Hli Hne]. destruct (Hdis _ Hli) as (Hg1 & Hla1 & Ha1 & k & Hk1). rewrite Hk1 in *.
    destruct (proj1 (elem_of_Permutation (own i) (listener_ l)) Hli) as [o1 Hp]. unfold Fd_reset.
    pose proof thread_loop as Hl0. pose proof (own_pos _ _ _ _ _ Hl0 Hli) as Hpos. rewrite (proj2 (valid_spec _) Hpos). cbn [fst snd set_kern kern].
    pose proof (ss_nodup _ _ _ _ _ _ (gd_slots _ _ _ _ _ Hg)) as (Hnd & _)%NoDup_app. rewrite Hp in Hnd. apply NoDup_cons in Hnd as [Hnin _].
    assert (kq_ l ∈ o1) as Hk' by (rewrite Hp in Hk; apply elem_of_cons in Hk as [?|?]; [congruence|done]).
    assert (footprint (kq_ l) (own i) (inbox_fds l) (live_ l) w (inbox_fds l) (live_ l)
      (set_kern (sys_close (listener_ l) k) (set_kern k w))) as Hfp.
    { eapply (own_footprint _ _ _ _ _ _ (λ x, x = listener_ l)); [|done|by intros x ->]. 
      eapply (acts_trans _ _ _ (λ x, x = listener_ l) (λ _, False)); [done|exact Ha1| |by left|done].
      apply acts_kern; [apply Hg1|]. simpl. rewrite close_ok. apply frame_close. apply Hg1. }
    exists o1. split; [|split; [done|]].
    + split; [split|].
      * exists (kq_ l), (inbox_fds l). split; [exact Hfp|]. unfold inbox_fds. simpl. rewrite Hib. intros fd. rewrite Hp. set_solver.
      * split; [|simpl; by rewrite Hib]. change (inbox_fds (view false (set_listener (-1) l))) with (inbox_fds l).
        assert (good (elsewhere B own s i) o1 (inbox_fds l) l (set_kern (sys_close (listener_ l) k) (set_kern k w))) as [? ?]; [|by split].
        apply (good_disown _ (listener_ l) o1 _ l (set_kern k w)). by eapply good_own_perm.
      * by left.
      * by left.
      * simpl. intros kq [Hkne|?]; [|done]. by apply (ac_regs _ _ _ _ _ (fp_acts _ _ _ _ _ _ _ _ Hfp) kq).
      * eapply (loop_disown _ _ _ (kq_ l) _ (own i) o1 _ _ (set_kern k w)); [apply Hg1|done|done].
    + intros fd Hfd. split; [rewrite Hp; set_solver|]. by intros _ ->.
Qed.
Context (cfg : Config) (malloc : gset nat → nat) (Hmalloc : ∀ X, malloc X ∉ X) (budget : nat).

Lemma handle_thread u :
  kq_ l ∈ own i → ok (own i) false (handle cfg malloc budget u l w).1 (handle cfg malloc budget u l w).2.
Proof.
  intros Hk. pose proof thread_loop as Hl. pose proof thread_among as Hla.
  pose proof (handle_footprint cfg malloc Hmalloc budget _ _ u _ _ Hl) as Hfp.
  pose proof (handle_inv cfg budget _ _ malloc Hmalloc u _ _ Hl) as Hin.
  pose proof (handle_among _ _ _ cfg malloc Hmalloc budget _ _ u _ _ Hl Hla) as Ha.
  destruct (handle cfg malloc budget u l w) as [l1 w1]. destruct Hin. by apply thread_footprint.
Qed.

Lemma drain_event_thread u :
  kq_ l ∈ own i → ok (own i) false (drain_event cfg u l w).1 (drain_event cfg u l w).2.
Proof.
  intros Hk. destruct u as [| |p]; cbn [drain_event fst snd].
  1,2: exact (thread_silent (sy_kern s) eq_refl).
  exact (handle_thread (UConn p) Hk).
Qed.

End thread.
(** ** What a thread knows *)

(** The descriptors the loop itself will give back. *)
Definition member (l : EventLoop) (fd : Z) : Prop :=
  fd = kq_ l ∨ fd = listener_ l ∨ ∃ ib, inbox_ l = Some ib ∧ (fd = ib_read_end ib ∨ fd = ib_write_end ib).

(** At program point [pc] of [run], called with [arg], the loop has the descriptors [o]. *)
Definition run_ok (o : list Z) (arg : Z) (pc : RunPc) (l : EventLoop) : Prop :=
  match pc with
  | RunStart =>
      kq_ l = -1 ∧ listener_ l = -1 ∧ live_ l = ∅ ∧ (∀ fd, fd ∈ o ↔ fd ∈ given l arg) ∧ (inbox_ l ≠ None → arg = -1)
  | Polling | Handling _ | Unlistening =>
      kq_ l ∈ o ∧ listener_ l = arg ∧ (∀ fd, fd ∈ o → fd = kq_ l ∨ fd ∈ given l arg) ∧
      (inbox_ l = None → arg ∈ o ∧ arg ≠ kq_ l) ∧ (inbox_ l ≠ None → arg = -1)
  | Draining _ | DrainHandling _ _ | Clearing =>
      kq_ l ∈ o ∧ (∀ fd, fd ∈ o → member l fd) ∧ (listener_ l ∈ o ∨ listener_ l = -1)
  | RunReturned => live_ l = ∅ ∧ (∀ fd, fd ∈ o → member l fd) ∧ (listener_ l ∈ o ∨ listener_ l = -1)
  end.

Lemma run_ok_listener o arg pc l : run_ok o arg pc l → listener_ l ∈ o ∨ listener_ l = -1.
Proof. destruct pc; simpl; destruct (inbox_ l) eqn:Hib; naive_solver. Qed.

Definition returned (pc : RunPc) : bool := bool_decide (pc = RunReturned).

Lemma given_member l arg fd : listener_ l = arg → fd ∈ given l arg → member l fd.
Proof.
  intros Hli Hin. unfold given in Hin. destruct (inbox_ l) as [ib|] eqn:Hib.
  - right; right. exists ib. set_solver.
  - apply list_elem_of_singleton in Hin as ->. right; by left.
Qed.

Lemma shape_given l l' arg : shape l' = shape l → given l' arg = given l arg.
Proof. unfold shape, given. destruct (inbox_ l), (inbox_ l'); intros; simplify_eq/=; congruence. Qed.

Lemma shape_inbox l l' : shape l' = shape l → inbox_ l' = None ↔ inbox_ l = None.
Proof. unfold shape. by destruct (inbox_ l), (inbox_ l'); intros; simplify_eq/=. Qed.

Lemma shape_member l l' fd : shape l' = shape l → kq_ l' = kq_ l → member l fd → member l' fd.
Proof.
  unfold shape, member. intros Hsh ->. injection Hsh as -> Hib. intros [?|[?|(ib & Hi & Hfd)]]; [by left|by right; left|right; right].
  rewrite Hi in Hib. destruct (inbox_ l') as [ib'|]; [|done]. simplify_eq/=. exists ib'. split; [done|].
  naive_solver congruence.
Qed.

(** The loop went on, with the same descriptors. *)
Lemma run_ok_shape o arg pc l l' :
  run_ok o arg pc l → shape l' = shape l → kq_ l' = kq_ l → live_ l' = live_ l ∨ pc ≠ RunStart ∧ pc ≠ RunReturned →
  run_ok o arg pc l'.
Proof.
  intros H Hsh Hkq Hl. pose proof (shape_given l l' arg Hsh) as Hg. pose proof (shape_inbox _ _ Hsh) as Hib.
  assert (listener_ l' = listener_ l) as Hli by by injection Hsh.
  assert (∀ fd, member l fd → member l' fd) as Hm by by intros fd; apply shape_member.
  destruct pc; simpl in *; rewrite ?Hg, ?Hkq, ?Hli, ?Hib in *; try done.
  - destruct Hl as [->|[? _]]; done.
  - destruct H as (? & Ho & ?). split; [done|]. auto.
  - destruct H as (? & Ho & ?). split; [done|]. auto.
  - destruct H as (? & Ho & ?). split; [done|]. auto.
  - destruct H as (? & Ho & ?). destruct Hl as [->|[_ ?]]; [|done]. split; [done|]. auto.
Qed.
(** ** One step of a shard thread *)

Section steps.
Context (B : Z → Prop) (ws : list WorkerPc) (own : nat → list Z) (dead : nat → bool).
Context (s : Sys K C) (i : nat) (l : EventLoop) (rc : option C) (arg : Z).
Context (Hs : sys_inv B own dead s) (Hsh : sys_shared ws own s) (Hi : sy_shards s !! i = Some (l, rc)).
Context (Hrun : dead i = false).

(** It ends at [pc] with loop [l1]. *)
Definition step_to (pc : RunPc) (l1 : EventLoop) w1 : Prop :=
  ∃ o1, thread_ok B ws own s i l rc o1 (returned pc) l1 w1 ∧ run_ok o1 arg pc l1 ∧ (inbox_ l1 = None ↔ inbox_ l = None).

Lemma step_silent k pc :
  silent (sy_kern s) k → run_ok (own i) arg pc l → pc ≠ RunReturned → step_to pc l (set_kern k (world_of s rc)).
Proof.
  intros Hk Hok Hn. exists (own i). unfold returned. rewrite bool_decide_eq_false_2 by done. split; [by eapply thread_silent|done].
Qed.

Lemma step_same pc l1 w1 :
  thread_ok B ws own s i l rc (own i) false l1 w1 → shape l1 = shape l → kq_ l1 = kq_ l → run_ok (own i) arg pc l →
  pc ≠ RunStart → pc ≠ RunReturned → step_to pc l1 w1.
Proof.
  intros Ht Hshape Hkq Hok1 Hn1 Hn2. exists (own i). unfold returned. rewrite bool_decide_eq_false_2 by done.
  split; [done|]. split; [eapply run_ok_shape; eauto|by apply shape_inbox].
Qed.

Lemma step_begin okb l1 w1 :
  run_ok (own i) arg RunStart l → run_begin arg l (world_of s rc) = (okb, l1, w1) →
  step_to (if okb then Polling else RunReturned) l1 w1.
Proof.
  intros (Hkq & Hli & Hl & Ho & Hib) Eb. assert (inbox_ l = None → arg ∈ own i) as Hnone.
  { intros Hn. apply Ho. unfold given. rewrite Hn. set_solver. }
  assert (arg ∈ own i ∨ arg = -1) as Harg by (destruct (inbox_ l) eqn:Hibl; [right; by apply Hib|left; by apply Hnone]).
  destruct (begin_thread B ws own dead s i l rc Hs Hsh Hi Hrun arg okb l1 w1) as (Ht & Hl1 & Hli1 & Hib1 & Hk1); try done.
  { intros fd. apply Ho. }
  eexists. assert (returned (if okb then Polling else RunReturned) = negb okb) as -> by by destruct okb. split; [exact Ht|].
  rewrite Hib1. split; [|done]. assert (given l1 arg = given l arg) as Hg by (unfold given; by rewrite Hib1).
  assert (∀ fd, fd ∈ (if decide (kq_ l1 = -1) then own i else kq_ l1 :: own i) → fd = kq_ l1 ∨ fd ∈ given l1 arg) as Hsub.
  { intros fd Hfd. rewrite Hg, <-Ho. case_decide; [by right|set_solver]. }
  destruct okb; simpl.
  2: { split; [done|]. split; [intros fd [->|Hfd]%Hsub; [by left|by eapply given_member]|]. rewrite Hli1.
       destruct Harg; [left; case_decide; set_solver|by right]. }
  split; [by apply Hk1|]. split; [done|]. split; [done|]. rewrite Hib1. split; [|done].
  intros Hn. specialize (Hk1 eq_refl). specialize (Hnone Hn).
  split; [case_decide; set_solver|]. intros Heq.
  destruct (sa_same _ _ _ _ _ _ _ _ _ _ (to_acts _ _ _ _ _ _ _ _ _ _ _ Ht)) as [Hsm|[_ Hno]].
  - pose proof (own_pos _ _ _ _ _ (sv_loop _ _ _ _ Hs i l rc Hi) Hnone). lia.
  - destruct (shard_held _ _ _ _ arg (sv_loop _ _ _ _ Hs i l rc Hi)) as [f Hf]; [set_solver|]. simpl in Hf. congruence.
Qed.

Lemma step_unlisten l1 w1 :
  run_ok (own i) arg Unlistening l → run_unlisten l (world_of s rc) = (l1, w1) → step_to (Draining 0) l1 w1.
Proof.
  intros (Hk & Hli & Ho & Hnone & Hsome) E. destruct (unlisten_thread B ws own dead s i l rc Hs Hsh Hi Hrun Hk) as (o1 & Ht & Hk1 & Ho1).
  { intros Hib. rewrite Hli. by apply Hnone. }
  rewrite E in Ht. cbn [fst snd] in Ht.
  assert (kq_ l1 = kq_ l ∧ (shape l1 = shape l ∨ inbox_ l = None ∧ l1 = set_listener (-1) l)) as [Hkq Hshape].
  { unfold run_unlisten in E. destruct (inbox_ l) eqn:Hib; [injection E as <- <-; by split; [|left]|].
    unfold Fd_reset in E. injection E as <- <-. split; [done|by right]. }
  exists o1. split; [done|]. split; [split; [by rewrite Hkq|]|destruct Hshape as [?|[? ->]]; [by apply shape_inbox|done]].
  split; [intros fd Hfd|].
  2: { right. destruct Hshape as [Hshape|[_ ->]]; [|done]. assert (listener_ l1 = listener_ l) as -> by by injection Hshape.
       rewrite Hli. apply Hsome. intros Hib. unfold run_unlisten in E. rewrite Hib in E. unfold Fd_reset in E. injection E as <- <-.
       destruct (Hnone Hib) as [Hin _]. injection Hshape as Hm. rewrite Hli in Hm. pose proof (own_pos _ _ _ _ _ (sv_loop _ _ _ _ Hs i l rc Hi) Hin). lia. }
   destruct (Ho1 fd Hfd) as [Hfo Hfn]. destruct Hshape as [Hshape|[Hib ->]].
  - eapply shape_member; [exact Hshape|done|]. destruct (Ho fd Hfo) as [->|?]; [by left|by eapply given_member].
  - destruct (Ho fd Hfo) as [->|Hgv]; [by left|]. unfold given in Hgv. rewrite Hib in Hgv.
    apply list_elem_of_singleton in Hgv. rewrite <-Hli in Hgv. by destruct (Hfn Hib).
Qed.

Lemma step_wait pc kq n t k a pc1 :
  sys_kevent_wait kq n t (sy_kern s) = (a, k) → run_ok (own i) arg pc l → pc1 ≠ RunReturned →
  (run_ok (own i) arg pc l → run_ok (own i) arg pc1 l) → step_to pc1 l (set_kern k (world_of s rc)).
Proof.
  intros E Hok Hne Himp. apply step_silent; [|by apply Himp|done].
  destruct a; [by apply kevent_wait_err in E as [E _]|by apply kevent_wait_ok in E].
Qed.

Lemma run_step_ok cfg malloc budget stop pc pc' l' w' :
  (∀ X, malloc X ∉ X) → run_ok (own i) arg pc l →
  run_step cfg malloc budget arg stop pc l (world_of s rc) = Some (pc', l', w') → step_to pc' l' w'.
Proof.
  intros Hmalloc Hok E. assert (silent (sy_kern s) (sy_kern s)) as Hsk by done.
  destruct pc as [| |us| |waited|waited us| |]; cbn [run_step] in E; try done.
  - destruct (run_begin arg l (world_of s rc)) as [[okb l1] w1] eqn:Eb. injection E as <- <- <-. by apply step_begin.
  - destruct stop; [injection E as <- <- <-; by apply (step_silent (sy_kern s))|].
    destruct (sys_kevent_wait _ _ _ _) as [[e|us] k] eqn:Ek; [destruct e|]; injection E as <- <- <-; by eapply (step_wait Polling).
  - destruct us as [|u us]; [injection E as <- <- <-; by apply (step_silent (sy_kern s))|].
    pose proof (handle_thread B ws own dead s i l rc Hs Hsh Hi Hrun cfg malloc Hmalloc budget u (proj1 Hok)) as Ht.
    pose proof (handle_shape cfg malloc budget u l (world_of s rc)) as Hshape.
    pose proof (handle_inv cfg budget _ _ malloc Hmalloc u _ _ (thread_loop _ _ _ _ _ _ _ Hs Hi Hrun)) as Hk.
    destruct (handle _ _ _ _ _ _) as [l1 w1]. injection E as <- <- <-. destruct Hk. by apply step_same.
  - destruct (run_unlisten l (world_of s rc)) as [l1 w1] eqn:Eu. injection E as <- <- <-. by apply step_unlisten.
  - destruct (_ || _); [injection E as <- <- <-; by apply (step_silent (sy_kern s))|].
    destruct (sys_kevent_wait _ _ _ _) as [[e|us] k] eqn:Ek; [destruct e|]; injection E as <- <- <-; by eapply (step_wait (Draining waited)).
  - destruct us as [|u us]; [injection E as <- <- <-; by apply (step_silent (sy_kern s))|].
    pose proof (drain_event_thread B ws own dead s i l rc Hs Hsh Hi Hrun cfg malloc Hmalloc budget u (proj1 Hok)) as Ht.
    assert (shape (drain_event cfg u l (world_of s rc)).1 = shape l) as Hshape by (destruct u; try done; apply service_shape).
    pose proof (drain_event_inv cfg budget _ _ malloc Hmalloc u _ _ (thread_loop _ _ _ _ _ _ _ Hs Hi Hrun)) as Hk.
    destruct (drain_event _ _ _ _) as [l1 w1]. injection E as <- <- <-. destruct Hk. by apply step_same.
  - destruct Hok as (Hk & Ho & Hli). pose proof (clear_thread B ws own dead s i l rc Hs Hsh Hi Hrun Hk) as Ht.
    destruct (clear_live l (world_of s rc)) as [l1 w1] eqn:Ec. injection E as <- <- <-. unfold clear_live in Ec. injection Ec as <- <-.
    exists (own i). by split.
Qed.
End steps.
End proxy.
