(* ===== verification/ProxyEnd.v ===== *)
(** * What the destructors at the end of [main] close

[leave] destroys the loops, the inboxes, the listener and the resolver's queue.
[closes P k k']: what is open in [k'] is what was open in [k] less [P]. *)
From S2P Require Import Prelude CppString Cache CacheSpec Kernel Socket Resolver ResolverSpec.
From S2P Require Import Connection ConnectionInv EventLoop EventLoopInv ConnResolver Sharded ShardedSys EventThreads.

Section leaving.
Context {K C : Type} `{!Kernel K, !KernelLaws K, !ResponseCache C}.
Implicit Type k : K.

Definition closes (P : Z → Prop) (k k' : K) : Prop :=
  obs_wf (obs k) → obs_wf (obs k') ∧ ∀ fd, is_Some (fdt (obs k') !! fd) ↔ is_Some (fdt (obs k) !! fd) ∧ ¬ P fd.

Lemma closes_none k (P : Z → Prop) : (∀ fd, ¬ P fd) → closes P k k.
Proof. intros HP Hw. split; [done|]. naive_solver. Qed.

Lemma closes_trans (P Q R : Z → Prop) k k1 k2 :
  closes P k k1 → closes Q k1 k2 → (∀ fd, R fd ↔ P fd ∨ Q fd) → closes R k k2.
Proof.
  intros H1 H2 HR Hw. destruct (H1 Hw) as [Hw1 C1], (H2 Hw1) as [Hw2 C2]. split; [done|].
  intros fd. rewrite C2, C1, HR. tauto.
Qed.

Lemma closes_seq (P Q : Z → Prop) k k1 k2 : closes P k k1 → closes Q k1 k2 → closes (λ fd, P fd ∨ Q fd) k k2.
Proof. intros H1 H2. by eapply closes_trans. Qed.

Lemma Fd_reset_closes fd k : closes (λ x, x = fd) k (Fd_reset fd (-1) k).2.
Proof.
  intros Hw. split; [by eapply fr_wf, Fd_reset_frame|]. intros x. rewrite Fd_reset_obs. destruct (valid fd) eqn:Hv.
  - simpl. rewrite lookup_delete_is_Some. naive_solver.
  - split; [|tauto]. intros [f Hf]. split; [by eexists|]. intros ->. apply (ow_pos _ Hw), valid_spec in Hf. congruence.
Qed.

Lemma close_all_closes fds k : closes (λ x, x ∈ fds) k (close_all fds k).
Proof.
  revert k. induction fds as [|fd fds IH]; intros k; cbn [close_all]; [apply closes_none; set_solver|].
  pose proof (Fd_reset_closes fd k) as H1. destruct (Fd_reset fd (-1) k) as [y k1]. eapply closes_trans; [exact H1|apply IH|].
  intros x. apply elem_of_cons.
Qed.

(** Loops without connections give back their kqueue and their listener, *)
Lemma destroy_loops_closes ss k r :
  Forall (λ lc : EventLoop * option C, live_ lc.1 = ∅) ss →
  (destroy_loops ss k r).2 = r ∧
  closes (λ x, ∃ l rc, (l, rc) ∈ ss ∧ (x = listener_ l ∨ x = kq_ l)) k (destroy_loops ss k r).1.
Proof.
  revert k. induction ss as [|[l rc] ss IH]; intros k H; simpl.
  { split; [done|]. apply closes_none. set_solver. }
  apply Forall_cons in H as [Hl H]. simpl in Hl. unfold EventLoop_destroy. rewrite Hl, map_to_list_empty. simpl destroy_all.
  cbn [kern res set_kern]. destruct (IH (close_all [listener_ l; kq_ l] k) H) as [Hr Hc]. split; [done|].
  eapply closes_trans; [apply close_all_closes|exact Hc|]. intros x. set_solver.
Qed.

(** inboxes their pipe and the clients nobody took, *)
Lemma destroy_inboxes_closes ibs k :
  closes (λ x, ∃ ib, ib ∈ ibs ∧ (x = ib_read_end ib ∨ x = ib_write_end ib ∨ x ∈ ib_queue ib)) k (destroy_inboxes ibs k).
Proof.
  revert k. induction ibs as [|ib ibs IH]; intros k; simpl; [apply closes_none; set_solver|].
  eapply closes_trans; [apply close_all_closes|apply IH|]. intros x. set_solver.
Qed.

(** and lookups nobody waits for any more their pipes. *)
Lemma drop_queue_closes q r k :
  NoDup q → (∀ j jb, j ∈ q → jobs r !! j = Some jb → (refs jb ≤ 1)%nat) →
  closes (λ x, ∃ j jb, j ∈ q ∧ jobs r !! j = Some jb ∧ job_end jb x) k (drop_queue q r k).2.
Proof.
  revert r k. induction q as [|j q IH]; intros r k Hnd Hr; simpl.
  { apply closes_none. set_solver. }
  apply NoDup_cons in Hnd as [Hj Hnd].
  assert (∀ i, i ∈ q → jobs (drop_job j r k).1 !! i = jobs r !! i) as Hne.
  { intros i Hi. assert (i ≠ j) by (by intros ->). unfold drop_job. destruct (jobs r !! j); [|done].
    case_bool_decide; simpl; [by rewrite lookup_delete_ne|by rewrite lookup_insert_ne]. }
  eapply (closes_trans (λ x, ∃ jb, jobs r !! j = Some jb ∧ job_end jb x)
    (λ x, ∃ i jb, i ∈ q ∧ jobs (drop_job j r k).1 !! i = Some jb ∧ job_end jb x) _ _ (drop_job j r k).2).
  - unfold drop_job. destruct (jobs r !! j) as [jb|] eqn:Hjb; [|apply closes_none; naive_solver].
    rewrite bool_decide_eq_true_2 by (eapply Hr; [left|done]). simpl. unfold close_job.
    pose proof (Fd_reset_closes (write_end jb) k) as H1. destruct (Fd_reset _ _ k) as [y k1].
    pose proof (Fd_reset_closes (read_end jb) k1) as H2. destruct (Fd_reset _ _ k1) as [z k2].
    eapply closes_trans; [exact H1|exact H2|]. unfold job_end. naive_solver.
  - destruct (drop_job j r k) as [r1 k1]. simpl in *. apply IH; [done|]. intros i jb Hi. rewrite Hne by done. apply Hr. by right.
  - intros x. split.
    + intros (i & jb & [->|Hi]%elem_of_cons & Hjb & He); [left; eauto|right]. exists i, jb. by rewrite Hne.
    + intros [(jb & Hjb & He)|(i & jb & Hi & Hjb & He)]; [exists j, jb; split; [left|done]|].
      rewrite Hne in Hjb by done. exists i, jb. split; [by right|done].
Qed.
End leaving.
