(* ===== verification/ProxySys.v ===== *)
(** * The event loop program as a whole

[px_inv] holds from the moment [run] has set up to the end of [main], whatever the
shard threads, the acceptor, the resolver threads and signals do in whatever
order, and no state short of the end is stuck ([px_progress]).  [MainRun.v] reads off
what that means. *)
From S2P Require Import Prelude CppString Http Config Cache CacheSpec Kernel SimKernel Socket SocketSpec Resolver ResolverSpec.
From S2P Require Import Connection ConnectionInv ConnectionSpec EventLoop EventLoopInv ConnResolver EventLoopSpec LoopFootprint LoopShared.
From S2P Require Import Sharded ShardedSys EventThreads ProxyInv ProxyEnd.

Section proxy.
Context {K C : Type} `{!Kernel K, !KernelLaws K, !ResponseCache C, !ResponseCacheLaws C}.
Context (cfg : Config) (malloc : gset nat → nat) (budget : nat).
Implicit Type x : Proxy K C.

(** ** What the main thread has

The listener of the acceptor, inboxes without a loop and what was open before
[main] are left alone by all loops.  For the invariant they are the
descriptors of one more loop, which never does anything. *)
Definition aug (s : Sys K C) : Sys K C := mkSys (sy_kern s) (sy_res s) (sy_shards s ++ [(EventLoop_new, None)]).

Lemma aug_lookup (s : Sys K C) i lc : sy_shards s !! i = Some lc → sy_shards (aug s) !! i = Some lc.
Proof. apply lookup_app_l_Some. Qed.

Lemma aug_rest (s : Sys K C) : sy_shards (aug s) !! length (sy_shards s) = Some (EventLoop_new, None).
Proof. simpl. by rewrite lookup_app_r, Nat.sub_diag. Qed.

Lemma aug_inv (s : Sys K C) i lc :
  sy_shards (aug s) !! i = Some lc → sy_shards s !! i = Some lc ∨ i = length (sy_shards s) ∧ lc = (EventLoop_new, None).
Proof. simpl. intros [?|[? ->]]%lookup_snoc_Some; naive_solver. Qed.

Lemma aug_put i l w (s : Sys K C) : (i < length (sy_shards s))%nat → put_shard i l w (aug s) = aug (put_shard i l w s).
Proof. intros Hi. unfold put_shard, aug. simpl. by rewrite insert_app_l. Qed.

Lemma aug_held (s : Sys K C) : sys_held (sy_shards (aug s)) = sys_held (sy_shards s).
Proof.
  apply set_eq. intros j. rewrite !elem_of_sys_held. split.
  - intros (i & l & rc & [Hi|[_ [= -> ->]]]%aug_inv & Hj); [eauto 10|]. by destruct Hj as (? & ? & ? & _).
  - intros (i & l & rc & Hi%aug_lookup & Hj). eauto 10.
Qed.

(** ** The invariant *)

Definition dead_of x (i : nat) : bool := bool_decide (px_pcs x !! i = Some RunReturned).

Definition all_returned x : Prop := ∀ i, (i < length (sy_shards (px_sys x)))%nat → px_pcs x !! i = Some RunReturned.

(** What the main thread knows. *)
Definition main_ok x : Prop :=
  let n := length (sy_shards (px_sys x)) in
  match px_main x with
  | Accepting next | Round next =>
      (next < n)%nat ∧ ∀ i l rc, sy_shards (px_sys x) !! i = Some (l, rc) → inbox_ l ≠ None
  | StopAll _ => True
  | Joining i => ∀ j, (j < i)%nat → (j < n)%nat → px_pcs x !! j = Some RunReturned
  | RunDone => all_returned x
  | ResolverJoin => all_returned x ∧ closed_ (sy_res (px_sys x)) = true
  | Leaving => all_returned x ∧ forallb exited (px_workers x) = true
  | Left => False
  end.

(** [F] is what no loop has. *)
Record px_ok (F : list Z) (own : nat → list Z) x : Prop := {
  po_sys : sys_inv (λ _, False) own (dead_of x) (aug (px_sys x));
  po_shared : sys_shared (px_workers x) own (aug (px_sys x));
  po_rest : own (length (sy_shards (px_sys x))) = F;
  po_pcs : length (px_pcs x) = length (sy_shards (px_sys x));
  po_stops : length (px_stops x) = length (sy_shards (px_sys x));
  po_run i l rc pc : sy_shards (px_sys x) !! i = Some (l, rc) → px_pcs x !! i = Some pc → run_ok (own i) (px_arg x) pc l;
  po_main : main_ok x
}.

(** The main thread closed its own, and nothing else of [F]. *)
Definition main_fd x (fd : Z) : Prop := fd = px_listener x ∨ fd ∈ inbox_ends (px_spare x).

Record px_left (F : list Z) x : Prop := {
  pl_main : px_main x = Left;
  pl_shards : sy_shards (px_sys x) = [];
  pl_pcs : px_pcs x = [];
  pl_workers : forallb exited (px_workers x) = true;
  pl_open fd : is_Some (fdt (obs (sy_kern (px_sys x))) !! fd) ↔ fd ∈ F ∧ ¬ main_fd x fd
}.

(** Inboxes without a loop have nobody in them. *)
Definition px_inv (F : list Z) x : Prop :=
  Forall (λ ib, ib_queue ib = []) (px_spare x) ∧ ((∃ own, px_ok F own x) ∨ px_left F x).

Lemma sys_inv_dead B own dead dead' (s : Sys K C) :
  sys_inv B own dead s → (∀ i, (i < length (sy_shards s))%nat → dead' i = dead i) → sys_inv B own dead' s.
Proof.
  intros [Hl ? ? ? ?] Hd. split; try done. intros i l rc Hi. rewrite Hd; [by apply Hl|by eapply lookup_lt_Some].
Qed.

Lemma length_put_shard i l w (s : Sys K C) : length (sy_shards (put_shard i l w s)) = length (sy_shards s).
Proof. apply length_insert. Qed.

(** ** A shard thread *)

Lemma thread_px F own x i pc stop l rc pc' l' w' :
  (∀ X, malloc X ∉ X) → px_ok F own x →
  px_pcs x !! i = Some pc → px_stops x !! i = Some stop → sy_shards (px_sys x) !! i = Some (l, rc) →
  run_step cfg malloc budget (px_arg x) stop pc l (world_of (px_sys x) rc) = Some (pc', l', w') →
  ∃ own', px_ok F own' (mkProxy (put_shard i l' w' (px_sys x)) (<[i := pc']> (px_pcs x)) (px_stops x) (px_main x)
                 (px_stop x) (px_arg x) (px_listener x) (px_spare x) (px_workers x)).
Proof.
  intros Hmalloc [Hs Hsh Hre Hp Hst Hr Hm] Hpc Hstop Hi E. pose proof (aug_lookup _ _ _ Hi) as Hai.
  assert (pc ≠ RunReturned) as Hne by by intros ->.
  assert (dead_of x i = false) as Hrun by (apply bool_decide_eq_false; congruence).
  assert (i < length (px_pcs x))%nat as Hlt by by eapply lookup_lt_Some.
  assert (i < length (sy_shards (px_sys x)))%nat as Hlt' by lia.
  destruct (run_step_ok _ (px_workers x) own (dead_of x) (aug (px_sys x)) i l rc (px_arg x) Hs Hsh Hai Hrun cfg malloc budget stop pc pc' l' w' Hmalloc
    (Hr i l rc pc Hi Hpc) E) as (o1 & Ht & Hok & Hib).
  destruct (thread_keeps _ _ _ _ _ _ _ _ _ _ _ _ Hs Hai Ht) as [Hs1 Hsh1]. rewrite aug_put in Hs1, Hsh1 by done.
  exists (<[i := o1]> own). split; cbn [px_sys px_pcs px_stops px_main px_stop px_arg px_listener px_workers]; rewrite ?length_put_shard, ?length_insert; try done.
  - eapply sys_inv_dead; [exact Hs1|]. intros j _. unfold dead_of. cbn [px_pcs]. destruct (decide (j = i)) as [->|Hj].
    + rewrite fn_lookup_insert, list_lookup_insert_eq by done. unfold returned. apply bool_decide_ext. naive_solver.
    + by rewrite fn_lookup_insert_ne, list_lookup_insert_ne.
  - rewrite fn_lookup_insert_ne by lia. done.
  - intros j l1 rc1 pc1 [(<- & [= <- <-] & _)|[Hj Hl1]]%list_lookup_insert_Some Hpc1.
    + rewrite list_lookup_insert_eq in Hpc1 by done. simplify_eq. by rewrite fn_lookup_insert.
    + rewrite list_lookup_insert_ne in Hpc1 by done. rewrite fn_lookup_insert_ne by done. by eapply Hr.
  - assert (∀ j, px_pcs x !! j = Some RunReturned → <[i := pc']> (px_pcs x) !! j = Some RunReturned) as Hkeep.
    { intros j Hj. rewrite list_lookup_insert_ne; [done|]. intros <-. congruence. }
    unfold main_ok, all_returned in *. cbn [px_sys px_pcs px_main px_workers]. rewrite length_put_shard.
    destruct (px_main x); try done.
    1,2: destruct Hm as [? Hm]; split; [done|]; intros j l1 rc1 [(<- & [= <- <-] & _)|[Hj Hl1]]%list_lookup_insert_Some;
      [rewrite Hib; by eapply Hm|by eapply Hm].
    + intros j H1 H2. auto.
    + auto.
    + destruct Hm. split; [auto|]. exfalso. specialize (H i ltac:(lia)). congruence.
    + destruct Hm. split; auto.
Qed.
(** ** Steps that concern no loop *)

Lemma sys_quiet B ws own dead (s : Sys K C) k r :
  sys_inv B own dead s → sys_shared ws own s → silent (sy_kern s) k →
  jobs r = jobs (sy_res s) → next_job r = next_job (sy_res s) → cache_ r = cache_ (sy_res s) → queue_ r = queue_ (sy_res s) →
  sys_inv B own dead (mkSys k r (sy_shards s)) ∧ sys_shared ws own (mkSys k r (sy_shards s)).
Proof.
  intros Hs Hsh Hk Hj Hn Hc Hq. unfold silent in Hk. split.
  - apply sys_bg_inv; [done|..]; rewrite ?Hk, ?Hj; [|by intros kq fd d u|auto].
    intros i l rc Hi. pose proof (sv_loop _ _ _ _ Hs i l rc Hi) as [[Hss _] _]. rewrite view_fds, view_live in Hss.
    pose proof (ss_world _ _ _ _ _ _ Hss) as [Hw Hfr Hd Hca]. simpl in *.
    assert (world_ok (mkWorld k r rc)) as Hwo.
    { split; simpl; rewrite ?Hk; try done; [|by unfold cache_filled; rewrite Hc]. intros j. rewrite Hj, Hn. apply Hfr. }
    split; rewrite ?view_fds, ?view_live; simpl; rewrite ?Hk, ?Hj; try done.
    + by intros fd d u.
    + intros p t Hp. split; simpl; rewrite ?Hk; try done; [by apply wframe_refl|by apply Hwo|by apply Hwo|].
      intros j jb _ Hjb. exists jb. rewrite Hj. auto.
    + intros fd Hin. by apply (ss_held _ _ _ _ _ _ Hss).
    + intros fd Hin. destruct (ss_queue _ _ _ _ _ _ Hss fd Hin) as (fc & Hu). exists fc. simpl. by rewrite Hk.
    + auto.
  - eapply shared_same; [exact Hsh|simpl; by rewrite Hk; apply Hsh|simpl; by rewrite Hk|done|done|].
    eapply rinv_same; [..|apply Hsh]; try done. simpl. intros key e. rewrite Hc. apply (ri_cache _ (sh_rinv _ _ _ _ _ Hsh)).
Qed.

Lemma quiet_px F own x k r pc stop :
  px_ok F own x → silent (sy_kern (px_sys x)) k → jobs r = jobs (sy_res (px_sys x)) → next_job r = next_job (sy_res (px_sys x)) →
  cache_ r = cache_ (sy_res (px_sys x)) → queue_ r = queue_ (sy_res (px_sys x)) →
  let x' := mkProxy (mkSys k r (sy_shards (px_sys x))) (px_pcs x) (px_stops x) pc stop (px_arg x) (px_listener x) (px_spare x) (px_workers x) in
  main_ok x' → px_ok F own x'.
Proof.
  intros [Hs Hsh Hre Hp Hst Hr Hm] Hk Hj Hn Hc Hq x' Hm'.
  destruct (sys_quiet _ _ _ _ _ k r Hs Hsh Hk Hj Hn Hc Hq) as [Hs' Hsh']. by split.
Qed.

(** A flag is set, or the main thread goes on. *)
Lemma flag_px F own x stops pc stop :
  px_ok F own x → length stops = length (px_stops x) →
  let x' := mkProxy (px_sys x) (px_pcs x) stops pc stop (px_arg x) (px_listener x) (px_spare x) (px_workers x) in
  main_ok x' → px_ok F own x'.
Proof. intros [Hs Hsh Hre Hp Hst Hr Hm] Hl x' Hm'. split; try done. simpl. congruence. Qed.

(** A resolver thread. *)
Lemma worker_px F own x a pc b pc' r' k' :
  px_ok F own x → px_workers x = a ++ pc :: b →
  worker_step pc (sy_res (px_sys x)) (sy_kern (px_sys x)) = Some (pc', r', k') →
  px_ok F own (mkProxy (mkSys k' r' (sy_shards (px_sys x))) (px_pcs x) (px_stops x) (px_main x) (px_stop x)
                 (px_arg x) (px_listener x) (px_spare x) (a ++ pc' :: b)).
Proof.
  intros [Hs Hsh Hre Hp Hst Hr Hm] Hw E. rewrite Hw in Hsh.
  destruct (worker_keeps _ _ _ _ _ _ _ _ _ _ Hs Hsh E) as [Hs' Hsh']. split; try done.
  unfold main_ok, all_returned in *. cbn [px_sys px_pcs px_main px_workers sy_shards sy_res].
  destruct (px_main x); try done.
  - destruct Hm. split; [done|]. by apply worker_step_exit in E as (-> & _).
  - destruct Hm as [_ Hex]. rewrite Hw, forallb_app in Hex. simpl in Hex. by destruct pc; rewrite ?andb_false_r in Hex.
Qed.

(** A client goes to a shard. *)
Lemma hand_over_px F own x lfd i fd k s' pc :
  px_ok F own x → accept_one lfd (sy_kern (px_sys x)) = ((AcceptOk, fd), k) → hand_over i fd k (px_sys x) = Some s' →
  main_ok (set_main pc s' x) → ∃ own', px_ok F own' (set_main pc s' x).
Proof.
  intros [Hs Hsh Hre Hp Hst Hr Hm] Ha E Hm'. unfold hand_over in E.
  destruct (sy_shards (px_sys x) !! i) as [[l rc]|] eqn:Hi; [|done]. simpl in E. destruct (inbox_ l) as [ib|] eqn:Hib; [|done]. simpl in E.
  destruct (Inbox_push fd ib k) as [ib' k'] eqn:Epush. injection E as <-.
  pose proof (aug_lookup _ _ _ Hi) as Hai. assert (i < length (sy_shards (px_sys x)))%nat as Hlt by by eapply lookup_lt_Some.
  pose proof (hand_over_thread _ (px_workers x) own (dead_of x) (aug (px_sys x)) i l rc Hs Hsh Hai lfd ib fd k ib' k' Hib Ha Epush) as Ht.
  destruct (thread_keeps _ _ _ _ _ _ _ _ _ _ _ _ Hs Hai Ht) as [Hs1 Hsh1]. rewrite aug_put in Hs1, Hsh1 by done. exists (<[i := own i]> own).
  split; cbn [set_main px_sys px_pcs px_stops px_arg px_workers]; rewrite ?length_put_shard; try done.
  - eapply sys_inv_dead; [exact Hs1|]. intros j _. unfold dead_of. cbn [px_pcs].
    destruct (decide (j = i)) as [->|Hj]; [by rewrite fn_lookup_insert|by rewrite fn_lookup_insert_ne].
  - rewrite fn_lookup_insert_ne by lia. done.
  - intros j l1 rc1 pc1 [(<- & [= <- <-] & _)|[Hj Hl1]]%list_lookup_insert_Some Hpc1.
    + rewrite fn_lookup_insert. eapply run_ok_shape; [by eapply (Hr i)| |done|by left]. unfold shape. simpl. rewrite Hib.
      unfold Inbox_push in Epush. simpl in Epush. destruct (sys_write _ _ k). by simplify_eq.
    + rewrite fn_lookup_insert_ne by done. by eapply Hr.
Qed.

Lemma accept_px F own x next x' :
  px_ok F own x → px_main x = Round next → accept_step next x = Some x' → ∃ own', px_ok F own' x'.
Proof.
  intros Hx Hpc E. pose proof (po_main _ _ _ Hx) as Hm. unfold main_ok in Hm. rewrite Hpc in Hm. destruct Hm as [Hlt Hib].
  unfold accept_step in E. destruct (accept_one _ _) as [[st fd] k] eqn:Ea.
  assert (∀ k, silent (sy_kern (px_sys x)) k → ∃ own', px_ok F own' (set_main (Accepting next) (sys_set_kern k (px_sys x)) x)) as Hsil.
  { intros k1 Hk. exists own. by apply quiet_px. }
  pose proof (accept_one_spec _ _ _ _ _ Ea) as Hs.
  destruct st; [| |injection E as <-; apply Hsil|]; simpl in Hs; [|by injection E as <-; apply Hsil| |by injection E as <-; apply Hsil].
  - destruct (hand_over next fd k (px_sys x)) as [s'|] eqn:Eh; [|done]. simpl in E. injection E as <-.
    eapply hand_over_px; [done|exact Ea|exact Eh|]. unfold hand_over in Eh.
    destruct (sy_shards (px_sys x) !! next) as [[l rc]|] eqn:Hi; [|done]. simpl in Eh. destruct (inbox_ l) as [ib|] eqn:Hibl; [|done]. simpl in Eh.
    destruct (Inbox_push fd ib k) as [ib' k']. injection Eh as <-. unfold main_ok. simpl. rewrite length_insert. split.
    + apply Nat.mod_upper_bound. lia.
    + intros j l1 rc1 [(<- & [= <- <-] & _)|[_ Hj]]%list_lookup_insert_Some; [done|by eapply Hib].
  - destruct (fd_limit_current k) as [n k1] eqn:E1. apply fd_limit_current_silent in E1. by eapply silent_trans.
Qed.

(** ** The end *)

(** What no loop has is open and in nobody's hands. *)
Lemma rest_apart F own x fd :
  px_ok F own x → fd ∈ F →
  is_Some (fdt (obs (sy_kern (px_sys x))) !! fd) ∧ ¬ job_fd (jobs (sy_res (px_sys x))) fd ∧
  ∀ i l rc, sy_shards (px_sys x) !! i = Some (l, rc) → ¬ shard_fd (own i) l (world_of (px_sys x) rc) fd.
Proof.
  intros [Hs Hsh Hre _ _ _ _] Hin. rewrite <-Hre in Hin. set (n := length (sy_shards (px_sys x))) in *. pose proof (aug_rest (px_sys x)) as Hn.
  destruct (sh_apart _ _ _ _ _ Hsh fd) as [Hop Hnj]; [exists n, EventLoop_new, None; split; [done|left; set_solver]|].
  split; [done|]. split; [done|]. intros i l rc Hi Hf. pose proof (lookup_lt_Some _ _ _ Hi) as Hlt.
  destruct (sv_apart _ _ _ _ Hs i n l EventLoop_new rc None) as [Hap _]; [lia|by apply aug_lookup|done|].
  eapply (Hap fd); [done|done|left; set_solver].
Qed.

(** What a loop will close is what it has. *)
Lemma member_own F own x i l rc pc fd :
  px_ok F own x → sy_shards (px_sys x) !! i = Some (l, rc) → px_pcs x !! i = Some pc → 0 ≤ fd → member l fd → fd ∈ own i.
Proof.
  intros [Hs _ _ _ _ Hr _] Hi Hpc Hp Hm. pose proof (aug_lookup _ _ _ Hi) as Hai. destruct Hm as [->|[->|(ib & Hib & Hx)]].
  - destruct (sv_kq _ _ _ _ Hs i l rc Hai); [done|lia].
  - destruct (run_ok_listener _ _ _ _ (Hr i l rc pc Hi Hpc)); [done|lia].
  - destruct (li_inbox _ _ _ _ (sv_loop _ _ _ _ Hs i l rc Hai) ib); [by rewrite view_inbox|]. by destruct Hx as [->| ->].
Qed.

(** No loop holds a lookup any more. *)
Lemma returned_held F own x : px_ok F own x → all_returned x →
  Forall (λ lc, live_ lc.1 = ∅) (sy_shards (px_sys x)) ∧ sys_held (sy_shards (px_sys x)) = ∅.
Proof.
  intros [_ _ _ _ _ Hr _] Hall.
  assert (∀ i l rc, sy_shards (px_sys x) !! i = Some (l, rc) → live_ l = ∅) as Hl.
  { intros i l rc Hi. exact (proj1 (Hr i l rc RunReturned Hi (Hall i (lookup_lt_Some _ _ _ Hi)))). }
  split; [apply Forall_lookup; intros i [l rc]; apply Hl|]. apply set_eq. intros j. rewrite elem_of_sys_held. split; [|set_solver].
  intros (i & l & rc & Hi & p & t & Hp & _). by rewrite (Hl i l rc Hi) in Hp.
Qed.

(** Every lookup left is in the queue, which has the only reference to it. *)
Lemma leftover_jobs F own x j jb :
  px_ok F own x → all_returned x → forallb exited (px_workers x) = true → jobs (sy_res (px_sys x)) !! j = Some jb →
  j ∈ queue_ (sy_res (px_sys x)) ∧ refs jb = 1%nat.
Proof.
  intros Hx Hall Hex Hj. destruct (returned_held _ _ _ Hx Hall) as [_ Hh].
  pose proof (sh_rinv _ _ _ _ _ (po_shared _ _ _ Hx)) as [I1 _ _ _ I5 _ I7]. cbn [rs_workers rs_res rs_held] in *. rewrite aug_held, Hh in *. simpl in *.
  assert (omap pc_job (px_workers x) = []) as Hw.
  { clear -Hex. induction (px_workers x) as [|pc ws IH]; [done|]. simpl in *. apply andb_true_iff in Hex as [H1 H2].
    destruct pc; try done. by apply IH. }
  unfold pending in *. rewrite Hw, (right_id_L [] (++)) in *. destruct (I7 j) as [Hin|]; [by eexists| |set_solver].
  split; [done|]. destruct (I5 j jb Hj) as (-> & _). unfold count_if. rewrite decide_True, decide_False by (done || set_solver). done.
Qed.

(** What [leave] closes. *)
Definition left_fd x (fd : Z) : Prop :=
  (∃ l rc, (l, rc) ∈ sy_shards (px_sys x) ∧ (member l fd ∨ fd ∈ inbox_fds l)) ∨
  main_fd x fd ∨ job_fd (jobs (sy_res (px_sys x))) fd.

Lemma leave_closes F own x :
  px_ok F own x → Forall (λ ib, ib_queue ib = []) (px_spare x) → all_returned x → forallb exited (px_workers x) = true →
  closes (left_fd x) (sy_kern (px_sys x)) (leave x).1.
Proof.
  intros Hx Hsp Hall Hex. destruct (returned_held _ _ _ Hx Hall) as [Hlive _].
  pose proof (λ j jb, leftover_jobs F own x j jb Hx Hall Hex) as Hjobs. unfold leave.
  destruct (destroy_loops_closes _ (sy_kern (px_sys x)) (sy_res (px_sys x)) Hlive) as [Hr1 C1].
  destruct (destroy_loops _ _ _) as [k1 r1]. simpl in Hr1, C1. subst r1.
  pose proof (destroy_inboxes_closes (px_inboxes x) k1) as C2. set (k2 := destroy_inboxes _ k1) in *.
  pose proof (close_all_closes [px_listener x] k2) as C3. set (k3 := close_all _ k2) in *.
  assert (NoDup (queue_ (sy_res (px_sys x)))) as Hnd.
  { pose proof (ri_nodup _ (sh_rinv _ _ _ _ _ (po_shared _ _ _ Hx))) as Hnd. simpl in Hnd. by apply NoDup_app in Hnd as [? _]. }
  pose proof (drop_queue_closes _ (set_queue [] (sy_res (px_sys x))) k3 Hnd) as C4. simpl in C4.
  specialize (C4 ltac:(intros j jb _ Hj; by rewrite (proj2 (Hjobs j jb Hj)))). destruct (drop_queue _ _ _) as [r4 k4]. simpl in *.
  eapply closes_trans; [exact C1|exact (closes_seq _ _ _ _ _ C2 (closes_seq _ _ _ _ _ C3 C4))|].
  intros fd. cbn beta. assert ((∃ j jb, j ∈ queue_ (sy_res (px_sys x)) ∧ jobs (sy_res (px_sys x)) !! j = Some jb ∧ job_end jb fd) ↔
    job_fd (jobs (sy_res (px_sys x))) fd) as ->.
  { split; [intros (j & jb & _ & ? & ?); by exists j, jb|]. intros (j & jb & Hj & He). exists j, jb. by destruct (Hjobs j jb Hj). }
  assert ((∃ ib, ib ∈ px_inboxes x ∧ (fd = ib_read_end ib ∨ fd = ib_write_end ib ∨ fd ∈ ib_queue ib)) ↔
    (∃ l rc ib, (l, rc) ∈ sy_shards (px_sys x) ∧ inbox_ l = Some ib ∧ (fd = ib_read_end ib ∨ fd = ib_write_end ib ∨ fd ∈ ib_queue ib)) ∨
    fd ∈ inbox_ends (px_spare x)) as ->.
  { split.
    - intros (ib & [([l rc] & Hin & Hib)%list_elem_of_omap|Hin]%elem_of_app & Hfd); [left; by exists l, rc, ib|right].
      apply list_elem_of_bind. exists ib. split; [|done]. rewrite Forall_forall in Hsp. rewrite (Hsp ib Hin) in Hfd. set_solver.
    - intros [(l & rc & ib & Hin & Hib & Hfd)|(ib & Hfd & Hin)%list_elem_of_bind]; exists ib; (split; [apply elem_of_app|]); [|done| |].
      + left. apply list_elem_of_omap. by exists (l, rc).
      + by right.
      + set_solver. }
  unfold left_fd, member, main_fd, inbox_fds. rewrite list_elem_of_singleton. split.
  - intros [(l & rc & Hin & [[->|[->|(ib & Hib & Hx')]]|Hq])|[[?|?]|?]]; [left; eauto..| | | | |]; auto.
    + right; left; left. exists l, rc, ib. tauto.
    + right; left; left. destruct (inbox_ l) as [ib|] eqn:Hib; [|set_solver]. exists l, rc, ib. tauto.
  - intros [(l & rc & Hin & [->| ->])|[[(l & rc & ib & Hin & Hib & Hx')|?]|[?|?]]]; auto; left; exists l, rc; rewrite ?Hib; naive_solver.
Qed.

Lemma leave_px F own x fd :
  px_ok F own x → Forall (λ ib, ib_queue ib = []) (px_spare x) → all_returned x → forallb exited (px_workers x) = true →
  is_Some (fdt (obs (leave x).1) !! fd) ↔ fd ∈ F ∧ ¬ main_fd x fd.
Proof.
  intros Hx Hsp Hall Hex. pose proof (sh_wf _ _ _ _ _ (po_shared _ _ _ Hx)) as Hw. simpl in Hw.
  rewrite (proj2 (leave_closes _ _ _ Hx Hsp Hall Hex Hw) fd). split.
  - intros [Hs Hn]. split; [|intros ?; apply Hn; by right; left].
    destruct (sv_acc _ _ _ _ (po_sys _ _ _ Hx) fd Hs) as [[]|[(i & l & rc & Hi & Hpl)|Hj]]; [|by destruct Hn; right; right].
    destruct (aug_inv _ _ _ Hi) as [Hi'|[-> [= -> ->]]].
    + destruct Hn. left. exists l, rc. split; [by eapply list_elem_of_lookup_2|].
      destruct (po_run _ _ _ Hx i l rc RunReturned Hi' (Hall i (lookup_lt_Some _ _ _ Hi'))) as (Hl & Hown & _).
      destruct Hpl as [[Ho|Hq]%elem_of_app|(p & t & Ht & _)]; [left; by apply Hown|by right|by rewrite Hl in Ht].
    + rewrite (po_rest _ _ _ Hx) in Hpl. destruct Hpl as [Hpl|(p & t & Hp & _)]; [set_solver|done].
  - intros [Hin Hn]. destruct (rest_apart _ _ _ _ Hx Hin) as (Hs & Hnj & Hap). split; [done|].
    intros [(l & rc & [i Hi]%list_elem_of_lookup & Hm)|[?|?]]; [|done|done]. apply (Hap i l rc Hi). left. apply elem_of_app.
    destruct Hm as [Hm|?]; [left|by right]. eapply member_own; [done|done|by apply Hall, (lookup_lt_Some _ _ _ Hi)| |done].
    destruct Hs as [f Hf]. by eapply (ow_pos _ Hw).
Qed.

(** ** The main thread *)

Lemma main_px F own x x' :
  px_ok F own x → Forall (λ ib, ib_queue ib = []) (px_spare x) → main_step x = Some x' → (∃ own', px_ok F own' x') ∨ px_left F x'.
Proof.
  intros Hx Hsp E. pose proof (po_main _ _ _ Hx) as Hm. unfold main_step in E.
  destruct (px_main x) as [next|next|i|i| | | |] eqn:Hpc; unfold main_ok in Hm; rewrite Hpc in Hm.
  - left. exists own. destruct (px_stop x); [injection E as <-; by apply (flag_px F own x)|].
    destruct (wait_ready _ _ _ _) as [ready k] eqn:Ew. apply wait_ready_silent in Ew. injection E as <-.
    apply quiet_px; try done. by destruct ready.
  - left. by eapply accept_px.
  - left. exists own. case_bool_decide; injection E as <-; apply flag_px; rewrite ?length_insert; try done. intros j ?. lia.
  - left. exists own. case_bool_decide as Hlt.
    + case_bool_decide as Hret; [|done]. injection E as <-. apply (flag_px F own x); [done..|]. simpl. intros j Hj Hjn.
      destruct (decide (j = i)) as [->|]; [done|]. apply Hm; [lia|done].
    + injection E as <-. apply (flag_px F own x); [done..|]. intros j Hj. apply Hm; [simpl in Hj; lia|done].
  - left. exists own. injection E as <-. unfold shutdown. destruct (closed_ _) eqn:Hc; apply quiet_px; try done.
  - left. exists own. destruct (forallb exited _) eqn:Hex; [|done]. injection E as <-. apply (flag_px F own x); [done..|]. by destruct Hm.
  - right. destruct Hm as [Hall Hex]. destruct (leave x) as [k r] eqn:El. injection E as <-. split; try done. simpl. intros fd.
    pose proof (leave_px F own x fd Hx Hsp Hall Hex) as Hl. by rewrite El in Hl.
  - done.
Qed.

(** ** Every step *)

Lemma left_step F x x' : px_left F x → px_step cfg malloc budget x x' → px_left F x'.
Proof.
  intros [Hm Hss Hp Hw Ho] Hst. destruct Hst as [x' [i pc stop l rc pc' l' w' Hi|x1 E|a pc b pc' r' k' Ha E]| |i _].
  - by rewrite Hp in Hi.
  - unfold main_step in E. by rewrite Hm in E.
  - rewrite Ha, forallb_app in Hw. simpl in Hw. by destruct pc; rewrite ?andb_false_r in Hw.
  - by split.
  - by split.
Qed.

(** What [run] was given stays where it is. *)
Lemma px_step_same x x' : px_step cfg malloc budget x x' →
  px_listener x' = px_listener x ∧ px_spare x' = px_spare x ∧ px_arg x' = px_arg x.
Proof.
  intros Hst. destruct Hst as [x' [|x1 E|]| |]; try done. unfold main_step, accept_step in E.
  destruct (px_main x); try (by simplify_eq).
  - destruct (px_stop x); [by injection E as <-|]. destruct (wait_ready _ _ _ _). by injection E as <-.
  - destruct (accept_one _ _) as [[[] fd] k]; try (by injection E as <-). destruct (hand_over _ _ _ _); [|done]. by injection E as <-.
  - case_bool_decide; by injection E as <-.
  - case_bool_decide; [case_bool_decide; [|done]|]; by injection E as <-.
  - destruct (forallb _ _); [|done]. by injection E as <-.
  - destruct (leave x). by injection E as <-.
Qed.

Lemma px_step_inv F x x' : (∀ X, malloc X ∉ X) → px_inv F x → px_step cfg malloc budget x x' → px_inv F x'.
Proof.
  intros Hmalloc [Hsp Hx] Hst. split; [by rewrite (proj1 (proj2 (px_step_same _ _ Hst)))|].
  destruct Hx as [[own Hx]|Hx]; [|right; by eapply left_step].
  destruct Hst as [x' [i pc stop l rc pc' l' w' Hpc Hstop Hi E|x1 E|a pc b pc' r' k' Ha E]| |i Hstop].
  - left. by eapply thread_px.
  - by eapply main_px.
  - left. exists own. by eapply worker_px.
  - left. exists own. apply flag_px; [done..|]. apply Hx.
  - left. exists own. apply flag_px; [done|by rewrite length_insert|]. apply Hx.
Qed.

Definition px_reach x x' : Prop := rtc (px_step cfg malloc budget) x x'.

Lemma px_reach_inv F x x' : (∀ X, malloc X ∉ X) → px_inv F x → px_reach x x' → px_inv F x'.
Proof. intros Hmalloc Hx Hr. induction Hr; eauto using px_step_inv. Qed.

Lemma px_reach_same x x' : px_reach x x' →
  px_listener x' = px_listener x ∧ px_spare x' = px_spare x ∧ px_arg x' = px_arg x.
Proof. induction 1 as [|x y z H _ IH]; [done|]. apply px_step_same in H. naive_solver congruence. Qed.

(** ** Nobody waits for ever *)

Lemma run_step_total arg stop pc l (w : World K C) : pc ≠ RunReturned → is_Some (run_step cfg malloc budget arg stop pc l w).
Proof.
  intros Hne. destruct pc as [| |[|u us]| |waited|waited [|u us]| |]; cbn [run_step]; try done.
  - destruct (run_begin _ _ _) as [[? ?] ?]. by eexists.
  - destruct stop; [by eexists|]. destruct (sys_kevent_wait _ _ _ _) as [[[]|] ?]; by eexists.
  - destruct (handle _ _ _ _ _ _). by eexists.
  - destruct (run_unlisten _ _). by eexists.
  - destruct (_ || _); [by eexists|]. destruct (sys_kevent_wait _ _ _ _) as [[[]|] ?]; by eexists.
  - destruct (drain_event _ _ _ _). by eexists.
Qed.

(** A resolver thread has the job it works on, and wakes up when the queue is closed. *)
Lemma worker_step_total r (k : K) pc : pc_ok r pc → closed_ r = true → pc ≠ Exited → is_Some (worker_step pc r k).
Proof.
  intros Hok Hc Hne. destruct pc; cbn [worker_step]; try done.
  1: rewrite Hc; destruct (queue_ r); by eexists.
  all: destruct Hok as (jb & Hj & _); rewrite ?Hj; cbn [mbind option_bind];
    repeat match goal with |- is_Some (let '(_, _) := ?e in _) => destruct e end; by eexists.
Qed.

Lemma px_progress F own x : px_ok F own x → px_main x ≠ Left → ∃ x', px_work cfg malloc budget x x'.
Proof.
  intros Hx Hne. pose proof (po_main _ _ _ Hx) as Hm. unfold main_ok in Hm.
  destruct (main_step x) as [x'|] eqn:E; [exists x'; by apply px_main_step|]. unfold main_step in E.
  destruct (px_main x) as [next|next|i|i| | | |] eqn:Hpc; try done.
  - destruct (px_stop x); [done|]. by destruct (wait_ready _ _ _ _).
  - exfalso. destruct Hm as [Hlt Hib]. unfold accept_step in E. destruct (accept_one _ _) as [[[] fd] k]; try done.
    apply lookup_lt_is_Some_2 in Hlt as [[l rc] Hi]. unfold hand_over in E. rewrite Hi in E. simpl in E.
    destruct (inbox_ l) as [ib|] eqn:Hl; [|by destruct (Hib next l rc Hi)]. simpl in E. by destruct (Inbox_push fd ib k).
  - by case_bool_decide.
  - case_bool_decide as Hlt; [|done]. case_bool_decide as Hret; [done|].
    destruct (lookup_lt_is_Some_2 (sy_shards (px_sys x)) i Hlt) as [[l rc] Hi].
    destruct (lookup_lt_is_Some_2 (px_pcs x) i) as [pc Hp]; [by rewrite (po_pcs _ _ _ Hx)|].
    destruct (lookup_lt_is_Some_2 (px_stops x) i) as [stop Hs]; [by rewrite (po_stops _ _ _ Hx)|].
    destruct (run_step_total (px_arg x) stop pc l (world_of (px_sys x) rc)) as [[[pc' l'] w'] Er]; [congruence|].
    eexists. by eapply (px_thread _ _ _ _ i).
  - destruct Hm as [_ Hc]. destruct (forallb exited _) eqn:Hex; [done|].
    assert (∃ pc, pc ∈ px_workers x ∧ pc ≠ Exited) as (pc & Hin & Hpe).
    { clear -Hex. induction (px_workers x) as [|pc ws IH]; [done|]. simpl in Hex. apply andb_false_iff in Hex as [He|He].
      - exists pc. split; [left|by intros ->].
      - destruct (IH He) as (pc' & ? & ?). exists pc'. split; [by right|done]. }
    pose proof (ri_workers _ (sh_rinv _ _ _ _ _ (po_shared _ _ _ Hx))) as Hw. simpl in Hw. rewrite Forall_forall in Hw.
    destruct (worker_step_total (sy_res (px_sys x)) (sy_kern (px_sys x)) pc (Hw pc Hin) Hc Hpe) as [[[pc' r'] k'] Es].
    apply list_elem_of_split in Hin as (a & b & Hab). eexists. by eapply (px_worker _ _ _ _ a pc b).
  - by destruct (leave x).
Qed.
End proxy.
