(* ===== verification/ProxyOwners.v ===== *)
(** * Who owns which descriptor

In every state of the event loop program each open descriptor that was not open
before [main] has exactly one owner: the main thread, one loop, one live connection,
or a lookup whose connection has gone. *)
From S2P Require Import Prelude CppString Http Config Cache CacheSpec Kernel Socket SocketSpec Resolver ResolverSpec.
From S2P Require Import Connection ConnectionInv EventLoop EventLoopInv ConnResolver EventLoopSpec LoopFootprint LoopShared.
From S2P Require Import Sharded ShardedSys EventThreads ProxyInv ProxySys.

Inductive Owner :=
| OMain
| OLoop (i : nat)
| OConn (i p : nat)
| OLookup (n : nat).

Section owners.
Context {K C : Type} `{!Kernel K, !KernelLaws K, !ResponseCache C, !ResponseCacheLaws C}.
Implicit Type x : Proxy K C.

(** A loop has its kqueue, its listener, its pipe and the clients in its inbox; a
connection has its sockets and the pipe of its lookup. *)
Definition owned_by x (o : Owner) (fd : Z) : Prop :=
  let s := px_sys x in
  match o with
  | OMain => main_fd x fd
  | OLoop i => ∃ l rc, sy_shards s !! i = Some (l, rc) ∧
      (member l fd ∨ fd ∈ inbox_fds l ∨ px_pcs x !! i = Some RunStart ∧ inbox_ l = None ∧ fd = px_arg x)
  | OConn i p => ∃ l rc t, sy_shards s !! i = Some (l, rc) ∧ live_ l !! p = Some t ∧ owned (sl_conn t) (jobs (sy_res s)) fd
  | OLookup n => n ∉ sys_held (sy_shards s) ∧ ∃ jb, jobs (sy_res s) !! n = Some jb ∧ job_end jb fd
  end.

Section invariant.
Context (F : list Z) (own : nat → list Z) (x : Proxy K C) (Hx : px_ok F own x).

Notation is_open fd := (is_Some (fdt (obs (sy_kern (px_sys x))) !! fd)).

Lemma open_pos fd : is_open fd → 0 ≤ fd.
Proof. intros [f Hf]. by eapply (ow_pos _ (sh_wf _ _ _ _ _ (po_shared _ _ _ Hx))). Qed.

Lemma loop_owns i fd : is_open fd → owned_by x (OLoop i) fd →
  ∃ l rc, sy_shards (px_sys x) !! i = Some (l, rc) ∧ fd ∈ own i ++ inbox_fds l.
Proof.
  intros Hs (l & rc & Hi & Hfd). exists l, rc. split; [done|]. apply elem_of_app.
  destruct (lookup_lt_is_Some_2 (px_pcs x) i) as [pc Hpc]; [rewrite (po_pcs _ _ _ Hx); by eapply lookup_lt_Some|].
  destruct Hfd as [Hm|[?|(Hst & Hib & ->)]]; [|by right|]; left.
  - eapply member_own; [done|done|done|by apply open_pos|done].
  - destruct (po_run _ _ _ Hx i l rc _ Hi Hst) as (_ & _ & _ & Ho & _). apply Ho. unfold given. rewrite Hib. set_solver.
Qed.

(** An owner among the shards. *)
Lemma shard_owns o i fd : is_open fd → (o = OLoop i ∨ ∃ p, o = OConn i p) → owned_by x o fd →
  ∃ l rc, sy_shards (px_sys x) !! i = Some (l, rc) ∧ shard_fd (own i) l (world_of (px_sys x) rc) fd.
Proof.
  intros Hs [->|[p ->]] Hfd.
  - destruct (loop_owns i fd Hs Hfd) as (l & rc & Hi & Hin). exists l, rc. split; [done|by left].
  - destruct Hfd as (l & rc & t & Hi & Hp & Ho). exists l, rc. split; [done|right; eauto].
Qed.

Lemma shards_exclusive o o' i j fd :
  is_open fd → i ≠ j → (o = OLoop i ∨ ∃ p, o = OConn i p) → (o' = OLoop j ∨ ∃ p, o' = OConn j p) →
  owned_by x o fd → ¬ owned_by x o' fd.
Proof.
  intros Hs Hne Ho Ho' H1 H2. destruct (shard_owns _ _ _ Hs Ho H1) as (l & rc & Hi & Hf).
  destruct (shard_owns _ _ _ Hs Ho' H2) as (l' & rc' & Hj & Hf').
  destruct (sv_apart _ _ _ _ (po_sys _ _ _ Hx) i j l l' rc rc' Hne (aug_lookup _ _ _ Hi) (aug_lookup _ _ _ Hj)) as [Hap _].
  by eapply (Hap fd).
Qed.

(** Within one shard. *)
Lemma slots_of i l rc : sy_shards (px_sys x) !! i = Some (l, rc) →
  slots_ok (kq_ (view (dead_of x i) l)) (λ _, False) (own i) (inbox_fds l) (live_ l) (world_of (px_sys x) rc).
Proof.
  intros Hi. pose proof (sv_loop _ _ _ _ (po_sys _ _ _ Hx) i l rc (aug_lookup _ _ _ Hi)) as [[Hss _] _].
  by rewrite view_fds, view_live in Hss.
Qed.

Lemma shard_exclusive o o' i fd :
  is_open fd → (o = OLoop i ∨ ∃ p, o = OConn i p) → (o' = OLoop i ∨ ∃ p, o' = OConn i p) →
  owned_by x o fd → owned_by x o' fd → o = o'.
Proof.
  intros Hs Ho Ho' H1 H2.
  assert (∀ p, owned_by x (OLoop i) fd → ¬ owned_by x (OConn i p) fd) as Hmix.
  { intros p Hl (l & rc & t & Hi & Hp & Ht). destruct (loop_owns i fd Hs Hl) as (l' & rc' & Hi' & Hin). rewrite Hi in Hi'. injection Hi' as <- <-.
    by apply (proj2 (ss_held _ _ _ _ _ _ (slots_of i l rc Hi) fd Hin) p t Hp). }
  destruct Ho as [->|[p ->]], Ho' as [->|[q ->]]; [done|by destruct (Hmix q)|by destruct (Hmix p)|].
  destruct (decide (p = q)) as [->|Hne]; [done|]. destruct H1 as (l & rc & t & Hi & Hp & Ht), H2 as (l' & rc' & t' & Hi' & Hq & Ht').
  rewrite Hi in Hi'. injection Hi' as <- <-. destruct (ss_apart _ _ _ _ _ _ (slots_of i l rc Hi) p q t t' Hne Hp Hq) as [Hap _]. by destruct (Hap fd Hs Ht).
Qed.

(** A lookup without a connection, and a shard. *)
Lemma lookup_exclusive o i n fd :
  is_open fd → (o = OLoop i ∨ ∃ p, o = OConn i p) → owned_by x o fd → ¬ owned_by x (OLookup n) fd.
Proof.
  intros Hs Ho H1 (Hn & jb & Hj & He). pose proof (po_shared _ _ _ Hx) as Hsh.
  assert (∀ l rc, sy_shards (px_sys x) !! i = Some (l, rc) → ¬ direct (own i) (inbox_fds l) (live_ l) fd) as Hdir.
  { intros l rc Hi Hd. apply (proj2 (sh_apart _ _ _ _ _ Hsh fd ltac:(exists i, l, rc; split; [by apply aug_lookup|done]))).
    by exists n, jb. }
  destruct Ho as [->|[p ->]].
  - destruct (loop_owns i fd Hs H1) as (l & rc & Hi & Hin). apply (Hdir l rc Hi). by left.
  - destruct H1 as (l & rc & t & Hi & Hp & Ht). pose proof (open_pos fd Hs) as Hpos.
    destruct Ht as [?|[?|(m & jb' & Hm & Hj' & He')]]; [by apply (Hdir l rc Hi); right; exists p, t; split; [|split; auto]..|].
    eapply (jk_apart _ _ (sh_jobs _ _ _ _ _ Hsh) n m); [|exact Hj|exact Hj'|done|done|done].
    intros ->. apply Hn, elem_of_sys_held. exists i, l, rc. split; [done|]. by exists p, t.
Qed.

Lemma main_exclusive o fd : (0 ≤ fd → main_fd x fd → fd ∈ F) → is_open fd → owned_by x OMain fd → owned_by x o fd → o = OMain.
Proof.
  intros Hmain Hs Hm Ho. destruct (rest_apart _ _ _ fd Hx (Hmain (open_pos fd Hs) Hm)) as (_ & Hnj & Hap).
  destruct o as [|i|i p|n]; [done|exfalso..].
  - destruct (shard_owns _ i fd Hs (or_introl eq_refl) Ho) as (l & rc & Hi & Hf). by eapply Hap.
  - destruct (shard_owns _ i fd Hs (or_intror (ex_intro _ p eq_refl)) Ho) as (l & rc & Hi & Hf). by eapply Hap.
  - destruct Ho as (_ & jb & Hj & He). apply Hnj. by exists n, jb.
Qed.

(** Nobody else has it. *)
Lemma owner_unique o o' fd : (0 ≤ fd → main_fd x fd → fd ∈ F) → is_open fd → owned_by x o fd → owned_by x o' fd → o = o'.
Proof.
  intros Hmain Hs H1 H2.
  assert (∀ o, (∃ i, o = OLoop i ∨ ∃ p, o = OConn i p) ∨ o = OMain ∨ ∃ n, o = OLookup n) as Hcase.
  { intros []; [by right; left|left; eauto..|right; right; eauto]. }
  destruct (Hcase o) as [[i Hi]|[->|[n ->]]]; [|symmetry; by eapply main_exclusive|].
  - destruct (Hcase o') as [[j Hj]|[->|[n ->]]]; [|by eapply main_exclusive|by destruct (lookup_exclusive o i n fd)].
    destruct (decide (i = j)) as [->|Hne]; [by eapply shard_exclusive|]. by destruct (shards_exclusive o o' i j fd).
  - destruct (Hcase o') as [[j Hj]|[->|[m ->]]]; [by destruct (lookup_exclusive o' j n fd)|by eapply main_exclusive|].
    destruct (decide (n = m)) as [->|Hne]; [done|]. destruct H1 as (_ & jb & Hj & He), H2 as (_ & jb' & Hj' & He').
    exfalso. eapply (jk_apart _ _ (sh_jobs _ _ _ _ _ (po_shared _ _ _ Hx)) n m); [done|exact Hj|exact Hj'| |done|done]. by apply open_pos.
Qed.

(** Somebody has it. *)
Lemma owner_exists fd : is_open fd → fd ∈ F ∨ ∃ o, owned_by x o fd.
Proof.
  intros Hs. destruct (sv_acc _ _ _ _ (po_sys _ _ _ Hx) fd Hs) as [[]|[(i & l & rc & Hi & Hpl)|(n & jb & Hj & He)]].
  - destruct (aug_inv _ _ _ Hi) as [Hi'|[-> [= -> ->]]].
    + right. destruct Hpl as [[Ho|Hq]%elem_of_app|(p & t & Hp & Ht)].
      * exists (OLoop i), l, rc. split; [done|].
        destruct (lookup_lt_is_Some_2 (px_pcs x) i) as [pc Hpc]; [rewrite (po_pcs _ _ _ Hx); by eapply lookup_lt_Some|].
        pose proof (po_run _ _ _ Hx i l rc pc Hi' Hpc) as Hr. destruct pc; simpl in Hr; try (left; by apply Hr);
          try (destruct Hr as (? & ? & Hg & _); destruct (Hg fd Ho) as [->|Hm]; [left; by left|left; by eapply given_member]).
        destruct Hr as (_ & _ & _ & Hg & _). apply Hg in Ho. unfold given in Ho. destruct (inbox_ l) as [ib|] eqn:Hib.
        -- left. right; right. exists ib. set_solver.
        -- right; right. set_solver.
      * exists (OLoop i), l, rc. auto.
      * exists (OConn i p), l, rc, t. split_and!; try done. destruct Ht as [?|?]; [by left|by right; left].
    + left. rewrite (po_rest _ _ _ Hx) in Hpl. destruct Hpl as [Hpl|(p & t & Hp & _)]; [set_solver|done].
  - right. destruct (decide (n ∈ sys_held (sy_shards (px_sys x)))) as [Hn|Hn]; [|exists (OLookup n); split; [done|by exists jb]].
    apply elem_of_sys_held in Hn as (i & l & rc & Hi & p & t & Hp & Ht). exists (OConn i p), l, rc, t. split_and!; try done.
    right; right. by exists n, jb.
Qed.

(** What was open before is open and nobody's. *)
Lemma foreign_untouched o fd : fd ∈ F → ¬ main_fd x fd → is_open fd ∧ ¬ owned_by x o fd.
Proof.
  intros Hin Hnm. destruct (rest_apart _ _ _ fd Hx Hin) as (Hs & Hnj & Hap). split; [done|]. intros Ho.
  destruct o as [|i|i p|n]; [done|..].
  - destruct (shard_owns _ i fd Hs (or_introl eq_refl) Ho) as (l & rc & Hi & Hf). by eapply Hap.
  - destruct (shard_owns _ i fd Hs (or_intror (ex_intro _ p eq_refl)) Ho) as (l & rc & Hi & Hf). by eapply Hap.
  - destruct Ho as (_ & jb & Hj & He). apply Hnj. by exists n, jb.
Qed.
End invariant.
End owners.
