(* ===== verification/ProxyStart.v ===== *)
(** * The event loop program when [run] is called

Nothing is live and no lookup is under way: the invariant of [ProxySys.v] holds, be
there one loop, several, or several that could not all be set up. *)
From S2P Require Import Prelude CppString Http Config Cache CacheSpec Kernel Socket SocketSpec Resolver ResolverSpec.
From S2P Require Import Connection ConnectionInv EventLoop EventLoopInv ConnResolver EventLoopSpec LoopFootprint LoopShared.
From S2P Require Import Sharded ShardedSys EventThreads ProxyInv ProxySys.

Section start.
Context {K C : Type} `{!Kernel K, !KernelLaws K, !ResponseCache C, !ResponseCacheLaws C}.
Implicit Type x : Proxy K C.

(** A loop that has not run and has the descriptors [o]. *)
Record idle_loop (o : list Z) (k : K) (l : EventLoop) (rc : option C) : Prop := {
  il_new : l = set_inbox (inbox_ l) EventLoop_new;
  il_queue : inbox_fds l = [];
  il_inbox ib : inbox_ l = Some ib → ib_read_end ib ∈ o ∧ ib_write_end ib ∈ o;
  il_nodup : NoDup o;
  il_open fd : fd ∈ o → is_Some (fdt (obs k) !! fd);
  il_cache : cache_ok rc (obs k)
}.

Record px_start (own : nat → list Z) x : Prop := {
  ps_wf : obs_wf (obs (sy_kern (px_sys x)));
  ps_regs key : regs (obs (sy_kern (px_sys x))) !! key = None;
  ps_res : ∃ ttl delay, sy_res (px_sys x) = Resolver_new ttl delay;
  ps_workers : ∃ n, px_workers x = replicate n Waiting;
  ps_pcs : px_pcs x = replicate (length (sy_shards (px_sys x))) RunStart ∨
    px_pcs x = replicate (length (sy_shards (px_sys x))) RunReturned ∧
      ∀ i l rc, sy_shards (px_sys x) !! i = Some (l, rc) → inbox_ l ≠ None;
  ps_stops : length (px_stops x) = length (sy_shards (px_sys x));
  ps_loop i l rc : sy_shards (aug (px_sys x)) !! i = Some (l, rc) → idle_loop (own i) (sy_kern (px_sys x)) l rc;
  ps_given i l rc : sy_shards (px_sys x) !! i = Some (l, rc) → own i = given l (px_arg x) ∧ (inbox_ l ≠ None → px_arg x = -1);
  ps_apart i j fd : i ≠ j → (i ≤ length (sy_shards (px_sys x)))%nat → (j ≤ length (sy_shards (px_sys x)))%nat →
    fd ∈ own i → fd ∉ own j;
  ps_acc fd : is_Some (fdt (obs (sy_kern (px_sys x))) !! fd) → ∃ i, (i ≤ length (sy_shards (px_sys x)))%nat ∧ fd ∈ own i;
  ps_main : main_ok x
}.

Lemma aug_lt (s : Sys K C) i lc : sy_shards (aug s) !! i = Some lc → (i ≤ length (sy_shards s))%nat.
Proof. intros [H%lookup_lt_Some|[-> _]]%aug_inv; lia. Qed.

Lemma idle_live o k l rc : idle_loop o k l rc → live_ l = ∅ ∧ kq_ l = -1 ∧ listener_ l = -1.
Proof. intros H. by rewrite (il_new _ _ _ _ H). Qed.

Lemma idle_direct o o' k l rc (w : World K C) fd :
  idle_loop o k l rc → (shard_fd o' l w fd ↔ fd ∈ o') ∧ (direct o' (inbox_fds l) (live_ l) fd ↔ fd ∈ o').
Proof.
  intros H. destruct (idle_live _ _ _ _ H) as [Hl _]. unfold shard_fd, loop_fd, direct. rewrite Hl, (il_queue _ _ _ _ H), (right_id_L [] (++)).
  split; (split; [|by left]); intros [?|(p & t & Hp & _)]; done.
Qed.

Lemma start_sys own x : px_start own x → sys_inv (λ _, False) own (dead_of x) (aug (px_sys x)).
Proof.
  intros [Hw Hregs (ttl & delay & Hres) _ _ _ Hl _ Hap Hacc _]. split.
  - intros i l rc Hi. pose proof (Hl i l rc Hi) as Hf. destruct (idle_live _ _ _ _ Hf) as (Hlive & Hkq & _). apply loop_start_inv.
    split; simpl; rewrite ?view_live, ?view_fds, ?view_inbox, ?Hregs; try done; try by destruct Hf.
    + split; simpl; rewrite ?Hres; try done; [|by destruct Hf]. intros j [jb Hj]. by apply (lookup_empty_Some j jb) in Hj.
    + intros fd d p. by rewrite Hregs.
    + auto.
  - intros i l rc Hi. right. by apply (idle_live _ _ _ _ (Hl i l rc Hi)).
  - intros i j l l' rc rc' Hne Hi Hj. pose proof (Hl i l rc Hi) as Hf. pose proof (Hl j l' rc' Hj) as Hf'. split.
    + intros fd _ H1%(idle_direct _ _ _ _ _ _ _ Hf) H2%(idle_direct _ _ _ _ _ _ _ Hf').
      eapply (Hap i j); [done|by eapply aug_lt..|done|done].
    + intros n (p & t & Hp & _). by rewrite (proj1 (idle_live _ _ _ _ Hf)) in Hp.
  - intros kq fd d u Hu. simpl in Hu. by rewrite Hregs in Hu.
  - intros fd (i & Hi & Ho)%Hacc. right; left. destruct (lookup_lt_is_Some_2 (sy_shards (aug (px_sys x))) i) as [[l rc] Hi'].
    { simpl. rewrite length_app. simpl. lia. }
    exists i, l, rc. split; [done|left; set_solver].
Qed.

Lemma start_shared own x : px_start own x → sys_shared (px_workers x) own (aug (px_sys x)).
Proof.
  intros [Hw _ (ttl & delay & Hres) (n & Hn) _ _ Hl _ _ _ _]. unfold sys_shared.
  assert (sys_held (sy_shards (aug (px_sys x))) = ∅) as ->.
  { apply set_eq. intros j. rewrite elem_of_sys_held. split; [|set_solver]. intros (i & l & rc & Hi & p & t & Hp & _).
    by rewrite (proj1 (idle_live _ _ _ _ (Hl i l rc Hi))) in Hp. }
  simpl. rewrite Hres, Hn. split; [done|by split| |exact (rinv_init n ttl delay _)].
  intros fd (i & l & rc & Hi & Hd%(idle_direct _ _ _ _ _ (world_of (px_sys x) rc) _ (Hl i l rc Hi))).
  split; [by apply (il_open _ _ _ _ (Hl i l rc Hi))|]. intros (j & jb & Hj & _). by apply (lookup_empty_Some j jb) in Hj.
Qed.

Lemma px_start_ok F own x : own (length (sy_shards (px_sys x))) = F → px_start own x → px_ok F own x.
Proof.
  intros HF Hx. split; [by apply start_sys|by eapply start_shared|done|..]; destruct Hx as [_ _ _ _ Hp Hs Hl Hg _ _ Hm]; try done.
  - destruct Hp as [->|[-> _]]; apply length_replicate.
  - intros i l rc pc Hi Hpc. destruct (idle_live _ _ _ _ (Hl i l rc (aug_lookup _ _ _ Hi))) as (Hlive & Hkq & Hli).
    destruct (Hg i l rc Hi) as [Ho Harg].
    destruct Hp as [Hp|[Hp Hib]]; rewrite Hp in Hpc; apply lookup_replicate in Hpc as [-> _]; simpl.
    + split_and!; try done. by rewrite Ho.
    + split; [done|]. split; [|by right]. intros fd Hin. rewrite Ho in Hin. eapply given_member, Hin.
      rewrite Hli. symmetry. by eapply Harg, Hib.
Qed.

(** What is open, as a list. *)
Definition open_fds (o : Obs) : gset Z := dom (fdt o).

Lemma elem_of_open fd o : fd ∈ open_fds o ↔ is_Some (fdt o !! fd).
Proof. apply elem_of_dom. Qed.

(** The descriptors [X] are nobody's business. *)
Lemma idle_rest (X : gset Z) (k : K) : X ⊆ open_fds (obs k) → idle_loop (elements X) k EventLoop_new None.
Proof. intros HX. split; try done; [apply NoDup_elements|]. intros fd Hin%elem_of_elements. apply elem_of_open. by apply HX. Qed.

(** ** One loop *)

Lemma single_start listener (k : K) ttl delay rc threads :
  obs_wf (obs k) → (∀ key, regs (obs k) !! key = None) → is_Some (fdt (obs k) !! listener) → cache_ok rc (obs k) →
  let x := single_proxy listener k (Resolver_new ttl delay) rc threads in
  px_inv (elements (open_fds (obs k) ∖ {[listener]})) x.
Proof.
  intros Hw Hr Hl Hc x. split; [done|]. left. exists (λ i, match i with O => [listener] | _ => elements (open_fds (obs k) ∖ {[listener]}) end).
  apply px_start_ok; [done|]. split; simpl; eauto; try lia.
  - intros [|[|i]] l rc' Hi; [| |done]; injection Hi as <- <-; [|apply idle_rest; set_solver].
    split; try done; [apply NoDup_singleton|by intros fd ->%list_elem_of_singleton].
  - intros [|i] l rc' Hi; [|done]. by injection Hi as <- <-.
  - intros [|i] [|j] fd Hne Hi Hj; rewrite ?elem_of_elements; try set_solver. lia.
  - intros fd Hs. destruct (decide (fd = listener)) as [->|]; [exists 0%nat; split; [lia|set_solver]|].
    exists 1%nat. split; [done|]. apply elem_of_elements. apply elem_of_difference. split; [by apply elem_of_open|set_solver].
  - intros j ?. lia.
Qed.
End start.

(** ** Several loops *)

Section shards.
Context {K : Type} `{!Kernel K, !KernelLaws K}.

Lemma shard_cache_ok cfg (o : Obs) : cache_ok (shard_cache cfg) o.
Proof.
  intros c. unfold shard_cache. destruct (cache_enabled cfg); [|done]. intros [= <-]. unfold make_cache. destruct (Config.backend cfg).
  all: split; [exists []; apply in_step_new|]; intros key v H; by apply (lookup_empty_Some key v) in H.
Qed.

Definition ends_of (ib : Inbox) : list Z := [ib_read_end ib; ib_write_end ib].

Lemma inbox_ends_apart ibs :
  NoDup (inbox_ends ibs) → (∀ i ib, ibs !! i = Some ib → NoDup (ends_of ib)) ∧
  ∀ i j a b fd, i ≠ j → ibs !! i = Some a → ibs !! j = Some b → fd ∈ ends_of a → fd ∉ ends_of b.
Proof.
  induction ibs as [|ib ibs IH]; [done|]. unfold inbox_ends. cbn [mbind list_bind]. intros (H1 & H2 & H3)%NoDup_app.
  destruct (IH H3) as [Hnd Hap].
  assert (∀ i b fd, ibs !! i = Some b → fd ∈ ends_of b → fd ∉ ends_of ib) as Hne.
  { intros i b fd Hi Hb Ha. apply (H2 fd Ha). apply list_elem_of_bind. exists b. split; [done|]. by eapply list_elem_of_lookup_2. }
  split.
  - intros [|i] a Hi; [by injection Hi as <-|by eapply Hnd].
  - intros [|i] [|j] a b fd Hij Ha Hb; simpl in *; simplify_eq; [intros Hin1 Hin2; by eapply Hne|by eapply Hne|].
    eapply (Hap i j); [congruence|done..].
Qed.

Section up.
Context (cfg : Config) (o0 : Obs) (i : nat) (X : list Z) (s : Sharded) (k : K) (Hu : shards_up cfg o0 i X s (obs k)).

Let ibs := take i (inboxes_ s).
Let shards := zip (loops_ s) (caches_ s).

(** What is open and no shard's, and what each shard has. *)
Definition rest_fds : gset Z := open_fds (obs k) ∖ list_to_set (inbox_ends ibs).
Definition up_own (j : nat) : list Z := match ibs !! j with Some ib => ends_of ib | None => elements rest_fds end.

Lemma elem_of_rest fd : fd ∈ rest_fds ↔ is_Some (fdt (obs k) !! fd) ∧ fd ∉ inbox_ends ibs.
Proof. unfold rest_fds. by rewrite elem_of_difference, elem_of_open, elem_of_list_to_set. Qed.

Lemma up_length : length shards = i ∧ length ibs = i.
Proof.
  destruct Hu as [_ Hib Hca Hlo Hown _ _ _ _ _ _ _]. assert (i ≤ shards_ s)%nat as Hle.
  { destruct i as [|n]; [lia|]. destruct (lookup_lt_is_Some_2 (loops_ s) n) as [l Hl]; [lia|].
    destruct (Hown n l Hl) as (ib & Hx%lookup_lt_Some & _). lia. }
  unfold shards, ibs. rewrite length_zip, length_take. lia.
Qed.

Lemma up_own_rest : up_own i = elements rest_fds.
Proof. unfold up_own. rewrite lookup_ge_None_2; [done|]. destruct up_length. lia. Qed.

Lemma up_loop j l rc : shards !! j = Some (l, rc) →
  ∃ ib, ibs !! j = Some ib ∧ l = set_inbox (Some ib) EventLoop_new ∧ ib_queue ib = [] ∧ rc = shard_cache cfg.
Proof.
  intros (y & z & [= <- <-] & H1 & H2)%lookup_zip_with_Some. destruct (su_own _ _ _ _ _ _ Hu j l H1) as (ib & Hjb & -> & Hq). exists ib.
  split; [unfold ibs; rewrite lookup_take_lt; [done|]; apply lookup_lt_Some in H1; rewrite (su_loops _ _ _ _ _ _ Hu) in H1; lia|].
  split_and!; try done. eapply (su_cached _ _ _ _ _ _ Hu), list_elem_of_lookup_2, H2.
Qed.

Lemma up_ends j ib fd : ibs !! j = Some ib → fd ∈ ends_of ib → fd ∈ inbox_ends ibs.
Proof. intros Hj Hfd. apply list_elem_of_bind. exists ib. split; [done|by eapply list_elem_of_lookup_2]. Qed.

Lemma up_spare fd : fd ∈ inbox_ends (drop i (inboxes_ s)) → fd ∈ X ∨ fd = -1.
Proof.
  intros (ib & Hfd & [j Hj]%list_elem_of_lookup)%list_elem_of_bind. rewrite lookup_drop in Hj.
  destruct (su_spare _ _ _ _ _ _ Hu (i + j)%nat ib ltac:(lia) Hj) as (_ & ? & ?). set_solver.
Qed.

Lemma up_idle j l rc : sy_shards (aug (mkSys k (Resolver_new 0 0) shards)) !! j = Some (l, rc) → idle_loop (up_own j) k l rc.
Proof.
  intros [Hj|[-> [= -> ->]]]%aug_inv.
  - destruct (up_loop j l rc Hj) as (ib & Hjb & -> & Hq & ->). unfold up_own. rewrite Hjb. split; try done.
    + intros ib' [= <-]. unfold ends_of. set_solver.
    + by eapply (proj1 (inbox_ends_apart _ (su_nodup _ _ _ _ _ _ Hu))).
    + intros fd Hfd. apply (su_open _ _ _ _ _ _ Hu). right; left. by eapply up_ends.
    + apply shard_cache_ok.
  - cbn [sy_shards]. rewrite (proj1 up_length), up_own_rest. apply idle_rest. unfold rest_fds. set_solver.
Qed.

Lemma up_own_apart j n fd : j ≠ n → (j ≤ i)%nat → (n ≤ i)%nat → fd ∈ up_own j → fd ∉ up_own n.
Proof.
  intros Hne Hj Hn. unfold up_own. destruct (ibs !! j) as [a|] eqn:Ha, (ibs !! n) as [b|] eqn:Hb; rewrite ?elem_of_elements, ?elem_of_rest.
  - by eapply (proj2 (inbox_ends_apart _ (su_nodup _ _ _ _ _ _ Hu)) j n).
  - intros Hfd [_ Hno]. by apply Hno, (up_ends j a).
  - intros [_ Hno] Hfd. by apply Hno, (up_ends n b).
  - apply lookup_ge_None_1 in Ha, Hb. destruct up_length. lia.
Qed.

Lemma up_own_all fd : is_Some (fdt (obs k) !! fd) → ∃ j, (j ≤ i)%nat ∧ fd ∈ up_own j.
Proof.
  intros Hs. destruct (decide (fd ∈ inbox_ends ibs)) as [(ib & Hfd & [j Hj]%list_elem_of_lookup)%list_elem_of_bind|Hno].
  - exists j. unfold up_own. rewrite Hj. split; [|done]. apply lookup_lt_Some in Hj. destruct up_length. lia.
  - exists i. rewrite up_own_rest. split; [done|]. by apply elem_of_elements, elem_of_rest.
Qed.
End up.

Lemma sharded_start cfg listener s (k : K) ttl delay threads :
  obs_wf (obs k) → (∀ key, regs (obs k) !! key = None) → loops_ s = [] → caches_ s = [] → (0 < shards_ s)%nat →
  let x := sharded_proxy (start_shards cfg listener s k) (Resolver_new ttl delay) threads in
  ∃ F, px_inv F x ∧ px_listener x = listener ∧ (∀ fd, fd ∈ inbox_ends (px_spare x) → fdt (obs k) !! fd = None) ∧
    ∀ fd, fd ∈ F ↔ is_Some (fdt (obs k) !! fd) ∨ 0 ≤ fd ∧ fd ∈ inbox_ends (px_spare x).
Proof.
  intros Hw Hr Hl Hc Hn x. unfold x, sharded_proxy. destruct (start_shards cfg listener s k) as [[ok s'] k'] eqn:E.
  destruct (start_shards_up _ _ _ _ _ _ _ Hw Hl Hc E) as (i & X & Hu & Hs & Hli & Hok).
  pose proof (up_spare _ _ _ _ _ _ Hu) as Hspare. pose proof (up_loop _ _ _ _ _ _ Hu) as Hloop.
  pose proof (proj1 (up_length _ _ _ _ _ _ Hu)) as Hlen. pose proof (su_loops _ _ _ _ _ _ Hu) as Hlo. pose proof (su_extra _ _ _ _ _ _ Hu) as Hx.
  cbn [px_listener px_spare]. rewrite Hlo. exists (elements (rest_fds i s' k')). split; [|split; [done|split]].
  2: { intros fd [Hf| ->]%Hspare; [by apply Hx|]. apply eq_None_not_Some. intros [f Hf]. apply (ow_pos _ Hw) in Hf. lia. }
  2: { intros fd. rewrite elem_of_elements, elem_of_rest, (su_open _ _ _ _ _ _ Hu). split.
       - intros [[?|[?|Hf%Hx]] ?]; [by left|done|right]. naive_solver.
       - intros [Hs'|[Hp [Hf| ->]%Hspare]]; [|split; [auto|by apply Hx]|lia]. split; [by left|].
         intros Hin%(su_new _ _ _ _ _ _ Hu). destruct Hs'. congruence. }
  split.
  { apply Forall_forall. intros ib [j Hj]%list_elem_of_lookup. cbn [px_spare] in Hj. rewrite lookup_drop in Hj.
    by destruct (su_spare _ _ _ _ _ _ Hu (i + j)%nat ib ltac:(lia) Hj). }
  left. exists (up_own i s' k'). apply px_start_ok; [cbn [px_sys sy_shards]; rewrite Hlen; apply (up_own_rest _ _ _ _ _ _ Hu)|].
  split; cbn [px_sys px_pcs px_stops px_main px_arg px_listener px_spare px_workers sy_kern sy_res sy_shards];
    rewrite ?Hlen, ?length_replicate; eauto using up_own_apart, up_own_all.
  - apply Hu.
  - intros key. apply eq_None_not_Some. intros [u Hv%(su_regs _ _ _ _ _ _ Hu)]. by rewrite Hr in Hv.
  - destruct ok; [by left|right]. split; [done|]. by intros j l rc (ib & _ & -> & _)%Hloop.
  - intros j l rc Hj. by apply (up_idle _ _ _ _ _ _ Hu).
  - intros j l rc (ib & Hjb & -> & _)%Hloop. unfold up_own. by rewrite Hjb.
  - unfold main_ok. cbn [px_sys px_main sy_shards]. rewrite Hlen. destruct ok.
    + destruct (Hok eq_refl) as [-> _]. split; [lia|]. by intros j l rc (ib & _ & -> & _)%Hloop.
    + intros j Hj. cbn [px_sys px_pcs sy_shards] in *. rewrite Hlen in Hj. by apply lookup_replicate_2.
Qed.
End shards.
