(* ===== verification/Main.v ===== *)
(** * The program ([main.cpp], [backend/factory.cpp])

The command line, its merge with the configuration file, the choice of the
backend, and what [main] sets up before it calls [run].  An early return or an
[exit] of [main] is its exit code.  The file system is a parameter, as for
[load_config]; what is printed is left out. *)
From S2P Require Import Prelude CppString Config Cache CacheSpec Kernel Socket Resolver ConnQueue EventLoop Sharded.

(** ** The command line *)

Record Flags := mkFlags {
  config_path : str;
  port_set : bool; level_set : bool; backend_set : bool; workers_set : bool; queue_set : bool
}.

Definition Flags_new : Flags := mkFlags [] false false false false false.

Definition set_config_path (v : str) (f : Flags) : Flags :=
  mkFlags v (port_set f) (level_set f) (backend_set f) (workers_set f) (queue_set f).
Definition mark_port (f : Flags) : Flags :=
  mkFlags (config_path f) true (level_set f) (backend_set f) (workers_set f) (queue_set f).
Definition mark_level (f : Flags) : Flags :=
  mkFlags (config_path f) (port_set f) true (backend_set f) (workers_set f) (queue_set f).
Definition mark_backend (f : Flags) : Flags :=
  mkFlags (config_path f) (port_set f) (level_set f) true (workers_set f) (queue_set f).
Definition mark_workers (f : Flags) : Flags :=
  mkFlags (config_path f) (port_set f) (level_set f) (backend_set f) true (queue_set f).
Definition mark_queue (f : Flags) : Flags :=
  mkFlags (config_path f) (port_set f) (level_set f) (backend_set f) (workers_set f) true.

(** An option that takes a value: what it does with it, or the exit code. *)
Definition option_value (arg v : str) (c : Config) (f : Flags) : option (Z + Config * Flags) :=
  if bool_decide (arg = lit "-c") then Some (inr (c, set_config_path v f))
  else if bool_decide (arg = lit "-p") then Some (inr (set_listen_port (atoi v) c, mark_port f))
  else if bool_decide (arg = lit "-v") then Some (inr (set_log_level (atoi v) c, mark_level f))
  else if bool_decide (arg = lit "-w") then Some (inr (set_thread_pool_size (strtoul v) c, mark_workers f))
  else if bool_decide (arg = lit "-L") then Some (inr (set_event_loops (strtoul v) c, f))
  else if bool_decide (arg = lit "-C") then Some (inr (set_cache_enabled (negb (atoi v =? 0)) c, f))
  else if bool_decide (arg = lit "-R") then Some (inr (set_async_resolve (negb (atoi v =? 0)) c, f))
  else if bool_decide (arg = lit "-D") then Some (inr (set_resolve_delay_ms (atoi v) c, f))
  else if bool_decide (arg = lit "-q") then Some (inr (set_job_queue_capacity (strtoul v) c, mark_queue f))
  else if bool_decide (arg = lit "-b") then
    Some (match parse_backend v with Some b => inr (set_backend b c, mark_backend f) | None => inl 2 end)
  else None.

Definition takes_value (arg : str) : bool :=
  bool_decide (arg ∈ [lit "-c"; lit "-p"; lit "-v"; lit "-w"; lit "-L"; lit "-C"; lit "-R"; lit "-D"; lit "-q"; lit "-b"]).

(** The [for] over [argv + 1]; [next] exits with 2 when there is no value. *)
Fixpoint parse_args (args : list str) (c : Config) (f : Flags) : Z + Config * Flags :=
  match args with
  | [] => inr (c, f)
  | arg :: rest =>
      if takes_value arg then
        match rest with
        | [] => inl 2
        | v :: rest' =>
            match option_value arg v c f with
            | Some (inr (c, f)) => parse_args rest' c f
            | Some (inl code) => inl code
            | None => inl 2
            end
        end
      else if bool_decide (arg = lit "-h") || bool_decide (arg = lit "--help") then inl 0
      else inl 2
  end.

(** ** The configuration in force *)

(** The flags re-applied over the file. *)
Definition reapply (f : Flags) (c from_file : Config) : Config :=
  let r := from_file in
  let r := if port_set f then set_listen_port (listen_port c) r else r in
  let r := if level_set f then set_log_level (log_level c) r else r in
  let r := if backend_set f then set_backend (backend c) r else r in
  let r := if workers_set f then set_thread_pool_size (thread_pool_size c) r else r in
  if queue_set f then set_job_queue_capacity (job_queue_capacity c) r else r.

Definition configure (open_file : str → option str) (args : list str) : Z + Config :=
  match parse_args args Config_default Flags_new with
  | inl code => inl code
  | inr (c, f) =>
      if bool_decide (config_path f = []) then inr c else
      match load_config open_file (config_path f) Config_default with
      | (from_file, None) => inr (reapply f c from_file)
      | (_, Some _) => inl 2
      end
  end.

(** ** The backend *)

Inductive Backend :=
| BThreadPerConn
| BThreadPool (queue : ConnQueue) (workers : Z)
| BEventLoop (loop : EventLoop)
| BSharded (s : Sharded).

Definition make_event_loop (cfg : Config) : Backend :=
  if 1 <? event_loops cfg then BSharded (ShardedEventLoop_new cfg) else BEventLoop EventLoop_new.

Definition make_thread_pool (cfg : Config) : Backend :=
  BThreadPool (ConnQueue_new (job_queue_capacity cfg)) (if thread_pool_size cfg =? 0 then 1 else thread_pool_size cfg).

Definition make_backend (cfg : Config) : Backend :=
  match Config.backend cfg with
  | Config.ThreadPerConn => BThreadPerConn
  | Config.ThreadPool => make_thread_pool cfg
  | Config.EventLoop => make_event_loop cfg
  end.

(** ** Setting up *)

Record Setup := mkSetup {
  su_cfg : Config;
  su_fd_limit : Z;
  su_listener : Z;
  su_resolver : Resolver;
  su_resolver_threads : Z;
  su_cache : option LruCache;
  su_backend : Backend
}.

(** The acceptor of a sharded loop is given a port other processes may share. *)
Definition reuseport (cfg : Config) : bool :=
  bool_decide (Config.backend cfg = Config.EventLoop) && (1 <? event_loops cfg).

(** [main] up to [backend->run]. *)
Definition main_setup {K} `{!Kernel K} (open_file : str → option str) (args : list str) (k : K) : (Z + Setup) * K :=
  match configure open_file args with
  | inl code => (inl code, k)
  | inr cfg =>
      let '(limit, k) := fd_limit_raise (desired_fd_limit cfg) k in
      let '(listener, k) := listen_on (listen_host cfg) (listen_port cfg) (backlog cfg) (reuseport cfg) k in
      if negb (valid listener) then (inl 1, k) else
      let resolver := Resolver_new (dns_cache_ttl_s cfg) (resolve_delay_ms cfg) in
      let threads := if async_resolve cfg then resolver_threads cfg else 0 in
      let cache := if cache_enabled cfg then Some (make_cache cfg) else None in
      (inr (mkSetup cfg limit listener resolver threads cache (make_backend cfg)), k)
  end.

(** ** What the command line means *)

(** The last value given for [flag] among the options [ps]. *)
Fixpoint last_value (flag : str) (ps : list (str * str)) : option str :=
  match ps with
  | [] => None
  | (a, v) :: ps' =>
      match last_value flag ps' with
      | Some x => Some x
      | None => if bool_decide (a = flag) then Some v else None
      end
  end.

Definition flatten (ps : list (str * str)) : list str := ps ≫= (λ p, [p.1; p.2]).

(** [o] is in force, or else what was there before. *)
Definition given_or {A} (parse : str → A) (old : A) (o : option str) : A := from_option parse old o.
Definition flag_on (v : str) : bool := negb (atoi v =? 0).
(** The options [ps] took [c] and [f] to [c'] and [f']. *)
Record tracks (ps : list (str * str)) (c : Config) (f : Flags) (c' : Config) (f' : Flags) : Prop := {
  tr_path : config_path f' = given_or id (config_path f) (last_value (lit "-c") ps);
  tr_port : listen_port c' = given_or atoi (listen_port c) (last_value (lit "-p") ps);
  tr_port_set : port_set f' = port_set f || bool_decide (is_Some (last_value (lit "-p") ps));
  tr_level : log_level c' = given_or atoi (log_level c) (last_value (lit "-v") ps);
  tr_level_set : level_set f' = level_set f || bool_decide (is_Some (last_value (lit "-v") ps));
  tr_workers : thread_pool_size c' = given_or strtoul (thread_pool_size c) (last_value (lit "-w") ps);
  tr_workers_set : workers_set f' = workers_set f || bool_decide (is_Some (last_value (lit "-w") ps));
  tr_queue : job_queue_capacity c' = given_or strtoul (job_queue_capacity c) (last_value (lit "-q") ps);
  tr_queue_set : queue_set f' = queue_set f || bool_decide (is_Some (last_value (lit "-q") ps));
  tr_backend v : last_value (lit "-b") ps = Some v → parse_backend v = Some (Config.backend c');
  tr_no_backend : last_value (lit "-b") ps = None → Config.backend c' = Config.backend c;
  tr_backend_set : backend_set f' = backend_set f || bool_decide (is_Some (last_value (lit "-b") ps));
  tr_loops : event_loops c' = given_or strtoul (event_loops c) (last_value (lit "-L") ps);
  tr_cache : cache_enabled c' = given_or flag_on (cache_enabled c) (last_value (lit "-C") ps);
  tr_async : async_resolve c' = given_or flag_on (async_resolve c) (last_value (lit "-R") ps);
  tr_delay : resolve_delay_ms c' = given_or atoi (resolve_delay_ms c) (last_value (lit "-D") ps)
}.

Lemma tracks_nil c f : tracks [] c f c f.
Proof. split; simpl; rewrite ?orb_false_r; done. Qed.

Lemma last_value_hit flag v ps : last_value flag ((flag, v) :: ps) = Some (default v (last_value flag ps)).
Proof. simpl. rewrite bool_decide_eq_true_2 by done. by destruct (last_value flag ps). Qed.

Lemma last_value_miss flag a v ps : a ≠ flag → last_value flag ((a, v) :: ps) = last_value flag ps.
Proof. intros Ha. simpl. rewrite bool_decide_eq_false_2 by done. by destruct (last_value flag ps). Qed.

(** Closes the goals of [tracks_cons] for one option. *)
Ltac one_option :=
  split; cbn -[lit last_value]; rewrite ?last_value_hit; rewrite ?last_value_miss by decide_closed; try done;
  match goal with |- context [last_value ?flag ?ps] => destruct (last_value flag ps) end;
  cbn -[lit last_value] in *; rewrite ?orb_true_r; naive_solver.

(** One more option in front. *)
Lemma tracks_cons arg v ps c f c1 f1 c' f' :
  option_value arg v c f = Some (inr (c1, f1)) → tracks ps c1 f1 c' f' → tracks ((arg, v) :: ps) c f c' f'.
Proof.
  intros E H. unfold option_value in E.
  repeat (case_bool_decide as Ha; [subst arg; simplify_eq; destruct H; try one_option|clear Ha]).
  - destruct (parse_backend v) eqn:Hb; simplify_eq. one_option.
  - done.
Qed.

Lemma parse_args_tracks args c f c' f' :
  parse_args args c f = inr (c', f') → ∃ ps, args = flatten ps ∧ tracks ps c f c' f'.
Proof.
  remember (length args) as n eqn:Hn. revert args c f Hn. induction n as [n IH] using lt_wf_ind; intros args c f -> E.
  destruct args as [|arg rest]; simpl in E; [simplify_eq; exists []; split; [done|apply tracks_nil]|].
  destruct (takes_value arg); [|by destruct (_ || _)]. destruct rest as [|v rest]; [done|].
  destruct (option_value arg v c f) as [[|[c1 f1]]|] eqn:Ho; try done.
  destruct (IH (length rest) ltac:(simpl; lia) rest c1 f1 eq_refl E) as (ps & -> & Ht).
  exists ((arg, v) :: ps). split; [done|by eapply tracks_cons].
Qed.

(** The configuration the options are applied over. *)
Definition base_config (open_file : str → option str) (ps : list (str * str)) (base : Config) : Prop :=
  match last_value (lit "-c") ps with
  | None | Some [] => base = Config_default
  | Some path => load_config open_file path Config_default = (base, None)
  end.

(** Whether a configuration file is in play. *)
Definition file_named (ps : list (str * str)) : bool :=
  match last_value (lit "-c") ps with None | Some [] => false | Some _ => true end.

(** How the configuration in force comes about. *)
Lemma configure_shape open_file args cfg :
  configure open_file args = inr cfg →
  ∃ ps c f base, args = flatten ps ∧ tracks ps Config_default Flags_new c f ∧ base_config open_file ps base ∧
    (file_named ps = false ∧ base = Config_default ∧ cfg = c ∨ file_named ps = true ∧ cfg = reapply f c base).
Proof.
  unfold configure. intros E. destruct (parse_args args Config_default Flags_new) as [|[c f]] eqn:Hp; [done|].
  destruct (parse_args_tracks _ _ _ _ _ Hp) as (ps & -> & Ht). rewrite (tr_path _ _ _ _ _ Ht) in E.
  unfold file_named, base_config. case_bool_decide as Hpath.
  - exists ps, c, f, Config_default. split; [done|]. split; [done|]. revert Hpath.
    destruct (last_value (lit "-c") ps) as [[|x l]|]; [|done|]; intros _; simplify_eq; auto.
  - destruct (load_config open_file _ Config_default) as [base [err|]] eqn:Hl; [done|]. exists ps, c, f, base.
    split; [done|]. split; [done|]. revert Hpath Hl.
    destruct (last_value (lit "-c") ps) as [[|x l]|]; [done| |done]; intros _ Hl; simplify_eq; auto.
Qed.

(** C37: The command line wins, for five options.  If the program starts, its
arguments are options with values, and for the port, the log level, the backend, the
number of workers and the queue capacity the last value given on the command
line is in force, or else what the configuration file (or the default) says. *)
Theorem command_line_wins open_file args cfg :
  configure open_file args = inr cfg →
  ∃ ps base, args = flatten ps ∧ base_config open_file ps base ∧
    listen_port cfg = given_or atoi (listen_port base) (last_value (lit "-p") ps) ∧
    log_level cfg = given_or atoi (log_level base) (last_value (lit "-v") ps) ∧
    thread_pool_size cfg = given_or strtoul (thread_pool_size base) (last_value (lit "-w") ps) ∧
    job_queue_capacity cfg = given_or strtoul (job_queue_capacity base) (last_value (lit "-q") ps) ∧
    (match last_value (lit "-b") ps with
     | Some v => parse_backend v = Some (Config.backend cfg)
     | None => Config.backend cfg = Config.backend base
     end).
Proof.
  intros E. destruct (configure_shape _ _ _ E) as (ps & c & f & base & -> & Ht & Hb & Hc). exists ps, base.
  split; [done|]. split; [done|]. destruct Ht as [_ Hpo Hpos Hle Hles Hwo Hwos Hqu Hqus Hba Hnb Hbas _ _ _ _].
  cbn -[lit last_value] in Hpos, Hles, Hwos, Hqus, Hbas. destruct Hc as [(_ & -> & ->)|[_ ->]].
  - split_and!; try done. destruct (last_value (lit "-b") ps) eqn:Hlb; auto.
  - unfold reapply. rewrite Hpos, Hles, Hwos, Hqus, Hbas. revert Hpo Hle Hwo Hqu Hba.
    destruct (last_value (lit "-p") ps), (last_value (lit "-v") ps), (last_value (lit "-b") ps),
      (last_value (lit "-w") ps), (last_value (lit "-q") ps); intros; split_and!; auto.
Qed.

Definition sample_args : list str :=
  [lit "-p"; lit "9000"; lit "-L"; lit "4"; lit "-p"; lit "9001"; lit "-c"; lit "evproxy.conf"].
Definition sample_file (path : str) : option str := Some (lit "listen_port = 8081").

Lemma command_line_wins_witness :
  ∃ cfg, configure sample_file sample_args = inr cfg ∧ listen_port cfg = 9001 ∧ ∃ ps base,
    sample_args = flatten ps ∧ base_config sample_file ps base ∧
    listen_port cfg = given_or atoi (listen_port base) (last_value (lit "-p") ps).
Proof.
  eexists. split; [vm_compute; reflexivity|]. split; [reflexivity|].
  edestruct (command_line_wins sample_file sample_args) as (ps & base & H1 & H2 & H3 & _); [vm_compute; reflexivity|].
  exists ps, base. split; [exact H1|]. split; [exact H2|exact H3].
Defined.

(** C38: Four options are lost with a configuration file.  Once -c names a file, the
number of loops, the cache switch, the resolver mode and the resolver delay are those
of the file, whatever -L, -C, -R and -D say; without a file they are in force. *)
Theorem options_lost_with_file open_file args cfg :
  configure open_file args = inr cfg →
  ∃ ps base, args = flatten ps ∧ base_config open_file ps base ∧
    (match last_value (lit "-c") ps with
     | None | Some [] =>
         event_loops cfg = given_or strtoul (event_loops base) (last_value (lit "-L") ps) ∧
         cache_enabled cfg = given_or flag_on (cache_enabled base) (last_value (lit "-C") ps) ∧
         async_resolve cfg = given_or flag_on (async_resolve base) (last_value (lit "-R") ps) ∧
         resolve_delay_ms cfg = given_or atoi (resolve_delay_ms base) (last_value (lit "-D") ps)
     | Some _ =>
         event_loops cfg = event_loops base ∧ cache_enabled cfg = cache_enabled base ∧
         async_resolve cfg = async_resolve base ∧ resolve_delay_ms cfg = resolve_delay_ms base
     end).
Proof.
  intros E. destruct (configure_shape _ _ _ E) as (ps & c & f & base & -> & Ht & Hb & Hc). exists ps, base.
  split; [done|]. split; [done|]. destruct Ht as [_ _ _ _ _ _ _ _ _ _ _ _ Hlo Hca Has Hde].
  unfold file_named in Hc. destruct (last_value (lit "-c") ps) as [[|x l]|];
    destruct Hc as [(Hn & -> & ->)|[Hn ->]]; try done.
  unfold reapply. by destruct (port_set f), (level_set f), (backend_set f), (workers_set f), (queue_set f).
Qed.

Lemma options_lost_with_file_witness :
  ∃ cfg, configure sample_file sample_args = inr cfg ∧ event_loops cfg = event_loops Config_default ∧ ∃ ps base,
    sample_args = flatten ps ∧ base_config sample_file ps base.
Proof.
  eexists. split; [vm_compute; reflexivity|]. split; [reflexivity|].
  edestruct (options_lost_with_file sample_file sample_args) as (ps & base & H1 & H2 & _); [vm_compute; reflexivity|].
  exists ps, base. split; [exact H1|exact H2].
Defined.
