(* ===== verification/MainSpec.v ===== *)
(** * What [main] sets up

The configuration stays within the C++ types of its fields whatever the command
line and the file say, and the calls [main] makes before [run] open the
listening socket and nothing else, also on the ways out. *)
From S2P Require Import Prelude CppString Config Cache CacheSpec Kernel SimKernel Socket SocketSpec Resolver ConnQueue.
From S2P Require Import EventLoop Sharded Main.

(** ** The types of the configuration *)

Record config_typed (c : Config) : Prop := {
  ct_listen_port : is_int (listen_port c);
  ct_backlog : is_int (backlog c);
  ct_thread_pool_size : is_size_t (thread_pool_size c);
  ct_job_queue_capacity : is_size_t (job_queue_capacity c);
  ct_max_header_bytes : is_size_t (max_header_bytes c);
  ct_max_body_bytes : is_size_t (max_body_bytes c);
  ct_io_chunk_bytes : is_size_t (io_chunk_bytes c);
  ct_desired_fd_limit : is_long (desired_fd_limit c);
  ct_event_loops : is_size_t (event_loops c);
  ct_poll_timeout_ms : is_int (poll_timeout_ms c);
  ct_resolver_threads : is_size_t (resolver_threads c);
  ct_dns_cache_ttl_s : is_int (dns_cache_ttl_s c);
  ct_resolve_delay_ms : is_int (resolve_delay_ms c);
  ct_cache_max_entries : is_size_t (cache_max_entries c);
  ct_cache_max_bytes : is_size_t (cache_max_bytes c);
  ct_cache_max_entry_bytes : is_size_t (cache_max_entry_bytes c);
  ct_log_level : is_int (log_level c)
}.

(** A field was assigned a value of its type. *)
Ltac field_typed := match goal with H : config_typed _ |- _ => destruct H; split; simpl; auto with ctypes end.

Lemma config_default_typed : config_typed Config_default.
Proof. split; vm_compute; split; discriminate. Qed.

Lemma set_key_typed key val c c' : config_typed c → set_key key val c = Some c' → config_typed c'.
Proof.
  intros Hc. unfold set_key.
  repeat (case_bool_decide as Hk; [clear Hk; intros [= <-]; field_typed|clear Hk]). done.
Qed.

Lemma set_backend_typed b c : config_typed c → config_typed (set_backend b c).
Proof. intros Hc. field_typed. Qed.

Lemma load_line_typed lineno line c c' : config_typed c → load_line lineno line c = inl c' → config_typed c'.
Proof.
  intros Hc. unfold load_line. destruct (find_char _ _) as [eq|].
  - case_bool_decide; [by intros [= <-]|]. case_bool_decide.
    + destruct (parse_backend _); [|done]. intros [= <-]. by apply set_backend_typed.
    + destruct (set_key _ _ _) eqn:E; [|done]. intros [= <-]. by eapply set_key_typed.
  - case_bool_decide; [|done]. by intros [= <-].
Qed.

Lemma load_lines_typed lineno ls c c' err : config_typed c → load_lines lineno ls c = (c', err) → config_typed c'.
Proof.
  revert lineno c. induction ls as [|l ls IH]; intros lineno c Hc; simpl; [by intros [= <- <-]|].
  destruct (load_line _ _ _) eqn:E; [|by intros [= <- <-]]. apply IH. by eapply load_line_typed.
Qed.

Lemma load_config_typed open_file path c c' err :
  config_typed c → load_config open_file path c = (c', err) → config_typed c'.
Proof.
  intros Hc. unfold load_config. destruct (open_file path); [|by intros [= <- <-]]. by apply load_lines_typed.
Qed.

Lemma option_value_typed arg v c f c' f' :
  config_typed c → option_value arg v c f = Some (inr (c', f')) → config_typed c'.
Proof.
  intros Hc. unfold option_value.
  repeat (case_bool_decide as Hk; [clear Hk|clear Hk]); try (intros [= <- <-]; done || field_typed); try done.
  destruct (parse_backend v); [|done]. intros [= <- <-]. by apply set_backend_typed.
Qed.

Lemma parse_args_typed args c f c' f' : config_typed c → parse_args args c f = inr (c', f') → config_typed c'.
Proof.
  remember (length args) as n eqn:Hn. revert args c f Hn.
  induction n as [n IH] using lt_wf_ind; intros args c f -> Hc E.
  destruct args as [|arg rest]; simpl in E; [by simplify_eq|].
  destruct (takes_value arg); [|by destruct (_ || _)]. destruct rest as [|v rest]; [done|].
  destruct (option_value arg v c f) as [[|[c1 f1]]|] eqn:Ho; try done.
  apply (IH (length rest) ltac:(simpl; lia) rest c1 f1 eq_refl); [by eapply option_value_typed|done].
Qed.

Lemma reapply_typed f c base : config_typed c → config_typed base → config_typed (reapply f c base).
Proof.
  intros [] []. unfold reapply.
  destruct (port_set f), (level_set f), (backend_set f), (workers_set f), (queue_set f); split; simpl; auto.
Qed.

Lemma configure_typed open_file args cfg : configure open_file args = inr cfg → config_typed cfg.
Proof.
  unfold configure. destruct (parse_args args Config_default Flags_new) as [|[c f]] eqn:E; [done|].
  apply parse_args_typed in E; [|apply config_default_typed]. case_bool_decide; [by intros [= <-]|].
  destruct (load_config _ _ _) as [base [err|]] eqn:El; [done|]. intros [= <-].
  apply reapply_typed; [done|]. by eapply load_config_typed; [apply config_default_typed|].
Qed.

(** The exit codes of a command line that is refused, or asks for help. *)
Lemma option_value_codes arg v c f code : option_value arg v c f = Some (inl code) → code = 2.
Proof.
  unfold option_value. repeat (case_bool_decide as Hk; [clear Hk|clear Hk]); try done.
  destruct (parse_backend v); by intros [= <-].
Qed.

Lemma parse_args_codes args c f code : parse_args args c f = inl code → code = 0 ∨ code = 2.
Proof.
  remember (length args) as n eqn:Hn. revert args c f Hn.
  induction n as [n IH] using lt_wf_ind; intros args c f -> E.
  destruct args as [|arg rest]; simpl in E; [done|].
  destruct (takes_value arg); [|destruct (_ || _); simplify_eq; auto]. destruct rest as [|v rest]; [simplify_eq; auto|].
  destruct (option_value arg v c f) as [[|[c1 f1]]|] eqn:Ho; simplify_eq; auto.
  - right. by eapply option_value_codes.
  - apply (IH (length rest) ltac:(simpl; lia) rest c1 f1 eq_refl E).
Qed.

Lemma configure_codes open_file args code : configure open_file args = inl code → code = 0 ∨ code = 1 ∨ code = 2.
Proof.
  unfold configure. destruct (parse_args args Config_default Flags_new) as [|[c f]] eqn:E.
  - intros [= <-]. apply parse_args_codes in E. tauto.
  - case_bool_decide; [done|]. destruct (load_config _ _ _) as [base [err|]]; [|done]. intros [= <-]. auto.
Qed.

(** What a backend is sized to: at least one worker, one place in the queue, and
more than one shard where there are shards. *)
Definition backend_sized (b : Backend) : Prop :=
  match b with
  | BThreadPool q n => queue_ok q ∧ 1 ≤ n ≤ ULONG_MAX
  | BSharded s => (1 < shards_ s)%nat
  | BThreadPerConn | BEventLoop _ => True
  end.

Lemma make_backend_sized cfg : config_typed cfg → backend_sized (make_backend cfg).
Proof.
  intros [? ? Hn [Hq _] ? ? ? ? Hl ? ? ? ? ? ? ? ?]. unfold make_backend, make_thread_pool, make_event_loop.
  destruct (Config.backend cfg); simpl; [done|split; [by apply ConnQueue_new_ok|]|].
  - unfold is_size_t, ULONG_MAX in *. destruct (Z.eqb_spec (thread_pool_size cfg) 0); lia.
  - destruct (Z.ltb_spec 1 (event_loops cfg)); simpl; [|done]. destruct (Z.eqb_spec (event_loops cfg) 0); lia.
Qed.

Section setup.
Context {K : Type} `{!Kernel K, !KernelLaws K}.

(** C39: Typed settings.  Whatever the command line and the configuration file hold,
every field of the configuration [main] runs with is a value of its C++ type
(numbers out of range saturate, a minus sign before an unsigned one wraps
around), and the backend has at least one worker and one place in its queue. *)
Theorem main_setup_typed open_file args (k : K) su k' :
  main_setup open_file args k = (inr su, k') → config_typed (su_cfg su) ∧ backend_sized (su_backend su).
Proof.
  unfold main_setup. destruct (configure open_file args) as [code|cfg] eqn:Ec; [done|].
  destruct (fd_limit_raise _ _) as [limit k1]. destruct (listen_on _ _ _ _ _) as [fd k2].
  destruct (negb (valid fd)); [done|]. intros [= <- <-]. simpl. apply configure_typed in Ec.
  split; [done|by apply make_backend_sized].
Qed.

(** The only descriptor [main] opens before it serves is the listening socket:
when it gives up (exit code 0, 1 or 2) the descriptor table is as it was, and
otherwise the listener is a new descriptor and the rest is unchanged. *)
Lemma main_setup_descriptors open_file args (k : K) r k' :
  obs_wf (obs k) → main_setup open_file args k = (r, k') →
  obs_wf (obs k') ∧ regs (obs k') = regs (obs k) ∧
  match r with
  | inl code => (code = 0 ∨ code = 1 ∨ code = 2) ∧ fdt (obs k') = fdt (obs k)
  | inr su => fdt (obs k) !! su_listener su = None ∧
      ∃ f, (nfiles (obs k) ≤ f)%nat ∧ fdt (obs k') = <[su_listener su := f]> (fdt (obs k))
  end.
Proof.
  intros Hw. unfold main_setup. destruct (configure open_file args) as [code|cfg] eqn:Ec.
  { intros [= <- <-]. split; [done|]. split; [done|]. split; [|done]. by eapply configure_codes. }
  destruct (fd_limit_raise _ _) as [limit k1] eqn:E1. apply fd_limit_raise_silent in E1. unfold silent in E1.
  destruct (listen_on _ _ _ _ _) as [fd k2] eqn:E2. apply listen_on_spec in E2; [|by rewrite E1].
  rewrite E1 in E2. destruct E2 as (Hw2 & Hr & _ & Hc). unfold valid.
  destruct (Z.leb_spec 0 fd); cbn [negb]; intros [= <- <-]; (split; [done|]); (split; [done|]); simpl.
  - destruct Hc as [[-> _]|(_ & ? & ?)]; [lia|done].
  - destruct Hc as [[_ ?]|(? & _)]; [|lia]. split; [auto|done].
Qed.
End setup.

Lemma main_setup_typed_witness :
  ∃ su k', main_setup sample_file sample_args sim0 = (inr su, k') ∧ config_typed (su_cfg su) ∧ backend_sized (su_backend su).
Proof.
  eexists _, _. split; [vm_compute; reflexivity|]. eapply (main_setup_typed sample_file sample_args sim0). vm_compute. reflexivity.
Defined.
