(* ===== verification/MainLog.v ===== *)
(** * What [main] prints

The log calls of [main], before and after [run], as [Log.v] has them.  The formats
fit their arguments, whatever the settings and the counters are. *)
From S2P Require Import Prelude CppString Log Config Cache CacheSpec Kernel Socket Resolver ConnQueue.
From S2P Require Import Connection EventLoop Sharded Main.

(** [Backend::name] *)
Definition backend_title (b : Backend) : str :=
  match b with
  | BThreadPerConn => lit "thread_per_conn"
  | BThreadPool _ _ => lit "thread_pool"
  | BEventLoop _ | BSharded _ => lit "event_loop"
  end.

Definition limit_log (cfg : Config) (limit : Z) : list LogCall :=
  [log_info (Fmt (lit "fd limit: %ld (requested %ld)") (AInt limit) [AInt (desired_fd_limit cfg)])] ++
  (if limit <? desired_fd_limit cfg
   then [log_error (Msg (lit "fd limit below requested -- high-concurrency runs will cap here, not in the proxy"))] else []).

Definition banner_log (su : Setup) : list LogCall :=
  let cfg := su_cfg su in
  [log_info (Fmt (lit "evproxy listening on %s:%d backend=%s resolve=%s") (AStr (listen_host cfg))
     [AInt (listen_port cfg); AStr (backend_title (su_backend su)); AStr (if async_resolve cfg then lit "async" else lit "blocking")])] ++
  (match su_cache su with
   | Some c => [log_info (Fmt (lit "cache: on, %zu entries / %zu bytes max, lock=%s") (AInt (cache_max_entries cfg))
                  [AInt (cache_max_bytes cfg); AStr (if locked c then lit "mutex" else lit "none")])]
   | None => [log_info (Msg (lit "cache: off"))]
   end) ++
  (if 0 <? resolve_delay_ms cfg
   then [log_info (Fmt (lit "resolve_delay_ms=%d -- FAULT INJECTION is active, not a natural measurement") (AInt (resolve_delay_ms cfg)) [])]
   else []).

(** After [run] and [shutdown], with the cache and the resolver as they are then. *)
Definition farewell_log (cache : option LruCache) (r : Resolver) : list LogCall :=
  (match cache with
   | Some c => [log_info (Fmt (lit "cache: %llu hits, %llu misses, %zu entries, %zu bytes") (AInt (hits c))
                  [AInt (Cache.misses c); AInt (entries c); AInt (bytes c)])]
   | None => []
   end) ++
  [log_info (Fmt (lit "resolver: %llu lookups, %llu cache hits") (AInt (lookups_ r)) [AInt (cache_hits_ r)]);
   log_info (Msg (lit "clean shutdown"))].

(** All of them in order. *)
Definition main_log (su : Setup) (cache : option LruCache) (r : Resolver) : list LogCall :=
  limit_log (su_cfg su) (su_fd_limit su) ++ banner_log su ++ farewell_log cache r.

Lemma main_log_defined su cache r : Forall (λ c, is_Some (line c)) (main_log su cache r).
Proof.
  unfold main_log, limit_log, banner_log, farewell_log.
  destruct (su_fd_limit su <? desired_fd_limit (su_cfg su)), (su_cache su), (0 <? resolve_delay_ms (su_cfg su)), cache;
    simpl app; repeat (apply Forall_cons; split; [by eexists|]); apply Forall_nil_2.
Qed.

(** So a run without errors at level 1 prints nothing, and at level 2 a line for each. *)
Lemma main_log_quiet su cache r :
  desired_fd_limit (su_cfg su) ≤ su_fd_limit su → printed Error (main_log su cache r) = [].
Proof.
  intros Hl. unfold main_log, limit_log, banner_log, farewell_log. rewrite (proj2 (Z.ltb_ge _ _)) by done.
  by destruct (su_cache su), (0 <? resolve_delay_ms (su_cfg su)), cache.
Qed.
