(* ===== verification/MainRun.v ===== *)
(** * The program with the event loop backend, from [main] to its end

[launch] is [main] up to the point where all threads of the event loop backend run;
the threads then act in any order ([px_reach]) until [main] has returned.  The
theorems hold of every state on the way, for whatever the kernel answers. *)
From S2P Require Import Prelude CppString Http Config Cache CacheSpec Kernel SimKernel Socket SocketSpec Resolver ResolverSpec.
From S2P Require Import Connection ConnectionInv ConnectionSpec EventLoop EventLoopInv ConnResolver EventLoopSpec LoopFootprint LoopShared.
From S2P Require Import Sharded ShardedSys EventThreads ProxyInv ProxySys ProxyOwners ProxyStart Main MainSpec.

Section program.
Context {K : Type} `{!Kernel K, !KernelLaws K}.

(** [backend->run] for the two event loop backends. *)
Definition run_backend (su : Setup) (k : K) : option (Proxy K LruCache) :=
  let threads := Z.to_nat (su_resolver_threads su) in
  match su_backend su with
  | BEventLoop _ => Some (single_proxy (su_listener su) k (su_resolver su) (su_cache su) threads)
  | BSharded s => Some (sharded_proxy (start_shards (su_cfg su) (su_listener su) s k) (su_resolver su) threads)
  | BThreadPerConn | BThreadPool _ _ => None
  end.

Definition launch (open_file : str → option str) (args : list str) (k : K) : option (Config * Proxy K LruCache) :=
  match main_setup open_file args k with
  | (inr su, k) => x ← run_backend su k; Some (su_cfg su, x)
  | (inl _, _) => None
  end.

Lemma launch_inv open_file args (k : K) cfg x :
  obs_wf (obs k) → (∀ key, regs (obs k) !! key = None) → launch open_file args k = Some (cfg, x) →
  ∃ F, px_inv F x ∧ (∀ fd, main_fd x fd → fdt (obs k) !! fd = None) ∧
    ∀ fd, fd ∈ F ↔ is_Some (fdt (obs k) !! fd) ∨ 0 ≤ fd ∧ main_fd x fd.
Proof.
  intros Hw Hr E. unfold launch in E. destruct (main_setup open_file args k) as [[code|su] k1] eqn:Es; [done|].
  destruct (main_setup_descriptors _ _ _ _ _ Hw Es) as (Hw1 & Hr1 & Hno & f & Hf & Ht).
  assert (∀ key, regs (obs k1) !! key = None) as Hr1' by by rewrite Hr1.
  assert (∀ fd, is_Some (fdt (obs k1) !! fd) ↔ fd = su_listener su ∨ is_Some (fdt (obs k) !! fd)) as Hop.
  { intros fd. rewrite Ht, lookup_insert_is_Some'. naive_solver. }
  unfold main_setup in Es. destruct (configure _ _) as [|cfg'] eqn:Ec; [done|].
  destruct (fd_limit_raise _ _) as [limit k2]. destruct (listen_on _ _ _ _ _) as [lfd k3]. destruct (negb _); [done|]. injection Es as <- <-.
  apply configure_typed in Ec. apply make_backend_sized in Ec.
  unfold run_backend in E. simpl in *. unfold make_backend, make_event_loop in *.
  destruct (Config.backend cfg'); [done|done|]. destruct (1 <? event_loops cfg') eqn:He; simpl in E, Ec; injection E as <- <-.
  - destruct (sharded_start cfg' lfd (ShardedEventLoop_new cfg') k3 (dns_cache_ttl_s cfg') (resolve_delay_ms cfg')
      (Z.to_nat (if async_resolve cfg' then resolver_threads cfg' else 0)) Hw1 Hr1' eq_refl eq_refl ltac:(simpl; lia)) as (F & Hst & Hl & Hno1 & HF).
    exists F. split; [done|]. unfold main_fd. rewrite Hl. split.
    + intros fd [->|Hsp%Hno1]; [done|]. apply eq_None_not_Some. intros Hs. destruct (proj2 (Hop fd) (or_intror Hs)). congruence.
    + intros fd. rewrite HF, Hop. pose proof (ow_pos _ Hw1 lfd f) as Hp. rewrite Ht, lookup_insert_eq in Hp. naive_solver.
  - eexists. split; [by apply single_start; [..|rewrite Ht, lookup_insert_eq|apply shard_cache_ok]|]. unfold main_fd. simpl. split.
    + intros fd [->|?]; [|set_solver]. apply eq_None_not_Some. intros [g Hg]. apply (ow_pos _ Hw) in Hg. lia.
    + intros fd. rewrite elem_of_elements, elem_of_difference, elem_of_open, Hop, elem_of_singleton. split.
      * intros [[?|?] ?]; [done|by left].
      * intros [Hs|[? [->|?]]]; [|lia|set_solver]. split; [by right|]. intros ->. destruct Hs. congruence.
Qed.

Section reachable.
Context (malloc : gset nat → nat) (budget : nat) (open_file : str → option str) (args : list str).
Context (k : K) (cfg : Config) (x x' : Proxy K LruCache).

(** [x'] is a state of the program started in [k], with nothing registered before. *)
Record program_state : Prop := {
  pg_malloc X : malloc X ∉ X;
  pg_wf : obs_wf (obs k);
  pg_regs key : regs (obs k) !! key = None;
  pg_launch : launch open_file args k = Some (cfg, x);
  pg_reach : px_reach cfg malloc budget x x'
}.

Lemma program_inv : program_state →
  ∃ F, px_inv F x' ∧ (∀ fd, main_fd x' fd → fdt (obs k) !! fd = None) ∧
    ∀ fd, fd ∈ F ↔ is_Some (fdt (obs k) !! fd) ∨ 0 ≤ fd ∧ main_fd x' fd.
Proof.
  intros [Hm Hw Hr Hl Hre]. destruct (launch_inv _ _ _ _ _ Hw Hr Hl) as (F & HI & Hno & HF). exists F.
  split; [by eapply px_reach_inv|]. destruct (px_reach_same _ _ _ _ _ Hre) as (H1 & H2 & _). unfold main_fd in *. by rewrite H1, H2.
Qed.

Lemma program_ok : program_state → px_main x' ≠ Left →
  ∃ F own, px_ok F own x' ∧ (∀ fd, main_fd x' fd → fdt (obs k) !! fd = None) ∧
    ∀ fd, fd ∈ F ↔ is_Some (fdt (obs k) !! fd) ∨ 0 ≤ fd ∧ main_fd x' fd.
Proof.
  intros Hp Hne. destruct (program_inv Hp) as (F & [_ [[own Hx]|Hx]] & Hno & HF); [by exists F, own|].
  by destruct (pl_main _ _ Hx).
Qed.

(** C8: Every descriptor has one owner.  Whatever the shard threads, the acceptor, the
resolver threads and signals do in whatever order, until [main] returns: an
open descriptor was open before the program started or has an owner (the main
thread, one event loop, one live connection of one loop, or a lookup whose connection
has gone); no open descriptor has two; and what was open before stays open
and is never the program's. *)
Theorem every_descriptor_has_one_owner :
  program_state → px_main x' ≠ Left →
  (∀ fd, is_Some (fdt (obs (sy_kern (px_sys x'))) !! fd) → is_Some (fdt (obs k) !! fd) ∨ ∃ o, owned_by x' o fd) ∧
  (∀ fd o o', is_Some (fdt (obs (sy_kern (px_sys x'))) !! fd) → owned_by x' o fd → owned_by x' o' fd → o = o') ∧
  (∀ fd o, is_Some (fdt (obs k) !! fd) → is_Some (fdt (obs (sy_kern (px_sys x'))) !! fd) ∧ ¬ owned_by x' o fd).
Proof.
  intros Hp Hne. destruct (program_ok Hp Hne) as (F & own & Hx & Hno & HF). split_and!.
  - intros fd Hs. destruct (owner_exists F own x' Hx fd Hs) as [[?|[_ ?]]%HF|?]; [by left|right; by exists OMain|by right].
  - intros fd o o' Hs. apply (owner_unique F own x' Hx); [|done]. intros H1 H2. apply HF. auto.
  - intros fd o Hs. apply (foreign_untouched F own x' Hx); [apply HF; auto|]. intros Hm%Hno. destruct Hs. congruence.
Qed.



End reachable.
End program.

(** ** Two shards, one client

Three descriptors are open when [main] starts.  The acceptor hands the client to shard
0, which reads its request and starts a lookup ([prog_busy]); a resolver thread
takes it; a signal stops the program, the connection is dropped when the grace
period is over, and [main] returns ([prog_left]). *)
Definition prog_args : list str := [lit "-b"; lit "event_loop"; lit "-L"; lit "2"].
Definition prog_file (path : str) : option str := None.
Definition prog_chunks (f : nat) : list str := match f with 8%nat => [demo_ask] | _ => [] end.
Definition prog_sim : Sim :=
  mkSim (foldr obs_open obs0 [2; 1; 0]) 0 0 prog_chunks (inr [loopback]) 1 [[UInbox]; [UConn 1]; [UConn 1]].

Definition prog_start : Config * Proxy Sim LruCache :=
  default (Config_default, single_proxy 0 prog_sim (Resolver_new 0 0) None 0) (launch prog_file prog_args prog_sim).
Definition prog_run (acts : list Act) : Proxy Sim LruCache := default prog_start.2 (px_run prog_start.1 malloc_max 4 acts prog_start.2).

Definition serving : list Act := [ActMain; ActMain; ActThread 0; ActThread 1] ++ repeat (ActThread 0) 5.
Definition stopping : list Act :=
  [ActWorker 0; ActSignal; ActSignalShard 0] ++ repeat ActMain 5 ++ repeat (ActThread 1) 4 ++ repeat (ActThread 0) 108 ++
  repeat ActMain 4 ++ repeat (ActWorker 0) 8 ++ [ActWorker 1; ActWorker 2; ActWorker 3; ActMain; ActMain].

Definition prog_busy : Proxy Sim LruCache := prog_run serving.
Definition prog_left : Proxy Sim LruCache := prog_run (serving ++ stopping).

Lemma prog_reached acts x' : px_run prog_start.1 malloc_max 4 acts prog_start.2 = Some x' →
  program_state malloc_max 4 prog_file prog_args prog_sim prog_start.1 prog_start.2 x'.
Proof.
  intros H. split.
  - apply malloc_max_fresh.
  - cbn. repeat (apply obs_open_wf; [|lia|vm_compute; reflexivity]). apply obs0_wf.
  - intros key. apply lookup_empty.
  - vm_compute. reflexivity.
  - by eapply px_run_steps.
Qed.

Lemma prog_busy_state : program_state malloc_max 4 prog_file prog_args prog_sim prog_start.1 prog_start.2 prog_busy.
Proof. apply (prog_reached serving). vm_compute. reflexivity. Qed.

Lemma prog_left_state : program_state malloc_max 4 prog_file prog_args prog_sim prog_start.1 prog_start.2 prog_left.
Proof. apply (prog_reached (serving ++ stopping)). vm_compute. reflexivity. Qed.

Definition prog_shard : EventLoop * option LruCache := default (EventLoop_new, None) (sy_shards (px_sys prog_busy) !! 0%nat).

Lemma every_descriptor_has_one_owner_witness :
  open_fds (obs (sy_kern (px_sys prog_busy))) = list_to_set [0; 1; 2; 3; 4; 5; 6; 7; 8; 9; 10; 11; 12] ∧
  owned_by prog_busy OMain 3 ∧ ¬ owned_by prog_busy (OConn 0 1) 3 ∧ ¬ owned_by prog_busy (OConn 0 1) 2.
Proof.
  assert (owned_by prog_busy OMain 3) as H3 by (left; vm_compute; reflexivity).
  destruct (every_descriptor_has_one_owner malloc_max 4 prog_file prog_args prog_sim prog_start.1 prog_start.2 prog_busy
    prog_busy_state ltac:(vm_compute; discriminate)) as (_ & H1 & H2).
  split; [vm_compute; reflexivity|]. split; [exact H3|]. split.
  - intros H. assert (OMain = OConn 0 1) as Heq; [|discriminate Heq].
    apply (H1 3); [vm_compute; by eexists|exact H3|exact H].
  - apply (H2 2). vm_compute. by eexists.
Defined.



