(* ===== verification/Crew.v ===== *)
(** * Threads that serve one connection each

The backends that give a connection to a thread ([backend/thread_pool.cpp],
[backend/thread_per_conn.cpp]) let many connections act on one kernel, one resolver
and one cache.  A crew is the list of their threads, each with the connection it
serves, if any.  [crew_inv] says that every connection is consistent, that no two
of them share a descriptor or a lookup, that the resolver threads agree with
all of them, and that every open descriptor is accounted for; it is kept by
each thing a thread of the crew, a resolver thread or the accepting thread does. *)
From S2P Require Import Prelude CppString Http Config Cache CacheSpec Kernel Socket Resolver ResolverSpec.
From S2P Require Import Connection ConnectionInv ConnectionSpec EventLoop EventLoopInv ConnResolver LoopShared.

Abbreviation Crew := (list (option Connection)).

(** Thread [i] serves [c]. *)
Definition serves (cr : Crew) (i : nat) (c : Connection) : Prop := cr !! i = Some (Some c).

(** The lookups and the descriptors in use: [L] are those no connection has. *)
Definition crew_held (cr : Crew) : gset nat := ⋃ (from_option job_of ∅ <$> cr).
Definition crew_fd (L : list Z) (cr : Crew) (fd : Z) : Prop := fd ∈ L ∨ ∃ i c, serves cr i c ∧ sock c fd.

Lemma elem_of_crew_held j cr : j ∈ crew_held cr ↔ ∃ i c, serves cr i c ∧ resolve_job_ c = Some j.
Proof.
  unfold crew_held, serves. rewrite elem_of_union_list. setoid_rewrite list_elem_of_fmap. split.
  - intros (X & ([c|] & -> & [i Hi]%list_elem_of_lookup) & Hj); [|set_solver]. exists i, c. split; [done|]. by apply elem_of_job_of.
  - intros (i & c & Hi%list_elem_of_lookup_2 & Hj). exists (job_of c). split; [by exists (Some c)|by apply elem_of_job_of].
Qed.

Lemma serves_insert cr i oc j c :
  serves (<[i := oc]> cr) j c ↔ i = j ∧ oc = Some c ∧ (i < length cr)%nat ∨ i ≠ j ∧ serves cr j c.
Proof. unfold serves. rewrite list_lookup_insert_Some. naive_solver. Qed.

Lemma serves_none cr i j c : serves (<[i := None]> cr) j c → i ≠ j ∧ serves cr j c.
Proof. rewrite serves_insert. naive_solver. Qed.

Lemma crew_held_put cr i c : cr !! i = Some None → crew_held (<[i := Some c]> cr) = job_of c ∪ crew_held cr.
Proof.
  intros Hi. pose proof (lookup_lt_Some _ _ _ Hi). apply set_eq. intros j. rewrite elem_of_union, !elem_of_crew_held, elem_of_job_of.
  setoid_rewrite serves_insert. split; [naive_solver|]. intros [Hj|(n & d & Hn & Hj)]; [by exists i, c; auto|].
  exists n, d. split; [|done]. right. split; [|done]. intros <-. unfold serves in Hn. congruence.
Qed.

Lemma crew_fd_put L cr i c fd : cr !! i = Some None → crew_fd L (<[i := Some c]> cr) fd ↔ crew_fd L cr fd ∨ sock c fd.
Proof.
  intros Hi. pose proof (lookup_lt_Some _ _ _ Hi). unfold crew_fd. setoid_rewrite serves_insert. split; [naive_solver|].
  intros [[?|(n & d & Hn & Hs)]|Hs]; [by left|right|right; by exists i, c; auto].
  exists n, d. split; [|done]. right. split; [|done]. intros <-. unfold serves in Hn. congruence.
Qed.

Lemma crew_fd_mono L L' cr fd : (∀ x, x ∈ L → x ∈ L') → crew_fd L cr fd → crew_fd L' cr fd.
Proof. intros HL [?|?]; [left; auto|by right]. Qed.

(** Replacing the connection of a thread is emptying its place and filling it. *)
Lemma crew_take_put (cr : Crew) i oc : <[i := oc]> (<[i := None]> cr) = <[i := oc]> cr.
Proof. apply list_insert_insert_eq. Qed.

Section crew.
Context {K C : Type} `{!Kernel K, !KernelLaws K, !ResponseCache C, !ResponseCacheLaws C}.
Implicit Type w : World K C.
Abbreviation inv fc := (conn_inv fc (λ _, True)).

(** ** The invariant *)

(** The connections are consistent and have nothing in common with each other, with the
descriptors [H] of others, or with the clients [Q] that wait for a thread. *)
Record crew_ok (H Q : list Z) (cr : Crew) w : Prop := {
  co_world : world_ok w;
  co_conn i c : serves cr i c → ∃ fc, inv fc c w;
  co_apart i j c d : i ≠ j → serves cr i c → serves cr j d → apart c d w;
  co_open fd : fd ∈ H ++ Q → is_Some (fdt (obs (kern w)) !! fd);
  co_free fd i c : fd ∈ H ++ Q → serves cr i c → ¬ owned c (jobs (res w)) fd;
  co_queue fd : fd ∈ Q → untouched fd w;
  co_nodup : NoDup (H ++ Q)
}.

(** With the resolver threads [ws], and nothing left out. *)
Record crew_inv (ws : list WorkerPc) (H Q : list Z) (cr : Crew) w : Prop := {
  cw_ok : crew_ok H Q cr w;
  cw_shared : shared ws (crew_held cr) (crew_fd (H ++ Q) cr) (res w) (kern w);
  cw_acc fd : is_Some (fdt (obs (kern w)) !! fd) → crew_fd (H ++ Q) cr fd ∨ job_fd (jobs (res w)) fd
}.

(** [c], which is not in the crew, has nothing in common with it. *)
Record stranger (L : list Z) (cr : Crew) (c : Connection) w : Prop := {
  sg_conn i d : serves cr i d → apart c d w;
  sg_free fd : fd ∈ L → ¬ owned c (jobs (res w)) fd
}.

(** ** Somebody else acts *)

Lemma crew_ok_env H Q cr w w' :
  crew_ok H Q cr w → world_ok w' → (∀ i c, serves cr i c → env c w w') →
  (∀ fd, fd ∈ H ++ Q → is_Some (fdt (obs (kern w')) !! fd)) → (∀ fd, fd ∈ Q → untouched fd w') → crew_ok H Q cr w'.
Proof.
  intros [_ Hc Hap _ Hfree _ Hnd] Hw He Ho Hq. split; try done.
  - intros i c Hi. destruct (Hc i c Hi) as [fc Hinv]. exists fc. by eapply env_inv, He.
  - intros i j c d Hne Hi Hj. destruct (Hc i c Hi) as [f1 ?], (Hc j d Hj) as [f2 ?]. eapply (env_apart f1 f2 _ _ w); eauto.
  - intros fd i c Hin Hi Hown. destruct (Hc i c Hi) as [fc Hinv].
    destruct (env_owned _ _ _ _ _ (He i c Hi) Hinv Hown (Ho fd Hin)). by eapply Hfree.
Qed.

(** A connection outside the crew, *)
Lemma crew_ok_step H Q cr c w w' :
  crew_ok H Q cr w → others_kept c w w' → stranger (H ++ Q) cr c w → crew_ok H Q cr w'.
Proof.
  intros Hok Hk [Hc Hf]. pose proof (wo_wf _ (co_world _ _ _ _ Hok)) as Hw. eapply crew_ok_env; [done|..].
  - destruct Hk as [Hfr _ ? ? ?]. split; try done. by eapply fr_wf.
  - intros i d Hi. destruct (co_conn _ _ _ _ Hok i d Hi) as [fc Hi']. eapply others_env; eauto.
  - intros fd Hin. destruct (co_open _ _ _ _ Hok fd Hin) as [f Hx]. exists f. eapply (fr_fd _ _ _ (ok_frame _ _ _ Hk)); eauto.
  - intros fd Hin. eapply untouched_frame; [apply Hk|done|apply Hf; set_solver|by apply Hok].
Qed.

(** or something on the descriptors [D], which are nobody's. *)
Lemma crew_ok_frame H Q cr w k D :
  crew_ok H Q cr w → frame D (obs (kern w)) (obs k) →
  (∀ fd i c, is_Some (fdt (obs (kern w)) !! fd) → D fd → serves cr i c → ¬ owned c (jobs (res w)) fd) →
  (∀ fd, fd ∈ Q → ¬ D fd) → (∀ fd, fd ∈ H → is_Some (fdt (obs k) !! fd)) → crew_ok H Q cr (set_kern k w).
Proof.
  intros Hok Hf Hn Hq Hh. pose proof (wo_wf _ (co_world _ _ _ _ Hok)) as Hw. eapply crew_ok_env; [done|..].
  - destruct Hok as [[? ? ? Hc]]. split; simpl; try done; [by eapply frame_wf|by eapply cache_ok_frame].
  - intros i c Hi. destruct (co_conn _ _ _ _ Hok i c Hi) as [fc Hinv]. apply (frame_env fc _ _ _ D); [done|done|]. eauto.
  - intros fd [?|Hin]%elem_of_app; [by apply Hh|]. destruct (co_open _ _ _ _ Hok fd) as [f Hfd]; [set_solver|].
    exists f. apply (fr_fd _ _ _ Hf); auto.
  - intros fd Hin. eapply untouched_frame; [apply Hf|done|by apply Hq|by apply Hok].
Qed.

(** ** One thread acts *)

(** Its connection is taken out, *)
Lemma crew_take ws H Q cr i c w :
  crew_inv ws H Q cr w → serves cr i c →
  let cr0 := <[i := None]> cr in
  crew_ok H Q cr0 w ∧ stranger (H ++ Q) cr0 c w ∧ among ws (crew_held cr0) (crew_fd (H ++ Q) cr0) c w ∧
  accounted (crew_fd (H ++ Q) cr0) c (obs (kern w)) (jobs (res w)).
Proof.
  intros [Hok Hsh Hacc] Hi cr0. assert (i < length cr)%nat as Hlt by by eapply lookup_lt_Some.
  assert (cr0 !! i = Some None) as H0 by by apply list_lookup_insert_eq.
  assert (cr = <[i := Some c]> cr0) as Hcr by by unfold cr0; rewrite crew_take_put, list_insert_id.
  rewrite Hcr, crew_held_put in Hsh by done. destruct (co_conn _ _ _ _ Hok i c Hi) as [fc Hinv].
  assert (stranger (H ++ Q) cr0 c w) as Hst.
  { split; [intros j d [Hne Hj]%serves_none; by eapply (co_apart _ _ _ _ Hok i j)|]. intros fd Hin. by eapply (co_free _ _ _ _ Hok). }
  split_and!; [|done|split|].
  - destruct Hok as [? Hc Hap Ho Hf ? ?]. split; try done.
    + intros j d [_ Hj]%serves_none. eauto.
    + intros j n d e Hne [_ Hj]%serves_none [_ Hn]%serves_none. eauto.
    + intros fd j d Hin [_ Hj]%serves_none. eauto.
  - eapply shared_mono, Hsh. intros fd Hfd. by apply crew_fd_put.
  - intros fd [Hin|(j & d & Hj & Hs)] Hsk; [by eapply (sg_free _ _ _ _ Hst), sock_owned|].
    destruct (sg_conn _ _ _ _ Hst j d Hj) as [Hap _]. eapply (Hap fd); [|by apply sock_owned..].
    eapply owned_open; [exact Hinv|by apply sock_owned|apply Hsk].
  - by eapply inv_sockets.
  - intros j Hj (n & d & Hn & Hd)%elem_of_crew_held. destruct (sg_conn _ _ _ _ Hst n d Hn) as [_ Hap]. by eapply Hap.
  - intros fd Hs. destruct (Hacc fd Hs) as [Hfd|?]; [|by right; right; right]. rewrite Hcr in Hfd.
    apply crew_fd_put in Hfd as [?|[_ [?|?]]]; auto.
Qed.

(** and put (back) in. *)
Lemma crew_put ws H Q cr i fc c w :
  crew_ok H Q cr w → cr !! i = Some None → inv fc c w → stranger (H ++ Q) cr c w →
  among ws (crew_held cr) (crew_fd (H ++ Q) cr) c w → accounted (crew_fd (H ++ Q) cr) c (obs (kern w)) (jobs (res w)) →
  crew_inv ws H Q (<[i := Some c]> cr) w.
Proof.
  intros Hok Hi Hinv [Hc Hfr] Ha Hacc. pose proof (wo_wf _ (co_world _ _ _ _ Hok)) as Hw. split.
  - destruct Hok as [? Hcs Hap Ho Hf ? ?]. split; try done.
    + intros j d [(_ & [= <-] & _)|[_ Hj]]%serves_insert; eauto.
    + intros j n d e Hne [(<- & [= <-] & _)|[_ Hj]]%serves_insert [(<- & [= <-] & _)|[_ Hn]]%serves_insert; try done; eauto.
      apply apart_sym. eauto.
    + intros fd j d Hin [(_ & [= <-] & _)|[_ Hj]]%serves_insert; eauto.
  - rewrite crew_held_put by done. eapply shared_mono, Ha. intros fd Hfd. by apply crew_fd_put in Hfd.
  - intros fd Hs. assert (0 ≤ fd) as Hp by (destruct Hs as [f Hf]; by eapply (ow_pos _ Hw)). rewrite crew_fd_put by done.
    destruct (Hacc fd Hs) as [?|[?|[?|?]]]; [auto|left; right; split; auto..|auto].
Qed.

(** [on_ready], *)
Lemma crew_ready cfg ws H Q cr i c w :
  crew_inv ws H Q cr w → serves cr i c →
  crew_inv ws H Q (<[i := Some (on_ready cfg c w).1]> cr) (on_ready cfg c w).2.
Proof.
  intros Hcw Hi. destruct (crew_take _ _ _ _ _ _ _ Hcw Hi) as (Hok & [Hsc Hsf] & Ha & Hacc).
  destruct (co_conn _ _ _ _ (cw_ok _ _ _ _ _ Hcw) i c Hi) as [fc Hinv]. pose proof (on_ready_ok cfg fc _ _ _ Hinv) as Hst.
  pose proof (on_ready_ok cfg fc _ _ _ (inv_with _ _ _ _ Hinv Hacc)) as [[[_ _ _ _ _ Hacc'] _] _ _ _ _].
  apply (on_ready_among _ _ _ cfg _ _ _ _ Hinv) in Ha. rewrite <-(crew_take_put cr i).
  pose proof (wo_wf _ (co_world _ _ _ _ Hok)) as Hw. eapply crew_put; [| |apply Hst| |done|done].
  - eapply crew_ok_step; [done|by eapply step_others|by split].
  - apply list_lookup_insert_eq. by eapply lookup_lt_Some.
  - split; [|intros fd Hin; eapply step_foreign; eauto; by apply Hok].
    intros j d Hj. destruct (co_conn _ _ _ _ Hok j d Hj) as [fd Hd]. eapply (step_apart fc fd); eauto.
Qed.

(** the end of a connection's scope, *)
Lemma crew_destroy ws H Q cr i c w :
  crew_inv ws H Q cr w → serves cr i c → crew_inv ws H Q (<[i := None]> cr) (Connection_destroy c w).
Proof.
  intros Hcw Hi. destruct (crew_take _ _ _ _ _ _ _ Hcw Hi) as (Hok & Hst & Ha & Hacc).
  destruct (co_conn _ _ _ _ (cw_ok _ _ _ _ _ Hcw) i c Hi) as [fc Hinv]. split.
  - eapply crew_ok_step; [done|by eapply (destroy_ok fc)|done].
  - by apply destroy_among.
  - intros fd Hs. by eapply (destroy_acc fc), Hs; apply inv_with.
Qed.

(** and its beginning: a thread takes one of the clients that wait. *)
Lemma crew_new ws H Q cr i fd id w :
  crew_inv ws H (fd :: Q) cr w → cr !! i = Some None →
  crew_inv ws H Q (<[i := Some (Connection_new fd id w).1]> cr) (Connection_new fd id w).2.
Proof.
  intros [Hok Hsh Hacc] Hi. pose proof Hok as [Hwo Hcs Hap Hop Hfr Hq Hnd]. pose proof (wo_wf _ Hwo) as Hw.
  destruct (Hq fd) as (fc & Hown & Hs & Hr & _); [set_solver|].
  assert (fd ∉ H ++ Q ∧ NoDup (H ++ Q)) as [Hnin Hnd'] by (rewrite <-Permutation_middle in Hnd; by apply NoDup_cons in Hnd).
  assert (fresh_client fd fc w) as Hfc by (destruct Hwo; by split). destruct (Connection_new_inv fd id fc w Hfc) as [Hinv Hf].
  unfold Connection_new in *. destruct (set_nonblocking fd (kern w)) as [b k] eqn:E. cbn [fst snd] in *.
  assert (fdt (obs k) = fdt (obs (kern w))) as Ht by by apply set_nonblocking_spec in E as [[-> _]|(_ & f & fl & _ & -> & _)].
  set (c := mkConn fd _ _ _ _ _ _ _ _ _ _ _ _ _ _ _ _ _ _ _) in *.
  assert (∀ x, is_Some (fdt (obs (kern w)) !! x) → owned c (jobs (res w)) x → x = fd) as Hone.
  { intros x [f Hx] [?|[->|(j & jb & ? & _)]]; [done| |done]. apply (ow_pos _ Hw) in Hx. simpl in Hx. lia. }
  assert (crew_ok H Q cr (set_kern k w)) as Hok'.
  { apply (crew_ok_frame _ _ _ _ _ (λ x, x = fd)); [|done| | |].
    - split; try done; [intros x ?; apply Hop|intros x j d ?; apply Hfr|intros x ?; apply Hq]; set_solver.
    - intros x j d _ -> Hj. eapply Hfr; [set_solver|done].
    - intros x Hin ->. apply Hnin. set_solver.
    - intros x Hin. rewrite Ht. apply Hop. set_solver. }
  assert (∀ x, crew_fd (H ++ Q) cr x → crew_fd (H ++ fd :: Q) cr x) as Hsub by (intros x; apply crew_fd_mono; set_solver).
  assert (∀ x, sock c x → x = fd) as Hsock by (intros x [? [->| ->]]; [done|simpl in *; lia]).
  apply crew_put with (fc := fc); try done.
  - split; [|intros x Hin Ho; apply Hnin; rewrite <-(Hone x); [done|rewrite <-Ht; by apply Hok'|done]].
    intros j d Hj. split; [|done]. simpl. rewrite Ht. intros x Hx Ho. rewrite (Hone x Hx Ho). eapply Hfr; [set_solver|done].
  - split; try done.
    + unfold job_of. simpl. rewrite (left_id_L ∅ (∪)). eapply shared_same; [exact Hsh|apply Hok'|done|done| |eapply rinv_kern, Hsh].
      intros x [?| ->%Hsock]; [auto|left; set_solver].
    + intros x Hx ->%Hsock. destruct Hx as [?|(j & d & Hj & Hs')]; [done|]. eapply Hfr; [|exact Hj|by apply sock_owned]. set_solver.
    + simpl. destruct Hown. lia.
  - intros x. simpl. rewrite Ht. intros Hx. destruct (Hacc x Hx) as [[Hin|?]|?]; [|left; by right|auto].
    destruct (decide (x = fd)) as [->|]; [auto|]. left; left. set_solver.
Qed.

(** ** The others act *)

(** Nothing observable happens; the flag and the counters of the resolver may change. *)
Lemma crew_quiet ws H Q cr w k r :
  crew_inv ws H Q cr w → silent (kern w) k → jobs r = jobs (res w) → next_job r = next_job (res w) →
  cache_ r = cache_ (res w) → queue_ r = queue_ (res w) → crew_inv ws H Q cr (mkWorld k r (rcache w)).
Proof.
  intros [Hok Hsh Hacc] Hk Hj Hn Hc Hq. unfold silent in Hk. pose proof (co_world _ _ _ _ Hok) as [Hw Hfr Hd Hca].
  assert (world_ok (mkWorld k r (rcache w))) as Hwo.
  { split; simpl; rewrite ?Hk; try done; [|by unfold cache_filled; rewrite Hc]. intros j. rewrite Hj, Hn. apply Hfr. }
  split; simpl; rewrite ?Hk, ?Hj; [|..|done].
  - eapply crew_ok_env; [done|done|..]; simpl; rewrite ?Hk.
    + intros i c _. split; simpl; rewrite ?Hk; try done; [by apply wframe_refl|by apply Hwo|by apply Hwo|].
      intros j jb _ Hjb. exists jb. rewrite Hj. auto.
    + apply Hok.
    + intros fd Hin. destruct (co_queue _ _ _ _ Hok fd Hin) as (fc & Hu). exists fc. simpl. by rewrite Hk.
  - eapply shared_same; [exact Hsh|by rewrite Hk|by rewrite Hk|done|done|].
    eapply rinv_same; [..|apply Hsh]; try done. simpl. intros key e. rewrite Hc. apply (ri_cache _ (sh_rinv _ _ _ _ _ Hsh)).
Qed.

Lemma crew_silent ws H Q cr w k : crew_inv ws H Q cr w → silent (kern w) k → crew_inv ws H Q cr (set_kern k w).
Proof. intros ? ?. by apply crew_quiet. Qed.

(** A resolver thread takes a step. *)
Lemma crew_worker a pc b pc' r' k' H Q cr w :
  crew_inv (a ++ pc :: b) H Q cr w → worker_step pc (res w) (kern w) = Some (pc', r', k') →
  crew_inv (a ++ pc' :: b) H Q cr (set_res r' k' w).
Proof.
  intros [Hok Hsh Hacc] Hst. pose proof (worker_step_acts _ _ _ _ _ _ _ _ _ _ Hsh Hst) as [Hf _ _ _ _ Hopen].
  pose proof (worker_shared _ _ _ _ _ _ _ _ _ _ Hsh Hst) as Hsh'. pose proof (co_world _ _ _ _ Hok) as [Hw _ _ Hc].
  assert (∀ fd, fd ∈ H ++ Q → ¬ worker_fd (crew_held cr) pc (res w) fd) as Hno.
  { intros fd Hin Hwf%worker_fd_job. destruct (sh_apart _ _ _ _ _ Hsh fd) as [_ ?]; [by left|done]. }
  split; [|done|].
  - eapply crew_ok_env; [done|..].
    + destruct (sh_rinv _ _ _ _ _ Hsh') as [_ _ _ _ I5 I6 _]. split; simpl; try done; [by eapply frame_wf| |by eapply cache_ok_frame].
      intros j [jb Hj]. by destruct (I5 j jb Hj) as (_ & _ & ?).
    + intros i c Hi. eapply worker_env; [exact Hsh|exact Hst|..|exact Hc].
      * intros fd Hs. right. eauto.
      * intros j Hj. apply elem_of_crew_held. eauto.
    + intros fd Hin. destruct (co_open _ _ _ _ Hok fd Hin) as [f Hx]. exists f. apply (fr_fd _ _ _ Hf); auto.
    + intros fd Hin. eapply (untouched_frame _ w); [apply Hf|done|apply Hno; set_solver|by apply Hok].
  - intros fd Hs. destruct (Hopen fd Hs) as [Hs0 Hj]. destruct (Hacc fd Hs0); auto.
Qed.

(** The accepting thread has a new client, *)
Lemma crew_opened ws H Q cr w fd k :
  crew_inv ws H Q cr w → opened fd (kern w) k → crew_inv ws H (fd :: Q) cr (set_kern k w).
Proof.
  intros [Hok Hsh Hacc] (Hpos & Hnone & Ho). pose proof (wo_wf _ (co_world _ _ _ _ Hok)) as Hw.
  pose proof (frame_open fd _ Hw Hpos Hnone) as Hf. rewrite <-Ho in Hf.
  assert (fdt (obs k) = <[fd := nfiles (obs (kern w))]> (fdt (obs (kern w)))) as Ht by by rewrite Ho.
  assert (∀ x, is_Some (fdt (obs (kern w)) !! x) → x ≠ fd ∧ is_Some (fdt (obs k) !! x)) as Hold.
  { intros x Hx. split; [by intros ->; destruct Hx; congruence|]. rewrite Ht. apply lookup_insert_is_Some'. by right. }
  assert (crew_ok H Q cr (set_kern k w)) as [? Hcs Hap Hop Hfr Hq Hnd].
  { apply (crew_ok_frame _ _ _ _ _ (λ _, False)); try done; [auto|]. intros x Hin. apply Hold, Hok. set_solver. }
  assert (∀ x, x ∈ H ++ fd :: Q → x = fd ∨ x ∈ H ++ Q) as Hin by set_solver. split.
  - split; try done.
    + intros x [->|?]%Hin; [simpl; by rewrite Ht, lookup_insert_eq|by apply Hop].
    + intros x i c [->|?]%Hin Hi; [|by eapply Hfr]. intros Hown. destruct (co_conn _ _ _ _ Hok i c Hi) as [fc Hinv].
      destruct (owned_open _ _ _ _ _ Hinv Hown Hpos). congruence.
    + intros x [->|?]%elem_of_cons; [|by apply Hq]. exists (nfiles (obs (kern w))). simpl. rewrite Ho. simpl.
      unfold owns. simpl. rewrite lookup_insert_eq, !fn_lookup_insert. split_and!; try done.
      intros kq d. apply eq_None_not_Some. intros [u Hu]. apply (ow_regs _ Hw) in Hu as [f Hx]. by rewrite Hnone in Hx.
    + rewrite <-Permutation_middle. apply NoDup_cons. split; [|done]. intros Hx%(co_open _ _ _ _ Hok). destruct Hx. congruence.
  - eapply shared_keep; [exact Hsh|by eapply frame_wf|eauto|..|eapply rinv_kern, Hsh].
    + intros j jb x _ _ Hx. by apply Hold.
    + intros x HX. assert (crew_fd (H ++ Q) cr x ∨ x = fd) as [HX0| ->].
      { destruct HX as [[->|?]%Hin|?]; [by right|left; by left|left; by right]. }
      * split; [apply Hold, (sh_apart _ _ _ _ _ Hsh x HX0)|by left].
      * simpl. rewrite Ht, lookup_insert_eq. eauto.
  - intros x. simpl. rewrite Ht. intros [f [[<- _]|[_ Hx]]%lookup_insert_Some]; [left; left; set_solver|].
    destruct (Hacc x) as [?|?]; [by eexists|left; eapply crew_fd_mono; [|done]; set_solver|auto].
Qed.

(** or closes one of the descriptors that no connection has. *)
Lemma crew_closed ws H H1 Q Q1 cr w fd :
  crew_inv ws H Q cr w → H ++ Q ≡ₚ fd :: H1 ++ Q1 → (∀ x, x ∈ Q1 → x ∈ Q) →
  crew_inv ws H1 Q1 cr (set_kern (sys_close fd (kern w)) w).
Proof.
  intros [Hok Hsh Hacc] Hp HQ. pose proof (wo_wf _ (co_world _ _ _ _ Hok)) as Hw.
  pose proof (frame_close fd _ Hw) as Hf. rewrite <-(close_ok fd (kern w)) in Hf.
  pose proof (co_nodup _ _ _ _ Hok) as Hnd. rewrite Hp in Hnd. apply NoDup_cons in Hnd as [Hnin Hnd].
  assert (∀ x, x ∈ H1 ++ Q1 → x ∈ H ++ Q) as Hsub by (intros x Hx; rewrite Hp; set_solver).
  assert (fd ∈ H ++ Q) as Hfd by (rewrite Hp; set_solver).
  assert (∀ x, x ≠ fd → fdt (obs (sys_close fd (kern w))) !! x = fdt (obs (kern w)) !! x) as Hne.
  { intros x Hx. rewrite close_ok. simpl. by rewrite lookup_delete_ne. }
  split.
  - apply (crew_ok_frame _ _ _ _ _ (λ x, x = fd)); [|done| | |].
    + destruct Hok as [? ? ? Ho Hfr Hq _]. split; try done; [intros x ?; apply Ho|intros x i c ?; apply Hfr|intros x ?; apply Hq]; auto.
    + intros x i c _ ->. by apply Hok.
    + intros x Hin ->. set_solver.
    + intros x Hin. rewrite Hne; [apply Hok, Hsub; set_solver|]. intros ->. set_solver.
  - eapply shared_keep; [exact Hsh|by eapply frame_wf|eauto|..|eapply rinv_kern, Hsh]; simpl.
    + intros j jb x Hjb He Hx. rewrite Hne; [done|]. intros ->.
      apply (proj2 (sh_apart _ _ _ _ _ Hsh fd (or_introl Hfd))). by exists j, jb.
    + intros x HX. assert (crew_fd (H ++ Q) cr x) as HX0 by (eapply crew_fd_mono; [exact Hsub|done]). split; [|by left].
      rewrite Hne; [by apply (sh_apart _ _ _ _ _ Hsh)|]. intros ->. destruct HX as [?|(i & c & Hi & Hs)]; [done|].
      by eapply (co_free _ _ _ _ Hok fd i c), sock_owned.
  - intros x. simpl. rewrite close_ok. simpl. intros [f [Hxn Hx]%lookup_delete_Some].
    destruct (Hacc x) as [[Hin|?]|?]; [by eexists|left; left|left; by right|auto]. rewrite Hp in Hin. set_solver.
Qed.

(** The order does not matter, nor how many threads serve nobody. *)
Lemma crew_perm ws H Q Q' cr w : Q ≡ₚ Q' → crew_inv ws H Q cr w → crew_inv ws H Q' cr w.
Proof.
  intros Hp [[? ? ? Ho Hfr Hq Hnd] Hsh Hacc]. assert (∀ x, x ∈ H ++ Q' → x ∈ H ++ Q) as Hin by (intros x; by rewrite Hp).
  split; [split; try done|..].
  - intros x ?. auto.
  - intros x i c ?. apply Hfr. auto.
  - intros x. rewrite <-Hp. apply Hq.
  - by rewrite <-Hp.
  - eapply shared_mono, Hsh. intros x. by apply crew_fd_mono.
  - intros x Hs. destruct (Hacc x Hs); [left|by right]. eapply crew_fd_mono; [|done]. intros y. by rewrite Hp.
Qed.

Lemma crew_same ws H Q cr cr' w : (∀ i c, serves cr' i c ↔ serves cr i c) → crew_inv ws H Q cr w → crew_inv ws H Q cr' w.
Proof.
  intros Hcr [[? Hc Hap ? Hfr ? ?] Hsh Hacc]. assert (crew_held cr' = crew_held cr) as Hh.
  { apply set_eq. intros j. rewrite !elem_of_crew_held. by setoid_rewrite Hcr. }
  split; [split; try done|..].
  - intros i c ?%Hcr. eauto.
  - intros i j c d ? ?%Hcr ?%Hcr. eauto.
  - intros x i c ? ?%Hcr. eauto.
  - rewrite Hh. eapply shared_mono, Hsh. intros x [?|(i & c & ?%Hcr & ?)]; [by left|right; eauto].
  - intros x Hs. destruct (Hacc x Hs) as [[?|(i & c & ?%Hcr & ?)]|?]; [left; by left|left; right; eauto|by right].
Qed.
End crew.

(** ** The flag of the resolver *)

Section closed.
Context {K C : Type} `{!Kernel K, !ResponseCache C}.
Implicit Type w : World K C.

Lemma drop_ptr_closed o r (k : K) : closed_ (drop_ptr o r k).1 = closed_ r.
Proof. unfold drop_ptr, drop_job. destruct o as [j|]; [|done]. destruct (jobs r !! j); [|done]. by case_bool_decide. Qed.

Lemma finish_closed c w : closed_ (res (finish c w).2) = closed_ (res w).
Proof.
  unfold finish, resolve_job_reset, upstream_reset, client_reset. simpl.
  pose proof (drop_ptr_closed (resolve_job_ c) (res w) (kern w)) as H. destruct (drop_ptr _ _ _) as [r k]. exact H.
Qed.

Lemma fail_with_closed v c w : closed_ (res (fail_with v c w).2) = closed_ (res w).
Proof. done. Qed.

Lemma connect_loop_closed n c w : closed_ (res (connect_loop n c w).2) = closed_ (res w).
Proof.
  revert c w. induction n as [|n IH]; intros c w; simpl; [done|]. destruct (_ !! _); [|done].
  destruct (start_connect _ _) as [[[] fd] k]; try done. by rewrite IH.
Qed.

Lemma cache_get_closed key out r (k : K) : closed_ (cache_get key out r k).1.2 = closed_ r.
Proof. unfold cache_get. destruct (cache_ r !! key); [|done]. destruct (sys_now k). by destruct (_ <=? _). Qed.

Lemma resolve_blocking_closed host port out r (k : K) : closed_ (resolve_blocking host port out r k).1.2 = closed_ r.
Proof.
  unfold resolve_blocking. pose proof (cache_get_closed (dns_key host port) out r k) as H. destruct (cache_get _ _ _ _) as [[[[] o] r1] k1]; [done|].
  unfold do_lookup, cache_put. destruct (resolve _ _ _ _) as [[ok o'] k2]. destruct ok; [|done]. simpl in *. destruct (_ <=? 0); [done|].
  by destruct (sys_now k2).
Qed.

Lemma start_closed host port out job r (k : K) : closed_ (start host port out job r k).1.2 = closed_ r.
Proof.
  unfold start. pose proof (cache_get_closed (dns_key host port) out r k) as H. destruct (cache_get _ _ _ _) as [[[[] o] r1] k1]; [done|].
  destruct (make_pipe _ _ _) as [[[[] re] we] k2]; [|done]. simpl in *. destruct (closed_ r1) eqn:Hc; [simpl; congruence|].
  match goal with |- context [drop_ptr ?o ?r ?k] => pose proof (drop_ptr_closed o r k) as H1; destruct (drop_ptr o r k) end.
  simpl in *. congruence.
Qed.

Lemma begin_resolve_closed cfg c w : closed_ (res (begin_resolve cfg c w).2) = closed_ (res w).
Proof.
  unfold begin_resolve, begin_connect. destruct (negb _).
  - pose proof (resolve_blocking_closed (host (req_ c)) (port (req_ c)) (endpoints_ c) (res w) (kern w)) as H.
    destruct (resolve_blocking _ _ _ _ _) as [[[ok eps] r] k]. destruct ok; [|done]. simpl. by rewrite connect_loop_closed.
  - pose proof (start_closed (host (req_ c)) (port (req_ c)) (endpoints_ c) (resolve_job_ c) (res w) (kern w)) as H.
    destruct (start _ _ _ _ _ _) as [[[[st eps] job] r] k]. destruct st; try done. by rewrite connect_loop_closed.
Qed.

Lemma request_known_closed cfg c w : closed_ (res (request_known cfg c w).2) = closed_ (res w).
Proof.
  unfold request_known. destruct (_ <? _); [done|]. destruct (rcache w) as [rc|]; [|apply begin_resolve_closed].
  destruct (cacheable_request _ _); [|apply begin_resolve_closed]. destruct (rc_get _ rc) as [[cached|] rc']; [done|].
  by rewrite begin_resolve_closed.
Qed.

Lemma finish_resolve_closed c w : closed_ (res (finish_resolve c w).2) = closed_ (res w).
Proof.
  unfold finish_resolve, begin_connect. destruct (resolve_job_ c) as [j|]; [|done]. destruct (jobs _ !! j) as [jb|]; [|done].
  destruct (sys_read _ _ _) as [a k]. destruct (j_ready jb); [|done]. simpl.
  assert (∀ c1 w1, closed_ (res (resolve_job_reset c1 w1).2) = closed_ (res w1)) as Hr.
  { intros c1 w1. unfold resolve_job_reset. pose proof (drop_ptr_closed (resolve_job_ c1) (res w1) (kern w1)) as H.
    by destruct (drop_ptr _ _ _). }
  destruct (j_ok jb).
  - match goal with |- context [resolve_job_reset ?c1 ?w1] => pose proof (Hr c1 w1) as H; destruct (resolve_job_reset c1 w1) end.
    simpl in *. rewrite connect_loop_closed. exact H.
  - match goal with |- context [resolve_job_reset ?c1 ?w1] => pose proof (Hr c1 w1) as H; destruct (resolve_job_reset c1 w1) end.
    exact H.
Qed.

(** Nothing a connection does opens or closes the resolver. *)
Lemma on_ready_closed cfg c w : closed_ (res (on_ready cfg c w).2) = closed_ (res w).
Proof.
  unfold on_ready. destruct (want_ c).
  - unfold do_read_client. destruct (read_some _ _ _) as [[[] bs] k]; rewrite ?finish_closed; try done.
    destruct (parsed_ _); [by rewrite request_known_closed|]. destruct (parse_request _ _) as [[] req]; try done.
    + by destruct (_ <? _).
    + destruct (_ <? _); [done|by rewrite request_known_closed].
  - unfold do_write_client. destruct (write_some _ _ _) as [[[] n] k]; rewrite ?finish_closed; try done.
    destruct (_ <? _); [done|]. destruct (_ || _); [by rewrite finish_closed|done].
  - unfold do_read_upstream. destruct (read_some _ _ _) as [[[] bs] k]; rewrite ?finish_closed; try done.
    pose proof (λ c w, proj1 (store_in_cache_shares c w)) as Hs. destruct (upstream_reset _ _ _) as [c2 w2] eqn:E.
    assert (res w2 = res w) as Hr by by unfold upstream_reset, Fd_reset in E; simplify_eq.
    destruct (_ <=? _); rewrite ?finish_closed; simpl; rewrite Hs; congruence.
  - destruct (bool_decide _).
    + unfold finish_connect, begin_connect. destruct (connect_succeeded _ _) as [[] k]; [done|]. simpl. by rewrite connect_loop_closed.
    + unfold do_write_upstream. destruct (write_some _ _ _) as [[[] n] k]; try done. by destruct (_ <? _).
  - apply finish_resolve_closed.
  - apply finish_closed.
Qed.

Lemma destroy_closed c w : closed_ (res (Connection_destroy c w)) = closed_ (res w).
Proof.
  unfold Connection_destroy, resolve_job_reset. pose proof (drop_ptr_closed (resolve_job_ c) (res w) (kern w)) as H.
  by destruct (drop_ptr _ _ _).
Qed.
End closed.
