(* ===== verification/ThreadProgram.v ===== *)
(** * Backends that give each connection to a thread

[ThreadBackend] is what [main] and the resolver know of such a backend: what
its threads may do next, which connections they serve, which clients wait for one, and
whether [run] has returned.  [ThreadBackendLaws] is what it promises: whatever a
thread of it does, the connections stay consistent and every descriptor is accounted
for.  The program around it, from the call of [run] to the end of [main]
([main.cpp]), is defined and verified here against that promise; the thread pool and
the thread-per-connection backend keep it in [PoolProgram.v] and
[TpcProgram.v]. *)
From S2P Require Import Prelude CppString Http Config Cache CacheSpec Kernel Socket Resolver ResolverSpec.
From S2P Require Import Connection ConnectionInv ConnectionSpec EventLoop EventLoopInv ConnResolver EventThreads ProxyEnd Crew ThreadPerConn.

(** ** Serving a connection, step by step *)

(** Where a thread is in the loop that serves its connection. *)
Inductive ServePc :=
| SWait (c : Connection)       (* at the test of the loop *)
| SReady (c : Connection)      (* what it waited for is ready *)
| SEnd (c : Connection).       (* out of the loop, the connection still exists *)

Definition serve_conn (pc : ServePc) : Connection := match pc with SWait c | SReady c | SEnd c => c end.

Section serve.
Context {K C : Type} `{!Kernel K, !ResponseCache C}.
Implicit Type w : World K C.

(** One step; [None] when the connection has been destroyed. *)
Definition serve_step (cfg : Config) (pc : ServePc) w : option ServePc * World K C :=
  match pc with
  | SWait c =>
      if done_ c then (Some (SEnd c), w) else
      let fd := want_fd c w in
      if fd <? 0 then (Some (SEnd c), w) else
      let '(ready, k) := wait_ready fd (want_write c) (poll_timeout_ms cfg) (kern w) in
      (Some (if ready : bool then SReady c else SEnd c), set_kern k w)
  | SReady c => let '(c, w) := on_ready cfg c w in (Some (SWait c), w)
  | SEnd c => (None, Connection_destroy c w)
  end.

(** A thread that is not disturbed. *)
Fixpoint serve_steps (cfg : Config) (n : nat) (o : option ServePc) w : option ServePc * World K C :=
  match n, o with
  | S n', Some pc => let '(o, w) := serve_step cfg pc w in serve_steps cfg n' o w
  | _, _ => (o, w)
  end.

Lemma serve_steps_done cfg n w : serve_steps cfg n None w = (None, w).
Proof. by destruct n. Qed.

(** If it comes to the end of the scope, it has done what [serve] does, for
enough rounds of the loop. *)
Lemma stepping_is_serve cfg n c w w' :
  serve_steps cfg n (Some (SWait c)) w = (None, w') →
  ∃ m, let '(c', w1) := serve_loop cfg m c w in w' = Connection_destroy c' w1.
Proof.
  revert n c w. induction n as [n IH] using lt_wf_ind. intros c w E. destruct n as [|n]; [done|]. cbn [serve_steps serve_step] in E.
  assert (∀ c1 w1, serve_steps cfg n (Some (SEnd c1)) w1 = (None, w') → w' = Connection_destroy c1 w1) as Hend.
  { intros c1 w1. destruct n; [done|]. simpl. rewrite serve_steps_done. by intros [= <-]. }
  destruct (done_ c) eqn:Hd; [exists 0%nat; by apply Hend|]. destruct (want_fd c w <? 0) eqn:Hf; [exists 0%nat; by apply Hend|].
  destruct (wait_ready _ _ _ _) as [ready k] eqn:Ew. destruct ready.
  - destruct n as [|n]; [done|]. cbn [serve_steps serve_step] in E. destruct (on_ready cfg c _) as [c1 w1] eqn:Er.
    destruct (IH n ltac:(lia) c1 w1 E) as [m Hm]. exists (S m). cbn [serve_loop]. by rewrite Hd, Hf, Ew, Er.
  - exists 1%nat. cbn [serve_loop]. rewrite Hd, Hf, Ew. simpl. by apply Hend.
Qed.
End serve.

Lemma serve_step_closed {K C} `{!Kernel K, !ResponseCache C} cfg pc (w : World K C) :
  closed_ (res (serve_step cfg pc w).2) = closed_ (res w).
Proof.
  destruct pc as [c|c|c]; simpl.
  - destruct (done_ c); [done|]. destruct (_ <? 0); [done|]. by destruct (wait_ready _ _ _ _).
  - pose proof (on_ready_closed cfg c w) as H. by destruct (on_ready cfg c w).
  - apply destroy_closed.
Qed.

(** Among others, a step keeps everything consistent. *)
Lemma crew_serve {K C} `{!Kernel K, !KernelLaws K, !ResponseCache C, !ResponseCacheLaws C} cfg ws H Q cr i pc (w : World K C) :
  crew_inv ws H Q cr w → serves cr i (serve_conn pc) →
  crew_inv ws H Q (<[i := serve_conn <$> (serve_step cfg pc w).1]> cr) (serve_step cfg pc w).2.
Proof.
  intros Hcw Hi. destruct pc as [c|c|c]; simpl in *.
  - destruct (done_ c); [simpl; by rewrite list_insert_id|]. destruct (_ <? 0); [simpl; by rewrite list_insert_id|].
    destruct (wait_ready _ _ _ _) as [ready k] eqn:E. apply wait_ready_silent in E. simpl.
    rewrite list_insert_id; [by apply crew_silent|]. by destruct ready.
  - pose proof (crew_ready cfg _ _ _ _ i c w Hcw Hi) as Hr. by destruct (on_ready cfg c w).
  - by apply crew_destroy.
Qed.

(** ** The interface *)

Class ThreadBackend (B : Type) := {
  tb_act : Type;                                             (* who does something *)
  tb_exec {K C : Type} `{!Kernel K, !ResponseCache C} :
    Config → Z → tb_act → B → World K C → option (B * World K C);   (* given the listener *)
  tb_conns : B → Crew;
  tb_clients : B → list Z;                                   (* accepted, without a connection *)
  tb_members : B → list Z;                                   (* what the destructor closes beside the listener *)
  tb_returned : B → bool                                     (* [run] has returned *)
}.

(** No thread has a connection any more, or is going to. *)
Definition tb_idle {B} `{!ThreadBackend B} (b : B) : Prop :=
  Forall (eq None) (tb_conns b) ∧ ∀ fd, fd ∈ tb_clients b → fd ∈ tb_members b.

Class ThreadBackendLaws (B : Type) `{!ThreadBackend B} : Prop := {
  tb_keeps {K C} `{!Kernel K, !KernelLaws K, !ResponseCache C, !ResponseCacheLaws C}
    cfg ws listener F a b (w : World K C) b' w' :
    crew_inv ws (listener :: F) (tb_clients b) (tb_conns b) w → tb_exec cfg listener a b w = Some (b', w') →
    crew_inv ws (listener :: F) (tb_clients b') (tb_conns b') w';
  tb_closed {K C} `{!Kernel K, !ResponseCache C} cfg listener a b (w : World K C) b' w' :
    tb_exec cfg listener a b w = Some (b', w') → closed_ (res w') = closed_ (res w);
  tb_stays {K C} `{!Kernel K, !ResponseCache C} cfg listener a b (w : World K C) b' w' :
    tb_exec cfg listener a b w = Some (b', w') → tb_returned b = true → tb_returned b' = true;
  tb_members_wait b fd : fd ∈ tb_members b → fd ∈ tb_clients b
}.

(** ** The program *)

Inductive ProgPc :=
| PgRun                                        (* in [backend->run] *)
| PgJoin                                       (* in [resolver.shutdown()], joining *)
| PgLeave                                      (* about to destroy what is left *)
| PgExit.

#[export] Instance ProgPc_eq_dec : EqDecision ProgPc.
Proof. solve_decision. Defined.

Record Prog (B K C : Type) := mkProg {
  pg_world : World K C;
  pg_backend : B;
  pg_main : ProgPc;
  pg_resolvers : list WorkerPc;
  pg_listener : Z
}.
Arguments mkProg {B K C} _ _ _ _ _.
Arguments pg_world {B K C} _.
Arguments pg_backend {B K C} _.
Arguments pg_main {B K C} _.
Arguments pg_resolvers {B K C} _.
Arguments pg_listener {B K C} _.

Inductive ProgAct (A : Type) :=
| ByBackend (a : A)
| ByMain
| ByResolver (n : nat).
Arguments ByBackend {A} _.
Arguments ByMain {A}.
Arguments ByResolver {A} _.

Section program.
Context {B K C : Type} `{!ThreadBackend B, !Kernel K, !ResponseCache C}.
Context (cfg : Config).
Implicit Type x : Prog B K C.

(** The destructors of the backend and of the resolver. *)
Definition unwind x : World K C :=
  let w := pg_world x in
  let k := close_all (pg_listener x :: tb_members (pg_backend x)) (kern w) in
  let '(r, k) := drop_queue (queue_ (res w)) (set_queue [] (res w)) k in set_res r k w.

(** [main] after [run]; [None] while it waits in [join]. *)
Definition main_tail x : option (Prog B K C) :=
  let w := pg_world x in
  let go pc w := mkProg w (pg_backend x) pc (pg_resolvers x) (pg_listener x) in
  match pg_main x with
  | PgRun => if tb_returned (pg_backend x) then Some (go PgJoin (set_res (shutdown (res w)) (kern w) w)) else None
  | PgJoin => if forallb exited (pg_resolvers x) then Some (go PgLeave w) else None
  | PgLeave => Some (go PgExit (unwind x))
  | PgExit => None
  end.

(** Who acts, and what happens.  A thread that is still there when [main] is at its
end has lost what it works on; the model stops at that point. *)
Definition prog_exec (a : ProgAct tb_act) x : option (Prog B K C) :=
  let w := pg_world x in
  match a with
  | ByBackend a =>
      if bool_decide (pg_main x = PgExit) then None else
      '(b, w) ← tb_exec cfg (pg_listener x) a (pg_backend x) w;
      Some (mkProg w b (pg_main x) (pg_resolvers x) (pg_listener x))
  | ByMain => main_tail x
  | ByResolver n =>
      pc ← pg_resolvers x !! n; '(pc, r, k) ← worker_step pc (res w) (kern w);
      Some (mkProg (set_res r k w) (pg_backend x) (pg_main x) (<[n := pc]> (pg_resolvers x)) (pg_listener x))
  end.

Definition prog_step x x' : Prop := ∃ a, prog_exec a x = Some x'.
Definition prog_reach : Prog B K C → Prog B K C → Prop := rtc prog_step.

Definition prog_run (acts : list (ProgAct tb_act)) x : option (Prog B K C) := foldl (λ o a, o ≫= prog_exec a) (Some x) acts.

Lemma prog_run_steps acts x x' : prog_run acts x = Some x' → prog_reach x x'.
Proof.
  unfold prog_run. revert x. induction acts as [|a acts IH]; simpl; intros x; [by intros [= <-]|].
  destruct (prog_exec a x) as [y|] eqn:E.
  - intros H. eapply rtc_l; [by exists a|by apply IH].
  - intros H. exfalso. clear -H. induction acts; simpl in *; [done|auto].
Qed.

(** [run] is called: the listener becomes the backend's and is made non-blocking. *)
Definition prog_begin (listener : Z) (k : K) (r : Resolver) (rc : option C) (threads : nat) (b : B) : Prog B K C :=
  mkProg (mkWorld (set_nonblocking listener k).2 r rc) b PgRun (replicate threads Waiting) listener.
End program.
