(* ===== verification/ThreadSys.v ===== *)
(** * The program with a thread backend as a whole

[prog_inv] holds from the call of [run] to the end of [main] for every backend that
keeps the promise of [ThreadProgram.v], whatever its threads, the resolver threads and
the main thread do in whatever order.  From it: who owns which descriptor
([holder_unique], [holder_exists]), and what is open at the end. *)
From S2P Require Import Prelude CppString Http Config Cache CacheSpec Kernel Socket Resolver ResolverSpec.
From S2P Require Import Connection ConnectionInv ConnectionSpec EventLoop EventLoopInv ConnResolver LoopShared EventThreads ProxyEnd ProxySys ProxyStart.
From S2P Require Import Crew ThreadPerConn ThreadProgram.

(** Who has a descriptor: the backend itself, a client that waits for a thread, a
thread's connection (with its lookup), or a lookup whose connection has gone. *)
Inductive Holder :=
| HListener
| HWaiting
| HThread (i : nat)
| HLookup (n : nat).

Section program.
Context {B K C : Type} `{!ThreadBackend B, !ThreadBackendLaws B}.
Context `{!Kernel K, !KernelLaws K, !ResponseCache C, !ResponseCacheLaws C}.
Context (cfg : Config).
Implicit Type x : Prog B K C.

(** ** The invariant *)

(** [F] was open before [main] and is nobody's business. *)
Record prog_ok (F : list Z) x : Prop := {
  pk_crew : crew_inv (pg_resolvers x) (pg_listener x :: F) (tb_clients (pg_backend x)) (tb_conns (pg_backend x)) (pg_world x);
  pk_main : match pg_main x with
    | PgRun => True
    | PgJoin => tb_returned (pg_backend x) = true ∧ closed_ (res (pg_world x)) = true
    | PgLeave => tb_returned (pg_backend x) = true ∧ forallb exited (pg_resolvers x) = true
    | PgExit => False
    end
}.

Record prog_gone (F : list Z) x : Prop := {
  pn_main : pg_main x = PgExit;
  pn_returned : tb_returned (pg_backend x) = true;
  pn_resolvers : forallb exited (pg_resolvers x) = true;
  pn_open : tb_idle (pg_backend x) → ∀ fd, is_Some (fdt (obs (kern (pg_world x))) !! fd) ↔ fd ∈ F
}.

Definition prog_inv (F : list Z) x : Prop := prog_ok F x ∨ prog_gone F x.

(** ** The end *)

Lemma idle_held (b : B) : tb_idle b → crew_held (tb_conns b) = ∅ ∧ ∀ i c, ¬ serves (tb_conns b) i c.
Proof.
  intros [Hn _]. rewrite Forall_lookup in Hn. assert (∀ i c, ¬ serves (tb_conns b) i c) as Hs by (intros i c Hi%Hn; done).
  split; [|done]. apply set_eq. intros j. rewrite elem_of_crew_held. split; [|set_solver]. intros (i & c & Hi & _). by destruct (Hs i c).
Qed.

Lemma leftover_queue ws H Q cr (w : World K C) j jb :
  crew_inv ws H Q cr w → crew_held cr = ∅ → forallb exited ws = true → jobs (res w) !! j = Some jb →
  j ∈ queue_ (res w) ∧ refs jb = 1%nat.
Proof.
  intros [_ Hsh _] Hh Hex Hj. destruct (sh_rinv _ _ _ _ _ Hsh) as [_ _ _ _ I5 _ I7]. cbn [rs_workers rs_res rs_held] in *. rewrite Hh in *.
  assert (omap pc_job ws = []) as Hw.
  { clear -Hex. induction ws as [|pc ws IH]; [done|]. simpl in *. apply andb_true_iff in Hex as [H1 H2]. destruct pc; try done. by apply IH. }
  unfold pending in *. rewrite Hw, (right_id_L [] (++)) in *. destruct (I7 j) as [Hin|]; [by eexists| |set_solver].
  split; [done|]. destruct (I5 j jb Hj) as (-> & _). unfold count_if. rewrite decide_True, decide_False by (done || set_solver). done.
Qed.

Lemma unwind_open F x fd :
  prog_ok F x → forallb exited (pg_resolvers x) = true → tb_idle (pg_backend x) →
  is_Some (fdt (obs (kern (unwind x))) !! fd) ↔ fd ∈ F.
Proof.
  intros [Hcw _] Hex Hid. destruct (idle_held _ Hid) as [Hh Hns]. pose proof Hid as [_ Hcl].
  pose proof (λ j jb, leftover_queue _ _ _ _ _ j jb Hcw Hh Hex) as Hjobs. destruct Hcw as [Hok Hsh Hacc].
  unfold unwind. set (w := pg_world x) in *. pose proof (close_all_closes (pg_listener x :: tb_members (pg_backend x)) (kern w)) as C1.
  set (k1 := close_all _ _) in *.
  assert (NoDup (queue_ (res w))) as Hnd.
  { pose proof (ri_nodup _ (sh_rinv _ _ _ _ _ Hsh)) as Hnd. simpl in Hnd. by apply NoDup_app in Hnd as [? _]. }
  pose proof (drop_queue_closes _ (set_queue [] (res w)) k1 Hnd) as C2. simpl in C2.
  specialize (C2 ltac:(intros j jb _ Hj; by rewrite (proj2 (Hjobs j jb Hj)))). destruct (drop_queue _ _ _) as [r k2]. simpl in *.
  destruct (closes_seq _ _ _ _ _ C1 C2 (sh_wf _ _ _ _ _ Hsh)) as [_ ->]. pose proof (co_nodup _ _ _ _ Hok) as Hndl. split.
  - intros [Hs Hn]. destruct (Hacc fd Hs) as [[Hin|(i & c & Hi & _)]|(j & jb & Hj & He)]; [|by destruct (Hns i c)|].
    + apply elem_of_cons in Hin as [->|[?|?%Hcl]%elem_of_app]; [|done|]; destruct Hn; left; set_solver.
    + destruct Hn. right. exists j, jb. by destruct (Hjobs j jb Hj).
  - intros Hin. destruct (sh_apart _ _ _ _ _ Hsh fd) as [Hs Hnj]; [left; set_solver|]. split; [done|].
    simpl in Hndl. apply NoDup_cons in Hndl as [Hl Hndl]. apply NoDup_app in Hndl as (_ & Hdis & _).
    intros [[->|?%tb_members_wait]%elem_of_cons|(j & jb & _ & Hj & He)]; [set_solver|by eapply Hdis|]. apply Hnj. by exists j, jb.
Qed.

(** ** Every step *)

Lemma prog_exec_ok F a x x' : prog_ok F x → prog_exec cfg a x = Some x' → prog_inv F x'.
Proof.
  intros Hx E. pose proof Hx as [Hcw Hm]. destruct a as [a| |n]; simpl in E.
  - case_bool_decide; [done|]. destruct (tb_exec _ _ _ _ _) as [[b w]|] eqn:Ea; [|done]. injection E as <-. left.
    pose proof (tb_keeps _ _ _ _ _ _ _ _ _ Hcw Ea) as Hcw'. pose proof (tb_stays _ _ _ _ _ _ _ Ea) as Hst.
    pose proof (tb_closed _ _ _ _ _ _ _ Ea) as Hcl. split; [done|]. simpl. destruct (pg_main x); try done.
    + rewrite Hcl. naive_solver.
    + naive_solver.
  - unfold main_tail in E. destruct (pg_main x) eqn:Hpc; try done.
    + destruct (tb_returned _) eqn:Hr; [|done]. injection E as <-. left. split; simpl.
      * unfold shutdown. destruct (closed_ _) eqn:Hc; by apply crew_quiet.
      * split; [done|]. unfold shutdown. by destruct (closed_ (res (pg_world x))) eqn:Hc.
    + destruct (forallb exited _) eqn:Hex; [|done]. injection E as <-. left. split; [done|]. simpl. by destruct Hm.
    + injection E as <-. destruct Hm as [Hr Hex]. right. split; simpl; try done. intros Hid fd. by apply unwind_open.
  - destruct (pg_resolvers x !! n) as [pc|] eqn:Hn; [|done]. simpl in E.
    destruct (worker_step _ _ _) as [[[pc' r'] k']|] eqn:Ew; [|done]. injection E as <-. left.
    rewrite <-(take_drop_middle _ _ _ Hn) in Hcw. pose proof (crew_worker _ _ _ _ _ _ _ _ _ _ Hcw Ew) as Hcw'.
    split; simpl; rewrite insert_take_drop by by eapply lookup_lt_Some.
    + done.
    + destruct (pg_main x); try done.
      * destruct Hm. split; [done|]. by apply worker_step_exit in Ew as (-> & _).
      * destruct Hm as [_ Hex]. rewrite <-(take_drop_middle _ _ _ Hn), forallb_app in Hex. simpl in Hex.
        by destruct pc; rewrite ?andb_false_r in Hex.
Qed.

Lemma prog_step_inv F x x' : prog_inv F x → prog_step cfg x x' → prog_inv F x'.
Proof.
  intros [Hx|Hx] [a E]; [by eapply prog_exec_ok|]. exfalso. destruct Hx as [Hm _ Hex _]. destruct a as [a| |n]; simpl in E.
  - by rewrite bool_decide_eq_true_2 in E.
  - unfold main_tail in E. by rewrite Hm in E.
  - destruct (pg_resolvers x !! n) as [pc|] eqn:Hn; [|done]. simpl in E.
    rewrite <-(take_drop_middle _ _ _ Hn), forallb_app in Hex. simpl in Hex. by destruct pc; rewrite ?andb_false_r in Hex.
Qed.

Lemma prog_step_listener x x' : prog_step cfg x x' → pg_listener x' = pg_listener x.
Proof.
  intros [[a| |n] E]; simpl in E.
  - case_bool_decide; [done|]. destruct (tb_exec _ _ _ _ _) as [[]|]; [|done]. by injection E as <-.
  - unfold main_tail in E. destruct (pg_main x); try done; [destruct (tb_returned _)|destruct (forallb _ _)|]; try done; by injection E as <-.
  - destruct (pg_resolvers x !! n); [|done]. simpl in E. destruct (worker_step _ _ _) as [[[]]|]; [|done]. by injection E as <-.
Qed.

Lemma prog_reach_inv F x x' : prog_inv F x → prog_reach cfg x x' → prog_inv F x' ∧ pg_listener x' = pg_listener x.
Proof.
  intros Hx Hr. induction Hr as [|x y z Hs _ IH]; [done|]. destruct (IH (prog_step_inv _ _ _ Hx Hs)) as [? ->].
  split; [done|by apply prog_step_listener].
Qed.

(** ** The start *)

Lemma prog_begin_ok listener (k : K) ttl delay rc threads (b : B) :
  obs_wf (obs k) → is_Some (fdt (obs k) !! listener) → cache_ok rc (obs k) →
  tb_clients b = [] → Forall (eq None) (tb_conns b) →
  prog_ok (elements (open_fds (obs k) ∖ {[listener]})) (prog_begin listener k (Resolver_new ttl delay) rc threads b).
Proof.
  intros Hw Hl Hc Hcl Hcn. unfold prog_begin. destruct (set_nonblocking listener k) as [nb k1] eqn:E. simpl.
  assert (fdt (obs k1) = fdt (obs k) ∧ obs_wf (obs k1) ∧ cache_ok rc (obs k1)) as (Ht & Hw1 & Hc1).
  { apply set_nonblocking_spec in E as [[E _]|(_ & f & fl & Hf & E & _)]; rewrite E; [done|].
    pose proof (frame_setfl listener f fl (obs k) Hw Hf) as Hfr. split; [done|]. split; [by eapply frame_wf|by eapply cache_ok_frame]. }
  assert (∀ i c, ¬ serves (tb_conns b) i c) as Hs by (rewrite Forall_lookup in Hcn; intros i c Hi%Hcn; done).
  set (F := elements _). assert (∀ fd, fd ∈ (listener :: F) ++ [] ↔ is_Some (fdt (obs k) !! fd)) as HF.
  { intros fd. rewrite (right_id_L [] (++)), elem_of_cons. unfold F. rewrite elem_of_elements, elem_of_difference, elem_of_open, elem_of_singleton.
    split; [naive_solver|]. destruct (decide (fd = listener)); naive_solver. }
  split; [|done]. simpl. rewrite Hcl. split.
  - split; simpl; try done.
    + split; simpl; try done. intros j [jb Hj]. by apply (lookup_empty_Some j jb) in Hj.
    + intros i c Hi. by destruct (Hs i c).
    + intros i j c d _ Hi. by destruct (Hs i c).
    + intros fd. rewrite Ht. apply HF.
    + intros fd i c _ Hi. by destruct (Hs i c).
    + set_solver.
    + rewrite (right_id_L [] (++)). apply NoDup_cons. unfold F. rewrite elem_of_elements. split; [set_solver|apply NoDup_elements].
  - assert (crew_held (tb_conns b) = ∅) as ->.
    { apply set_eq. intros j. rewrite elem_of_crew_held. split; [|set_solver]. intros (i & c & Hi & _). by destruct (Hs i c). }
    split; [done|by split| |exact (rinv_init threads ttl delay _)]. intros fd [Hin|(i & c & Hi & _)]; [|by destruct (Hs i c)].
    simpl. rewrite Ht. split; [by apply HF|]. intros (j & jb & Hj & _). by apply (lookup_empty_Some j jb) in Hj.
  - intros fd. simpl. rewrite Ht. intros ?%HF. left. by left.
Qed.

(** ** Who has which descriptor *)

Definition held_by x (h : Holder) (fd : Z) : Prop :=
  let b := pg_backend x in let r := res (pg_world x) in
  match h with
  | HListener => fd = pg_listener x
  | HWaiting => fd ∈ tb_clients b
  | HThread i => ∃ c, serves (tb_conns b) i c ∧ owned c (jobs r) fd
  | HLookup n => n ∉ crew_held (tb_conns b) ∧ ∃ jb, jobs r !! n = Some jb ∧ job_end jb fd
  end.

Section owners.
Context (F : list Z) (x : Prog B K C) (Hx : prog_ok F x).
Notation is_open fd := (is_Some (fdt (obs (kern (pg_world x))) !! fd)).

Lemma holder_exists fd : is_open fd → fd ∈ F ∨ ∃ h, held_by x h fd.
Proof.
  intros Hs. destruct (cw_acc _ _ _ _ _ (pk_crew _ _ Hx) fd Hs) as [[Hin|(i & c & Hi & Hsk)]|(n & jb & Hj & He)].
  - apply elem_of_cons in Hin as [->|[?|?]%elem_of_app]; [right; by exists HListener|by left|right; by exists HWaiting].
  - right. exists (HThread i), c. split; [done|by apply sock_owned].
  - right. destruct (decide (n ∈ crew_held (tb_conns (pg_backend x)))) as [(i & c & Hi & Hn)%elem_of_crew_held|Hn].
    + exists (HThread i), c. split; [done|]. right; right. by exists n, jb.
    + exists (HLookup n). split; [done|by exists jb].
Qed.

(** Those that are not with a connection or a lookup. *)
Lemma holder_list fd h : fd ∈ (pg_listener x :: F) ++ tb_clients (pg_backend x) → held_by x h fd → h = HListener ∨ h = HWaiting.
Proof.
  intros Hin Hh. destruct (pk_crew _ _ Hx) as [Hok Hsh _]. destruct h as [| |i|n]; auto; exfalso.
  - destruct Hh as (c & Hi & Ho). by eapply (co_free _ _ _ _ Hok).
  - destruct Hh as (_ & jb & Hj & He). destruct (sh_apart _ _ _ _ _ Hsh fd) as [_ Hn]; [by left|]. apply Hn. by exists n, jb.
Qed.

Lemma holder_thread fd i h : is_open fd → held_by x (HThread i) fd → held_by x h fd → h = HThread i.
Proof.
  intros Hs Hi Hh. destruct (pk_crew _ _ Hx) as [Hok Hsh _].
  assert (∀ h, h = HListener ∨ h = HWaiting → ¬ held_by x h fd) as Hno.
  { intros h' Hh' Hx'. destruct (holder_list fd (HThread i)) as [?|?]; [|done..].
    apply elem_of_app. destruct Hh' as [->| ->]; simpl in Hx'; [left; set_solver|by right]. }
  destruct h as [| |j|n]; [by destruct (Hno HListener); auto|by destruct (Hno HWaiting); auto|..].
  - destruct (decide (i = j)) as [->|Hne]; [done|]. destruct Hi as (c & Hi & Ho), Hh as (d & Hj & Ho').
    destruct (co_apart _ _ _ _ Hok i j c d Hne Hi Hj) as [Hap _]. by destruct (Hap fd Hs Ho).
  - destruct Hi as (c & Hi & Ho), Hh as (Hn & jb & Hj & He). exfalso.
    assert (0 ≤ fd) as Hp by (destruct Hs as [f Hf]; by eapply (ow_pos _ (sh_wf _ _ _ _ _ Hsh))).
    assert (job_fd (jobs (res (pg_world x))) fd) as Hjf by by exists n, jb.
    destruct Ho as [?|[?|(m & jb' & Hm & Hj' & He')]].
    1,2: apply (proj2 (sh_apart _ _ _ _ _ Hsh fd ltac:(right; exists i, c; split; [done|split; auto]))), Hjf.
    eapply (jk_apart _ _ (sh_jobs _ _ _ _ _ Hsh) n m); [|exact Hj|exact Hj'|done|done|done].
    intros ->. apply Hn, elem_of_crew_held. eauto.
Qed.

Lemma holder_unique fd h h' : is_open fd → held_by x h fd → held_by x h' fd → h = h'.
Proof.
  intros Hs H1 H2. destruct (pk_crew _ _ Hx) as [Hok Hsh _].
  destruct h as [| |i|n]; [| |symmetry; by eapply holder_thread|].
  - destruct (holder_list fd h') as [->| ->]; [simpl in H1; set_solver|done|done|]. simpl in H1, H2. subst fd.
    pose proof (co_nodup _ _ _ _ Hok) as [Hnin _]%NoDup_cons. set_solver.
  - destruct (holder_list fd h') as [->| ->]; [simpl in H1; set_solver|done| |done]. simpl in H1, H2. subst fd.
    pose proof (co_nodup _ _ _ _ Hok) as [Hnin _]%NoDup_cons. set_solver.
  - destruct h' as [| |j|m]; [..|by eapply holder_thread|].
    1,2: destruct (holder_list fd (HLookup n)) as [?|?]; [simpl in H2; set_solver|done..].
    destruct (decide (n = m)) as [->|Hne]; [done|]. destruct H1 as (_ & jb & Hj & He), H2 as (_ & jb' & Hj' & He').
    exfalso. eapply (jk_apart _ _ (sh_jobs _ _ _ _ _ Hsh) n m); [done|exact Hj|exact Hj'| |done|done].
    destruct Hs as [f Hf]. by eapply (ow_pos _ (sh_wf _ _ _ _ _ Hsh)).
Qed.

Lemma holder_foreign fd h : fd ∈ F → is_open fd ∧ ¬ held_by x h fd.
Proof.
  intros Hin. destruct (pk_crew _ _ Hx) as [Hok Hsh _]. split; [apply Hok; set_solver|]. intros Hh.
  pose proof (co_nodup _ _ _ _ Hok) as [Hnin [_ [Hdis _]]%NoDup_app]%NoDup_cons.
  destruct (holder_list fd h) as [->| ->]; [set_solver|done|..]; simpl in Hh; [subst fd; set_solver|by eapply Hdis].
Qed.

(** What each connection has exchanged so far, and its lookup. *)
Lemma thread_serving i c : serves (tb_conns (pg_backend x)) i c →
  ∃ fc, conn_inv fc (λ _, True) c (pg_world x).
Proof. apply (pk_crew _ _ Hx). Qed.

Lemma thread_lookup i c n : serves (tb_conns (pg_backend x)) i c → resolve_job_ c = Some n →
  ∃ jb, jobs (res (pg_world x)) !! n = Some jb ∧
    (j_ready jb = false → n ∈ queue_ (res (pg_world x)) ∨ ∃ pc, pc ∈ pg_resolvers x ∧ pc_job pc = Some n) ∧
    (j_ready jb = true → j_ok jb = true → j_endpoints jb ≠ []).
Proof.
  intros Hi Hn. destruct (sh_rinv _ _ _ _ _ (cw_shared _ _ _ _ _ (pk_crew _ _ Hx))) as [_ _ _ I4 I5 _ _].
  cbn [rs_held rs_workers rs_res] in I4, I5. destruct (I4 n) as (jb & Hj & Hf); [apply elem_of_crew_held; eauto|].
  exists jb. split; [done|]. split; [|done]. intros Hrd. destruct (I5 n jb Hj) as (_ & Hnr & _).
  destruct (decide (n ∈ pending (pg_resolvers x) (res (pg_world x)))) as [Hin|Hin]; [|rewrite Hnr in Hrd; done].
  apply elem_of_app in Hin as [?|(pc & ? & ?)%list_elem_of_omap]; eauto.
Qed.

(** ** Nobody waits for ever, once [run] has returned *)

Lemma tail_progress : tb_returned (pg_backend x) = true → ∃ x' a, (∀ b, a ≠ ByBackend b) ∧ prog_exec cfg a x = Some x'.
Proof.
  intros Hr. destruct (main_tail x) as [x'|] eqn:E; [by exists x', ByMain|]. unfold main_tail in E. rewrite Hr in E.
  pose proof (pk_main _ _ Hx) as Hm. destruct (pg_main x) eqn:Hpc; try done. destruct Hm as [_ Hc].
  destruct (forallb exited _) eqn:Hex; [done|].
  assert (∃ n pc, pg_resolvers x !! n = Some pc ∧ pc ≠ Exited) as (n & pc & Hn & Hpe).
  { clear -Hex. induction (pg_resolvers x) as [|pc ws IH]; [done|]. simpl in Hex. apply andb_false_iff in Hex as [He|He].
    - exists 0%nat, pc. split; [done|by intros ->].
    - destruct (IH He) as (n & pc' & ? & ?). by exists (S n), pc'. }
  pose proof (ri_workers _ (sh_rinv _ _ _ _ _ (cw_shared _ _ _ _ _ (pk_crew _ _ Hx)))) as Hw. simpl in Hw. rewrite Forall_lookup in Hw.
  destruct (worker_step_total (res (pg_world x)) (kern (pg_world x)) pc (Hw n pc Hn) Hc Hpe) as [[[pc' r'] k'] Es].
  eexists _, (ByResolver n). split; [done|]. simpl. rewrite Hn. simpl. rewrite Es. done.
Qed.
End owners.
End program.
