(* ===== verification/PoolProgram.v ===== *)
(** * The program with the thread pool

[pool_exec] is the thread pool of [backend/thread_pool.cpp] on the real kernel,
resolver and cache: the accept loop with the system calls it makes, the workers with
the connections they serve, and what surrounds them (the signal, the timeout of
[push_for], spurious wakeups).  It keeps the promise of [ThreadBackend], and it
implements the system of [ThreadPool.v] step by step ([pool_simulated]), so
what is proved there of the queue and its waiters holds of the program. *)
From S2P Require Import Prelude CppString Http Config Cache CacheSpec Kernel Socket SocketSpec Resolver ResolverSpec.
From S2P Require Import Connection ConnectionInv ConnectionSpec EventLoop EventLoopInv ConnResolver EventThreads.
From S2P Require Import ConnQueue ThreadPool Crew ThreadPerConn ThreadProgram ThreadSys.

(** ** The threads *)

Inductive PoolWorker :=
| KPop                       (* in [pop], holding or about to take the mutex *)
| KSleep                     (* in [pop], waiting on [not_empty_] *)
| KNotify (fd : Z)           (* popped, about to notify [not_full_] *)
| KTaken (fd : Z)            (* out of [pop], about to make the connection *)
| KServe (pc : ServePc)
| KExit.

Record PoolBackend := mkPoolB {
  pb_queue : ConnQueue;
  pb_prod : ProdPc;          (* the thread that runs [run] *)
  pb_workers : list PoolWorker;
  pb_stop : bool;
  pb_next_id : Z;
  pb_accepted : Z
}.

Definition PoolBackend_new (queue : ConnQueue) (workers : Z) : PoolBackend :=
  mkPoolB queue PLoop (replicate (Z.to_nat workers) KPop) false 0 0.

Definition set_prod (pc : ProdPc) (b : PoolBackend) : PoolBackend :=
  mkPoolB (pb_queue b) pc (pb_workers b) (pb_stop b) (pb_next_id b) (pb_accepted b).
Definition set_pool_queue (q : ConnQueue) (b : PoolBackend) : PoolBackend :=
  mkPoolB q (pb_prod b) (pb_workers b) (pb_stop b) (pb_next_id b) (pb_accepted b).
Definition set_workers (ws : list PoolWorker) (b : PoolBackend) : PoolBackend :=
  mkPoolB (pb_queue b) (pb_prod b) ws (pb_stop b) (pb_next_id b) (pb_accepted b).
Definition set_pool_stop (b : PoolBackend) : PoolBackend :=
  mkPoolB (pb_queue b) (pb_prod b) (pb_workers b) true (pb_next_id b) (pb_accepted b).
Definition count_pool_accepted (b : PoolBackend) : PoolBackend :=
  mkPoolB (pb_queue b) (pb_prod b) (pb_workers b) (pb_stop b) (pb_next_id b) (wrap64 (pb_accepted b + 1)).
Definition count_next_id (b : PoolBackend) : PoolBackend :=
  mkPoolB (pb_queue b) (pb_prod b) (pb_workers b) (pb_stop b) (wrap64 (pb_next_id b + 1)) (pb_accepted b).

Definition rouse (pc : PoolWorker) : PoolWorker := match pc with KSleep => KPop | _ => pc end.
Definition asleep (pc : PoolWorker) : bool := match pc with KSleep => true | _ => false end.
Definition pool_exited (pc : PoolWorker) : bool := match pc with KExit => true | _ => false end.

(** [notify_one] on [not_empty_]: worker [i] is the one that wakes, if any sleeps. *)
Definition notify_empty (i : nat) (ws : list PoolWorker) : option (list PoolWorker) :=
  if existsb asleep ws then pc ← ws !! i; if asleep pc then Some (<[i := KPop]> ws) else None else Some ws.

Section pool.
Context {K C : Type} `{!Kernel K, !ResponseCache C}.
Implicit Type w : World K C.
Implicit Type b : PoolBackend.

(** [a.conn] goes out of scope with the client still in it. *)
Definition drop_client (fd : Z) w : World K C := set_kern (Fd_reset fd (-1) (kern w)).2 w.

(** A call of [push_for] that has come to a wakeup or to its timeout. *)
Definition pool_push (expired : bool) (fd : Z) b w : option (PoolBackend * World K C) :=
  match push_for expired fd (pb_queue b) with
  | None => Some (set_prod (PSleep fd) b, w)
  | Some (Pushed, q) => Some (set_prod PNotify (set_pool_queue q b), w)
  | Some (Closed, q) => Some (set_prod PClose (set_pool_queue q b), drop_client fd w)
  | Some (TimedOut, q) => Some (set_prod (PRecheck fd) (set_pool_queue q b), w)
  end.

(** [accept_loop] and the rest of [run]; [i] is the worker [notify_one] picks. *)
Definition pool_main (listener : Z) (i : nat) b w : option (PoolBackend * World K C) :=
  match pb_prod b with
  | PLoop =>
      if pb_stop b then Some (set_prod PClose b, w) else
      let '(ready, k) := wait_ready listener false 200 (kern w) in
      Some (set_prod (if ready : bool then PAccept else PLoop) b, set_kern k w)
  | PAccept =>
      match accept_one listener (kern w) with
      | ((AcceptOk, fd), k) => Some (set_prod (PPush fd) (count_pool_accepted b), set_kern k w)
      | ((AcceptOutOfFds, _), k) => Some (set_prod PLoop b, set_kern (fd_limit_current k).2 w)
      | (_, k) => Some (set_prod PLoop b, set_kern k w)
      end
  | PPush fd => pool_push false fd b w
  | PSleep _ => None
  | PExpired fd => pool_push true fd b w
  | PRecheck fd => if pb_stop b then Some (set_prod PClose b, drop_client fd w) else Some (set_prod (PPush fd) b, w)
  | PNotify => ws ← notify_empty i (pb_workers b); Some (set_prod PLoop (set_workers ws b), w)
  | PClose => let '(woken, q) := close (pb_queue b) in
      Some (set_prod (if woken : bool then PWakeEmpty else PJoin) (set_pool_queue q b), w)
  | PWakeEmpty => Some (set_prod PWakeFull (set_workers (rouse <$> pb_workers b) b), w)
  | PWakeFull => Some (set_prod PJoin b, w)
  | PJoin => if forallb pool_exited (pb_workers b) then Some (set_prod PDone b, w) else None
  | PDone => None
  end.

(** Worker [i] goes on from [pc]. *)
Definition pool_work (cfg : Config) (i : nat) (pc : PoolWorker) b w : option (PoolBackend * World K C) :=
  let at_ pc b := set_workers (<[i := pc]> (pb_workers b)) b in
  match pc with
  | KPop =>
      match pop (pb_queue b) with
      | None => Some (at_ KSleep b, w)
      | Some (None, q) => Some (at_ KExit (set_pool_queue q b), w)
      | Some (Some fd, q) => Some (at_ (KNotify fd) (set_pool_queue q b), w)
      end
  | KNotify fd => Some (at_ (KTaken fd) (set_prod (wake_prod (pb_prod b)) b), w)
  | KTaken fd =>
      let '(c, w) := Connection_new fd (pb_next_id b) w in Some (at_ (KServe (SWait c)) (count_next_id b), w)
  | KServe pc =>
      let '(o, w) := serve_step cfg pc w in
      Some (at_ (match o with Some pc => KServe pc | None => KPop end) b, w)
  | KSleep | KExit => None
  end.

Inductive PoolAct :=
| PaMain (i : nat)
| PaWorker (i : nat)
| PaSignal                   (* the handler calls [stop()] *)
| PaExpire                   (* the 200 ms of [push_for] are over *)
| PaSpuriousMain
| PaSpurious (i : nat).

Definition pool_exec (cfg : Config) (listener : Z) (a : PoolAct) b w : option (PoolBackend * World K C) :=
  match a with
  | PaMain i => pool_main listener i b w
  | PaWorker i => pc ← pb_workers b !! i; pool_work cfg i pc b w
  | PaSignal => Some (set_pool_stop b, w)
  | PaExpire => match pb_prod b with PSleep fd => Some (set_prod (PExpired fd) b, w) | _ => None end
  | PaSpuriousMain => match pb_prod b with PSleep fd => Some (set_prod (PPush fd) b, w) | _ => None end
  | PaSpurious i =>
      pc ← pb_workers b !! i;
      if asleep pc then Some (set_workers (<[i := KPop]> (pb_workers b)) b, w) else None
  end.
End pool.

(** ** Connections and clients *)

Definition pw_conn (pc : PoolWorker) : option Connection := match pc with KServe s => Some (serve_conn s) | _ => None end.
Definition pw_client (pc : PoolWorker) : list Z := match pc with KNotify fd | KTaken fd => [fd] | _ => [] end.

Definition pool_clients (b : PoolBackend) : list Z :=
  cq_queue (pb_queue b) ++ in_hand (pb_prod b) ++ mjoin (pw_client <$> pb_workers b).

#[export] Instance pool_backend : ThreadBackend PoolBackend := {|
  tb_act := PoolAct;
  tb_exec := @pool_exec;
  tb_conns b := pw_conn <$> pb_workers b;
  tb_clients := pool_clients;
  tb_members b := cq_queue (pb_queue b);
  tb_returned b := match pb_prod b with PDone => true | _ => false end
|}.

Lemma pw_client_move (ws : list PoolWorker) i pc pc' :
  ws !! i = Some pc → mjoin (pw_client <$> <[i := pc']> ws) ++ pw_client pc ≡ₚ mjoin (pw_client <$> ws) ++ pw_client pc'.
Proof.
  intros Hi. rewrite insert_take_drop by by eapply lookup_lt_Some. rewrite <-(take_drop_middle ws i pc Hi) at 3.
  rewrite !fmap_app, !fmap_cons, !join_app. simpl. solve_Permutation.
Qed.

Lemma rouse_client (ws : list PoolWorker) : mjoin (pw_client <$> (rouse <$> ws)) = mjoin (pw_client <$> ws).
Proof. rewrite <-list_fmap_compose. f_equal. apply list_fmap_ext. by intros ? []. Qed.

Lemma rouse_conn (ws : list PoolWorker) : pw_conn <$> (rouse <$> ws) = pw_conn <$> ws.
Proof. rewrite <-list_fmap_compose. apply list_fmap_ext. by intros ? []. Qed.

(** A worker without connection goes on without one. *)
Lemma pw_conn_move (ws : list PoolWorker) i pc pc' :
  ws !! i = Some pc → pw_conn pc = None → pw_conn pc' = None → pw_conn <$> <[i := pc']> ws = pw_conn <$> ws.
Proof.
  intros Hi H1 H2. rewrite list_fmap_insert, H2. apply list_insert_id. by rewrite list_lookup_fmap, Hi, <-H1.
Qed.

Lemma notify_empty_cases i ws ws' :
  notify_empty i ws = Some ws' → (existsb asleep ws = false ∧ ws' = ws) ∨ (ws !! i = Some KSleep ∧ ws' = <[i := KPop]> ws).
Proof.
  unfold notify_empty. destruct (existsb asleep ws); [|intros [= <-]; auto]. destruct (ws !! i) as [pc|]; [|done]. simpl.
  destruct pc; try done. intros [= <-]. auto.
Qed.

Section laws.
Context {K C : Type} `{!Kernel K, !KernelLaws K, !ResponseCache C, !ResponseCacheLaws C}.
Context (cfg : Config) (ws : list WorkerPc) (listener : Z) (F : list Z).
Implicit Type w : World K C.
Implicit Type b : PoolBackend.

Definition pool_crew b w : Prop := crew_inv ws (listener :: F) (pool_clients b) (pw_conn <$> pb_workers b) w.

Lemma drop_client_crew b b' fd w :
  pool_crew b w → pool_clients b ≡ₚ fd :: pool_clients b' → pw_conn <$> pb_workers b' = pw_conn <$> pb_workers b →
  pool_crew b' (drop_client fd w).
Proof.
  intros Hcw Hp Hc. unfold pool_crew, drop_client, Fd_reset in *. rewrite Hc.
  assert (fd ∈ pool_clients b) as Hin by (rewrite Hp; set_solver).
  destruct (co_open _ _ _ _ (cw_ok _ _ _ _ _ Hcw) fd) as [f Hf]; [set_solver|].
  pose proof (ow_pos _ (wo_wf _ (co_world _ _ _ _ (cw_ok _ _ _ _ _ Hcw))) _ _ Hf) as Hpos%valid_spec. rewrite Hpos. simpl.
  eapply crew_closed; [exact Hcw| |]; [rewrite Hp; solve_Permutation|]. intros x Hx. rewrite Hp. set_solver.
Qed.

(** The accept loop moves a client, and nothing else. *)
Lemma pool_crew_perm b b' w :
  pool_crew b w → pool_clients b ≡ₚ pool_clients b' → pw_conn <$> pb_workers b' = pw_conn <$> pb_workers b → pool_crew b' w.
Proof. intros Hcw Hp Hc. unfold pool_crew in *. rewrite Hc. by eapply crew_perm. Qed.

Lemma pool_push_crew (expired : bool) fd b w b' w' :
  pool_crew b w → in_hand (pb_prod b) = [fd] → pool_push expired fd b w = Some (b', w') → pool_crew b' w'.
Proof.
  intros Hcw Hh E. unfold pool_push in E. pose proof (push_for_cases expired fd (pb_queue b)) as Hp.
  destruct (push_for expired fd (pb_queue b)) as [[[] q]|]; injection E as <- <-.
  - destruct Hp as (_ & _ & ->). eapply pool_crew_perm; [exact Hcw| |done]. unfold pool_clients. simpl. rewrite Hh. solve_Permutation.
  - destruct Hp as (_ & _ & _ & ->). eapply pool_crew_perm; [exact Hcw| |done]. unfold pool_clients. simpl. by rewrite Hh.
  - destruct Hp as [_ ->]. eapply drop_client_crew; [exact Hcw| |done]. unfold pool_clients. simpl. rewrite Hh. solve_Permutation.
  - eapply pool_crew_perm; [exact Hcw| |done]. unfold pool_clients. simpl. by rewrite Hh.
Qed.

Lemma pool_main_crew i b w b' w' : pool_crew b w → pool_main listener i b w = Some (b', w') → pool_crew b' w'.
Proof.
  intros Hcw E. unfold pool_main in E. destruct (pb_prod b) as [| |fd| |fd|fd| | | | | |] eqn:Hpc; try done.
  all: assert (∀ pc k, in_hand pc = in_hand (pb_prod b) → silent (kern w) k → pool_crew (set_prod pc b) (set_kern k w)) as Hmove
    by (intros pc k Hh Hk; apply crew_silent; [|done]; eapply pool_crew_perm; [exact Hcw| |done]; unfold pool_clients; simpl; by rewrite Hh).
  all: assert (∀ pc, in_hand pc = in_hand (pb_prod b) → pool_crew (set_prod pc b) w) as Hgo
    by (intros pc Hh; eapply pool_crew_perm; [exact Hcw| |done]; unfold pool_clients; simpl; by rewrite Hh).
  all: rewrite Hpc in Hmove, Hgo.
  - destruct (pb_stop b); [injection E as <- <-; by apply Hgo|]. destruct (wait_ready _ _ _ _) as [ready k] eqn:Ew.
    apply wait_ready_silent in Ew. injection E as <- <-. apply Hmove; [by destruct ready|done].
  - destruct (accept_one listener (kern w)) as [[st fd] k] eqn:Ea. apply accept_one_spec in Ea.
    destruct st; simpl in Ea; injection E as <- <-; [|by apply Hmove| |by apply Hmove].
    + apply (crew_opened _ _ _ _ _ _ _ Hcw) in Ea. eapply crew_perm, Ea. unfold pool_clients. simpl. rewrite Hpc. solve_Permutation.
    + destruct (fd_limit_current k) as [n k1] eqn:E1. apply fd_limit_current_silent in E1. apply Hmove; [done|]. by eapply silent_trans.
  - eapply pool_push_crew; [exact Hcw|by rewrite Hpc|done].
  - eapply pool_push_crew; [exact Hcw|by rewrite Hpc|done].
  - destruct (pb_stop b); injection E as <- <-; [|by apply Hgo]. eapply drop_client_crew; [exact Hcw| |done].
    unfold pool_clients. simpl. rewrite Hpc. solve_Permutation.
  - destruct (notify_empty i (pb_workers b)) as [ws1|] eqn:En; [|done]. injection E as <- <-.
    apply notify_empty_cases in En as [[_ ->]|[Hi ->]]; [by apply Hgo|].
    eapply pool_crew_perm; [exact (Hgo PLoop eq_refl)| |by eapply pw_conn_move].
    unfold pool_clients. simpl. pose proof (pw_client_move _ _ _ KPop Hi) as Hm. simpl in Hm. rewrite !(right_id_L [] (++)) in Hm. by rewrite Hm.
  - destruct (close (pb_queue b)) as [woken q] eqn:Ec. injection E as <- <-. eapply pool_crew_perm; [exact Hcw| |done].
    unfold pool_clients. simpl. rewrite Hpc. unfold close in Ec. destruct (cq_closed _); by injection Ec as <- <-.
  - injection E as <- <-. eapply pool_crew_perm; [exact Hcw| |simpl; by rewrite rouse_conn].
    unfold pool_clients. simpl. by rewrite rouse_client, Hpc.
  - injection E as <- <-. by apply Hgo.
  - destruct (forallb _ _); [|done]. injection E as <- <-. by apply Hgo.
Qed.

(** A worker does not touch a connection. *)
Lemma pool_at_crew b i pc pc' q prod id w :
  pool_crew b w → pb_workers b !! i = Some pc → pw_conn pc = None → pw_conn pc' = None →
  cq_queue (pb_queue b) ++ in_hand (pb_prod b) ++ pw_client pc ≡ₚ cq_queue q ++ in_hand prod ++ pw_client pc' →
  pool_crew (mkPoolB q prod (<[i := pc']> (pb_workers b)) (pb_stop b) id (pb_accepted b)) w.
Proof.
  intros Hcw Hi H1 H2 Hp. eapply pool_crew_perm; [exact Hcw| |by eapply pw_conn_move]. unfold pool_clients. simpl.
  pose proof (pw_client_move _ _ _ pc' Hi) as Hm.
  apply (Permutation_app_inv_r (pw_client pc)), (Permutation_app_inv_l (pw_client pc')).
  transitivity ((cq_queue (pb_queue b) ++ in_hand (pb_prod b) ++ pw_client pc) ++ mjoin (pw_client <$> pb_workers b) ++ pw_client pc');
    [solve_Permutation|]. rewrite <-Hm, Hp. solve_Permutation.
Qed.

Lemma pool_work_crew i pc b w b' w' :
  pool_crew b w → pb_workers b !! i = Some pc → pool_work cfg i pc b w = Some (b', w') → pool_crew b' w'.
Proof.
  intros Hcw Hi E. assert ((pw_conn <$> pb_workers b) !! i = Some (pw_conn pc)) as Hic by by rewrite list_lookup_fmap, Hi.
  destruct pc as [| |fd|fd|s|]; simpl in E; try done.
  - pose proof (pop_cases (pb_queue b)) as Hp. destruct (pop (pb_queue b)) as [[[fd|] q]|]; injection E as <- <-.
    + apply (pool_at_crew b i KPop (KNotify fd) q (pb_prod b) (pb_next_id b)); try done.
      destruct Hp as (rest & -> & ->). simpl. solve_Permutation.
    + apply (pool_at_crew b i KPop KExit q (pb_prod b) (pb_next_id b)); try done. by destruct Hp as (_ & _ & ->).
    + by apply (pool_at_crew b i KPop KSleep (pb_queue b) (pb_prod b) (pb_next_id b)).
  - injection E as <- <-. apply (pool_at_crew b i (KNotify fd) (KTaken fd) (pb_queue b) (wake_prod (pb_prod b)) (pb_next_id b)); try done.
    by destruct (pb_prod b).
  - destruct (Connection_new fd (pb_next_id b) w) as [c w1] eqn:Ec. injection E as <- <-.
    assert (pool_clients b ≡ₚ fd :: pool_clients (set_workers (<[i := KServe (SWait c)]> (pb_workers b)) b)) as Hp.
    { unfold pool_clients. simpl. pose proof (pw_client_move _ _ _ (KServe (SWait c)) Hi) as Hm. simpl in Hm.
      rewrite (right_id_L [] (++)) in Hm. rewrite <-Hm. solve_Permutation. }
    unfold pool_crew in *. apply (crew_perm _ _ _ _ _ _ Hp) in Hcw. apply (crew_new _ _ _ _ i _ (pb_next_id b)) in Hcw; [|done].
    rewrite Ec in Hcw. simpl in Hcw |- *. rewrite list_fmap_insert. exact Hcw.
  - assert (∀ pc' w2, pw_client pc' = [] → crew_inv ws (listener :: F) (pool_clients b) (<[i := pw_conn pc']> (pw_conn <$> pb_workers b)) w2 →
      pool_crew (set_workers (<[i := pc']> (pb_workers b)) b) w2) as Hput.
    { intros pc' w2 Hn Hcw2. unfold pool_crew. simpl. rewrite list_fmap_insert. eapply crew_perm, Hcw2. unfold pool_clients. simpl.
      pose proof (pw_client_move _ _ _ pc' Hi) as Hm. simpl in Hm. rewrite Hn, !(right_id_L [] (++)) in Hm. by rewrite Hm. }
    pose proof (crew_serve cfg _ _ _ _ i s w Hcw Hic) as Hs. destruct (serve_step cfg s w) as [[s'|] w1]; injection E as <- <-; by apply Hput.
Qed.
End laws.

(** The counters and flags of a step. *)
Lemma pool_exec_closed {K C} `{!Kernel K, !ResponseCache C} cfg listener a b (w : World K C) b' w' :
  pool_exec cfg listener a b w = Some (b', w') → closed_ (res w') = closed_ (res w).
Proof.
  destruct a as [i|i| | | |i]; simpl; intros E.
  - unfold pool_main, pool_push, mbind, option_bind in E. destruct (pb_prod b); try done; repeat case_match; by simplify_eq.
  - destruct (pb_workers b !! i) as [pc|]; [|done]. simpl in E. destruct pc as [| |fd|fd|s|]; simpl in E; try done.
    + destruct (pop _) as [[[] ?]|]; by simplify_eq.
    + by simplify_eq.
    + unfold Connection_new in E. destruct (set_nonblocking _ _). by simplify_eq.
    + pose proof (serve_step_closed cfg s w) as H. destruct (serve_step cfg s w). by simplify_eq.
  - by simplify_eq.
  - destruct (pb_prod b); by simplify_eq.
  - destruct (pb_prod b); by simplify_eq.
  - destruct (pb_workers b !! i) as [pc|]; [|done]. simpl in E. destruct (asleep pc); by simplify_eq.
Qed.

#[export] Instance pool_backend_laws : ThreadBackendLaws PoolBackend.
Proof.
  split.
  - intros K C HK HKL HC HCL cfg ws listener F a b w b' w' Hcw E. simpl in *.
    assert (pool_crew ws listener F b w) as Hb by done. change (pool_crew ws listener F b' w').
    destruct a as [i|i| | | |i]; simpl in E.
    + by eapply pool_main_crew.
    + destruct (pb_workers b !! i) as [pc|] eqn:Hi; [|done]. by eapply pool_work_crew.
    + by injection E as <- <-.
    + destruct (pb_prod b) eqn:Hpc; try done. injection E as <- <-. eapply pool_crew_perm; [exact Hb| |done].
      unfold pool_clients. simpl. by rewrite Hpc.
    + destruct (pb_prod b) eqn:Hpc; try done. injection E as <- <-. eapply pool_crew_perm; [exact Hb| |done].
      unfold pool_clients. simpl. by rewrite Hpc.
    + destruct (pb_workers b !! i) as [pc|] eqn:Hi; [|done]. simpl in E. destruct pc; try done. injection E as <- <-.
      by apply (pool_at_crew _ _ _ b i KSleep).
  - intros K C HK HC. exact pool_exec_closed.
  - intros K C HK HC cfg listener a b w b' w' E Hr. simpl in *. destruct (pb_prod b) eqn:Hpc; try done.
    destruct a as [i|i| | | |i]; simpl in E; rewrite ?Hpc in E; try done.
    + unfold pool_main in E. by rewrite Hpc in E.
    + destruct (pb_workers b !! i) as [pc|]; [|done]. simpl in E. destruct pc; simpl in E; try done.
      * destruct (pop _) as [[[] ?]|]; simplify_eq; simpl; by rewrite Hpc.
      * simplify_eq. simpl. by rewrite Hpc.
      * destruct (Connection_new _ _ _). simplify_eq. simpl. by rewrite Hpc.
      * destruct (serve_step _ _ _). simplify_eq. simpl. by rewrite Hpc.
    + simplify_eq. simpl. by rewrite Hpc.
    + destruct (pb_workers b !! i) as [pc|]; [|done]. simpl in E. destruct (asleep pc); simplify_eq. simpl. by rewrite Hpc.
  - intros b fd Hin. simpl in *. unfold pool_clients. set_solver.
Qed.

(** ** What it implements *)

(** A worker that has left [pop] is serving, whatever its connection does. *)
Inductive work_rel : PoolWorker → WorkPc → Prop :=
| wr_pop : work_rel KPop WPop
| wr_sleep : work_rel KSleep WSleep
| wr_notify fd : work_rel (KNotify fd) (WNotify fd)
| wr_taken fd : work_rel (KTaken fd) (WServe fd)
| wr_serve s fd : work_rel (KServe s) (WServe fd)
| wr_exit : work_rel KExit WExit.

Record pool_rel (b : PoolBackend) (p : Pool) : Prop := {
  pr_queue : p_queue p = pb_queue b;
  pr_prod : p_prod p = pb_prod b;
  pr_workers : Forall2 work_rel (pb_workers b) (p_workers p);
  pr_stop : p_stop p = pb_stop b;
  pr_accepted : pb_accepted b = wrap64 (zlen (p_accepted p))
}.

Lemma wrap64_succ n : wrap64 (wrap64 n + 1) = wrap64 (n + 1).
Proof. unfold wrap64. by rewrite Zplus_mod_idemp_l. Qed.

(** Worker [i] of the program and its counterpart. *)
Lemma work_rel_at ws pws i pc :
  Forall2 work_rel ws pws → ws !! i = Some pc → ∃ a pc' b, pws = a ++ pc' :: b ∧ work_rel pc pc' ∧
    ∀ k k', work_rel k k' → Forall2 work_rel (<[i := k]> ws) (a ++ k' :: b).
Proof.
  intros Hf Hi. destruct (Forall2_lookup_l _ _ _ _ _ Hf Hi) as (pc' & Hi' & Hr).
  exists (take i pws), pc', (drop (S i) pws). split; [symmetry; by apply take_drop_middle|]. split; [done|].
  intros k k' Hk. rewrite <-insert_take_drop by by eapply lookup_lt_Some. by apply Forall2_insert.
Qed.

Lemma rouse_rel ws pws : Forall2 work_rel ws pws → Forall2 work_rel (rouse <$> ws) (wake <$> pws).
Proof. intros H. apply Forall2_fmap. eapply Forall2_impl; [done|]. intros ? ? []; constructor. Qed.

Lemma asleep_rel ws pws : Forall2 work_rel ws pws → existsb asleep ws = false → WSleep ∉ pws.
Proof.
  induction 1 as [|pc pc' ws pws Hr _ IH]; [by intros _ ?%elem_of_nil|]. simpl. intros [H1 H2]%orb_false_iff [<-|?]%elem_of_cons; [|by apply IH].
  by inversion Hr; subst.
Qed.

Lemma exited_rel ws pws : Forall2 work_rel ws pws → forallb pool_exited ws = true ↔ Forall (eq WExit) pws.
Proof.
  induction 1 as [|pc pc' ws pws Hr _ IH]; simpl; [done|]. rewrite andb_true_iff, Forall_cons, IH.
  by destruct Hr; simpl; naive_solver.
Qed.

Ltac rel_done := split; simpl; try done; try congruence; eauto.

Section simulation.
Context {K C : Type} `{!Kernel K, !ResponseCache C}.
Context (cfg : Config) (listener : Z).
Implicit Type w : World K C.
Implicit Type b : PoolBackend.

(** The abstract pool can follow. *)
Definition follows (p : Pool) (b' : PoolBackend) : Prop := ∃ p', rtc pool_step p p' ∧ pool_rel b' p'.

Lemma follows_prod p p' b' : prod_step p p' → pool_rel b' p' → follows p b'.
Proof. intros Hs Hr. exists p'. split; [|done]. apply rtc_once. by left. Qed.

Lemma follows_work p p' b' : work_step p p' → pool_rel b' p' → follows p b'.
Proof. intros Hs Hr. exists p'. split; [|done]. apply rtc_once. by right; left. Qed.

Lemma follows_env p p' b' : env_step p p' → pool_rel b' p' → follows p b'.
Proof. intros Hs Hr. exists p'. split; [|done]. apply rtc_once. by right; right. Qed.

Lemma push_followed (expired : bool) fd b w b' w' p :
  pb_prod b = (if expired then PExpired fd else PPush fd) → pool_push expired fd b w = Some (b', w') → pool_rel b p → follows p b'.
Proof.
  intros Hpc E [Hq Hp Hw Hs Ha]. destruct p as [q pc pws st acc pu po dr]. simpl in *. subst q pc st. rewrite Hpc.
  unfold pool_push in E. pose proof (push_for_cases expired fd (pb_queue b)) as Hc.
  destruct (push_for expired fd (pb_queue b)) as [[[] q]|] eqn:Ep; injection E as <- <-.
  - eapply follows_prod; [by eapply (ps_pushed _ _ _ expired)|]. rel_done.
  - destruct Hc as (_ & _ & -> & ->). eapply follows_prod; [by eapply ps_timed_out|]. rel_done.
  - eapply follows_prod; [by eapply (ps_closed _ _ _ expired)|]. rel_done.
  - destruct expired; [by destruct Hc as (_ & _ & ?)|]. eapply follows_prod; [by apply ps_sleep|]. rel_done.
Qed.

Lemma main_followed i b w b' w' p : pool_main listener i b w = Some (b', w') → pool_rel b p → follows p b'.
Proof.
  intros E Hrel. pose proof Hrel as [Hq Hp Hw Hs Ha]. unfold pool_main in E.
  destruct p as [q pc pws st acc pu po dr]. simpl in *. subst q pc st.
  destruct (pb_prod b) as [| |fd| |fd|fd| | | | | |] eqn:Hpc; try done.
  - destruct (pb_stop b) eqn:Hst; [injection E as <- <-; eapply follows_prod; [apply ps_stop_seen|rel_done]|].
    destruct (wait_ready _ _ _ _) as [[] k]; injection E as <- <-; [eapply follows_prod; [apply ps_go|rel_done]|].
    eexists. split; [eapply rtc_l; [left; apply ps_go|apply rtc_once; left; apply ps_nobody]|]. rel_done.
  - destruct (accept_one _ _) as [[st fd] k]. destruct st; injection E as <- <-; [|eapply follows_prod; [apply ps_nobody|rel_done]..].
    eapply follows_prod; [apply (ps_accept _ _ _ _ _ _ _ fd)|]. rel_done. rewrite Ha. unfold zlen. rewrite length_app. simpl.
    rewrite wrap64_succ. f_equal. lia.
  - rewrite <-Hpc. eapply (push_followed false fd); [done|exact E|]. rel_done.
  - rewrite <-Hpc. eapply (push_followed true fd); [done|exact E|]. rel_done.
  - destruct (pb_stop b) eqn:Hst; injection E as <- <-; eapply follows_prod; [apply ps_give_up|rel_done|apply ps_retry|rel_done].
  - destruct (notify_empty i (pb_workers b)) as [ws1|] eqn:En; [|done]. injection E as <- <-.
    apply notify_empty_cases in En as [[Hn ->]|[Hi ->]].
    + eapply follows_prod; [apply ps_notify, wake_none; by eapply asleep_rel|]. rel_done.
    + destruct (work_rel_at _ _ _ _ Hw Hi) as (a & pc' & c & -> & Hr & Hput). inversion Hr; subst.
      eapply follows_prod; [apply ps_notify, wake_some|]. rel_done. simpl. apply Hput. constructor.
  - destruct (close (pb_queue b)) as [woken q] eqn:Ec. injection E as <- <-.
    eapply follows_prod; [by eapply (ps_close _ _ woken)|]. rel_done.
  - injection E as <- <-. eapply follows_prod; [apply ps_wake_empty|]. rel_done. by apply rouse_rel.
  - injection E as <- <-. eapply follows_prod; [apply ps_wake_full|]. rel_done.
  - destruct (forallb _ _) eqn:Hall; [|done]. injection E as <- <-. eapply follows_prod; [apply ps_joined; by eapply exited_rel|]. rel_done.
Qed.

Lemma work_followed i pc b w b' w' p :
  pb_workers b !! i = Some pc → pool_work cfg i pc b w = Some (b', w') → pool_rel b p → follows p b'.
Proof.
  intros Hi E [Hq Hp Hw Hs Ha]. destruct p as [q pr pws st acc pu po dr]. simpl in *. subst q pr st.
  destruct (work_rel_at _ _ _ _ Hw Hi) as (a & pc' & c & -> & Hr & Hput).
  destruct Hr as [| |fd|fd|s fd|]; simpl in E; try done.
  - destruct (pop (pb_queue b)) as [[[fd|] q]|] eqn:Epop; injection E as <- <-.
    + eapply follows_work; [by eapply ws_popped|]. rel_done. apply Hput. constructor.
    + eapply follows_work; [by eapply ws_exit|]. rel_done. apply Hput. constructor.
    + eapply follows_work; [by eapply ws_sleep|]. rel_done. apply Hput. constructor.
  - injection E as <- <-. eapply follows_work; [by eapply ws_notify|]. rel_done. apply Hput. constructor.
  - destruct (Connection_new _ _ _) as [cn w1]. injection E as <- <-. eexists. split; [apply rtc_refl|]. rel_done. apply Hput. constructor.
  - destruct (serve_step _ _ _) as [[s'|] w1]; injection E as <- <-.
    + eexists. split; [apply rtc_refl|]. rel_done. apply Hput. constructor.
    + eapply follows_work; [by eapply ws_served|]. rel_done. apply Hput. constructor.
Qed.

Lemma pool_simulated a b w b' w' p : pool_exec cfg listener a b w = Some (b', w') → pool_rel b p → follows p b'.
Proof.
  intros E Hrel. pose proof Hrel as [Hq Hp Hw Hs Ha]. destruct a as [i|i| | | |i]; simpl in E.
  - by eapply main_followed.
  - destruct (pb_workers b !! i) as [pc|] eqn:Hi; [|done]. by eapply work_followed.
  - injection E as <- <-. destruct p as [q pr pws st acc pu po dr]. simpl in *. eapply follows_env; [apply es_signal|]. rel_done.
  - destruct (pb_prod b) eqn:Hpc; try done. injection E as <- <-. destruct p as [q pr pws st acc pu po dr]. simpl in *. subst pr.
    eapply follows_env; [apply es_expire|]. rel_done.
  - destruct (pb_prod b) eqn:Hpc; try done. injection E as <- <-. destruct p as [q pr pws st acc pu po dr]. simpl in *. subst pr.
    eapply follows_env; [apply es_spurious_prod|]. rel_done.
  - destruct (pb_workers b !! i) as [pc|] eqn:Hi; [|done]. simpl in E. destruct pc; try done. injection E as <- <-.
    destruct p as [q pr pws st acc pu po dr]. simpl in *. destruct (work_rel_at _ _ _ _ Hw Hi) as (a & pc' & c & -> & Hr & Hput).
    inversion Hr; subst. eapply follows_env; [apply es_spurious_work|]. rel_done. apply Hput. constructor.
Qed.
End simulation.

(** The same for the whole program. *)
Lemma prog_simulated {K C} `{!Kernel K, !ResponseCache C} cfg (x x' : Prog PoolBackend K C) p :
  prog_reach cfg x x' → pool_rel (pg_backend x) p → ∃ p', rtc pool_step p p' ∧ pool_rel (pg_backend x') p'.
Proof.
  intros Hr. revert p. induction Hr as [|x y z [a E] _ IH]; intros p Hrel; [by exists p|].
  assert (∃ p', rtc pool_step p p' ∧ pool_rel (pg_backend y) p') as (p1 & H1 & Hrel1).
  { destruct a as [a| |n]; simpl in E.
    - case_bool_decide; [done|]. destruct (pool_exec _ _ _ _ _) as [[b w]|] eqn:Ea; [|done]. injection E as <-. by eapply pool_simulated.
    - exists p. split; [done|]. unfold main_tail in E. destruct (pg_main x); try done; simpl in E; repeat case_match; by simplify_eq.
    - exists p. split; [done|]. destruct (pg_resolvers x !! n); [|done]. simpl in E. destruct (worker_step _ _ _) as [[[]]|]; [|done].
      by injection E as <-. }
  destruct (IH p1 Hrel1) as (p2 & H2 & Hrel2). exists p2. split; [by etrans|done].
Qed.

(** ** Its end, and that it gets there *)

Lemma pool_idle b p : pool_inv p → pool_rel b p → pb_prod b = PDone → tb_idle b.
Proof.
  intros Hi [_ Hp Hw _ _] Hd. pose proof (pi_join _ Hi ltac:(congruence)) as Hj. apply (exited_rel _ _ Hw) in Hj.
  assert (∀ pc, pc ∈ pb_workers b → pc = KExit) as Hall.
  { rewrite forallb_forall in Hj. intros pc Hin%list_elem_of_In%Hj. by destruct pc. }
  split; simpl.
  - apply Forall_fmap, Forall_forall. intros pc ->%Hall. done.
  - intros fd. unfold pool_clients. rewrite Hd. simpl. rewrite elem_of_app. intros [?|Hin]; [done|].
    apply list_elem_of_join in Hin as (l & Hl & (pc & -> & ->%Hall)%list_elem_of_fmap). set_solver.
Qed.

(** Not waiting for a timeout, a signal or a spurious wakeup. *)
Definition pool_works (a : ProgAct (@tb_act PoolBackend _)) : bool :=
  match a with ByBackend (PaMain _ | PaWorker _) | ByMain | ByResolver _ => true | ByBackend _ => false end.

Section progress.
Context {K C : Type} `{!Kernel K, !KernelLaws K, !ResponseCache C, !ResponseCacheLaws C}.
Context (cfg : Config).
Implicit Type w : World K C.

Lemma pool_work_total i pc b w : pc ≠ KSleep → pc ≠ KExit → is_Some (pool_work cfg i pc b w).
Proof.
  intros H1 H2. destruct pc; simpl; try done; [destruct (pop _) as [[[] ?]|]|destruct (Connection_new _ _ _)|destruct (serve_step _ _ _)]; by eexists.
Qed.

Lemma notify_empty_total ws : ∃ i, is_Some (notify_empty i ws).
Proof.
  unfold notify_empty. destruct (existsb asleep ws) eqn:E; [|by exists 0%nat].
  apply existsb_exists in E as (pc & Hin%list_elem_of_In & Hpc). apply list_elem_of_lookup in Hin as [i Hi].
  exists i. rewrite Hi. simpl. rewrite Hpc. by eexists.
Qed.

(** Where the abstract accept loop can go on, so can the program's. *)
Lemma pool_main_total listener b w p p' : prod_step p p' → pool_rel b p → ∃ i, is_Some (pool_main listener i b w).
Proof.
  intros Hs [_ Hp Hw _ _]. unfold pool_main. destruct (pb_prod b) eqn:Hpc.
  7: { destruct (notify_empty_total (pb_workers b)) as [i [ws Hi]]. exists i. rewrite Hi. by eexists. }
  all: exists 0%nat.
  - destruct (pb_stop b); [by eexists|]. destruct (wait_ready _ _ _ _). by eexists.
  - destruct (accept_one _ _) as [[[] ?] ?]; by eexists.
  - unfold pool_push. destruct (push_for _ _ _) as [[[] ?]|]; by eexists.
  - exfalso. destruct Hs; simplify_eq/=; repeat match goal with H : context [if ?e then _ else _] |- _ => destruct e end; done.
  - unfold pool_push. destruct (push_for _ _ _) as [[[] ?]|]; by eexists.
  - destruct (pb_stop b); by eexists.
  - destruct (close _). by eexists.
  - by eexists.
  - by eexists.
  - assert (Forall (eq WExit) (p_workers p)) as Hall.
    { destruct Hs; simplify_eq/=; try done; repeat match goal with H : context [if ?e then _ else _] |- _ => destruct e end; done. }
    apply (exited_rel _ _ Hw) in Hall. rewrite Hall. by eexists.
  - exfalso. destruct Hs; simplify_eq/=; repeat match goal with H : context [if ?e then _ else _] |- _ => destruct e end; done.
Qed.

Lemma pool_prog_progress F (x : Prog PoolBackend K C) capacity workers p :
  prog_ok F x → 0 ≤ capacity → 0 ≤ workers → pool_reach capacity workers p → pool_rel (pg_backend x) p →
  ∃ a x', pool_works a = true ∧ prog_exec cfg a x = Some x'.
Proof.
  intros Hx Hc Hn Hr Hrel. pose proof Hrel as [_ Hp Hw _ _].
  assert (∀ a b' w', tb_exec cfg (pg_listener x) a (pg_backend x) (pg_world x) = Some (b', w') →
    ∃ x', prog_exec cfg (ByBackend a) x = Some x') as Hdo.
  { intros a b' w' E. simpl. rewrite bool_decide_eq_false_2; [|intros Hm; pose proof (pk_main _ _ Hx); by rewrite Hm in *].
    simpl in E. rewrite E. by eexists. }
  destruct (decide (pb_prod (pg_backend x) = PDone)) as [Hd|Hd].
  { destruct (tail_progress cfg F x Hx) as (x' & a & Ha & E); [simpl; by rewrite Hd|]. exists a, x'. split; [|done].
    destruct a as [a| |]; try done. by destruct (Ha a). }
  destruct (decide (Exists (λ pc, asleep pc || pool_exited pc = false) (pb_workers (pg_backend x)))) as [He|He].
  - apply Exists_exists in He as (pc & [i Hi]%list_elem_of_lookup & Hpc).
    destruct (pool_work_total i pc (pg_backend x) (pg_world x)) as [[b' w'] E]; [by intros ->..|].
    destruct (Hdo (PaWorker i) b' w') as [x' Hx']; [simpl; by rewrite Hi|]. by exists (ByBackend (PaWorker i)), x'.
  - destruct (pool_progress _ _ _ Hc Hn Hr) as [Hdone|[p' [Hs|Hs]]]; [congruence|..].
    + destruct (pool_main_total (pg_listener x) _ (pg_world x) _ _ Hs Hrel) as [i [[b' w'] E]].
      destruct (Hdo (PaMain i) b' w' E) as [x' Hx']. by exists (ByBackend (PaMain i)), x'.
    + exfalso. apply He. clear -Hs Hw. destruct p as [q pr pws st acc pu po dr]. simpl in *.
      assert (∃ pc, pc ∈ pws ∧ pc ≠ WSleep ∧ pc ≠ WExit) as (pc & [i Hi]%list_elem_of_lookup & H1 & H2).
      { inversion Hs; subst; eexists; (split; [apply elem_of_at; by left|done]). }
      destruct (Forall2_lookup_r _ _ _ _ _ Hw Hi) as (k & Hk & Hr). apply Exists_exists. exists k.
      split; [by eapply list_elem_of_lookup_2|]. by destruct Hr.
Qed.
End progress.
