(* ===== verification/TpcProgram.v ===== *)
(** * The program with one thread per connection

[tpc_exec] is the backend of [backend/thread_per_conn.cpp] on the real kernel,
resolver and cache: the accept loop and the drain of [run] with the system calls they
make, and the detached threads with the connections they serve.  It keeps
the promise of [ThreadBackend] and implements the system of [ThreadPerConn.v] step by
step ([tpc_simulated]), so the counter [live_] is the barrier shown there. *)
From S2P Require Import Prelude CppString Http Config Cache CacheSpec Kernel Socket SocketSpec Resolver ResolverSpec.
From S2P Require Import Connection ConnectionInv ConnectionSpec EventLoop EventLoopInv ConnResolver EventThreads.
From S2P Require Import Crew ThreadPerConn ThreadProgram ThreadSys.

(** ** The threads *)

Inductive TpcThread :=
| TStart (fd id : Z)         (* started, about to make the connection *)
| TServe (pc : ServePc)
| TDestroyed                 (* the connection is gone, [live_] not yet decremented *)
| TGone.

Record TpcBackend := mkTpcB {
  tq_main : AccPc;           (* the thread that runs [run] *)
  tq_threads : list TpcThread;
  tq_live : Z;
  tq_stop : bool;
  tq_next_id : Z
}.

Definition TpcBackend_new : TpcBackend := mkTpcB ALoop [] 0 false 0.

Definition set_acc (pc : AccPc) (b : TpcBackend) : TpcBackend :=
  mkTpcB pc (tq_threads b) (tq_live b) (tq_stop b) (tq_next_id b).
Definition set_threads (ts : list TpcThread) (b : TpcBackend) : TpcBackend :=
  mkTpcB (tq_main b) ts (tq_live b) (tq_stop b) (tq_next_id b).
Definition set_live (n : Z) (b : TpcBackend) : TpcBackend :=
  mkTpcB (tq_main b) (tq_threads b) n (tq_stop b) (tq_next_id b).
Definition set_tpc_stop (b : TpcBackend) : TpcBackend :=
  mkTpcB (tq_main b) (tq_threads b) (tq_live b) true (tq_next_id b).

Section tpc.
Context {K C : Type} `{!Kernel K, !ResponseCache C}.
Implicit Type w : World K C.
Implicit Type b : TpcBackend.

(** [run]. *)
Definition tpc_main (listener : Z) b w : option (TpcBackend * World K C) :=
  match tq_main b with
  | ALoop =>
      if tq_stop b then Some (set_acc (ADrain 0) b, w) else
      let '(ready, k) := wait_ready listener false 200 (kern w) in
      Some (set_acc (if ready : bool then AAccept else ALoop) b, set_kern k w)
  | AAccept =>
      match accept_one listener (kern w) with
      | ((AcceptOk, fd), k) => Some (set_acc (ACount fd) b, set_kern k w)
      | ((AcceptOutOfFds, _), k) => Some (set_acc ALoop b, set_kern (fd_limit_current k).2 w)
      | (_, k) => Some (set_acc ALoop b, set_kern k w)
      end
  | ACount fd => Some (set_acc (ASpawn fd) (set_live (tq_live b + 1) b), w)
  | ASpawn fd =>
      Some (mkTpcB ALoop (tq_threads b ++ [TStart fd (tq_next_id b)]) (tq_live b) (tq_stop b) (wrap64 (tq_next_id b + 1)), w)
  | ADrain waited =>
      if (0 <? tq_live b) && (waited <? tpc_grace_ms)
      then Some (set_acc (ADrain (waited + 20)) b, set_kern (sys_sleep 20 (kern w)) w)
      else Some (set_acc (AReturned waited) b, w)
  | AReturned _ => None
  end.

(** [serve], in the thread with number [i]. *)
Definition tpc_thread (cfg : Config) (i : nat) (pc : TpcThread) b w : option (TpcBackend * World K C) :=
  let at_ pc b := set_threads (<[i := pc]> (tq_threads b)) b in
  match pc with
  | TStart fd id => let '(c, w) := Connection_new fd id w in Some (at_ (TServe (SWait c)) b, w)
  | TServe pc =>
      let '(o, w) := serve_step cfg pc w in
      Some (at_ (match o with Some pc => TServe pc | None => TDestroyed end) b, w)
  | TDestroyed => Some (at_ TGone (set_live (tq_live b - 1) b), w)
  | TGone => None
  end.

Inductive TpcAct := TaMain | TaThread (i : nat) | TaSignal.

Definition tpc_exec (cfg : Config) (listener : Z) (a : TpcAct) b w : option (TpcBackend * World K C) :=
  match a with
  | TaMain => tpc_main listener b w
  | TaThread i => pc ← tq_threads b !! i; tpc_thread cfg i pc b w
  | TaSignal => Some (set_tpc_stop b, w)
  end.
End tpc.

(** ** Connections and clients *)

Definition tt_conn (pc : TpcThread) : option Connection := match pc with TServe s => Some (serve_conn s) | _ => None end.
Definition tt_client (pc : TpcThread) : list Z := match pc with TStart fd _ => [fd] | _ => [] end.
Definition acc_hand (pc : AccPc) : list Z := match pc with ACount fd | ASpawn fd => [fd] | _ => [] end.

Definition tpc_clients (b : TpcBackend) : list Z := acc_hand (tq_main b) ++ mjoin (tt_client <$> tq_threads b).

#[export] Instance tpc_backend : ThreadBackend TpcBackend := {|
  tb_act := TpcAct;
  tb_exec := @tpc_exec;
  tb_conns b := tt_conn <$> tq_threads b;
  tb_clients := tpc_clients;
  tb_members _ := [];
  tb_returned b := match tq_main b with AReturned _ => true | _ => false end
|}.

Lemma tt_client_move (ts : list TpcThread) i pc pc' :
  ts !! i = Some pc → mjoin (tt_client <$> <[i := pc']> ts) ++ tt_client pc ≡ₚ mjoin (tt_client <$> ts) ++ tt_client pc'.
Proof.
  intros Hi. rewrite insert_take_drop by by eapply lookup_lt_Some. rewrite <-(take_drop_middle ts i pc Hi) at 3.
  rewrite !fmap_app, !fmap_cons, !join_app. simpl. solve_Permutation.
Qed.

Section laws.
Context {K C : Type} `{!Kernel K, !KernelLaws K, !ResponseCache C, !ResponseCacheLaws C}.
Context (cfg : Config) (ws : list WorkerPc) (listener : Z) (F : list Z).
Implicit Type w : World K C.
Implicit Type b : TpcBackend.

Definition tpc_crew b w : Prop := crew_inv ws (listener :: F) (tpc_clients b) (tt_conn <$> tq_threads b) w.

Lemma tpc_main_crew b w b' w' : tpc_crew b w → tpc_main listener b w = Some (b', w') → tpc_crew b' w'.
Proof.
  intros Hcw E. unfold tpc_main in E. unfold tpc_crew in *.
  assert (∀ pc n, acc_hand pc = acc_hand (tq_main b) →
    crew_inv ws (listener :: F) (tpc_clients (set_acc pc (set_live n b))) (tt_conn <$> tq_threads b) w) as Hgo.
  { intros pc n Hh. eapply crew_perm, Hcw. unfold tpc_clients. simpl. by rewrite Hh. }
  assert (∀ pc k, acc_hand pc = acc_hand (tq_main b) → silent (kern w) k →
    crew_inv ws (listener :: F) (tpc_clients (set_acc pc b)) (tt_conn <$> tq_threads b) (set_kern k w)) as Hmove.
  { intros pc k Hh Hk. apply crew_silent; [by apply (Hgo pc (tq_live b))|done]. }
  destruct (tq_main b) as [| |fd|fd|waited|waited] eqn:Hpc; try done.
  - destruct (tq_stop b); [injection E as <- <-; by apply (Hgo _ (tq_live b))|]. destruct (wait_ready _ _ _ _) as [ready k] eqn:Ew.
    apply wait_ready_silent in Ew. injection E as <- <-. apply Hmove; [by destruct ready|done].
  - destruct (accept_one listener (kern w)) as [[st fd] k] eqn:Ea. apply accept_one_spec in Ea.
    destruct st; simpl in Ea; injection E as <- <-; [|by apply Hmove| |by apply Hmove].
    + apply (crew_opened _ _ _ _ _ _ _ Hcw) in Ea. eapply crew_perm, Ea. unfold tpc_clients. simpl. by rewrite Hpc.
    + destruct (fd_limit_current k) as [n k1] eqn:E1. apply fd_limit_current_silent in E1. apply Hmove; [done|]. by eapply silent_trans.
  - injection E as <- <-. by apply Hgo.
  - injection E as <- <-. unfold tpc_clients in *. simpl. rewrite Hpc in Hcw. simpl in Hcw. rewrite !fmap_app, join_app. simpl.
    eapply crew_perm, crew_same, Hcw.
    + solve_Permutation.
    + intros i c. unfold serves. rewrite lookup_snoc_Some. split; [naive_solver|]. intros Hc. left. split; [by eapply lookup_lt_Some|done].
  - destruct (_ && _); injection E as <- <-; [|by apply (Hgo _ (tq_live b))]. apply Hmove; [done|]. apply sleep_silent.
Qed.

Lemma tpc_thread_crew i pc b w b' w' :
  tpc_crew b w → tq_threads b !! i = Some pc → tpc_thread cfg i pc b w = Some (b', w') → tpc_crew b' w'.
Proof.
  intros Hcw Hi E. assert ((tt_conn <$> tq_threads b) !! i = Some (tt_conn pc)) as Hic by by rewrite list_lookup_fmap, Hi.
  assert (∀ pc' n w2, tt_client pc = [] → tt_client pc' = [] →
    crew_inv ws (listener :: F) (tpc_clients b) (<[i := tt_conn pc']> (tt_conn <$> tq_threads b)) w2 →
    tpc_crew (set_threads (<[i := pc']> (tq_threads b)) (set_live n b)) w2) as Hput.
  { intros pc' n w2 Ho Hn Hcw2. unfold tpc_crew. simpl. rewrite list_fmap_insert. eapply crew_perm, Hcw2. unfold tpc_clients. simpl.
    pose proof (tt_client_move _ _ _ pc' Hi) as Hm. rewrite Hn, Ho, !(right_id_L [] (++)) in Hm. by rewrite Hm. }
  destruct pc as [fd id|s| |]; simpl in E; try done.
  - destruct (Connection_new fd id w) as [c w1] eqn:Ec. injection E as <- <-.
    assert (tpc_clients b ≡ₚ fd :: tpc_clients (set_threads (<[i := TServe (SWait c)]> (tq_threads b)) b)) as Hp.
    { unfold tpc_clients. simpl. pose proof (tt_client_move _ _ _ (TServe (SWait c)) Hi) as Hm. simpl in Hm.
      rewrite (right_id_L [] (++)) in Hm. rewrite <-Hm. solve_Permutation. }
    unfold tpc_crew in *. apply (crew_perm _ _ _ _ _ _ Hp) in Hcw. apply (crew_new _ _ _ _ i _ id) in Hcw; [|done].
    rewrite Ec in Hcw. simpl in Hcw |- *. rewrite list_fmap_insert. exact Hcw.
  - pose proof (crew_serve cfg _ _ _ _ i s w Hcw Hic) as Hs.
    destruct (serve_step cfg s w) as [[s'|] w1]; injection E as <- <-; by apply (Hput _ (tq_live b)).
  - injection E as <- <-. apply Hput; [done|done|]. by rewrite list_insert_id.
Qed.
End laws.

#[export] Instance tpc_backend_laws : ThreadBackendLaws TpcBackend.
Proof.
  split.
  - intros K C HK HKL HC HCL cfg ws listener F a b w b' w' Hcw E. simpl in *.
    assert (tpc_crew ws listener F b w) as Hb by done. change (tpc_crew ws listener F b' w'). destruct a as [|i|]; simpl in E.
    + by eapply tpc_main_crew.
    + destruct (tq_threads b !! i) as [pc|] eqn:Hi; [|done]. by eapply tpc_thread_crew.
    + by injection E as <- <-.
  - intros K C HK HC cfg listener a b w b' w' E. destruct a as [|i|]; simpl in E.
    + unfold tpc_main in E. destruct (tq_main b); try done; repeat case_match; by simplify_eq.
    + destruct (tq_threads b !! i) as [pc|]; [|done]. simpl in E. destruct pc as [fd id|s| |]; simpl in E; try done.
      * unfold Connection_new in E. destruct (set_nonblocking _ _). by simplify_eq.
      * pose proof (serve_step_closed cfg s w) as H. destruct (serve_step cfg s w). by simplify_eq.
      * by simplify_eq.
    + by simplify_eq.
  - intros K C HK HC cfg listener a b w b' w' E Hr. simpl in *. destruct (tq_main b) eqn:Hpc; try done.
    destruct a as [|i|]; simpl in E.
    + unfold tpc_main in E. by rewrite Hpc in E.
    + destruct (tq_threads b !! i) as [pc|]; [|done]. simpl in E. destruct pc; simpl in E; try done.
      * destruct (Connection_new _ _ _). simplify_eq. simpl. by rewrite Hpc.
      * destruct (serve_step _ _ _). simplify_eq. simpl. by rewrite Hpc.
      * simplify_eq. simpl. by rewrite Hpc.
    + simplify_eq. simpl. by rewrite Hpc.
  - intros b fd Hin. simpl in Hin. set_solver.
Qed.

(** ** What it implements *)

Inductive thread_rel : TpcThread → ConnPc → Prop :=
| tr_start fd id : thread_rel (TStart fd id) (CServing fd)
| tr_serve s fd : thread_rel (TServe s) (CServing fd)
| tr_destroyed : thread_rel TDestroyed CDestroyed
| tr_gone : thread_rel TGone CGone.

Record tpc_rel (b : TpcBackend) (t : Threads) : Prop := {
  tl_main : t_main t = tq_main b;
  tl_threads : Forall2 thread_rel (tq_threads b) (t_conns t);
  tl_live : t_live t = tq_live b;
  tl_stop : t_stop t = tq_stop b
}.

Lemma thread_rel_at ts cs i pc :
  Forall2 thread_rel ts cs → ts !! i = Some pc → ∃ a pc' b, cs = a ++ pc' :: b ∧ thread_rel pc pc' ∧
    ∀ k k', thread_rel k k' → Forall2 thread_rel (<[i := k]> ts) (a ++ k' :: b).
Proof.
  intros Hf Hi. destruct (Forall2_lookup_l _ _ _ _ _ Hf Hi) as (pc' & Hi' & Hr).
  exists (take i cs), pc', (drop (S i) cs). split; [symmetry; by apply take_drop_middle|]. split; [done|].
  intros k k' Hk. rewrite <-insert_take_drop by by eapply lookup_lt_Some. by apply Forall2_insert.
Qed.

Section simulation.
Context {K C : Type} `{!Kernel K, !ResponseCache C}.
Context (cfg : Config) (listener : Z).
Implicit Type w : World K C.
Implicit Type b : TpcBackend.

Definition tpc_follows (t : Threads) (b' : TpcBackend) : Prop := ∃ t', rtc tstep t t' ∧ tpc_rel b' t'.

Lemma tpc_follows_one t t' b' : tstep t t' → tpc_rel b' t' → tpc_follows t b'.
Proof. intros Hs Hr. exists t'. split; [by apply rtc_once|done]. Qed.

Ltac rel_split := split; simpl; try done; try congruence; eauto.

Lemma tpc_main_followed b w b' w' t : tpc_main listener b w = Some (b', w') → tpc_rel b t → tpc_follows t b'.
Proof.
  intros E [Hm Ht Hl Hs]. destruct t as [m cs lv st acc]. simpl in *. subst m lv st. unfold tpc_main in E.
  destruct (tq_main b) as [| |fd|fd|waited|waited] eqn:Hpc; try done.
  - destruct (tq_stop b) eqn:Hst; [injection E as <- <-; eapply tpc_follows_one; [apply ts_stop_seen|rel_split]|].
    destruct (wait_ready _ _ _ _) as [[] k]; injection E as <- <-; [eapply tpc_follows_one; [apply ts_go|rel_split]|].
    eexists. split; [eapply rtc_l; [apply ts_go|apply rtc_once, ts_nobody]|]. rel_split.
  - destruct (accept_one _ _) as [[st fd] k].
    destruct st; injection E as <- <-; [eapply tpc_follows_one; [apply (ts_accept _ _ _ _ fd)|rel_split]|
      eapply tpc_follows_one; [apply ts_nobody|rel_split]..].
  - injection E as <- <-. eapply tpc_follows_one; [apply ts_count|]. rel_split.
  - injection E as <- <-. eapply tpc_follows_one; [apply ts_spawn|]. rel_split. simpl. apply Forall2_app; [done|].
    repeat constructor.
  - destruct (Z.ltb_spec 0 (tq_live b)), (Z.ltb_spec waited tpc_grace_ms); simpl in E; injection E as <- <-;
      (eapply tpc_follows_one; [first [apply ts_wait; done|apply ts_return; lia]|rel_split]).
Qed.

Lemma tpc_simulated a b w b' w' t : tpc_exec cfg listener a b w = Some (b', w') → tpc_rel b t → tpc_follows t b'.
Proof.
  intros E Hrel. destruct a as [|i|]; simpl in E; [by eapply tpc_main_followed| |].
  - destruct Hrel as [Hm Ht Hl Hs]. destruct t as [m cs lv st acc]. simpl in *. subst m lv st.
    destruct (tq_threads b !! i) as [pc|] eqn:Hi; [|done]. simpl in E.
    destruct (thread_rel_at _ _ _ _ Ht Hi) as (a & pc' & c & -> & Hr & Hput). destruct Hr as [fd id|s fd| |]; simpl in E; try done.
    + destruct (Connection_new _ _ _) as [cn w1]. injection E as <- <-. eexists. split; [apply rtc_refl|]. rel_split. apply Hput. constructor.
    + destruct (serve_step _ _ _) as [[s'|] w1]; injection E as <- <-.
      * eexists. split; [apply rtc_refl|]. rel_split. apply Hput. constructor.
      * eapply tpc_follows_one; [apply ts_served|]. rel_split. apply Hput. constructor.
    + injection E as <- <-. eapply tpc_follows_one; [apply ts_gone|]. rel_split. apply Hput. constructor.
  - injection E as <- <-. destruct Hrel as [Hm Ht Hl Hs]. destruct t as [m cs lv st acc]. simpl in *.
    eapply tpc_follows_one; [apply ts_signal|]. rel_split.
Qed.
End simulation.

Lemma tpc_prog_simulated {K C} `{!Kernel K, !ResponseCache C} cfg (x x' : Prog TpcBackend K C) t :
  prog_reach cfg x x' → tpc_rel (pg_backend x) t → ∃ t', rtc tstep t t' ∧ tpc_rel (pg_backend x') t'.
Proof.
  intros Hr. revert t. induction Hr as [|x y z [a E] _ IH]; intros t Hrel; [by exists t|].
  assert (∃ t', rtc tstep t t' ∧ tpc_rel (pg_backend y) t') as (t1 & H1 & Hrel1).
  { destruct a as [a| |n]; simpl in E.
    - case_bool_decide; [done|]. destruct (tpc_exec _ _ _ _ _) as [[b w]|] eqn:Ea; [|done]. injection E as <-. by eapply tpc_simulated.
    - exists t. split; [done|]. unfold main_tail in E. destruct (pg_main x); try done; simpl in E; repeat case_match; by simplify_eq.
    - exists t. split; [done|]. destruct (pg_resolvers x !! n); [|done]. simpl in E. destruct (worker_step _ _ _) as [[[]]|]; [|done].
      by injection E as <-. }
  destruct (IH t1 Hrel1) as (t2 & H2 & Hrel2). exists t2. split; [by etrans|done].
Qed.

(** ** Its end *)

(** Every thread has finished. *)
Lemma tpc_all_gone b t : tpc_rel b t → alive_count (t_conns t) = 0 → Forall (eq TGone) (tq_threads b).
Proof.
  intros [_ Ht _ _] Hz. apply Forall_forall. intros pc [i Hi]%list_elem_of_lookup.
  destruct (Forall2_lookup_l _ _ _ _ _ Ht Hi) as (k & Hk & Hr). apply list_elem_of_lookup_2, (alive_zero _ _ Hz) in Hk. subst k. by inversion Hr.
Qed.

Lemma tpc_idle b t : tpc_rel b t → alive_count (t_conns t) = 0 → acc_hand (tq_main b) = [] → tb_idle b.
Proof.
  intros Hrel Hz Hh. pose proof (tpc_all_gone b t Hrel Hz) as Hall. rewrite Forall_forall in Hall. split; simpl.
  - apply Forall_fmap, Forall_forall. intros pc <-%Hall. done.
  - intros fd. unfold tpc_clients. rewrite Hh. simpl. intros Hin.
    apply list_elem_of_join in Hin as (l & Hl & (pc & -> & <-%Hall)%list_elem_of_fmap). set_solver.
Qed.

(** The main thread never waits for another before [run] has returned. *)
Lemma tpc_main_total {K C} `{!Kernel K, !ResponseCache C} listener b (w : World K C) :
  (∀ n, tq_main b ≠ AReturned n) → is_Some (tpc_main listener b w).
Proof.
  intros Hn. unfold tpc_main. destruct (tq_main b) as [| | | | |n]; try (by eexists).
  - destruct (tq_stop b); [by eexists|]. destruct (wait_ready _ _ _ _). by eexists.
  - destruct (accept_one _ _) as [[[] ?] ?]; by eexists.
  - destruct (_ && _); by eexists.
  - by destruct (Hn n).
Qed.
