(* ===== verification/ThreadRun.v ===== *)
(** * The program with a thread backend, from [main] to its end

[launch_with] is [main] up to the point where the threads of the thread pool or of the
thread-per-connection backend run; they then act in any order ([prog_reach]) until
[main] has returned.  The theorems hold of every state on the way, for
whatever the kernel answers. *)
From S2P Require Import Prelude CppString Http Config Cache CacheSpec Kernel SimKernel Socket SocketSpec Resolver ResolverSpec.
From S2P Require Import Connection ConnectionInv ConnectionSpec EventLoop EventLoopInv ConnResolver EventThreads ProxyStart Main MainSpec.
From S2P Require Import ConnQueue ThreadPool ThreadPerConn Crew ThreadProgram ThreadSys PoolProgram TpcProgram.

(** The backend [main] made, if it is of the kind asked for. *)
Definition pick_pool (bk : Backend) : option PoolBackend :=
  match bk with BThreadPool q n => Some (PoolBackend_new q n) | _ => None end.
Definition pick_tpc (bk : Backend) : option TpcBackend :=
  match bk with BThreadPerConn => Some TpcBackend_new | _ => None end.

Definition launch_with {B K} `{!Kernel K} (pick : Backend → option B) (open_file : str → option str) (args : list str) (k : K) :
    option (Config * Prog B K LruCache) :=
  match main_setup open_file args k with
  | (inr su, k) =>
      b ← pick (su_backend su);
      Some (su_cfg su, prog_begin (su_listener su) k (su_resolver su) (su_cache su) (Z.to_nat (su_resolver_threads su)) b)
  | (inl _, _) => None
  end.

(** A backend that has just been made has no clients. *)
Definition picks_fresh {B} `{!ThreadBackend B} (pick : Backend → option B) : Prop :=
  ∀ cfg b, pick (make_backend cfg) = Some b → tb_clients b = [] ∧ Forall (eq None) (tb_conns b).

Lemma picked_pool cfg b : pick_pool (make_backend cfg) = Some b →
  b = PoolBackend_new (ConnQueue_new (job_queue_capacity cfg)) (if thread_pool_size cfg =? 0 then 1 else thread_pool_size cfg).
Proof.
  unfold make_backend, make_thread_pool, make_event_loop.
  destruct (Config.backend cfg); [done|by intros [= <-]|by destruct (1 <? _)].
Qed.

Lemma picked_tpc cfg b : pick_tpc (make_backend cfg) = Some b → b = TpcBackend_new.
Proof.
  unfold make_backend, make_thread_pool, make_event_loop.
  destruct (Config.backend cfg); [by intros [= <-]|done|by destruct (1 <? _)].
Qed.

Lemma pick_pool_fresh : picks_fresh pick_pool.
Proof.
  intros cfg b ->%picked_pool. simpl. unfold pool_clients. simpl. split.
  - induction (Z.to_nat _) as [|n IH]; [done|]. by simpl.
  - apply Forall_fmap, Forall_replicate. done.
Qed.

Lemma pick_tpc_fresh : picks_fresh pick_tpc.
Proof. intros cfg b ->%picked_tpc. by split. Qed.

Section program.
Context {K : Type} `{!Kernel K, !KernelLaws K}.

(** ** Whatever the backend *)

Section any.
Context {B : Type} `{!ThreadBackend B, !ThreadBackendLaws B}.
Context (pick : Backend → option B) (open_file : str → option str) (args : list str).
Context (k : K) (cfg : Config) (x x' : Prog B K LruCache).

(** [x'] is a state of the program started in [k]. *)
Record thread_state : Prop := {
  td_fresh : picks_fresh pick;
  td_wf : obs_wf (obs k);
  td_launch : launch_with pick open_file args k = Some (cfg, x);
  td_reach : prog_reach cfg x x'
}.

Lemma launched : thread_state →
  ∃ F, prog_inv F x' ∧ config_typed cfg ∧ pick (make_backend cfg) = Some (pg_backend x) ∧
    fdt (obs k) !! pg_listener x' = None ∧ ∀ fd, fd ∈ F ↔ is_Some (fdt (obs k) !! fd).
Proof.
  intros [Hp Hw E Hr]. unfold launch_with in E. destruct (main_setup open_file args k) as [[code|su] k1] eqn:Es; [done|].
  destruct (main_setup_descriptors _ _ _ _ _ Hw Es) as (Hw1 & _ & Hno & f & Hf & Ht).
  unfold main_setup in Es. destruct (configure _ _) as [|cfg'] eqn:Ec; [done|].
  destruct (fd_limit_raise _ _) as [limit k2]. destruct (listen_on _ _ _ _ _) as [lfd k3]. destruct (negb _); [done|]. injection Es as <- <-.
  apply configure_typed in Ec. simpl in *. destruct (pick (make_backend cfg')) as [b|] eqn:Eb; [|done]. simpl in E. injection E as <- <-.
  destruct (Hp _ _ Eb) as [Hcl Hcn]. eexists.
  destruct (prog_reach_inv cfg' _ _ x' (or_introl (prog_begin_ok lfd k3 (dns_cache_ttl_s cfg') (resolve_delay_ms cfg') _
    (Z.to_nat (if async_resolve cfg' then resolver_threads cfg' else 0)) b Hw1 ltac:(rewrite Ht, lookup_insert_eq; eauto)
    (shard_cache_ok cfg' _) Hcl Hcn)) Hr) as [HI Hl].
  split; [exact HI|]. split; [done|]. split; [done|]. split; [by rewrite Hl|]. intros fd.
  rewrite elem_of_elements, elem_of_difference, elem_of_open, Ht, lookup_insert_is_Some', elem_of_singleton. split; [naive_solver|].
  intros Hs. split; [by right|]. intros ->. destruct Hs. congruence.
Qed.

Lemma launched_ok : thread_state → pg_main x' ≠ PgExit →
  ∃ F, prog_ok F x' ∧ ∀ fd, fd ∈ F ↔ is_Some (fdt (obs k) !! fd).
Proof. intros Hs Hne. destruct (launched Hs) as (F & [Hx|Hx] & _ & _ & _ & HF); [eauto|]. by destruct (pn_main _ _ Hx). Qed.

Lemma launched_gone : thread_state → pg_main x' = PgExit → tb_idle (pg_backend x') →
  ∀ fd, is_Some (fdt (obs (kern (pg_world x'))) !! fd) ↔ is_Some (fdt (obs k) !! fd).
Proof.
  intros Hs He Hid fd. destruct (launched Hs) as (F & [Hx|Hx] & _ & _ & _ & <-); [|by apply (pn_open _ _ Hx)].
  pose proof (pk_main _ _ Hx) as Hm. by rewrite He in Hm.
Qed.

(** C11: Every descriptor has one owner, with a thread per connection and with a thread
pool.  Whatever the threads, the accept loop, the resolver threads and signals do in
whatever order, until [main] returns: an open descriptor was open before the
program started or has a holder (the listener of the backend, a client waiting for a
thread, the connection of one thread, or a lookup whose connection has gone); no open
descriptor has two; and what was open before stays open and is never the program's. *)
Theorem thread_descriptors_have_one_owner :
  thread_state → pg_main x' ≠ PgExit →
  (∀ fd, is_Some (fdt (obs (kern (pg_world x'))) !! fd) → is_Some (fdt (obs k) !! fd) ∨ ∃ h, held_by x' h fd) ∧
  (∀ fd h h', is_Some (fdt (obs (kern (pg_world x'))) !! fd) → held_by x' h fd → held_by x' h' fd → h = h') ∧
  (∀ fd h, is_Some (fdt (obs k) !! fd) → is_Some (fdt (obs (kern (pg_world x'))) !! fd) ∧ ¬ held_by x' h fd) ∧
  NoDup (tb_clients (pg_backend x')).
Proof.
  intros Hs Hne. destruct (launched_ok Hs Hne) as (F & Hx & HF). split_and!.
  - intros fd Ho. destruct (holder_exists F x' Hx fd Ho) as [?%HF|?]; auto.
  - intros fd h h'. apply (holder_unique F x' Hx).
  - intros fd h ?%HF. by apply (holder_foreign F x' Hx).
  - pose proof (co_nodup _ _ _ _ (cw_ok _ _ _ _ _ (pk_crew _ _ Hx))) as Hnd. simpl in Hnd. by apply NoDup_cons in Hnd as [_ (_ & _ & ?)%NoDup_app].
Qed.

End any.

(** ** The thread pool *)

Section pool.
Context (open_file : str → option str) (args : list str) (k : K) (cfg : Config) (x x' : Prog PoolBackend K LruCache).

Lemma pool_matched : thread_state pick_pool open_file args k cfg x x' →
  ∃ p, pool_reach (job_queue_capacity cfg) (thread_pool_size cfg) p ∧ pool_rel (pg_backend x') p ∧
    0 ≤ job_queue_capacity cfg ∧ 0 ≤ thread_pool_size cfg.
Proof.
  intros Hs. destruct (launched _ _ _ _ _ _ _ Hs) as (F & _ & Hty & Hb & _).
  assert (pool_rel (pg_backend x) (Pool_new (job_queue_capacity cfg) (thread_pool_size cfg))) as Hrel.
  { rewrite (picked_pool _ _ Hb). split; simpl; try done. apply Forall2_replicate. constructor. }
  destruct (prog_simulated cfg x x' _ (td_reach _ _ _ _ _ _ _ Hs) Hrel) as (p & Hr & Hrel'). exists p.
  split; [done|]. split; [done|]. destruct Hty as [? ? Hn [Hq _] ? ? ? ? ? ? ? ? ? ? ? ? ?]. split; [done|]. apply Hn.
Qed.


(** C15: The thread pool leaves nothing behind.  When [main] has returned, every worker has
exited, the queue is empty, no thread has a connection, and exactly those
descriptors are open that were open before [main] started. *)
Theorem pool_program_leaves_nothing :
  thread_state pick_pool open_file args k cfg x x' → pg_main x' = PgExit →
  Forall (eq KExit) (pb_workers (pg_backend x')) ∧ cq_queue (pb_queue (pg_backend x')) = [] ∧
  ∀ fd, is_Some (fdt (obs (kern (pg_world x'))) !! fd) ↔ is_Some (fdt (obs k) !! fd).
Proof.
  intros Hs He. destruct (pool_matched Hs) as (p & Hr & Hrel & Hc & Hn). pose proof Hrel as [Hq Hp Hw _ _].
  assert (pb_prod (pg_backend x') = PDone) as Hd.
  { destruct (launched _ _ _ _ _ _ _ Hs) as (F & [Hx|Hx] & _); [pose proof (pk_main _ _ Hx) as Hm; by rewrite He in Hm|].
    pose proof (pn_returned _ _ Hx) as Hret. simpl in Hret. by destruct (pb_prod (pg_backend x')). }
  destruct (pool_shutdown _ _ _ Hc Hn Hr ltac:(congruence)) as (Hall & Hqe & _). split_and!; [|congruence|].
  - apply Forall_forall. intros pc [i Hi]%list_elem_of_lookup. destruct (Forall2_lookup_l _ _ _ _ _ Hw Hi) as (pc' & Hi' & Hpc).
    rewrite Forall_lookup in Hall. apply Hall in Hi'. subst pc'. by inversion Hpc.
  - apply (launched_gone _ _ _ _ _ _ _ Hs He). by apply (pool_idle _ _ (pool_reach_inv _ _ _ Hc Hr) Hrel).
Qed.

End pool.

(** ** One thread per connection *)

Section tpc.
Context (open_file : str → option str) (args : list str) (k : K) (cfg : Config) (x x' : Prog TpcBackend K LruCache).

Lemma tpc_matched : thread_state pick_tpc open_file args k cfg x x' → ∃ t, rtc tstep Threads_new t ∧ tpc_rel (pg_backend x') t.
Proof.
  intros Hs. destruct (launched _ _ _ _ _ _ _ Hs) as (F & _ & _ & Hb & _).
  apply (tpc_prog_simulated cfg x x'); [by apply Hs|]. by rewrite (picked_tpc _ _ Hb).
Qed.

Definition thread_busy (pc : TpcThread) : bool := match pc with TGone => false | _ => true end.

(** The threads that have not finished with what they share. *)
Definition unfinished (b : TpcBackend) : Z := zlen (filter (λ pc, thread_busy pc = true) (tq_threads b)).

Lemma unfinished_alive b t : tpc_rel b t → unfinished b = alive_count (t_conns t).
Proof.
  intros [_ Ht _ _]. unfold unfinished, alive_count, zlen. f_equal.
  induction Ht as [|pc pc' ts cs Hr _ IH]; [done|]. rewrite !filter_cons. destruct Hr; simpl; rewrite ?IH; repeat case_decide; done.
Qed.

(** C16: The program implements the counted threads, and [live_] is its barrier.  In every
state of the whole program with a thread per connection there is a state of the
system of [ThreadPerConn.v] in the same place, reached by the same steps; [live_] is the
number of threads that have not finished with what they share, plus the one about to
be started; the drain never waits longer than 30 seconds; and [run] has returned, and
with it everything [main] does after it has begun, only when every thread has finished or
when those 30 seconds are over. *)
Theorem tpc_program_barrier :
  thread_state pick_tpc open_file args k cfg x x' →
  let b := pg_backend x' in
  (∃ t, rtc tstep Threads_new t ∧ tpc_rel b t) ∧
  tq_live b = unfinished b + counted (tq_main b) ∧
  (∀ waited, draining (tq_main b) = Some waited → 0 ≤ waited ≤ tpc_grace_ms) ∧
  (pg_main x' ≠ PgRun → ∃ waited, tq_main b = AReturned waited ∧ (Forall (eq TGone) (tq_threads b) ∨ waited = tpc_grace_ms)).
Proof.
  intros Hs b. subst b. destruct (tpc_matched Hs) as (t & Hr & Hrel). pose proof (treach_inv t Hr) as [Hl Hw Hb].
  pose proof Hrel as [Hm Ht Hlv _]. split; [by exists t|]. rewrite <-Hlv, <-Hm, (unfinished_alive _ _ Hrel). split; [done|]. split; [intros n Hn; by apply Hw|].
  intros Hne. assert (tb_returned (pg_backend x') = true) as Hret.
  { destruct (launched _ _ _ _ _ _ _ Hs) as (F & [Hx|Hx] & _); [|by apply (pn_returned _ _ Hx)].
    pose proof (pk_main _ _ Hx) as Hpk. destruct (pg_main x'); [done|by destruct Hpk..]. }
  simpl in Hret. destruct (tq_main (pg_backend x')) as [| | | | |waited] eqn:Hq; try done. exists waited. split; [congruence|].
  destruct (Hb waited ltac:(congruence)) as [Hz|?]; [left; by eapply tpc_all_gone|by right].
Qed.

(** What is neither a signal nor a connection thread. *)
Definition tpc_works (a : ProgAct (@tb_act TpcBackend _)) : bool :=
  match a with ByBackend TaMain | ByMain | ByResolver _ => true | _ => false end.

End tpc.
End program.

(** ** One client

Three descriptors are open when [main] starts.  The client is accepted, its request
read and its host looked up, and the origin's answer is relayed ([pool_busy],
[tpc_busy]); then a signal stops the program and [main] returns ([pool_left],
[tpc_left]). *)
Definition td_file (path : str) : option str := None.
Definition td_chunks (f : nat) : list str := match f with 4%nat => [demo_ask] | 7%nat => demo_reply | _ => [] end.
Definition td_sim : Sim := mkSim (foldr obs_open obs0 [2; 1; 0]) 0 0 td_chunks (inr [loopback]) 1 [].

Lemma td_sim_wf : obs_wf (obs td_sim).
Proof. cbn. repeat (apply obs_open_wf; [|lia|vm_compute; reflexivity]). apply obs0_wf. Qed.

(** The resolver threads, the first of which has done a lookup, return. *)
Definition resolvers_leave {A} : list (ProgAct A) := [ByMain; ByResolver 0; ByResolver 0; ByResolver 1; ByResolver 2; ByResolver 3; ByMain; ByMain].

Definition pool_args : list str := [lit "-b"; lit "thread_pool"; lit "-w"; lit "1"; lit "-q"; lit "1"].
Definition pool_start : Config * Prog PoolBackend Sim LruCache :=
  default (Config_default, prog_begin 0 td_sim (Resolver_new 0 0) None 0 (PoolBackend_new (ConnQueue_new 1) 1))
    (launch_with pick_pool td_file pool_args td_sim).
Definition pool_after (acts : list (ProgAct (@tb_act PoolBackend _))) : Prog PoolBackend Sim LruCache :=
  default pool_start.2 (prog_run pool_start.1 acts pool_start.2).

Definition pool_serving : list (ProgAct (@tb_act PoolBackend _)) :=
  ByBackend (PaWorker 0) :: repeat (ByBackend (PaMain 0)) 4 ++ repeat (ByBackend (PaWorker 0)) 6 ++ repeat (ByResolver 0) 7 ++ repeat (ByBackend (PaWorker 0)) 8.
Definition pool_stopping : list (ProgAct (@tb_act PoolBackend _)) :=
  repeat (ByBackend (PaWorker 0)) 7 ++ ByBackend PaSignal :: repeat (ByBackend (PaMain 0)) 4 ++
  [ByBackend (PaWorker 0); ByBackend (PaMain 0)] ++ resolvers_leave.
Definition pool_busy : Prog PoolBackend Sim LruCache := pool_after pool_serving.
Definition pool_left : Prog PoolBackend Sim LruCache := pool_after (pool_serving ++ pool_stopping).

Lemma pool_reached acts x' : prog_run pool_start.1 acts pool_start.2 = Some x' →
  thread_state pick_pool td_file pool_args td_sim pool_start.1 pool_start.2 x'.
Proof. intros H. split; [apply pick_pool_fresh|apply td_sim_wf|vm_compute; reflexivity|by eapply prog_run_steps]. Qed.

Lemma pool_busy_state : thread_state pick_pool td_file pool_args td_sim pool_start.1 pool_start.2 pool_busy.
Proof. apply (pool_reached pool_serving). vm_compute. reflexivity. Qed.

Lemma pool_left_state : thread_state pick_pool td_file pool_args td_sim pool_start.1 pool_start.2 pool_left.
Proof. apply (pool_reached (pool_serving ++ pool_stopping)). vm_compute. reflexivity. Qed.

Definition tpc_args : list str := [lit "-b"; lit "thread_per_conn"].
Definition tpc_start : Config * Prog TpcBackend Sim LruCache :=
  default (Config_default, prog_begin 0 td_sim (Resolver_new 0 0) None 0 TpcBackend_new) (launch_with pick_tpc td_file tpc_args td_sim).
Definition tpc_after (acts : list (ProgAct (@tb_act TpcBackend _))) : Prog TpcBackend Sim LruCache :=
  default tpc_start.2 (prog_run tpc_start.1 acts tpc_start.2).

Definition tpc_serving : list (ProgAct (@tb_act TpcBackend _)) := repeat (ByBackend TaMain) 4 ++ repeat (ByBackend (TaThread 0)) 3 ++ repeat (ByResolver 0) 7.
Definition tpc_stopping : list (ProgAct (@tb_act TpcBackend _)) :=
  repeat (ByBackend (TaThread 0)) 16 ++ [ByBackend TaSignal; ByBackend TaMain; ByBackend TaMain; ByBackend (TaThread 0); ByBackend TaMain] ++ resolvers_leave.
Definition tpc_left : Prog TpcBackend Sim LruCache := tpc_after (tpc_serving ++ tpc_stopping).

Lemma tpc_reached acts x' : prog_run tpc_start.1 acts tpc_start.2 = Some x' →
  thread_state pick_tpc td_file tpc_args td_sim tpc_start.1 tpc_start.2 x'.
Proof. intros H. split; [apply pick_tpc_fresh|apply td_sim_wf|vm_compute; reflexivity|by eapply prog_run_steps]. Qed.

Lemma tpc_left_state : thread_state pick_tpc td_file tpc_args td_sim tpc_start.1 tpc_start.2 tpc_left.
Proof. apply (tpc_reached (tpc_serving ++ tpc_stopping)). vm_compute. reflexivity. Qed.

(** The connection the pool's worker serves in [pool_busy]. *)
Definition busy_conn : Connection := default (Connection_new 0 0 (pg_world pool_busy)).1 (mjoin (tb_conns (pg_backend pool_busy) !! 0%nat)).

Lemma thread_descriptors_have_one_owner_witness :
  open_fds (obs (kern (pg_world pool_busy))) = list_to_set [0; 1; 2; 3; 4; 5; 6] ∧
  held_by pool_busy HListener 3 ∧ ¬ held_by pool_busy (HThread 0) 3 ∧ ¬ held_by pool_busy (HThread 0) 2.
Proof.
  assert (held_by pool_busy HListener 3) as H3 by (vm_compute; reflexivity).
  destruct (thread_descriptors_have_one_owner pick_pool td_file pool_args td_sim pool_start.1 pool_start.2 pool_busy
    pool_busy_state ltac:(vm_compute; discriminate)) as (_ & H1 & H2 & _).
  split; [vm_compute; reflexivity|]. split; [exact H3|]. split.
  - intros H. assert (HListener = HThread 0) as Heq; [|discriminate Heq].
    apply (H1 3); [vm_compute; by eexists|exact H3|exact H].
  - apply (H2 2). vm_compute. by eexists.
Defined.



Lemma pool_program_leaves_nothing_witness :
  pb_workers (pg_backend pool_left) = [KExit] ∧ is_Some (fdt (obs (kern (pg_world pool_left))) !! 2) ∧
  ¬ is_Some (fdt (obs (kern (pg_world pool_left))) !! 4).
Proof.
  destruct (pool_program_leaves_nothing td_file pool_args td_sim pool_start.1 pool_start.2 pool_left pool_left_state
    ltac:(vm_compute; reflexivity)) as (_ & _ & H).
  split; [vm_compute; reflexivity|]. split; [apply (H 2); vm_compute; by eexists|]. intros Hs%H. vm_compute in Hs. by destruct Hs.
Defined.


Lemma tpc_program_barrier_witness :
  tq_main (pg_backend tpc_left) = AReturned 20 ∧ tq_live (pg_backend tpc_left) = unfinished (pg_backend tpc_left) + 0 ∧
  ∃ t, rtc tstep Threads_new t ∧ tpc_rel (pg_backend tpc_left) t.
Proof.
  destruct (tpc_program_barrier td_file tpc_args td_sim tpc_start.1 tpc_start.2 tpc_left tpc_left_state) as (Ht & Hl & _).
  split; [vm_compute; reflexivity|]. split; [exact Hl|exact Ht].
Defined.


(** ** When the 30 seconds are over

The client's thread waits for its lookup while the drain goes through its 1500 rounds;
[run] then returns, [main] shuts the resolver down and destroys it, and the thread is
still in the middle of its connection. *)
Definition tpc_waiting : list (ProgAct (@tb_act TpcBackend _)) :=
  tpc_serving ++ [ByBackend TaSignal; ByBackend TaMain] ++ repeat (ByBackend TaMain) 1501 ++ resolvers_leave.
Definition tpc_late : Prog TpcBackend Sim LruCache := tpc_after tpc_waiting.
Definition late_conn : option Connection := mjoin (tb_conns (pg_backend tpc_late) !! 0%nat).

Lemma grace_period_abandons :
  thread_state pick_tpc td_file tpc_args td_sim tpc_start.1 tpc_start.2 tpc_late ∧
  pg_main tpc_late = PgExit ∧ tq_live (pg_backend tpc_late) = 1 ∧
  state_ <$> late_conn = Some Resolving ∧ is_Some (fdt (obs (kern (pg_world tpc_late))) !! 4).
Proof.
  split; [apply (tpc_reached tpc_waiting); vm_compute; reflexivity|]. split_and!; try (vm_compute; reflexivity).
  vm_compute. by eexists.
Qed.
